(* ===== verification/_CoqProject ===== *)
-Q . S2P
Prelude.v
Text.v
External.v
Ids.v
Frontier.v
Batch.v
Record.v
Genesis.v
GitPolicy.v
Store.v
Segment.v
FrontierGraph.v
Clients.v
Coordination.v
Batches.v
Archive.v
Policy.v
PolicyStore.v
Codec.v
PolicyPages.v
Append.v
Packing.v
Sealing.v
WriterExamples.v
Ranges.v
Visit.v
Frames.v
Streaming.v
RangesExamples.v
AppendBase.v
StreamingExamples.v
WorkTree.v
LocalFiles.v
Recovery.v
Interrupted.v
Interaction.v
Remote.v
Leases.v
Sync.v
Publication.v
Repository.v
Published.v
System.v
SystemExamples.v
RecoveryExamples.v
PublicationExamples.v
