(* ===== verification/Prelude.v ===== *)
(** Archive Ledger verification library.

    Archive Ledger keeps the catalog of a preservation archive as an append-only, signed event
    history in a Git repository that several clients share. This library models the core of the
    program, the event store, and the evaluation of preservation policies, and proves what makes
    them correct. File names of the program are relative to [src/src].

    * The program

    Every client writes its own origin: a chain of records ([v2_event.rs]), grouped into batches
    ([v2_batch.rs]), stored in segment files whose manifests the client signs. A causal frontier
    ([frontier.rs]) names the last accepted record of every origin; it is stored under the hash of
    its bytes and names its parents, down to the frontier of the signed genesis ([genesis.rs]).
    The file [frontiers/v2/HEAD] names the accepted frontier. [v2_store.rs] reads and verifies
    such a tree, appends to it, and merges and publishes it over Git ([git.rs]);
    [v2_store/recovery.rs] and [v2_store/publication.rs] repair what an interrupted append left;
    [policy.rs] judges whether files have enough copies.

    * The files of the library

    - This file: results and the error and state monads with their lemmas, loops that may fail,
      the tactics ([inv_ok], [run_ok]) and the hint databases. [Text]: Rust strings. [External]:
      the crates (blake3, ed25519, base64, ulid, serde_json) as classes of functions, with their
      documented behaviour as classes of laws. [Ids]: identifier formats.
    - Data: [Frontier], [Batch], [Record], [Genesis], [GitPolicy], one for each Rust file named
      above.
    - Reading, [v2_store.rs]: [Store] (errors, trees, paths, JSON), [Segment]
      ([verify_origin]), [FrontierGraph] ([load_frontier_graph]), [Clients] (enrollment and
      revocation), [Coordination] (signed leases), [Batches] ([verify_batches]), [Archive]
      ([verify], [union_frontier]), [Ranges] ([verify_since]), [Visit] and [Streaming]
      ([visit_verified], [verify_compact] and their relatives), [Frames] (which files they
      depend on). [tree_read] and [tree_list] of [Store] are the file system a reader sees. A
      streaming visit reads a segment once to authenticate it and opens it again to replay it:
      the second read is a function of its own ([reopen]).
    - Writing, [v2_store.rs]: [AppendBase] (which verified archive [append_batch_locked] builds
      on), [Append] (from that archive to the new [HEAD]), with its theorems in [Packing] and
      [Sealing]; a disk is a map from paths to bytes.
    - Interruptions: [LocalFiles] (files with links, directories, effects and crashes),
      [Recovery] ([recover_unpublished_append], and the append effect by effect), [Interrupted]
      (its theorems); [Publication] ([recover_pending_publication]), [Repository] (Git and the
      file system it runs on), [Published] (its theorem).
    - Several clients: [WorkTree] (merging checkouts, with symbolic links), [Interaction] (programs that call an
      environment, and pools of them), [Remote] (Git processes), [Leases]
      ([acquire_archive_lease], [release_archive_lease]), [Sync] ([sync_remote]), [System] (all of
      them at once).
    - Policies, [policy.rs]: [Policy] (one file), [PolicyStore] (a run over the database, cached
      status), [PolicyPages] (pages of findings).
    - Examples, on which the theorems are applied and the definitions run: [Codec] (a JSON codec),
      [WriterExamples], [RangesExamples], [StreamingExamples], [SystemExamples],
      [RecoveryExamples], [PublicationExamples], and a module [Examples] in most other files.

    A Rust function is a definition of the same name; where a file system, Git or a visitor is
    part of its state, it is a [Tree], a disk, a world or a state it takes and returns. [Result]
    is [result], with the constructors of [V2StoreError]; [?] is the bind of its monad. Machine
    integers are [N] with the checked operations of the code written out ([checked_add_u64]).
    Loops whose end is not structural take fuel.

    * What the theorems show

    - The history: a successor never loses an origin or forks an accepted tail
      ([Frontier.chain_extends]); a loaded graph consists of accepted steps; a verified origin is
      one signed, gapless chain ([Segment.verify_origin_chain]) and its tail's hash determines its
      lines; a verified archive meets a specification written independently of the verifier
      ([Archive.verify_archive_sound]), and [HEAD] determines its content up to a collision. What
      a client may write is said with the registry that the records verified before it make
      ([registry_after], [replayed_from]), so its enrollment and its revocation both count.
    - The ways of reading agree: incremental with full verification, streaming with retaining
      verification, pages with the unpaged query. A visitor is shown whole consecutive segments
      only. What the ways of reading do not check alike is shown by concrete archives
      ([StreamingExamples.repeated_batch_visited],
      [Archive.Examples.genesis_revocation_unchecked]), lemmas behind findings.
    - What is written is read: the base of an append was verified ([AppendBase]); an append
      ends, stays within the limits, extends the history and verifies ([Sealing]).
    - Interruptions: no crash of an append or a recovery, in any number, touches the accepted
      history, and the next recovery succeeds and moves every segment, manifest and frontier that
      was left; temporary files and new directories stay ([Interrupted]); a recovery of a publication
      commits exactly the verified working files or leaves [HEAD] where it is ([Published]).
    - Several clients: under any interleaving, leases exclude each other, refs only move forward,
      what was reported synchronized is in the history, a merge is the union of the client's
      archive with that of the remote's commit, and pushes are bounded ([System], [Sync]). What
      is pushed over a remote's history was checked before ([Sync.publication_checked]); the gap
      between the check and the push is the lemma [Sync.publication_outlives_check].
    - Policies: exactly when a file is satisfied, and that a satisfied one survives the loss of
      any failure domain; the evaluations a run publishes are usable until their limit.

    * Fuel

    The loops over the records of an origin, over pending origins and over items of a batch are
    given as many turns as they can need, or are total in the length of the input, and it is
    proved that fuel is never what stops them ([Ranges.verify_since_total],
    [Sealing.append_terminates], [PolicyPages.read_pages_all]). The depth of the frontier graph
    is an argument, since a graph of hashes has none: [FrontierGraph] shows that loading ends
    with more fuel than the longest chain of parents, and a theorem about a verification that
    succeeded holds for every fuel with which it did. Retries have the bounds of the code.

    * What is assumed

    The classes of laws in [External] and the codec laws of the files that need them are
    documented behaviour of the crates; each has an instance, and no theorem assumes blake3 to be
    free of collisions: where two inputs could collide, the conclusion names them. Git, the file
    system and the clock are the relations [exec] of [Remote] and [repository_exec] of
    [Repository]: a process may fail at any call, and may have had its effect although its answer
    is lost. There is one remote, and the clients read one clock; between their calls time
    passes and clients commit local appends. What a tree object holds ([GitTrees]) is Git's:
    a checkout gives it back, and adding and writing a directory makes it. Where a path with
    symbolic links leads ([PathResolution]) is the kernel's. When a theorem on streaming says
    so, opening a segment again gives the bytes that were authenticated, or fails. A crash ([LocalFiles]) stops a
    client between two effects or in the middle of writing a file, renames and new directories
    are atomic, and what was written before is kept; during the repeated interruptions of
    [Interrupted] nobody changes the Git index. A publication recovery runs alone in its
    repository, as the append lock has it; Git hashes blobs to object names, and lists no
    untracked file but those that are there.

    * Not modelled

    - [v2_projection.rs], [compact_projection.rs], [projection.rs], the [sqlite_] files,
      [catalog.rs], [review.rs], [app_integration.rs]: their logic is in SQL text that SQLite
      runs. The catalog tables that [policy.rs] joins are finite maps in [PolicyStore] and
      [PolicyPages].
    - [event_store.rs]: the version 1 journal that [v2_store.rs] replaced.
    - [main.rs] and the [_cli] files: arguments, prompts and output.
    - [scan.rs], [v2_inventory.rs], [discovery.rs], [storage.rs], [annex.rs], [stage.rs],
      [safe_copy.rs], [job.rs], [progress.rs], [status.rs], [metadata.rs]: walks of mounted file
      systems, other programs' output, copies and displays.
    - [registry.rs], [v2_fsck.rs], [v2_snapshot.rs]: typed rows over SQLite, and drivers of the
      verification modelled here.
    - Of [v2_store.rs]: enrollment requests and their files, the local record of synchronized
      commits read offline, permissions of files, removing temporary checkouts; of
      [recovery.rs]: the listing [unpublished_append_paths]; of [publication.rs]: taking the
      lock; of [policy.rs]: the definitions of policies stored in SQL. *)
From Stdlib Require Import ZArith NArith Lia.
From stdpp Require Export base decidable list gmap strings sorting.

(** ** Fallible code *)

(** Rust's [Result<A, E>]; the error type comes first so that [result E] is a
    type constructor for the monad notations. *)
Inductive result (E A : Type) : Type :=
  | Ok (a : A)
  | Err (e : E).
Arguments Ok {E A} a.
Arguments Err {E A} e.

#[export] Instance result_ret E : MRet (result E) := λ A a, Ok a.

(** The [?] operator without an error conversion. *)
#[export] Instance result_bind E : MBind (result E) := λ A B k m,
  match m with
  | Ok a => k a
  | Err e => Err e
  end.

#[export] Instance result_fmap E : FMap (result E) := λ A B f m,
  match m with
  | Ok a => Ok (f a)
  | Err e => Err e
  end.

(** [if cond { return Err(e) }]. *)
Definition bail_if {E} (cond : bool) (e : E) : result E () :=
  if cond then Err e else Ok ().

(** [Result::map_err], used where [?] converts between error types. *)
Definition map_err {E F A} (f : E → F) (m : result E A) : result F A :=
  match m with
  | Ok a => Ok a
  | Err e => Err (f e)
  end.

(** [Option::ok_or]. *)
Definition ok_or {E A} (o : option A) (e : E) : result E A :=
  match o with
  | Some a => Ok a
  | None => Err e
  end.

(** A property that is equivalent to a decidable one is decidable. *)
Definition dec_iff {P Q : Prop} (H : Q ↔ P) (d : Decision P) : Decision Q :=
  match d with
  | left p => left (proj2 H p)
  | right n => right (λ q, n (proj1 H q))
  end.

Definition is_some_b {A} (o : option A) : bool :=
  match o with Some _ => true | None => false end.

Definition is_ok {E A} (m : result E A) : bool :=
  match m with Ok _ => true | Err _ => false end.

(** A [for] loop whose body may return early with an error. *)
Fixpoint for_each {E A} (f : A → result E ()) (l : list A) : result E () :=
  match l with
  | [] => Ok ()
  | x :: l => _ ← f x; for_each f l
  end.

(** A [for] loop that threads mutable locals [b] through its body. *)
Fixpoint fold_result {E A B} (f : B → A → result E B) (b : B) (l : list A) : result E B :=
  match l with
  | [] => Ok b
  | x :: l => b' ← f b x; fold_result f b' l
  end.

(** Collecting a fallible map into a vector. *)
Fixpoint map_result {E A B} (f : A → result E B) (l : list A) : result E (list B) :=
  match l with
  | [] => Ok []
  | x :: l => y ← f x; ys ← map_result f l; Ok (y :: ys)
  end.

(** ** Methods on [&mut self] *)

(** A method that may fail: it returns its result and the state it leaves
    behind. As in Rust, [?] keeps whatever was written before it returned. *)
Definition st (S E A : Type) : Type := S → result E A * S.

#[export] Instance st_ret S E : MRet (st S E) := λ A a s, (Ok a, s).

#[export] Instance st_bind S E : MBind (st S E) := λ A B k m s,
  match m s with
  | (Ok a, s') => k a s'
  | (Err e, s') => (Err e, s')
  end.

Definition st_get {S E} : st S E S := λ s, (Ok s, s).

Definition st_modify {S E} (f : S → S) : st S E () := λ s, (Ok (), f s).

Definition st_lift {S E A} (m : result E A) : st S E A := λ s, (m, s).

Definition st_gets {S E A} (f : S → A) : st S E A := λ s, (Ok (f s), s).

(** A database transaction around a body: dropped without commit on an error,
    so the state is rolled back. *)
Definition transaction {S E A} (m : st S E A) : st S E A := λ s,
  match m s with
  | (Ok a, s') => (Ok a, s')
  | (Err e, _) => (Err e, s)
  end.

(** A loop of state-changing calls collecting the results. *)
Fixpoint st_map {S E A B} (f : A → st S E B) (l : list A) : st S E (list B) :=
  match l with
  | [] => mret []
  | x :: l => y ← f x; ys ← st_map f l; mret (y :: ys)
  end.

(** A [for] loop of state-changing calls that threads locals through its body. *)
Fixpoint st_fold {S E A B} (f : B → A → st S E B) (b : B) (l : list A) : st S E B :=
  match l with
  | [] => mret b
  | x :: l => b' ← f b x; st_fold f b' l
  end.

(** ** Machine integers *)

(** [u32], [u64] and [usize] values are [N], [i64] values are [Z]; the bounds are
    written out where the code checks them. *)
Definition u32_max : N := 4294967295%N.
Definition u64_max : N := 18446744073709551615%N.
Definition i64_max : Z := 9223372036854775807%Z.
Definition i64_min : Z := (-9223372036854775808)%Z.

Definition checked_add_u64 (a b : N) : option N :=
  if (a + b <=? u64_max)%N then Some (a + b)%N else None.

Definition checked_mul_u64 (a b : N) : option N :=
  if (a * b <=? u64_max)%N then Some (a * b)%N else None.

Definition saturating_add_u64 (a b : N) : N := N.min (a + b) u64_max.

(** [a += b] in a release build. *)
Definition wrapping_add_u64 (a b : N) : N := ((a + b) mod (u64_max + 1))%N.

(** [i64::try_from] of a [u64] and [u64::try_from] of an [i64]. *)
Definition i64_of_u64 (n : N) : option Z :=
  if (Z.of_N n <=? i64_max)%Z then Some (Z.of_N n) else None.

Definition u64_of_i64 (z : Z) : option N :=
  if (0 <=? z)%Z then Some (Z.to_N z) else None.

(** ** Slices *)

(** The loop of [slice::binary_search_by]: [size] shrinks by its half each round,
    so [fuel] of the slice's length is enough. *)
Fixpoint binary_search_loop {A} (cmp : A → comparison) (l : list A)
    (fuel base size : nat) : nat :=
  match fuel with
  | O => base
  | S fuel =>
      if decide (1 < size) then
        let half := size `div` 2 in
        let mid := base + half in
        let base' :=
          match cmp <$> l !! mid with
          | Some Gt => base
          | _ => mid
          end in
        binary_search_loop cmp l fuel base' (size - half)
      else base
  end.

(** [slice::binary_search_by]: [Some i] for [Ok(i)], [None] for [Err(_)]. *)
Definition binary_search_by {A} (cmp : A → comparison) (l : list A) : option nat :=
  match l with
  | [] => None
  | _ =>
      let base := binary_search_loop cmp l (length l) 0 (length l) in
      match cmp <$> l !! base with
      | Some Eq => Some base
      | _ => None
      end
  end.

(** ** Order of byte strings *)

(** Strict order of Rust's [str] and [Vec<u8>]: bytewise lexicographic. *)
Definition str_lt (s1 s2 : string) : Prop := String.compare s1 s2 = Lt.

#[export] Instance str_lt_dec : RelDecision str_lt.
Proof. intros s1 s2. unfold str_lt. apply _. Defined.

(** ** Lemmas: results *)

Section results.
Context {E : Type}.
Implicit Types (e : E).

Lemma bind_Ok {A B} (m : result E A) (k : A → result E B) (b : B) :
  (m ≫= k) = Ok b ↔ ∃ a, m = Ok a ∧ k a = Ok b.
Proof. destruct m; naive_solver. Qed.

Lemma bind_Err {A B} (m : result E A) (k : A → result E B) e :
  (m ≫= k) = Err e ↔ m = Err e ∨ ∃ a, m = Ok a ∧ k a = Err e.
Proof. destruct m; naive_solver. Qed.

Lemma bail_if_Ok (c : bool) e u : bail_if c e = Ok u ↔ c = false.
Proof. destruct c, u; naive_solver. Qed.

Lemma bail_if_Err (c : bool) e e' : bail_if c e = Err e' ↔ c = true ∧ e' = e.
Proof. destruct c; naive_solver. Qed.

Lemma ok_or_Ok {A} (o : option A) e a : ok_or o e = Ok a ↔ o = Some a.
Proof. destruct o; naive_solver. Qed.

Lemma ok_or_Err {A} (o : option A) e e' : ok_or o e = Err e' ↔ o = None ∧ e' = e.
Proof. destruct o; naive_solver. Qed.

Lemma map_err_Ok {F A} (f : E → F) (m : result E A) a :
  map_err f m = Ok a ↔ m = Ok a.
Proof. destruct m; naive_solver. Qed.

Lemma for_each_Ok {A} (f : A → result E ()) (l : list A) u :
  for_each f l = Ok u ↔ ∀ x, x ∈ l → f x = Ok ().
Proof.
  destruct u. induction l as [|x l IH]; cbn.
  - split; [set_solver | done].
  - rewrite bind_Ok. setoid_rewrite elem_of_cons. split.
    + intros ([] & Hx & Hl) y [-> | Hy]; [done | by apply IH].
    + intros H. exists (). split; [by apply H; left |]. apply IH; auto.
Qed.

Lemma map_result_Ok {A B} (f : A → result E B) (l : list A) (ys : list B) :
  map_result f l = Ok ys ↔ Forall2 (λ x y, f x = Ok y) l ys.
Proof.
  revert ys. induction l as [|x l IH]; intros ys; cbn.
  - split; [intros [= <-]; constructor | by intros ->%Forall2_nil_inv_l].
  - rewrite bind_Ok. split.
    + intros (y & Hy & (ys' & Hys' & [= <-])%bind_Ok). constructor; [done | by apply IH].
    + intros (y & ys' & Hy & Hys' & ->)%Forall2_cons_inv_l.
      exists y. split; [done |]. apply bind_Ok. exists ys'. by rewrite IH.
Qed.

Lemma map_result_app {A B} (f : A → result E B) (l k : list A) (ys : list B) :
  map_result f (l ++ k) = Ok ys ↔
  ∃ ys1 ys2, ys = ys1 ++ ys2 ∧ map_result f l = Ok ys1 ∧ map_result f k = Ok ys2.
Proof.
  setoid_rewrite map_result_Ok. split.
  - intros (ys1 & ys2 & ? & ? & ->)%Forall2_app_inv_l. eauto.
  - intros (ys1 & ys2 & -> & ? & ?). by apply Forall2_app.
Qed.

Lemma map_result_take {A B} (f : A → result E B) n (l : list A) (ys : list B) :
  map_result f l = Ok ys → map_result f (take n l) = Ok (take n ys).
Proof. rewrite !map_result_Ok. apply Forall2_take. Qed.

Lemma map_result_drop {A B} (f : A → result E B) n (l : list A) (ys : list B) :
  map_result f l = Ok ys → map_result f (drop n l) = Ok (drop n ys).
Proof. rewrite !map_result_Ok. apply Forall2_drop. Qed.

(** Loop rule: a property of the locals kept by every iteration. *)
Lemma fold_result_ind {A B} (f : B → A → result E B) (P : list A → B → Prop) l b b' :
  P [] b →
  (∀ done x c c', P done c → f c x = Ok c' → P (done ++ [x]) c') →
  fold_result f b l = Ok b' → P l b'.
Proof.
  intros H0 Hstep.
  enough (∀ done c, P done c → fold_result f c l = Ok b' → P (done ++ l) b') as H.
  { apply (H []). done. }
  induction l as [|x l IH]; cbn; intros done c Hc Hf.
  - rewrite app_nil_r. congruence.
  - apply bind_Ok in Hf as (c' & Hx & Hf).
    rewrite (cons_middle x done l), app_assoc. eauto.
Qed.

(** A property of the entries of a log, each with what the entries before it hold. *)
Definition in_turn {K V} (P : list V → K → list V → Prop) (log : list (K * list V)) : Prop :=
  ∀ done k vs rest, log = done ++ (k, vs) :: rest → P (concat done.*2) k vs.

Lemma in_turn_nil {K V} (P : list V → K → list V → Prop) : in_turn P [].
Proof. by intros []. Qed.

Lemma in_turn_snoc {K V} (P : list V → K → list V → Prop) log k vs :
  in_turn P log → P (concat log.*2) k vs → in_turn P (log ++ [(k, vs)]).
Proof.
  intros Hlog Hk before k' vs' rest Heq. destruct rest as [|p rest _] using rev_ind.
  - apply app_inj_tail in Heq as [<- [= <- <-]]. done.
  - rewrite app_comm_cons, app_assoc in Heq. apply app_inj_tail in Heq as [-> _].
    by apply (Hlog _ _ _ rest).
Qed.

(** Where the values of an entry stand among all the values of the log. *)
Lemma in_turn_elem {K V} (P : list V → K → list V → Prop) log k vs :
  in_turn P log → (k, vs) ∈ log →
  ∃ prior post, concat log.*2 = prior ++ vs ++ post ∧ P prior k vs.
Proof.
  intros Hlog (before & rest & ->)%list_elem_of_split.
  exists (concat before.*2), (concat rest.*2). split; [|by eapply Hlog].
  by rewrite fmap_app, fmap_cons, concat_app.
Qed.

Lemma in_turn_all {K V} (P : list V → K → list V → Prop) log :
  in_turn P log → Forall (λ p, ∃ prior, P prior p.1 p.2) log.
Proof.
  rewrite Forall_forall. intros Hlog [k vs] (prior & _ & _ & Hp)%(in_turn_elem P); [by exists prior | done].
Qed.

(** The same, for a body that is only run on the elements of the list. *)
Lemma fold_result_ind_in {A B} (f : B → A → result E B) (P : list A → B → Prop) l b b' :
  P [] b →
  (∀ done x rest c c', l = done ++ x :: rest → P done c → f c x = Ok c' → P (done ++ [x]) c') →
  fold_result f b l = Ok b' → P l b'.
Proof.
  intros H0 Hstep.
  enough (∀ done rest c, l = done ++ rest → P done c → fold_result f c rest = Ok b' → P l b')
    as H by (apply (H [] l b); done).
  intros done rest. revert done. induction rest as [|x rest IH]; cbn; intros done c -> Hc Hf.
  - rewrite app_nil_r. congruence.
  - apply bind_Ok in Hf as (c' & Hx & Hf). apply (IH (done ++ [x]) c').
    + by rewrite <- app_assoc.
    + eapply Hstep; eauto.
    + done.
Qed.

(** A loop all of whose iterations succeed succeeds. *)
Lemma fold_result_app {A B} (f : B → A → result E B) b l k :
  fold_result f b (l ++ k) = (c ← fold_result f b l; fold_result f c k).
Proof. revert b. induction l as [|x l IH]; intros b; cbn; [done |]. destruct (f b x); cbn; auto. Qed.

Lemma fold_result_total {A B} (f : B → A → result E B) l b :
  (∀ c x, x ∈ l → ∃ c', f c x = Ok c') → ∃ b', fold_result f b l = Ok b'.
Proof.
  revert b. induction l as [|x l IH]; intros b Hf; cbn; [eauto |].
  destruct (Hf b x) as [c Hc]; [by left |].
  destruct (IH c) as [b' Hb']; [intros; apply Hf; by right |].
  exists b'. apply bind_Ok. eauto.
Qed.
End results.

Create Rewrite HintDb result.
#[export] Hint Rewrite @bail_if_Ok @ok_or_Ok @map_err_Ok negb_false_iff N.eqb_eq N.eqb_neq
  N.ltb_ge bool_decide_eq_true bool_decide_eq_false : result.

(** Splits a successful run into the facts its checks established. *)
Ltac inv_ok :=
  repeat match goal with
    | H : Ok _ = Ok _ |- _ => injection H as H; subst
    | H : Err _ = Err _ |- _ => injection H as H; subst
    | H : Ok _ = Err _ |- _ => discriminate H
    | H : Err _ = Ok _ |- _ => discriminate H
    | H : (_ ≫= _) = Ok _ |- _ => apply bind_Ok in H as (? & ? & ?)
    | H : mret _ = Ok _ |- _ => injection H as H; subst
    | H : bail_if _ _ = Ok _ |- _ => apply bail_if_Ok in H
    | H : ok_or _ _ = Ok _ |- _ => apply ok_or_Ok in H
    | H : map_err _ _ = Ok _ |- _ => apply map_err_Ok in H
    | u : () |- _ => destruct u
    end.

(** Runs the checks of a code path whose conditions are hypotheses. *)
Ltac run_ok :=
  repeat (apply bind_Ok; first [exists () | eexists]; split;
    [solve [done | autorewrite with result; eauto
            | apply bail_if_Ok; rewrite ?orb_false_iff; autorewrite with result; split_and!;
              first [done | lia | eauto]] |]).

(** Turns the boolean guards of the code into propositions. *)
Ltac boolify :=
  repeat match goal with
    | H : _ && _ = true |- _ => apply andb_true_iff in H as [? ?]
    | H : _ || _ = false |- _ => apply orb_false_iff in H as [? ?]
    | H : negb _ = true |- _ => apply negb_true_iff in H
    | H : negb _ = false |- _ => apply negb_false_iff in H
    | H : bool_decide _ = true |- _ => apply bool_decide_eq_true_1 in H
    | H : bool_decide _ = false |- _ => apply bool_decide_eq_false_1 in H
    | H : (_ =? _)%N = true |- _ => apply N.eqb_eq in H
    | H : (_ =? _)%N = false |- _ => apply N.eqb_neq in H
    | H : (_ <=? _)%N = true |- _ => apply N.leb_le in H
    | H : (_ <=? _)%N = false |- _ => apply N.leb_gt in H
    | H : (_ <? _)%N = true |- _ => apply N.ltb_lt in H
    | H : (_ <? _)%N = false |- _ => apply N.ltb_ge in H
    | H : (_ <=? _)%Z = true |- _ => apply Z.leb_le in H
    | H : (_ <=? _)%Z = false |- _ => apply Z.leb_gt in H
    | H : (_ <? _)%Z = true |- _ => apply Z.ltb_lt in H
    | H : (_ <? _)%Z = false |- _ => apply Z.ltb_ge in H
    end.

(** ** Lemmas: state *)

Section states.
Context {S E : Type}.

Lemma st_bind_Ok {A B} (m : st S E A) (k : A → st S E B) s b s' :
  (m ≫= k) s = (Ok b, s') ↔ ∃ a s1, m s = (Ok a, s1) ∧ k a s1 = (Ok b, s').
Proof. unfold mbind, st_bind. destruct (m s) as [[a|e] s1]; naive_solver. Qed.

Lemma transaction_Ok {A} (m : st S E A) s a s' :
  transaction m s = (Ok a, s') ↔ m s = (Ok a, s').
Proof. unfold transaction. destruct (m s) as [[]]; naive_solver. Qed.

(** A failed transaction leaves no trace. *)
Lemma transaction_Err {A} (m : st S E A) s e s' :
  transaction m s = (Err e, s') → s' = s.
Proof. unfold transaction. destruct (m s) as [[]]; naive_solver. Qed.

(** An invariant kept by every successful step of a loop is kept by the loop. *)
Lemma st_map_inv {A B} (f : A → st S E B) (I : S → Prop) l s ys s' :
  (∀ x s y s', x ∈ l → I s → f x s = (Ok y, s') → I s') →
  I s → st_map f l s = (Ok ys, s') → I s'.
Proof.
  revert s ys. induction l as [|x l IH]; cbn; intros s ys Hstep Hs Hrun.
  - by injection Hrun as _ ->.
  - apply st_bind_Ok in Hrun as (y & s1 & Hx & Hrun).
    apply st_bind_Ok in Hrun as (ys' & s2 & Hl & Hret). injection Hret as _ <-.
    eapply IH in Hl; eauto using list_elem_of_here, list_elem_of_further.
Qed.

Lemma st_map_length {A B} (f : A → st S E B) l s ys s' :
  st_map f l s = (Ok ys, s') → length ys = length l.
Proof.
  revert s ys s'. induction l as [|x l IH]; cbn; intros s ys s' Hrun.
  - by injection Hrun as <- _.
  - apply st_bind_Ok in Hrun as (y & s1 & Hx & Hrun).
    apply st_bind_Ok in Hrun as (ys' & s2 & Hl & Hret).
    injection Hret as <- <-. cbn. f_equal. eauto.
Qed.
End states.

(** ** Lemmas: machine integers *)

Lemma checked_add_u64_Some a b c :
  checked_add_u64 a b = Some c ↔ c = (a + b)%N ∧ (a + b <= u64_max)%N.
Proof. unfold checked_add_u64. case_match; boolify; naive_solver lia. Qed.

Lemma checked_mul_u64_Some a b c :
  checked_mul_u64 a b = Some c ↔ c = (a * b)%N ∧ (a * b <= u64_max)%N.
Proof. unfold checked_mul_u64. case_match; boolify; naive_solver lia. Qed.

Lemma wrapping_add_u64_small a b :
  (a + b <= u64_max)%N → wrapping_add_u64 a b = (a + b)%N.
Proof. intros. unfold wrapping_add_u64. apply N.mod_small. lia. Qed.

Lemma i64_of_u64_Some n z :
  i64_of_u64 n = Some z ↔ z = Z.of_N n ∧ (Z.of_N n <= i64_max)%Z.
Proof. unfold i64_of_u64. case_match; boolify; naive_solver lia. Qed.

Lemma u64_of_i64_Some z n :
  u64_of_i64 z = Some n ↔ n = Z.to_N z ∧ (0 <= z)%Z.
Proof. unfold u64_of_i64. case_match; boolify; naive_solver lia. Qed.

Lemma u64_of_i64_of_u64 n z : i64_of_u64 n = Some z → u64_of_i64 z = Some n.
Proof. rewrite i64_of_u64_Some, u64_of_i64_Some. intros [-> ?]. lia. Qed.

#[export] Hint Rewrite checked_add_u64_Some checked_mul_u64_Some i64_of_u64_Some
  u64_of_i64_Some : result.

(** ** Lemmas: byte strings *)

Lemma str_compare_refl s : String.compare s s = Eq.
Proof.
  induction s as [|a s IH]; cbn; [done |].
  unfold Ascii.compare. by rewrite N.compare_refl.
Qed.

Lemma str_compare_eq s1 s2 : String.compare s1 s2 = Eq ↔ s1 = s2.
Proof.
  split; [apply String.compare_eq_iff | intros ->; apply str_compare_refl].
Qed.

Lemma str_lt_le s1 s2 : str_lt s1 s2 ↔ String.le s1 s2 ∧ s1 ≠ s2.
Proof.
  unfold str_lt, String.le, String.leb. rewrite <- str_compare_eq.
  destruct (String.compare s1 s2); naive_solver.
Qed.

#[export] Instance str_lt_strict : StrictOrder str_lt.
Proof.
  split.
  - intros s [_ H]%str_lt_le. done.
  - intros s1 s2 s3. rewrite !str_lt_le. intros [H12 Hne] [H23 Hne'].
    split; [by etrans |]. intros ->. apply Hne. by apply (anti_symm String.le).
Qed.

Lemma str_lt_irrefl s : ¬ str_lt s s.
Proof. apply (irreflexivity str_lt). Qed.

Lemma str_lt_gt s1 s2 : String.compare s1 s2 = Gt ↔ str_lt s2 s1.
Proof.
  unfold str_lt. rewrite String.compare_antisym.
  destruct (String.compare s2 s1); naive_solver.
Qed.

Lemma str_trichotomy s1 s2 : str_lt s1 s2 ∨ s1 = s2 ∨ str_lt s2 s1.
Proof.
  rewrite <- (str_lt_gt s1 s2), <- str_compare_eq. unfold str_lt.
  destruct (String.compare s1 s2); auto.
Qed.

(** ** Lemmas: filters *)

Lemma filter_all {A} (P : A → Prop) `{∀ x, Decision (P x)} (l : list A) :
  (∀ x, x ∈ l → P x) → filter P l = l.
Proof.
  induction l as [|x l IH]; intros Hl; [done |].
  rewrite filter_cons_True by (apply Hl; by left). rewrite IH; [done |]. intros y Hy. apply Hl. by right.
Qed.

Lemma filter_none {A} (P : A → Prop) `{∀ x, Decision (P x)} (l : list A) :
  (∀ x, x ∈ l → ¬ P x) → filter P l = [].
Proof.
  induction l as [|x l IH]; intros Hl; [done |].
  rewrite filter_cons_False by (apply Hl; by left). apply IH. intros y Hy. apply Hl. by right.
Qed.

Lemma filter_ext_in {A} (P Q : A → Prop) `{∀ x, Decision (P x), ∀ x, Decision (Q x)}
    (l : list A) :
  (∀ x, x ∈ l → P x ↔ Q x) → filter P l = filter Q l.
Proof.
  induction l as [|x l IH]; intros HPQ; [done |]. rewrite !filter_cons.
  rewrite IH by (intros y Hy; apply HPQ; by right). specialize (HPQ x ltac:(left)).
  repeat case_decide; tauto.
Qed.

Lemma omap_fmap {A B C} (f : A → B) (g : B → option C) (l : list A) :
  omap g (f <$> l) = omap (λ x, g (f x)) l.
Proof. induction l as [|x l IH]; cbn; [done |]. by rewrite <- IH. Qed.

(** ** Lemmas: strictly sorted lists *)

(** [l] is strictly increasing in its string key. *)
Definition key_sorted {A} (key : A → string) (l : list A) : Prop :=
  StronglySorted (λ x y, str_lt (key x) (key y)) l.

Section key_sorted.
Context {A : Type} (key : A → string).

Lemma key_sorted_snoc l x :
  key_sorted key l →
  (∀ y, last l = Some y → str_lt (key y) (key x)) →
  key_sorted key (l ++ [x]).
Proof.
  unfold key_sorted. induction l as [|a l IH]; intros Hl Hlast.
  - repeat constructor.
  - apply StronglySorted_inv in Hl as [Hl Ha]. cbn. constructor.
    + apply IH; [done |]. intros y Hy. apply Hlast.
      by destruct l.
    + apply Forall_app; split; [done |]. constructor; [|done].
      destruct (last l) as [y|] eqn:Hy.
      * rewrite Forall_forall in Ha. trans (key y).
        { apply Ha. by apply last_Some_elem_of. }
        apply Hlast. by rewrite last_cons, Hy.
      * apply Hlast. by rewrite last_cons, Hy.
Qed.

Lemma key_sorted_lookup l i j x y :
  key_sorted key l → l !! i = Some x → l !! j = Some y →
  i < j → str_lt (key x) (key y).
Proof.
  unfold key_sorted. intros Hl. revert i j.
  induction Hl as [|a l Hl IH Ha]; intros i j Hi Hj Hij; [done |].
  destruct j as [|j]; [lia |]. cbn in Hj. destruct i as [|i]; cbn in Hi.
  - injection Hi as ->. rewrite Forall_forall in Ha. apply Ha.
    by eapply list_elem_of_lookup_2.
  - apply (IH i j); auto with lia.
Qed.

Lemma key_sorted_inj l x y :
  key_sorted key l → x ∈ l → y ∈ l → key x = key y → x = y.
Proof.
  intros Hl [i Hi]%list_elem_of_lookup_1 [j Hj]%list_elem_of_lookup_1 Hk.
  destruct (Nat.lt_trichotomy i j) as [Hlt | [-> | Hlt]].
  - pose proof (key_sorted_lookup l i j x y Hl Hi Hj Hlt) as H.
    rewrite Hk in H. by apply str_lt_irrefl in H.
  - congruence.
  - pose proof (key_sorted_lookup l j i y x Hl Hj Hi Hlt) as H.
    rewrite Hk in H. by apply str_lt_irrefl in H.
Qed.

Lemma key_sorted_cons a l :
  key_sorted key (a :: l) ↔
  key_sorted key l ∧ ∀ b, head l = Some b → str_lt (key a) (key b).
Proof.
  unfold key_sorted. split.
  - intros [Hl Ha]%StronglySorted_inv. split; [done |].
    rewrite Forall_forall in Ha. intros b Hb. apply Ha.
    by apply head_Some_elem_of.
  - intros [Hl Ha]. constructor; [done |]. rewrite Forall_forall. intros x Hx.
    destruct Hl as [|b l Hl Hb]; [by apply not_elem_of_nil in Hx |].
    specialize (Ha b eq_refl). apply elem_of_cons in Hx as [-> | Hx]; [done |].
    rewrite Forall_forall in Hb. trans (key b); auto.
Qed.

(** Sorting by a key that no two elements share sorts strictly. *)
Lemma key_sorted_merge_sort l :
  NoDup (key <$> l) → key_sorted key (merge_sort (λ x y, String.le (key x) (key y)) l).
Proof.
  intros Hnd. set (R := λ x y, String.le (key x) (key y)).
  assert (Transitive R) as HT by (intros x y z; unfold R; by etrans).
  assert (Total R) as Htot by (intros x y; apply (total String.le)).
  rewrite <- (merge_sort_Permutation R l) in Hnd.
  pose proof (StronglySorted_merge_sort R l) as Hs. unfold key_sorted.
  induction Hs as [|x l' Hs IH Hall]; constructor.
  - apply IH. by apply NoDup_cons in Hnd as [_ ?].
  - cbn in Hnd. apply NoDup_cons in Hnd as [Hn _]. rewrite Forall_forall in Hall |- *.
    intros y Hy. apply str_lt_le. split; [by apply Hall |]. intros He. apply Hn.
    rewrite He. by apply list_elem_of_fmap_2.
Qed.

Lemma key_sorted_filter (P : A → Prop) `{∀ x, Decision (P x)} l :
  key_sorted key l → key_sorted key (filter P l).
Proof.
  unfold key_sorted. induction 1 as [|x l Hl IH Hall]; [constructor |].
  rewrite filter_cons. case_decide; [|done]. constructor; [done |].
  rewrite Forall_forall in *. intros y [_ Hy]%list_elem_of_filter. auto.
Qed.

Lemma key_sorted_NoDup l : key_sorted key l → NoDup (key <$> l).
Proof.
  induction 1 as [|a l Hl IH Ha]; cbn; constructor; [|done].
  intros (y & Hk & Hy)%list_elem_of_fmap. rewrite Forall_forall in Ha.
  specialize (Ha y Hy). rewrite Hk in Ha. by apply str_lt_irrefl in Ha.
Qed.
End key_sorted.

(** A loop that checks each element and that its key exceeds the one before it,
    remembered in a local, accepts exactly the strictly sorted lists of good
    elements. *)
Section prior_loop.
Context {E A : Type} (key : A → string) (good : A → Prop).
Context (step : option string → A → result E (option string)).
Hypothesis step_Ok : ∀ prior x r,
  step prior x = Ok r ↔ r = Some (key x) ∧ good x ∧ ∀ p, prior = Some p → str_lt p (key x).

Lemma prior_loop_Ok prior l :
  (∃ r, fold_result step prior l = Ok r) ↔
  (∀ x, x ∈ l → good x) ∧ key_sorted key l ∧
  ∀ p x, prior = Some p → head l = Some x → str_lt p (key x).
Proof.
  revert prior. induction l as [|x l IH]; intros prior; cbn.
  - split; [|eauto]. intros _. split_and!; [set_solver | constructor | done].
  - setoid_rewrite bind_Ok. setoid_rewrite step_Ok.
    rewrite key_sorted_cons. setoid_rewrite elem_of_cons. split.
    + intros (r & ? & (-> & Hx & Hp) & Hl).
      destruct (proj1 (IH (Some (key x)))) as (Hgood & Hs & Hhd); [eauto |].
      naive_solver.
    + intros (Hgood & [Hs Hhd] & Hp).
      destruct (proj2 (IH (Some (key x)))) as [r Hr]; [naive_solver |].
      exists r, (Some (key x)). naive_solver.
Qed.
End prior_loop.

(** ** Lemmas: binary search *)

Lemma binary_search_by_unfold {A} (cmp : A → comparison) (l : list A) :
  l ≠ [] →
  binary_search_by cmp l =
    (let base := binary_search_loop cmp l (length l) 0 (length l) in
     match cmp <$> l !! base with Some Eq => Some base | _ => None end).
Proof. by destruct l. Qed.

(** Whatever the slice, a reported hit is an element the comparison accepts. *)
Lemma binary_search_by_hit {A} (cmp : A → comparison) (l : list A) i :
  binary_search_by cmp l = Some i → ∃ x, l !! i = Some x ∧ cmp x = Eq.
Proof.
  destruct (decide (l = [])) as [-> |]; [done |].
  rewrite binary_search_by_unfold by done. cbv zeta.
  set (b := binary_search_loop _ _ _ _ _).
  destruct (l !! b) as [x|] eqn:Hx; cbn; [|done].
  destruct (cmp x) eqn:Hc; [|done..]. intros [= <-]. eauto.
Qed.

Section binary_search.
Context {A : Type} (cmp : A → comparison) (l : list A).

(** [cmp] sees the elements below, at and above the target in this order. *)
Hypothesis monotone : ∀ i j x y, l !! i = Some x → l !! j = Some y → i < j →
  cmp y ≠ Gt → cmp x = Lt.

Lemma binary_search_loop_hit fuel base size i x :
  size ≤ fuel → base + size ≤ length l → base ≤ i < base + size →
  l !! i = Some x → cmp x = Eq →
  cmp <$> l !! binary_search_loop cmp l fuel base size = Some Eq.
Proof.
  revert base size i x.
  induction fuel as [|fuel IH]; intros base size i x Hfuel Hlen Hi Hx Heq; [lia |].
  cbn [binary_search_loop]. case_decide as Hsize; cycle 1.
  { assert (i = base) as <- by lia. by rewrite Hx; cbn; rewrite Heq. }
  set (half := size `div` 2). cbv zeta.
  assert (1 ≤ half ∧ half ≤ size - half) as [Hh1 Hh2].
  { pose proof (Nat.div_mod_eq size 2). pose proof (Nat.mod_upper_bound size 2).
    unfold half. lia. }
  assert (is_Some (l !! (base + half))) as [y Hy] by (apply lookup_lt_is_Some; lia).
  clearbody half. rewrite Hy. cbn [fmap option_fmap option_map].
  destruct (Nat.lt_trichotomy i (base + half)) as [Hlt | [Hmid | Hgt]].
  - destruct (cmp y) eqn:Hcy.
    1, 2: assert (cmp x = Lt) by (apply (monotone _ _ _ _ Hx Hy Hlt); congruence);
      congruence.
    apply (IH base (size - half) i x); auto with lia.
  - assert (cmp y = Eq) as -> by congruence.
    apply (IH _ _ (base + half) y); [lia..| done | congruence].
  - assert (cmp y = Lt) as -> by (apply (monotone _ _ _ _ Hy Hx); [done | congruence]).
    apply (IH _ _ i x); auto with lia.
Qed.

Lemma binary_search_by_Some_iff :
  is_Some (binary_search_by cmp l) ↔ ∃ x, x ∈ l ∧ cmp x = Eq.
Proof.
  split.
  - intros [i (x & Hi & Hx)%binary_search_by_hit].
    exists x. eauto using list_elem_of_lookup_2.
  - intros (x & [i Hi]%list_elem_of_lookup_1 & Hx).
    pose proof (lookup_lt_Some _ _ _ Hi) as Hlen.
    rewrite binary_search_by_unfold by (by intros ->; rewrite lookup_nil in Hi).
    cbv zeta. rewrite (binary_search_loop_hit (length l) 0 (length l) i x); auto with lia.
Qed.
End binary_search.

(** On a slice sorted by a string key the search decides membership of a key. *)
Lemma binary_search_key {A} (key : A → string) (k : string) (l : list A) :
  key_sorted key l →
  is_Some (binary_search_by (λ x, String.compare (key x) k) l) ↔ k ∈ key <$> l.
Proof.
  intros Hl. rewrite binary_search_by_Some_iff.
  - rewrite list_elem_of_fmap. setoid_rewrite str_compare_eq. naive_solver.
  - intros i j x y Hi Hj Hij Hy.
    pose proof (key_sorted_lookup key l i j x y Hl Hi Hj Hij) as Hlt.
    destruct (str_trichotomy (key y) k) as [? | [<- | Hgt%str_lt_gt]]; [|done..].
    change (str_lt (key x) k). by trans (key y).
Qed.
