(* ===== verification/Text.v ===== *)
(** Rust strings as the code uses them: a [&str] or [String] is its UTF-8 byte
    string ([string]), a [Vec<u8>] or [&[u8]] is a [list ascii]. The file defines
    the standard-library methods the components call and the lemmas that
    describe their results. *)
From Stdlib Require Import ZArith NArith Lia Ascii.
From stdpp Require Import base decidable list gmap strings sorting.
From S2P Require Import Prelude.

(** ** Bytes and strings *)

Abbreviation bytes := (list ascii).

Definition as_bytes (s : string) : bytes := String.list_ascii_of_string s.
Definition of_bytes (b : bytes) : string := String.string_of_list_ascii b.

Definition byte_val (a : ascii) : N := Ascii.N_of_ascii a.

Definition byte_in (lo hi : N) (a : ascii) : bool :=
  (lo <=? byte_val a)%N && (byte_val a <=? hi)%N.

(** [u8::is_ascii_digit], [u8::is_ascii_alphanumeric], [u8::is_ascii_graphic]. *)
Definition is_ascii_digit : ascii → bool := byte_in 48 57.
Definition is_ascii_lower : ascii → bool := byte_in 97 122.
Definition is_ascii_upper : ascii → bool := byte_in 65 90.
Definition is_ascii_alphanumeric (a : ascii) : bool :=
  is_ascii_digit a || is_ascii_lower a || is_ascii_upper a.

(** [bytes().all(p)] and [bytes().any(p)]. *)
Definition all_bytes (p : ascii → bool) (s : string) : bool := forallb p (as_bytes s).
Definition any_byte (p : ascii → bool) (s : string) : bool := existsb p (as_bytes s).

(** [str::to_ascii_lowercase]. *)
Definition ascii_lower (a : ascii) : ascii :=
  if is_ascii_upper a then Ascii.ascii_of_N (byte_val a + 32) else a.

Fixpoint to_ascii_lowercase (s : string) : string :=
  match s with
  | "" => ""
  | String a s => String (ascii_lower a) (to_ascii_lowercase s)
  end.

(** ** Prefixes, suffixes and substrings *)

(** [str::strip_prefix]. *)
Fixpoint strip_prefix (p s : string) : option string :=
  match p, s with
  | "", _ => Some s
  | String a p, String b s => if Ascii.eqb a b then strip_prefix p s else None
  | String _ _, "" => None
  end.

Definition starts_with (p s : string) : bool :=
  match strip_prefix p s with Some _ => true | None => false end.

Definition str_rev (s : string) : string := of_bytes (reverse (as_bytes s)).

(** [str::strip_suffix] and [str::ends_with]. *)
Definition strip_suffix (p s : string) : option string :=
  str_rev <$> strip_prefix (str_rev p) (str_rev s).

Definition ends_with (p s : string) : bool :=
  match strip_suffix p s with Some _ => true | None => false end.

(** [str::contains] of a string pattern. *)
Fixpoint contains (p s : string) : bool :=
  starts_with p s ||
  match s with
  | "" => false
  | String _ s => contains p s
  end.

(** [str::split_once]: the parts around the first occurrence. *)
Fixpoint split_once (p s : string) : option (string * string) :=
  match strip_prefix p s with
  | Some rest => Some ("", rest)
  | None =>
      match s with
      | "" => None
      | String a s => (λ '(l, r), (String a l, r)) <$> split_once p s
      end
  end.

(** [str::split(c)] for an ASCII [c]: always at least one component. *)
Fixpoint split_char (c : ascii) (s : string) : list string :=
  match s with
  | "" => [""]
  | String a s =>
      if Ascii.eqb a c then "" :: split_char c s
      else match split_char c s with
           | w :: ws => String a w :: ws
           | [] => [String a ""]
           end
  end.

(** ** Characters of UTF-8 text *)

(** One [char::is_whitespace] character at the head of [b]: the bytes after it.
    [White_Space] is U+0009-000D, 0020, 0085, 00A0, 1680, 2000-200A, 2028, 2029,
    202F, 205F and 3000. *)
Definition strip_whitespace_char (b : bytes) : option bytes :=
  match b with
  | a :: b' =>
      if byte_in 9 13 a || (byte_val a =? 32)%N then Some b'
      else match b' with
      | a2 :: b'' =>
          if (byte_val a =? 194)%N && ((byte_val a2 =? 133)%N || (byte_val a2 =? 160)%N)
          then Some b''
          else match b'' with
          | a3 :: rest =>
              let t := (byte_val a, byte_val a2, byte_val a3) in
              if bool_decide (t = (225, 154, 128)%N)
                 || (bool_decide (t.1 = (226, 128)%N)
                     && (byte_in 128 138 a3 || byte_in 168 169 a3 || (byte_val a3 =? 175)%N))
                 || bool_decide (t = (226, 129, 159)%N)
                 || bool_decide (t = (227, 128, 128)%N)
              then Some rest else None
          | [] => None
          end
      | [] => None
      end
  | [] => None
  end.

(** The same character at the tail of a string, given its bytes reversed. *)
Definition strip_whitespace_char_rev (b : bytes) : option bytes :=
  match b with
  | a1 :: r1 =>
      match strip_whitespace_char [a1] with
      | Some _ => Some r1
      | None =>
          match r1 with
          | a2 :: r2 =>
              match strip_whitespace_char [a2; a1] with
              | Some [] => Some r2
              | _ =>
                  match r2 with
                  | a3 :: r3 =>
                      match strip_whitespace_char [a3; a2; a1] with
                      | Some [] => Some r3
                      | _ => None
                      end
                  | [] => None
                  end
              end
          | [] => None
          end
      end
  | [] => None
  end.

(** Repeats a stripping step; every step removes a byte, so a length is enough
    fuel. *)
Fixpoint strip_loop (step : bytes → option bytes) (fuel : nat) (b : bytes) : bytes :=
  match fuel with
  | O => b
  | S fuel =>
      match step b with
      | Some b' => strip_loop step fuel b'
      | None => b
      end
  end.

(** [str::trim_start], [str::trim_end] and [str::trim]. *)
Definition trim_start (s : string) : string :=
  of_bytes (strip_loop strip_whitespace_char (String.length s) (as_bytes s)).

Definition trim_end (s : string) : string :=
  of_bytes (reverse
    (strip_loop strip_whitespace_char_rev (String.length s) (reverse (as_bytes s)))).

Definition trim (s : string) : string := trim_end (trim_start s).

(** [str::trim_end_matches('\n')] *)
Definition trim_end_newlines (s : string) : string :=
  of_bytes (reverse
    (strip_loop (λ b, match b with "010"%char :: b' => Some b' | _ => None end)
       (String.length s) (reverse (as_bytes s)))).

(** [String::from_utf8(b).is_ok()]: the well-formed sequences of the Unicode
    standard, shortest form, without surrogates. *)
Fixpoint is_utf8 (b : bytes) : bool :=
  match b with
  | [] => true
  | a :: b1 =>
      if byte_in 0 127 a then is_utf8 b1 else
      match b1 with
      | [] => false
      | a2 :: b2 =>
          if byte_in 194 223 a && byte_in 128 191 a2 then is_utf8 b2 else
          match b2 with
          | [] => false
          | a3 :: b3 =>
              if ((byte_val a =? 224)%N && byte_in 160 191 a2
                  || (byte_in 225 236 a || byte_in 238 239 a) && byte_in 128 191 a2
                  || (byte_val a =? 237)%N && byte_in 128 159 a2)
                 && byte_in 128 191 a3
              then is_utf8 b3 else
              match b3 with
              | [] => false
              | a4 :: b4 =>
                  ((byte_val a =? 240)%N && byte_in 144 191 a2
                   || byte_in 241 243 a && byte_in 128 191 a2
                   || (byte_val a =? 244)%N && byte_in 128 143 a2)
                  && byte_in 128 191 a3 && byte_in 128 191 a4 && is_utf8 b4
              end
          end
      end
  end.

Definition str_is_empty (s : string) : bool := bool_decide (s = "").

(** [chars().any(char::is_control)]: U+0000-001F, 007F and 0080-009F. *)
Fixpoint any_control_bytes (b : bytes) : bool :=
  match b with
  | [] => false
  | a :: b' =>
      (byte_val a <? 32)%N || (byte_val a =? 127)%N
      || ((byte_val a =? 194)%N
          && match b' with a2 :: _ => byte_in 128 159 a2 | [] => false end)
      || any_control_bytes b'
  end.

Definition any_control (s : string) : bool := any_control_bytes (as_bytes s).

(** ** Hexadecimal text *)

(** The lowercase digit of a nibble, as ["{:02x}"] prints it. *)
Definition hex_digit (n : N) : ascii :=
  if (n <? 10)%N then Ascii.ascii_of_N (48 + n) else Ascii.ascii_of_N (87 + n).

Fixpoint hex_encode (b : bytes) : string :=
  match b with
  | [] => ""
  | a :: b =>
      String (hex_digit (byte_val a / 16))
        (String (hex_digit (byte_val a mod 16)) (hex_encode b))
  end.

Definition is_lower_hex (a : ascii) : bool := is_ascii_digit a || byte_in 97 102 a.

(** [to_le_bytes] and [to_be_bytes] of a [w]-byte integer. *)
Fixpoint le_bytes (w : nat) (n : N) : bytes :=
  match w with
  | O => []
  | S w => Ascii.ascii_of_N (n mod 256) :: le_bytes w (n / 256)
  end.

Definition be_bytes (w : nat) (n : N) : bytes := reverse (le_bytes w n).

(** ** Lemmas: bytes and strings *)

#[local] Arguments String.append : simpl nomatch.

Lemma of_as_bytes s : of_bytes (as_bytes s) = s.
Proof. apply String.string_of_list_ascii_of_string. Qed.

Lemma as_of_bytes b : as_bytes (of_bytes b) = b.
Proof. apply String.list_ascii_of_string_of_list_ascii. Qed.

#[export] Instance as_bytes_inj : Inj (=) (=) as_bytes.
Proof. intros s1 s2 H. rewrite <- (of_as_bytes s1), H. apply of_as_bytes. Qed.

#[export] Instance of_bytes_inj : Inj (=) (=) of_bytes.
Proof. intros b1 b2 H. rewrite <- (as_of_bytes b1), H. apply as_of_bytes. Qed.

Lemma as_bytes_app s1 s2 : as_bytes (s1 +:+ s2) = as_bytes s1 ++ as_bytes s2.
Proof. induction s1 as [|a s1 IH]; cbn; [done |]. by f_equal. Qed.

Lemma of_bytes_app b1 b2 : of_bytes (b1 ++ b2) = of_bytes b1 +:+ of_bytes b2.
Proof. apply (inj as_bytes). by rewrite as_bytes_app, !as_of_bytes. Qed.

Lemma length_as_bytes s : length (as_bytes s) = String.length s.
Proof. induction s as [|a s IH]; cbn; [done |]. by f_equal. Qed.

Lemma str_is_empty_true s : str_is_empty s = true ↔ s = "".
Proof. unfold str_is_empty. apply bool_decide_eq_true. Qed.

Lemma str_is_empty_false s : str_is_empty s = false ↔ s ≠ "".
Proof. unfold str_is_empty. apply bool_decide_eq_false. Qed.

#[export] Hint Rewrite str_is_empty_true str_is_empty_false : result.

Lemma all_bytes_true p s : all_bytes p s = true ↔ ∀ a, a ∈ as_bytes s → p a = true.
Proof.
  unfold all_bytes. rewrite forallb_forall.
  split; intros H a Ha; apply H; by apply list_elem_of_In.
Qed.

Lemma all_bytes_app p s1 s2 : all_bytes p (s1 +:+ s2) = all_bytes p s1 && all_bytes p s2.
Proof. unfold all_bytes. by rewrite as_bytes_app, forallb_app. Qed.

Lemma any_byte_false p s : any_byte p s = false ↔ ∀ a, a ∈ as_bytes s → p a = false.
Proof.
  unfold any_byte. rewrite <- not_true_iff_false, existsb_exists.
  split.
  - intros H a Ha%list_elem_of_In. destruct (p a) eqn:Hp; [exfalso; eauto | done].
  - intros H (a & Ha%list_elem_of_In & Hp). specialize (H a Ha). congruence.
Qed.

(** ** Lemmas: prefixes, suffixes and substrings *)

Lemma strip_prefix_Some p s t : strip_prefix p s = Some t ↔ s = p +:+ t.
Proof.
  revert s. induction p as [|a p IH]; intros s; cbn; [naive_solver |].
  destruct s as [|b s]; [done |]. destruct (Ascii.eqb_spec a b) as [-> | Hne].
  - rewrite IH. split; [by intros -> | by intros [= ->]].
  - split; [done |]. intros [= <-]. done.
Qed.

Lemma strip_prefix_app p t : strip_prefix p (p +:+ t) = Some t.
Proof. by apply strip_prefix_Some. Qed.

Lemma starts_with_true p s : starts_with p s = true ↔ ∃ t, s = p +:+ t.
Proof.
  unfold starts_with. setoid_rewrite <- strip_prefix_Some.
  destruct (strip_prefix p s); naive_solver.
Qed.

Lemma as_bytes_str_rev s : as_bytes (str_rev s) = reverse (as_bytes s).
Proof. apply as_of_bytes. Qed.

Lemma str_rev_app s1 s2 : str_rev (s1 +:+ s2) = str_rev s2 +:+ str_rev s1.
Proof.
  apply (inj as_bytes). by rewrite as_bytes_app, !as_bytes_str_rev, as_bytes_app, reverse_app.
Qed.

Lemma str_rev_involutive s : str_rev (str_rev s) = s.
Proof. apply (inj as_bytes). by rewrite !as_bytes_str_rev, reverse_involutive. Qed.

Lemma strip_suffix_Some p s t : strip_suffix p s = Some t ↔ s = t +:+ p.
Proof.
  unfold strip_suffix. rewrite fmap_Some. setoid_rewrite strip_prefix_Some. split.
  - intros (r & Hr & ->). apply (f_equal str_rev) in Hr.
    by rewrite str_rev_app, !str_rev_involutive in Hr.
  - intros ->. exists (str_rev t). by rewrite str_rev_app, str_rev_involutive.
Qed.

Lemma ends_with_true p s : ends_with p s = true ↔ ∃ t, s = t +:+ p.
Proof.
  unfold ends_with. setoid_rewrite <- strip_suffix_Some.
  destruct (strip_suffix p s); naive_solver.
Qed.

Lemma contains_true p s : contains p s = true ↔ ∃ l r, s = l +:+ p +:+ r.
Proof.
  induction s as [|a s IH]; cbn; rewrite orb_true_iff, starts_with_true.
  - split; [intros [[r ->] | ?]; [by exists "", r | done] |].
    intros ([|b l] & r & H); [left; eauto | done].
  - rewrite IH. split.
    + intros [[r ->] | (l & r & ->)]; [by exists "", r | by exists (String a l), r].
    + intros ([|b l] & r & H); [left; eauto |].
      injection H as -> ->. right. eauto.
Qed.

Lemma split_once_Some p s l r : split_once p s = Some (l, r) → s = l +:+ p +:+ r.
Proof.
  revert l. induction s as [|a s IH]; intros l; cbn.
  - destruct (strip_prefix p "") as [t|] eqn:Hp; [|done].
    intros [= <- <-]. by apply strip_prefix_Some in Hp.
  - destruct (strip_prefix p (String a s)) as [t|] eqn:Hp.
    + intros [= <- <-]. by apply strip_prefix_Some in Hp.
    + intros ([l' r'] & Hs & Heq)%fmap_Some. simplify_eq. cbn. f_equal. by apply IH.
Qed.

Lemma split_once_None p s : split_once p s = None → contains p s = false.
Proof.
  induction s as [|a s IH]; cbn; unfold starts_with;
    destruct (strip_prefix p _) eqn:Hp; try done.
  intros H%fmap_None. cbn. auto.
Qed.

Lemma split_char_not_nil c s : split_char c s ≠ [].
Proof. destruct s as [|a s]; cbn; [done |]. repeat case_match; done. Qed.

(** Joining the components with the separator gives the string back. *)
Fixpoint join_char (c : ascii) (ws : list string) : string :=
  match ws with
  | [] => ""
  | [w] => w
  | w :: ws => w +:+ String c (join_char c ws)
  end.

Lemma join_split_char c s : join_char c (split_char c s) = s.
Proof.
  induction s as [|a s IH]; cbn; [done |].
  pose proof (split_char_not_nil c s) as Hne.
  destruct (split_char c s) as [|w ws] eqn:Hs; [done |].
  destruct (Ascii.eqb_spec a c) as [-> |].
  - cbn in *. by rewrite IH.
  - destruct ws; cbn in *; [by rewrite IH | by rewrite <- IH].
Qed.

Lemma split_char_component c s w :
  w ∈ split_char c s → c ∉ as_bytes w.
Proof.
  revert w. induction s as [|a s IH]; cbn; intros w.
  - rewrite list_elem_of_singleton. intros ->. cbn. set_solver.
  - destruct (Ascii.eqb_spec a c) as [-> | Hne].
    + rewrite elem_of_cons. intros [-> | ?]; [cbn; set_solver | auto].
    + destruct (split_char c s) as [|v vs]; cbn.
      * rewrite list_elem_of_singleton. intros ->. cbn. set_solver.
      * rewrite elem_of_cons. intros [-> | Hw].
        { cbn. rewrite elem_of_cons. intros [? | Hc]; [done |].
          revert Hc. apply IH. set_solver. }
        apply IH. set_solver.
Qed.

(** ** Lemmas: hexadecimal text *)

Lemma byte_val_bound a : (byte_val a < 256)%N.
Proof. apply Ascii.N_ascii_bounded. Qed.

Lemma byte_val_of_N n : (n < 256)%N → byte_val (Ascii.ascii_of_N n) = n.
Proof. apply Ascii.N_ascii_embedding. Qed.

#[export] Instance byte_val_inj : Inj (=) (=) byte_val.
Proof. intros a b H. rewrite <- (Ascii.ascii_N_embedding a), <- (Ascii.ascii_N_embedding b).
  unfold byte_val in H. by rewrite H. Qed.

Lemma byte_in_true lo hi a : byte_in lo hi a = true ↔ (lo <= byte_val a <= hi)%N.
Proof. unfold byte_in. rewrite andb_true_iff, !N.leb_le. done. Qed.

Lemma hex_digit_val n :
  (n < 16)%N → byte_val (hex_digit n) = (if (n <? 10)%N then 48 + n else 87 + n)%N.
Proof. intros. unfold hex_digit. case_match; boolify; apply byte_val_of_N; lia. Qed.

Lemma is_lower_hex_digit n : (n < 16)%N → is_lower_hex (hex_digit n) = true.
Proof.
  intros Hn. unfold is_lower_hex, is_ascii_digit.
  rewrite orb_true_iff, !byte_in_true, (hex_digit_val n Hn).
  destruct (N.ltb_spec n 10); lia.
Qed.

Lemma length_hex_encode b : String.length (hex_encode b) = 2 * length b.
Proof. induction b as [|a b IH]; cbn [hex_encode String.length length]; lia. Qed.

Lemma as_bytes_hex_cons a b :
  as_bytes (hex_encode (a :: b)) =
  hex_digit (byte_val a / 16) :: hex_digit (byte_val a mod 16) :: as_bytes (hex_encode b).
Proof. done. Qed.

Lemma hex_encode_lower b : all_bytes is_lower_hex (hex_encode b) = true.
Proof.
  induction b as [|a b IH]; [done |]. cbn.
  pose proof (byte_val_bound a).
  rewrite !is_lower_hex_digit; [done | |].
  - apply N.mod_lt. lia.
  - apply N.Div0.div_lt_upper_bound. lia.
Qed.

(** ** Lemmas: integers as bytes *)

Lemma length_le_bytes w n : length (le_bytes w n) = w.
Proof. revert n. induction w as [|w IH]; intros n; cbn; auto. Qed.

Lemma length_be_bytes w n : length (be_bytes w n) = w.
Proof. unfold be_bytes. by rewrite length_reverse, length_le_bytes. Qed.

Lemma le_bytes_inj w n m :
  (n < 256 ^ N.of_nat w)%N → (m < 256 ^ N.of_nat w)%N →
  le_bytes w n = le_bytes w m → n = m.
Proof.
  revert n m. induction w as [|w IH]; intros n m Hn Hm.
  - change (256 ^ N.of_nat 0)%N with 1%N in *. lia.
  - rewrite Nat2N.inj_succ, N.pow_succ_r' in Hn, Hm. cbn. intros [= Hlow Hhigh].
    apply IH in Hhigh; [|apply N.Div0.div_lt_upper_bound; lia..].
    apply (f_equal byte_val) in Hlow.
    rewrite !byte_val_of_N in Hlow by (apply N.mod_lt; lia).
    rewrite (N.div_mod' n 256), (N.div_mod' m 256). congruence.
Qed.

Lemma be_bytes_inj w n m :
  (n < 256 ^ N.of_nat w)%N → (m < 256 ^ N.of_nat w)%N →
  be_bytes w n = be_bytes w m → n = m.
Proof. intros Hn Hm H%(inj reverse). by eapply le_bytes_inj. Qed.
