(* ===== verification/External.v ===== *)
(** Interfaces of the crates the components call. Each class holds the functions
    the source uses of a crate and a second class the documented behaviour it
    relies on; the components are generic in them. A concrete instance at the end
    of each part shows that the laws can hold and is what the examples run on. *)
From Stdlib Require Import ZArith NArith Lia Ascii.
From stdpp Require Import base decidable list gmap strings sorting.
From S2P Require Import Prelude.
From S2P Require Import Text.

(** ** blake3 *)

(** [blake3::hash(b).to_hex()] and the incremental [Hasher]. *)
Class Blake3 := {
  hasher : Type;
  hasher_new : hasher;
  hasher_update : hasher → bytes → hasher;
  hasher_finalize_hex : hasher → string;
  blake3_hex : bytes → string;
}.

(** A [Hasher] fed in pieces gives the hash of the concatenation; the hexadecimal
    form is 64 lowercase digits. *)
Class Blake3Laws `{Blake3} : Prop := {
  hasher_stream : ∀ pieces,
    hasher_finalize_hex (foldl hasher_update hasher_new pieces)
    = blake3_hex (concat pieces);
  blake3_hex_length : ∀ b, String.length (blake3_hex b) = 64;
  blake3_hex_lower : ∀ b, all_bytes is_lower_hex (blake3_hex b) = true;
}.

(** Two inputs that break collision resistance. *)
Definition blake3_collision `{Blake3} (b1 b2 : bytes) : Prop :=
  b1 ≠ b2 ∧ blake3_hex b1 = blake3_hex b2.

(** A stand-in hash: the last 32 bytes, newest first, padded with zeros. *)
Definition tail_digest (b : bytes) : bytes :=
  take 32 (reverse b ++ replicate 32 "000"%char).

#[export] Instance tail_blake3 : Blake3 | 100 := {
  hasher := bytes;
  hasher_new := [];
  hasher_update := app;
  hasher_finalize_hex b := hex_encode (tail_digest b);
  blake3_hex b := hex_encode (tail_digest b);
}.

(** ** ulid *)

(** Whether [Ulid::from_string] accepts a string. *)
Class UlidCrate := { ulid_from_string_ok : string → bool }.

(** Crockford base 32, in either case. *)
Definition is_crockford (a : ascii) : bool :=
  is_ascii_alphanumeric a
  && negb (bool_decide (ascii_lower a ∈ ["i"; "l"; "o"; "u"]%char)).

#[export] Instance crockford_ulid : UlidCrate | 100 := {
  ulid_from_string_ok s := (String.length s =? 26) && all_bytes is_crockford s
}.

(** ** serde_json *)

(** [serde_json::Number]: an unsigned or a negative 64-bit integer, or the bits of
    a 64-bit float. *)
Inductive Number : Type :=
  | PosInt (n : N)
  | NegInt (z : Z)
  | Float (bits : N).

(** [serde_json::Value]; an object keeps its members in order, each key once. *)
Inductive Value : Type :=
  | Null
  | Bool (b : bool)
  | Num (n : Number)
  | Str (s : string)
  | Arr (l : list Value)
  | Obj (members : list (string * Value)).

Fixpoint assoc {A} (k : string) (l : list (string * A)) : option A :=
  match l with
  | [] => None
  | (k', a) :: l => if decide (k = k') then Some a else assoc k l
  end.

(** [Value::get] with a key, [as_str], [as_u64], [as_array], [as_object]. *)
Definition value_get (k : string) (value : Value) : option Value :=
  match value with Obj members => assoc k members | _ => None end.
Definition as_str (value : Value) : option string :=
  match value with Str s => Some s | _ => None end.
Definition as_u64 (value : Value) : option N :=
  match value with Num (PosInt n) => Some n | _ => None end.
Definition as_array (value : Value) : option (list Value) :=
  match value with Arr l => Some l | _ => None end.
Definition as_object (value : Value) : option (list (string * Value)) :=
  match value with Obj members => Some members | _ => None end.
Definition is_object (value : Value) : bool :=
  match value with Obj _ => true | _ => false end.

(** [serde_json::to_vec] or [to_string] of a value; [Err] carries the error's
    text. *)
Class ToJson (A : Type) := { to_json : A → result string bytes }.

(** [serde_json::from_slice] of a type; [Err] carries the error's text. *)
Class FromJson (A : Type) := { from_json : bytes → result string A }.

(** [serde_json::from_value]. *)
Class FromValue (A : Type) := { from_value : Value → result string A }.

(** ** base64 *)

(** An engine such as [STANDARD_NO_PAD]. *)
Class Base64 := {
  base64_encode : bytes → string;
  base64_decode : string → option bytes;
}.

Class Base64Laws `{Base64} : Prop := {
  base64_decode_encode : ∀ b, base64_decode (base64_encode b) = Some b;
}.

(** An engine whose alphabet is the bytes themselves. *)
#[export] Instance raw_base64 : Base64 | 100 := {
  base64_encode := of_bytes;
  base64_decode s := Some (as_bytes s);
}.

(** ** ed25519_dalek *)

Class Ed25519 := {
  SigningKey : Type;
  VerifyingKey : Type;
  verifying_key_eq_dec :: EqDecision VerifyingKey;
  verifying_key : SigningKey → VerifyingKey;
  (** [VerifyingKey::to_bytes] and [VerifyingKey::from_bytes]. *)
  key_to_bytes : VerifyingKey → bytes;
  key_from_bytes : bytes → option VerifyingKey;
  (** [sign(..).to_bytes()]; [Signature::from_slice(..).is_ok()]; [verify_strict]. *)
  sign : SigningKey → bytes → bytes;
  signature_from_slice : bytes → bool;
  verify_strict : VerifyingKey → bytes → bytes → bool;
}.

(** Keys and signatures have fixed widths and round trip; a signature verifies
    under the key that made it. *)
Class Ed25519Laws `{Ed25519} : Prop := {
  key_bytes_length : ∀ k, length (key_to_bytes k) = 32;
  key_from_to_bytes : ∀ k, key_from_bytes (key_to_bytes k) = Some k;
  key_to_from_bytes : ∀ b k, key_from_bytes b = Some k → key_to_bytes k = b;
  signature_wellformed : ∀ sk m, signature_from_slice (sign sk m) = true;
  verify_sign : ∀ sk m, verify_strict (verifying_key sk) m (sign sk m) = true;
}.

(** ** Laws of the concrete instances *)

Lemma length_tail_digest b : length (tail_digest b) = 32.
Proof. unfold tail_digest. rewrite length_take, length_app, length_replicate. lia. Qed.

Lemma foldl_app_concat (acc : bytes) (pieces : list bytes) :
  foldl app acc pieces = acc ++ concat pieces.
Proof.
  revert acc. induction pieces as [|p ps IH]; intros acc; cbn.
  - by rewrite app_nil_r.
  - by rewrite IH, app_assoc.
Qed.

#[export] Instance tail_blake3_laws : Blake3Laws.
Proof.
  split.
  - intros pieces. cbn. by rewrite foldl_app_concat.
  - intros b. cbn. by rewrite length_hex_encode, length_tail_digest.
  - intros b. apply hex_encode_lower.
Qed.

#[export] Instance raw_base64_laws : Base64Laws.
Proof. split. intros b. cbn. by rewrite as_of_bytes. Qed.
