(* ===== verification/Ids.v ===== *)
(** Identifier formats shared by the canonical documents: the private helpers at
    the end of [frontier.rs] and [v2_event.rs] (the latter repeats the former's). *)
From Stdlib Require Import ZArith NArith Lia Ascii.
From stdpp Require Import base decidable list gmap strings sorting.
From S2P Require Import Prelude.
From S2P Require Import Text.
From S2P Require Import External.

Definition is_lower_hex_64 (value : string) : bool :=
  (String.length value =? 64) && all_bytes is_lower_hex value.

Definition is_blake3_identifier (value : string) : bool :=
  match strip_prefix "blake3:" value with
  | Some hex => is_lower_hex_64 hex
  | None => false
  end.

Definition is_origin_id (value : string) : bool :=
  match strip_prefix "origin_" value with
  | Some hex => is_lower_hex_64 hex
  | None => false
  end.

Definition is_prefixed_lowercase_ulid `{UlidCrate} (value prefix : string) : bool :=
  match strip_prefix prefix value with
  | Some ulid => bool_decide (ulid = to_ascii_lowercase ulid) && ulid_from_string_ok ulid
  | None => false
  end.

(** [format!("blake3:{}", blake3::hash(bytes).to_hex())]. *)
Definition blake3_identifier `{Blake3} (b : bytes) : string := "blake3:" +:+ blake3_hex b.

(** ** Lemmas *)

Lemma is_blake3_identifier_true v :
  is_blake3_identifier v = true ↔ ∃ hex, v = "blake3:" +:+ hex ∧ is_lower_hex_64 hex = true.
Proof.
  unfold is_blake3_identifier. setoid_rewrite <- strip_prefix_Some.
  destruct (strip_prefix _ v); naive_solver.
Qed.

Lemma is_origin_id_true v :
  is_origin_id v = true ↔ ∃ hex, v = "origin_" +:+ hex ∧ is_lower_hex_64 hex = true.
Proof.
  unfold is_origin_id. setoid_rewrite <- strip_prefix_Some.
  destruct (strip_prefix _ v); naive_solver.
Qed.

Section identifiers.
Context `{Blake3Laws}.

Lemma blake3_hex_lower_64 b : is_lower_hex_64 (blake3_hex b) = true.
Proof.
  unfold is_lower_hex_64. by rewrite blake3_hex_length, blake3_hex_lower.
Qed.

(** The hash the code prints is one its own format check accepts. *)
Lemma blake3_identifier_ok b : is_blake3_identifier (blake3_identifier b) = true.
Proof.
  unfold is_blake3_identifier, blake3_identifier.
  rewrite strip_prefix_app. apply blake3_hex_lower_64.
Qed.

Lemma blake3_identifier_inj b1 b2 :
  blake3_identifier b1 = blake3_identifier b2 → blake3_hex b1 = blake3_hex b2.
Proof. by intros ?%(inj (String.append _)). Qed.
End identifiers.

(** Equal hashes mean equal inputs unless they exhibit a collision. *)
Lemma hash_eq_or_collision `{Blake3} b1 b2 :
  blake3_identifier b1 = blake3_identifier b2 → b1 = b2 ∨ blake3_collision b1 b2.
Proof.
  intros Heq%(inj (String.append _)).
  destruct (decide (b1 = b2)); [by left | by right].
Qed.

Create HintDb ids.
#[export] Hint Resolve blake3_identifier_ok blake3_hex_lower_64 : ids.
