(* ===== verification/Frontier.v ===== *)
(** Causal frontiers: [frontier.rs]. A frontier lists, per origin, the last
    accepted sequence number with its hashes; a successor may only extend it. *)
From Stdlib Require Import ZArith NArith Lia Ascii.
From stdpp Require Import base decidable list gmap strings sorting.
From S2P Require Import Prelude.
From S2P Require Import Text.
From S2P Require Import External.
From S2P Require Import Ids.

Definition FRONTIER_VERSION : N := 2.
Definition INITIAL_ITEM_PROJECTION_VERSION : N := 1.

Inductive FrontierError : Type :=
  | UnsupportedVersion (actual expected : N)
  | EmptyArchiveId
  | InvalidProjectionVersion
  | InvalidHash (field : string)
  | InvalidOriginId (origin_id : string)
  | ZeroOriginSequence (origin_id : string)
  | OriginsNotStrictlySorted
  | PreviousFrontiersNotStrictlySorted
  | ArchiveMismatch (base successor : string)
  | GenesisMismatch
  | ProjectionVersionRegression (base successor : N)
  | MissingBaseFrontier
  | OriginOmitted (origin_id : string)
  | OriginRegression (origin_id : string) (base successor : N)
  | ChangedOriginTail (origin_id : string)
  | Serialization (message : string).

Record OriginFrontier : Type := {
  origin_id : string;
  seq : N;
  event_hash : string;
  segment_manifest_hash : string;
}.

Record CausalFrontier : Type := {
  v : N;
  archive_id : string;
  genesis_hash : string;
  origins : list OriginFrontier;
  previous_frontiers : list string;
  item_projection_version : N;
}.

Record FrontierAdvance : Type := {
  advanced_origins : list string;
  added_origins : list string;
}.

#[export] Instance OriginFrontier_eq_dec : EqDecision OriginFrontier.
Proof. solve_decision. Defined.

Definition validate_hash (field value : string) : result FrontierError () :=
  if is_blake3_identifier value then Ok () else Err (InvalidHash field).

(** [prior.is_some_and(|prior| prior >= value)] *)
Definition not_after (prior : option string) (value : string) : bool :=
  match prior with
  | Some prior => bool_decide (¬ str_lt prior value)
  | None => false
  end.

(** The body of the loop over [self.origins]; the local is [prior_origin]. *)
Definition validate_origin (prior_origin : option string) (origin : OriginFrontier)
    : result FrontierError (option string) :=
  _ ← bail_if (negb (is_origin_id (origin_id origin))) (InvalidOriginId (origin_id origin));
  _ ← bail_if (seq origin =? 0)%N (ZeroOriginSequence (origin_id origin));
  _ ← bail_if (not_after prior_origin (origin_id origin)) OriginsNotStrictlySorted;
  _ ← validate_hash "origins.event_hash" (event_hash origin);
  _ ← validate_hash "origins.segment_manifest_hash" (segment_manifest_hash origin);
  Ok (Some (origin_id origin)).

(** The body of the loop over [self.previous_frontiers]. *)
Definition validate_previous (prior_frontier : option string) (frontier : string)
    : result FrontierError (option string) :=
  _ ← validate_hash "previous_frontiers" frontier;
  _ ← bail_if (not_after prior_frontier frontier) PreviousFrontiersNotStrictlySorted;
  Ok (Some frontier).

Definition validate (self : CausalFrontier) : result FrontierError () :=
  _ ← bail_if (negb (v self =? FRONTIER_VERSION)%N)
        (UnsupportedVersion (v self) FRONTIER_VERSION);
  _ ← bail_if (str_is_empty (archive_id self)) EmptyArchiveId;
  _ ← bail_if (item_projection_version self =? 0)%N InvalidProjectionVersion;
  _ ← validate_hash "genesis_hash" (genesis_hash self);
  _ ← fold_result validate_origin None (origins self);
  _ ← fold_result validate_previous None (previous_frontiers self);
  Ok ().

Definition canonical_bytes `{ToJson CausalFrontier} (self : CausalFrontier)
    : result FrontierError bytes :=
  _ ← validate self;
  map_err Serialization (to_json self).

Definition frontier_hash `{Blake3, ToJson CausalFrontier} (self : CausalFrontier)
    : result FrontierError string :=
  b ← canonical_bytes self;
  Ok (blake3_identifier b).

(** [origins.binary_search_by(|origin| origin.origin_id.cmp(id))] *)
Definition search_origin (id : string) (l : list OriginFrontier) : option nat :=
  binary_search_by (λ origin, String.compare (origin_id origin) id) l.

(** The body of the loop over the base's origins; the local is [advanced_origins].
    The index a search reports is in range ([binary_search_by_hit]), so the
    lookup below never takes its error. *)
Definition advance_origin (self_origins : list OriginFrontier)
    (advanced : list string) (base_origin : OriginFrontier)
    : result FrontierError (list string) :=
  let omitted := OriginOmitted (origin_id base_origin) in
  index ← ok_or (search_origin (origin_id base_origin) self_origins) omitted;
  successor_origin ← ok_or (self_origins !! index) omitted;
  _ ← bail_if (seq successor_origin <? seq base_origin)%N
        (OriginRegression (origin_id base_origin) (seq base_origin) (seq successor_origin));
  if (seq successor_origin =? seq base_origin)%N then
    _ ← bail_if
          (negb (bool_decide (event_hash successor_origin = event_hash base_origin))
           || negb (bool_decide (segment_manifest_hash successor_origin
                                 = segment_manifest_hash base_origin)))
          (ChangedOriginTail (origin_id base_origin));
    Ok advanced
  else Ok (advanced ++ [origin_id base_origin]).

Definition added_of (base_origins self_origins : list OriginFrontier) : list string :=
  origin_id <$> filter (λ origin, search_origin (origin_id origin) base_origins = None)
                  self_origins.

Definition validate_successor_of `{Blake3, ToJson CausalFrontier}
    (self base : CausalFrontier) : result FrontierError FrontierAdvance :=
  _ ← validate base;
  _ ← validate self;
  _ ← bail_if (negb (bool_decide (archive_id self = archive_id base)))
        (ArchiveMismatch (archive_id base) (archive_id self));
  _ ← bail_if (negb (bool_decide (genesis_hash self = genesis_hash base))) GenesisMismatch;
  _ ← bail_if (item_projection_version self <? item_projection_version base)%N
        (ProjectionVersionRegression (item_projection_version base)
           (item_projection_version self));
  base_hash ← frontier_hash base;
  _ ← bail_if
        (negb (is_some_b (binary_search_by (λ p, String.compare p base_hash)
                            (previous_frontiers self))))
        MissingBaseFrontier;
  advanced ← fold_result (advance_origin (origins self)) [] (origins base);
  Ok {| advanced_origins := advanced;
        added_origins := added_of (origins base) (origins self) |}.

(** ** Specifications *)

(** What [validate] promises. *)
Record origin_ok (o : OriginFrontier) : Prop := {
  ok_origin_id : is_origin_id (origin_id o) = true;
  ok_seq : seq o ≠ 0%N;
  ok_event_hash : is_blake3_identifier (event_hash o) = true;
  ok_manifest_hash : is_blake3_identifier (segment_manifest_hash o) = true;
}.

Record frontier_wf (f : CausalFrontier) : Prop := {
  wf_version : v f = FRONTIER_VERSION;
  wf_archive : archive_id f ≠ "";
  wf_projection : item_projection_version f ≠ 0%N;
  wf_genesis : is_blake3_identifier (genesis_hash f) = true;
  wf_origins : ∀ o, o ∈ origins f → origin_ok o;
  wf_sorted : key_sorted origin_id (origins f);
  wf_previous : ∀ p, p ∈ previous_frontiers f → is_blake3_identifier p = true;
  wf_previous_sorted : key_sorted id (previous_frontiers f);
}.

(** The later frontier keeps the earlier one's identity and every origin of it,
    at the same or a higher sequence; an unchanged sequence keeps its hashes. *)
Record extends (base self : CausalFrontier) : Prop := {
  ext_archive : archive_id self = archive_id base;
  ext_genesis : genesis_hash self = genesis_hash base;
  ext_projection : (item_projection_version base <= item_projection_version self)%N;
  ext_origin : ∀ o, o ∈ origins base → ∃ o', o' ∈ origins self ∧
    origin_id o' = origin_id o ∧ (seq o <= seq o')%N ∧ (seq o' = seq o → o' = o);
}.

(** The origins whose sequence grew between two lists. *)
Definition advances (bs l : list OriginFrontier) (id : string) : Prop :=
  ∃ o o', o ∈ bs ∧ o' ∈ l ∧ origin_id o = id ∧ origin_id o' = id ∧ (seq o < seq o')%N.

Section names_base.
Context `{Blake3, ToJson CausalFrontier}.

Definition names_base (base self : CausalFrontier) : Prop :=
  ∃ b, to_json base = Ok b ∧ blake3_identifier b ∈ previous_frontiers self.

(** Frontiers reached by accepting successors one after another. *)
Inductive chain : CausalFrontier → CausalFrontier → Prop :=
  | chain_refl f : chain f f
  | chain_step base f self adv :
      chain base f → validate_successor_of self f = Ok adv → chain base self.
End names_base.

(** ** [validate] *)

Lemma validate_hash_Ok field h u :
  validate_hash field h = Ok u ↔ is_blake3_identifier h = true.
Proof. unfold validate_hash. destruct (is_blake3_identifier h), u; naive_solver. Qed.

Lemma not_after_false prior id :
  not_after prior id = false ↔ ∀ p, prior = Some p → str_lt p id.
Proof.
  destruct prior as [p|]; cbn; [|naive_solver].
  rewrite bool_decide_eq_false. split.
  - intros H%dec_stable ? [= <-]. done.
  - intros H. specialize (H p eq_refl). tauto.
Qed.

#[export] Hint Rewrite validate_hash_Ok not_after_false : result.

Lemma validate_origin_Ok prior o r :
  validate_origin prior o = Ok r ↔
  r = Some (origin_id o) ∧ origin_ok o ∧ ∀ p, prior = Some p → str_lt p (origin_id o).
Proof.
  unfold validate_origin. split.
  - intros Hrun. inv_ok. autorewrite with result in *. by repeat split.
  - intros (-> & [] & Hprior). run_ok. done.
Qed.

Lemma validate_previous_Ok prior h r :
  validate_previous prior h = Ok r ↔
  r = Some h ∧ is_blake3_identifier h = true ∧ ∀ p, prior = Some p → str_lt p h.
Proof.
  unfold validate_previous. split.
  - intros Hrun. inv_ok. autorewrite with result in *. done.
  - intros (-> & ? & ?). run_ok. done.
Qed.

Lemma validate_Ok f : validate f = Ok () ↔ frontier_wf f.
Proof.
  pose proof (prior_loop_Ok origin_id origin_ok _ validate_origin_Ok None (origins f)) as Ho.
  pose proof (prior_loop_Ok id (λ h, is_blake3_identifier h = true) _ validate_previous_Ok None (previous_frontiers f))
    as Hp.
  unfold validate. split.
  - intros Hrun. inv_ok. autorewrite with result in *.
    destruct (proj1 Ho) as (? & ? & _); [eauto |].
    destruct (proj1 Hp) as (? & ? & _); [eauto |]. by split.
  - intros []. destruct (proj2 Ho) as [r ->]; [by split_and! |].
    destruct (proj2 Hp) as [r' ->]; [by split_and! |].
    run_ok. done.
Qed.

(** [CausalFrontier::validate] accepts exactly the well-formed frontiers:
    the supported version, a named archive, non-zero projection rules, blake3
    hashes, non-zero sequences, and origins and parents strictly sorted. *)
Theorem validate_iff f : validate f = Ok () ↔ frontier_wf f.
Proof. apply validate_Ok. Qed.

(** ** [validate_successor_of] *)

Section search.
Context (l : list OriginFrontier) (Hl : key_sorted origin_id l).

Lemma search_origin_Some id i :
  search_origin id l = Some i → ∃ o, l !! i = Some o ∧ o ∈ l ∧ origin_id o = id.
Proof.
  intros (o & Hi & Ho%str_compare_eq)%binary_search_by_hit.
  exists o. eauto using list_elem_of_lookup_2.
Qed.

Lemma search_origin_None id : search_origin id l = None ↔ id ∉ origin_id <$> l.
Proof.
  rewrite <- (binary_search_key origin_id id l Hl), <- eq_None_not_Some. done.
Qed.

(** One iteration over the base's origins: the base origin has a counterpart
    that extends it, and is named exactly if its sequence grew. *)
Definition extended_by (o o' : OriginFrontier) : Prop :=
  o' ∈ l ∧ origin_id o' = origin_id o ∧ (seq o <= seq o')%N ∧ (seq o' = seq o → o' = o).

Lemma advance_origin_Ok adv o r :
  advance_origin l adv o = Ok r ↔
  ∃ o', extended_by o o' ∧
    r = if (seq o <? seq o')%N then adv ++ [origin_id o] else adv.
Proof using Hl.
  unfold advance_origin. split.
  - intros Hrun. inv_ok.
    match goal with H : search_origin _ _ = Some _ |- _ =>
      apply search_origin_Some in H as (o' & Hi & Ho' & Hid) end.
    simplify_eq. exists o'.
    destruct (N.eqb_spec (seq o') (seq o)) as [Heq | Hne]; inv_ok; boolify.
    + destruct o, o'. cbn in *. subst. rewrite N.ltb_irrefl. by split.
    + rewrite (proj2 (N.ltb_lt _ _)) by lia. unfold extended_by. naive_solver lia.
  - intros (o' & (Ho' & Hid & Hle & Htail) & ->).
    destruct (search_origin (origin_id o) l) as [i|] eqn:Hs; cycle 1.
    { apply search_origin_None in Hs. destruct Hs. rewrite <- Hid.
      by apply list_elem_of_fmap_2. }
    destruct (search_origin_Some _ _ Hs) as (o2 & Hi & Ho2 & Hid2).
    assert (o2 = o') as -> by (eapply (key_sorted_inj origin_id l); eauto; congruence).
    run_ok. destruct (N.eqb_spec (seq o') (seq o)) as [Heq | Hne].
    + rewrite (Htail Heq), !bool_decide_eq_true_2, N.ltb_irrefl by done. done.
    + by rewrite (proj2 (N.ltb_lt _ _)) by lia.
Qed.
End search.

Lemma advance_loop_sound l bs adv :
  key_sorted origin_id l → fold_result (advance_origin l) [] bs = Ok adv →
  (∀ o, o ∈ bs → ∃ o', extended_by l o o') ∧
  (∀ i, i ∈ adv ↔ advances bs l i) ∧
  adv `sublist_of` (origin_id <$> bs).
Proof.
  intros Hl. apply (fold_result_ind _ (λ seen c,
    (∀ o, o ∈ seen → ∃ o', extended_by l o o') ∧ (∀ i, i ∈ c ↔ advances seen l i) ∧
    c `sublist_of` (origin_id <$> seen))); unfold advances.
  - set_solver.
  - intros seen o c c' (Hext & Hadv & Hsub) (o' & Ho' & ->)%advance_origin_Ok; [|done].
    rewrite fmap_app. cbn. destruct Ho' as (Hin & Hid & Hle & Htail).
    split_and!.
    + intros x [Hx | ->%list_elem_of_singleton]%elem_of_app; [auto |]. by exists o'.
    + intros i. destruct (N.ltb_spec (seq o) (seq o')) as [Hlt | Hge];
        rewrite ?elem_of_app, Hadv, ?list_elem_of_singleton; setoid_rewrite elem_of_app;
        setoid_rewrite list_elem_of_singleton.
      * split; [intros [(x & y & ?) | ->]; [exists x, y | exists o, o']; naive_solver |].
        intros (x & y & [Hx | ->] & ? & ? & ? & ?); [left; exists x, y | right]; naive_solver.
      * split; [intros (x & y & ?); exists x, y; naive_solver |].
        intros (x & y & [Hx | ->] & Hy & ? & ? & ?); [exists x, y; naive_solver |].
        assert (y = o') as ->; [|lia].
        apply (key_sorted_inj origin_id l); auto. congruence.
    + case_match; [by apply sublist_app | by apply sublist_inserts_r].
Qed.

Lemma added_of_elem base self i :
  key_sorted origin_id base →
  i ∈ added_of base self ↔ i ∈ origin_id <$> self ∧ i ∉ origin_id <$> base.
Proof.
  intros Hb. unfold added_of. rewrite !list_elem_of_fmap.
  setoid_rewrite list_elem_of_filter. setoid_rewrite search_origin_None; [|done].
  split.
  - intros (o & -> & Hn & Ho). split; [by exists o |]. by rewrite <- list_elem_of_fmap.
  - intros [(o & -> & Ho) Hn]. exists o. by rewrite list_elem_of_fmap.
Qed.

Section successor.
Context `{Blake3, ToJson CausalFrontier}.
Implicit Types (base self f : CausalFrontier).

Lemma frontier_hash_Ok f h :
  frontier_hash f = Ok h ↔
  frontier_wf f ∧ ∃ b, to_json f = Ok b ∧ h = blake3_identifier b.
Proof.
  unfold frontier_hash, canonical_bytes. split.
  - intros Hrun. inv_ok. rewrite <- validate_Ok. eauto.
  - intros (Hwf%validate_Ok & b & Hb & ->). rewrite Hwf, Hb. done.
Qed.

Lemma names_base_search base self h :
  frontier_wf self → frontier_hash base = Ok h →
  is_some_b (binary_search_by (λ p, String.compare p h) (previous_frontiers self)) = true
  ↔ names_base base self.
Proof.
  intros Hself (_ & b & Hb & ->)%frontier_hash_Ok. unfold names_base.
  pose proof (binary_search_key id (blake3_identifier b) _ (wf_previous_sorted _ Hself)) as Hs.
  rewrite list_fmap_id in Hs. cbn in Hs. rewrite Hb.
  transitivity (blake3_identifier b ∈ previous_frontiers self); [|naive_solver].
  rewrite <- Hs. unfold is_some_b, is_Some. case_match; naive_solver.
Qed.
End successor.

(** ** Extension is a preorder on well-formed frontiers *)

Lemma extends_refl f : extends f f.
Proof.
  split; [done..| lia |]. intros o Ho. exists o. split_and!; auto with lia.
Qed.

Lemma extends_trans f g h : extends f g → extends g h → extends f h.
Proof.
  intros [] []. split; [congruence | congruence | lia |].
  intros o Ho. destruct (ext_origin0 o Ho) as (o1 & Ho1 & Hid1 & Hle1 & Ht1).
  destruct (ext_origin1 o1 Ho1) as (o2 & Ho2 & Hid2 & Hle2 & Ht2).
  exists o2. split_and!; [done | congruence | lia |]. intros Heq.
  assert (o1 = o) as -> by (apply Ht1; lia). auto.
Qed.

#[export] Instance extends_preorder : PreOrder extends.
Proof. split; [exact extends_refl | exact extends_trans]. Qed.

Section successor_theorems.
Context `{Blake3, ToJson CausalFrontier}.
Implicit Types (base self f : CausalFrontier).

Lemma successor_Ok_inv base self adv :
  validate_successor_of self base = Ok adv →
  frontier_wf base ∧ frontier_wf self ∧ extends base self ∧ names_base base self ∧
  advanced_origins adv `sublist_of` (origin_id <$> origins base) ∧
  (∀ i, i ∈ advanced_origins adv ↔ advances (origins base) (origins self) i) ∧
  added_origins adv = added_of (origins base) (origins self).
Proof.
  unfold validate_successor_of. intros Hrun. inv_ok. boolify.
  repeat match goal with H : validate _ = Ok () |- _ => apply validate_Ok in H end.
  match goal with Hh : frontier_hash _ = Ok _, Hs : is_some_b _ = true |- _ =>
    apply (names_base_search base self) in Hs; [|done..] end.
  match goal with Hl : fold_result _ _ _ = Ok _ |- _ =>
    apply advance_loop_sound in Hl as (Hext & Hadv & Hsub); [|by apply wf_sorted] end.
  do 2 (split; [done |]). split; [by split |]. by split_and!.
Qed.

Lemma successor_Ok base self :
  (∃ adv, validate_successor_of self base = Ok adv) ↔
  frontier_wf base ∧ frontier_wf self ∧ extends base self ∧ names_base base self.
Proof.
  split; [intros [adv ?%successor_Ok_inv]; naive_solver |].
  intros (Hb & Hs & Hext & Hnames).
  pose proof Hb as Hvb%validate_Ok. pose proof Hs as Hvs%validate_Ok.
  pose proof Hnames as (b & Hjson & Hin).
  assert (frontier_hash base = Ok (blake3_identifier b)) as Hh
    by (apply frontier_hash_Ok; eauto).
  destruct Hext as [Ha Hg Hproj Horigin].
  destruct (fold_result_total (advance_origin (origins self)) (origins base) [])
    as [adv Hadv].
  { intros c o Ho. destruct (Horigin o Ho) as (o' & Ho'). eexists.
    apply advance_origin_Ok; [by apply wf_sorted |]. by exists o'. }
  unfold validate_successor_of. eexists.
  rewrite Hvb, Hvs, Hh, Hadv, Ha, Hg, !bool_decide_eq_true_2 by done.
  cbn [negb mbind result_bind bail_if].
  rewrite (proj2 (names_base_search base self _ Hs Hh)) by done.
  by rewrite (proj2 (N.ltb_ge _ _)) by lia.
Qed.

(** [validate_successor_of] accepts exactly when both frontiers are well
    formed, the successor extends the base (same archive and genesis, no origin
    dropped or regressed, no tail rewritten) and names it as a parent. *)
Theorem validate_successor_of_iff base self :
  (∃ adv, validate_successor_of self base = Ok adv) ↔
  frontier_wf base ∧ frontier_wf self ∧ extends base self ∧ names_base base self.
Proof. apply successor_Ok. Qed.

(** An accepted successor reports its changes exactly: [advanced_origins]
    are the base's origins whose sequence grew, [added_origins] the origins the
    base lacks, and no origin is reported twice. *)
Theorem validate_successor_of_reports base self adv :
  validate_successor_of self base = Ok adv →
  (∀ i, i ∈ advanced_origins adv ↔ advances (origins base) (origins self) i) ∧
  (∀ i, i ∈ added_origins adv ↔
        i ∈ origin_id <$> origins self ∧ i ∉ origin_id <$> origins base) ∧
  NoDup (advanced_origins adv ++ added_origins adv).
Proof.
  intros (Hb & Hs & _ & _ & Hsub & Hadv & Hadd)%successor_Ok_inv.
  assert (∀ i, i ∈ added_origins adv ↔
    i ∈ origin_id <$> origins self ∧ i ∉ origin_id <$> origins base) as Hadd'.
  { intros i. rewrite Hadd. by apply added_of_elem, wf_sorted. }
  split_and!; [done..|]. apply NoDup_app. split_and!.
  - eapply sublist_NoDup; [|done]. by apply key_sorted_NoDup, wf_sorted.
  - intros i Hi. rewrite Hadd'. pose proof (elem_of_sublist _ _ _ Hi Hsub). tauto.
  - rewrite Hadd. unfold added_of. eapply sublist_NoDup.
    + by apply (key_sorted_NoDup origin_id _ (wf_sorted _ Hs)).
    + apply fmap_sublist, sublist_filter.
Qed.

Lemma chain_sound base f : chain base f → extends base f.
Proof.
  induction 1 as [f | base f self adv _ IH (_ & _ & Hext & _)%successor_Ok_inv].
  - reflexivity.
  - by etrans.
Qed.

(** C21: along any chain of accepted successors the archive and genesis stay the
    same, no origin is lost, its sequence never decreases, and an origin whose
    sequence is the same at both ends has the same hashes: a fork of an
    accepted tail is impossible. *)
Theorem chain_extends base f : chain base f → extends base f.
Proof. apply chain_sound. Qed.
End successor_theorems.

(** ** Examples *)

Module Examples.
(** A serializer for the examples: archive, genesis and origin identifiers. *)
Definition example_json : ToJson CausalFrontier := {|
  to_json f := Ok (as_bytes (archive_id f +:+ genesis_hash f
                             +:+ join_char ","%char (origin_id <$> origins f)))
|}.

Definition hex_64 (a : ascii) : string := of_bytes (replicate 64 a).
Definition origin_a : string := "origin_" +:+ hex_64 "a"%char.
Definition origin_b : string := "origin_" +:+ hex_64 "b"%char.
Definition hash_of (a : ascii) : string := "blake3:" +:+ hex_64 a.

Definition tail (id : string) (n : N) (h : ascii) : OriginFrontier := {|
  origin_id := id; seq := n; event_hash := hash_of h; segment_manifest_hash := hash_of h
|}.

Definition base : CausalFrontier := {|
  v := 2; archive_id := "archive"; genesis_hash := hash_of "0"%char;
  origins := [tail origin_a 3 "1"%char]; previous_frontiers := [];
  item_projection_version := 1
|}.

(** The base's origin advanced and a second origin joined. *)
Definition next : CausalFrontier := {|
  v := 2; archive_id := "archive"; genesis_hash := hash_of "0"%char;
  origins := [tail origin_a 5 "2"%char; tail origin_b 1 "3"%char];
  previous_frontiers :=
    match @frontier_hash tail_blake3 example_json base with Ok h => [h] | Err _ => [] end;
  item_projection_version := 1
|}.

Definition advance : FrontierAdvance := {|
  advanced_origins := [origin_a]; added_origins := [origin_b]
|}.

Example next_accepted :
  @validate_successor_of tail_blake3 example_json next base = Ok advance.
Proof. vm_compute. reflexivity. Qed.

Lemma validate_successor_of_reports_witness :
  @validate_successor_of tail_blake3 example_json next base = Ok advance ∧
  NoDup (advanced_origins advance ++ added_origins advance).
Proof.
  split; [apply next_accepted |].
  apply (@validate_successor_of_reports tail_blake3 example_json base next advance).
  vm_compute. reflexivity.
Defined.

Lemma chain_extends_witness :
  @chain tail_blake3 example_json base next ∧ extends base next.
Proof.
  assert (@chain tail_blake3 example_json base next) as Hchain.
  { apply (@chain_step tail_blake3 example_json base base next advance).
    - apply chain_refl.
    - vm_compute. reflexivity. }
  split; [exact Hchain | exact (@chain_extends tail_blake3 example_json base next Hchain)].
Defined.
End Examples.
