(* ===== verification/Batch.v ===== *)
(** Bounded batch validation: [v2_batch.rs]. A [BatchValidator] checks that the
    chunks of one batch arrive consecutively and within limits, and accumulates
    the ordered digest a completion record must declare. *)
From Stdlib Require Import ZArith NArith Lia Ascii.
From stdpp Require Import base decidable list gmap strings sorting.
From S2P Require Import Prelude.
From S2P Require Import Text.
From S2P Require Import External.
From S2P Require Import Ids.

Definition DEFAULT_MAX_BATCH_CHUNK_ITEMS : N := 1000.
Definition DEFAULT_MAX_BATCH_CHUNK_BYTES : N := (1024 * 1024)%N.

(** [b"archive-ledger-batch-items-v1\0"] *)
Definition DIGEST_DOMAIN : bytes := as_bytes "archive-ledger-batch-items-v1" ++ ["000"%char].

Inductive BatchValidationError : Type :=
  | EmptyBatchId
  | InvalidLimits
  | BatchMismatch (expected actual : string)
  | EmptyChunk
  | TooManyItems (actual maximum : N)
  | TooManyBytes (actual maximum : N)
  | NonConsecutiveRange (expected actual : N)
  | ItemCountOverflow
  | InvalidRecordHash
  | NoChunks
  | CompletionCountMismatch (expected actual : N)
  | CompletionDigestMismatch.

Record BatchLimits : Type := {
  max_items : N;
  max_serialized_bytes : N;
}.

(** [BatchLimits::default] *)
Definition default_limits : BatchLimits := {|
  max_items := DEFAULT_MAX_BATCH_CHUNK_ITEMS;
  max_serialized_bytes := DEFAULT_MAX_BATCH_CHUNK_BYTES
|}.

(** [BatchLimits::validate] *)
Definition validate_limits (self : BatchLimits) : result BatchValidationError BatchLimits :=
  if (max_items self =? 0)%N
     || (max_serialized_bytes self =? 0)%N
     || (DEFAULT_MAX_BATCH_CHUNK_ITEMS <? max_items self)%N
     || (DEFAULT_MAX_BATCH_CHUNK_BYTES <? max_serialized_bytes self)%N
  then Err InvalidLimits
  else Ok self.

Record BatchChunkDescriptor : Type := {
  chunk_batch_id : string;
  first_item_index : N;
  item_count : N;
  serialized_bytes : N;
  record_hash : string;
}.

Record BatchCompletion : Type := {
  total_items : N;
  completion_digest : string;
}.

Definition decode_nibble (value : ascii) : result BatchValidationError N :=
  if byte_in 48 57 value then Ok (byte_val value - 48)%N
  else if byte_in 97 102 value then Ok (byte_val value - 97 + 10)%N
  else Err InvalidRecordHash.

(** The loop over [as_chunks::<2>()]; an odd last byte would be the remainder. *)
Fixpoint decode_pairs (hex : bytes) : result BatchValidationError bytes :=
  match hex with
  | high :: low :: rest =>
      h ← decode_nibble high;
      l ← decode_nibble low;
      out ← decode_pairs rest;
      Ok (Ascii.ascii_of_N (N.lor (N.shiftl h 4) l) :: out)
  | _ => Ok []
  end.

Definition decode_blake3 (value : string) : result BatchValidationError bytes :=
  hex ← ok_or (strip_prefix "blake3:" value) InvalidRecordHash;
  _ ← bail_if (negb (String.length hex =? 64)) InvalidRecordHash;
  decode_pairs (as_bytes hex).

Section validator.
Context `{Blake3}.

Record BatchValidator : Type := {
  batch_id : string;
  limits : BatchLimits;
  next_item_index : N;
  chunk_count : N;
  digest : hasher;
}.

(** [BatchValidator::new] *)
Definition new (id : string) (lim : BatchLimits)
    : result BatchValidationError BatchValidator :=
  _ ← bail_if (str_is_empty id) EmptyBatchId;
  lim ← validate_limits lim;
  Ok {| batch_id := id; limits := lim; next_item_index := 0; chunk_count := 0;
        digest := hasher_update hasher_new DIGEST_DOMAIN |}.

(** The checks of [accept_chunk], in order, up to the first write to [self]: the
    decoded record hash and the next item index. *)
Definition check_chunk (self : BatchValidator) (chunk : BatchChunkDescriptor)
    : result BatchValidationError (bytes * N) :=
  _ ← bail_if (negb (bool_decide (chunk_batch_id chunk = batch_id self)))
        (BatchMismatch (batch_id self) (chunk_batch_id chunk));
  _ ← bail_if (item_count chunk =? 0)%N EmptyChunk;
  _ ← bail_if (max_items (limits self) <? item_count chunk)%N
        (TooManyItems (item_count chunk) (max_items (limits self)));
  _ ← bail_if (max_serialized_bytes (limits self) <? serialized_bytes chunk)%N
        (TooManyBytes (serialized_bytes chunk) (max_serialized_bytes (limits self)));
  _ ← bail_if (negb (first_item_index chunk =? next_item_index self)%N)
        (NonConsecutiveRange (next_item_index self) (first_item_index chunk));
  hash ← decode_blake3 (record_hash chunk);
  next ← ok_or (checked_add_u64 (next_item_index self) (item_count chunk)) ItemCountOverflow;
  Ok (hash, next).

(** [BatchValidator::accept_chunk] *)
Definition accept_chunk (chunk : BatchChunkDescriptor)
    : st BatchValidator BatchValidationError () :=
  self ← st_get;
  checked ← st_lift (check_chunk self chunk);
  st_modify (λ self, {|
    batch_id := batch_id self;
    limits := limits self;
    next_item_index := checked.2;
    chunk_count := wrapping_add_u64 (chunk_count self) 1;
    digest :=
      hasher_update
        (hasher_update
          (hasher_update (digest self) (be_bytes 8 (first_item_index chunk)))
          (be_bytes 4 (item_count chunk)))
        checked.1
  |}).

Definition observed_items (self : BatchValidator) : N := next_item_index self.

Definition ordered_item_digest (self : BatchValidator) : result BatchValidationError string :=
  _ ← bail_if (chunk_count self =? 0)%N NoChunks;
  Ok ("blake3:" +:+ hasher_finalize_hex (digest self)).

Definition validate_completion (self : BatchValidator) (completion : BatchCompletion)
    : result BatchValidationError () :=
  _ ← bail_if (chunk_count self =? 0)%N NoChunks;
  _ ← bail_if (negb (total_items completion =? next_item_index self)%N)
        (CompletionCountMismatch (next_item_index self) (total_items completion));
  expected ← ordered_item_digest self;
  _ ← bail_if (negb (bool_decide (completion_digest completion = expected)))
        CompletionDigestMismatch;
  Ok ().

(** The caller's loop: the chunks of a batch in stream order. *)
Definition accept_all (chunks : list BatchChunkDescriptor)
    : st BatchValidator BatchValidationError (list ()) :=
  st_map accept_chunk chunks.
End validator.

(** ** Record hashes *)

Lemma decode_nibble_Ok a n :
  decode_nibble a = Ok n ↔ (n < 16)%N ∧ a = hex_digit n.
Proof.
  unfold decode_nibble. split.
  - destruct (byte_in 48 57 a) eqn:Hd; [|destruct (byte_in 97 102 a) eqn:Hl; [|done]];
      rewrite byte_in_true in *; intros [= <-]; (split; [lia |]);
      apply (inj byte_val); rewrite hex_digit_val by lia; case_match; boolify; lia.
  - intros [Hn ->]. unfold byte_in. rewrite (hex_digit_val n Hn).
    destruct (N.ltb_spec n 10).
    + rewrite !(proj2 (N.leb_le _ _)) by lia. cbn [andb]. f_equal. lia.
    + rewrite (proj2 (N.leb_gt (87 + n) 57)), andb_false_r by lia.
      rewrite !(proj2 (N.leb_le _ _)) by lia. cbn [andb]. f_equal. lia.
Qed.

Lemma decode_nibble_digit n : (n < 16)%N → decode_nibble (hex_digit n) = Ok n.
Proof. intros. by apply decode_nibble_Ok. Qed.

Lemma nibbles_val h l : (h < 16)%N → (l < 16)%N → N.lor (N.shiftl h 4) l = (16 * h + l)%N.
Proof.
  intros Hh Hl.
  assert (Forall (λ h, Forall (λ l, N.lor (N.shiftl h 4) l = (16 * h + l)%N)
    (N.of_nat <$> seq 0 16)) (N.of_nat <$> seq 0 16)) as Hall by (repeat constructor).
  rewrite Forall_forall in Hall.
  assert (∀ x, (x < 16)%N → x ∈ N.of_nat <$> seq 0 16) as Hin.
  { intros x Hx. apply list_elem_of_fmap. exists (N.to_nat x).
    rewrite elem_of_seq. lia. }
  specialize (Hall h (Hin h Hh)). rewrite Forall_forall in Hall. auto.
Qed.

Lemma decode_pairs_Ok n hex b :
  length hex = 2 * n → decode_pairs hex = Ok b ↔ hex = as_bytes (hex_encode b).
Proof.
  revert hex b. induction n as [|n IH]; intros hex b Hlen.
  - apply nil_length_inv in Hlen as ->. cbn. destruct b; naive_solver.
  - destruct hex as [|h [|l hex]]; cbn in Hlen; [lia..|]. cbn [decode_pairs]. split.
    + intros Hrun. inv_ok.
      repeat match goal with H : decode_nibble _ = Ok _ |- _ =>
        apply decode_nibble_Ok in H as [? ->] end.
      match goal with H : decode_pairs _ = Ok _ |- _ => apply IH in H; [|lia] end.
      subst hex. rewrite nibbles_val, as_bytes_hex_cons, byte_val_of_N by lia. repeat f_equal.
      * rewrite (N.mul_comm 16), N.div_add_l, N.div_small; lia.
      * rewrite N.add_comm, (N.mul_comm 16), N.Div0.mod_add, N.mod_small; lia.
    + destruct b as [|a b]; [done |]. rewrite as_bytes_hex_cons.
      intros [= -> -> Hrest].
      pose proof (byte_val_bound a).
      assert (byte_val a / 16 < 16)%N by (apply N.Div0.div_lt_upper_bound; lia).
      assert (byte_val a mod 16 < 16)%N by (apply N.mod_lt; lia).
      rewrite decode_nibble_digit by done. cbn [mbind result_bind].
      rewrite decode_nibble_digit by done. cbn [mbind result_bind].
      rewrite (proj2 (IH hex b ltac:(lia)) Hrest).
      cbn [mbind result_bind].
      rewrite nibbles_val by done. do 2 f_equal.
      rewrite <- N.div_mod' . apply Ascii.ascii_N_embedding.
Qed.

Lemma decode_blake3_Ok value b :
  decode_blake3 value = Ok b ↔ length b = 32 ∧ value = "blake3:" +:+ hex_encode b.
Proof.
  unfold decode_blake3. split.
  - intros Hrun. inv_ok. boolify.
    match goal with H : strip_prefix _ _ = Some _ |- _ =>
      apply strip_prefix_Some in H as -> end.
    match goal with H : (_ =? _) = true |- _ => apply Nat.eqb_eq in H as Hlen end.
    rewrite (decode_pairs_Ok 32) in * by (by rewrite length_as_bytes).
    match goal with H : as_bytes _ = as_bytes _ |- _ => apply (inj as_bytes) in H as -> end.
    rewrite length_hex_encode in Hlen. split; [lia | done].
  - intros [Hlen ->]. rewrite strip_prefix_app. cbn [ok_or mbind result_bind].
    rewrite length_hex_encode, Hlen. cbn [Nat.mul Nat.add Nat.eqb negb bail_if].
    apply (decode_pairs_Ok 32); [|done]. rewrite length_as_bytes, length_hex_encode. lia.
Qed.

(** [decode_blake3] is the exact inverse of printing a 32-byte hash: it
    accepts a string precisely when it is [blake3:] followed by the lowercase
    hexadecimal form of the bytes it returns, and every 32-byte hash is so
    printed. *)
Theorem decode_blake3_iff value b :
  decode_blake3 value = Ok b ↔ length b = 32 ∧ value = "blake3:" +:+ hex_encode b.
Proof. apply decode_blake3_Ok. Qed.

(** ** Specification of a batch *)

(** One chunk that fits at item [start]. *)
Record chunk_fits (id : string) (lim : BatchLimits) (start : N) (c : BatchChunkDescriptor)
    : Prop := {
  fits_batch : chunk_batch_id c = id;
  fits_nonempty : item_count c ≠ 0%N;
  fits_items : (item_count c <= max_items lim)%N;
  fits_bytes : (serialized_bytes c <= max_serialized_bytes lim)%N;
  fits_start : first_item_index c = start;
  fits_end : (start + item_count c <= u64_max)%N;
  fits_hash : is_ok (decode_blake3 (record_hash c)) = true;
}.

(** Chunks that cover consecutive ranges from item [start] on. *)
Fixpoint consecutive (id : string) (lim : BatchLimits) (start : N)
    (cs : list BatchChunkDescriptor) : Prop :=
  match cs with
  | [] => True
  | c :: cs => chunk_fits id lim start c ∧ consecutive id lim (start + item_count c) cs
  end.

Definition items (cs : list BatchChunkDescriptor) : N :=
  foldr (λ c n, item_count c + n)%N 0%N cs.

Definition hash_bytes (c : BatchChunkDescriptor) : bytes :=
  match decode_blake3 (record_hash c) with Ok h => h | Err _ => [] end.

(** The bytes a chunk adds to the ordered digest, and those of a whole batch. *)
Definition chunk_preimage (c : BatchChunkDescriptor) : bytes :=
  be_bytes 8 (first_item_index c) ++ be_bytes 4 (item_count c) ++ hash_bytes c.

Definition batch_preimage (cs : list BatchChunkDescriptor) : bytes :=
  DIGEST_DOMAIN ++ concat (chunk_preimage <$> cs).

(** What the digest binds of a chunk. *)
Definition chunk_view (c : BatchChunkDescriptor) : N * N * string :=
  (first_item_index c, item_count c, record_hash c).

Lemma items_cons c cs : items (c :: cs) = (item_count c + items cs)%N.
Proof. done. Qed.

(** ** [accept_chunk] *)

Lemma validate_limits_Ok lim lim' :
  validate_limits lim = Ok lim' →
  lim' = lim ∧ (max_items lim <= DEFAULT_MAX_BATCH_CHUNK_ITEMS)%N.
Proof. unfold validate_limits. case_match; [done |]. intros [= <-]. by boolify. Qed.

Section accept.
Context `{Blake3}.
Implicit Types (s v : BatchValidator) (c : BatchChunkDescriptor).

Lemma check_chunk_Ok s c h n :
  check_chunk s c = Ok (h, n) ↔
  chunk_fits (batch_id s) (limits s) (next_item_index s) c ∧
  decode_blake3 (record_hash c) = Ok h ∧ n = (next_item_index s + item_count c)%N.
Proof.
  unfold check_chunk. split.
  - intros Hrun. inv_ok. boolify.
    match goal with H : checked_add_u64 _ _ = Some _ |- _ =>
      apply checked_add_u64_Some in H as [-> ?] end.
    simplify_eq. split; [|done]. split; auto.
    by match goal with H : decode_blake3 _ = Ok _ |- _ => rewrite H end.
  - intros ([] & Hh & ->). run_ok. done.
Qed.

Lemma accept_chunk_run c s :
  accept_chunk c s =
  match check_chunk s c with
  | Ok (h, n) => (Ok (), {|
      batch_id := batch_id s; limits := limits s; next_item_index := n;
      chunk_count := wrapping_add_u64 (chunk_count s) 1;
      digest := hasher_update (hasher_update
        (hasher_update (digest s) (be_bytes 8 (first_item_index c)))
        (be_bytes 4 (item_count c))) h |})
  | Err e => (Err e, s)
  end.
Proof.
  unfold accept_chunk, mbind, st_bind, st_get, st_lift, st_modify.
  by destruct (check_chunk s c) as [[h n]|e].
Qed.

(** A refused chunk leaves the validator as it was. *)
Lemma accept_chunk_Err c s e s' : accept_chunk c s = (Err e, s') → s' = s.
Proof. rewrite accept_chunk_run. destruct (check_chunk s c) as [[]|]; naive_solver. Qed.

(** The digest has absorbed the bytes [pre]. *)
Definition absorbed s (pre : bytes) : Prop :=
  ∃ pieces, digest s = foldl hasher_update hasher_new pieces ∧ concat pieces = pre.

(** The state a batch's checks keep: the counters agree and do not overflow. *)
Record validator_inv (id : string) (lim : BatchLimits) (n k : N) (pre : bytes) s : Prop := {
  inv_batch : batch_id s = id;
  inv_limits : limits s = lim;
  inv_next : next_item_index s = n;
  inv_count : chunk_count s = k;
  inv_bound : (k <= n <= u64_max)%N;
  inv_digest : absorbed s pre;
}.

Lemma accept_chunk_inv id lim n k pre c s :
  validator_inv id lim n k pre s →
  (is_ok (accept_chunk c s).1 = true ↔ chunk_fits id lim n c) ∧
  (chunk_fits id lim n c →
   validator_inv id lim (n + item_count c) (k + 1) (pre ++ chunk_preimage c)
     (accept_chunk c s).2).
Proof.
  intros [<- <- <- <- Hbound (pieces & Hd & <-)]. rewrite accept_chunk_run.
  destruct (check_chunk s c) as [[h m]|e] eqn:Hcheck; cbn.
  - apply check_chunk_Ok in Hcheck as (Hfits & Hh & ->). split; [done |].
    intros _. destruct Hfits. split; cbn; [done | done | done | | lia |].
    + apply wrapping_add_u64_small. lia.
    + exists (pieces ++ [be_bytes 8 (first_item_index c); be_bytes 4 (item_count c); h]).
      rewrite foldl_app, concat_app. cbn. unfold chunk_preimage, hash_bytes.
      by rewrite Hd, Hh, app_nil_r.
  - assert (¬ chunk_fits (batch_id s) (limits s) (next_item_index s) c) as Hno.
    { intros Hfits. pose proof (fits_hash _ _ _ _ Hfits) as Hh.
      destruct (decode_blake3 (record_hash c)) as [h|] eqn:Hdec; [|done].
      assert (check_chunk s c = Ok (h, (next_item_index s + item_count c)%N)) as Hok
        by (by apply check_chunk_Ok). congruence. }
    split; [split; [done | intros; contradiction] | intros; contradiction].
Qed.

Lemma accept_all_inv id lim n k pre cs s :
  validator_inv id lim n k pre s →
  (is_ok (accept_all cs s).1 = true ↔ consecutive id lim n cs) ∧
  (consecutive id lim n cs →
   validator_inv id lim (n + items cs) (k + N.of_nat (length cs))
     (pre ++ concat (chunk_preimage <$> cs)) (accept_all cs s).2).
Proof.
  unfold accept_all. revert n k pre s. induction cs as [|c cs IH]; intros n k pre s Hs.
  - cbn. split; [done |]. intros _. by rewrite app_nil_r, !N.add_0_r.
  - destruct (accept_chunk_inv _ _ _ _ _ c _ Hs) as [Hiff Hinv].
    cbn [st_map consecutive]. unfold mbind, st_bind.
    destruct (accept_chunk c s) as [[[]|e] s1]; cbn in Hiff, Hinv; cycle 1.
    { cbn. split; [|naive_solver]. split; [done | intros [? _]; by apply Hiff]. }
    assert (chunk_fits id lim n c) as Hfits by (by apply Hiff).
    destruct (IH _ _ _ _ (Hinv Hfits)) as [IHiff IHinv].
    destruct (st_map accept_chunk cs s1) as [[ys|e] s2]; cbn [fst snd is_ok mret st_ret] in IHiff, IHinv |- *.
    + split; [naive_solver |]. intros [_ Hrest]. specialize (IHinv Hrest).
      rewrite <- app_assoc in IHinv. revert IHinv.
      match goal with |- validator_inv _ _ ?a ?b _ _ → validator_inv _ _ ?a' ?b' _ _ =>
        replace a' with a by (rewrite items_cons; lia);
        replace b' with b by (cbn [length]; lia) end. done.
    + split; [|naive_solver]. split; [done |]. intros [_ ?]. by apply IHiff.
Qed.

Lemma new_inv id lim s :
  new id lim = Ok s →
  validator_inv id lim 0 0 DIGEST_DOMAIN s ∧
  (max_items lim <= DEFAULT_MAX_BATCH_CHUNK_ITEMS)%N.
Proof.
  unfold new. intros Hrun. inv_ok.
  match goal with H : validate_limits _ = Ok _ |- _ =>
    apply validate_limits_Ok in H as [-> ?] end.
  split; [|done]. split; cbn; [done.. | lia |].
  exists [DIGEST_DOMAIN]. split; [done | apply app_nil_r].
Qed.
End accept.

(** ** Batches *)

Section batches.
Context `{Blake3Laws}.
Implicit Types (cs : list BatchChunkDescriptor).

Lemma accept_all_spec id lim s cs :
  new id lim = Ok s →
  (is_ok (accept_all cs s).1 = true ↔ consecutive id lim 0 cs) ∧
  (consecutive id lim 0 cs → observed_items (accept_all cs s).2 = items cs).
Proof.
  intros [Hs _]%new_inv. destruct (accept_all_inv _ _ _ _ _ cs _ Hs) as [Hiff Hinv].
  split; [done |]. intros Hcs. by destruct (Hinv Hcs).
Qed.

(** A validator for a batch accepts a list of chunks exactly when they belong
    to the batch, stay within its limits and cover consecutive item ranges from
    item zero without overflow; it has then observed the sum of their items. *)
Theorem accept_all_iff id lim s cs :
  new id lim = Ok s →
  (is_ok (accept_all cs s).1 = true ↔ consecutive id lim 0 cs) ∧
  (consecutive id lim 0 cs → observed_items (accept_all cs s).2 = items cs).
Proof. apply accept_all_spec. Qed.

Lemma completion_Ok id lim s cs comp :
  new id lim = Ok s → consecutive id lim 0 cs →
  validate_completion (accept_all cs s).2 comp = Ok () ↔
  cs ≠ [] ∧ total_items comp = items cs ∧
  completion_digest comp = blake3_identifier (batch_preimage cs).
Proof.
  intros [Hs _]%new_inv Hcs.
  destruct (accept_all_inv _ _ _ _ _ cs _ Hs) as [_ Hinv].
  destruct (Hinv Hcs) as [_ _ Hnext Hcount _ (pieces & Hd & Hpre)].
  set (v := (accept_all cs s).2) in *.
  unfold validate_completion, ordered_item_digest.
  rewrite Hcount, Hnext, Hd, hasher_stream, Hpre.
  change (DIGEST_DOMAIN ++ concat (chunk_preimage <$> cs)) with (batch_preimage cs).
  change ("blake3:" +:+ blake3_hex (batch_preimage cs))
    with (blake3_identifier (batch_preimage cs)).
  destruct cs as [|c cs']; [split; [done | naive_solver] |].
  rewrite (proj2 (N.eqb_neq _ _)) by (cbn [length]; lia). cbn [bail_if mbind result_bind].
  destruct (N.eqb_spec (total_items comp) (0 + items (c :: cs')));
    cbn [negb bail_if mbind result_bind]; [|naive_solver].
  case_bool_decide; cbn [negb bail_if mbind result_bind]; naive_solver.
Qed.

(** After accepting the chunks of a batch, [validate_completion] succeeds
    exactly for a non-empty batch whose declared total is the sum of the items
    and whose declared digest is the hash of the domain tag and every chunk's
    range and record hash, in order. *)
Theorem validate_completion_iff id lim s cs comp :
  new id lim = Ok s → consecutive id lim 0 cs →
  validate_completion (accept_all cs s).2 comp = Ok () ↔
  cs ≠ [] ∧ total_items comp = items cs ∧
  completion_digest comp = blake3_identifier (batch_preimage cs).
Proof. apply completion_Ok. Qed.

Lemma chunk_preimage_inj id lim id' lim' n c c' rest rest' :
  (max_items lim <= DEFAULT_MAX_BATCH_CHUNK_ITEMS)%N →
  (max_items lim' <= DEFAULT_MAX_BATCH_CHUNK_ITEMS)%N →
  chunk_fits id lim n c → chunk_fits id' lim' n c' →
  chunk_preimage c ++ rest = chunk_preimage c' ++ rest' →
  chunk_view c = chunk_view c' ∧ item_count c = item_count c' ∧ rest = rest'.
Proof.
  intros Hlim Hlim' [] [] Heq. unfold DEFAULT_MAX_BATCH_CHUNK_ITEMS, chunk_view in *.
  unfold chunk_preimage in Heq. rewrite <- !app_assoc in Heq.
  apply app_inj_1 in Heq as [Hfirst Heq]; [|by rewrite !length_be_bytes].
  apply app_inj_1 in Heq as [Hcount Heq]; [|by rewrite !length_be_bytes].
  apply be_bytes_inj in Hcount; [|cbn; lia..].
  unfold hash_bytes in Heq.
  destruct (decode_blake3 (record_hash c)) as [h|] eqn:Hh; [|done].
  destruct (decode_blake3 (record_hash c')) as [h'|] eqn:Hh'; [|done].
  apply decode_blake3_Ok in Hh as [Hlen ->], Hh' as [Hlen' ->].
  apply app_inj_1 in Heq as [-> ->]; [|congruence].
  split_and!; congruence.
Qed.

Lemma length_chunk_preimage c : 0 < length (chunk_preimage c).
Proof. unfold chunk_preimage. rewrite length_app, length_be_bytes. lia. Qed.

(** Every chunk adds bytes, so the preimage also fixes the number of chunks. *)
Lemma batch_preimage_inj id lim id' lim' n cs cs' :
  (max_items lim <= DEFAULT_MAX_BATCH_CHUNK_ITEMS)%N →
  (max_items lim' <= DEFAULT_MAX_BATCH_CHUNK_ITEMS)%N →
  consecutive id lim n cs → consecutive id' lim' n cs' →
  concat (chunk_preimage <$> cs) = concat (chunk_preimage <$> cs') →
  chunk_view <$> cs = chunk_view <$> cs'.
Proof.
  intros Hlim Hlim'. revert n cs'.
  induction cs as [|c cs IH]; intros n [|c' cs'] Hcs Hcs' Heq; [done | | |].
  1, 2: exfalso; apply (f_equal length) in Heq;
    rewrite fmap_nil, fmap_cons in Heq; cbn [concat length] in Heq;
    rewrite length_app in Heq.
  1: pose proof (length_chunk_preimage c'); lia.
  1: pose proof (length_chunk_preimage c); lia.
  destruct Hcs as [Hc Hcs], Hcs' as [Hc' Hcs']. cbn in Heq.
  apply (chunk_preimage_inj id lim id' lim' n) in Heq as (Hview & Hcount & Heq); [|done..].
  rewrite !fmap_cons, Hview. f_equal. rewrite Hcount in Hcs. by eapply IH.
Qed.

(** C27: a completion record binds the batch: when two accepted chunk sequences
    validate the same completion, their ranges and record hashes are identical,
    or their digests exhibit a blake3 collision. *)
Theorem completion_binds id lim s cs id' lim' s' cs' comp :
  new id lim = Ok s → consecutive id lim 0 cs →
  new id' lim' = Ok s' → consecutive id' lim' 0 cs' →
  validate_completion (accept_all cs s).2 comp = Ok () →
  validate_completion (accept_all cs' s').2 comp = Ok () →
  chunk_view <$> cs = chunk_view <$> cs' ∨
  blake3_collision (batch_preimage cs) (batch_preimage cs').
Proof.
  intros Hnew Hcs Hnew' Hcs' Hv Hv'.
  apply (completion_Ok id lim) in Hv as (_ & _ & Hv); [|done..].
  apply (completion_Ok id' lim') in Hv' as (_ & _ & Hv'); [|done..].
  rewrite Hv in Hv'. apply hash_eq_or_collision in Hv' as [Heq | ?]; [left | by right].
  apply (inj (app _)) in Heq.
  apply new_inv in Hnew as [_ ?], Hnew' as [_ ?].
  by apply (batch_preimage_inj id lim id' lim' 0).
Qed.
End batches.

(** ** Examples *)

Module Examples.
Definition record_hash_of (a : ascii) : string := "blake3:" +:+ of_bytes (replicate 64 a).

Definition chunk (first count : N) (a : ascii) : BatchChunkDescriptor := {|
  chunk_batch_id := "batch"; first_item_index := first; item_count := count;
  serialized_bytes := 100; record_hash := record_hash_of a
|}.

Definition chunks : list BatchChunkDescriptor := [chunk 0 3 "a"%char; chunk 3 2 "b"%char].

Definition fresh : @BatchValidator tail_blake3 := {|
  batch_id := "batch"; limits := default_limits; next_item_index := 0; chunk_count := 0;
  digest := DIGEST_DOMAIN
|}.

Definition completion : BatchCompletion := {|
  total_items := 5; completion_digest := @blake3_identifier tail_blake3 (batch_preimage chunks)
|}.

Example fresh_new : new "batch" default_limits = Ok fresh.
Proof. vm_compute. reflexivity. Qed.

Lemma chunks_consecutive : consecutive "batch" default_limits 0 chunks.
Proof. repeat split; vm_compute; congruence. Qed.

Lemma accept_all_iff_witness :
  new "batch" default_limits = Ok fresh ∧
  observed_items (accept_all chunks fresh).2 = 5%N.
Proof.
  split; [vm_compute; reflexivity |].
  apply (accept_all_iff "batch" default_limits fresh chunks).
  - vm_compute. reflexivity.
  - exact chunks_consecutive.
Defined.

Lemma validate_completion_iff_witness :
  validate_completion (accept_all chunks fresh).2 completion = Ok ().
Proof.
  apply (validate_completion_iff "batch" default_limits fresh chunks completion).
  - vm_compute. reflexivity.
  - exact chunks_consecutive.
  - split; [discriminate | split; vm_compute; reflexivity].
Defined.

Lemma completion_binds_witness :
  chunk_view <$> chunks = chunk_view <$> chunks ∨
  blake3_collision (batch_preimage chunks) (batch_preimage chunks).
Proof.
  apply (completion_binds "batch" default_limits fresh chunks
           "batch" default_limits fresh chunks completion);
    first [exact chunks_consecutive | vm_compute; reflexivity].
Defined.
End Examples.
