(* ===== verification/Record.v ===== *)
(** Origin records: [v2_event.rs], and the loop of [v2_store.rs] that reads the
    lines of an origin in order. Each record names its origin, its sequence
    number and the hash of the record before it. *)
From Stdlib Require Import ZArith NArith Lia Ascii.
From stdpp Require Import base decidable list gmap strings sorting.
From S2P Require Import Prelude.
From S2P Require Import Text.
From S2P Require Import External.
From S2P Require Import Ids.
From S2P Require Import Batch.

Definition V2_RECORD_VERSION : N := 2.
Definition DEFAULT_MAX_V2_RECORD_BYTES : N := DEFAULT_MAX_BATCH_CHUNK_BYTES.

Inductive V2RecordError : Type :=
  | ContainsNewline
  | TooManyBytes (actual maximum : N)
  | InvalidJson (message : string)
  | UnsupportedVersion (actual expected : N)
  | OriginMismatch (expected actual : string)
  | InvalidOriginId (origin_id : string)
  | SequenceMismatch (expected actual : N)
  | InvalidRecordId
  | InvalidBatchId
  | InvalidPayload
  | PreviousHashMismatch.

Inductive V2RecordKind : Type :=
  | BatchStart
  | BatchChunk
  | BatchComplete.

#[export] Instance V2RecordKind_eq_dec : EqDecision V2RecordKind.
Proof. solve_decision. Defined.

Record V2RecordEnvelope : Type := {
  v : N;
  origin_id : string;
  origin_seq : N;
  record_id : string;
  record_kind : V2RecordKind;
  time_utc_ms : N;
  batch_id : string;
  previous_record_hash : option string;
  payload : Value;
}.

Record V2Record : Type := {
  envelope : V2RecordEnvelope;
  record_hash : string;
}.

(** [hash.is_some_and(|hash| !is_blake3_identifier(hash))] *)
Definition malformed_hash (hash : option string) : bool :=
  match hash with
  | Some hash => negb (is_blake3_identifier hash)
  | None => false
  end.

Section parse.
Context `{Blake3, UlidCrate, FromJson V2RecordEnvelope}.

Definition parse_v2_record (line : bytes) (expected_origin_id : string)
    (expected_origin_seq : N) (expected_previous_hash : option string)
    (max_record_bytes : N) : result V2RecordError V2Record :=
  _ ← bail_if (bool_decide ("010"%char ∈ line) || bool_decide ("013"%char ∈ line))
        ContainsNewline;
  let effective_max := N.min max_record_bytes DEFAULT_MAX_V2_RECORD_BYTES in
  _ ← bail_if (effective_max <? N.of_nat (length line))%N
        (TooManyBytes (N.of_nat (length line)) effective_max);
  envelope ← map_err InvalidJson (from_json line);
  _ ← bail_if (negb (v envelope =? V2_RECORD_VERSION)%N)
        (UnsupportedVersion (v envelope) V2_RECORD_VERSION);
  _ ← bail_if (negb (is_origin_id (origin_id envelope)))
        (InvalidOriginId (origin_id envelope));
  _ ← bail_if (negb (bool_decide (origin_id envelope = expected_origin_id)))
        (OriginMismatch expected_origin_id (origin_id envelope));
  _ ← bail_if (negb (origin_seq envelope =? expected_origin_seq)%N
               || (expected_origin_seq =? 0)%N)
        (SequenceMismatch expected_origin_seq (origin_seq envelope));
  _ ← bail_if (negb (is_prefixed_lowercase_ulid (record_id envelope) "rec_"))
        InvalidRecordId;
  _ ← bail_if (negb (is_prefixed_lowercase_ulid (batch_id envelope) "batch_"))
        InvalidBatchId;
  _ ← bail_if (negb (is_object (payload envelope))) InvalidPayload;
  _ ← bail_if
        (negb (bool_decide (previous_record_hash envelope = expected_previous_hash))
         || malformed_hash (previous_record_hash envelope)
         || ((expected_origin_seq =? 1)%N && is_some_b (previous_record_hash envelope))
         || ((1 <? expected_origin_seq)%N
             && negb (is_some_b (previous_record_hash envelope))))
        PreviousHashMismatch;
  Ok {| envelope := envelope; record_hash := blake3_identifier line |}.

(** ** Specification *)

(** What a caller knows of a record it asked for at a position of a chain. *)
Record record_at (line : bytes) (origin : string) (seq : N) (previous : option string)
    (max : N) (e : V2RecordEnvelope) : Prop := {
  at_lines : ("010"%char ∉ line) ∧ ("013"%char ∉ line);
  at_size : (N.of_nat (length line) <= N.min max DEFAULT_MAX_V2_RECORD_BYTES)%N;
  at_json : from_json line = Ok e;
  at_version : v e = V2_RECORD_VERSION;
  at_origin : origin_id e = origin ∧ is_origin_id origin = true;
  at_seq : origin_seq e = seq ∧ seq ≠ 0%N;
  at_record_id : is_prefixed_lowercase_ulid (record_id e) "rec_" = true;
  at_batch_id : is_prefixed_lowercase_ulid (batch_id e) "batch_" = true;
  at_payload : is_object (payload e) = true;
  at_previous : previous_record_hash e = previous;
  at_previous_hash : ∀ h, previous = Some h → is_blake3_identifier h = true;
  at_first : previous = None ↔ seq = 1%N;
}.

Lemma previous_ok prev seq :
  seq ≠ 0%N →
  malformed_hash prev
  || ((seq =? 1)%N && is_some_b prev)
  || ((1 <? seq)%N && negb (is_some_b prev)) = false ↔
  (∀ h, prev = Some h → is_blake3_identifier h = true) ∧ (prev = None ↔ seq = 1%N).
Proof.
  intros Hseq. rewrite !orb_false_iff.
  destruct prev as [h|]; cbn; rewrite ?andb_true_r, ?andb_false_r.
  - rewrite negb_false_iff, N.eqb_neq. split; [naive_solver |].
    intros [Hh Hf]. split_and!; [by apply Hh | | done]. intros ->. by destruct Hf as [_ Hf]; specialize (Hf eq_refl).
  - rewrite N.ltb_ge. split; [intros [_ ?]; split; [done |]; split; [lia | done] |].
    intros [_ [Hf _]]. split; [done |]. rewrite Hf; done.
Qed.

Lemma parse_v2_record_spec line origin seq previous max r :
  parse_v2_record line origin seq previous max = Ok r ↔
  record_at line origin seq previous max (envelope r) ∧ record_hash r = blake3_identifier line.
Proof.
  unfold parse_v2_record. split.
  - intros Hrun. inv_ok. boolify.
    match goal with H : _ = previous, Hp : malformed_hash _ = false |- _ =>
      rewrite H in *; cbn; edestruct (proj1 (previous_ok previous seq ltac:(done)))
        as [? ?]; [rewrite !orb_false_iff; by split_and! |] end.
    split; [|done]. by split; try (split; congruence).
  - intros [[[] ? ? ? [] [] ? ? ? Hp ? ?] ?]. destruct r as [e h]. cbn in *. subst.
    pose proof (proj2 (previous_ok (previous_record_hash e) (origin_seq e) ltac:(done))) as Hprev.
    run_ok. rewrite bool_decide_eq_true_2 by done. cbn [negb orb].
    by rewrite Hprev.
Qed.

(** [parse_v2_record] returns a record exactly when the line is one
    newline-free envelope within the size limit, at the expected origin, sequence
    and previous hash, with well-formed identifiers; the first record and only it
    has no previous hash. The record's hash is the hash of the exact line. *)
Theorem parse_v2_record_iff line origin seq previous max r :
  parse_v2_record line origin seq previous max = Ok r ↔
  record_at line origin seq previous max (envelope r) ∧ record_hash r = blake3_identifier line.
Proof. apply parse_v2_record_spec. Qed.
End parse.
