(* ===== verification/Genesis.v ===== *)
(** The signed genesis of an archive: [genesis.rs]. The document names the first
    client and is signed with that client's key; the client's identifier is the
    hash of its public key. *)
From Stdlib Require Import ZArith NArith Lia Ascii.
From stdpp Require Import base decidable list gmap strings sorting.
From S2P Require Import Prelude.
From S2P Require Import Text.
From S2P Require Import External.
From S2P Require Import Ids.
From S2P Require Import Frontier.
From S2P Require Import Record.

Definition GENESIS_VERSION : N := 2.
Definition V2_SCHEMA_VERSION : N := 6.

Inductive GenesisError : Type :=
  | InvalidArchiveIdentity
  | UnsupportedVersion
  | InvalidInitialClient
  | InvalidSignature
  | Serialization (message : string).

Record GenesisBody : Type := {
  genesis_v : N;
  archive_id : string;
  archive_display_name : string;
  created_time_utc_ms : N;
  record_v : N;
  frontier_v : N;
  item_projection_v : N;
  schema_v : N;
  initial_client_id : string;
  initial_public_key : string;
}.

Record SignedGenesis : Type := {
  body : GenesisBody;
  signature : string;
}.

(** [client_id(&public_key)] *)
Definition client_id `{Blake3} (public_key : bytes) : string :=
  "origin_" +:+ blake3_hex public_key.

(** [<[u8; 32]>::try_from] *)
Definition try_into_32 (b : bytes) : option bytes :=
  if length b =? 32 then Some b else None.

Section genesis.
Context `{Blake3, Base64, Ed25519, ToJson GenesisBody, ToJson SignedGenesis}.

(** [GenesisBody::new] *)
Definition new_body (archive : string) (display_name : string) (created : N)
    (key : VerifyingKey) : GenesisBody :=
  let public_key := key_to_bytes key in
  {| genesis_v := GENESIS_VERSION;
     archive_id := archive;
     archive_display_name := display_name;
     created_time_utc_ms := created;
     record_v := V2_RECORD_VERSION;
     frontier_v := FRONTIER_VERSION;
     item_projection_v := INITIAL_ITEM_PROJECTION_VERSION;
     schema_v := V2_SCHEMA_VERSION;
     initial_client_id := client_id public_key;
     initial_public_key := base64_encode public_key |}.

(** [GenesisBody::validate] *)
Definition validate_body (self : GenesisBody) : result GenesisError VerifyingKey :=
  _ ← bail_if (str_is_empty (archive_id self)
               || str_is_empty (trim (archive_display_name self)))
        InvalidArchiveIdentity;
  _ ← bail_if (negb (genesis_v self =? GENESIS_VERSION)%N
               || negb (record_v self =? V2_RECORD_VERSION)%N
               || negb (frontier_v self =? FRONTIER_VERSION)%N
               || negb (item_projection_v self =? INITIAL_ITEM_PROJECTION_VERSION)%N
               || negb (schema_v self =? V2_SCHEMA_VERSION)%N)
        UnsupportedVersion;
  decoded ← ok_or (base64_decode (initial_public_key self)) InvalidInitialClient;
  key_bytes ← ok_or (try_into_32 decoded) InvalidInitialClient;
  _ ← bail_if (negb (bool_decide (initial_client_id self = client_id key_bytes)))
        InvalidInitialClient;
  ok_or (key_from_bytes key_bytes) InvalidInitialClient.

(** [GenesisBody::canonical_bytes] *)
Definition body_bytes (self : GenesisBody) : result GenesisError bytes :=
  _ ← validate_body self;
  map_err Serialization (to_json self).

(** [SignedGenesis::verify] *)
Definition verify (self : SignedGenesis) : result GenesisError () :=
  key ← validate_body (body self);
  sig ← ok_or (base64_decode (signature self)) InvalidSignature;
  _ ← bail_if (negb (signature_from_slice sig)) InvalidSignature;
  message ← body_bytes (body self);
  bail_if (negb (verify_strict key message sig)) InvalidSignature.

(** [SignedGenesis::create] *)
Definition create (b : GenesisBody) (signing_key : SigningKey)
    : result GenesisError SignedGenesis :=
  key ← validate_body b;
  _ ← bail_if (negb (bool_decide (key = verifying_key signing_key))) InvalidInitialClient;
  message ← body_bytes b;
  let genesis := {| body := b; signature := base64_encode (sign signing_key message) |} in
  _ ← verify genesis;
  Ok genesis.

(** [SignedGenesis::canonical_bytes] *)
Definition canonical_bytes (self : SignedGenesis) : result GenesisError bytes :=
  _ ← verify self;
  map_err Serialization (to_json self).

Definition genesis_hash (self : SignedGenesis) : result GenesisError string :=
  b ← canonical_bytes self;
  Ok (blake3_identifier b).

(** ** Specification *)

(** A body this version of the program accepts, naming the client of [key]. *)
Record body_ok (b : GenesisBody) (key : VerifyingKey) : Prop := {
  ok_archive : archive_id b ≠ "" ∧ trim (archive_display_name b) ≠ "";
  ok_versions : genesis_v b = GENESIS_VERSION ∧ record_v b = V2_RECORD_VERSION ∧
    frontier_v b = FRONTIER_VERSION ∧
    item_projection_v b = INITIAL_ITEM_PROJECTION_VERSION ∧
    schema_v b = V2_SCHEMA_VERSION;
  ok_public_key : base64_decode (initial_public_key b) = Some (key_to_bytes key);
  ok_client : initial_client_id b = client_id (key_to_bytes key);
}.

Context {Hb3 : Blake3Laws} {Hb64 : Base64Laws} {Hed : Ed25519Laws}.

Lemma try_into_32_Some b b' : try_into_32 b = Some b' ↔ b' = b ∧ length b = 32.
Proof. unfold try_into_32. destruct (Nat.eqb_spec (length b) 32); naive_solver. Qed.

Lemma validate_body_Ok b key : validate_body b = Ok key ↔ body_ok b key.
Proof.
  unfold validate_body. split.
  - intros Hrun. inv_ok. boolify.
    match goal with Ht : try_into_32 _ = Some _, Hk : key_from_bytes _ = Some _ |- _ =>
      apply try_into_32_Some in Ht as [-> ?];
      pose proof (key_to_from_bytes _ _ Hk) as Heq end.
    rewrite !str_is_empty_false in *. split; rewrite ?Heq; auto.
  - intros [[Ha Hn] (?&?&?&?&?) Hpk Hc].
    assert (try_into_32 (key_to_bytes key) = Some (key_to_bytes key))
      by (apply try_into_32_Some; split; [done | apply key_bytes_length]).
    run_ok. apply ok_or_Ok, key_from_to_bytes.
Qed.

Lemma verify_Ok g u :
  verify g = Ok u ↔ ∃ key sig message,
    body_ok (body g) key ∧ base64_decode (signature g) = Some sig ∧
    signature_from_slice sig = true ∧ to_json (body g) = Ok message ∧
    verify_strict key message sig = true.
Proof.
  unfold verify, body_bytes. destruct u. split.
  - intros Hrun. inv_ok. boolify. rewrite validate_body_Ok in *.
    match goal with Hv : verify_strict ?k ?m ?s = true |- _ => exists k, s, m end.
    by split_and!.
  - intros (key & sig & message & Hbody%validate_body_Ok & ? & ? & Hmessage & Hsig).
    rewrite Hbody. cbn [mbind result_bind].
    run_ok. by rewrite Hsig.
Qed.

(** A genesis created for a named archive with the key of its first client
    succeeds whenever its body serializes, verifies, and names that client; so
    its canonical bytes and hash are defined whenever it serializes. *)
Theorem create_verifies archive display_name created sk message :
  archive ≠ "" → trim display_name ≠ "" →
  let b := new_body archive display_name created (verifying_key sk) in
  to_json b = Ok message →
  ∃ g, create b sk = Ok g ∧ body g = b ∧ verify g = Ok () ∧
    ∀ text, to_json g = Ok text → genesis_hash g = Ok (blake3_identifier text).
Proof.
  intros Ha Hn b Hmessage.
  assert (body_ok b (verifying_key sk)) as Hbody.
  { split; cbn; auto using base64_decode_encode. }
  set (g := {| body := b; signature := base64_encode (sign sk message) |}).
  assert (verify g = Ok ()) as Hverify.
  { apply verify_Ok. exists (verifying_key sk), (sign sk message), message.
    split_and!; [done | apply base64_decode_encode | apply signature_wellformed | done
      | apply verify_sign]. }
  exists g. split_and!; [| done | done |].
  - apply validate_body_Ok in Hbody. unfold create, body_bytes.
    run_ok. rewrite Hbody. cbn [mbind result_bind]. rewrite Hmessage. cbn [map_err mbind result_bind].
    fold g. by rewrite Hverify.
  - intros text Htext. unfold genesis_hash, canonical_bytes. by rewrite Hverify; cbn; rewrite Htext.
Qed.

(** A client identifier binds a public key: two verified genesis documents
    naming the same first client were signed with the same key, or the keys
    exhibit a blake3 collision. *)
Theorem client_id_binds g g' :
  verify g = Ok () → verify g' = Ok () →
  initial_client_id (body g) = initial_client_id (body g') →
  ∃ key key', validate_body (body g) = Ok key ∧ validate_body (body g') = Ok key' ∧
    (key = key' ∨ blake3_collision (key_to_bytes key) (key_to_bytes key')).
Proof.
  intros (key & ? & ? & Hbody & _)%verify_Ok (key' & ? & ? & Hbody' & _)%verify_Ok Hid.
  exists key, key'. rewrite !validate_body_Ok. split_and!; [done.. |].
  rewrite (ok_client _ _ Hbody), (ok_client _ _ Hbody') in Hid.
  apply (inj (String.append _)) in Hid.
  destruct (decide (key_to_bytes key = key_to_bytes key')) as [Heq|]; [left | by right].
  apply (f_equal key_from_bytes) in Heq. rewrite !key_from_to_bytes in Heq. by injection Heq.
Qed.
End genesis.

(** ** Examples *)

Module Examples.
(** Two keys; a signature is the key's byte and the message. *)
Definition key_byte (k : bool) : ascii := if k then "a"%char else "b"%char.

#[local] Instance two_keys : Ed25519 := {
  SigningKey := bool;
  VerifyingKey := bool;
  verifying_key k := k;
  key_to_bytes k := replicate 32 (key_byte k);
  key_from_bytes b :=
    if decide (b = replicate 32 "a"%char) then Some true
    else if decide (b = replicate 32 "b"%char) then Some false else None;
  sign k m := key_byte k :: m;
  signature_from_slice _ := true;
  verify_strict k m sig := bool_decide (sig = key_byte k :: m);
}.

#[local] Instance two_keys_laws : Ed25519Laws.
Proof.
  split; cbn -[replicate]; intros.
  - apply length_replicate.
  - by destruct k.
  - by repeat case_decide; simplify_eq.
  - done.
  - by apply bool_decide_eq_true_2.
Qed.

#[local] Instance body_json : ToJson GenesisBody := {
  to_json b := Ok (as_bytes (archive_id b +:+ "/" +:+ archive_display_name b +:+ "/"
                             +:+ initial_client_id b)) }.
#[local] Instance genesis_json : ToJson SignedGenesis := {
  to_json g := Ok (as_bytes (archive_id (body g) +:+ "/" +:+ signature g)) }.

Definition first_key : @SigningKey two_keys := true.

Definition sample_body : GenesisBody :=
  new_body "archive_1" "Family photos" 1700000000000 (verifying_key first_key).

Lemma create_verifies_witness :
  ∃ g, create sample_body first_key = Ok g ∧ verify g = Ok ().
Proof.
  destruct (create_verifies "archive_1" "Family photos" 1700000000000%N first_key
              (as_bytes ("archive_1/Family photos/" +:+ initial_client_id sample_body)))
    as (g & Hg & _ & Hv & _).
  - discriminate.
  - vm_compute. discriminate.
  - vm_compute. reflexivity.
  - exists g. split; [exact Hg | exact Hv].
Defined.

Definition sample_genesis : SignedGenesis := {|
  body := sample_body;
  signature := "a" +:+ "archive_1/Family photos/" +:+ initial_client_id sample_body
|}.

Lemma client_id_binds_witness :
  ∃ key key' : VerifyingKey, validate_body (body sample_genesis) = Ok key ∧
    validate_body (body sample_genesis) = Ok key' ∧
    (key = key' ∨ blake3_collision (key_to_bytes key) (key_to_bytes key')).
Proof.
  apply (client_id_binds sample_genesis sample_genesis); vm_compute; reflexivity.
Defined.
End Examples.
