(* ===== verification/GitPolicy.v ===== *)
(** Policy for the Git repositories the program manages: [git.rs]. The command
    line every Git process starts from, and the grammars of remote names, remote
    locators and refs. *)
From Stdlib Require Import ZArith NArith Lia Ascii.
From stdpp Require Import base decidable list gmap strings sorting.
From S2P Require Import Prelude.
From S2P Require Import Text.

Definition ALLOWED_URL_SCHEMES : list string := ["file"; "http"; "https"; "ssh"].

Definition REMOVED_GIT_ENVIRONMENT : list string := [
  "GIT_ALTERNATE_OBJECT_DIRECTORIES"; "GIT_ASKPASS"; "GIT_CONFIG"; "GIT_CONFIG_COUNT";
  "GIT_CONFIG_GLOBAL"; "GIT_CONFIG_NOSYSTEM"; "GIT_CONFIG_PARAMETERS"; "GIT_CONFIG_SYSTEM";
  "GIT_COMMON_DIR"; "GIT_DIR"; "GIT_EDITOR"; "GIT_EXEC_PATH"; "GIT_EXTERNAL_DIFF";
  "GIT_INDEX_FILE"; "GIT_OBJECT_DIRECTORY"; "GIT_PROXY_COMMAND"; "GIT_SEQUENCE_EDITOR";
  "GIT_SSH"; "GIT_SSH_COMMAND"; "GIT_SSH_VARIANT"; "GIT_TEMPLATE_DIR"; "GIT_WORK_TREE";
  "SSH_ASKPASS"].

Definition SETTINGS : list string := [
  "core.hooksPath=/dev/null"; "core.fsmonitor=false"; "core.sshCommand=ssh";
  "commit.gpgSign=false"; "tag.gpgSign=false"; "protocol.allow=never";
  "protocol.file.allow=always"; "protocol.http.allow=always";
  "protocol.https.allow=always"; "protocol.ssh.allow=always"].

(** [std::process::Command]: the arguments so far, and the changes to the
    inherited environment, where [None] removes a variable. *)
Record Command : Type := {
  program : string;
  args : list string;
  envs : gmap string (option string);
}.

Definition arg (a : string) (c : Command) : Command :=
  {| program := program c; args := args c ++ [a]; envs := envs c |}.
Definition env_remove (k : string) (c : Command) : Command :=
  {| program := program c; args := args c; envs := <[k := None]> (envs c) |}.
Definition env (k v : string) (c : Command) : Command :=
  {| program := program c; args := args c; envs := <[k := Some v]> (envs c) |}.

Definition managed_git_command : Command :=
  let command := arg "--no-pager" {| program := "git"; args := []; envs := ∅ |} in
  let command := foldl (λ c setting, arg setting (arg "-c" c)) command SETTINGS in
  let command := foldl (λ c variable, env_remove variable c) command REMOVED_GIT_ENVIRONMENT in
  env "LC_ALL" "C" command.

(** The environment a process sees when its parent's is [inherited]. *)
Definition environment (c : Command) (inherited : gmap string string) : gmap string string :=
  merge (λ change old, match change with Some v => v | None => old end) (envs c) inherited.

(** One constructor per message; a message that quotes its input keeps it. *)
Inductive GitPolicyError : Type :=
  | InvalidRemoteName (name : string)
  | LocatorShape
  | LocatorSecret
  | RemoteHelper
  | UnsupportedScheme
  | NoLocation
  | QueryOrFragment
  | UserInformation
  | InvalidRef (reference : string).

(** The text of an error; the quoted input is shown without Rust's escapes. *)
Definition quoted (s : string) : string := String "034" s +:+ String "034" "".
Definition message (e : GitPolicyError) : string :=
  match e with
  | InvalidRemoteName name => "invalid Git remote name " +:+ quoted name
  | LocatorShape =>
      "Git remote locator is empty, option-shaped, or contains control characters"
  | LocatorSecret => "Git remote locator must not contain embedded secrets"
  | RemoteHelper => "Git remote helpers are not supported; use file, HTTP(S), or SSH"
  | UnsupportedScheme => "unsupported Git remote URL scheme"
  | NoLocation => "Git remote URL has no location"
  | QueryOrFragment => "HTTP(S) Git remote locators must not contain a query or fragment"
  | UserInformation =>
      "HTTP(S) Git remote locators must not contain user information; use credential configuration"
  | InvalidRef reference => "invalid fully-qualified Git ref " +:+ quoted reference
  end.

Definition is_remote_name_byte (byte : ascii) : bool :=
  is_ascii_alphanumeric byte || bool_decide (byte ∈ ["-"; "_"; "."]%char).

Definition validate_git_remote_name (name : string) : result GitPolicyError () :=
  bail_if (str_is_empty name
           || starts_with "-" name
           || starts_with "." name
           || ends_with "." name
           || contains ".." name
           || negb (all_bytes is_remote_name_byte name))
    (InvalidRemoteName name).

Definition SECRET_MARKERS : list string := ["password="; "token="; "secret="; "access_key="].

(** [split(c).next().unwrap_or(s)] *)
Definition first_component (c : ascii) (s : string) : string := default s (head (split_char c s)).

(** The checks of a locator that has a [scheme://remainder] form. *)
Definition validate_url (scheme remainder : string) : result GitPolicyError () :=
  let scheme := to_ascii_lowercase scheme in
  let is_http := bool_decide (scheme ∈ ["http"; "https"]) in
  _ ← bail_if (negb (bool_decide (scheme ∈ ALLOWED_URL_SCHEMES))) UnsupportedScheme;
  _ ← bail_if (str_is_empty remainder) NoLocation;
  _ ← bail_if (is_http && (contains "?" remainder || contains "#" remainder))
        QueryOrFragment;
  let authority := first_component "/" remainder in
  bail_if (is_http && contains "@" authority) UserInformation.

Definition validate_git_remote_locator (locator : string) : result GitPolicyError () :=
  _ ← bail_if (str_is_empty locator
               || negb (bool_decide (trim locator = locator))
               || starts_with "-" locator
               || any_control locator)
        LocatorShape;
  let lower := to_ascii_lowercase locator in
  _ ← bail_if (existsb (λ marker, contains marker lower) SECRET_MARKERS) LocatorSecret;
  _ ← bail_if (contains "::" locator) RemoteHelper;
  match split_once "://" locator with
  | Some (scheme, remainder) => validate_url scheme remainder
  | None => Ok ()
  end.

(** The bytes of [b" ~^:?*[\\"] and delete. *)
Definition is_forbidden_ref_byte (byte : ascii) : bool :=
  (byte_val byte =? 127)%N
  || bool_decide (byte ∈ [" "; "~"; "^"; ":"; "?"; "*"; "["; "\"]%char).

Definition bad_component (component : string) : bool :=
  str_is_empty component || starts_with "." component || ends_with ".lock" component.

Definition validate_git_ref (reference : string) : result GitPolicyError () :=
  _ ← bail_if (negb (starts_with "refs/" reference)
               || ends_with "/" reference
               || ends_with "." reference
               || contains ".." reference
               || contains "@{" reference
               || any_control reference
               || any_byte is_forbidden_ref_byte reference)
        (InvalidRef reference);
  bail_if (existsb bad_component (split_char "/" reference)) (InvalidRef reference).

(** [v2_store.rs]: the ref that remembers what a remote holds. *)
Definition SYNCED_REF_PREFIX : string := "refs/archive-ledger/synced/".
Definition FETCHED_REF_PREFIX : string := "refs/archive-ledger/fetched/".

(** ** Lemmas *)

#[local] Arguments String.append : simpl nomatch.

Lemma remote_name_Ok n u :
  validate_git_remote_name n = Ok u ↔
  n ≠ "" ∧ starts_with "-" n = false ∧ starts_with "." n = false ∧
  ends_with "." n = false ∧ contains ".." n = false ∧
  ∀ a, a ∈ as_bytes n → is_remote_name_byte a = true.
Proof.
  unfold validate_git_remote_name. rewrite bail_if_Ok, !orb_false_iff, negb_false_iff.
  rewrite str_is_empty_false, all_bytes_true. tauto.
Qed.

Lemma remote_name_byte_plain a :
  is_remote_name_byte a = true →
  byte_in 45 57 a || byte_in 65 90 a || (byte_val a =? 95)%N || byte_in 97 122 a = true ∧
  a ≠ "/"%char.
Proof.
  unfold is_remote_name_byte, is_ascii_alphanumeric, is_ascii_digit, is_ascii_upper,
    is_ascii_lower. intros Ha.
  destruct a as [[] [] [] [] [] [] [] []]; vm_compute in Ha; try discriminate Ha;
    (split; [reflexivity | discriminate]).
Qed.

Lemma remote_name_byte_allowed a :
  is_remote_name_byte a = true → is_forbidden_ref_byte a = false.
Proof.
  intros Ha.
  destruct a as [[] [] [] [] [] [] [] []]; vm_compute in Ha; try discriminate Ha; reflexivity.
Qed.

Lemma remote_name_no_control b :
  (∀ a, a ∈ b → is_remote_name_byte a = true) → any_control_bytes b = false.
Proof.
  induction b as [|a b IH]; intros Hb; [done |]. cbn [any_control_bytes].
  rewrite IH, orb_false_r by (intros; apply Hb; by right).
  destruct (remote_name_byte_plain a) as [Ha _]; [apply Hb; by left |].
  rewrite !orb_true_iff, !byte_in_true, N.eqb_eq in Ha.
  rewrite !orb_false_iff, !andb_false_iff, N.ltb_ge, !N.eqb_neq. lia.
Qed.

Lemma split_char_single c w : c ∉ as_bytes w → split_char c w = [w].
Proof.
  induction w as [|a w IH]; cbn; [done |]. rewrite not_elem_of_cons. intros [Hne Hw].
  destruct (Ascii.eqb_spec a c) as [-> | _]; [done |]. by rewrite IH.
Qed.

Lemma ends_with_byte a s : ends_with (String a "") s = true ↔ last (as_bytes s) = Some a.
Proof.
  rewrite ends_with_true. split.
  - intros [t ->]. rewrite as_bytes_app. apply last_snoc.
  - intros (b & Hb)%last_Some. exists (of_bytes b). apply (inj as_bytes).
    by rewrite as_bytes_app, as_of_bytes, Hb.
Qed.

Lemma ends_with_byte_app a s n :
  n ≠ "" → ends_with (String a "") (s +:+ n) = ends_with (String a "") n.
Proof.
  intros Hn. apply eq_true_iff_eq. rewrite !ends_with_byte, as_bytes_app, last_app.
  by destruct (last (as_bytes n)) eqn:Hl; [|destruct n; [|apply last_None in Hl]].
Qed.

Lemma contains_first_byte p c s : contains (String c p) s = true → c ∈ as_bytes s.
Proof.
  intros (l & r & ->)%contains_true. rewrite !as_bytes_app. cbn. set_solver.
Qed.

Lemma split_char_app c s1 s2 :
  c ∉ as_bytes s1 → split_char c (s1 +:+ String c s2) = s1 :: split_char c s2.
Proof.
  induction s1 as [|a s1 IH]; cbn.
  - by destruct (Ascii.eqb_spec c c).
  - rewrite not_elem_of_cons. intros [Hne Hs].
    destruct (Ascii.eqb_spec a c) as [-> | _]; [done |].
    specialize (IH Hs). cbn in IH. by rewrite IH.
Qed.

Lemma split_synced_ref kind n :
  "/"%char ∉ as_bytes kind → "/"%char ∉ as_bytes n →
  split_char "/" ("refs/archive-ledger/" +:+ kind +:+ "/" +:+ n)
  = ["refs"; "archive-ledger"; kind; n].
Proof.
  intros Hkind Hn.
  change ("refs/archive-ledger/" +:+ kind +:+ "/" +:+ n)
    with ("refs" +:+ String "/" ("archive-ledger" +:+ String "/" (kind +:+ String "/" n))).
  rewrite !split_char_app, split_char_single; try done;
    apply (bool_decide_unpack _); vm_compute; exact I.
Qed.

Lemma contains_byte_false c s : contains (String c "") s = false ↔ c ∉ as_bytes s.
Proof.
  rewrite <- not_true_iff_false. split; [|intros Hc ?%contains_first_byte; by apply Hc].
  intros Hc Hin. apply Hc. apply contains_true.
  apply list_elem_of_split in Hin as (l & r & Heq). exists (of_bytes l), (of_bytes r).
  apply (inj as_bytes). by rewrite !as_bytes_app, !as_of_bytes, Heq.
Qed.

(** An accepted remote name is a single path component that Git accepts: the
    refs the program keeps for a remote are valid, unless the name ends in
    [.lock]. *)
Theorem remote_ref_valid n prefix :
  prefix ∈ [SYNCED_REF_PREFIX; FETCHED_REF_PREFIX] →
  validate_git_remote_name n = Ok () →
  validate_git_ref (prefix +:+ n) = Ok () ↔ ends_with ".lock" n = false.
Proof.
  intros Hp (Hne & _ & Hdot & Hend & Hdots & Hbytes)%remote_name_Ok.
  assert ("/"%char ∉ as_bytes n) as Hslash
    by (intros Hin%Hbytes%remote_name_byte_plain; by destruct Hin).
  assert ("@"%char ∉ as_bytes n) as Hat by (intros Hin%Hbytes; discriminate Hin).
  assert (contains "@{" n = false) as Hcat
    by (apply not_true_iff_false; by intros ?%contains_first_byte).
  assert (any_control_bytes (as_bytes n) = false) as Hctl by (by apply remote_name_no_control).
  assert (any_byte is_forbidden_ref_byte n = false) as Hforb
    by (apply any_byte_false; intros; apply remote_name_byte_allowed; auto).
  assert (ends_with "/" n = false) as Hs.
  { apply not_true_iff_false. by intros Hl%ends_with_byte%last_Some_elem_of. }
  assert (str_is_empty n = false) as Hempty by (by apply str_is_empty_false).
  unfold validate_git_ref. rewrite !ends_with_byte_app, Hs, Hend by done.
  rewrite !elem_of_cons, elem_of_nil in Hp.
  assert (∃ kind, starts_with "refs/" (prefix +:+ n) = true ∧
    contains ".." (prefix +:+ n) = contains ".." n ∧
    contains "@{" (prefix +:+ n) = contains "@{" n ∧
    any_control (prefix +:+ n) = any_control_bytes (as_bytes n) ∧
    any_byte is_forbidden_ref_byte (prefix +:+ n) = any_byte is_forbidden_ref_byte n ∧
    bad_component kind = false ∧
    split_char "/" (prefix +:+ n) = ["refs"; "archive-ledger"; kind; n])
    as (kind & -> & -> & -> & -> & -> & Hkind & ->).
  { destruct Hp as [-> | [-> | []]];
      [pose proof (split_synced_ref "synced" n) as Hsplit; exists "synced"
      | pose proof (split_synced_ref "fetched" n) as Hsplit; exists "fetched"];
      split_and!; try reflexivity; apply Hsplit; try done;
      apply (bool_decide_unpack _); vm_compute; exact I. }
  rewrite Hdots, Hcat, Hctl, Hforb. cbn [negb orb bail_if mbind result_bind existsb].
  rewrite bail_if_Ok, !orb_false_iff, Hkind. unfold bad_component at 3.
  rewrite Hempty, Hdot. cbn. tauto.
Qed.

(** An accepted locator is not empty and cannot be read as an option, has no
    control character and no secret marker in either case, names no remote
    helper, and, when it is a URL, uses one of the four allowed schemes; over
    HTTP(S) it has no query, fragment or user information. *)
Theorem remote_locator_safe l :
  validate_git_remote_locator l = Ok () →
  l ≠ "" ∧ starts_with "-" l = false ∧ any_control l = false ∧ contains "::" l = false ∧
  (∀ marker, marker ∈ SECRET_MARKERS → contains marker (to_ascii_lowercase l) = false) ∧
  ∀ scheme rest, split_once "://" l = Some (scheme, rest) →
    l = scheme +:+ "://" +:+ rest ∧ rest ≠ "" ∧
    to_ascii_lowercase scheme ∈ ALLOWED_URL_SCHEMES ∧
    (to_ascii_lowercase scheme ∈ ["http"; "https"] →
      ("?"%char ∉ as_bytes rest) ∧ ("#"%char ∉ as_bytes rest) ∧
      ∃ authority path, split_char "/" rest = authority :: path ∧
        "@"%char ∉ as_bytes authority).
Proof.
  unfold validate_git_remote_locator. intros Hrun. inv_ok. boolify.
  rewrite str_is_empty_false in *. split_and!; [done.. | |].
  - intros marker Hm. apply not_true_iff_false. intros Hc.
    match goal with H : existsb _ _ = false |- _ => apply not_true_iff_false in H; apply H end.
    apply existsb_exists. exists marker. by rewrite <- list_elem_of_In.
  - intros scheme rest Hsplit. rewrite Hsplit in *. unfold validate_url in *. inv_ok. boolify.
    rewrite str_is_empty_false in *. split_and!; [by apply split_once_Some | done.. |].
    intros Hhttp. rewrite (bool_decide_eq_true_2 _ Hhttp) in *. cbn [andb] in *. boolify.
    rewrite !contains_byte_false in *. split_and!; [done.. |].
    pose proof (split_char_not_nil "/" rest) as Hne. unfold first_component in *.
    destruct (split_char "/" rest) as [|authority path]; [done |]. by exists authority, path.
Qed.

(** ** Examples *)

Module Examples.
Example urls :
  validate_git_remote_locator "ssh://git@example.test/archive.git" = Ok () ∧
  validate_git_remote_locator "git@example.test:archives/main.git" = Ok () ∧
  validate_git_remote_locator "https://credential@example.test/archive.git" = Err UserInformation ∧
  validate_git_remote_locator "ext::command" = Err RemoteHelper.
Proof. vm_compute. auto. Qed.

(** A name the program accepts although Git rejects the refs kept for it. *)
Example lock_remote_name :
  validate_git_remote_name "origin.lock" = Ok () ∧
  is_ok (validate_git_ref (SYNCED_REF_PREFIX +:+ "origin.lock")) = false.
Proof. vm_compute. auto. Qed.

Lemma remote_ref_valid_witness :
  validate_git_ref "refs/archive-ledger/synced/backup-2" = Ok ().
Proof.
  apply (remote_ref_valid "backup-2" SYNCED_REF_PREFIX); [by left | reflexivity | reflexivity].
Defined.

Lemma remote_locator_safe_witness : contains "::" "https://example.test/archive.git" = false.
Proof.
  destruct (remote_locator_safe "https://example.test/archive.git") as (_ & _ & _ & H & _).
  - vm_compute. reflexivity.
  - exact H.
Defined.
End Examples.
