(* ===== verification/Store.v ===== *)
(** Ground layer of the version 2 store: the shared helpers of [v2_store.rs]. Its
    error type, the canonical tree it reads, strict JSON documents, and the format
    checks of identifiers. *)
From Stdlib Require Import ZArith NArith Lia Ascii.
From stdpp Require Import base decidable list gmap strings sorting.
From S2P Require Import Prelude.
From S2P Require Import Text.
From S2P Require Import External.
From S2P Require Import Ids.
From S2P Require Import Frontier.
From S2P Require Import Batch.
From S2P Require Import Record.
From S2P Require Import Genesis.

Inductive V2StoreError : Type :=
  | PublicationRecoveryRefused (message : string)
  | AppendRecoveryRefused (message : string)
  | Invalid (message : string)
  | Io (operation path source : string)
  | Json (path source : string)
  | GenesisErr (error : Genesis.GenesisError)
  | FrontierErr (error : Frontier.FrontierError)
  | RecordErr (error : Record.V2RecordError)
  | BatchErr (error : Batch.BatchValidationError)
  | Git (operation path : string)
  | CursorNotFound (cursor : string)
  | CursorNotReachable (cursor current : string)
  | CursorArchiveMismatch (cursor : string).

(** [V2StoreError::code] *)
Definition code (self : V2StoreError) : string :=
  match self with
  | PublicationRecoveryRefused _ => "v2_publication_recovery_refused"
  | AppendRecoveryRefused _ => "v2_append_recovery_refused"
  | Io _ _ _ => "v2_store_io"
  | Json _ _ => "v2_store_json_invalid"
  | Git _ _ => "v2_store_git"
  | CursorNotFound _ => "cursor_not_found"
  | CursorNotReachable _ _ => "cursor_not_reachable"
  | CursorArchiveMismatch _ => "cursor_archive_mismatch"
  | Invalid _ | GenesisErr _ | FrontierErr _ | RecordErr _ | BatchErr _ =>
      "v2_event_tree_invalid"
  end.

(** The directory tree below the store's root while it is being read: what
    [fs::read] and [fs::read_dir] answer for a path relative to the root, the
    latter with the names that are UTF-8. *)
Record Tree : Type := {
  tree_read : string → result string bytes;
  tree_list : string → result string (list string);
}.

Definition read_file (root : Tree) (path : string) : result V2StoreError bytes :=
  map_err (Io "read canonical file" path) (tree_read root path).

Definition parse_json `{FromJson T} (path : string) (b : bytes) : result V2StoreError T :=
  map_err (Json path) (from_json b).

Definition canonical_json `{ToJson T} (value : T) : result V2StoreError bytes :=
  map_err (λ error, Invalid ("deterministic JSON serialization failed: " +:+ error))
    (to_json value).

Definition validate_blake3_id (field value : string) : result V2StoreError () :=
  if is_blake3_identifier value then Ok ()
  else Err (Invalid (field +:+ " is not a lowercase BLAKE3 identifier")).

Definition validate_origin_id (value : string) : result V2StoreError () :=
  if is_origin_id value then Ok ()
  else Err (Invalid "client origin ID is not lowercase origin_<blake3-hex>").

Definition string_field (object : list (string * Value)) (field : string)
    : result V2StoreError string :=
  ok_or (assoc field object ≫= as_str)
    (Invalid ("batch payload field " +:+ field +:+ " is missing or invalid")).

Definition u64_field (object : list (string * Value)) (field : string)
    : result V2StoreError N :=
  ok_or (assoc field object ≫= as_u64)
    (Invalid ("batch payload field " +:+ field +:+ " is missing or invalid")).

(** [json!] of an object: [serde_json]'s map keeps its members sorted by key. *)
Definition json_object (members : list (string * Value)) : Value :=
  Obj (merge_sort (λ x y, String.le x.1 y.1) members).

(** The keys of a [BTreeMap] or the members of a [BTreeSet], in order. *)
Definition btree_set (l : list string) : list string := merge_sort String.le (remove_dups l).
Definition btree_keys {A} (m : gmap string A) : list string :=
  merge_sort String.le ((map_to_list m).*1).

(** Names of one directory sort like their paths. *)
Definition read_sorted_files (root : Tree) (directory suffix : string)
    : result V2StoreError (list string) :=
  names ← map_err (Io "read origin manifest directory" directory) (tree_list root directory);
  let names := filter (λ name, ends_with suffix name = true) names in
  let paths := (λ name, directory +:+ "/" +:+ name) <$> merge_sort String.le names in
  _ ← bail_if (negb (bool_decide (NoDup paths))) (Invalid "duplicate origin manifest path");
  Ok paths.

Definition frontier_path (hash : string) : result V2StoreError string :=
  hex ← ok_or (strip_prefix "blake3:" hash) (Invalid "frontier hash has the wrong algorithm");
  _ ← validate_blake3_id "frontier hash" hash;
  Ok ("frontiers/v2/frontier-" +:+ hex +:+ ".json").

(** ** Lemmas *)

Lemma read_file_Ok root path b : read_file root path = Ok b ↔ tree_read root path = Ok b.
Proof. apply map_err_Ok. Qed.

Lemma parse_json_Ok `{FromJson T} path b (x : T) : parse_json path b = Ok x ↔ from_json b = Ok x.
Proof. apply map_err_Ok. Qed.

Lemma canonical_json_Ok `{ToJson T} (x : T) b : canonical_json x = Ok b ↔ to_json x = Ok b.
Proof. apply map_err_Ok. Qed.

Lemma validate_blake3_id_Ok field value u :
  validate_blake3_id field value = Ok u ↔ is_blake3_identifier value = true.
Proof. unfold validate_blake3_id. destruct u. case_match; naive_solver. Qed.

Lemma validate_origin_id_Ok value u :
  validate_origin_id value = Ok u ↔ is_origin_id value = true.
Proof. unfold validate_origin_id. destruct u. case_match; naive_solver. Qed.

#[export] Hint Rewrite @read_file_Ok @parse_json_Ok @canonical_json_Ok validate_blake3_id_Ok
  validate_origin_id_Ok : result.

Lemma frontier_path_Ok hash path :
  frontier_path hash = Ok path ↔ ∃ hex, hash = "blake3:" +:+ hex ∧
    is_blake3_identifier hash = true ∧ path = "frontiers/v2/frontier-" +:+ hex +:+ ".json".
Proof.
  unfold frontier_path. split.
  - intros Hrun. inv_ok. autorewrite with result in *.
    match goal with H : strip_prefix _ _ = Some _ |- _ => apply strip_prefix_Some in H end.
    eauto.
  - intros (hex & -> & Hhash & ->). rewrite strip_prefix_app. cbn [ok_or mbind result_bind].
    run_ok. done.
Qed.

Lemma elem_of_btree_set l x : x ∈ btree_set l ↔ x ∈ l.
Proof. unfold btree_set. by rewrite merge_sort_Permutation, elem_of_remove_dups. Qed.

Lemma elem_of_btree_keys {A} (m : gmap string A) k : k ∈ btree_keys m ↔ is_Some (m !! k).
Proof.
  unfold btree_keys. rewrite merge_sort_Permutation, list_elem_of_fmap. split.
  - intros ([k' a] & -> & Ha%elem_of_map_to_list). by exists a.
  - intros [a Ha]. exists (k, a). split; [done |]. by apply elem_of_map_to_list.
Qed.

Lemma NoDup_btree_keys {A} (m : gmap string A) : NoDup (btree_keys m).
Proof. unfold btree_keys. rewrite merge_sort_Permutation. apply NoDup_fst_map_to_list. Qed.

(** A sorted list without duplicates is strictly sorted. *)
Lemma merge_sort_strict (l : list string) : NoDup l → key_sorted id (merge_sort String.le l).
Proof.
  intros Hnd. rewrite <- (merge_sort_Permutation String.le l) in Hnd.
  pose proof (StronglySorted_merge_sort String.le l) as Hs. unfold key_sorted.
  induction Hs as [|s l' Hs IH Hall]; constructor.
  - apply IH. by apply NoDup_cons in Hnd as [_ ?].
  - apply NoDup_cons in Hnd as [Hn _]. rewrite Forall_forall in Hall |- *. intros t Ht.
    apply (proj2 (str_lt_le s t)). split; [by apply Hall |]. intros ->. by apply Hn.
Qed.

Lemma key_sorted_fmap {A} (key : A → string) (l : list A) :
  key_sorted id (key <$> l) ↔ key_sorted key l.
Proof.
  unfold key_sorted. induction l as [|x l IH]; cbn; [split; constructor |].
  split; intros [Hs Hall]%StronglySorted_inv; (constructor; [by apply IH |]).
  - exact (proj1 (Forall_fmap key _ l) Hall).
  - exact (proj2 (Forall_fmap key _ l) Hall).
Qed.

Lemma assoc_Some_elem {A} k (l : list (string * A)) a : assoc k l = Some a → (k, a) ∈ l.
Proof.
  induction l as [|[k' a'] l IH]; cbn; [done |]. case_decide as Hk; [|right; auto].
  intros [= ->]. subst. left.
Qed.

Lemma assoc_NoDup {A} k (l : list (string * A)) a :
  NoDup l.*1 → (k, a) ∈ l → assoc k l = Some a.
Proof.
  induction l as [|[k' a'] l IH]; cbn; [by intros _ ?%elem_of_nil |].
  intros [Hn Hnd]%NoDup_cons [[= -> ->] | Hin]%elem_of_cons; [by rewrite decide_True |].
  rewrite decide_False; [auto |]. intros ->. apply Hn, list_elem_of_fmap. by exists (k', a).
Qed.

Lemma assoc_Permutation {A} k (l l' : list (string * A)) :
  NoDup l.*1 → l ≡ₚ l' → assoc k l = assoc k l'.
Proof.
  intros Hnd Hp. assert (NoDup l'.*1) as Hnd' by by rewrite <- Hp.
  destruct (assoc k l') as [a|] eqn:Ha.
  - apply assoc_Some_elem in Ha. apply assoc_NoDup; [done |]. by rewrite Hp.
  - destruct (assoc k l) as [a|] eqn:Ha'; [|done]. apply assoc_Some_elem in Ha'.
    rewrite Hp in Ha'. apply assoc_NoDup in Ha'; [congruence | done].
Qed.

(** Looking up a member of an object ignores the order it was written in. *)
Lemma value_get_json_object k members :
  NoDup members.*1 → value_get k (json_object members) = assoc k members.
Proof.
  intros Hnd. cbn. symmetry. apply assoc_Permutation; [done |].
  by rewrite merge_sort_Permutation.
Qed.

(** A tree given by its files; a directory lists the names directly below it. *)
Definition tree_of (files : gmap string bytes) (dirs : gmap string (list string)) : Tree := {|
  tree_read path := ok_or (files !! path) "No such file or directory";
  tree_list path := ok_or (dirs !! path) "No such file or directory";
|}.
