(* ===== verification/Segment.v ===== *)
(** Signed segments of an origin: the segment part of [v2_store.rs]. An origin is
    a chain of segment files, each with a manifest signed by the origin's client;
    verification walks the chain up to the accepted tail. *)
From Stdlib Require Import ZArith NArith Lia Ascii.
From stdpp Require Import base decidable list gmap strings sorting.
From S2P Require Import Prelude.
From S2P Require Import Text.
From S2P Require Import External.
From S2P Require Import Ids.
From S2P Require Import Frontier.
From S2P Require Import Record.
From S2P Require Import Genesis.
From S2P Require Import Store.

Definition MANIFEST_VERSION : N := 2.

Record SegmentManifestBody : Type := {
  manifest_v : N;
  manifest_archive_id : string;
  manifest_genesis_hash : string;
  manifest_origin_id : string;
  segment_path : string;
  first_seq : N;
  last_seq : N;
  first_record_id : string;
  last_record_id : string;
  first_record_hash : string;
  last_record_hash : string;
  record_count : N;
  segment_bytes : N;
  segment_blake3 : string;
  causal_base_frontier_hash : string;
  previous_segment_manifest_hash : option string;
}.

Record SignedSegmentManifest : Type := {
  manifest_body : SegmentManifestBody;
  manifest_signature : string;
}.

Record VerifiedV2Record : Type := {
  record : V2Record;
  exact_line_bytes : bytes;
  record_manifest_hash : string;
  causal_frontier_hash : string;
}.

Definition validate_manifest_body (body : SegmentManifestBody) : result V2StoreError () :=
  _ ← bail_if (negb (manifest_v body =? MANIFEST_VERSION)%N
               || str_is_empty (manifest_archive_id body)
               || str_is_empty (manifest_origin_id body)
               || (first_seq body =? 0)%N
               || (last_seq body <? first_seq body)%N
               || negb (record_count body
                        =? wrapping_add_u64 (last_seq body - first_seq body) 1)%N
               || (segment_bytes body =? 0)%N)
        (Invalid "segment manifest has invalid structural fields");
  _ ← for_each (λ fv, validate_blake3_id fv.1 fv.2) [
    ("genesis_hash", manifest_genesis_hash body);
    ("first_record_hash", first_record_hash body);
    ("last_record_hash", last_record_hash body);
    ("segment_blake3", segment_blake3 body);
    ("causal_base_frontier_hash", causal_base_frontier_hash body)];
  match previous_segment_manifest_hash body with
  | Some previous => validate_blake3_id "previous_segment_manifest_hash" previous
  | None => Ok ()
  end.

Section segment.
Context `{Blake3, UlidCrate, Base64, Ed25519, FromJson V2RecordEnvelope,
  ToJson SegmentManifestBody, ToJson SignedSegmentManifest,
  FromJson SignedSegmentManifest}.

(** [SignedSegmentManifest::create] *)
Definition create_manifest (body : SegmentManifestBody) (key : SigningKey)
    : result V2StoreError SignedSegmentManifest :=
  _ ← validate_manifest_body body;
  message ← canonical_json body;
  Ok {| manifest_body := body; manifest_signature := base64_encode (sign key message) |}.

(** [SignedSegmentManifest::verify] *)
Definition verify_manifest (self : SignedSegmentManifest) (key : VerifyingKey)
    : result V2StoreError () :=
  _ ← validate_manifest_body (manifest_body self);
  signature ← ok_or (base64_decode (manifest_signature self))
                (Invalid "segment manifest signature is not base64");
  _ ← bail_if (negb (signature_from_slice signature))
        (Invalid "segment manifest signature has the wrong length");
  message ← canonical_json (manifest_body self);
  bail_if (negb (verify_strict key message signature))
    (Invalid "segment manifest signature is invalid").

Definition manifest_hash (self : SignedSegmentManifest) : result V2StoreError string :=
  b ← canonical_json self;
  Ok (blake3_identifier b).

(** The locals of [verify_origin]'s loops. *)
Record Walk : Type := {
  expected_seq : N;
  previous_record : option string;
  previous_manifest : option string;
  verified_segments : N;
  output : list VerifiedV2Record;
}.

Definition walk_start : Walk := {|
  expected_seq := 1; previous_record := None; previous_manifest := None;
  verified_segments := 0; output := []
|}.

(** The lines of a segment's bytes, less the final newline. *)
Definition segment_lines (b : bytes) : list bytes :=
  as_bytes <$> split_char "010" (of_bytes (take (length b - 1) b)).

(** The body of the loop over the lines of one segment; the locals are
    [expected_seq], [previous_record_hash] and [segment_records]. *)
Definition read_line (origin : string) (manifest_hash frontier_hash path : string)
    (locals : N * option string * list VerifiedV2Record) (line : bytes)
    : result V2StoreError (N * option string * list VerifiedV2Record) :=
  let '(seq, previous, records) := locals in
  _ ← bail_if (bool_decide (line = [])) (Invalid ("segment contains an empty line at " +:+ path));
  r ← map_err RecordErr (parse_v2_record line origin seq previous DEFAULT_MAX_V2_RECORD_BYTES);
  seq ← ok_or (checked_add_u64 seq 1) (Invalid "origin sequence overflow");
  Ok (seq, Some (record_hash r), records ++ [{|
    record := r; exact_line_bytes := line; record_manifest_hash := manifest_hash;
    causal_frontier_hash := frontier_hash |}]).

(** [!segment_bytes.ends_with(b"\n")] *)
Definition ends_with_newline (b : bytes) : bool := bool_decide (last b = Some "010"%char).

(** The body of the loop over the manifests: the locals after it, and whether it
    reached the accepted tail, where the code breaks out of the loop. *)
Definition verify_segment (root : Tree) (genesis : SignedGenesis) (genesis_hash : string)
    (key : VerifyingKey) (tail : OriginFrontier) (w : Walk) (path : string)
    : result V2StoreError (Walk * bool) :=
  b ← read_file root path;
  manifest ← parse_json path b;
  canonical ← canonical_json manifest;
  _ ← bail_if (negb (bool_decide (canonical = b)))
        (Invalid (path +:+ " does not use deterministic bytes"));
  _ ← verify_manifest manifest key;
  let body := manifest_body manifest in
  _ ← bail_if (negb (bool_decide (manifest_archive_id body = archive_id (Genesis.body genesis)))
               || negb (bool_decide (manifest_genesis_hash body = genesis_hash))
               || negb (bool_decide (manifest_origin_id body = Frontier.origin_id tail))
               || negb (first_seq body =? expected_seq w)%N
               || negb (bool_decide (previous_segment_manifest_hash body = previous_manifest w)))
        (Invalid ("segment manifest chain is inconsistent at " +:+ path));
  hash ← manifest_hash manifest;
  content ← read_file root (segment_path body);
  _ ← bail_if (negb (bool_decide (blake3_identifier content = segment_blake3 body))
               || negb (N.of_nat (length content) =? segment_bytes body)%N
               || negb (ends_with_newline content))
        (Invalid ("segment bytes do not match manifest at " +:+ segment_path body));
  read ← fold_result
    (read_line (Frontier.origin_id tail) hash (causal_base_frontier_hash body)
       (segment_path body))
    (expected_seq w, previous_record w, []) (segment_lines content);
  let '(seq, previous, records) := read in
  first ← ok_or (head records) (Invalid "signed segment is empty");
  last ← ok_or (last records) (Invalid "signed segment is empty");
  _ ← bail_if (negb (last_seq body =? origin_seq (envelope (record last)))%N
               || negb (bool_decide (first_record_id body = record_id (envelope (record first))))
               || negb (bool_decide (last_record_id body = record_id (envelope (record last))))
               || negb (bool_decide (first_record_hash body = record_hash (record first)))
               || negb (bool_decide (last_record_hash body = record_hash (record last)))
               || negb (N.of_nat (length records) =? record_count body)%N)
        (Invalid ("record range does not match manifest at " +:+ path));
  let w := {| expected_seq := seq; previous_record := previous;
              previous_manifest := Some hash;
              verified_segments := verified_segments w + 1;
              output := output w ++ records |} in
  if decide (hash = segment_manifest_hash tail) then
    _ ← bail_if (negb (last_seq body =? Frontier.seq tail)%N
                 || negb (bool_decide (last_record_hash body = event_hash tail)))
          (Invalid ("accepted frontier tail does not match origin "
                    +:+ Frontier.origin_id tail));
    Ok (w, true)
  else Ok (w, false).

(** The loop over the manifests, up to its [break]. *)
Fixpoint verify_segments (root : Tree) (genesis : SignedGenesis) (genesis_hash : string)
    (key : VerifyingKey) (tail : OriginFrontier) (w : Walk) (entries : list string)
    : result V2StoreError (Walk * bool) :=
  match entries with
  | [] => Ok (w, false)
  | path :: entries =>
      wf ← verify_segment root genesis genesis_hash key tail w path;
      let '(w, accepted_found) := wf in
      if accepted_found : bool then Ok (w, true)
      else verify_segments root genesis genesis_hash key tail w entries
  end.

Definition verify_origin (root : Tree) (genesis : SignedGenesis) (genesis_hash : string)
    (key : VerifyingKey) (tail : OriginFrontier)
    : result V2StoreError (list VerifiedV2Record * N) :=
  let directory := "manifests/v2/origins/" +:+ Frontier.origin_id tail in
  entries ← read_sorted_files root directory ".manifest.json";
  _ ← bail_if (bool_decide (entries = []))
        (Invalid ("origin " +:+ Frontier.origin_id tail +:+ " has no signed segments"));
  wf ← verify_segments root genesis genesis_hash key tail walk_start entries;
  let '(w, accepted_found) := wf in
  _ ← bail_if (negb accepted_found)
        (Invalid ("accepted segment manifest is missing for origin "
                  +:+ Frontier.origin_id tail));
  _ ← bail_if
        (negb (bool_decide ((λ item, origin_seq (envelope (record item))) <$> last (output w)
                            = Some (Frontier.seq tail))))
        (Invalid ("origin " +:+ Frontier.origin_id tail
                  +:+ " did not verify through its frontier"));
  Ok (output w, verified_segments w).

(** ** Specification *)

Definition last_hash (previous : option string) (rs : list VerifiedV2Record) : option string :=
  match last rs with Some r => Some (record_hash (record r)) | None => previous end.

(** The records continue an origin's chain from [seq], the first naming
    [previous]: every record sits at its own position and names the hash of the
    exact line before it. *)
Fixpoint linked (origin : string) (seq : N) (previous : option string)
    (rs : list VerifiedV2Record) : Prop :=
  match rs with
  | [] => True
  | r :: rs =>
      record_at (exact_line_bytes r) origin seq previous DEFAULT_MAX_V2_RECORD_BYTES
        (envelope (record r)) ∧
      record_hash (record r) = blake3_identifier (exact_line_bytes r) ∧
      linked origin (seq + 1) (Some (record_hash (record r))) rs
  end.

(** A well-formed manifest whose signature [key] made of its canonical bytes. *)
Definition manifest_signed (m : SignedSegmentManifest) (key : VerifyingKey) : Prop :=
  validate_manifest_body (manifest_body m) = Ok () ∧
  ∃ signature message, base64_decode (manifest_signature m) = Some signature ∧
    signature_from_slice signature = true ∧ to_json (manifest_body m) = Ok message ∧
    verify_strict key message signature = true.

Lemma verify_manifest_Ok m key : verify_manifest m key = Ok () → manifest_signed m key.
Proof.
  unfold verify_manifest, canonical_json. intros Hrun. inv_ok. boolify. unfold manifest_signed. eauto 10.
Qed.

(** A record covered by a manifest of the archive that [key] signed. *)
Definition signed (genesis : SignedGenesis) (genesis_hash : string) (key : VerifyingKey)
    (origin : string) (r : VerifiedV2Record) : Prop :=
  ∃ m, manifest_signed m key ∧ manifest_hash m = Ok (record_manifest_hash r) ∧
    manifest_archive_id (manifest_body m) = archive_id (Genesis.body genesis) ∧
    manifest_genesis_hash (manifest_body m) = genesis_hash ∧
    manifest_origin_id (manifest_body m) = origin ∧
    causal_base_frontier_hash (manifest_body m) = causal_frontier_hash r ∧
    (first_seq (manifest_body m) <= origin_seq (envelope (record r))
     <= last_seq (manifest_body m))%N.

(** ** The chain of records *)

Lemma last_hash_app previous rs1 rs2 :
  last_hash previous (rs1 ++ rs2) = last_hash (last_hash previous rs1) rs2.
Proof.
  unfold last_hash. rewrite last_app. by destruct (last rs2).
Qed.

Lemma linked_app origin seq previous rs1 rs2 :
  linked origin seq previous (rs1 ++ rs2) ↔
  linked origin seq previous rs1 ∧
  linked origin (seq + N.of_nat (length rs1)) (last_hash previous rs1) rs2.
Proof.
  revert seq previous. induction rs1 as [|r rs1 IH]; intros seq previous.
  - cbn. rewrite N.add_0_r. tauto.
  - cbn [linked length app]. rewrite IH.
    replace (seq + N.of_nat (S (length rs1)))%N with (seq + 1 + N.of_nat (length rs1))%N by lia.
    replace (last_hash previous (r :: rs1))
      with (last_hash (Some (record_hash (record r))) rs1); [tauto |].
    unfold last_hash. rewrite last_cons. by destruct (last rs1).
Qed.

Lemma linked_seq origin seq previous rs i r :
  linked origin seq previous rs → rs !! i = Some r →
  origin_seq (envelope (record r)) = (seq + N.of_nat i)%N.
Proof.
  revert seq previous i. induction rs as [|r' rs IH]; intros seq previous i Hl Hi; [done |].
  destruct Hl as (Hat & _ & Hl). destruct i as [|i]; cbn in Hi.
  - injection Hi as ->. destruct (at_seq _ _ _ _ _ _ Hat) as [-> _]. lia.
  - rewrite (IH _ _ _ Hl Hi). lia.
Qed.

Lemma linked_last_seq origin seq previous rs r :
  linked origin seq previous rs → last rs = Some r →
  (origin_seq (envelope (record r)) + 1 = seq + N.of_nat (length rs))%N.
Proof.
  rewrite last_lookup. intros Hl Hr.
  rewrite (linked_seq _ _ _ _ _ _ Hl Hr). destruct rs; [done | cbn [length pred]; lia].
Qed.
(** ** Reading a segment *)

Lemma read_line_Ok origin mh fh path seq previous rs line seq' previous' rs' :
  read_line origin mh fh path (seq, previous, rs) line = Ok (seq', previous', rs') ↔
  ∃ r, rs' = rs ++ [r] ∧ linked origin seq previous [r] ∧ line ≠ [] ∧
    exact_line_bytes r = line ∧ record_manifest_hash r = mh ∧ causal_frontier_hash r = fh ∧
    seq' = (seq + 1)%N ∧ (seq + 1 <= u64_max)%N ∧ previous' = Some (record_hash (record r)).
Proof.
  unfold read_line. split.
  - intros Hrun. inv_ok. boolify.
    match goal with H : parse_v2_record _ _ _ _ _ = Ok _ |- _ =>
      apply parse_v2_record_spec in H as [Hat Hh] end.
    match goal with H : checked_add_u64 _ _ = _ |- _ => apply checked_add_u64_Some in H as [-> ?] end.
    simplify_eq. eexists. split; [done |]. cbn. by split_and!.
  - intros (r & -> & (Hat & Hh & _) & Hline & <- & <- & <- & -> & Hmax & ->).
    rewrite bool_decide_eq_false_2 by done. cbn [bail_if mbind result_bind].
    rewrite (proj2 (parse_v2_record_spec _ _ _ _ _ (record r))) by done.
    cbn [map_err mbind result_bind].
    rewrite (proj2 (checked_add_u64_Some _ _ _) (conj eq_refl Hmax)). by destruct r.
Qed.

Lemma read_lines_Ok origin mh fh path lines seq previous rs seq' previous' rs' :
  fold_result (read_line origin mh fh path) (seq, previous, rs) lines
    = Ok (seq', previous', rs') →
  ∃ new, rs' = rs ++ new ∧ linked origin seq previous new ∧
    exact_line_bytes <$> new = lines ∧
    Forall (λ r, record_manifest_hash r = mh ∧ causal_frontier_hash r = fh) new ∧
    seq' = (seq + N.of_nat (length new))%N ∧ previous' = last_hash previous new.
Proof.
  revert seq previous rs. induction lines as [|line lines IH]; cbn; intros seq previous rs Hrun.
  - simplify_eq. exists []. cbn. rewrite app_nil_r, N.add_0_r. by split_and!.
  - apply bind_Ok in Hrun as ([[seq1 previous1] rs1] & Hline & Hrun).
    apply read_line_Ok in Hline as (r & -> & Hr & _ & <- & <- & <- & -> & _ & ->).
    apply IH in Hrun as (new & -> & Hnew & <- & Hall & -> & ->).
    exists (r :: new). rewrite <- app_assoc. split_and!; [done | | done | by constructor | |].
    + destruct Hr as (? & ? & _). done.
    + cbn [length]. lia.
    + change (r :: new) with ([r] ++ new). by rewrite last_hash_app.
Qed.
(** ** Walking an origin *)

Section walk.
Context (root : Tree) (genesis : SignedGenesis) (genesis_hash : string).
Context (key : VerifyingKey) (tail : OriginFrontier).

(** What holds of the locals between two segments. *)
Record walk_ok (w : Walk) : Prop := {
  walk_linked : linked (Frontier.origin_id tail) 1 None (output w);
  walk_seq : expected_seq w = (1 + N.of_nat (length (output w)))%N;
  walk_previous : previous_record w = last_hash None (output w);
  walk_signed : Forall (signed genesis genesis_hash key (Frontier.origin_id tail)) (output w);
}.

(** The walk has reached the tail the frontier accepted. *)
Definition at_tail (rs : list VerifiedV2Record) : Prop :=
  ∃ r, last rs = Some r ∧ origin_seq (envelope (record r)) = Frontier.seq tail ∧
    record_hash (record r) = event_hash tail ∧
    record_manifest_hash r = segment_manifest_hash tail.

Lemma walk_start_ok : walk_ok walk_start.
Proof. by split. Qed.

(** The records of a segment lie within the range its manifest signs. *)
Lemma linked_range origin seq previous rs r0 r :
  linked origin seq previous rs → last rs = Some r0 → r ∈ rs →
  (seq <= origin_seq (envelope (record r)) <= origin_seq (envelope (record r0)))%N.
Proof.
  intros Hl Hlast [i Hi]%list_elem_of_lookup_1.
  rewrite (linked_seq _ _ _ _ _ _ Hl Hi).
  pose proof (linked_last_seq _ _ _ _ _ Hl Hlast).
  pose proof (lookup_lt_Some _ _ _ Hi). lia.
Qed.

Lemma verify_segment_signed m hash frontier r0 seq previous new :
  manifest_signed m key → manifest_hash m = Ok hash →
  manifest_archive_id (manifest_body m) = archive_id (Genesis.body genesis) →
  manifest_genesis_hash (manifest_body m) = genesis_hash →
  manifest_origin_id (manifest_body m) = Frontier.origin_id tail →
  causal_base_frontier_hash (manifest_body m) = frontier →
  first_seq (manifest_body m) = seq →
  linked (Frontier.origin_id tail) seq previous new → last new = Some r0 →
  last_seq (manifest_body m) = origin_seq (envelope (record r0)) →
  Forall (λ r, record_manifest_hash r = hash ∧ causal_frontier_hash r = frontier) new →
  Forall (signed genesis genesis_hash key (Frontier.origin_id tail)) new.
Proof.
  intros Hm Hh Ha Hg Ho Hf Hfirst Hl Hlast Hls Hfrom.
  rewrite Forall_forall in Hfrom |- *. intros r Hr. destruct (Hfrom r Hr) as [Hrm Hrf].
  exists m. rewrite Hrm, Hrf, Hls, Hfirst. split_and!; try done;
    by apply (linked_range _ _ _ _ _ _ Hl Hlast Hr).
Qed.

(** One segment, as one relation between the locals before and after it. *)
Lemma verify_segment_run w path w' found :
  verify_segment root genesis genesis_hash key tail w path = Ok (w', found) →
  ∃ m hash new r0,
    manifest_signed m key ∧ manifest_hash m = Ok hash ∧
    manifest_archive_id (manifest_body m) = archive_id (Genesis.body genesis) ∧
    manifest_genesis_hash (manifest_body m) = genesis_hash ∧
    manifest_origin_id (manifest_body m) = Frontier.origin_id tail ∧
    previous_segment_manifest_hash (manifest_body m) = previous_manifest w ∧
    first_seq (manifest_body m) = expected_seq w ∧
    linked (Frontier.origin_id tail) (expected_seq w) (previous_record w) new ∧
    last new = Some r0 ∧ last_seq (manifest_body m) = origin_seq (envelope (record r0)) ∧
    Forall (λ r, record_manifest_hash r = hash ∧
                 causal_frontier_hash r = causal_base_frontier_hash (manifest_body m)) new ∧
    w' = {| expected_seq := expected_seq w + N.of_nat (length new);
            previous_record := last_hash (previous_record w) new;
            previous_manifest := Some hash;
            verified_segments := verified_segments w + 1;
            output := output w ++ new |} ∧
    found = bool_decide (hash = segment_manifest_hash tail) ∧
    (found = true → origin_seq (envelope (record r0)) = Frontier.seq tail ∧
                    record_hash (record r0) = event_hash tail).
Proof.
  unfold verify_segment. intros Hrun. inv_ok. boolify.
  match goal with H : verify_manifest _ _ = Ok _ |- _ => apply verify_manifest_Ok in H end.
  match goal with H : fold_result _ _ _ = Ok ?p |- _ => destruct p as [[seq' prev'] new] end.
  match goal with H : fold_result _ _ _ = Ok _ |- _ =>
    apply read_lines_Ok in H as (new' & Hnew & Hl & _ & Hfrom & -> & ->);
    cbn [app] in Hnew; subst end.
  inv_ok. boolify. do 4 eexists. do 11 (split; [done |]).
  case_decide as Htail; inv_ok; boolify; split_and!; try done.
  - by rewrite bool_decide_eq_true_2.
  - split; congruence.
  - by rewrite bool_decide_eq_false_2.
Qed.

Lemma verify_segment_Ok w path w' found :
  verify_segment root genesis genesis_hash key tail w path = Ok (w', found) →
  walk_ok w → walk_ok w' ∧ (found = true → at_tail (output w')).
Proof.
  intros (m & hash & new & r0 & Hm & Hh & Ha & Hg & Ho & _ & Hfirst & Hl & Hlast & Hls
    & Hfrom & -> & Hfound & Htail)%verify_segment_run [Hlinked Hseq Hprev Hsigned].
  assert (Forall (signed genesis genesis_hash key (Frontier.origin_id tail)) new) as Hnew
    by (by eapply verify_segment_signed).
  split.
  - split; cbn [output expected_seq previous_record].
    + apply linked_app. rewrite Hseq, Hprev in Hl. done.
    + rewrite Hseq, length_app. lia.
    + by rewrite last_hash_app, Hprev.
    + by apply Forall_app.
  - intros ->. exists r0. cbn [output]. rewrite last_app, Hlast.
    destruct Htail as [? ?]; [done |]. symmetry in Hfound. apply bool_decide_eq_true in Hfound.
    split_and!; [done.. |]. rewrite Forall_forall in Hfrom. rewrite <- Hfound.
    by destruct (Hfrom r0) as [-> _]; [apply last_Some_elem_of |].
Qed.

Lemma verify_segments_Ok entries w w' found :
  verify_segments root genesis genesis_hash key tail w entries = Ok (w', found) →
  walk_ok w → walk_ok w' ∧ (found = true → at_tail (output w')).
Proof.
  revert w. induction entries as [|path entries IH]; cbn; intros w Hrun Hw.
  - by simplify_eq.
  - apply bind_Ok in Hrun as ([w1 found1] & Hseg & Hrun).
    apply verify_segment_Ok in Hseg as [Hw1 Htail]; [|done].
    destruct found1; [|by apply (IH w1)]. simplify_eq. by split; [|intros; apply Htail].
Qed.
End walk.

Lemma verify_origin_Ok root genesis genesis_hash key tail rs n :
  verify_origin root genesis genesis_hash key tail = Ok (rs, n) →
  linked (Frontier.origin_id tail) 1 None rs ∧
  N.of_nat (length rs) = Frontier.seq tail ∧
  at_tail tail rs ∧
  Forall (signed genesis genesis_hash key (Frontier.origin_id tail)) rs.
Proof.
  unfold verify_origin. intros Hrun. inv_ok.
  match goal with H : verify_segments _ _ _ _ _ _ _ = Ok ?p |- _ =>
    destruct p as [w found]; apply verify_segments_Ok in H as [Hw Htail];
    [|apply walk_start_ok] end.
  inv_ok. boolify. subst. destruct Hw as [Hl _ _ Hs].
  destruct Htail as (r & Hr & Hseq & Htail); [done |].
  split_and!; [done | | by exists r | done].
  pose proof (linked_last_seq _ _ _ _ _ Hl Hr). lia.
Qed.

(** C5: a verified origin is one unbroken chain: its records are numbered from
    one without gaps up to the accepted tail, each names the hash of the exact
    line before it, the last one carries the accepted event hash and comes from
    the accepted manifest, and every record lies in the range of a manifest of
    this archive and origin signed with the origin's key. *)
Theorem verify_origin_chain root genesis genesis_hash key tail rs n :
  verify_origin root genesis genesis_hash key tail = Ok (rs, n) →
  linked (Frontier.origin_id tail) 1 None rs ∧
  N.of_nat (length rs) = Frontier.seq tail ∧
  at_tail tail rs ∧
  Forall (signed genesis genesis_hash key (Frontier.origin_id tail)) rs.
Proof. apply verify_origin_Ok. Qed.

Lemma last_hash_None rs : last_hash None rs = None → rs = [].
Proof. unfold last_hash. intros H'. apply last_None. by destruct (last rs). Qed.

(** Two chains that end in the same record hash hold the same lines. *)
Lemma linked_binds origin origin' rs rs' h :
  linked origin 1 None rs → linked origin' 1 None rs' →
  last_hash None rs = Some h → last_hash None rs' = Some h →
  exact_line_bytes <$> rs = exact_line_bytes <$> rs' ∨
  ∃ r r', r ∈ rs ∧ r' ∈ rs' ∧ blake3_collision (exact_line_bytes r) (exact_line_bytes r').
Proof.
  revert rs' h. induction rs as [|r rs IH] using rev_ind; intros rs' h Hl Hl' Hh Hh'; [done |].
  destruct rs' as [|r' rs' _] using rev_ind; [done |].
  rewrite last_hash_app in Hh, Hh'. unfold last_hash in Hh, Hh'. cbn in Hh, Hh'.
  apply linked_app in Hl as [Hl (Hat & Hrh & _)], Hl' as [Hl' (Hat' & Hrh' & _)].
  rewrite <- Hh in Hh'. injection Hh' as Hh'. rewrite Hrh, Hrh' in Hh'.
  destruct (hash_eq_or_collision _ _ Hh') as [Hline | Hc]; cycle 1.
  { right. exists r, r'. split_and!; [set_solver.. |]. destruct Hc. by split. }
  pose proof (at_json _ _ _ _ _ _ Hat) as Hj. pose proof (at_json _ _ _ _ _ _ Hat') as Hj'.
  rewrite Hline, Hj in Hj'. injection Hj' as Henv.
  pose proof (at_previous _ _ _ _ _ _ Hat) as Hp. pose proof (at_previous _ _ _ _ _ _ Hat') as Hp'.
  rewrite Henv, Hp' in Hp. rewrite !fmap_app. cbn. rewrite Hline.
  destruct (last_hash None rs) as [h1|] eqn:Hlast.
  - edestruct (IH rs' h1) as [-> | (r1 & r1' & ? & ? & ?)]; [done.. | by left |].
    right. exists r1, r1'. set_solver.
  - left. rewrite (last_hash_None rs), (last_hash_None rs') by done. done.
Qed.

(** C11: the event hash of an accepted tail pins the origin's whole history: two
    trees that verify against tails with the same event hash hold exactly the
    same record lines, or exhibit a blake3 collision between two of them. *)
Theorem accepted_tail_binds root genesis genesis_hash key tail rs n
    root' genesis' genesis_hash' key' tail' rs' n' :
  verify_origin root genesis genesis_hash key tail = Ok (rs, n) →
  verify_origin root' genesis' genesis_hash' key' tail' = Ok (rs', n') →
  event_hash tail = event_hash tail' →
  exact_line_bytes <$> rs = exact_line_bytes <$> rs' ∨
  ∃ r r', r ∈ rs ∧ r' ∈ rs' ∧ blake3_collision (exact_line_bytes r) (exact_line_bytes r').
Proof.
  intros (Hl & _ & (r & Hr & _ & Hh & _) & _)%verify_origin_Ok
    (Hl' & _ & (r' & Hr' & _ & Hh' & _) & _)%verify_origin_Ok Heq.
  apply (linked_binds (Frontier.origin_id tail) (Frontier.origin_id tail') rs rs' (event_hash tail));
    [done | done | |]; unfold last_hash; rewrite ?Hr, ?Hr'; congruence.
Qed.
End segment.

(** ** Examples *)

Module Examples.
#[local] Existing Instance Genesis.Examples.two_keys.

Definition origin : string := "origin_" +:+ of_bytes (replicate 64 "a"%char).
Definition some_hash (a : ascii) : string := "blake3:" +:+ of_bytes (replicate 64 a).

Definition line1 : bytes := as_bytes "{1}".
Definition line2 : bytes := as_bytes "{2}".

Definition envelope_at (n : N) (previous : option string) : V2RecordEnvelope := {|
  Record.v := 2; Record.origin_id := origin; origin_seq := n;
  record_id := "rec_01arz3ndektsv4rrffq69g5fav"; record_kind := BatchChunk;
  time_utc_ms := 1700000000000; batch_id := "batch_01arz3ndektsv4rrffq69g5fav";
  previous_record_hash := previous; payload := Obj []
|}.

#[local] Instance envelope_json : FromJson V2RecordEnvelope := {
  from_json b :=
    if decide (b = line1) then Ok (envelope_at 1 None)
    else if decide (b = line2) then Ok (envelope_at 2 (Some (blake3_identifier line1)))
    else Err "expected value" }.

Definition segment_body (n : N) (line : bytes) (previous : option string)
    : SegmentManifestBody := {|
  manifest_v := 2; manifest_archive_id := "archive_1"; manifest_genesis_hash := some_hash "c";
  manifest_origin_id := origin;
  segment_path := if (n =? 1)%N then "seg-1.jsonl" else "seg-2.jsonl";
  first_seq := n; last_seq := n;
  first_record_id := "rec_01arz3ndektsv4rrffq69g5fav";
  last_record_id := "rec_01arz3ndektsv4rrffq69g5fav";
  first_record_hash := blake3_identifier line; last_record_hash := blake3_identifier line;
  record_count := 1; segment_bytes := 4;
  segment_blake3 := blake3_identifier (line ++ ["010"%char]);
  causal_base_frontier_hash := some_hash "f"; previous_segment_manifest_hash := previous
|}.

#[local] Instance body_json : ToJson SegmentManifestBody :=
  { to_json b := Ok (as_bytes (segment_path b)) }.
#[local] Instance manifest_json : ToJson SignedSegmentManifest :=
  { to_json m := Ok (as_bytes (segment_path (manifest_body m))) }.

Definition signed_with (body : SegmentManifestBody) : SignedSegmentManifest := {|
  manifest_body := body; manifest_signature := "a" +:+ segment_path body |}.

Definition manifest1 : SignedSegmentManifest := signed_with (segment_body 1 line1 None).
Definition manifest2 : SignedSegmentManifest :=
  signed_with (segment_body 2 line2 (Some (blake3_identifier (as_bytes "seg-1.jsonl")))).

#[local] Instance manifest_from_json : FromJson SignedSegmentManifest := {
  from_json b :=
    if decide (b = as_bytes "seg-1.jsonl") then Ok manifest1
    else if decide (b = as_bytes "seg-2.jsonl") then Ok manifest2
    else Err "expected value" }.

Definition directory : string := "manifests/v2/origins/" +:+ origin.

Definition tree : Tree := tree_of
  {[ directory +:+ "/1.manifest.json" := as_bytes "seg-1.jsonl";
     directory +:+ "/2.manifest.json" := as_bytes "seg-2.jsonl";
     "seg-1.jsonl" := line1 ++ ["010"%char];
     "seg-2.jsonl" := line2 ++ ["010"%char] ]}
  {[ directory := ["2.manifest.json"; "notes.txt"; "1.manifest.json"] ]}.

Definition tail : OriginFrontier := {|
  Frontier.origin_id := origin; Frontier.seq := 2; event_hash := blake3_identifier line2;
  segment_manifest_hash := blake3_identifier (as_bytes "seg-2.jsonl")
|}.

Definition verified (n : N) (previous : option string) (line : bytes) (path : string)
    : VerifiedV2Record := {|
  record := {| envelope := envelope_at n previous; record_hash := blake3_identifier line |};
  exact_line_bytes := line; record_manifest_hash := blake3_identifier (as_bytes path);
  causal_frontier_hash := some_hash "f"
|}.

Definition records : list VerifiedV2Record := [
  verified 1 None line1 "seg-1.jsonl";
  verified 2 (Some (blake3_identifier line1)) line2 "seg-2.jsonl"].

Definition verify_tree := verify_origin tree Genesis.Examples.sample_genesis (some_hash "c")
  (verifying_key Genesis.Examples.first_key) tail.

Lemma origin_verifies : verify_tree = Ok (records, 2%N).
Proof. vm_compute. reflexivity. Qed.

Lemma verify_origin_chain_witness : N.of_nat (length records) = Frontier.seq tail.
Proof.
  apply (verify_origin_chain tree Genesis.Examples.sample_genesis (some_hash "c")
           (verifying_key Genesis.Examples.first_key) tail records 2 origin_verifies).
Defined.

Lemma accepted_tail_binds_witness :
  exact_line_bytes <$> records = exact_line_bytes <$> records ∨
  ∃ r r', r ∈ records ∧ r' ∈ records ∧
    blake3_collision (exact_line_bytes r) (exact_line_bytes r').
Proof.
  apply (accepted_tail_binds _ _ _ _ _ _ _ _ _ _ _ _ _ _ origin_verifies origin_verifies).
  reflexivity.
Defined.
End Examples.
