(* ===== verification/FrontierGraph.v ===== *)
(** The graph of accepted frontiers: [load_frontier_graph] and its relatives in
    [v2_store.rs]. A frontier file is named by the hash of its bytes and lists the
    hashes of its parents; loading follows the parents to the genesis frontier and
    checks every step as a successor. *)
From Stdlib Require Import ZArith NArith Lia Ascii.
From stdpp Require Import base decidable list gmap strings sorting.
From S2P Require Import Prelude.
From S2P Require Import Text.
From S2P Require Import External.
From S2P Require Import Ids.
From S2P Require Import Frontier.
From S2P Require Import Store.

(** How a recursive load ends early: an error of the code, an index into
    [visited] that panics, or the fuel of the model spent. *)
Inductive Stop : Type :=
  | Stopped (error : V2StoreError)
  | Panicked
  | OutOfFuel.

Section graph.
Context `{Blake3, ToJson CausalFrontier, FromJson CausalFrontier}.
Context (root : Tree) (archive genesis : string).

Definition read_frontier (hash : string) : result V2StoreError CausalFrontier :=
  path ← frontier_path hash;
  b ← read_file root path;
  frontier ← parse_json path b;
  canonical ← map_err FrontierErr (canonical_bytes frontier);
  name ← map_err FrontierErr (frontier_hash frontier);
  _ ← bail_if (negb (bool_decide (canonical = b)) || negb (bool_decide (name = hash)))
        (Invalid ("frontier bytes or name do not match at " +:+ path));
  _ ← bail_if (negb (bool_decide (archive_id frontier = archive))
               || negb (bool_decide (genesis_hash frontier = genesis)))
        (Invalid ("frontier belongs to another Archive at " +:+ path));
  Ok frontier.

(** [visited[parent_hash]] followed by the successor check of [frontier]. *)
Definition check_parent (frontier : CausalFrontier) (parent_hash : string)
    (visited : gmap string CausalFrontier) : result Stop () :=
  base ← ok_or (visited !! parent_hash) Panicked;
  _ ← map_err (Stopped ∘ FrontierErr) (validate_successor_of frontier base);
  Ok ().

Definition check_parentless (frontier : CausalFrontier) : result Stop () :=
  bail_if (bool_decide (previous_frontiers frontier = [])
           && negb (bool_decide (origins frontier = [])))
    (Stopped (Invalid "the parentless genesis frontier must have no origins")).

Fixpoint load_frontier_graph (fuel : nat) (hash : string)
    (visited : gmap string CausalFrontier) : result Stop (gmap string CausalFrontier) :=
  match fuel with
  | O => Err OutOfFuel
  | S fuel =>
      if is_some_b (visited !! hash) then Ok visited else
      frontier ← map_err Stopped (read_frontier hash);
      visited ← fold_result (λ visited parent_hash,
                  visited ← load_frontier_graph fuel parent_hash visited;
                  _ ← check_parent frontier parent_hash visited;
                  Ok visited) visited (previous_frontiers frontier);
      _ ← check_parentless frontier;
      Ok (<[hash := frontier]> visited)
  end.

(** The same walk, stopping at a base frontier; the second component tells
    whether the base was found. *)
Fixpoint load_frontier_path_to_base (fuel : nat) (hash base_hash : string)
    (visited : gmap string CausalFrontier)
    : result Stop (gmap string CausalFrontier * bool) :=
  match fuel with
  | O => Err OutOfFuel
  | S fuel =>
      if is_some_b (visited !! hash) then Ok (visited, bool_decide (hash = base_hash)) else
      frontier ← map_err Stopped (read_frontier hash);
      if decide (hash = base_hash) then Ok (<[hash := frontier]> visited, true) else
      vf ← fold_result (λ vf parent_hash,
             found ← load_frontier_path_to_base fuel parent_hash base_hash vf.1;
             _ ← check_parent frontier parent_hash found.1;
             Ok (found.1, vf.2 || found.2)) (visited, false) (previous_frontiers frontier);
      _ ← check_parentless frontier;
      Ok (<[hash := frontier]> vf.1, vf.2)
  end.

(** ** Specification *)

(** A frontier file of this archive under its own name. *)
Definition stored (hash : string) (f : CausalFrontier) : Prop :=
  frontier_hash f = Ok hash ∧ archive_id f = archive ∧ genesis_hash f = genesis ∧
  (previous_frontiers f = [] → origins f = []).

(** Every loaded frontier is stored, and an accepted successor of each of its
    parents, all of which are loaded. *)
Definition closed (visited : gmap string CausalFrontier) : Prop :=
  ∀ hash f, visited !! hash = Some f → stored hash f ∧
    ∀ p, p ∈ previous_frontiers f → ∃ base adv,
      visited !! p = Some base ∧ validate_successor_of f base = Ok adv.

(** The frontier stored under [hash] is reached from [g] by following parents. *)
Definition ancestor (visited : gmap string CausalFrontier) (hash : string)
    (g : CausalFrontier) : Prop :=
  ∃ f, visited !! hash = Some f ∧ read_frontier hash = Ok f ∧ chain f g.

Lemma read_frontier_Ok hash f :
  read_frontier hash = Ok f →
  frontier_hash f = Ok hash ∧ archive_id f = archive ∧ genesis_hash f = genesis.
Proof.
  unfold read_frontier. intros Hrun. inv_ok. boolify. by subst.
Qed.

(** The frontier a name denotes is the decoding of the bytes it hashes. *)
Lemma read_frontier_bytes hash f :
  read_frontier hash = Ok f →
  ∃ b, from_json b = Ok f ∧ to_json f = Ok b ∧ hash = blake3_identifier b.
Proof.
  unfold read_frontier. intros Hrun. inv_ok. boolify. subst.
  match goal with H : parse_json _ _ = Ok _ |- _ => apply parse_json_Ok in H as Hj end.
  match goal with H : frontier_hash _ = Ok _ |- _ =>
    apply frontier_hash_Ok in H as (_ & b & Hb & ->) end.
  match goal with H : canonical_bytes _ = Ok ?x |- _ =>
    assert (x = b) as ->; [|by exists b] ;
    unfold canonical_bytes in H; inv_ok; congruence end.
Qed.

Lemma is_some_b_true {A} (o : option A) : is_some_b o = true ↔ is_Some o.
Proof. destruct o; cbn; [split; eauto |]. split; [done | intros [? [=]]]. Qed.

(** [chain base f] extended at its first end. *)
Lemma chain_trans a b c : chain a b → chain b c → chain a c.
Proof.
  intros Hab Hbc. revert Hab. induction Hbc; intros Hab; [done |].
  eapply chain_step; [by apply IHHbc | done].
Qed.

Lemma chain_one a b adv : validate_successor_of b a = Ok adv → chain a b.
Proof. intros Hs. econstructor; [constructor | done]. Qed.

(** ** Loading *)

(** What a load adds: it keeps what was there, closes the new part, and adds only
    the asked frontier and its ancestors. *)
Record loads (hash : string) (visited visited' : gmap string CausalFrontier) : Prop := {
  loads_keep : visited ⊆ visited';
  loads_closed : closed visited → closed visited';
  loads_new : ∃ f, visited' !! hash = Some f ∧
    ∀ h, visited !! h = None → is_Some (visited' !! h) → ancestor visited' h f;
}.

Lemma chain_mono (v v' : gmap string CausalFrontier) h f :
  v ⊆ v' → ancestor v h f → ancestor v' h f.
Proof.
  intros Hsub (g & Hg & Hc). exists g. split; [by eapply lookup_weaken | done].
Qed.

(** The loop over the parents of [f]. *)
Lemma load_parents_ok (load : string → gmap string CausalFrontier → result Stop (gmap string CausalFrontier))
    f parents visited visited' :
  (∀ p v v', load p v = Ok v' → loads p v v') →
  fold_result (λ visited parent_hash,
     visited ← load parent_hash visited;
     _ ← check_parent f parent_hash visited;
     Ok visited) visited parents = Ok visited' →
  visited ⊆ visited' ∧ (closed visited → closed visited') ∧
  (∀ p, p ∈ parents → ∃ base adv,
     visited' !! p = Some base ∧ validate_successor_of f base = Ok adv) ∧
  (∀ h, visited !! h = None → is_Some (visited' !! h) → ancestor visited' h f).
Proof.
  intros Hload. revert visited. induction parents as [|p parents IH]; intros visited Hrun.
  - cbn in Hrun. simplify_eq. split_and!; [done | done | set_solver |].
    intros h Hn [? ?]. congruence.
  - cbn in Hrun. apply bind_Ok in Hrun as (v1 & Hstep & Hrun). inv_ok.
    match goal with H : load _ _ = Ok _ |- _ => apply Hload in H as [Hk1 Hc1 (b & Hb & Hn1)] end.
    match goal with H : check_parent _ _ _ = Ok _ |- _ => unfold check_parent in H; inv_ok end.
    simplify_eq.
    match goal with H : validate_successor_of _ _ = Ok _ |- _ => rename H into Hsucc end.
    apply IH in Hrun as (Hk & Hc & Hp & Hn). split_and!.
    + by etrans.
    + auto.
    + intros q [-> | Hq]%elem_of_cons; [|auto]. eexists _, _. split; [|done].
      by eapply lookup_weaken.
    + intros h Hnone Hsome. destruct (v1 !! h) as [g|] eqn:Hg; [|auto].
      destruct (Hn1 h Hnone) as (g' & Hg' & Hr & Hch); [eauto |]. exists g'.
      split_and!; [by eapply lookup_weaken | done |].
      eapply chain_trans; [done |]. by eapply chain_one.
Qed.

(** Adding a frontier whose parents are loaded. *)
Lemma insert_loads hash f visited v1 :
  visited !! hash = None → read_frontier hash = Ok f →
  (previous_frontiers f = [] → origins f = []) →
  visited ⊆ v1 → (closed visited → closed v1) →
  (∀ p, p ∈ previous_frontiers f → ∃ base adv,
     v1 !! p = Some base ∧ validate_successor_of f base = Ok adv) →
  (∀ h, visited !! h = None → is_Some (v1 !! h) → ancestor v1 h f) →
  loads hash visited (<[hash := f]> v1).
Proof.
  intros Hvis Hread Hroot Hk Hc Hp Hn.
  assert (v1 ⊆ <[hash := f]> v1) as Hsub.
  { destruct (v1 !! hash) as [g|] eqn:Hg; [|by apply insert_subseteq].
    destruct (Hn hash) as (g' & Hg' & Hr & _); [done | eauto |].
    rewrite insert_id; [done |]. congruence. }
  split; [by etrans | |].
  - intros Hcl h g. rewrite lookup_insert_Some. intros [[<- <-] | [_ Hg]].
    + destruct (read_frontier_Ok _ _ Hread) as (? & ? & ?). split; [done |].
      intros p (base & adv & Hb & ?)%Hp. exists base, adv. split; [by eapply lookup_weaken | done].
    + destruct (Hc Hcl _ _ Hg) as [Hst Hpar]. split; [done |].
      intros p (base & adv & Hb & ?)%Hpar. exists base, adv.
      split; [by eapply lookup_weaken | done].
  - exists f. rewrite lookup_insert_eq. split; [done |]. intros h Hnone [g Hg].
    destruct (decide (h = hash)) as [-> | Hne].
    + rewrite lookup_insert_eq in Hg. exists f. rewrite lookup_insert_eq.
      split_and!; [done | done | constructor].
    + rewrite lookup_insert_ne in Hg by done. eapply chain_mono; [done |]. apply Hn; eauto.
Qed.

Lemma load_ok fuel hash visited visited' :
  load_frontier_graph fuel hash visited = Ok visited' → loads hash visited visited'.
Proof.
  revert hash visited visited'. induction fuel as [|fuel IH]; intros hash visited visited' Hrun;
    [done |]. cbn [load_frontier_graph] in Hrun.
  destruct (visited !! hash) as [f|] eqn:Hvis; cbn [is_some_b] in Hrun.
  - simplify_eq. split; [done | done |]. exists f. split; [done |].
    intros h Hn [? ?]. congruence.
  - inv_ok.
    match goal with H : read_frontier _ = Ok _ |- _ => rename H into Hread end.
    match goal with H : check_parentless ?x = Ok _ |- _ =>
      unfold check_parentless in H; apply bail_if_Ok in H; rename x into f, H into Hroot end.
    match goal with H : fold_result _ _ _ = Ok ?v |- _ =>
      rename v into v1; apply load_parents_ok in H as (Hk & Hc & Hp & Hn); [|exact IH] end.
    apply insert_loads; try done. intros Hnil. rewrite Hnil in Hroot.
    by apply negb_false_iff, bool_decide_eq_true in Hroot.
Qed.
Lemma load_from_empty fuel head visited :
  load_frontier_graph fuel head ∅ = Ok visited →
  closed visited ∧
  ∃ accepted, visited !! head = Some accepted ∧ stored head accepted ∧
    read_frontier head = Ok accepted ∧
    ∀ h f, visited !! h = Some f → extends f accepted.
Proof.
  intros [_ Hclosed (accepted & Ha & Hnew)]%load_ok.
  assert (closed visited) as Hc by (apply Hclosed; intros h f Hf; by rewrite lookup_empty in Hf).
  split; [done |]. exists accepted. split_and!; [done | by apply Hc | |].
  - destruct (Hnew head) as (f' & Hf' & Hr & _); [done | eauto |]. by simplify_eq.
  - intros h f Hf. destruct (Hnew h) as (f' & Hf' & _ & Hchain); [done | eauto |].
    simplify_eq. by apply chain_sound.
Qed.

(** C20: loading a frontier graph from nothing accepts only closed histories:
    every frontier in it is stored under the hash of its bytes, belongs to the
    archive and is an accepted successor of each of its parents, and the asked
    frontier extends all of them: nothing any of them recorded is lost, regressed
    or rewritten in it. *)
Theorem load_frontier_graph_sound fuel head visited :
  load_frontier_graph fuel head ∅ = Ok visited →
  closed visited ∧
  ∃ accepted, visited !! head = Some accepted ∧ stored head accepted ∧
    ∀ h f, visited !! h = Some f → extends f accepted.
Proof.
  intros (Hc & accepted & Ha & Hst & _ & Hext)%load_from_empty.
  split; [done |]. by exists accepted.
Qed.

(** ** Termination *)

Section total.
(** Parent links are acyclic: a cycle would be a cycle of hashes. *)
Context (rank : string → nat).
Hypothesis rank_lt : ∀ hash f p,
  read_frontier hash = Ok f → p ∈ previous_frontiers f → rank p < rank hash.

Lemma load_parents_total fuel f parents visited e :
  (∀ p v, p ∈ parents → load_frontier_graph fuel p v ≠ Err OutOfFuel ∧
                         load_frontier_graph fuel p v ≠ Err Panicked) →
  fold_result (λ visited parent_hash,
     visited ← load_frontier_graph fuel parent_hash visited;
     _ ← check_parent f parent_hash visited;
     Ok visited) visited parents = Err e → e ≠ OutOfFuel ∧ e ≠ Panicked.
Proof.
  revert visited. induction parents as [|p parents IH]; intros visited Hload; cbn; [done |].
  rewrite bind_Err. intros [Hstep | (v1 & _ & Hrest)]; cycle 1.
  { eapply IH; [|done]. intros q v Hq. apply Hload. by right. }
  destruct (Hload p visited) as [Hf Hp]; [by left |].
  destruct (load_frontier_graph fuel p visited) as [v1|e1] eqn:Hl; cbn in Hstep;
    [|naive_solver].
  destruct (load_ok _ _ _ _ Hl) as [_ _ (b & Hb & _)]. unfold check_parent in Hstep.
  rewrite Hb in Hstep. cbn in Hstep.
  destruct (validate_successor_of f b); cbn in Hstep; naive_solver.
Qed.

Lemma load_total fuel hash visited :
  rank hash < fuel →
  load_frontier_graph fuel hash visited ≠ Err OutOfFuel ∧
  load_frontier_graph fuel hash visited ≠ Err Panicked.
Proof.
  revert hash visited. induction fuel as [|fuel IH]; intros hash visited Hfuel; [lia |].
  cbn [load_frontier_graph]. case_match; [done |].
  destruct (read_frontier hash) as [f|e] eqn:Hread; cbn [map_err mbind result_bind]; [|done].
  match goal with |- context[fold_result ?step visited _] =>
    destruct (fold_result step visited (previous_frontiers f)) as [v1|e] eqn:Hfold end;
    cbn [mbind result_bind].
  - unfold check_parentless. by destruct (_ && _).
  - apply load_parents_total in Hfold; [naive_solver |].
    intros p v Hp. apply IH. pose proof (rank_lt _ _ _ Hread Hp). lia.
Qed.

(** Loading always ends and never panics on a missing parent: with more fuel
    than the length of the longest line of parents, the result is a graph or an
    error of the code. *)
Theorem load_frontier_graph_total fuel hash visited :
  rank hash < fuel →
  load_frontier_graph fuel hash visited ≠ Err OutOfFuel ∧
  load_frontier_graph fuel hash visited ≠ Err Panicked.
Proof. apply load_total. Qed.
End total.
End graph.

(** ** Examples *)

Module Examples.
Import Frontier.Examples.
#[local] Existing Instance example_json.

(** The genesis frontier, without origins, and its first successor. *)
Definition first : CausalFrontier := {|
  v := 2; archive_id := "archive"; genesis_hash := hash_of "0"%char;
  origins := []; previous_frontiers := []; item_projection_version := 1
|}.
Definition hash_or_empty (f : CausalFrontier) : string :=
  match frontier_hash f with Ok h => h | Err _ => "" end.
Definition second : CausalFrontier := {|
  v := 2; archive_id := "archive"; genesis_hash := hash_of "0"%char;
  origins := [tail origin_a 3 "1"%char]; previous_frontiers := [hash_or_empty first];
  item_projection_version := 1
|}.

Definition file (f : CausalFrontier) : string * bytes :=
  (match frontier_path (hash_or_empty f) with Ok p => p | Err _ => "" end,
   match to_json f with Ok b => b | Err _ => [] end).

#[local] Instance frontier_from_json : FromJson CausalFrontier := {
  from_json b :=
    if decide (b = (file first).2) then Ok first
    else if decide (b = (file second).2) then Ok second else Err "expected value" }.

Definition tree : Tree := tree_of {[ (file first).1 := (file first).2;
                                     (file second).1 := (file second).2 ]} ∅.

Definition load_second (fuel : nat) :=
  load_frontier_graph tree "archive" (hash_of "0"%char) fuel (hash_or_empty second) ∅.

Definition loaded : gmap string CausalFrontier :=
  match load_second 2 with Ok visited => visited | Err _ => ∅ end.

Lemma loads_second : load_second 2 = Ok loaded.
Proof.
  assert (is_ok (load_second 2) = true) as Hok by (vm_compute; reflexivity).
  unfold loaded. destruct (load_second 2); [reflexivity | discriminate Hok].
Qed.

Lemma load_frontier_graph_sound_witness : extends first second.
Proof.
  destruct (load_frontier_graph_sound tree "archive" (hash_of "0"%char) 2
              (hash_or_empty second) loaded loads_second) as (_ & accepted & Ha & _ & H).
  assert (loaded !! hash_or_empty second = Some second) as Hs by (vm_compute; reflexivity).
  rewrite Hs in Ha. injection Ha as <-.
  apply (H (hash_or_empty first)). vm_compute. reflexivity.
Defined.

(** The rank of a hash is the number of frontiers below it. *)
Definition rank (hash : string) : nat :=
  if decide (hash = hash_or_empty second) then 1 else 0.

Lemma second_rank hash f p :
  read_frontier tree "archive" (hash_of "0"%char) hash = Ok f →
  p ∈ previous_frontiers f → rank p < rank hash.
Proof.
  intros Hread Hp. pose proof (read_frontier_Ok _ _ _ _ _ Hread) as [Hh _].
  unfold read_frontier in Hread. inv_ok.
  match goal with H : parse_json _ _ = Ok _ |- _ => apply parse_json_Ok in H; rename H into Hj end.
  unfold from_json, frontier_from_json in Hj.
  destruct (decide _); [injection Hj as <-; by apply elem_of_nil in Hp |].
  destruct (decide _); [injection Hj as <- | discriminate Hj].
  apply list_elem_of_singleton in Hp as ->.
  assert (hash = hash_or_empty second) as -> by (unfold hash_or_empty; by rewrite Hh).
  vm_compute. lia.
Qed.

Lemma load_frontier_graph_total_witness : load_second 2 ≠ Err OutOfFuel.
Proof.
  apply (load_frontier_graph_total tree "archive" (hash_of "0"%char) rank).
  - exact second_rank.
  - vm_compute. lia.
Defined.
End Examples.
