(* ===== verification/Clients.v ===== *)
(** The client registry an archive's history carries: the enrollment part of
    [v2_store.rs]. Clients are enrolled and revoked by items of batch chunks; a
    client may write only from frontiers that include its enrollment and, once it
    is revoked, not from frontiers that include the revocation. *)
From Stdlib Require Import ZArith NArith Lia Ascii.
From stdpp Require Import base decidable list gmap strings sorting.
From S2P Require Import Prelude.
From S2P Require Import Text.
From S2P Require Import External.
From S2P Require Import Ids.
From S2P Require Import Frontier.
From S2P Require Import Record.
From S2P Require Import Genesis.
From S2P Require Import Store.
From S2P Require Import Segment.

Record VerifiedV2Client : Type := {
  client : string;
  display_name : string;
  public_key : bytes;
  capabilities : list string;
  approved_origin_id : string;
  approved_origin_seq : N;
  revoked_origin_id : option string;
  revoked_origin_seq : option N;
}.

Definition is_revoked (self : VerifiedV2Client) : bool := is_some_b (revoked_origin_id self).

(** The position a record has in its origin. *)
Definition dot (r : VerifiedV2Record) : string * N :=
  (Record.origin_id (envelope (record r)), origin_seq (envelope (record r))).

Definition record_items (r : VerifiedV2Record) : option (list Value) :=
  value_get "items" (payload (envelope (record r))) ≫= as_array.

Definition item_kind (item : Value) : option string := value_get "kind" item ≫= as_str.

Definition record_contains_item_kind (r : VerifiedV2Record) (expected : string) : bool :=
  bool_decide (record_kind (envelope (record r)) = BatchChunk)
  && match record_items r with
     | Some items => existsb (λ item, bool_decide (item_kind item = Some expected)) items
     | None => false
     end.

Definition frontier_includes_dot (frontier : CausalFrontier) (id : string) (n : N) : bool :=
  existsb (λ origin, bool_decide (Frontier.origin_id origin = id) && (n <=? Frontier.seq origin)%N)
    (origins frontier).

(** The registry: a [BTreeMap] keyed by client identifier. *)
Abbreviation Registry := (gmap string VerifiedV2Client).

Section clients.
Context `{Blake3, Base64, Ed25519}.

(** [VerifiedV2Client::verifying_key] *)
Definition client_key (self : VerifiedV2Client) : result V2StoreError VerifyingKey :=
  ok_or (key_from_bytes (public_key self)) (Invalid "enrolled client public key is invalid").

Definition required_string (item : list (string * Value)) (field : string)
    : result V2StoreError string :=
  ok_or (assoc field item ≫= as_str) (Invalid ("client_enrolled lacks " +:+ field)).

Definition enrolled_client_from_item (item : list (string * Value)) (r : VerifiedV2Record)
    : result V2StoreError VerifiedV2Client :=
  id ← required_string item "client_id";
  _ ← validate_origin_id id;
  name ← required_string item "display_name";
  _ ← bail_if (str_is_empty (trim name)) (Invalid "client_enrolled display name is empty");
  encoded ← required_string item "public_key";
  decoded ← ok_or (base64_decode encoded) (Invalid "client public key is not base64");
  key ← ok_or (try_into_32 decoded) (Invalid "client public key has the wrong length");
  _ ← ok_or (key_from_bytes key) (Invalid "client public key is invalid");
  _ ← bail_if (negb (bool_decide (id = client_id key)))
        (Invalid "client ID does not match its public key");
  array ← ok_or (assoc "capabilities" item ≫= as_array)
            (Invalid "client_enrolled lacks capabilities");
  capabilities ← map_result
    (λ value, ok_or (as_str value) (Invalid "client capability is not a string")) array;
  _ ← bail_if (bool_decide (capabilities = []))
        (Invalid "client_enrolled capabilities are empty");
  Ok {| client := id; display_name := name; public_key := key; capabilities := capabilities;
        approved_origin_id := (dot r).1; approved_origin_seq := (dot r).2;
        revoked_origin_id := None; revoked_origin_seq := None |}.

Definition revoke (self : VerifiedV2Client) (at_ : string * N) : VerifiedV2Client := {|
  client := client self; display_name := display_name self; public_key := public_key self;
  capabilities := capabilities self; approved_origin_id := approved_origin_id self;
  approved_origin_seq := approved_origin_seq self;
  revoked_origin_id := Some at_.1; revoked_origin_seq := Some at_.2
|}.

(** The body of the loop over the items of one record. *)
Definition apply_item (r : VerifiedV2Record) (clients : Registry) (item : Value)
    : result V2StoreError Registry :=
  let kind := item_kind item in
  if decide (kind = Some "client_enrolled") then
    object ← ok_or (as_object item) (Invalid "client_enrolled item is not an object");
    new ← enrolled_client_from_item object r;
    _ ← bail_if (is_some_b (clients !! client new))
          (Invalid "a client ID was enrolled more than once");
    Ok (<[client new := new]> clients)
  else if decide (kind = Some "client_revoked") then
    id ← ok_or (value_get "client_id" item ≫= as_str)
           (Invalid "client_revoked item lacks client_id");
    _ ← validate_origin_id id;
    old ← ok_or (clients !! id)
            (Invalid ("client_revoked names an unenrolled client " +:+ id));
    _ ← bail_if (is_revoked old) (Invalid ("client " +:+ id +:+ " was revoked more than once"));
    Ok (<[id := revoke old (dot r)]> clients)
  else Ok clients.

(** The body of the loop over the records. *)
Definition apply_record (clients : Registry) (r : VerifiedV2Record)
    : result V2StoreError Registry :=
  if decide (record_kind (envelope (record r)) = BatchChunk) then
    match record_items r with
    | Some items => fold_result (apply_item r) clients items
    | None => Ok clients
    end
  else Ok clients.

Definition apply_client_registry_items (records : list VerifiedV2Record) (clients : Registry)
    : result V2StoreError Registry :=
  fold_result apply_record clients records.

(** The body of the loop of [validate_client_origin_records]. *)
Definition check_client_record (c : VerifiedV2Client) (frontiers : gmap string CausalFrontier)
    (r : VerifiedV2Record) : result V2StoreError () :=
  base ← ok_or (frontiers !! causal_frontier_hash r)
           (Invalid ("client origin " +:+ client c +:+ " depends on an unknown frontier"));
  _ ← bail_if (negb (frontier_includes_dot base (approved_origin_id c) (approved_origin_seq c)))
        (Invalid ("client origin " +:+ client c +:+ " does not causally follow its enrollment"));
  match revoked_origin_id c, revoked_origin_seq c with
  | Some id, Some n =>
      bail_if (frontier_includes_dot base id n)
        (Invalid ("revoked client " +:+ client c +:+ " appended from a post-revocation frontier"))
  | _, _ => Ok ()
  end.

Definition validate_client_origin_records (records : list VerifiedV2Record)
    (c : VerifiedV2Client) (frontiers : gmap string CausalFrontier) : result V2StoreError () :=
  _ ← bail_if (bool_decide (records = []))
        (Invalid ("accepted client origin " +:+ client c +:+ " has no records"));
  for_each (check_client_record c frontiers) records.

(** ** Specification *)

(** An enrolled client: its identifier is the hash of a usable key. *)
Record client_ok (id : string) (c : VerifiedV2Client) : Prop := {
  ok_id : client c = id;
  ok_origin : is_origin_id id = true;
  ok_key_length : length (public_key c) = 32;
  ok_key_hash : id = client_id (public_key c);
  ok_key : is_Some (key_from_bytes (public_key c));
}.

Definition registry_ok (clients : Registry) : Prop :=
  ∀ id c, clients !! id = Some c → client_ok id c.

(** The dots of the records in which items can act. *)
Definition chunk_dots (rs : list VerifiedV2Record) (d : string * N) : Prop :=
  ∃ r, r ∈ rs ∧ record_kind (envelope (record r)) = BatchChunk ∧ dot r = d.

(** What applying records does to a registry: no client is dropped or replaced,
    revocations are final, and enrollments and revocations carry the dot of the
    record that made them. *)
Record evolves (dots : string * N → Prop) (clients clients' : Registry) : Prop := {
  ev_keep : ∀ id c, clients !! id = Some c → ∃ c', clients' !! id = Some c' ∧
    (c' = c ∨ (is_revoked c = false ∧ ∃ d, dots d ∧ c' = revoke c d));
  ev_new : ∀ id c', clients !! id = None → clients' !! id = Some c' →
    dots (approved_origin_id c', approved_origin_seq c');
  ev_ok : registry_ok clients → registry_ok clients';
}.

Lemma evolves_refl dots clients : evolves dots clients clients.
Proof. split; [eauto | congruence | done]. Qed.

Lemma evolves_trans dots c1 c2 c3 :
  evolves dots c1 c2 → evolves dots c2 c3 → evolves dots c1 c3.
Proof.
  intros [K1 N1 O1] [K2 N2 O2]. split; [| |auto].
  - intros id c Hc. destruct (K1 _ _ Hc) as (c' & Hc' & Hs).
    destruct (K2 _ _ Hc') as (c'' & Hc'' & Hs'). exists c''. split; [done |].
    destruct Hs as [-> | (Hr & d & Hd & ->)]; [done |].
    right. destruct Hs' as [-> | (Hr' & _)]; [eauto | done].
  - intros id c' Hn Hc'. destruct (c2 !! id) as [c|] eqn:Hc; [|by eapply N2].
    destruct (K2 _ _ Hc) as (c'' & Hc'' & Hs). simplify_eq.
    specialize (N1 _ _ Hn Hc). by destruct Hs as [-> | (_ & d & _ & ->)].
Qed.

Lemma evolves_mono (dots dots' : string * N → Prop) c1 c2 :
  (∀ d, dots d → dots' d) → evolves dots c1 c2 → evolves dots' c1 c2.
Proof.
  intros Hsub [K New O]. split; [| eauto | done].
  intros id c Hc. destruct (K _ _ Hc) as (c' & Hc' & [-> | (? & d & ? & ->)]); eauto 10.
Qed.

(** A loop of steps that evolve the registry evolves it. *)
Lemma evolves_fold {A} (f : Registry → A → result V2StoreError Registry) dots l c1 c2 :
  (∀ x c c', x ∈ l → f c x = Ok c' → evolves dots c c') →
  fold_result f c1 l = Ok c2 → evolves dots c1 c2.
Proof.
  revert c1. induction l as [|x l IH]; cbn; intros c1 Hstep Hrun.
  - simplify_eq. apply evolves_refl.
  - apply bind_Ok in Hrun as (c & Hx & Hl).
    eapply evolves_trans; [apply (Hstep x); [by left | done] |].
    apply (IH c); [intros; apply (Hstep x0); [by right | done] | done].
Qed.

(** ** Enrollment *)

Lemma enrolled_client_Ok item r c :
  enrolled_client_from_item item r = Ok c →
  client_ok (client c) c ∧ is_revoked c = false ∧
  (approved_origin_id c, approved_origin_seq c) = dot r.
Proof.
  unfold enrolled_client_from_item. intros Hrun. inv_ok. boolify.
  autorewrite with result in *. cbn in *. subst.
  match goal with H : try_into_32 _ = Some _ |- _ => apply try_into_32_Some in H as [-> ?] end.
  split; [|done]. by split.
Qed.

Lemma apply_item_evolves r clients item clients' :
  apply_item r clients item = Ok clients' → evolves (λ d, d = dot r) clients clients'.
Proof.
  unfold apply_item. intros Hrun. case_decide; [|case_decide]; inv_ok;
    [| |apply evolves_refl].
  - match goal with H : enrolled_client_from_item _ _ = Ok ?x |- _ =>
      apply enrolled_client_Ok in H as (Hok & _ & Hdot); rename x into new end.
    match goal with H : is_some_b ?o = false |- _ => destruct o eqn:Hnone; [done | clear H] end.
    split.
    + intros id c Hc. exists c. rewrite lookup_insert_ne by congruence. auto.
    + intros id c' Hn. rewrite lookup_insert_Some. intros [[<- <-] | [_ ?]]; [done | congruence].
    + intros Hall id c'. rewrite lookup_insert_Some. intros [[<- <-] | [_ ?]]; auto.
  - match goal with H : clients !! ?i = Some ?x |- _ => rename i into cid, x into old, H into Hold end.
    split.
    + intros id c Hc. destruct (decide (cid = id)) as [-> | Hne].
      * rewrite Hold in Hc. injection Hc as <-. exists (revoke old (dot r)).
        rewrite lookup_insert_eq. eauto 10.
      * exists c. rewrite lookup_insert_ne by done. auto.
    + intros id c' Hn. rewrite lookup_insert_Some. intros [[<- _] | [_ ?]]; congruence.
    + intros Hall id c'. rewrite lookup_insert_Some. intros [[<- <-] | [_ ?]]; [|auto].
      destruct (Hall _ _ Hold). by split.
Qed.

Lemma apply_record_evolves clients r clients' :
  apply_record clients r = Ok clients' → evolves (chunk_dots [r]) clients clients'.
Proof.
  unfold apply_record. case_decide as Hkind; [|intros; simplify_eq; apply evolves_refl].
  destruct (record_items r) as [items|]; [|intros; simplify_eq; apply evolves_refl].
  apply evolves_fold. intros item c c' _ Hstep%apply_item_evolves.
  eapply evolves_mono; [|done]. intros d ->. exists r. by rewrite list_elem_of_singleton.
Qed.

Lemma apply_items_evolves rs clients clients' :
  apply_client_registry_items rs clients = Ok clients' →
  evolves (chunk_dots rs) clients clients'.
Proof.
  apply evolves_fold. intros r c c' Hr Hstep%apply_record_evolves.
  eapply evolves_mono; [|done]. intros d (r' & ->%list_elem_of_singleton & ? & ?). by exists r.
Qed.

(** C28: applying an origin's records to the registry never drops or replaces a
    client: each one stays as it was or becomes revoked, once and for all, at the
    dot of one of the chunk records; a new client carries the dot of one of them
    as its approval; and every identifier remains the hash of a usable key. *)
Theorem registry_evolves rs clients clients' :
  apply_client_registry_items rs clients = Ok clients' →
  registry_ok clients →
  registry_ok clients' ∧
  (∀ id c, clients !! id = Some c → ∃ c', clients' !! id = Some c' ∧
    (c' = c ∨ (is_revoked c = false ∧ ∃ d, chunk_dots rs d ∧ c' = revoke c d))) ∧
  (∀ id c', clients !! id = None → clients' !! id = Some c' →
    chunk_dots rs (approved_origin_id c', approved_origin_seq c')).
Proof. intros [Hkeep Hnew Hok]%apply_items_evolves Hclients. auto. Qed.

(** ** Client origins *)

Lemma frontier_includes_dot_true f id n :
  frontier_includes_dot f id n = true ↔
  ∃ o, o ∈ origins f ∧ Frontier.origin_id o = id ∧ (n <= Frontier.seq o)%N.
Proof.
  unfold frontier_includes_dot. rewrite existsb_exists. setoid_rewrite <- list_elem_of_In.
  setoid_rewrite andb_true_iff. setoid_rewrite bool_decide_eq_true.
  by setoid_rewrite N.leb_le.
Qed.

(** A frontier that extends another includes every dot the other includes. *)
Lemma includes_dot_extends f g id n :
  extends f g → frontier_includes_dot f id n = true → frontier_includes_dot g id n = true.
Proof.
  rewrite !frontier_includes_dot_true. intros [_ _ _ Ho] (o & Hin & <- & Hn).
  destruct (Ho o Hin) as (o' & ? & ? & ? & _). exists o'. split_and!; [done.. | lia].
Qed.

(** The causal position a client may write from. *)
Definition may_write_from (c : VerifiedV2Client) (base : CausalFrontier) : Prop :=
  frontier_includes_dot base (approved_origin_id c) (approved_origin_seq c) = true ∧
  ∀ id n, revoked_origin_id c = Some id → revoked_origin_seq c = Some n →
    frontier_includes_dot base id n = false.

Lemma validate_client_origin_Ok rs c frontiers u :
  validate_client_origin_records rs c frontiers = Ok u ↔
  rs ≠ [] ∧ ∀ r, r ∈ rs → ∃ base,
    frontiers !! causal_frontier_hash r = Some base ∧ may_write_from c base.
Proof.
  unfold validate_client_origin_records, check_client_record, may_write_from. split.
  - intros Hrun. inv_ok. boolify. split; [done |]. intros r Hr.
    match goal with H : for_each _ _ = Ok _ |- _ => rewrite for_each_Ok in H; specialize (H r Hr) end.
    inv_ok. boolify. eexists. split_and!; [done.. |].
    intros id n Hid Hn. rewrite Hid, Hn in *. inv_ok. done.
  - intros [Hrs Hall]. destruct u. apply bind_Ok. exists (). rewrite bail_if_Ok, bool_decide_eq_false.
    split; [done |]. apply for_each_Ok. intros r (base & Hb & Hincl & Hrev)%Hall.
    rewrite Hb. cbn [ok_or mbind result_bind]. rewrite Hincl. cbn [negb bail_if mbind result_bind].
    destruct (revoked_origin_id c) as [id|], (revoked_origin_seq c) as [n|]; try done.
    by rewrite (Hrev id n).
Qed.
End clients.

(** ** Examples *)

Module Examples.
#[local] Existing Instance Genesis.Examples.two_keys.

Definition second_key : VerifyingKey := (false : @VerifyingKey Genesis.Examples.two_keys).
Definition second_client : string := client_id (key_to_bytes second_key).

Definition enroll : Value := Obj [
  ("kind", Str "client_enrolled"); ("client_id", Str second_client);
  ("display_name", Str "Laptop"); ("public_key", Str (base64_encode (key_to_bytes second_key)));
  ("capabilities", Arr [Str "additive_observation"])].
Definition revoke_second : Value := Obj [
  ("kind", Str "client_revoked"); ("client_id", Str second_client)].

Definition chunk (n : N) (items : list Value) : VerifiedV2Record := {|
  record := {| envelope := {|
    Record.v := 2; Record.origin_id := Segment.Examples.origin; origin_seq := n;
    record_id := "rec_01arz3ndektsv4rrffq69g5fav"; record_kind := BatchChunk;
    time_utc_ms := 1700000000000; batch_id := "batch_01arz3ndektsv4rrffq69g5fav";
    previous_record_hash := None;
    payload := Obj [("first_item_index", Num (PosInt 0)); ("items", Arr items)] |};
    record_hash := Segment.Examples.some_hash "e" |};
  exact_line_bytes := []; record_manifest_hash := Segment.Examples.some_hash "d";
  causal_frontier_hash := Segment.Examples.some_hash "f"
|}.

Definition enrolled : VerifiedV2Client := {|
  client := second_client; display_name := "Laptop"; public_key := key_to_bytes second_key;
  capabilities := ["additive_observation"];
  approved_origin_id := Segment.Examples.origin; approved_origin_seq := 2;
  revoked_origin_id := None; revoked_origin_seq := None
|}.

Definition history : list VerifiedV2Record := [chunk 2 [enroll]; chunk 5 [revoke_second]].

Definition registry : Registry :=
  match apply_client_registry_items history ∅ with Ok clients => clients | Err _ => ∅ end.

Lemma history_applies : apply_client_registry_items history ∅ = Ok registry.
Proof.
  assert (is_ok (apply_client_registry_items history ∅) = true) as Hok
    by (vm_compute; reflexivity).
  unfold registry.
  destruct (apply_client_registry_items history ∅); [reflexivity | discriminate Hok].
Qed.

Example second_is_revoked :
  registry !! second_client = Some (revoke enrolled (Segment.Examples.origin, 5%N)).
Proof. vm_compute. reflexivity. Qed.

Lemma registry_evolves_witness : registry_ok registry.
Proof.
  apply (registry_evolves history ∅ registry history_applies).
  intros id c Hc. rewrite lookup_empty in Hc. discriminate Hc.
Defined.
End Examples.
