(* ===== verification/Coordination.v ===== *)
(** Coordination leases: the part of [v2_store.rs] that decides which operations
    need the archive's lease, what a signed lease must say, and which batches and
    publications carry one. *)
From Stdlib Require Import ZArith NArith Lia Ascii.
From stdpp Require Import base decidable list gmap strings sorting.
From S2P Require Import Prelude.
From S2P Require Import Text.
From S2P Require Import External.
From S2P Require Import Ids.
From S2P Require Import Frontier.
From S2P Require Import Record.
From S2P Require Import Genesis.
From S2P Require Import GitPolicy.
From S2P Require Import Store.
From S2P Require Import Segment.
From S2P Require Import Clients.

Definition COORDINATION_LEASE_VERSION : N := 1.

Record CoordinationLeaseBody : Type := {
  lease_v : N;
  lease_archive_id : string;
  lease_genesis_hash : string;
  scope_kind : string;
  scope_id : string;
  token_id : string;
  holder_client_id : string;
  base_frontier_hash : string;
  state : string;
  not_before_utc_ms : N;
  not_after_utc_ms : N;
  previous_lease_commit : option string;
}.

Record SignedCoordinationLease : Type := {
  lease_body : CoordinationLeaseBody;
  lease_signature : string;
}.

Definition validate_coordination_lease_body (body : CoordinationLeaseBody)
    : result V2StoreError () :=
  _ ← bail_if (negb (lease_v body =? COORDINATION_LEASE_VERSION)%N
               || str_is_empty (lease_archive_id body)
               || negb (bool_decide (scope_kind body = "archive"))
               || negb (bool_decide (scope_id body = lease_archive_id body))
               || negb (starts_with "lease_" (token_id body))
               || (not_after_utc_ms body <? not_before_utc_ms body)%N
               || negb (bool_decide (state body ∈ ["acquired"; "renewed"; "released"; "broken"])))
        (Invalid "coordination lease has invalid structural fields");
  _ ← validate_origin_id (holder_client_id body);
  _ ← validate_blake3_id "coordination genesis hash" (lease_genesis_hash body);
  validate_blake3_id "coordination base frontier hash" (base_frontier_hash body).

Definition operation_requires_coordination (operation_kind : string) : bool :=
  bool_decide (operation_kind = "archive_update")
  || bool_decide (operation_kind = "client_revoke")
  || bool_decide (operation_kind = "location_scan")
  || starts_with "site_" operation_kind
  || starts_with "policy_" operation_kind
  || starts_with "collection_" operation_kind
  || (starts_with "device_" operation_kind
      && negb (bool_decide (operation_kind ∈ ["device_checked_in"; "device_mount_observed"])))
  || starts_with "archive_root_" operation_kind
  || starts_with "location_" operation_kind
  || starts_with "risk_domain_" operation_kind
  || bool_decide (operation_kind ∈ ["risk_assigned"; "risk_unassigned"]).

(** [is_ascii_hexdigit] *)
Definition is_hex_digit (a : ascii) : bool :=
  is_lower_hex a || byte_in 65 70 a.

Definition is_commit_id (s : string) : bool :=
  bool_decide (String.length s ∈ [40; 64]) && all_bytes is_hex_digit s.

(** The member of the batch context named [coordination]. *)
Definition coordination_of (r : VerifiedV2Record) : option Value :=
  context ← value_get "context" (payload (envelope (record r))) ≫= as_object;
  assoc "coordination" context.

Section leases.
Context `{Blake3, Base64, Ed25519, ToJson CoordinationLeaseBody,
  FromValue SignedCoordinationLease}.

Definition sign_coordination_lease (body : CoordinationLeaseBody) (key : SigningKey)
    : result V2StoreError SignedCoordinationLease :=
  _ ← validate_coordination_lease_body body;
  message ← canonical_json body;
  Ok {| lease_body := body; lease_signature := base64_encode (sign key message) |}.

(** The signature check both verifications end with, in the words of the first. *)
Definition check_lease_signature (signed : SignedCoordinationLease) (c : VerifiedV2Client)
    (subject : string) : result V2StoreError () :=
  signature ← ok_or (base64_decode (lease_signature signed))
                (Invalid (subject +:+ " signature is not base64"));
  _ ← bail_if (negb (signature_from_slice signature))
        (Invalid (subject +:+ " signature has the wrong length"));
  key ← client_key c;
  message ← canonical_json (lease_body signed);
  bail_if (negb (verify_strict key message signature))
    (Invalid (subject +:+ " signature is invalid")).

(** The closure [verified] of [validate_coordination_contexts]. *)
Definition verified_proof (clients : Registry) (signed : SignedCoordinationLease)
    : result V2StoreError () :=
  _ ← validate_coordination_lease_body (lease_body signed);
  c ← ok_or (clients !! holder_client_id (lease_body signed))
        (Invalid "coordination proof holder is not enrolled");
  check_lease_signature signed c "coordination proof".

Definition verify_signed_coordination_lease (signed : SignedCoordinationLease)
    (archive genesis : string) (clients : Registry) : result V2StoreError () :=
  _ ← validate_coordination_lease_body (lease_body signed);
  _ ← bail_if (negb (bool_decide (lease_archive_id (lease_body signed) = archive))
               || negb (bool_decide (lease_genesis_hash (lease_body signed) = genesis)))
        (Invalid "coordination lease belongs to another Archive");
  c ← ok_or (clients !! holder_client_id (lease_body signed))
        (Invalid "lease holder is not enrolled");
  check_lease_signature signed c "lease".

(** The closures [string] and [number] read members of the context. *)
Definition context_string (coordination : list (string * Value)) (field : string)
    : result V2StoreError string :=
  ok_or (assoc field coordination ≫= as_str)
    (Invalid ("batch coordination context lacks " +:+ field)).
Definition context_number (coordination : list (string * Value)) (field : string)
    : result V2StoreError N :=
  ok_or (assoc field coordination ≫= as_u64)
    (Invalid ("batch coordination context lacks " +:+ field)).

(** One disjunct of a condition whose operand may return early. *)
Definition mismatch {A} `{EqDecision A} (m : result V2StoreError A) (expected : A)
    : result V2StoreError () :=
  actual ← m;
  bail_if (negb (bool_decide (actual = expected)))
    (Invalid "batch coordination context does not match its signed lease").

(** The body of the loop of [validate_coordination_contexts]; the long condition
    is its disjuncts in order. *)
Definition check_coordination (clients : Registry) (r : VerifiedV2Record)
    : result V2StoreError () :=
  let env := envelope (record r) in
  if decide (record_kind env ≠ BatchStart) then Ok () else
  match coordination_of r with
  | None => Ok ()
  | Some coordination =>
      c ← ok_or (as_object coordination)
            (Invalid "batch coordination context is not an object");
      value ← ok_or (assoc "lease_proof" c)
                (Invalid "batch coordination context lacks lease proof");
      proof ← map_err (λ error, Invalid ("batch coordination proof is invalid: " +:+ error))
                (from_value value);
      _ ← verified_proof clients proof;
      let lease := lease_body proof in
      let no_match := Invalid "batch coordination context does not match its signed lease" in
      _ ← bail_if (negb (bool_decide (state lease = "acquired"))) no_match;
      _ ← mismatch (context_string c "scope_kind") (scope_kind lease);
      _ ← mismatch (context_string c "scope_id") (scope_id lease);
      _ ← mismatch (context_string c "token_id") (token_id lease);
      _ ← mismatch (context_string c "holder_client_id") (holder_client_id lease);
      _ ← mismatch (context_string c "base_frontier_hash") (base_frontier_hash lease);
      _ ← mismatch (context_number c "not_before_utc_ms") (not_before_utc_ms lease);
      _ ← mismatch (context_number c "not_after_utc_ms") (not_after_utc_ms lease);
      _ ← bail_if (negb (bool_decide (Record.origin_id env = holder_client_id lease))
                   || negb (bool_decide (causal_frontier_hash r = base_frontier_hash lease))
                   || (time_utc_ms env <? not_before_utc_ms lease)%N
                   || (not_after_utc_ms lease <? time_utc_ms env)%N) no_match;
      lease_commit ← context_string c "lease_commit";
      _ ← bail_if (negb (is_commit_id lease_commit))
            (Invalid "batch coordination lease commit is invalid");
      remote ← context_string c "remote";
      map_err (Invalid ∘ GitPolicy.message) (validate_git_remote_name remote)
  end.

Definition validate_coordination_contexts (records : list VerifiedV2Record)
    (clients : Registry) : result V2StoreError () :=
  for_each (check_coordination clients) records.

(** [validate_protected_publication]. [now] and [current_lease_commit] are what
    the clock and the remote answered; the payload of a verified record is an
    object. *)
Definition remote_sequences (origins : list OriginFrontier) : gmap string N :=
  foldl (λ m o, <[Frontier.origin_id o := Frontier.seq o]> m) ∅ origins.

Definition unpublished (origins : list OriginFrontier) (r : VerifiedV2Record) : bool :=
  let env := envelope (record r) in
  bool_decide (record_kind env = BatchStart)
  && (default 0 (remote_sequences origins !! Record.origin_id env) <? origin_seq env)%N.

Definition requires_coordination (remote_clients : nat) (operation_kind : string) : bool :=
  operation_requires_coordination operation_kind
  || (bool_decide (operation_kind = "client_enroll") && (1 <? remote_clients)).

Definition check_publication (origins : list OriginFrontier) (remote_clients : nat) (now : N)
    (current_lease_commit : option string) (r : VerifiedV2Record) : result V2StoreError () :=
  if negb (unpublished origins r) then Ok () else
  let payload := default [] (as_object (payload (envelope (record r)))) in
  operation_kind ← string_field payload "operation_kind";
  if negb (requires_coordination remote_clients operation_kind) then Ok () else
  coordination ← ok_or (coordination_of r ≫= as_object)
    (Invalid ("protected operation " +:+ operation_kind +:+ " lacks a coordination lease"));
  lease_commit ← ok_or (assoc "lease_commit" coordination ≫= as_str)
                   (Invalid "protected operation lacks lease commit");
  not_before ← ok_or (assoc "not_before_utc_ms" coordination ≫= as_u64)
                 (Invalid "protected operation lacks lease start");
  not_after ← ok_or (assoc "not_after_utc_ms" coordination ≫= as_u64)
                (Invalid "protected operation lacks lease expiry");
  bail_if (negb (bool_decide (current_lease_commit = Some lease_commit))
           || (now <? not_before)%N || (not_after <? now)%N)
    (Invalid ("protected operation " +:+ operation_kind
              +:+ " cannot publish because its coordination lease is not current")).

Definition validate_protected_publication (records : list VerifiedV2Record)
    (remote_origins : list OriginFrontier) (remote_clients : Registry)
    (now : result V2StoreError N) (current_lease_commit : result V2StoreError (option string))
    : result V2StoreError () :=
  if decide (size remote_clients <= 1) then Ok () else
  now ← now;
  current_lease_commit ← current_lease_commit;
  for_each (check_publication remote_origins (size remote_clients) now current_lease_commit)
    records.

(** ** Specification *)

(** A lease body the program writes and accepts. *)
Record lease_ok (body : CoordinationLeaseBody) : Prop := {
  ok_version : lease_v body = COORDINATION_LEASE_VERSION;
  ok_scope : scope_kind body = "archive" ∧ scope_id body = lease_archive_id body ∧
    lease_archive_id body ≠ "";
  ok_token : starts_with "lease_" (token_id body) = true;
  ok_window : (not_before_utc_ms body <= not_after_utc_ms body)%N;
  ok_state : state body ∈ ["acquired"; "renewed"; "released"; "broken"];
  ok_holder : is_origin_id (holder_client_id body) = true;
  ok_hashes : is_blake3_identifier (lease_genesis_hash body) = true ∧
    is_blake3_identifier (base_frontier_hash body) = true;
}.

Lemma validate_lease_Ok body u :
  validate_coordination_lease_body body = Ok u ↔ lease_ok body.
Proof.
  destruct u. unfold validate_coordination_lease_body. split.
  - intros Hrun. inv_ok. boolify. autorewrite with result in *. by split.
  - intros [? [? []] ? ? ? ? []]. run_ok. autorewrite with result. done.
Qed.

(** [c] signed the lease. *)
Definition signed_by (signed : SignedCoordinationLease) (c : VerifiedV2Client) : Prop :=
  ∃ key signature message, key_from_bytes (public_key c) = Some key ∧
    base64_decode (lease_signature signed) = Some signature ∧
    to_json (lease_body signed) = Ok message ∧ verify_strict key message signature = true.

Lemma check_lease_signature_Ok signed c subject u :
  check_lease_signature signed c subject = Ok u → signed_by signed c.
Proof.
  unfold check_lease_signature, client_key. intros Hrun. inv_ok. boolify.
  autorewrite with result in *. do 3 eexists. by split_and!.
Qed.

Lemma mismatch_Ok {A} `{EqDecision A} (m : result V2StoreError A) expected u :
  mismatch m expected = Ok u ↔ m = Ok expected.
Proof.
  unfold mismatch. rewrite bind_Ok. setoid_rewrite bail_if_Ok. setoid_rewrite negb_false_iff.
  setoid_rewrite bool_decide_eq_true. naive_solver.
Qed.

(** What a batch start with a coordination context proves. *)
Record coordinated (clients : Registry) (r : VerifiedV2Record)
    (proof : SignedCoordinationLease) : Prop := {
  co_lease : lease_ok (lease_body proof);
  co_acquired : state (lease_body proof) = "acquired";
  co_holder : Record.origin_id (envelope (record r)) = holder_client_id (lease_body proof);
  co_signed : ∃ c, clients !! Record.origin_id (envelope (record r)) = Some c ∧
    signed_by proof c;
  co_base : causal_frontier_hash r = base_frontier_hash (lease_body proof);
  co_time : (not_before_utc_ms (lease_body proof) <= time_utc_ms (envelope (record r))
             <= not_after_utc_ms (lease_body proof))%N;
}.

Lemma context_str (o : option Value) (e : V2StoreError) s :
  ok_or (o ≫= as_str) e = Ok s → o = Some (Str s).
Proof. rewrite ok_or_Ok. destruct o as [[]|]; cbn; intros [= ->]; done. Qed.

(** C29: when an archive's coordination contexts are accepted, every batch start
    that claims coordination carries a lease proof that its own client, enrolled
    in the archive, signed as acquired; the record was written from the frontier
    the lease names and inside the lease's time window, and the claimed fields are
    those of the signed lease. *)
Theorem coordination_contexts_sound records clients r value :
  validate_coordination_contexts records clients = Ok () →
  r ∈ records → record_kind (envelope (record r)) = BatchStart →
  coordination_of r = Some value →
  ∃ members proof, value = Obj members ∧
    (∃ json, assoc "lease_proof" members = Some json ∧ from_value json = Ok proof) ∧
    coordinated clients r proof ∧
    assoc "token_id" members = Some (Str (token_id (lease_body proof))) ∧
    assoc "holder_client_id" members = Some (Str (holder_client_id (lease_body proof))).
Proof.
  unfold validate_coordination_contexts. rewrite for_each_Ok. intros Hall Hr Hkind Hcoord.
  specialize (Hall r Hr). unfold check_coordination in Hall.
  rewrite decide_False, Hcoord in Hall by (intros Hn; by apply Hn). inv_ok. boolify.
  rewrite !mismatch_Ok in *.
  destruct value as [| | | | |members]; try done.
  match goal with H : as_object _ = Some _ |- _ => injection H as <- end.
  unfold context_string in *.
  match goal with H : verified_proof _ ?p = Ok _ |- _ =>
    unfold verified_proof in H; apply bind_Ok in H as ([] & Hlease & (c & Hc%ok_or_Ok & Hsig)%bind_Ok);
    rename p into proof end.
  exists members, proof. split_and!; [done | eauto | | |].
  - apply validate_lease_Ok in Hlease. apply check_lease_signature_Ok in Hsig.
    split; try done. exists c. split; [congruence | done].
  - match goal with H : ok_or (assoc "token_id" _ ≫= _) _ = _ |- _ =>
      by apply context_str in H end.
  - match goal with H : ok_or (assoc "holder_client_id" _ ≫= _) _ = _ |- _ =>
      by apply context_str in H end.
Qed.

Lemma remote_sequences_lt os id n :
  (∀ o, o ∈ os → Frontier.origin_id o = id → (Frontier.seq o < n)%N) → (0 < n)%N →
  (default 0 (remote_sequences os !! id) < n)%N.
Proof.
  intros Hos Hn. unfold remote_sequences.
  enough (∀ m : gmap string N, (default 0 (m !! id) < n)%N →
    (default 0 (foldl (λ m o, <[Frontier.origin_id o := Frontier.seq o]> m) m os !! id) < n)%N)
    as Hgen by (apply Hgen; by rewrite lookup_empty).
  induction os as [|o os IH]; cbn; intros m Hm; [done |]. apply IH; [set_solver |].
  destruct (decide (Frontier.origin_id o = id)) as [Hid | Hid].
  - rewrite Hid, lookup_insert_eq. apply Hos; [by left | done].
  - by rewrite lookup_insert_ne.
Qed.

Lemma as_u64_Some o (e : V2StoreError) n :
  ok_or (o ≫= as_u64) e = Ok n → o = Some (Num (PosInt n)).
Proof. rewrite ok_or_Ok. destruct o as [[| |[]| | |]|]; cbn; intros [= ->]; done. Qed.

Lemma as_object_Some (o : option Value) (e : V2StoreError) members :
  ok_or (o ≫= as_object) e = Ok members → o = Some (Obj members).
Proof. rewrite ok_or_Ok. destruct o as [[]|]; cbn; intros [= ->]; done. Qed.

(** C30: with more than one client on the remote, a publication is let through
    only if every protected batch it adds names the lease commit the remote holds
    at that moment and the clock is inside the lease's window; client enrollment
    counts as protected. *)
Theorem protected_publication_sound records origins clients now current r kind :
  validate_protected_publication records origins clients (Ok now) (Ok current) = Ok () →
  1 < size clients → r ∈ records →
  record_kind (envelope (record r)) = BatchStart →
  (∀ o, o ∈ origins → Frontier.origin_id o = Record.origin_id (envelope (record r)) →
    (Frontier.seq o < origin_seq (envelope (record r)))%N) →
  (0 < origin_seq (envelope (record r)))%N →
  value_get "operation_kind" (payload (envelope (record r))) = Some (Str kind) →
  operation_requires_coordination kind = true ∨ kind = "client_enroll" →
  ∃ members commit not_before not_after,
    coordination_of r = Some (Obj members) ∧ current = Some commit ∧
    assoc "lease_commit" members = Some (Str commit) ∧
    assoc "not_before_utc_ms" members = Some (Num (PosInt not_before)) ∧
    assoc "not_after_utc_ms" members = Some (Num (PosInt not_after)) ∧
    (not_before <= now <= not_after)%N.
Proof.
  unfold validate_protected_publication. intros Hrun Hsize Hr Hstart Hnew Hpos Hkind Hreq.
  rewrite decide_False in Hrun by lia. cbn [mbind result_bind] in Hrun.
  rewrite for_each_Ok in Hrun. specialize (Hrun r Hr). unfold check_publication in Hrun.
  assert (unpublished origins r = true) as Hunp.
  { apply andb_true_iff. split; [by apply bool_decide_eq_true |].
    apply N.ltb_lt. by apply remote_sequences_lt. }
  rewrite Hunp in Hrun. cbn [negb] in Hrun.
  destruct (payload (envelope (record r))) as [| | | | |fields] eqn:Hpayload; try done.
  unfold string_field in Hrun.
  change (assoc "operation_kind" fields = Some (Str kind)) in Hkind.
  change (default [] (as_object (Obj fields))) with fields in Hrun.
  rewrite Hkind in Hrun. cbn [mbind option_bind result_bind ok_or as_str] in Hrun.
  assert (requires_coordination (size clients) kind = true) as Hreqs.
  { apply orb_true_iff. destruct Hreq as [? | ->]; [by left | right].
    by rewrite (proj2 (Nat.ltb_lt _ _) Hsize). }
  rewrite Hreqs in Hrun. cbn [negb] in Hrun.
  apply bind_Ok in Hrun as (members & Hc%as_object_Some & Hrun).
  apply bind_Ok in Hrun as (commit & Hcommit%context_str & Hrun).
  apply bind_Ok in Hrun as (before & Hb%as_u64_Some & Hrun).
  apply bind_Ok in Hrun as (after & Ha%as_u64_Some & Hrun).
  inv_ok. boolify. exists members, commit, before, after. by split_and!.
Qed.
End leases.

(** ** Examples *)

Module Examples.
#[local] Existing Instance Genesis.Examples.two_keys.

Definition lease : CoordinationLeaseBody := {|
  lease_v := 1; lease_archive_id := "archive_1"; lease_genesis_hash := Segment.Examples.some_hash "c";
  scope_kind := "archive"; scope_id := "archive_1"; token_id := "lease_1";
  holder_client_id := Clients.Examples.second_client;
  base_frontier_hash := Segment.Examples.some_hash "f"; state := "acquired";
  not_before_utc_ms := 1000; not_after_utc_ms := 121000; previous_lease_commit := None
|}.

#[local] Instance lease_json : ToJson CoordinationLeaseBody := {
  to_json body := Ok (as_bytes (token_id body)) }.

Definition proof : SignedCoordinationLease := {|
  lease_body := lease; lease_signature := "blease_1" |}.

#[local] Instance lease_from_value : FromValue SignedCoordinationLease := {
  from_value _ := Ok proof }.

Definition commit : string := of_bytes (replicate 40 "a"%char).

Definition members : list (string * Value) := [
  ("lease_proof", Null); ("scope_kind", Str "archive"); ("scope_id", Str "archive_1");
  ("token_id", Str "lease_1"); ("holder_client_id", Str Clients.Examples.second_client);
  ("base_frontier_hash", Str (Segment.Examples.some_hash "f"));
  ("not_before_utc_ms", Num (PosInt 1000)); ("not_after_utc_ms", Num (PosInt 121000));
  ("lease_commit", Str commit); ("remote", Str "origin")].

Definition start : VerifiedV2Record := {|
  record := {| envelope := {|
    Record.v := 2; Record.origin_id := Clients.Examples.second_client; origin_seq := 4;
    record_id := "rec_01arz3ndektsv4rrffq69g5fav"; record_kind := BatchStart;
    time_utc_ms := 2000; batch_id := "batch_01arz3ndektsv4rrffq69g5fav";
    previous_record_hash := None;
    payload := Obj [("operation_kind", Str "location_scan");
                    ("context", Obj [("coordination", Obj members)])] |};
    record_hash := Segment.Examples.some_hash "e" |};
  exact_line_bytes := []; record_manifest_hash := Segment.Examples.some_hash "d";
  causal_frontier_hash := Segment.Examples.some_hash "f"
|}.

Definition registry : Registry := {[
  Clients.Examples.second_client := Clients.Examples.enrolled;
  Segment.Examples.origin := Clients.Examples.enrolled ]}.

Lemma coordination_contexts_sound_witness :
  ∃ found proof, Obj members = Obj found ∧
    (∃ json, assoc "lease_proof" found = Some json ∧ from_value json = Ok proof) ∧
    coordinated registry start proof ∧
    assoc "token_id" found = Some (Str (token_id (lease_body proof))) ∧
    assoc "holder_client_id" found = Some (Str (holder_client_id (lease_body proof))).
Proof.
  apply (coordination_contexts_sound [start] registry start (Obj members)).
  - vm_compute. reflexivity.
  - by apply list_elem_of_singleton.
  - reflexivity.
  - reflexivity.
Defined.

Lemma protected_publication_sound_witness :
  ∃ found commit' not_before not_after,
    coordination_of start = Some (Obj found) ∧ Some commit = Some commit' ∧
    assoc "lease_commit" found = Some (Str commit') ∧
    assoc "not_before_utc_ms" found = Some (Num (PosInt not_before)) ∧
    assoc "not_after_utc_ms" found = Some (Num (PosInt not_after)) ∧
    (not_before <= 3000 <= not_after)%N.
Proof.
  apply (protected_publication_sound [start] [] registry 3000 (Some commit) start "location_scan").
  - vm_compute. reflexivity.
  - vm_compute. lia.
  - by apply list_elem_of_singleton.
  - reflexivity.
  - intros o Ho. by apply elem_of_nil in Ho.
  - vm_compute. reflexivity.
  - reflexivity.
  - left. reflexivity.
Defined.
End Examples.
