(* ===== verification/Batches.v ===== *)
(** Complete batches: [verify_batches] of [v2_store.rs]. The records of an archive
    group into batches of one start, its chunks and one completion, which the
    batch validator then checks. *)
From Stdlib Require Import ZArith NArith Lia Ascii.
From stdpp Require Import base decidable list gmap strings sorting.
From S2P Require Import Prelude.
From S2P Require Import Text.
From S2P Require Import External.
From S2P Require Import Ids.
From S2P Require Import Batch.
From S2P Require Import Record.
From S2P Require Import Store.
From S2P Require Import Segment.
From S2P Require Import Clients.

(** [VerifiedBatchRecords] *)
Record VerifiedBatchRecords : Type := {
  start : option VerifiedV2Record;
  chunks : list VerifiedV2Record;
  complete : option VerifiedV2Record;
}.

Definition no_records : VerifiedBatchRecords :=
  {| start := None; chunks := []; complete := None |}.

Definition id_of (r : VerifiedV2Record) : string := batch_id (envelope (record r)).
Definition origin_of (r : VerifiedV2Record) : string := Record.origin_id (envelope (record r)).
Definition seq_of (r : VerifiedV2Record) : N := origin_seq (envelope (record r)).

(** The body of the loop that groups the records. *)
Definition collect_record (batches : gmap string VerifiedBatchRecords) (r : VerifiedV2Record)
    : result V2StoreError (gmap string VerifiedBatchRecords) :=
  let duplicate := Invalid ("batch " +:+ id_of r +:+ " has duplicate control records") in
  let entry := default no_records (batches !! id_of r) in
  match record_kind (envelope (record r)) with
  | BatchStart =>
      _ ← bail_if (is_some_b (start entry)) duplicate;
      Ok (<[id_of r := {| start := Some r; chunks := chunks entry;
                          complete := complete entry |}]> batches)
  | BatchChunk =>
      Ok (<[id_of r := {| start := start entry; chunks := chunks entry ++ [r];
                          complete := complete entry |}]> batches)
  | BatchComplete =>
      _ ← bail_if (is_some_b (complete entry)) duplicate;
      Ok (<[id_of r := {| start := start entry; chunks := chunks entry;
                          complete := Some r |}]> batches)
  end.

(** [payload.as_object().expect(..)]: the record parser checked it. *)
Definition payload_object (r : VerifiedV2Record) : list (string * Value) :=
  default [] (as_object (payload (envelope (record r)))).

Section batches.
Context `{Blake3}.

(** What the loop over the chunks hands to the validator. *)
Definition chunk_descriptor (batch : string) (chunk : VerifiedV2Record)
    : result V2StoreError BatchChunkDescriptor :=
  first ← u64_field (payload_object chunk) "first_item_index";
  items ← ok_or (assoc "items" (payload_object chunk) ≫= as_array)
            (Invalid ("batch " +:+ batch +:+ " chunk items are invalid"));
  count ← ok_or (if (N.of_nat (length items) <=? u32_max)%N
                 then Some (N.of_nat (length items)) else None)
            (Invalid "batch item count overflow");
  Ok {| chunk_batch_id := batch; first_item_index := first; item_count := count;
        serialized_bytes := N.of_nat (length (exact_line_bytes chunk));
        Batch.record_hash := Record.record_hash (record chunk) |}.

(** The body of the loop over the chunks; the local is [validator]. *)
Definition accept_record (batch : string) (validator : BatchValidator)
    (chunk : VerifiedV2Record) : result V2StoreError BatchValidator :=
  descriptor ← chunk_descriptor batch chunk;
  match accept_chunk descriptor validator with
  | (Ok _, validator) => Ok validator
  | (Err e, _) => Err (BatchErr e)
  end.

Definition check_batch (batch : string) (entry : VerifiedBatchRecords)
    : result V2StoreError () :=
  start ← ok_or (start entry) (Invalid ("batch " +:+ batch +:+ " has no start"));
  complete ← ok_or (complete entry) (Invalid ("batch " +:+ batch +:+ " has no completion"));
  _ ← bail_if (negb (bool_decide (origin_of complete = origin_of start))
               || (seq_of complete <=? seq_of start)%N
               || existsb (λ chunk, negb (bool_decide (origin_of chunk = origin_of start))
                                    || (seq_of chunk <=? seq_of start)%N
                                    || (seq_of complete <=? seq_of chunk)%N) (chunks entry))
        (Invalid ("batch " +:+ batch +:+ " crosses origins or has invalid record ordering"));
  causal ← string_field (payload_object start) "causal_frontier_hash";
  _ ← bail_if (negb (bool_decide (causal = causal_frontier_hash start)))
        (Invalid ("batch " +:+ batch
                  +:+ " causal frontier does not match its segment manifest"));
  validator ← map_err BatchErr (new batch default_limits);
  validator ← fold_result (accept_record batch) validator (chunks entry);
  total ← u64_field (payload_object complete) "total_items";
  digest ← string_field (payload_object complete) "ordered_item_digest";
  _ ← map_err BatchErr (validate_completion validator
        {| total_items := total; completion_digest := digest |});
  status ← string_field (payload_object complete) "status";
  bail_if (negb (bool_decide (status = "complete")))
    (Invalid ("batch " +:+ batch +:+ " is not complete")).

Definition verify_batches (records : list VerifiedV2Record) : result V2StoreError () :=
  batches ← fold_result collect_record ∅ records;
  for_each (λ batch, check_batch batch (default no_records (batches !! batch)))
    (btree_keys batches).

(** ** Specification *)

(** The records of a batch that have one kind, in stream order. *)
Definition of_kind (k : V2RecordKind) (batch : string) (rs : list VerifiedV2Record)
    : list VerifiedV2Record :=
  filter (λ r, id_of r = batch ∧ record_kind (envelope (record r)) = k) rs.

(** A batch is one start, consecutive chunks and one completion that declares
    exactly those chunks, all of one origin and in this order. *)
Record batch_complete (rs : list VerifiedV2Record) (batch : string)
    (start complete : VerifiedV2Record) (ds : list BatchChunkDescriptor) : Prop := {
  bc_start : of_kind BatchStart batch rs = [start];
  bc_complete : of_kind BatchComplete batch rs = [complete];
  bc_order : origin_of complete = origin_of start ∧ (seq_of start < seq_of complete)%N;
  bc_chunks : ∀ c, c ∈ of_kind BatchChunk batch rs →
    origin_of c = origin_of start ∧ (seq_of start < seq_of c < seq_of complete)%N;
  bc_causal : assoc "causal_frontier_hash" (payload_object start)
              = Some (Str (causal_frontier_hash start));
  bc_descriptors :
    Forall2 (λ c d, chunk_descriptor batch c = Ok d) (of_kind BatchChunk batch rs) ds;
  bc_consecutive : consecutive batch default_limits 0 ds ∧ ds ≠ [];
  bc_total : assoc "total_items" (payload_object complete) = Some (Num (PosInt (items ds)));
  bc_digest : assoc "ordered_item_digest" (payload_object complete)
              = Some (Str (blake3_identifier (batch_preimage ds)));
  bc_status : assoc "status" (payload_object complete) = Some (Str "complete");
}.

(** A batch is complete among any records that hold the same records of it. *)
Lemma batch_complete_ext rs rs' batch start complete ds :
  (∀ k, of_kind k batch rs' = of_kind k batch rs) →
  batch_complete rs batch start complete ds → batch_complete rs' batch start complete ds.
Proof. intros Hext []. by split; rewrite ?Hext. Qed.

Lemma of_kind_app k batch rs rs' :
  of_kind k batch (rs ++ rs') = of_kind k batch rs ++ of_kind k batch rs'.
Proof. apply filter_app. Qed.

Lemma of_kind_none k batch rs : (∀ r, r ∈ rs → id_of r ≠ batch) → of_kind k batch rs = [].
Proof. intros Hn. apply filter_none. intros r Hr [Hid _]. by apply (Hn r). Qed.

(** The batches of two runs of records are complete in the whole, but for an identifier that
    both runs use. *)
Lemma batches_app rs rs' :
  (∀ r, r ∈ rs → ∃ start complete ds, batch_complete rs (id_of r) start complete ds) →
  (∀ r, r ∈ rs' → ∃ start complete ds, batch_complete rs' (id_of r) start complete ds) →
  ∀ r, r ∈ rs ++ rs' →
  (∃ start complete ds, batch_complete (rs ++ rs') (id_of r) start complete ds) ∨
  (∃ r1 r2, r1 ∈ rs ∧ r2 ∈ rs' ∧ id_of r1 = id_of r ∧ id_of r2 = id_of r).
Proof.
  intros Hl Hr r [Hin | Hin]%elem_of_app.
  - destruct (decide (Exists (λ r', id_of r' = id_of r) rs')) as [(r' & ? & ?)%Exists_exists | Hn];
      [right; by exists r, r' | left].
    destruct (Hl r Hin) as (start & complete & ds & Hb). exists start, complete, ds.
    apply (batch_complete_ext rs); [|done]. intros k. rewrite of_kind_app, (of_kind_none k _ rs').
    + apply app_nil_r.
    + intros r' Hr' Hid. apply Hn, Exists_exists. eauto.
  - destruct (decide (Exists (λ r', id_of r' = id_of r) rs)) as [(r' & ? & ?)%Exists_exists | Hn];
      [right; by exists r', r | left].
    destruct (Hr r Hin) as (start & complete & ds & Hb). exists start, complete, ds.
    apply (batch_complete_ext rs'); [|done]. intros k. rewrite of_kind_app, (of_kind_none k _ rs).
    + done.
    + intros r' Hr' Hid. apply Hn, Exists_exists. eauto.
Qed.

(** ** Grouping *)

(** The map holds exactly the records seen so far, each under its batch. *)
Definition grouped (seen : list VerifiedV2Record)
    (batches : gmap string VerifiedBatchRecords) : Prop :=
  (∀ id, let entry := default no_records (batches !! id) in
    option_list (start entry) = of_kind BatchStart id seen ∧
    chunks entry = of_kind BatchChunk id seen ∧
    option_list (complete entry) = of_kind BatchComplete id seen) ∧
  (∀ r, r ∈ seen → is_Some (batches !! id_of r)).

Lemma of_kind_snoc k id seen r :
  of_kind k id (seen ++ [r]) =
  of_kind k id seen ++
    (if decide (id_of r = id ∧ record_kind (envelope (record r)) = k) then [r] else []).
Proof. unfold of_kind. rewrite filter_app. done. Qed.

Lemma collect_record_grouped seen batches r batches' :
  grouped seen batches → collect_record batches r = Ok batches' → grouped (seen ++ [r]) batches'.
Proof.
  intros [Hids Hsome] Hrun. unfold collect_record in Hrun.
  assert (∃ entry', batches' = <[id_of r := entry']> batches ∧
    option_list (start entry') = of_kind BatchStart (id_of r) (seen ++ [r]) ∧
    chunks entry' = of_kind BatchChunk (id_of r) (seen ++ [r]) ∧
    option_list (complete entry') = of_kind BatchComplete (id_of r) (seen ++ [r]))
    as (entry' & -> & Hentry).
  { specialize (Hids (id_of r)) as (Hs & Hc & Hd). rewrite !of_kind_snoc, <- Hs, <- Hc, <- Hd.
    destruct (record_kind (envelope (record r))); inv_ok; eexists; (split; [done |]);
      rewrite ?(decide_True _ _ (conj eq_refl eq_refl)), ?decide_False by naive_solver;
      cbn [start chunks complete]; rewrite ?app_nil_r; split_and!; try done;
      match goal with Hn : is_some_b ?o = false |- _ => by destruct o end. }
  split.
  - intros id. destruct (decide (id_of r = id)) as [<- | Hne].
    + by rewrite lookup_insert_eq.
    + rewrite lookup_insert_ne by done. specialize (Hids id). rewrite !of_kind_snoc.
      rewrite !decide_False, !app_nil_r by naive_solver. done.
  - intros r' [Hr' | ->%list_elem_of_singleton]%elem_of_app.
    + destruct (decide (id_of r = id_of r')) as [<- | Hne]; [by rewrite lookup_insert_eq |].
      rewrite lookup_insert_ne by done. auto.
    + by rewrite lookup_insert_eq.
Qed.

Lemma collect_grouped rs batches :
  fold_result collect_record ∅ rs = Ok batches → grouped rs batches.
Proof.
  apply fold_result_ind; [|intros seen r b b' Hb Hr; by eapply collect_record_grouped].
  split; [|set_solver]. intros id. rewrite lookup_empty. done.
Qed.

(** ** Checking one batch *)

Lemma accept_records_Ok batch cs v v' :
  fold_result (accept_record batch) v cs = Ok v' →
  ∃ ds, Forall2 (λ c d, chunk_descriptor batch c = Ok d) cs ds ∧
    is_ok (accept_all ds v).1 = true ∧ (accept_all ds v).2 = v'.
Proof.
  revert v. induction cs as [|c cs IH]; cbn; intros v Hrun.
  - simplify_eq. by exists [].
  - apply bind_Ok in Hrun as (v1 & Hstep & Hrun). unfold accept_record in Hstep.
    apply bind_Ok in Hstep as (d & Hd & Hstep).
    destruct (accept_chunk d v) as [[[]|e] v2] eqn:Ha; [|done]. injection Hstep as ->.
    apply IH in Hrun as (ds & Hds & Hok & Hv). exists (d :: ds).
    unfold accept_all in *. cbn [st_map]. unfold mbind, st_bind. rewrite Ha.
    destruct (st_map accept_chunk ds v1) as [[ys|e] v3]; cbn in *; [|done].
    split_and!; [by constructor | done | done].
Qed.

Section laws.
Context `{!Blake3Laws}.

Lemma accept_records_complete batch cs v v' total digest :
  new batch default_limits = Ok v →
  fold_result (accept_record batch) v cs = Ok v' →
  validate_completion v' {| total_items := total; completion_digest := digest |} = Ok () →
  ∃ ds, Forall2 (λ c d, chunk_descriptor batch c = Ok d) cs ds ∧
    (consecutive batch default_limits 0 ds ∧ ds ≠ []) ∧ total = items ds ∧
    digest = blake3_identifier (batch_preimage ds).
Proof.
  intros Hnew (ds & Hds & Hok & <-)%accept_records_Ok Hcomp. exists ds.
  assert (consecutive batch default_limits 0 ds) as Hcons by (by apply (accept_all_spec _ _ _ _ Hnew)).
  by apply (completion_Ok batch default_limits) in Hcomp as (? & ? & ?).
Qed.

Lemma string_field_Ok object field s :
  string_field object field = Ok s ↔ assoc field object = Some (Str s).
Proof.
  unfold string_field. rewrite ok_or_Ok.
  destruct (assoc field object) as [[]|]; cbn; split; congruence.
Qed.

Lemma u64_field_Ok object field n :
  u64_field object field = Ok n ↔ assoc field object = Some (Num (PosInt n)).
Proof.
  unfold u64_field. rewrite ok_or_Ok.
  destruct (assoc field object) as [[| |[]| | |]|]; cbn; split; congruence.
Qed.

Lemma existsb_false {A} (f : A → bool) l : existsb f l = false ↔ ∀ x, x ∈ l → f x = false.
Proof.
  rewrite <- not_true_iff_false, existsb_exists. setoid_rewrite <- list_elem_of_In. split.
  - intros Hn x Hx. apply not_true_iff_false. eauto.
  - intros Hall (x & Hx & Hf). by rewrite (Hall x Hx) in Hf.
Qed.

Lemma check_batch_complete rs batches batch u :
  grouped rs batches →
  check_batch batch (default no_records (batches !! batch)) = Ok u →
  ∃ start complete ds, batch_complete rs batch start complete ds.
Proof.
  intros [Hids _] Hrun. destruct (Hids batch) as (Hs & Hc & Hd).
  set (entry := default no_records (batches !! batch)) in *. clearbody entry.
  unfold check_batch in Hrun. inv_ok. boolify.
  rewrite !string_field_Ok, !u64_field_Ok, existsb_false in *.
  match goal with Hn : new _ _ = Ok _, Ha : fold_result _ _ _ = Ok _,
    Hv : validate_completion _ _ = Ok _ |- _ =>
    destruct (accept_records_complete _ _ _ _ _ _ Hn Ha Hv) as (ds & ? & ? & ? & ?) end.
  match goal with H1 : start _ = Some ?s, H2 : complete _ = Some ?c |- _ =>
    rewrite H1 in Hs; rewrite H2 in Hd; exists s, c, ds end.
  split; subst; rewrite <- ?Hc; try done.
  intros c Hin. match goal with Hall : ∀ x, x ∈ chunks entry → _ |- _ => specialize (Hall c Hin) end.
  boolify. by split_and!.
Qed.

Lemma verify_batches_Ok rs u :
  verify_batches rs = Ok u → ∀ r, r ∈ rs →
  ∃ start complete ds, batch_complete rs (id_of r) start complete ds.
Proof.
  unfold verify_batches. intros (batches & Hfold & Hall)%bind_Ok r Hr.
  pose proof (collect_grouped _ _ Hfold) as Hg. rewrite for_each_Ok in Hall.
  eapply (check_batch_complete rs batches); [done |]. apply Hall.
  apply elem_of_btree_keys. by apply Hg.
Qed.

(** C22: when an archive's batches are accepted, every record belongs to one
    complete batch: a single start and a single completion of one origin with all
    its chunks between them, the chunks covering consecutive items from zero
    within the limits, and the completion declaring exactly their number and the
    digest of their ranges and record hashes. *)
Theorem verify_batches_complete rs r :
  verify_batches rs = Ok () → r ∈ rs →
  ∃ start complete ds, batch_complete rs (id_of r) start complete ds.
Proof. intros Hrun. by apply (verify_batches_Ok rs ()). Qed.
End laws.
End batches.

(** ** Examples *)

Module Examples.
Definition batch : string := "batch_01arz3ndektsv4rrffq69g5fav".

Definition entry (n : N) (kind : V2RecordKind) (members : list (string * Value))
    : VerifiedV2Record := {|
  record := {| envelope := {|
    Record.v := 2; Record.origin_id := Segment.Examples.origin; origin_seq := n;
    record_id := "rec_01arz3ndektsv4rrffq69g5fav"; record_kind := kind;
    time_utc_ms := 1700000000000; batch_id := batch; previous_record_hash := None;
    payload := Obj members |};
    Record.record_hash := Segment.Examples.some_hash "e" |};
  exact_line_bytes := as_bytes "{}"; record_manifest_hash := Segment.Examples.some_hash "d";
  causal_frontier_hash := Segment.Examples.some_hash "f"
|}.

Definition described : list BatchChunkDescriptor := [{|
  chunk_batch_id := batch; first_item_index := 0; item_count := 2; serialized_bytes := 2;
  Batch.record_hash := Segment.Examples.some_hash "e" |}].

Definition history : list VerifiedV2Record := [
  entry 4 BatchStart [("causal_frontier_hash", Str (Segment.Examples.some_hash "f"))];
  entry 5 BatchChunk [("first_item_index", Num (PosInt 0)); ("items", Arr [Null; Null])];
  entry 6 BatchComplete [("total_items", Num (PosInt 2));
    ("ordered_item_digest", Str (blake3_identifier (batch_preimage described)));
    ("status", Str "complete")]].

Lemma verify_batches_complete_witness :
  ∃ start complete ds, batch_complete history batch start complete ds.
Proof.
  apply (verify_batches_complete history
           (entry 5 BatchChunk [("first_item_index", Num (PosInt 0)); ("items", Arr [Null; Null])])).
  - vm_compute. reflexivity.
  - right. left.
Defined.
End Examples.
