(* ===== verification/Archive.v ===== *)
(** A verified archive: [V2OriginStore::verify] of [v2_store.rs], which puts the
    genesis, the frontier graph, the origins, the client registry, the leases and
    the batches together, and [union_frontier], which merges two verified
    archives. *)
From Stdlib Require Import ZArith NArith Lia Ascii.
From stdpp Require Import base decidable list gmap strings sorting.
From S2P Require Import Prelude.
From S2P Require Import Text.
From S2P Require Import External.
From S2P Require Import Ids.
From S2P Require Import Frontier.
From S2P Require Import Record.
From S2P Require Import Genesis.
From S2P Require Import Store.
From S2P Require Import Segment.
From S2P Require Import FrontierGraph.
From S2P Require Import Clients.
From S2P Require Import Coordination.
From S2P Require Import Batches.

Record VerifiedV2Archive : Type := {
  genesis : SignedGenesis;
  archive_genesis_hash : string;
  accepted_frontier : CausalFrontier;
  accepted_frontier_hash : string;
  records : list VerifiedV2Record;
  archive_record_count : N;
  clients : Registry;
  frontiers : gmap string CausalFrontier;
  segment_count : N;
  frontier_count : N;
}.

Definition genesis_archive_id (g : SignedGenesis) : string := Genesis.archive_id (body g).

(** [origins.iter().find(|origin| origin.origin_id == id)] *)
Definition find_origin (origins : list OriginFrontier) (id : string) : option OriginFrontier :=
  head (filter (λ o, Frontier.origin_id o = id) origins).

(** The locals of the enrollment loop. *)
Record Enrollment : Type := {
  e_clients : Registry;
  e_records : list VerifiedV2Record;
  e_segments : N;
  e_pending : list string;
}.

Section verify.
Context `{Blake3, UlidCrate, Base64, Ed25519,
  FromJson V2RecordEnvelope, ToJson SegmentManifestBody, ToJson SignedSegmentManifest,
  FromJson SignedSegmentManifest, ToJson GenesisBody, ToJson SignedGenesis,
  FromJson SignedGenesis, ToJson CausalFrontier, FromJson CausalFrontier,
  ToJson CoordinationLeaseBody, FromValue SignedCoordinationLease}.

(** Reading [genesis.json] and [frontiers/v2/HEAD]. *)
Definition read_genesis (root : Tree) : result V2StoreError (SignedGenesis * string) :=
  b ← read_file root "genesis.json";
  genesis ← parse_json "genesis.json" b;
  _ ← map_err GenesisErr (verify genesis);
  canonical ← map_err GenesisErr (Genesis.canonical_bytes genesis);
  _ ← bail_if (negb (bool_decide (canonical = b)))
        (Invalid "genesis.json does not use deterministic bytes");
  hash ← map_err GenesisErr (Genesis.genesis_hash genesis);
  Ok (genesis, hash).

Definition newline : string := String "010" "".

Definition read_head (root : Tree) : result V2StoreError string :=
  b ← read_file root "frontiers/v2/HEAD";
  _ ← bail_if (negb (is_utf8 b)) (Invalid "frontier HEAD is not UTF-8");
  let head := of_bytes b in
  let hash := trim_end_newlines head in
  _ ← validate_blake3_id "frontier HEAD" hash;
  _ ← bail_if (negb (bool_decide (head = hash +:+ newline)))
        (Invalid "frontier HEAD must contain one hash and a newline");
  Ok hash.

(** The registry's first entry, approved by the initialization record. *)
Definition initial_client (g : SignedGenesis) (key : VerifyingKey) (approval : VerifiedV2Record)
    : VerifiedV2Client := {|
  client := initial_client_id (body g); display_name := "Initial client";
  public_key := key_to_bytes key;
  capabilities := ["additive_observation"; "coordination"];
  approved_origin_id := (dot approval).1; approved_origin_seq := (dot approval).2;
  revoked_origin_id := None; revoked_origin_seq := None
|}.

(** One candidate of a round of the enrollment loop; [true] if it progressed. *)
Definition verify_candidate (root : Tree) (g : SignedGenesis) (ghash : string)
    (accepted : CausalFrontier) (visited : gmap string CausalFrontier)
    (locals : Enrollment * bool) (id : string) : result Stop (Enrollment * bool) :=
  let '(e, progressed) := locals in
  match e_clients e !! id with
  | None => Ok (e, progressed)
  | Some c =>
      origin ← ok_or (find_origin (origins accepted) id) Panicked;
      key ← map_err Stopped (client_key c);
      verified ← map_err Stopped (verify_origin root g ghash key origin);
      _ ← map_err Stopped (validate_client_origin_records verified.1 c visited);
      clients ← map_err Stopped (apply_client_registry_items verified.1 (e_clients e));
      Ok ({| e_clients := clients; e_records := e_records e ++ verified.1;
             e_segments := saturating_add_u64 (e_segments e) verified.2;
             e_pending := filter (λ p, p ≠ id) (e_pending e) |}, true)
  end.

(** [while !pending.is_empty()]; a round without progress is an error. *)
Fixpoint enroll_loop (root : Tree) (g : SignedGenesis) (ghash : string)
    (accepted : CausalFrontier) (visited : gmap string CausalFrontier)
    (fuel : nat) (e : Enrollment) : result Stop Enrollment :=
  match e_pending e with
  | [] => Ok e
  | _ =>
      match fuel with
      | O => Err OutOfFuel
      | S fuel =>
          round ← fold_result (verify_candidate root g ghash accepted visited) (e, false)
                    (e_pending e);
          let '(e, progressed) := round in
          _ ← bail_if (negb progressed)
                (Stopped (Invalid
                   ("accepted frontier contains origins without trusted enrollment: "
                    +:+ String.concat ", " (e_pending e))));
          enroll_loop root g ghash accepted visited fuel e
      end
  end.

(** [try_fold(0, |total, origin| total.checked_add(origin.seq))] *)
Definition total_records (origins : list OriginFrontier) : option N :=
  foldl (λ total o, total ≫= λ total, checked_add_u64 total (Frontier.seq o)) (Some 0%N) origins.

(** The origins, enrolled clients first to last, and the registry they leave. *)
Definition verify_origins (root : Tree) (g : SignedGenesis) (ghash : string)
    (accepted : CausalFrontier) (visited : gmap string CausalFrontier)
    : result Stop Enrollment :=
  let initial := initial_client_id (body g) in
  origin ← ok_or (find_origin (origins accepted) initial)
             (Stopped (Invalid "accepted frontier omits the genesis client"));
  key ← map_err (Stopped ∘ GenesisErr) (validate_body (body g));
  verified ← map_err Stopped (verify_origin root g ghash key origin);
  approval ← ok_or (head (filter (λ r, record_contains_item_kind r "archive_initialized" = true)
                           verified.1))
               (Stopped (Invalid "genesis origin lacks archive_initialized"));
  clients ← map_err Stopped (apply_client_registry_items verified.1
              {[ initial := initial_client g key approval ]});
  let pending := btree_set (Frontier.origin_id <$>
    filter (λ o, Frontier.origin_id o ≠ initial) (origins accepted)) in
  enroll_loop root g ghash accepted visited (length pending)
    {| e_clients := clients; e_records := verified.1;
       e_segments := saturating_add_u64 0 verified.2; e_pending := pending |}.

(** [V2OriginStore::verify]; [fuel] bounds the depth of the frontier graph. *)
Definition verify_archive (fuel : nat) (root : Tree) : result Stop VerifiedV2Archive :=
  gh ← map_err Stopped (read_genesis root);
  let '(g, ghash) := gh in
  head ← map_err Stopped (read_head root);
  visited ← load_frontier_graph root (genesis_archive_id g) ghash fuel head ∅;
  accepted ← ok_or (visited !! head) (Stopped (Invalid "accepted frontier was not loaded"));
  e ← verify_origins root g ghash accepted visited;
  _ ← for_each (λ r, bail_if (negb (is_some_b (visited !! causal_frontier_hash r)))
        (Stopped (Invalid ("record " +:+ record_id (envelope (record r))
                           +:+ " depends on an unknown causal frontier")))) (e_records e);
  _ ← map_err Stopped (validate_coordination_contexts (e_records e) (e_clients e));
  _ ← map_err Stopped (verify_batches (e_records e));
  count ← ok_or (total_records (origins accepted))
            (Stopped (Invalid "record count overflow"));
  Ok {| genesis := g; archive_genesis_hash := ghash; accepted_frontier := accepted;
        accepted_frontier_hash := head; records := e_records e;
        archive_record_count := count; clients := e_clients e; frontiers := visited;
        segment_count := e_segments e; frontier_count := N.of_nat (size visited) |}.

Definition validate_same_archive (left right : VerifiedV2Archive) : result V2StoreError () :=
  let other := Invalid "synchronization remote belongs to another Archive" in
  _ ← bail_if (negb (bool_decide (archive_genesis_hash left = archive_genesis_hash right))
               || negb (bool_decide (genesis_archive_id (genesis left)
                                     = genesis_archive_id (genesis right)))) other;
  lb ← map_err GenesisErr (Genesis.canonical_bytes (genesis left));
  rb ← map_err GenesisErr (Genesis.canonical_bytes (genesis right));
  _ ← bail_if (negb (bool_decide (lb = rb))) other;
  bail_if (negb (item_projection_version (accepted_frontier left)
                 =? item_projection_version (accepted_frontier right))%N)
    (Invalid "synchronization peers use different item projection versions").

(** The body of the loop over both sides' origins. *)
Definition union_origin (origins : gmap string OriginFrontier) (origin : OriginFrontier)
    : result V2StoreError (gmap string OriginFrontier) :=
  match origins !! Frontier.origin_id origin with
  | None => Ok (<[Frontier.origin_id origin := origin]> origins)
  | Some existing =>
      if (Frontier.seq existing <? Frontier.seq origin)%N
      then Ok (<[Frontier.origin_id origin := origin]> origins)
      else if (Frontier.seq origin =? Frontier.seq existing)%N then
        _ ← bail_if (negb (bool_decide (origin = existing)))
              (Invalid ("origin " +:+ Frontier.origin_id origin
                        +:+ " has different immutable tails at one sequence"));
        Ok origins
      else Ok origins
  end.

(** [sort(); dedup()] of the two parents. *)
Definition union_parents (left right : string) : list string :=
  if decide (left = right) then [left] else merge_sort String.le [left; right].

Definition union_frontier (left right : VerifiedV2Archive)
    : result V2StoreError CausalFrontier :=
  _ ← validate_same_archive left right;
  merged ← fold_result union_origin ∅
    (origins (accepted_frontier left) ++ origins (accepted_frontier right));
  Ok {| Frontier.v := FRONTIER_VERSION;
        Frontier.archive_id := genesis_archive_id (genesis left);
        Frontier.genesis_hash := archive_genesis_hash left;
        origins := omap (λ id, merged !! id) (btree_keys merged);
        previous_frontiers := union_parents (accepted_frontier_hash left)
                                (accepted_frontier_hash right);
        item_projection_version := item_projection_version (accepted_frontier left) |}.

(** ** Specification *)

Section enrollment.
Context (root : Tree) (g : SignedGenesis) (ghash : string).
Context (accepted : CausalFrontier) (visited : gmap string CausalFrontier).

Definition initial : string := initial_client_id (body g).

(** The registry the enrollments and revocations of [prior] make, replayed in order
    from the genesis client, whom the first initialization record approves. *)
Definition registry_after (prior : list VerifiedV2Record) (registry : Registry) : Prop :=
  ∃ key approval, validate_body (body g) = Ok key ∧
    head (filter (λ r, record_contains_item_kind r "archive_initialized" = true) prior)
      = Some approval ∧
    apply_client_registry_items prior {[ initial := initial_client g key approval ]}
      = Ok registry.

(** [rs] are the verified records of [o], written by its client: the genesis
    client, or the client of that identifier in the registry that the records of
    the origins verified before make, with the key, the enrollment and the
    revocation it has there. *)
Definition origin_verified (prior : list VerifiedV2Record) (o : OriginFrontier)
    (rs : list VerifiedV2Record) : Prop :=
  ∃ key n, verify_origin root g ghash key o = Ok (rs, n) ∧
    ((Frontier.origin_id o = initial ∧ validate_body (body g) = Ok key) ∨
     (Frontier.origin_id o ≠ initial ∧ ∃ registry c,
        registry_after prior registry ∧ registry !! Frontier.origin_id o = Some c ∧
        client_ok (Frontier.origin_id o) c ∧ key_from_bytes (public_key c) = Some key ∧
        ∀ r, r ∈ rs → ∃ base, visited !! causal_frontier_hash r = Some base ∧
          may_write_from c base)).

(** The state of the loop as a log of origins done, with the rest pending. *)
Record enrollment_ok (log : list (OriginFrontier * list VerifiedV2Record)) (e : Enrollment)
    : Prop := {
  eo_records : e_records e = concat log.*2;
  eo_verified : in_turn origin_verified log;
  eo_clients : registry_after (e_records e) (e_clients e);
  eo_origins : origins accepted
    ≡ₚ log.*1 ++ filter (λ o, Frontier.origin_id o ∈ e_pending e) (origins accepted);
  eo_registry : registry_ok (e_clients e);
  eo_pending : ∀ id, id ∈ e_pending e → id ∈ Frontier.origin_id <$> origins accepted ∧ id ≠ initial;
  eo_nodup : NoDup (e_pending e);
}.

(** More records continue the replay. *)
Lemma registry_after_app prior rs registry registry' :
  registry_after prior registry → apply_client_registry_items rs registry = Ok registry' →
  registry_after (prior ++ rs) registry'.
Proof.
  intros (key & approval & Hkey & Hhead & Hrun) Hrs. exists key, approval. split_and!; [done | |].
  - rewrite filter_app. by destruct (filter _ prior).
  - unfold apply_client_registry_items in *. by rewrite fold_result_app, Hrun.
Qed.

Hypothesis sorted : key_sorted Frontier.origin_id (origins accepted).

Lemma find_origin_Some id o :
  find_origin (origins accepted) id = Some o ↔ o ∈ origins accepted ∧ Frontier.origin_id o = id.
Proof using sorted.
  unfold find_origin. split.
  - intros Hh%head_Some_elem_of. apply list_elem_of_filter in Hh. tauto.
  - intros [Ho Hid].
    destruct (head (filter _ (origins accepted))) as [o'|] eqn:Hh.
    + pose proof (head_Some_elem_of _ _ Hh) as [Hid' Ho']%list_elem_of_filter.
      f_equal. apply (key_sorted_inj Frontier.origin_id (origins accepted)); congruence.
    + apply head_None in Hh. assert (o ∈ []) as Hin; [|by apply elem_of_nil in Hin].
      rewrite <- Hh. by apply list_elem_of_filter.
Qed.

Lemma filter_pending_remove o (pending : list string) :
  o ∈ origins accepted → Frontier.origin_id o ∈ pending →
  filter (λ x, Frontier.origin_id x ∈ pending) (origins accepted) ≡ₚ
  o :: filter (λ x, Frontier.origin_id x ∈ filter (λ p, p ≠ Frontier.origin_id o) pending)
         (origins accepted).
Proof using sorted.
  intros Ho Hp. apply NoDup_Permutation.
  - apply NoDup_filter. apply (NoDup_fmap_1 Frontier.origin_id). by apply key_sorted_NoDup.
  - constructor.
    + rewrite list_elem_of_filter, list_elem_of_filter. tauto.
    + apply NoDup_filter. apply (NoDup_fmap_1 Frontier.origin_id). by apply key_sorted_NoDup.
  - intros x. rewrite elem_of_cons, !list_elem_of_filter. split.
    + intros [Hx Hin]. destruct (decide (Frontier.origin_id x = Frontier.origin_id o)) as [Heq|].
      * left. by apply (key_sorted_inj Frontier.origin_id (origins accepted)).
      * by right.
    + intros [-> | [[_ ?] ?]]; done.
Qed.

(** One candidate: nothing happens, or its origin moves to the log. *)
Lemma verify_candidate_Ok log e progressed id e' progressed' :
  enrollment_ok log e → id ∈ e_pending e →
  verify_candidate root g ghash accepted visited (e, progressed) id = Ok (e', progressed') →
  (e' = e ∧ progressed' = progressed) ∨
  (progressed' = true ∧ e_pending e' = filter (λ p, p ≠ id) (e_pending e) ∧
   ∃ log', enrollment_ok log' e').
Proof using sorted.
  intros Hok Hid. unfold verify_candidate.
  destruct (e_clients e !! id) as [c|] eqn:Hc; [|intros; simplify_eq; by left].
  intros Hrun. right. inv_ok.
  match goal with H : find_origin _ _ = Some ?x |- _ =>
    rename x into o; apply find_origin_Some in H as [Ho <-] end.
  match goal with H : client_key _ = Ok _ |- _ => unfold client_key in H; inv_ok end.
  match goal with H : verify_origin _ _ _ _ _ = Ok ?v |- _ =>
    destruct v as [rs n]; rename H into Hv end.
  match goal with H : validate_client_origin_records _ _ _ = Ok _ |- _ =>
    apply validate_client_origin_Ok in H as [_ Hfrom] end.
  match goal with H : apply_client_registry_items _ _ = Ok _ |- _ =>
    pose proof H as Hrun; apply apply_items_evolves in H as [_ _ Hreg] end.
  cbn [e_pending fst snd] in *. split_and!; [done.. |].
  destruct Hok as [Hr Hall Hclients Hperm Hregistry Hpend Hnd].
  exists (log ++ [(o, rs)]). split; cbn [e_records e_pending e_clients].
  - rewrite fmap_app, concat_app, Hr. cbn. by rewrite app_nil_r.
  - apply in_turn_snoc; [done |]. eexists _, n. split; [done |].
    right. split; [by apply Hpend |]. exists (e_clients e), c. rewrite <- Hr.
    split_and!; [done | done | by apply Hregistry | done | done].
  - by apply (registry_after_app _ _ (e_clients e)).
  - rewrite fmap_app. cbn. rewrite <- app_assoc. cbn.
    rewrite <- filter_pending_remove; done.
  - auto.
  - intros p [_ Hp]%list_elem_of_filter. auto.
  - by apply NoDup_filter.
Qed.
Lemma filter_ne_length (id : string) (l : list string) :
  id ∈ l → length (filter (λ p, p ≠ id) l) < length l.
Proof.
  intros (l1 & l2 & ->)%list_elem_of_split. rewrite filter_app, filter_cons_False by tauto.
  rewrite !length_app. cbn. pose proof (length_filter (λ p, p ≠ id) l1).
  pose proof (length_filter (λ p, p ≠ id) l2). lia.
Qed.

(** A round: the rest of the candidates are still pending when their turn comes. *)
Lemma verify_round_Ok l log e progressed e' progressed' :
  enrollment_ok log e → NoDup l → (∀ id, id ∈ l → id ∈ e_pending e) →
  fold_result (verify_candidate root g ghash accepted visited) (e, progressed) l
    = Ok (e', progressed') →
  (∃ log', enrollment_ok log' e') ∧ length (e_pending e') <= length (e_pending e) ∧
  (progressed' = true → progressed = true ∨ length (e_pending e') < length (e_pending e)).
Proof using sorted.
  revert log e progressed. induction l as [|id l IH]; intros log e progressed Hok Hnd Hsub Hrun.
  - cbn in Hrun. simplify_eq. split_and!; [by exists log | done | auto].
  - cbn in Hrun. apply bind_Ok in Hrun as ([e1 p1] & Hstep & Hrun).
    apply NoDup_cons in Hnd as [Hid Hnd].
    assert (id ∈ e_pending e) as Hin by (apply Hsub; by left).
    destruct (verify_candidate_Ok log _ _ _ _ _ Hok Hin Hstep)
      as [[-> ->] | (-> & Hpend & log1 & Hok1)].
    + eapply IH in Hrun; eauto. intros x Hx. apply Hsub. by right.
    + pose proof (filter_ne_length id _ Hin) as Hlt. rewrite <- Hpend in Hlt.
      eapply (IH log1) in Hrun as (? & ? & _); [|done | done |].
      * split_and!; [done | lia | intros _; right; lia].
      * intros x Hx. rewrite Hpend. apply list_elem_of_filter. split; [by intros -> |].
        apply Hsub. by right.
Qed.

Lemma enroll_loop_Ok fuel log e e' :
  enrollment_ok log e →
  enroll_loop root g ghash accepted visited fuel e = Ok e' →
  (∃ log', enrollment_ok log' e') ∧ e_pending e' = [].
Proof using sorted.
  revert log e. induction fuel as [|fuel IH]; intros log e Hok Hrun; cbn [enroll_loop] in Hrun;
    (destruct (e_pending e) eqn:Hp; [simplify_eq; split; [by exists log | done] |]); [done |].
  rewrite <- Hp in Hrun. apply bind_Ok in Hrun as ([e1 p1] & Hround & Hrun).
  apply (verify_round_Ok _ log) in Hround as ([log1 Hok1] & _); [| done | by apply Hok | done].
  inv_ok. by apply (IH log1 e1).
Qed.

(** Neither a round nor the loop panics or spends its fuel. *)
Lemma verify_round_total l log e progressed stop :
  enrollment_ok log e → NoDup l → (∀ id, id ∈ l → id ∈ e_pending e) →
  fold_result (verify_candidate root g ghash accepted visited) (e, progressed) l = Err stop →
  ∃ error, stop = Stopped error.
Proof using sorted.
  revert log e progressed. induction l as [|id l IH]; intros log e progressed Hok Hnd Hsub Hrun;
    [done |]. cbn in Hrun. apply NoDup_cons in Hnd as [Hid Hnd].
  assert (id ∈ e_pending e) as Hin by (apply Hsub; by left).
  apply bind_Err in Hrun as [Hstep | ([e1 p1] & Hstep & Hrun)].
  - unfold verify_candidate in Hstep. destruct (e_clients e !! id) as [c|]; [|done].
    destruct (eo_pending _ _ Hok id Hin) as [(o & -> & Ho)%list_elem_of_fmap _].
    rewrite (proj2 (find_origin_Some _ o)) in Hstep by done. cbn [ok_or mbind result_bind] in Hstep.
    repeat (apply bind_Err in Hstep as [Hstep | (? & _ & Hstep)];
      [unfold map_err in Hstep; case_match; simplify_eq; by eexists |]).
    done.
  - destruct (verify_candidate_Ok log _ _ _ _ _ Hok Hin Hstep)
      as [[-> ->] | (-> & Hpend & log1 & Hok1)].
    + eapply IH in Hrun; eauto. intros x Hx. apply Hsub. by right.
    + eapply (IH log1) in Hrun; [done | done | done |]. intros x Hx.
      rewrite Hpend. apply list_elem_of_filter. split; [by intros -> |]. apply Hsub. by right.
Qed.

Lemma enroll_loop_total fuel log e stop :
  enrollment_ok log e → length (e_pending e) <= fuel →
  enroll_loop root g ghash accepted visited fuel e = Err stop → ∃ error, stop = Stopped error.
Proof using sorted.
  revert log e. induction fuel as [|fuel IH]; intros log e Hok Hfuel Hrun; cbn [enroll_loop] in Hrun;
    (destruct (e_pending e) eqn:Hp; [done |]); [cbn in Hfuel; lia |].
  rewrite <- Hp in Hrun. rewrite <- Hp in Hfuel.
  apply bind_Err in Hrun as [Hround | ([e1 p1] & Hround & Hrun)].
  - by eapply (verify_round_total _ log) in Hround; [|done | apply Hok |].
  - apply (verify_round_Ok _ log) in Hround as ([log1 Hok1] & _ & Hprog);
      [| done | by apply Hok | done].
    apply bind_Err in Hrun as [Hb | ([] & Hb & Hrun)].
    + apply bail_if_Err in Hb as [_ ->]. by eexists.
    + apply bail_if_Ok, negb_false_iff in Hb as ->.
      apply (IH log1) in Hrun; [done | done |]. destruct Hprog as [? | ?]; [done | done | lia].
Qed.
End enrollment.

Definition total (l : list N) : N := foldr N.add 0%N l.

#[local] Instance total_proper : Proper ((≡ₚ) ==> eq) total.
Proof. intros l1 l2 Hl. unfold total. induction Hl; cbn; lia. Qed.

Lemma total_cons n l : total (n :: l) = (n + total l)%N.
Proof. done. Qed.

Lemma total_app l1 l2 : total (l1 ++ l2) = (total l1 + total l2)%N.
Proof. unfold total. induction l1 as [|n l1 IH]; cbn; lia. Qed.

Lemma total_records_Some os n :
  total_records os = Some n → n = total (Frontier.seq <$> os).
Proof.
  unfold total_records. change (total (Frontier.seq <$> os)) with (0 + total (Frontier.seq <$> os))%N.
  generalize 0%N. induction os as [|o os IH]; intros acc Hrun;
    cbn [foldl mbind option_bind] in Hrun.
  - injection Hrun as <-. cbn. lia.
  - destruct (checked_add_u64 acc (Frontier.seq o)) as [m|] eqn:Hm.
    + apply checked_add_u64_Some in Hm as [-> _]. apply IH in Hrun.
      rewrite Hrun, fmap_cons, total_cons. lia.
    + exfalso. clear -Hrun. induction os; cbn in *; [done | auto].
Qed.

(** ** Soundness *)

Section sound.
Context `{!Blake3Laws, !Ed25519Laws}.

Lemma client_id_origin b : is_origin_id (client_id b) = true.
Proof. apply is_origin_id_true. eexists. split; [done | apply blake3_hex_lower_64]. Qed.

Lemma initial_client_ok g key approval :
  validate_body (body g) = Ok key →
  client_ok (initial_client_id (body g)) (initial_client g key approval).
Proof.
  intros [_ _ _ Hc]%validate_body_Ok. rewrite Hc. split; cbn [public_key initial_client client].
  - by rewrite Hc.
  - apply client_id_origin.
  - apply key_bytes_length.
  - done.
  - eexists. apply key_from_to_bytes.
Qed.

Lemma verify_origins_start root g ghash accepted visited o key rs n approval clients segments :
  key_sorted Frontier.origin_id (origins accepted) →
  o ∈ origins accepted → Frontier.origin_id o = initial_client_id (body g) →
  validate_body (body g) = Ok key → verify_origin root g ghash key o = Ok (rs, n) →
  head (filter (λ r, record_contains_item_kind r "archive_initialized" = true) rs)
    = Some approval →
  apply_client_registry_items rs {[ initial_client_id (body g) := initial_client g key approval ]}
    = Ok clients →
  enrollment_ok root g ghash accepted visited [(o, rs)]
    {| e_clients := clients; e_records := rs; e_segments := segments;
       e_pending := btree_set (Frontier.origin_id <$>
         filter (λ o, Frontier.origin_id o ≠ initial_client_id (body g)) (origins accepted)) |}.
Proof.
  intros Hsorted Ho Hid Hkey Hv Happroval Hrun.
  assert (∀ id, id ∈ btree_set (Frontier.origin_id <$>
      filter (λ o, Frontier.origin_id o ≠ initial_client_id (body g)) (origins accepted)) ↔
    id ∈ Frontier.origin_id <$> origins accepted ∧ id ≠ initial_client_id (body g)) as Hpend.
  { intros id. rewrite elem_of_btree_set, !list_elem_of_fmap.
    setoid_rewrite list_elem_of_filter. naive_solver. }
  split; cbn [e_records e_pending e_clients].
  - cbn. by rewrite app_nil_r.
  - apply (in_turn_snoc _ []); [apply in_turn_nil |]. exists key, n. split; [done |]. by left.
  - by exists key, approval.
  - apply NoDup_Permutation.
    + apply (NoDup_fmap_1 Frontier.origin_id). by apply key_sorted_NoDup.
    + constructor.
      * rewrite list_elem_of_filter, Hpend. naive_solver.
      * apply NoDup_filter, (NoDup_fmap_1 Frontier.origin_id). by apply key_sorted_NoDup.
    + intros x. cbn. rewrite elem_of_cons, list_elem_of_filter, Hpend. split.
      * intros Hx. destruct (decide (Frontier.origin_id x = initial_client_id (body g))).
        { left. apply (key_sorted_inj Frontier.origin_id (origins accepted)); congruence. }
        right. split; [|done]. split; [by apply list_elem_of_fmap_2 | done].
      * intros [-> | [_ ?]]; done.
  - apply apply_items_evolves in Hrun as [_ _ Hreg]. apply Hreg.
    intros id c. rewrite lookup_singleton_Some. intros [<- <-]. by apply initial_client_ok.
  - intros id. by rewrite Hpend.
  - unfold btree_set. rewrite merge_sort_Permutation. apply NoDup_remove_dups.
Qed.

Lemma verify_origins_Ok root g ghash accepted visited e :
  key_sorted Frontier.origin_id (origins accepted) →
  verify_origins root g ghash accepted visited = Ok e →
  (∃ log, enrollment_ok root g ghash accepted visited log e) ∧ e_pending e = [].
Proof.
  intros Hsorted Hrun. unfold verify_origins in Hrun. inv_ok.
  match goal with H : find_origin _ _ = Some _ |- _ =>
    apply find_origin_Some in H as [Ho Hid]; [|done] end.
  match goal with H : verify_origin _ _ _ _ _ = Ok ?v |- _ =>
    destruct v as [rs n]; rename H into Hv end.
  match goal with H : enroll_loop _ _ _ _ _ _ _ = Ok _ |- _ =>
    eapply enroll_loop_Ok in H; [done | done |] end.
  by eapply verify_origins_start.
Qed.

(** What [verify_archive] establishes of the archive it returns. *)
Record archive_ok (root : Tree) (a : VerifiedV2Archive) : Prop := {
  ao_genesis : verify (genesis a) = Ok () ∧
    Genesis.genesis_hash (genesis a) = Ok (archive_genesis_hash a);
  ao_head : read_head root = Ok (accepted_frontier_hash a) ∧
    read_frontier root (genesis_archive_id (genesis a)) (archive_genesis_hash a)
      (accepted_frontier_hash a) = Ok (accepted_frontier a);
  ao_graph : closed (genesis_archive_id (genesis a)) (archive_genesis_hash a) (frontiers a);
  ao_extends : ∀ h f, frontiers a !! h = Some f → extends f (accepted_frontier a);
  ao_origins : ∃ log, origins (accepted_frontier a) ≡ₚ log.*1 ∧ records a = concat log.*2 ∧
    in_turn (origin_verified root (genesis a) (archive_genesis_hash a) (frontiers a)) log;
  ao_clients : registry_after (genesis a) (records a) (clients a);
  ao_causal : ∀ r, r ∈ records a → is_Some (frontiers a !! causal_frontier_hash r);
  ao_registry : registry_ok (clients a);
  ao_batches : ∀ r, r ∈ records a →
    ∃ start complete ds, batch_complete (records a) (id_of r) start complete ds;
  ao_count : archive_record_count a = N.of_nat (length (records a));
}.

Lemma log_length root g ghash visited log :
  in_turn (origin_verified root g ghash visited) log →
  N.of_nat (length (concat log.*2)) = total (Frontier.seq <$> log.*1).
Proof.
  intros Hlog%in_turn_all.
  induction Hlog as [|[o rs] log (prior & key & n & Hv & _) _ IH]; [done |].
  rewrite !fmap_cons, total_cons. cbn [concat fst snd] in *.
  rewrite length_app, Nat2N.inj_add, IH.
  by apply verify_origin_Ok in Hv as (_ & -> & _).
Qed.

Lemma verify_archive_Ok fuel root a : verify_archive fuel root = Ok a → archive_ok root a.
Proof.
  unfold verify_archive. intros Hrun. inv_ok.
  match goal with H : read_genesis _ = Ok ?p |- _ =>
    destruct p as [g ghash]; unfold read_genesis in H; rename H into Hgen end.
  inv_ok.
  match goal with H : load_frontier_graph _ _ _ _ _ _ = Ok _ |- _ =>
    apply load_from_empty in H as (Hclosed & f & Hf & Hst & Hread & Hext) end.
  match goal with H : _ !! _ = Some ?x, Hf : _ !! _ = Some f |- _ =>
    assert (x = f) as -> by congruence end.
  match goal with H : verify_origins _ _ _ _ _ = Ok _ |- _ =>
    apply verify_origins_Ok in H as [[log Hlog] Hpend] end; cycle 1.
  { destruct Hst as [Hh _]. apply frontier_hash_Ok in Hh as [Hwf _]. by apply Hwf. }
  destruct Hlog as [Hrec Hall Hclients Hperm Hreg _ _]. rewrite Hpend in Hperm.
  assert (filter (λ o, Frontier.origin_id o ∈ []) (origins f) = []) as Hnil.
  { clear. induction (origins f) as [|o os IH]; [done |].
    by rewrite filter_cons_False by apply not_elem_of_nil. }
  rewrite Hnil, app_nil_r in Hperm.
  match goal with H : for_each _ _ = Ok _ |- _ => rewrite for_each_Ok in H; rename H into Hcausal end.
  match goal with H : total_records _ = Some _ |- _ => apply total_records_Some in H as -> end.
  split; cbn; try done.
  - by exists log.
  - intros r Hr. specialize (Hcausal r Hr). inv_ok. boolify. by apply is_some_b_true.
  - match goal with H : verify_batches _ = Ok _ |- _ => exact (verify_batches_Ok _ _ H) end.
  - by rewrite Hrec, Hperm, <- (log_length _ _ _ _ _ Hall).
Qed.

(** C4: a verified archive is sound as a whole: a verified genesis; an accepted
    frontier under its own hash that extends every frontier of its closed history;
    records that are exactly the verified chains of its origins, one after the
    other, each signed by the genesis client or by the client of that identifier in
    the registry that the records before it make, who wrote every record from
    a known frontier that includes the enrollment and not the revocation the
    registry holds for it; a registry that is the replay of all the records; every
    batch complete; and a record count that is the number of records. *)
Theorem verify_archive_sound fuel root a : verify_archive fuel root = Ok a → archive_ok root a.
Proof. apply verify_archive_Ok. Qed.

(** The records one origin contributed. *)
Definition origin_records (a : VerifiedV2Archive) (id : string) : list VerifiedV2Record :=
  filter (λ r, origin_of r = id) (records a).

Lemma linked_origin origin seq previous rs r :
  linked origin seq previous rs → r ∈ rs → origin_of r = origin.
Proof.
  revert seq previous. induction rs as [|r' rs IH]; intros seq previous Hl Hr;
    [by apply elem_of_nil in Hr |].
  destruct Hl as (Hat & _ & Hl). apply elem_of_cons in Hr as [-> | Hr]; [|by eapply IH].
  by destruct (at_origin _ _ _ _ _ _ Hat).
Qed.

(** A log of origins, each with records of its own. *)
Section log.
Context (log : list (OriginFrontier * list VerifiedV2Record)).
Hypothesis own : ∀ p r, p ∈ log → r ∈ p.2 → origin_of r = Frontier.origin_id p.1.

Lemma log_other id :
  id ∉ Frontier.origin_id <$> log.*1 → filter (λ r, origin_of r = id) (concat log.*2) = [].
Proof using own.
  intros Hid. apply filter_none. intros r Hr Hor.
  apply list_elem_of_In, in_concat in Hr as (rs & Hrs%list_elem_of_In & Hr%list_elem_of_In).
  apply list_elem_of_fmap in Hrs as (p & -> & Hp). apply Hid.
  rewrite <- Hor, (own p r Hp Hr). by do 2 apply list_elem_of_fmap_2.
Qed.
End log.

Lemma log_records log o rs :
  (∀ p r, p ∈ log → r ∈ p.2 → origin_of r = Frontier.origin_id p.1) →
  NoDup (Frontier.origin_id <$> log.*1) → (o, rs) ∈ log →
  filter (λ r, origin_of r = Frontier.origin_id o) (concat log.*2) = rs.
Proof.
  induction log as [|[o1 rs1] log IH]; intros Hown Hnd Hin; [by apply elem_of_nil in Hin |].
  rewrite !fmap_cons in Hnd. apply NoDup_cons in Hnd as [Hid Hnd].
  rewrite fmap_cons. cbn [concat fst snd] in *. rewrite filter_app.
  assert (∀ r, r ∈ rs1 → origin_of r = Frontier.origin_id o1) as Hrs1.
  { intros r Hr. apply (Hown (o1, rs1) r); [by left | done]. }
  assert (∀ p r, p ∈ log → r ∈ p.2 → origin_of r = Frontier.origin_id p.1) as Hlog.
  { intros p r Hp. apply Hown. by right. }
  apply elem_of_cons in Hin as [[= -> ->] | Hin].
  - rewrite (log_other log), app_nil_r by done. by apply filter_all.
  - rewrite (filter_none _ rs1), IH; [done.. |].
    intros r Hr Hor. apply Hid. rewrite <- (Hrs1 r Hr), Hor.
    apply (list_elem_of_fmap_2 Frontier.origin_id). by apply (list_elem_of_fmap_2 fst _ (o, rs)).
Qed.

Lemma log_own root g ghash visited log p r :
  in_turn (origin_verified root g ghash visited) log → p ∈ log → r ∈ p.2 →
  origin_of r = Frontier.origin_id p.1.
Proof.
  intros Hall%in_turn_all Hp Hr. rewrite Forall_forall in Hall.
  destruct (Hall p Hp) as (prior & key & n & (Hl & _)%verify_origin_Ok & _). by eapply linked_origin.
Qed.

(** [key] is the key the identifier [id] is the hash of. *)
Definition key_of_client (id : string) (key : VerifyingKey) : Prop :=
  id = client_id (key_to_bytes key).

Lemma client_key_of id c key :
  client_ok id c → key_from_bytes (public_key c) = Some key → key_of_client id key.
Proof.
  intros [_ _ _ Hid _] Hk. unfold key_of_client. by rewrite (key_to_from_bytes _ _ Hk).
Qed.

(** The records of an origin of the accepted frontier, verified on their own with the key
    the origin is named after. *)
Lemma archive_origin root a :
  archive_ok root a → ∀ o, o ∈ origins (accepted_frontier a) →
  ∃ key n, verify_origin root (genesis a) (archive_genesis_hash a) key o
           = Ok (origin_records a (Frontier.origin_id o), n) ∧
    key_of_client (Frontier.origin_id o) key.
Proof.
  intros Hok o Ho. destruct (ao_origins _ _ Hok) as (log & Hperm & Hrec & Hall).
  assert (NoDup (Frontier.origin_id <$> log.*1)) as Hnd.
  { rewrite <- Hperm. apply key_sorted_NoDup. destruct (ao_head _ _ Hok) as [_ Hr].
    apply read_frontier_Ok in Hr as [[Hwf _]%frontier_hash_Ok _]. by apply Hwf. }
  rewrite Hperm in Ho. apply list_elem_of_fmap in Ho as ([o1 rs] & -> & Hin).
  unfold origin_records. cbn [fst]. rewrite Hrec, (log_records log o1 rs); [|by intros p r; eapply log_own | done | done].
  apply in_turn_all in Hall. rewrite Forall_forall in Hall.
  destruct (Hall _ Hin) as (prior & key & n & Hv & Hkey). exists key, n. split; [done |].
  destruct Hkey as [[Hid [_ _ _ Hc]%validate_body_Ok] | (_ & registry & c & _ & _ & Hc & Hk & _)].
  - unfold key_of_client. by rewrite <- Hc.
  - by eapply client_key_of.
Qed.

Lemma archive_no_origin root a id :
  archive_ok root a → id ∉ Frontier.origin_id <$> origins (accepted_frontier a) →
  origin_records a id = [].
Proof.
  intros Hok Hid. destruct (ao_origins _ _ Hok) as (log & Hperm & Hrec & Hall).
  unfold origin_records. rewrite Hrec. apply log_other; [by intros p r; eapply log_own |].
  by rewrite <- Hperm.
Qed.

(** Two origins with one accepted hash hold the same lines, unless hashes collide. *)
Definition line_collision (rs rs' : list VerifiedV2Record) : Prop :=
  ∃ r r', r ∈ rs ∧ r' ∈ rs' ∧ blake3_collision (exact_line_bytes r) (exact_line_bytes r').

Lemma verified_lines_equal root g ghash key o rs n root' g' ghash' key' rs' n' :
  verify_origin root g ghash key o = Ok (rs, n) →
  verify_origin root' g' ghash' key' o = Ok (rs', n') →
  exact_line_bytes <$> rs = exact_line_bytes <$> rs' ∨ line_collision rs rs'.
Proof.
  intros (Hl & _ & (r & Hr & _ & Hh & _) & _)%verify_origin_Ok
    (Hl' & _ & (r' & Hr' & _ & Hh' & _) & _)%verify_origin_Ok.
  apply (linked_binds (Frontier.origin_id o) (Frontier.origin_id o) rs rs' (event_hash o));
    [done | done | |]; unfold last_hash; rewrite ?Hr, ?Hr'; congruence.
Qed.

Lemma all_or {A} (P : A → Prop) (Q : Prop) (l : list A) :
  (∀ x, x ∈ l → P x ∨ Q) → (∀ x, x ∈ l → P x) ∨ Q.
Proof.
  induction l as [|x l IH]; intros Hl; [left; intros x Hx; by apply elem_of_nil in Hx |].
  destruct (Hl x) as [Hx | ?]; [by left | | by right].
  destruct IH as [IH | ?]; [intros; apply Hl; by right | | by right].
  left. intros y [-> | Hy]%elem_of_cons; auto.
Qed.

(** C1: the hash in HEAD pins a whole archive: two trees that verify with the
    same accepted frontier hash have the same accepted frontier and, origin by
    origin, exactly the same record lines, unless the two frontiers' bytes or two
    of their record lines are a blake3 collision. *)
Theorem head_pins_archive fuel root a fuel' root' a' :
  verify_archive fuel root = Ok a → verify_archive fuel' root' = Ok a' →
  accepted_frontier_hash a = accepted_frontier_hash a' →
  (accepted_frontier a = accepted_frontier a' ∧
   ∀ id, exact_line_bytes <$> origin_records a id = exact_line_bytes <$> origin_records a' id) ∨
  (∃ b b', to_json (accepted_frontier a) = Ok b ∧ to_json (accepted_frontier a') = Ok b' ∧
     blake3_collision b b') ∨
  line_collision (records a) (records a').
Proof.
  intros Hok%verify_archive_Ok Hok'%verify_archive_Ok Hhead.
  destruct (ao_head _ _ Hok) as [_ (b & Hj & Hb & Hh)%read_frontier_bytes].
  destruct (ao_head _ _ Hok') as [_ (b' & Hj' & Hb' & Hh')%read_frontier_bytes].
  rewrite Hh, Hh' in Hhead. apply hash_eq_or_collision in Hhead as [-> | Hc]; [|right; left; eauto].
  rewrite Hj in Hj'. injection Hj' as Hf.
  destruct (all_or (λ o, exact_line_bytes <$> origin_records a (Frontier.origin_id o)
      = exact_line_bytes <$> origin_records a' (Frontier.origin_id o))
    (line_collision (records a) (records a')) (origins (accepted_frontier a))) as [Hall | ?];
    [| left; split; [done |] | by right; right].
  - intros o Ho. destruct (archive_origin _ _ Hok o Ho) as (key & n & Hv & _).
    rewrite Hf in Ho. destruct (archive_origin _ _ Hok' o Ho) as (key' & n' & Hv' & _).
    destruct (verified_lines_equal _ _ _ _ _ _ _ _ _ _ _ _ _ Hv Hv') as [? | (r & r' & Hr & Hr' & Hc)];
      [by left | right]. apply list_elem_of_filter in Hr as [_ Hr], Hr' as [_ Hr'].
    by exists r, r'.
  - intros id. destruct (decide (id ∈ Frontier.origin_id <$> origins (accepted_frontier a)))
      as [(o & -> & Ho)%list_elem_of_fmap | Hn]; [by apply Hall |].
    rewrite (archive_no_origin _ _ _ Hok Hn). rewrite Hf in Hn.
    by rewrite (archive_no_origin _ _ _ Hok' Hn).
Qed.

(** ** Termination *)

Lemma map_err_Stopped {E A} (m : result E A) (f : E → V2StoreError) stop :
  map_err (Stopped ∘ f) m = Err stop → ∃ error, stop = Stopped error.
Proof. destruct m; cbn; intros; simplify_eq. by eexists. Qed.

Lemma map_err_Stopped' {A} (m : result V2StoreError A) stop :
  map_err Stopped m = Err stop → ∃ error, stop = Stopped error.
Proof. destruct m; cbn; intros; simplify_eq. by eexists. Qed.

Lemma ok_or_Stopped {A} (o : option A) e stop :
  ok_or o (Stopped e) = Err stop → ∃ error, stop = Stopped error.
Proof. intros [_ ->]%ok_or_Err. by eexists. Qed.

Lemma for_each_Err {E A} (f : A → result E ()) l e :
  for_each f l = Err e → ∃ x, x ∈ l ∧ f x = Err e.
Proof.
  induction l as [|x l IH]; cbn; [done |].
  intros [Hx | ([] & _ & Hl)]%bind_Err; [exists x; split; [by left | done] |].
  destruct (IH Hl) as (y & ? & ?). exists y. split; [by right | done].
Qed.

Lemma verify_origins_total root g ghash accepted visited stop :
  key_sorted Frontier.origin_id (origins accepted) →
  verify_origins root g ghash accepted visited = Err stop → ∃ error, stop = Stopped error.
Proof.
  intros Hsorted Hrun. unfold verify_origins in Hrun.
  apply bind_Err in Hrun as [?%ok_or_Stopped | (o & Hfind%ok_or_Ok & Hrun)]; [done |].
  apply bind_Err in Hrun as [?%map_err_Stopped | (key & Hkey%map_err_Ok & Hrun)]; [done |].
  apply bind_Err in Hrun as [?%map_err_Stopped' | ([rs n] & Hv%map_err_Ok & Hrun)]; [done |].
  apply bind_Err in Hrun as [?%ok_or_Stopped | (approval & Happroval%ok_or_Ok & Hrun)]; [done |].
  apply bind_Err in Hrun as [?%map_err_Stopped' | (clients & Hreg%map_err_Ok & Hrun)]; [done |].
  apply find_origin_Some in Hfind as [Ho Hid]; [|done].
  eapply enroll_loop_total in Hrun; [done | done | | done].
  by eapply verify_origins_start.
Qed.

(** C40: verification always ends without a panic: when parent links of frontier
    files are acyclic and the fuel exceeds the length of the longest line of
    parents below HEAD, the result is an archive or an error of the code; the
    enrollment loop needs no assumption, each round of it enrolls an origin. *)
Theorem verify_archive_total fuel root (rank : string → nat) :
  (∀ archive ghash hash f p,
     read_frontier root archive ghash hash = Ok f → p ∈ previous_frontiers f →
     rank p < rank hash) →
  (∀ head, read_head root = Ok head → rank head < fuel) →
  (∃ a, verify_archive fuel root = Ok a) ∨
  (∃ error, verify_archive fuel root = Err (Stopped error)).
Proof.
  intros Hrank Hfuel. destruct (verify_archive fuel root) as [a|stop] eqn:Hrun; [by left; exists a | right].
  enough (∃ error, stop = Stopped error) as [error ->] by (by exists error).
  unfold verify_archive in Hrun.
  apply bind_Err in Hrun as [?%map_err_Stopped' | ([g ghash] & _ & Hrun)]; [done |].
  apply bind_Err in Hrun as [?%map_err_Stopped' | (head & Hhead%map_err_Ok & Hrun)]; [done |].
  apply bind_Err in Hrun as [Hload | (visited & Hload & Hrun)].
  { destruct (load_total root (genesis_archive_id g) ghash rank (Hrank _ _) fuel head ∅)
      as [Hf Hp]; [by apply Hfuel |].
    destruct stop; [by eexists | |]; by rewrite Hload in *. }
  apply bind_Err in Hrun as [?%ok_or_Stopped | (accepted & Ha%ok_or_Ok & Hrun)]; [done |].
  apply load_from_empty in Hload as (_ & f & Hf & [Hh _] & _). simplify_eq.
  apply frontier_hash_Ok in Hh as [Hwf _].
  apply bind_Err in Hrun as [?%verify_origins_total | (e & _ & Hrun)]; [done | by apply Hwf |].
  apply bind_Err in Hrun as [(r & _ & [_ ->]%bail_if_Err)%for_each_Err | ([] & _ & Hrun)];
    [by eexists |].
  apply bind_Err in Hrun as [?%map_err_Stopped' | ([] & _ & Hrun)]; [done |].
  apply bind_Err in Hrun as [?%map_err_Stopped' | ([] & _ & Hrun)]; [done |].
  by apply bind_Err in Hrun as [?%ok_or_Stopped | (count & _ & Hrun)].
Qed.

(** ** Merging *)

(** What the loop over both sides' origins has merged: each entry is one of the
    origins seen, and no origin seen is ahead of, or beside, its entry. *)
Record merged_ok (seen : list OriginFrontier) (merged : gmap string OriginFrontier) : Prop := {
  mo_from : ∀ id o, merged !! id = Some o → o ∈ seen ∧ Frontier.origin_id o = id;
  mo_keeps : ∀ o, o ∈ seen → ∃ o', merged !! Frontier.origin_id o = Some o' ∧
    (Frontier.seq o <= Frontier.seq o')%N ∧ (Frontier.seq o' = Frontier.seq o → o' = o);
}.

Lemma merged_insert seen merged o :
  merged_ok seen merged →
  (∀ o', merged !! Frontier.origin_id o = Some o' → (Frontier.seq o' < Frontier.seq o)%N) →
  merged_ok (seen ++ [o]) (<[Frontier.origin_id o := o]> merged).
Proof.
  intros [Hfrom Hkeep] Hlt. split.
  - intros id x. rewrite lookup_insert_Some, elem_of_app, list_elem_of_singleton.
    intros [[<- <-] | [_ Hx]]; [auto |]. destruct (Hfrom _ _ Hx). auto.
  - intros x [Hx | ->%list_elem_of_singleton]%elem_of_app.
    + destruct (Hkeep x Hx) as (x' & Hx' & Hle & Heq).
      destruct (decide (Frontier.origin_id o = Frontier.origin_id x)) as [Hid | Hne].
      * rewrite Hid, lookup_insert_eq. exists o. rewrite <- Hid in Hx'. specialize (Hlt _ Hx').
        split_and!; [done | lia | lia].
      * rewrite lookup_insert_ne by done. eauto.
    + rewrite lookup_insert_eq. exists o. split_and!; [done | lia | done].
Qed.

Lemma union_origin_ok seen merged o merged' :
  merged_ok seen merged → union_origin merged o = Ok merged' → merged_ok (seen ++ [o]) merged'.
Proof.
  intros Hok Hrun. unfold union_origin in Hrun.
  destruct (merged !! Frontier.origin_id o) as [x|] eqn:Hx; cycle 1.
  { simplify_eq. apply merged_insert; [done |]. congruence. }
  destruct (N.ltb_spec (Frontier.seq x) (Frontier.seq o)) as [Hlt | Hge].
  { simplify_eq. apply merged_insert; [done |]. intros x' Hx'. by simplify_eq. }
  assert (merged' = merged ∧ (Frontier.seq x = Frontier.seq o → x = o)) as [-> Hsame].
  { destruct (N.eqb_spec (Frontier.seq o) (Frontier.seq x)); inv_ok; boolify; naive_solver. }
  destruct Hok as [Hfrom Hkeep]. split.
  - intros id y Hy. destruct (Hfrom _ _ Hy). split; [|done]. apply elem_of_app. by left.
  - intros y [Hy | ->%list_elem_of_singleton]%elem_of_app; [by apply Hkeep |].
    exists x. split_and!; [done | lia | done].
Qed.

Lemma union_fold_ok os merged :
  fold_result union_origin ∅ os = Ok merged → merged_ok os merged.
Proof.
  apply fold_result_ind; [|intros seen o c c' Hc Ho; by eapply union_origin_ok].
  split; [intros id o Ho; by rewrite lookup_empty in Ho | set_solver].
Qed.

(** Without a fork the loop succeeds: nothing else stops it. *)
Definition no_fork (os : list OriginFrontier) : Prop :=
  ∀ o o', o ∈ os → o' ∈ os → Frontier.origin_id o = Frontier.origin_id o' →
    Frontier.seq o = Frontier.seq o' → o = o'.

Lemma union_fold_total os : no_fork os → ∃ merged, fold_result union_origin ∅ os = Ok merged.
Proof.
  intros Hfork.
  enough (∀ rest seen merged, os = seen ++ rest → merged_ok seen merged →
    ∃ merged', fold_result union_origin merged rest = Ok merged') as Hgen.
  { apply (Hgen os []); [done |].
    split; [intros id o Ho; by rewrite lookup_empty in Ho | set_solver]. }
  induction rest as [|o rest IH]; intros seen merged Heq Hok; cbn; [eauto |].
  assert (∃ m, union_origin merged o = Ok m) as [m Hm].
  { unfold union_origin. destruct (merged !! Frontier.origin_id o) as [x|] eqn:Hx; [|eauto].
    destruct (_ <? _)%N; [eauto |].
    destruct (N.eqb_spec (Frontier.seq o) (Frontier.seq x)) as [Hs|]; [|eauto].
    destruct (mo_from _ _ Hok _ _ Hx) as [Hin Hid].
    rewrite bool_decide_eq_true_2; [eexists; done |].
    apply Hfork; [subst; set_solver | subst; set_solver | done | done]. }
  rewrite Hm. cbn. apply (IH (seen ++ [o])); [by rewrite <- app_assoc |].
  by eapply union_origin_ok.
Qed.

Definition merged_origins (merged : gmap string OriginFrontier) : list OriginFrontier :=
  omap (λ id, merged !! id) (btree_keys merged).

Lemma elem_of_merged_origins merged o :
  o ∈ merged_origins merged ↔ ∃ id, merged !! id = Some o.
Proof.
  unfold merged_origins. rewrite list_elem_of_omap. setoid_rewrite elem_of_btree_keys.
  split; [intros (id & _ & ?); eauto |]. intros (id & Hid). exists id. split; [by eexists | done].
Qed.

Lemma merged_origins_sorted seen merged :
  merged_ok seen merged → key_sorted Frontier.origin_id (merged_origins merged).
Proof.
  intros [Hfrom _]. apply key_sorted_fmap.
  enough (Frontier.origin_id <$> merged_origins merged = btree_keys merged) as ->
    by (apply merge_sort_strict, NoDup_fst_map_to_list).
  unfold merged_origins.
  assert (∀ id, id ∈ btree_keys merged → is_Some (merged !! id)) as Hsome
    by (intros id; by rewrite elem_of_btree_keys).
  induction (btree_keys merged) as [|id ids IH]; [done |].
  destruct (Hsome id) as [o Ho]; [by left |]. cbn. rewrite Ho. cbn.
  destruct (Hfrom _ _ Ho) as [_ ->]. f_equal. apply IH. intros x Hx. apply Hsome. by right.
Qed.

Lemma union_parents_sorted l r : key_sorted id (union_parents l r).
Proof.
  unfold union_parents. case_decide; [repeat constructor |].
  apply merge_sort_strict. repeat constructor; set_solver.
Qed.

Lemma elem_of_union_parents l r x : x ∈ union_parents l r ↔ x = l ∨ x = r.
Proof. unfold union_parents. case_decide; rewrite ?merge_sort_Permutation; set_solver. Qed.

(** The merged frontier extends a side all of whose origins it saw. *)
Lemma union_extends side f seen merged :
  merged_ok seen merged → (∀ o, o ∈ origins side → o ∈ seen) →
  Frontier.archive_id f = Frontier.archive_id side →
  Frontier.genesis_hash f = Frontier.genesis_hash side →
  item_projection_version f = item_projection_version side →
  origins f = merged_origins merged → extends side f.
Proof.
  intros [Hfrom Hkeep] Hseen Ha Hg Hi Ho. split; [done | done | lia |].
  intros o (o' & Hm & Hle & Heq)%Hseen%Hkeep. exists o'. rewrite Ho, elem_of_merged_origins.
  destruct (Hfrom _ _ Hm) as [_ Hid]. split_and!; [eauto | done..].
Qed.

Lemma validate_same_archive_Ok left right u :
  validate_same_archive left right = Ok u →
  archive_genesis_hash left = archive_genesis_hash right ∧
  genesis_archive_id (genesis left) = genesis_archive_id (genesis right) ∧
  item_projection_version (accepted_frontier left)
  = item_projection_version (accepted_frontier right).
Proof. unfold validate_same_archive. intros Hrun. inv_ok. by boolify. Qed.

(** The facts of a verified side that merging uses. *)
Record side_ok (a : VerifiedV2Archive) : Prop := {
  so_wf : frontier_wf (accepted_frontier a);
  so_hash : ∃ b, to_json (accepted_frontier a) = Ok b ∧
    accepted_frontier_hash a = blake3_identifier b;
  so_archive : Frontier.archive_id (accepted_frontier a) = genesis_archive_id (genesis a);
  so_genesis : Frontier.genesis_hash (accepted_frontier a) = archive_genesis_hash a;
}.

Lemma archive_side_ok fuel root a : verify_archive fuel root = Ok a → side_ok a.
Proof.
  intros [_ Hr]%verify_archive_Ok%ao_head.
  destruct (read_frontier_Ok _ _ _ _ _ Hr) as ([Hwf Hb]%frontier_hash_Ok & Ha & Hg).
  by split.
Qed.

Lemma union_frontier_Ok left right f :
  side_ok left → side_ok right → union_frontier left right = Ok f →
  frontier_wf f ∧ extends (accepted_frontier left) f ∧ extends (accepted_frontier right) f ∧
  names_base (accepted_frontier left) f ∧ names_base (accepted_frontier right) f ∧
  ∀ o, o ∈ origins f → o ∈ origins (accepted_frontier left) ∨ o ∈ origins (accepted_frontier right).
Proof.
  intros [Hwl (bl & Hbl & Hhl) Hal Hgl] [Hwr (br & Hbr & Hhr) Har Hgr] Hrun.
  unfold union_frontier in Hrun.
  apply bind_Ok in Hrun as ([] & (Hg & Ha & Hi)%validate_same_archive_Ok & Hrun).
  apply bind_Ok in Hrun as (merged & Hm%union_fold_ok & [= <-]).
  fold (merged_origins merged).
  assert (∀ o, o ∈ merged_origins merged →
    o ∈ origins (accepted_frontier left) ∨ o ∈ origins (accepted_frontier right)) as Hfrom.
  { intros o [id Hid]%elem_of_merged_origins. destruct (mo_from _ _ Hm _ _ Hid) as [Ho _].
    by apply elem_of_app in Ho. }
  split_and!; [| | | | | exact Hfrom].
  - split; cbn [Frontier.v Frontier.archive_id Frontier.genesis_hash origins previous_frontiers
      item_projection_version].
    + done.
    + rewrite <- Hal. apply Hwl.
    + apply Hwl.
    + rewrite <- Hgl. apply Hwl.
    + intros o [Ho | Ho]%Hfrom; [by apply Hwl | by apply Hwr].
    + by eapply merged_origins_sorted.
    + intros p [-> | ->]%elem_of_union_parents; rewrite ?Hhl, ?Hhr; apply blake3_identifier_ok.
    + apply union_parents_sorted.
  - eapply union_extends; [done | set_solver | | | | done]; cbn; congruence.
  - eapply union_extends; [done | set_solver | | | | done]; cbn; congruence.
  - exists bl. split; [done |]. rewrite <- Hhl. apply elem_of_union_parents. by left.
  - exists br. split; [done |]. rewrite <- Hhr. apply elem_of_union_parents. by right.
Qed.

(** C13: merging loses nothing: the union of two verified archives is an accepted
    successor of the accepted frontiers of both sides, and every origin in it is
    the tail one of the sides had. *)
Theorem union_frontier_successor fuel root left fuel' root' right f :
  verify_archive fuel root = Ok left → verify_archive fuel' root' = Ok right →
  union_frontier left right = Ok f →
  (∃ adv, validate_successor_of f (accepted_frontier left) = Ok adv) ∧
  (∃ adv, validate_successor_of f (accepted_frontier right) = Ok adv) ∧
  ∀ o, o ∈ origins f → o ∈ origins (accepted_frontier left) ∨ o ∈ origins (accepted_frontier right).
Proof.
  intros Hl%archive_side_ok Hr%archive_side_ok Hrun.
  destruct (union_frontier_Ok _ _ _ Hl Hr Hrun) as (Hwf & Hel & Her & Hnl & Hnr & Hfrom).
  rewrite !successor_Ok. destruct Hl, Hr. by split_and!.
Qed.

(** C15: merging fails only for a reason: for two verified archives with the same
    genesis document and item projection version, the union exists exactly when no
    origin has two different tails at one sequence. *)
Theorem union_frontier_iff fuel root left fuel' root' right :
  verify_archive fuel root = Ok left → verify_archive fuel' root' = Ok right →
  validate_same_archive left right = Ok () →
  (∃ f, union_frontier left right = Ok f) ↔
  ∀ o o', o ∈ origins (accepted_frontier left) → o' ∈ origins (accepted_frontier right) →
    Frontier.origin_id o = Frontier.origin_id o' → Frontier.seq o = Frontier.seq o' → o = o'.
Proof.
  intros Hl%archive_side_ok Hr%archive_side_ok Hsame. split.
  - intros [f Hrun] o o' Ho Ho' Hid Hseq.
    destruct (union_frontier_Ok _ _ _ Hl Hr Hrun)
      as (Hwf & [_ _ _ Hel] & [_ _ _ Her] & _ & _ & Hfrom).
    destruct (Hel o Ho) as (x & Hx & Hxid & Hxs & Hxe), (Her o' Ho') as (y & Hy & Hyid & Hys & Hye).
    assert (x = y) as -> by (apply (key_sorted_inj _ _ _ _ (wf_sorted _ Hwf)); congruence).
    assert (y = o ∨ y = o') as [-> | ->].
    { destruct (Hfrom y Hx) as [Hy' | Hy']; [left | right].
      - by apply (key_sorted_inj _ _ _ _ (wf_sorted _ (so_wf _ Hl))).
      - by apply (key_sorted_inj _ _ _ _ (wf_sorted _ (so_wf _ Hr))). }
    + by apply Hye.
    + symmetry. by apply Hxe.
  - intros Hfork. unfold union_frontier. rewrite Hsame. cbn [mbind result_bind].
    destruct (union_fold_total (origins (accepted_frontier left) ++ origins (accepted_frontier right)))
      as [merged ->]; [|cbn; eauto].
    intros o o' [Ho | Ho]%elem_of_app [Ho' | Ho']%elem_of_app Hid Hseq.
    + by apply (key_sorted_inj _ _ _ _ (wf_sorted _ (so_wf _ Hl))).
    + by apply Hfork.
    + symmetry. by apply Hfork.
    + by apply (key_sorted_inj _ _ _ _ (wf_sorted _ (so_wf _ Hr))).
Qed.
End sound.
End verify.

(** ** Revocation of the genesis client *)

(** Whether an archive holds a record of [id] written from a frontier that
    includes the revocation of [id]. *)
Definition writes_after_revocation (ar : VerifiedV2Archive) (id : string) : bool :=
  match clients ar !! id with
  | Some c =>
      match revoked_origin_id c, revoked_origin_seq c with
      | Some origin, Some n =>
          existsb (λ r, bool_decide (origin_of r = id)
            && match frontiers ar !! causal_frontier_hash r with
               | Some base => frontier_includes_dot base origin n
               | None => false
               end) (records ar)
      | _, _ => false
      end
  | None => false
  end.

Lemma writes_after_revocation_true ar id :
  writes_after_revocation ar id = true →
  ∃ c r base, clients ar !! id = Some c ∧ is_revoked c = true ∧ r ∈ records ar ∧
    origin_of r = id ∧ frontiers ar !! causal_frontier_hash r = Some base ∧
    ¬ may_write_from c base.
Proof.
  unfold writes_after_revocation, is_revoked.
  destruct (clients ar !! id) as [c|]; [|done].
  destruct (revoked_origin_id c) as [origin|] eqn:Ho; [|done].
  destruct (revoked_origin_seq c) as [n|] eqn:Hn; [|done].
  intros (r & Hr%list_elem_of_In & [Hid Hb]%andb_true_iff)%existsb_exists.
  apply bool_decide_eq_true in Hid.
  destruct (frontiers ar !! causal_frontier_hash r) as [base|] eqn:Hbase; [|done].
  exists c, r, base. rewrite Ho. split_and!; [done.. |].
  intros [_ Hmay]. by rewrite (Hmay origin n) in Hb.
Qed.

(** ** Examples *)

Module Examples.
(** A whole archive of two clients. The genesis client A initializes it and
    enrolls B; B revokes A; and A writes again from the frontier that includes its
    revocation. Each document is a short tag of bytes. *)
#[local] Existing Instance Genesis.Examples.two_keys.
#[local] Existing Instance Genesis.Examples.two_keys_laws.

Definition hash_of (tag : string) : string := blake3_identifier (as_bytes tag).

Definition key_a : VerifyingKey := verifying_key Genesis.Examples.first_key.
Definition key_b : VerifyingKey := Clients.Examples.second_key.
Definition a : string := client_id (key_to_bytes key_a).
Definition b : string := client_id (key_to_bytes key_b).

Definition sample : SignedGenesis := {|
  body := new_body "archive_1" "Family photos" 1700000000000 key_a; signature := "abody" |}.

#[local] Instance body_json : ToJson GenesisBody := { to_json _ := Ok (as_bytes "body") }.
#[local] Instance genesis_json : ToJson SignedGenesis := {
  to_json _ := Ok (as_bytes "genesis") }.
#[local] Instance genesis_from_json : FromJson SignedGenesis := { from_json _ := Ok sample }.

Definition batch_of (n : N) : string :=
  if (n =? 1)%N then "batch_01arz3ndektsv4rrffq69g5fa1"
  else if (n =? 2)%N then "batch_01arz3ndektsv4rrffq69g5fa2"
  else "batch_01arz3ndektsv4rrffq69g5fa3".

(** Three records make the [n]-th batch; their lines are the tags given. *)
Definition envelope_at (n : N) (origin : string) (seq : N) (kind : V2RecordKind)
    (previous : option string) (members : list (string * Value)) : V2RecordEnvelope := {|
  Record.v := 2; Record.origin_id := origin; origin_seq := seq;
  record_id := "rec_01arz3ndektsv4rrffq69g5fav"; record_kind := kind;
  time_utc_ms := 1700000000000; batch_id := batch_of n;
  previous_record_hash := previous; payload := Obj members |}.

Definition start_at (n : N) (origin : string) (seq : N) (previous : option string)
    (base : string) : V2RecordEnvelope :=
  envelope_at n origin seq BatchStart previous [("causal_frontier_hash", Str (hash_of base))].

Definition chunk_at (n : N) (origin : string) (seq : N) (previous : string)
    (items : list Value) : V2RecordEnvelope :=
  envelope_at n origin seq BatchChunk (Some (hash_of previous))
    [("first_item_index", Num (PosInt 0)); ("items", Arr items)].

Definition complete_at (n : N) (origin : string) (seq : N) (previous : string) (count : N)
    : V2RecordEnvelope :=
  let described := [{|
    Batch.chunk_batch_id := batch_of n; Batch.first_item_index := 0;
    Batch.item_count := count; Batch.serialized_bytes := 1;
    Batch.record_hash := hash_of previous |}] in
  envelope_at n origin seq BatchComplete (Some (hash_of previous))
    [("total_items", Num (PosInt count));
     ("ordered_item_digest", Str (blake3_identifier (Batch.batch_preimage described)));
     ("status", Str "complete")].

Definition enroll_b : Value := Obj [
  ("kind", Str "client_enrolled"); ("client_id", Str b); ("display_name", Str "Laptop");
  ("public_key", Str (base64_encode (key_to_bytes key_b)));
  ("capabilities", Arr [Str "additive_observation"])].
Definition revoke_a : Value := Obj [("kind", Str "client_revoked"); ("client_id", Str a)].

Definition envelopes : list (string * V2RecordEnvelope) := [
  ("1", start_at 1 a 1 None "f0");
  ("2", chunk_at 1 a 2 "1" [Obj [("kind", Str "archive_initialized")]; enroll_b]);
  ("3", complete_at 1 a 3 "2" 2);
  ("4", start_at 2 b 1 None "f1");
  ("5", chunk_at 2 b 2 "4" [revoke_a]);
  ("6", complete_at 2 b 3 "5" 1);
  ("7", start_at 3 a 4 (Some (hash_of "3")) "f2");
  ("8", chunk_at 3 a 5 "7" [Null]);
  ("9", complete_at 3 a 6 "8" 1)].

#[local] Instance envelope_json : FromJson V2RecordEnvelope := {
  from_json bs := ok_or (assoc (of_bytes bs) envelopes) "expected value" }.

Definition lines (t1 t2 t3 : string) : bytes :=
  as_bytes (t1 +:+ newline +:+ t2 +:+ newline +:+ t3 +:+ newline).

Definition manifest (origin path signature : string) (first : N) (t1 t2 t3 base : string)
    (previous : option string) : SignedSegmentManifest := {|
  manifest_body := {|
    manifest_v := 2; manifest_archive_id := "archive_1";
    manifest_genesis_hash := hash_of "genesis"; manifest_origin_id := origin;
    segment_path := path; first_seq := first; last_seq := first + 2;
    first_record_id := "rec_01arz3ndektsv4rrffq69g5fav";
    last_record_id := "rec_01arz3ndektsv4rrffq69g5fav";
    first_record_hash := hash_of t1; last_record_hash := hash_of t3;
    record_count := 3; segment_bytes := 6; segment_blake3 := blake3_identifier (lines t1 t2 t3);
    causal_base_frontier_hash := hash_of base; previous_segment_manifest_hash := previous |};
  manifest_signature := signature |}.

Definition manifests : list (string * SignedSegmentManifest) := [
  ("m1", manifest a "m1" "am1" 1 "1" "2" "3" "f0" None);
  ("m2", manifest b "m2" "bm2" 1 "4" "5" "6" "f1" None);
  ("m3", manifest a "m3" "am3" 4 "7" "8" "9" "f2" (Some (hash_of "m1")))].

#[local] Instance manifest_body_json : ToJson SegmentManifestBody := {
  to_json m := Ok (as_bytes (segment_path m)) }.
#[local] Instance manifest_json : ToJson SignedSegmentManifest := {
  to_json m := Ok (as_bytes (segment_path (manifest_body m))) }.
#[local] Instance manifest_from_json : FromJson SignedSegmentManifest := {
  from_json bs := ok_or (assoc (of_bytes bs) manifests) "expected value" }.

Definition frontier (os : list OriginFrontier) (parents : list string) : CausalFrontier := {|
  Frontier.v := 2; Frontier.archive_id := "archive_1";
  Frontier.genesis_hash := hash_of "genesis"; origins := os; previous_frontiers := parents;
  item_projection_version := 1 |}.
Definition tail_at (origin : string) (seq : N) (line m : string) : OriginFrontier := {|
  Frontier.origin_id := origin; Frontier.seq := seq; event_hash := hash_of line;
  segment_manifest_hash := hash_of m |}.

(** The identifiers of A and B, in their order. *)
Definition both (x y : OriginFrontier) : list OriginFrontier :=
  if decide (str_lt a b) then [x; y] else [y; x].

Definition frontier_files : list (string * CausalFrontier) := [
  ("f0", frontier [] []);
  ("f1", frontier [tail_at a 3 "3" "m1"] [hash_of "f0"]);
  ("f2", frontier (both (tail_at a 3 "3" "m1") (tail_at b 3 "6" "m2")) [hash_of "f1"]);
  ("f3", frontier (both (tail_at a 6 "9" "m3") (tail_at b 3 "6" "m2")) [hash_of "f2"])].

(** A frontier's tag counts its records. *)
Definition frontier_tag (f : CausalFrontier) : string :=
  let n := total (Frontier.seq <$> origins f) in
  if (n =? 0)%N then "f0" else if (n =? 3)%N then "f1" else if (n =? 6)%N then "f2" else "f3".

#[local] Instance frontier_json : ToJson CausalFrontier := {
  to_json f := Ok (as_bytes (frontier_tag f)) }.
#[local] Instance frontier_from_json : FromJson CausalFrontier := {
  from_json bs := ok_or (assoc (of_bytes bs) frontier_files) "expected value" }.

#[local] Instance lease_json : ToJson CoordinationLeaseBody := { to_json _ := Err "none" }.
#[local] Instance lease_from_value : FromValue SignedCoordinationLease := {
  from_value _ := Err "none" }.

Definition path_of (tag : string) : string :=
  match frontier_path (hash_of tag) with Ok path => path | Err _ => "" end.
Definition manifest_dir (origin : string) : string := "manifests/v2/origins/" +:+ origin.

Definition tree : Tree := tree_of
  (list_to_map [
    ("genesis.json", as_bytes "genesis");
    ("frontiers/v2/HEAD", as_bytes (hash_of "f3" +:+ newline));
    (path_of "f0", as_bytes "f0"); (path_of "f1", as_bytes "f1");
    (path_of "f2", as_bytes "f2"); (path_of "f3", as_bytes "f3");
    (manifest_dir a +:+ "/seg-000000000001.manifest.json", as_bytes "m1");
    (manifest_dir b +:+ "/seg-000000000001.manifest.json", as_bytes "m2");
    (manifest_dir a +:+ "/seg-000000000004.manifest.json", as_bytes "m3");
    ("m1", lines "1" "2" "3"); ("m2", lines "4" "5" "6"); ("m3", lines "7" "8" "9")])
  (list_to_map [
    (manifest_dir a, ["seg-000000000004.manifest.json"; "seg-000000000001.manifest.json"]);
    (manifest_dir b, ["seg-000000000001.manifest.json"])]).

Definition empty : VerifiedV2Archive := {|
  genesis := sample; archive_genesis_hash := ""; accepted_frontier := frontier [] [];
  accepted_frontier_hash := ""; records := []; archive_record_count := 0; clients := ∅;
  frontiers := ∅; segment_count := 0; frontier_count := 0 |}.

Definition verified : VerifiedV2Archive :=
  match verify_archive 4 tree with Ok archive => archive | Err _ => empty end.

Lemma tree_verifies : verify_archive 4 tree = Ok verified.
Proof.
  assert (is_ok (verify_archive 4 tree) = true) as Hok by (vm_compute; reflexivity).
  unfold verified. destruct (verify_archive 4 tree); [reflexivity | discriminate Hok].
Qed.

(** Verification does not enforce the revocation of the genesis client: the
    archive below verifies although its genesis client is revoked and a later
    record of it was written from a frontier that includes the revocation. *)
Theorem genesis_revocation_unchecked :
  verify_archive 4 tree = Ok verified ∧
  ∃ c r base, clients verified !! a = Some c ∧ is_revoked c = true ∧ r ∈ records verified ∧
    origin_of r = a ∧ frontiers verified !! causal_frontier_hash r = Some base ∧
    ¬ may_write_from c base.
Proof.
  split; [exact tree_verifies |]. apply writes_after_revocation_true. vm_compute. reflexivity.
Qed.

Lemma verify_archive_sound_witness : archive_ok tree verified.
Proof. apply (verify_archive_sound 4 tree verified tree_verifies). Defined.

Lemma head_pins_archive_witness :
  (accepted_frontier verified = accepted_frontier verified ∧
   ∀ id, exact_line_bytes <$> origin_records verified id
         = exact_line_bytes <$> origin_records verified id) ∨
  (∃ b1 b2, to_json (accepted_frontier verified) = Ok b1 ∧
     to_json (accepted_frontier verified) = Ok b2 ∧ blake3_collision b1 b2) ∨
  line_collision (records verified) (records verified).
Proof.
  apply (head_pins_archive 4 tree verified 4 tree verified tree_verifies tree_verifies).
  reflexivity.
Defined.

(** Each frontier's rank is the number of frontiers below it. *)
Definition rank (hash : string) : nat :=
  if decide (hash = hash_of "f3") then 3
  else if decide (hash = hash_of "f2") then 2
  else if decide (hash = hash_of "f1") then 1 else 0.

Lemma assoc_elem {A} k (l : list (string * A)) x : assoc k l = Some x → (k, x) ∈ l.
Proof.
  induction l as [|[k' y] l IH]; cbn; [done |]. case_decide; [|intros; right; auto].
  intros [= ->]. subst. by left.
Qed.

Lemma rank_acyclic archive ghash hash f p :
  read_frontier tree archive ghash hash = Ok f → p ∈ previous_frontiers f → rank p < rank hash.
Proof.
  intros (bs & Hj & Ht & ->)%read_frontier_bytes Hp.
  apply ok_or_Ok, assoc_elem in Hj. injection Ht as <-.
  assert (∃ tag, (tag, f) ∈ frontier_files) as [tag Hin] by eauto. clear Hj.
  unfold frontier_files in Hin. rewrite !elem_of_cons in Hin.
  destruct Hin as [[= _ ->] | [[= _ ->] | [[= _ ->] | [[= _ ->] | Hin]]]];
    [by apply elem_of_nil in Hp | | | | by apply elem_of_nil in Hin];
    apply list_elem_of_singleton in Hp as ->; vm_compute; lia.
Qed.

Lemma verify_archive_total_witness :
  (∃ ar, verify_archive 4 tree = Ok ar) ∨
  (∃ error, verify_archive 4 tree = Err (Stopped error)).
Proof.
  apply (verify_archive_total 4 tree rank).
  - exact rank_acyclic.
  - intros head Hhead.
    assert (read_head tree = Ok (hash_of "f3")) as Hf3 by (vm_compute; reflexivity).
    rewrite Hf3 in Hhead. injection Hhead as <-. vm_compute. lia.
Defined.

Definition merged : CausalFrontier :=
  match union_frontier verified verified with Ok f => f | Err _ => frontier [] [] end.

Lemma merged_union : union_frontier verified verified = Ok merged.
Proof.
  assert (is_ok (union_frontier verified verified) = true) as Hok by (vm_compute; reflexivity).
  unfold merged. destruct (union_frontier verified verified); [reflexivity | discriminate Hok].
Qed.

Lemma union_frontier_successor_witness :
  ∃ adv, validate_successor_of merged (accepted_frontier verified) = Ok adv.
Proof.
  apply (union_frontier_successor 4 tree verified 4 tree verified merged
           tree_verifies tree_verifies merged_union).
Defined.

Lemma union_frontier_iff_witness :
  (∃ f, union_frontier verified verified = Ok f) ↔
  ∀ o o', o ∈ origins (accepted_frontier verified) → o' ∈ origins (accepted_frontier verified) →
    Frontier.origin_id o = Frontier.origin_id o' → Frontier.seq o = Frontier.seq o' → o = o'.
Proof.
  apply (union_frontier_iff 4 tree verified 4 tree verified tree_verifies tree_verifies).
  vm_compute. reflexivity.
Defined.
End Examples.
