(* ===== verification/Policy.v ===== *)
(** Preservation policies: the evaluation of one file in [policy.rs]. A file's
    copies are assessed one by one, the qualifying ones are counted against the
    policy's requirements and against the loss of every failure domain, and the
    verdict carries the time up to which it may be relied on. *)
From Stdlib Require Import ZArith NArith Lia Ascii.
From stdpp Require Import base decidable list gmap strings sorting.
From S2P Require Import Prelude.
From S2P Require Import Text.
From S2P Require Import External.
From S2P Require Import Store.

Definition RULES_VERSION : N := 1.
Definition DAY_MS : N := 86400000.

(** [rusqlite::Error] is kept as its text. *)
Inductive PolicyError : Type :=
  | Sqlite (source : string)
  | InvalidRequirements (policy_id message : string)
  | InvalidState (message : string)
  | InvalidLimit
  | InvalidContinuation
  | StaleContinuation.

(** [PolicyError::code] *)
Definition policy_error_code (self : PolicyError) : string :=
  match self with
  | Sqlite _ => "policy_sqlite"
  | InvalidRequirements _ _ => "policy_invalid_requirements"
  | InvalidState _ => "policy_invalid_state"
  | InvalidLimit => "invalid_limit"
  | InvalidContinuation => "invalid_continuation"
  | StaleContinuation => "stale_continuation"
  end.

Record PolicyRequirements : Type := {
  min_qualifying_copies : N;
  min_devices : N;
  min_sites : N;
  require_offsite_copy : bool;
  require_offline_copy : bool;
  require_encrypted_offsite : bool;
  max_verification_age_days : N;
  max_observation_age_days : N;
  max_device_checkin_age_days : N;
}.

(** [PolicyRequirements::from_json]; the derived deserializer is a parameter. *)
Definition requirements_from_json `{FromJson PolicyRequirements} (policy_id text : string)
    : result PolicyError PolicyRequirements :=
  value ← map_err (InvalidRequirements policy_id) (from_json (as_bytes text));
  _ ← bail_if (bool_decide (0%N ∈
        [min_qualifying_copies value; min_devices value; min_sites value;
         max_verification_age_days value; max_observation_age_days value;
         max_device_checkin_age_days value]))
      (InvalidRequirements policy_id "counts and age limits must be positive integers");
  _ ← for_each (λ '(field, days),
        bail_if (negb (is_some_b (checked_mul_u64 days DAY_MS)))
          (InvalidRequirements policy_id (field +:+ " is too large")))
      [("max_verification_age_days", max_verification_age_days value);
       ("max_observation_age_days", max_observation_age_days value);
       ("max_device_checkin_age_days", max_device_checkin_age_days value)];
  Ok value.

Record CopyFact : Type := {
  copy_claim_id : string;
  state : string;
  copy_object_id : option string;
  last_seen_time_utc_ms : option N;
  last_verified_time_utc_ms : option N;
  last_verification_result : option string;
  location_id : string;
  location_name : string;
  location_kind : string;
  location_status : string;
  archive_root_id : option string;
  archive_root_status : option string;
  archive_root_device_id : option string;
  device_id : option string;
  device_name : option string;
  device_status : option string;
  device_identity_state : option string;
  device_expected_availability : option string;
  last_checkin_time_utc_ms : option N;
  last_fingerprint_match_time_utc_ms : option N;
  last_fingerprint_status : option string;
  site_id : option string;
  site_name : option string;
  site_status : option string;
  encryption_state : option string;
  trust_level : option string;
  location_expected_availability : string;
}.

Record FileFact : Type := {
  file_ref_id : string;
  object_id : option string;
  identity_state : string;
  logical_path_display : string;
  size_bytes : option N;
  hash_algo : option string;
  policy_id : string;
  collection_id : string;
  collection_name : string;
  home_site_id : string;
  copies : list CopyFact;
}.

Record QualifiedCopy : Type := {
  q_copy_claim_id : string;
  q_location_id : string;
  q_location_name : string;
  q_device_id : option string;
  q_device_name : option string;
  q_site_id : string;
  q_site_name : string;
  offsite : bool;
  offline : bool;
  encrypted : bool;
  domains : gset string;
}.

Record DomainTopology : Type := {
  names : gmap string string;
  assignments : gmap (string * string) (gset string);
}.

(** [QualifyingCopyReview] *)
Record QualifyingCopyReview : Type := {
  r_copy_claim_id : string;
  r_location_id : string;
  r_location_name : string;
  r_device_id : option string;
  r_site_id : string;
  r_offsite : bool;
  r_offline : bool;
  r_encrypted : bool;
}.

Record FileEvaluation : Type := {
  status : option string;
  file_reasons : Value;
  actions : Value;
  valid_until_utc_ms : option N;
  qualifying_copies : list QualifyingCopyReview;
}.

(** [CopyAssessment] *)
Record CopyAssessment : Type := {
  assessed : option QualifiedCopy;
  reasons : list string;
  uncertain : bool;
}.

(** ** JSON of the findings *)

Definition json_usize (n : nat) : Value := Num (PosInt (N.of_nat n)).
Definition json_strings (l : list string) : Value := Arr (Str <$> l).
Definition json_option (o : option string) : Value :=
  match o with Some s => Str s | None => Null end.

(** The members of a [BTreeSet<String>] in order. *)
Definition btree_elements (s : gset string) : list string := merge_sort String.le (elements s).

(** ** Assessment of one copy *)

Definition minimum_time (a b : option N) : option N :=
  match a, b with
  | Some a, Some b => Some (N.min a b)
  | Some value, None | None, Some value => Some value
  | None, None => None
  end.

(** The locals [assess_copy] passes to its helpers by mutable reference. *)
Record Notes : Type := {
  n_reasons : list string;
  n_uncertain : bool;
  n_valid_until : option N;
}.

(** [reasons.push(reason)] *)
Definition push_reason (reason : string) (n : Notes) : Notes :=
  {| n_reasons := n_reasons n ++ [reason]; n_uncertain := n_uncertain n;
     n_valid_until := n_valid_until n |}.

Definition mark_uncertain (reason : string) (n : Notes) : Notes :=
  {| n_reasons := n_reasons n ++ [reason]; n_uncertain := true;
     n_valid_until := n_valid_until n |}.

Definition push_if (c : bool) (reason : string) (n : Notes) : Notes :=
  if c then push_reason reason n else n.
Definition mark_if (c : bool) (reason : string) (n : Notes) : Notes :=
  if c then mark_uncertain reason n else n.

Definition check_freshness (timestamp : option N) (max_age_days now_utc_ms : N) (label : string)
    (n : Notes) : result PolicyError Notes :=
  match timestamp with
  | None => Ok (mark_uncertain (label +:+ "_time_missing") n)
  | Some timestamp =>
      if (now_utc_ms <? timestamp)%N then Ok (mark_uncertain (label +:+ "_time_in_future") n)
      else
        age_ms ← ok_or (checked_mul_u64 max_age_days DAY_MS)
          (InvalidState (label +:+ " age limit overflows"));
        expiry ← ok_or (checked_add_u64 timestamp age_ms)
          (InvalidState (label +:+ " expiry overflows"));
        if (expiry <=? now_utc_ms)%N then Ok (mark_uncertain (label +:+ "_stale") n)
        else Ok {| n_reasons := n_reasons n; n_uncertain := n_uncertain n;
                   n_valid_until := minimum_time (n_valid_until n) (Some expiry) |}
  end.

Definition add_custom_domains (topology : DomainTopology) (entity_type : string)
    (entity_id : option string) (domains : gset string) : gset string :=
  match entity_id with
  | None => domains
  | Some entity_id =>
      match assignments topology !! (entity_type, entity_id) with
      | Some assigned => domains ∪ set_map (λ id, "risk:" +:+ id) assigned
      | None => domains
      end
  end.

(** The checks of the verification result, up to the device checks. *)
Definition check_verification (copy : CopyFact) (n : Notes) : Notes :=
  match last_verification_result copy with
  | Some result =>
      if bool_decide (result = "ok") then n else push_reason ("verification_" +:+ result) n
  | None => mark_uncertain "verification_missing" n
  end.

Definition check_trust (copy : CopyFact) (n : Notes) : Notes :=
  match trust_level copy with
  | Some level =>
      if bool_decide (level = "trusted") then n
      else if bool_decide (level = "untrusted") then push_reason "location_untrusted" n
      else mark_uncertain "location_trust_unknown" n
  | None => mark_uncertain "location_trust_unknown" n
  end.

(** The site the copy counts for: the empty string when it has none. *)
Definition check_site (copy : CopyFact) (n : Notes) : string * Notes :=
  match site_id copy with
  | Some site_id =>
      if bool_decide (site_status copy = Some "active") then (site_id, n)
      else ("", push_reason "site_inactive" n)
  | None => ("", mark_uncertain "site_unknown" n)
  end.

Definition check_device (copy : CopyFact) (requirements : PolicyRequirements) (now_utc_ms : N)
    (n : Notes) : result PolicyError Notes :=
  if bool_decide (location_kind copy = "filesystem") then
    let n := push_if (negb (bool_decide (archive_root_status copy = Some "active")))
               "archive_root_inactive" n in
    let n := mark_if (negb (bool_decide (archive_root_device_id copy = device_id copy)))
               "archive_root_device_mismatch" n in
    let n := push_if (negb (bool_decide (device_status copy = Some "active")))
               "device_inactive" n in
    let n := mark_if (negb (bool_decide (device_identity_state copy = Some "confirmed")))
               "device_identity_unconfirmed" n in
    let n := mark_if (negb (bool_decide (last_fingerprint_status copy = Some "match")))
               "device_fingerprint_not_matched" n in
    n ← check_freshness (last_checkin_time_utc_ms copy)
          (max_device_checkin_age_days requirements) now_utc_ms "device_checkin" n;
    check_freshness (last_fingerprint_match_time_utc_ms copy)
      (max_device_checkin_age_days requirements) now_utc_ms "device_fingerprint" n
  else
    Ok (mark_if (negb (bool_decide (location_kind copy = "service"))) "location_kind_unknown" n).

Definition check_encryption (copy : CopyFact) (file : FileFact)
    (requirements : PolicyRequirements) (site_id : string) (n : Notes) : Notes :=
  if require_encrypted_offsite requirements
     && negb (bool_decide (site_id = home_site_id file))
     && negb (bool_decide (encryption_state copy = Some "encrypted"))
  then if bool_decide (encryption_state copy = Some "unencrypted")
       then push_reason "offsite_copy_unencrypted" n
       else mark_uncertain "offsite_encryption_unknown" n
  else n.

Definition copy_domains (copy : CopyFact) (topology : DomainTopology) (site_id : string)
    : gset string :=
  let domains : gset string :=
    match device_id copy with
    | Some device_id => {["device:" +:+ device_id]}
    | None => {["service:" +:+ location_id copy]}
    end in
  let domains := domains ∪ {["site:" +:+ site_id]} in
  let domains := add_custom_domains topology "location" (Some (location_id copy)) domains in
  let domains := add_custom_domains topology "archive_root" (archive_root_id copy) domains in
  let domains := add_custom_domains topology "device" (device_id copy) domains in
  add_custom_domains topology "site" (Some site_id) domains.

Definition qualified_copy (copy : CopyFact) (file : FileFact) (topology : DomainTopology)
    (site_id : string) : QualifiedCopy :=
  {| q_copy_claim_id := copy_claim_id copy;
     q_location_id := location_id copy;
     q_location_name := location_name copy;
     q_device_id := device_id copy;
     q_device_name := device_name copy;
     q_site_id := site_id;
     q_site_name := default site_id (site_name copy);
     offsite := negb (bool_decide (site_id = home_site_id file));
     offline := bool_decide (location_expected_availability copy = "offline")
                || bool_decide (device_expected_availability copy = Some "offline");
     encrypted := bool_decide (encryption_state copy = Some "encrypted");
     domains := copy_domains copy topology site_id |}.

(** [valid_until] is the caller's local: it is passed in and returned. *)
Definition assess_copy (copy : CopyFact) (file : FileFact) (requirements : PolicyRequirements)
    (topology : DomainTopology) (now_utc_ms : N) (valid_until : option N)
    : result PolicyError (CopyAssessment * option N) :=
  let n := {| n_reasons := []; n_uncertain := false; n_valid_until := valid_until |} in
  let n := push_if (negb (bool_decide (copy_object_id copy = object_id file)))
             "object_identity_mismatch" n in
  let n := push_if (negb (bool_decide (state copy = "present")))
             ("copy_state_" +:+ state copy) n in
  let n := check_verification copy n in
  n ← check_freshness (last_verified_time_utc_ms copy) (max_verification_age_days requirements)
        now_utc_ms "verification" n;
  n ← check_freshness (last_seen_time_utc_ms copy) (max_observation_age_days requirements)
        now_utc_ms "observation" n;
  let n := push_if (negb (bool_decide (location_status copy = "active")))
             "location_inactive" n in
  let n := check_trust copy n in
  let '(site_id, n) := check_site copy n in
  n ← check_device copy requirements now_utc_ms n;
  let n := check_encryption copy file requirements site_id n in
  Ok ({| assessed := if bool_decide (n_reasons n = [])
                     then Some (qualified_copy copy file topology site_id) else None;
         reasons := n_reasons n; uncertain := n_uncertain n |}, n_valid_until n).

(** ** Evaluation of one file *)

(** The locals of the loop over the copies in [evaluate_file]. *)
Record Tally : Type := {
  qualified : list QualifiedCopy;
  nonqualifying : list Value;
  has_uncertain_material : bool;
  tally_valid_until : option N;
}.

Definition nonqualifying_copy (copy : CopyFact) (reasons : list string) (uncertain : bool)
    : Value :=
  json_object
    [("copy_claim_id", Str (copy_claim_id copy)); ("location_id", Str (location_id copy));
     ("location_name", Str (location_name copy)); ("reasons", json_strings reasons);
     ("uncertain", Bool uncertain)].

Definition tally_copy (file : FileFact) (requirements : PolicyRequirements)
    (topology : DomainTopology) (now_utc_ms : N) (t : Tally) (copy : CopyFact)
    : result PolicyError Tally :=
  '(assessment, valid_until) ←
    assess_copy copy file requirements topology now_utc_ms (tally_valid_until t);
  match assessed assessment with
  | Some copy =>
      Ok {| qualified := qualified t ++ [copy]; nonqualifying := nonqualifying t;
            has_uncertain_material := has_uncertain_material t;
            tally_valid_until := valid_until |}
  | None =>
      Ok {| qualified := qualified t;
            nonqualifying := nonqualifying t
              ++ [nonqualifying_copy copy (reasons assessment) (uncertain assessment)];
            has_uncertain_material := has_uncertain_material t || uncertain assessment;
            tally_valid_until := valid_until |}
  end.

Definition identity_usable (file : FileFact) : bool :=
  bool_decide (identity_state file = "resolved") && is_some_b (object_id file)
  && bool_decide (hash_algo file = Some "blake3").

Definition tally_copies (file : FileFact) (requirements : PolicyRequirements)
    (topology : DomainTopology) (now_utc_ms : N) : result PolicyError Tally :=
  if identity_usable file then
    fold_result (tally_copy file requirements topology now_utc_ms)
      {| qualified := []; nonqualifying := []; has_uncertain_material := false;
         tally_valid_until := None |} (copies file)
  else
    Ok {| qualified := [];
          nonqualifying := (λ copy,
            nonqualifying_copy copy ["file_identity_not_resolved_to_blake3"] true)
            <$> copies file;
          has_uncertain_material := true; tally_valid_until := None |}.

Definition device_ids (qualified : list QualifiedCopy) : gset string :=
  list_to_set (omap q_device_id qualified).
Definition site_ids (qualified : list QualifiedCopy) : gset string :=
  list_to_set (q_site_id <$> qualified).

(** [usize_from_u64] on a 64-bit target. *)
Definition usize_from_u64 (value : N) : N := value.

Definition count_requirement (name : string) (required : N) (actual : nat) : list Value :=
  if (N.of_nat actual <? usize_from_u64 required)%N then
    [json_object [("requirement", Str name); ("required", Num (PosInt required));
                  ("actual", json_usize actual)]]
  else [].

Definition flag_requirement (name : string) (required met : bool) : list Value :=
  if required && negb met then [json_object [("requirement", Str name)]] else [].

Definition failed_requirements (requirements : PolicyRequirements)
    (qualified : list QualifiedCopy) : list Value :=
  count_requirement "min_qualifying_copies" (min_qualifying_copies requirements)
    (length qualified)
  ++ count_requirement "min_devices" (min_devices requirements) (size (device_ids qualified))
  ++ count_requirement "min_sites" (min_sites requirements) (size (site_ids qualified))
  ++ flag_requirement "require_offsite_copy" (require_offsite_copy requirements)
       (existsb offsite qualified)
  ++ flag_requirement "require_offline_copy" (require_offline_copy requirements)
       (existsb offline qualified)
  ++ flag_requirement "require_encrypted_offsite" (require_encrypted_offsite requirements)
       (existsb (λ copy, offsite copy && encrypted copy) qualified).

(** [Vec::is_empty] *)
Definition is_empty {A} (l : list A) : bool := match l with [] => true | _ => false end.

(** The display name of a failure domain. *)
Definition domain_name (copies : list QualifiedCopy) (topology : DomainTopology)
    (kind id : string) : string :=
  if bool_decide (kind = "risk") then default id (names topology !! id)
  else if bool_decide (kind = "device") then
    default id
      (list_find (λ copy, q_device_id copy = Some id) copies ≫= λ '(_, copy), q_device_name copy)
  else if bool_decide (kind = "site") then
    default id
      ((λ '(_, copy), q_site_name copy) <$> list_find (λ copy, q_site_id copy = id) copies)
  else if bool_decide (kind = "service") then
    default id
      ((λ '(_, copy), q_location_name copy)
       <$> list_find (λ copy, q_location_id copy = id) copies)
  else id.

Definition loss_scenario (copies : list QualifiedCopy) (topology : DomainTopology)
    (domain : string) : Value :=
  let '(kind, id) := default ("unknown", domain) (split_once ":" domain) in
  let affected := filter (λ copy, domain ∈ domains copy) copies in
  let remaining := length copies - length affected in
  json_object
    [("domain_kind", Str kind); ("domain_id", Str id);
     ("domain_name", Str (domain_name copies topology kind id));
     ("affected_copies", Arr ((λ copy, json_object
        [("copy_claim_id", Str (q_copy_claim_id copy));
         ("location_id", Str (q_location_id copy));
         ("location_name", Str (q_location_name copy))]) <$> affected));
     ("remaining_qualifying_copies", json_usize remaining);
     ("permanent_loss", Bool (negb (is_empty copies) && (remaining =? 0)))].

Definition all_domains (copies : list QualifiedCopy) : gset string := ⋃ (domains <$> copies).

Definition loss_scenarios (copies : list QualifiedCopy) (topology : DomainTopology)
    : list Value :=
  loss_scenario copies topology <$> btree_elements (all_domains copies).

(** [scenario["permanent_loss"] == Value::Bool(true)] *)
Definition is_permanent_loss (scenario : Value) : bool :=
  match value_get "permanent_loss" scenario with Some (Bool b) => b | _ => false end.

Definition reason_actions (reason : string) : list string :=
  (if contains "verification" reason then ["verify the copy again"] else [])
  ++ (if contains "observation" reason then ["scan the location again"] else [])
  ++ (if contains "device" reason || contains "fingerprint" reason
      then ["connect and check in the expected device"] else [])
  ++ (if contains "unknown" reason || contains "mismatch" reason
      then ["review and classify the location topology"] else []).

Definition recommended_actions (identity_usable : bool) (failed_requirements : list Value)
    (nonqualifying : list Value) (permanent_loss : bool) : list string :=
  let of_copy (copy : Value) :=
    omap as_str (default [] (value_get "reasons" copy ≫= as_array)) ≫= reason_actions in
  btree_set
    ((if negb identity_usable then ["resolve the file identity to BLAKE3"] else [])
     ++ (nonqualifying ≫= of_copy)
     ++ (if negb (is_empty failed_requirements) || permanent_loss
         then ["create and verify an independent copy"] else [])).

Definition qualifying_copy_review (copy : QualifiedCopy) : QualifyingCopyReview :=
  {| r_copy_claim_id := q_copy_claim_id copy; r_location_id := q_location_id copy;
     r_location_name := q_location_name copy; r_device_id := q_device_id copy;
     r_site_id := q_site_id copy; r_offsite := offsite copy; r_offline := offline copy;
     r_encrypted := encrypted copy |}.

Definition evaluate_file (file : FileFact) (requirements : PolicyRequirements)
    (topology : DomainTopology) (now_utc_ms : N) : result PolicyError FileEvaluation :=
  t ← tally_copies file requirements topology now_utc_ms;
  let identity_usable := identity_usable file in
  let failed_requirements := failed_requirements requirements (qualified t) in
  let loss_scenarios := loss_scenarios (qualified t) topology in
  let permanent_loss := existsb is_permanent_loss loss_scenarios in
  let has_failure :=
    negb (is_empty failed_requirements) || permanent_loss || negb identity_usable in
  let status :=
    if has_failure then
      Some (if has_uncertain_material t || negb identity_usable
            then "uncertain" else "violated")
    else None in
  let actions := recommended_actions identity_usable failed_requirements (nonqualifying t)
                   permanent_loss in
  Ok {| status := status;
        file_reasons := json_object
          [("logical_path", Str (logical_path_display file));
           ("collection_id", Str (collection_id file));
           ("collection_name", Str (collection_name file));
           ("identity_state", Str (identity_state file));
           ("hash_algo", json_option (hash_algo file));
           ("qualifying_copy_count", json_usize (length (qualified t)));
           ("qualifying_device_ids",
              json_strings (btree_elements (device_ids (qualified t))));
           ("qualifying_site_ids", json_strings (btree_elements (site_ids (qualified t))));
           ("failed_requirements", Arr failed_requirements);
           ("loss_scenarios", Arr loss_scenarios);
           ("nonqualifying_copies", Arr (nonqualifying t))];
        actions := json_strings actions;
        valid_until_utc_ms := tally_valid_until t;
        qualifying_copies := qualifying_copy_review <$> qualified t |}.

(** ** Specification of a qualifying copy *)

(** When a timestamp stops being recent. *)
Definition expiry (timestamp max_age_days : N) : N := timestamp + max_age_days * DAY_MS.

(** The timestamp is known, not in the future and not older than the limit. *)
Definition fresh (timestamp : option N) (max_age_days now_utc_ms : N) : Prop :=
  ∃ t, timestamp = Some t ∧ (t <= now_utc_ms < expiry t max_age_days)%N.

(** What a device must show for a copy in a file system on it. *)
Record sound_device (requirements : PolicyRequirements) (now_utc_ms : N) (copy : CopyFact)
    : Prop := {
  root_active : archive_root_status copy = Some "active";
  root_device : archive_root_device_id copy = device_id copy;
  device_active : device_status copy = Some "active";
  device_confirmed : device_identity_state copy = Some "confirmed";
  fingerprint_match : last_fingerprint_status copy = Some "match";
  checkin_fresh : fresh (last_checkin_time_utc_ms copy)
    (max_device_checkin_age_days requirements) now_utc_ms;
  fingerprint_fresh : fresh (last_fingerprint_match_time_utc_ms copy)
    (max_device_checkin_age_days requirements) now_utc_ms;
}.

(** A copy that counts: of this object, present and verified recently, in an active
    and trusted location of an active site, on a confirmed device or a service, and
    encrypted where the policy asks for it. *)
Record sound_copy (file : FileFact) (requirements : PolicyRequirements) (now_utc_ms : N)
    (copy : CopyFact) : Prop := {
  same_object : copy_object_id copy = object_id file;
  copy_present : state copy = "present";
  verification_ok : last_verification_result copy = Some "ok";
  verification_fresh : fresh (last_verified_time_utc_ms copy)
    (max_verification_age_days requirements) now_utc_ms;
  observation_fresh : fresh (last_seen_time_utc_ms copy)
    (max_observation_age_days requirements) now_utc_ms;
  location_active : location_status copy = "active";
  location_trusted : trust_level copy = Some "trusted";
  site_active : is_Some (site_id copy) ∧ site_status copy = Some "active";
  kind_sound : location_kind copy = "filesystem" ∧ sound_device requirements now_utc_ms copy
    ∨ location_kind copy = "service";
  encryption_sound : require_encrypted_offsite requirements = true →
    site_id copy ≠ Some (home_site_id file) → encryption_state copy = Some "encrypted";
}.

(** The time [o] is no later than [e]. *)
Definition expires_by (o : option N) (e : N) : Prop := ∃ v, o = Some v ∧ (v <= e)%N.

(** What a check does to the notes: the reasons stay empty exactly if [good], the
    copy becomes uncertain exactly if [doubt], and the time limit only shrinks, to
    at most every time of [E] when the check passes. *)
Record checks (good doubt : Prop) (E : N → Prop) (n n' : Notes) : Prop := {
  checks_reasons : n_reasons n' = [] ↔ n_reasons n = [] ∧ good;
  checks_uncertain : n_uncertain n' = true ↔ n_uncertain n = true ∨ doubt;
  checks_limit : ∀ e, expires_by (n_valid_until n) e → expires_by (n_valid_until n') e;
  checks_expiry : good → ∀ e, E e → expires_by (n_valid_until n') e;
}.

(** The timestamps of a check as times of expiry. *)
Definition expiry_of (timestamp : option N) (max_age_days : N) (e : N) : Prop :=
  ∃ t, timestamp = Some t ∧ e = expiry t max_age_days.

Definition never (e : N) : Prop := False.

Lemma expires_by_minimum a b e :
  expires_by (minimum_time a b) e ↔ expires_by a e ∨ expires_by b e.
Proof.
  unfold expires_by, minimum_time. destruct a as [a|], b as [b|].
  - split.
    + intros (v & [= <-] & Hv). destruct (N.min_spec a b) as [[? ->]|[? ->]] in Hv; eauto.
    + intros [(v & [= ->] & Hv) | (v & [= ->] & Hv)]; eexists; split; [done | lia | done | lia].
  - naive_solver.
  - naive_solver.
  - naive_solver.
Qed.

Lemma checks_trans g1 d1 E1 g2 d2 E2 n1 n2 n3 :
  checks g1 d1 E1 n1 n2 → checks g2 d2 E2 n2 n3 →
  checks (g1 ∧ g2) (d1 ∨ d2) (λ e, E1 e ∨ E2 e) n1 n3.
Proof. intros [R1 U1 L1 X1] [R2 U2 L2 X2]. split; [tauto | tauto | eauto |]. naive_solver. Qed.

Lemma snoc_not_nil {A} (l : list A) x : l ++ [x] ≠ [].
Proof. by destruct l. Qed.

Lemma checks_pass (P : Prop) n : P → checks P (¬ P) never n n.
Proof. intros. split; [tauto | tauto | done | by intros _ e []]. Qed.

Lemma checks_id n : checks True False never n n.
Proof. split; [tauto | tauto | done | by intros _ e []]. Qed.

Lemma checks_push reason n : checks False False never n (push_reason reason n).
Proof. split; cbn; [|tauto|done|done]. split; [by intros ?%snoc_not_nil | tauto]. Qed.

Lemma checks_mark (P : Prop) E reason n : ¬ P → checks P (¬ P) E n (mark_uncertain reason n).
Proof. split; cbn; [|tauto|done|done]. split; [by intros ?%snoc_not_nil | tauto]. Qed.

Lemma checks_iff g d E g' d' n n' :
  checks g d E n n' → (g ↔ g') → (d ↔ d') → checks g' d' E n n'.
Proof. intros [R U L X] Hg Hd. split; [tauto | tauto | done | tauto]. Qed.

Lemma checks_push_if P `{!Decision P} reason n :
  checks P False never n (push_if (negb (bool_decide P)) reason n).
Proof.
  unfold push_if. case_bool_decide; cbn; eapply checks_iff;
    [apply checks_id | tauto | tauto | apply checks_push | tauto | tauto].
Qed.

Lemma checks_mark_if P `{!Decision P} reason n :
  checks P (¬ P) never n (mark_if (negb (bool_decide P)) reason n).
Proof. unfold mark_if. case_bool_decide; cbn; [by apply checks_pass | by apply checks_mark]. Qed.

Lemma checks_freshness timestamp days now label n n' :
  check_freshness timestamp days now label n = Ok n' →
  checks (fresh timestamp days now) (¬ fresh timestamp days now) (expiry_of timestamp days) n n'.
Proof.
  intros H. unfold check_freshness in H. destruct timestamp as [t|].
  2:{ inv_ok. apply checks_mark. by intros (? & ? & _). }
  case_match eqn:Ht; boolify.
  { inv_ok. apply checks_mark. intros (? & [= <-] & ?). lia. }
  inv_ok. rewrite checked_mul_u64_Some in *. rewrite checked_add_u64_Some in *.
  destruct_and!; subst. case_match eqn:He; boolify; inv_ok.
  { apply checks_mark. intros (? & [= <-] & ?). unfold expiry in *. lia. }
  assert (fresh (Some t) days now) as Hf by (exists t; unfold expiry; split; [done | lia]).
  split; cbn; [tauto | tauto | |].
  - intros e He'. apply expires_by_minimum. auto.
  - intros _ e (t' & [= <-] & ->). apply expires_by_minimum. right. eexists. split; [done |].
    unfold expiry. lia.
Qed.

#[export] Instance checks_proper : Proper (iff ==> iff ==> eq ==> eq ==> eq ==> iff) checks.
Proof.
  intros g g' Hg d d' Hd E ? <- n ? <- n' ? <-.
  split; intros; eapply checks_iff; eauto; tauto.
Qed.

(** The site a copy is counted for, empty when it has no active one. *)
Definition counted_site (copy : CopyFact) : string :=
  match site_id copy with
  | Some s => if bool_decide (site_status copy = Some "active") then s else ""
  | None => ""
  end.

(** What cannot be told about the device of a copy. *)
Definition doubtful_device (requirements : PolicyRequirements) (now_utc_ms : N)
    (copy : CopyFact) : Prop :=
  archive_root_device_id copy ≠ device_id copy
  ∨ device_identity_state copy ≠ Some "confirmed"
  ∨ last_fingerprint_status copy ≠ Some "match"
  ∨ ¬ fresh (last_checkin_time_utc_ms copy) (max_device_checkin_age_days requirements) now_utc_ms
  ∨ ¬ fresh (last_fingerprint_match_time_utc_ms copy)
        (max_device_checkin_age_days requirements) now_utc_ms.

(** Something about the copy is unknown or out of date, rather than known bad. *)
Definition doubtful (file : FileFact) (requirements : PolicyRequirements) (now_utc_ms : N)
    (copy : CopyFact) : Prop :=
  last_verification_result copy = None
  ∨ ¬ fresh (last_verified_time_utc_ms copy) (max_verification_age_days requirements) now_utc_ms
  ∨ ¬ fresh (last_seen_time_utc_ms copy) (max_observation_age_days requirements) now_utc_ms
  ∨ trust_level copy ∉ [Some "trusted"; Some "untrusted"]
  ∨ site_id copy = None
  ∨ (location_kind copy = "filesystem" ∧ doubtful_device requirements now_utc_ms copy)
  ∨ location_kind copy ∉ ["filesystem"; "service"]
  ∨ (require_encrypted_offsite requirements = true
     ∧ counted_site copy ≠ home_site_id file
     ∧ encryption_state copy ∉ [Some "encrypted"; Some "unencrypted"]).

Lemma checks_verification copy n :
  checks (last_verification_result copy = Some "ok") (last_verification_result copy = None) never
    n (check_verification copy n).
Proof.
  unfold check_verification. destruct (last_verification_result copy) as [r|].
  - case_bool_decide as Hr; eapply checks_iff;
      [apply checks_id | naive_solver | naive_solver
      | apply checks_push | naive_solver | naive_solver].
  - eapply checks_iff; [apply (checks_mark False); tauto | naive_solver | naive_solver].
Qed.

Lemma checks_trust copy n :
  checks (trust_level copy = Some "trusted")
    (trust_level copy ∉ [Some "trusted"; Some "untrusted"]) never n (check_trust copy n).
Proof.
  unfold check_trust. setoid_rewrite elem_of_cons. setoid_rewrite list_elem_of_singleton.
  destruct (trust_level copy) as [r|].
  - case_bool_decide as Hr; [|case_bool_decide as Hr'].
    + eapply checks_iff; [apply checks_id | naive_solver | naive_solver].
    + eapply checks_iff; [apply checks_push | naive_solver | naive_solver].
    + eapply checks_iff; [apply (checks_mark False); tauto | naive_solver | naive_solver].
  - eapply checks_iff; [apply (checks_mark False); tauto | naive_solver | naive_solver].
Qed.

Lemma checks_site copy n :
  (check_site copy n).1 = counted_site copy ∧
  checks (is_Some (site_id copy) ∧ site_status copy = Some "active") (site_id copy = None) never
    n (check_site copy n).2.
Proof.
  unfold check_site, counted_site. destruct (site_id copy) as [s|]; cbn.
  - case_bool_decide; (split; [done |]); eapply checks_iff;
      [apply checks_id | naive_solver | naive_solver
      | apply checks_push | naive_solver | naive_solver].
  - split; [done |].
    eapply checks_iff; [apply (checks_mark False); tauto | naive_solver | naive_solver].
Qed.

(** The times of expiry of a copy, and of its device in a file system. *)
Definition device_expiry (requirements : PolicyRequirements) (copy : CopyFact) (e : N) : Prop :=
  location_kind copy = "filesystem" ∧
  (expiry_of (last_checkin_time_utc_ms copy) (max_device_checkin_age_days requirements) e
   ∨ expiry_of (last_fingerprint_match_time_utc_ms copy)
       (max_device_checkin_age_days requirements) e).

Definition copy_expiry (requirements : PolicyRequirements) (copy : CopyFact) (e : N) : Prop :=
  expiry_of (last_verified_time_utc_ms copy) (max_verification_age_days requirements) e
  ∨ expiry_of (last_seen_time_utc_ms copy) (max_observation_age_days requirements) e
  ∨ device_expiry requirements copy e.

Lemma checks_weaken_E g d E (E' : N → Prop) n n' :
  checks g d E n n' → (g → ∀ e, E' e → E e) → checks g d E' n n'.
Proof. intros [R U L X] HE. split; [tauto | tauto | done | eauto]. Qed.

Lemma checks_device copy requirements now n n' :
  check_device copy requirements now n = Ok n' →
  checks (location_kind copy = "filesystem" ∧ sound_device requirements now copy
          ∨ location_kind copy = "service")
    ((location_kind copy = "filesystem" ∧ doubtful_device requirements now copy)
     ∨ location_kind copy ∉ ["filesystem"; "service"])
    (device_expiry requirements copy) n n'.
Proof.
  intros H. unfold check_device in H.
  case_bool_decide as Hk; setoid_rewrite elem_of_cons; setoid_rewrite list_elem_of_singleton.
  - apply bind_Ok in H as (n1 & H1 & H2).
    apply checks_freshness in H1. apply checks_freshness in H2.
    pose proof (checks_trans _ _ _ _ _ _ _ _ _ (checks_trans _ _ _ _ _ _ _ _ _
      (checks_trans _ _ _ _ _ _ _ _ _ (checks_trans _ _ _ _ _ _ _ _ _
      (checks_trans _ _ _ _ _ _ _ _ _ (checks_trans _ _ _ _ _ _ _ _ _
      (checks_push_if _ _ _) (checks_mark_if _ _ _)) (checks_push_if _ _ _))
      (checks_mark_if _ _ _)) (checks_mark_if _ _ _)) H1) H2) as Hc.
    eapply checks_weaken_E; [eapply checks_iff; [exact Hc | ..] |].
    + rewrite Hk. split; [intros ?; left; split; [done |]; constructor; tauto |].
      intros [[_ []] | ?]; [tauto | done].
    + unfold doubtful_device. rewrite Hk. tauto.
    + intros _ e [_ ?]. tauto.
  - inv_ok. eapply checks_weaken_E; [eapply checks_iff; [apply checks_mark_if | ..] |].
    + tauto.
    + tauto.
    + by intros _ e [? _].
Qed.

Lemma checks_encryption copy file requirements site n :
  checks (require_encrypted_offsite requirements = true → site ≠ home_site_id file →
          encryption_state copy = Some "encrypted")
    (require_encrypted_offsite requirements = true ∧ site ≠ home_site_id file
     ∧ encryption_state copy ∉ [Some "encrypted"; Some "unencrypted"]) never
    n (check_encryption copy file requirements site n).
Proof.
  unfold check_encryption. setoid_rewrite elem_of_cons. setoid_rewrite list_elem_of_singleton.
  destruct (require_encrypted_offsite requirements); cbn; cycle 1.
  { eapply checks_iff; [apply checks_id | naive_solver | naive_solver]. }
  case_bool_decide; cbn.
  { eapply checks_iff; [apply checks_id | naive_solver | naive_solver]. }
  case_bool_decide; cbn.
  { eapply checks_iff; [apply checks_id | naive_solver | naive_solver]. }
  case_bool_decide as He; [eapply checks_iff; [apply checks_push | naive_solver | naive_solver] |].
  eapply checks_iff; [apply (checks_mark False); tauto | naive_solver | ].
  split; [intros _; split_and!; [done..|naive_solver] | tauto].
Qed.

(** The whole assessment of a copy. *)
Lemma assess_copy_spec copy file requirements topology now v a v' :
  assess_copy copy file requirements topology now v = Ok (a, v') →
  (assessed a = None ∧ ¬ sound_copy file requirements now copy
   ∨ assessed a = Some (qualified_copy copy file topology (counted_site copy))
     ∧ sound_copy file requirements now copy
     ∧ ∀ e, copy_expiry requirements copy e → expires_by v' e)
  ∧ (uncertain a = true ↔ doubtful file requirements now copy)
  ∧ ∀ e, expires_by v e → expires_by v' e.
Proof.
  intros H. unfold assess_copy in H. apply bind_Ok in H as (n1 & H1 & H).
  apply bind_Ok in H as (n2 & H2 & H).
  match type of H with context [check_site copy ?n] =>
    pose proof (checks_site copy n) as [Hs Hsite]; destruct (check_site copy n) as [s n3] end.
  cbn in Hs, Hsite. subst s. apply bind_Ok in H as (n4 & H4 & H). inv_ok. cbn.
  apply checks_freshness in H1. apply checks_freshness in H2. apply checks_device in H4.
  pose proof (checks_trans _ _ _ _ _ _ _ _ _ (checks_trans _ _ _ _ _ _ _ _ _
    (checks_trans _ _ _ _ _ _ _ _ _ (checks_trans _ _ _ _ _ _ _ _ _
    (checks_trans _ _ _ _ _ _ _ _ _ (checks_trans _ _ _ _ _ _ _ _ _
    (checks_trans _ _ _ _ _ _ _ _ _ (checks_trans _ _ _ _ _ _ _ _ _
    (checks_trans _ _ _ _ _ _ _ _ _ (checks_push_if _ _ _) (checks_push_if _ _ _))
    (checks_verification _ _)) H1) H2) (checks_push_if _ _ _)) (checks_trust _ _)) Hsite) H4)
    (checks_encryption copy file requirements (counted_site copy) _)) as [HR HU HL HX].
  set (n5 := check_encryption _ _ _ _ _) in *. clearbody n5. cbn in HR, HU, HL.
  split_and!.
  - assert (n_reasons n5 = [] ↔ sound_copy file requirements now copy) as Hiff.
    { rewrite HR. split.
      - intros [_ Hall]. destruct_and!. constructor; try done.
        intros Henc Hne. unfold counted_site in *.
        destruct (site_id copy) as [s|]; [|naive_solver].
        rewrite bool_decide_true in * by done. naive_solver.
      - intros []. split; [done |]. destruct site_active0 as [[s Hs] Hst].
        split_and!; try done. unfold counted_site. rewrite Hs, bool_decide_true by done.
        intros ? ?. apply encryption_sound0; [done | naive_solver]. }
    destruct (decide (n_reasons n5 = [])) as [Hn | Hn];
      [rewrite bool_decide_true by done | rewrite bool_decide_false by done].
    + right. split; [done |]. split; [by apply Hiff |]. intros e He. apply HX.
      * by apply HR.
      * clear -He. destruct He as [? | [? | ?]]; tauto.
    + left. split; [done | by rewrite <- Hiff].
  - rewrite HU. clear. unfold doubtful. split; [intros [? | ?]; [done | tauto] | tauto].
  - intros e He. by apply HL.
Qed.

(** ** What a verdict means *)

#[export] Instance fresh_dec timestamp days now : Decision (fresh timestamp days now).
Proof.
  refine (match timestamp with
          | Some t => cast_if (decide (t <= now < expiry t days)%N)
          | None => right _
          end); unfold fresh; [naive_solver.. | by intros (? & ? & _)].
Defined.

Lemma sound_device_iff requirements now copy :
  sound_device requirements now copy ↔
  archive_root_status copy = Some "active" ∧ archive_root_device_id copy = device_id copy ∧
  device_status copy = Some "active" ∧ device_identity_state copy = Some "confirmed" ∧
  last_fingerprint_status copy = Some "match" ∧
  fresh (last_checkin_time_utc_ms copy) (max_device_checkin_age_days requirements) now ∧
  fresh (last_fingerprint_match_time_utc_ms copy) (max_device_checkin_age_days requirements) now.
Proof. split; [intros []; tauto | intros; constructor; tauto]. Qed.

#[export] Instance sound_device_dec requirements now copy :
  Decision (sound_device requirements now copy).
Proof. refine (dec_iff (sound_device_iff _ _ _) _). Defined.

Lemma sound_copy_iff file requirements now copy :
  sound_copy file requirements now copy ↔
  copy_object_id copy = object_id file ∧ state copy = "present" ∧
  last_verification_result copy = Some "ok" ∧
  fresh (last_verified_time_utc_ms copy) (max_verification_age_days requirements) now ∧
  fresh (last_seen_time_utc_ms copy) (max_observation_age_days requirements) now ∧
  location_status copy = "active" ∧ trust_level copy = Some "trusted" ∧
  (is_Some (site_id copy) ∧ site_status copy = Some "active") ∧
  (location_kind copy = "filesystem" ∧ sound_device requirements now copy
   ∨ location_kind copy = "service") ∧
  (require_encrypted_offsite requirements = true →
   site_id copy ≠ Some (home_site_id file) → encryption_state copy = Some "encrypted").
Proof. split; [intros []; tauto | intros; constructor; tauto]. Qed.

#[export] Instance sound_copy_dec file requirements now copy :
  Decision (sound_copy file requirements now copy).
Proof. refine (dec_iff (sound_copy_iff _ _ _ _) _). Defined.

(** The copies of a file that count, as the evaluation sees them. *)
Definition counting (file : FileFact) (requirements : PolicyRequirements)
    (topology : DomainTopology) (now_utc_ms : N) : list QualifiedCopy :=
  (λ copy, qualified_copy copy file topology (counted_site copy))
    <$> filter (sound_copy file requirements now_utc_ms) (copies file).

(** Every requirement of the policy holds of the counting copies. *)
Record requirements_met (requirements : PolicyRequirements) (qs : list QualifiedCopy)
    : Prop := {
  enough_copies : (min_qualifying_copies requirements <= N.of_nat (length qs))%N;
  enough_devices : (min_devices requirements <= N.of_nat (size (device_ids qs)))%N;
  enough_sites : (min_sites requirements <= N.of_nat (size (site_ids qs)))%N;
  offsite_met : require_offsite_copy requirements = true → ∃ q, q ∈ qs ∧ offsite q = true;
  offline_met : require_offline_copy requirements = true → ∃ q, q ∈ qs ∧ offline q = true;
  encrypted_met : require_encrypted_offsite requirements = true →
    ∃ q, q ∈ qs ∧ offsite q = true ∧ encrypted q = true;
}.

(** Whatever single failure domain is lost, a counting copy is outside it. *)
Definition survives_any_loss (qs : list QualifiedCopy) : Prop :=
  qs ≠ [] → ∀ domain, ∃ q, q ∈ qs ∧ domain ∉ domains q.

(** A copy that does not count, for want of knowledge about it. *)
Definition uncertain_copy (file : FileFact) (requirements : PolicyRequirements)
    (now_utc_ms : N) : Prop :=
  ∃ copy, copy ∈ copies file ∧ ¬ sound_copy file requirements now_utc_ms copy
    ∧ doubtful file requirements now_utc_ms copy.

(** ** Lemmas *)

Lemma tally_copies_spec file requirements topology now t :
  identity_usable file = true → tally_copies file requirements topology now = Ok t →
  qualified t = counting file requirements topology now ∧
  (has_uncertain_material t = true ↔ uncertain_copy file requirements now) ∧
  ∀ copy e, copy ∈ copies file → sound_copy file requirements now copy →
    copy_expiry requirements copy e → expires_by (tally_valid_until t) e.
Proof.
  unfold tally_copies, counting, uncertain_copy. intros -> H. revert H.
  apply (fold_result_ind _ (λ done t,
    qualified t = (λ copy, qualified_copy copy file topology (counted_site copy))
      <$> filter (sound_copy file requirements now) done ∧
    (has_uncertain_material t = true ↔ ∃ copy, copy ∈ done ∧
      ¬ sound_copy file requirements now copy ∧ doubtful file requirements now copy) ∧
    ∀ copy e, copy ∈ done → sound_copy file requirements now copy →
      copy_expiry requirements copy e → expires_by (tally_valid_until t) e)).
  - split_and!; [done | | set_solver]. split; [done | set_solver].
  - intros done copy t0 t1 (Hq & Hu & He) Hstep. unfold tally_copy in Hstep.
    apply bind_Ok in Hstep as ([a v] & Ha & Hstep).
    apply assess_copy_spec in Ha as (Hcase & Hunc & Hlim).
    setoid_rewrite elem_of_app. setoid_rewrite list_elem_of_singleton. rewrite filter_app, fmap_app.
    destruct Hcase as [[Hnone Hbad] | (Hsome & Hgood & Hexp)].
    + rewrite (filter_cons_False _ _ _ Hbad). rewrite Hnone in Hstep. inv_ok. cbn.
      split_and!; [by rewrite app_nil_r | | naive_solver].
      rewrite orb_true_iff, Hu, Hunc. naive_solver.
    + rewrite (filter_cons_True _ _ _ Hgood). rewrite Hsome in Hstep. inv_ok. cbn.
      split_and!; [by rewrite Hq | rewrite Hu; naive_solver | naive_solver].
Qed.

Lemma count_requirement_nil name required actual :
  count_requirement name required actual = [] ↔ (required <= N.of_nat actual)%N.
Proof. unfold count_requirement, usize_from_u64. case_match; boolify; naive_solver lia. Qed.

Lemma flag_requirement_nil name required met :
  flag_requirement name required met = [] ↔ (required = true → met = true).
Proof. unfold flag_requirement. destruct required, met; naive_solver. Qed.

Lemma existsb_elem {A} (f : A → bool) l : existsb f l = true ↔ ∃ x, x ∈ l ∧ f x = true.
Proof. rewrite existsb_exists. by setoid_rewrite list_elem_of_In. Qed.

Lemma is_empty_true {A} (l : list A) : is_empty l = true ↔ l = [].
Proof. by destruct l. Qed.

Lemma failed_requirements_nil requirements qs :
  failed_requirements requirements qs = [] ↔ requirements_met requirements qs.
Proof.
  unfold failed_requirements.
  rewrite !app_nil, !count_requirement_nil, !flag_requirement_nil, !existsb_elem.
  setoid_rewrite andb_true_iff. split; [intros; constructor; tauto | intros []; tauto].
Qed.

Lemma permanent_loss_scenario qs topology domain :
  is_permanent_loss (loss_scenario qs topology domain) = true ↔
  qs ≠ [] ∧ ∀ q, q ∈ qs → domain ∈ domains q.
Proof.
  unfold loss_scenario, is_permanent_loss.
  destruct (default ("unknown", domain) (split_once ":" domain)) as [kind id].
  set (affected := filter _ _). set (v := value_get _ _).
  assert (v = Some (Bool (negb (is_empty qs) && (length qs - length affected =? 0)))) as ->
    by reflexivity.
  rewrite andb_true_iff, negb_true_iff, <- not_true_iff_false, is_empty_true, Nat.eqb_eq.
  enough (length qs - length affected = 0 ↔ ∀ q, q ∈ qs → domain ∈ domains q) by tauto.
  subst affected. induction qs as [|q qs IH]; [set_solver |].
  setoid_rewrite elem_of_cons. cbn [length].
  pose proof (length_filter (λ q, domain ∈ domains q) qs).
  destruct (decide (domain ∈ domains q)) as [Hq | Hq].
  - rewrite filter_cons_True by done. cbn [length]. rewrite Nat.sub_succ, IH. naive_solver.
  - rewrite filter_cons_False by done. split; [lia | naive_solver].
Qed.

Lemma no_permanent_loss qs topology :
  existsb is_permanent_loss (loss_scenarios qs topology) = false ↔ survives_any_loss qs.
Proof.
  rewrite <- not_true_iff_false, existsb_elem. unfold loss_scenarios, survives_any_loss.
  setoid_rewrite list_elem_of_fmap. split.
  - intros Hno Hne domain.
    destruct (decide (Exists (λ q, domain ∉ domains q) qs)) as [Hex | Hall].
    { by apply list.Exists_exists in Hex. }
    destruct Hno. assert (∀ q, q ∈ qs → domain ∈ domains q) as Hin.
    { intros q Hq. apply dec_stable. intros Hd. apply Hall, list.Exists_exists. eauto. }
    exists (loss_scenario qs topology domain). split; [|by apply permanent_loss_scenario].
    exists domain. split; [done |]. unfold btree_elements, all_domains.
    rewrite merge_sort_Permutation, elem_of_elements, elem_of_union_list.
    destruct qs as [|q qs]; [done |]. exists (domains q). split; [set_solver |].
    apply Hin. by left.
  - intros Hs (sc & (domain & -> & _) & [Hne Hall]%permanent_loss_scenario).
    destruct (Hs Hne domain) as (q & Hq & Hd). auto.
Qed.

#[export] Instance Value_inhabited : Inhabited Value := populate Null.

(** No failure: the conditions under which a file is satisfied. *)
Definition secured (file : FileFact) (requirements : PolicyRequirements)
    (topology : DomainTopology) (now_utc_ms : N) : Prop :=
  identity_usable file = true ∧
  requirements_met requirements (counting file requirements topology now_utc_ms) ∧
  survives_any_loss (counting file requirements topology now_utc_ms).

Lemma evaluate_file_spec file requirements topology now ev :
  evaluate_file file requirements topology now = Ok ev →
  (secured file requirements topology now ∧ status ev = None
   ∨ ¬ secured file requirements topology now ∧
     ((identity_usable file = false ∨ uncertain_copy file requirements now)
      ∧ status ev = Some "uncertain"
      ∨ identity_usable file = true ∧ ¬ uncertain_copy file requirements now
      ∧ status ev = Some "violated")) ∧
  (identity_usable file = true →
     qualifying_copies ev = qualifying_copy_review <$> counting file requirements topology now ∧
     ∀ copy e, copy ∈ copies file → sound_copy file requirements now copy →
       copy_expiry requirements copy e → expires_by (valid_until_utc_ms ev) e).
Proof.
  intros H. unfold evaluate_file in H. apply bind_Ok in H as (t & Ht & H). inv_ok. cbn.
  unfold secured. destruct (identity_usable file) eqn:Hid; cbn; cycle 1.
  { rewrite !orb_true_r. split; [right; split; [naive_solver | left; auto] | done]. }
  destruct (tally_copies_spec _ _ _ _ _ Hid Ht) as (Hq & Hu & He).
  split; [|rewrite <- Hq; eauto]. rewrite <- Hq, <- Hu, !orb_false_r.
  rewrite <- failed_requirements_nil, <- (no_permanent_loss _ topology), <- is_empty_true.
  destruct (is_empty _), (existsb _ _), (has_uncertain_material t); naive_solver.
Qed.

(** C34: how a file is judged. It is satisfied exactly when its identity is resolved to
    BLAKE3, its counting copies meet every requirement of the policy and some counting
    copy is left whatever single failure domain is lost. Otherwise it is violated if all
    the other copies are known to be bad, and uncertain if the identity or some copy
    that does not count is not known well enough. *)
Theorem evaluate_file_status file requirements topology now ev :
  evaluate_file file requirements topology now = Ok ev →
  (status ev = None ↔ secured file requirements topology now) ∧
  (status ev = Some "violated" ↔
     ¬ secured file requirements topology now ∧ identity_usable file = true
     ∧ ¬ uncertain_copy file requirements now) ∧
  (status ev = Some "uncertain" ↔
     ¬ secured file requirements topology now
     ∧ (identity_usable file = false ∨ uncertain_copy file requirements now)) ∧
  (status ev = None ∨ status ev = Some "violated" ∨ status ev = Some "uncertain").
Proof. intros [[[Hs ->] | [Hs [[Hd ->] | (Hid & Hu & ->)]]] _]%evaluate_file_spec;
    intuition congruence.
Qed.

Lemma requirements_from_json_Ok `{FromJson PolicyRequirements} policy_id text r :
  requirements_from_json policy_id text = Ok r →
  (0 < min_qualifying_copies r)%N ∧ (0 < min_devices r)%N ∧ (0 < min_sites r)%N ∧
  ∀ days, days ∈ [max_verification_age_days r; max_observation_age_days r;
                  max_device_checkin_age_days r] → (0 < days ∧ days * DAY_MS <= u64_max)%N.
Proof.
  intros Hr. unfold requirements_from_json in Hr. inv_ok. boolify.
  match goal with Hn : 0%N ∉ _ |- _ => rewrite !not_elem_of_cons in Hn; destruct_and! Hn end.
  match goal with Hf : for_each _ _ = _ |- _ => rewrite for_each_Ok in Hf; rename Hf into Hall end.
  split_and!; [lia..|]. intros days Hin.
  assert (∃ f, (f, days) ∈
    [("max_verification_age_days", max_verification_age_days r);
     ("max_observation_age_days", max_observation_age_days r);
     ("max_device_checkin_age_days", max_device_checkin_age_days r)]) as [f Hf].
  { rewrite !elem_of_cons in Hin. destruct Hin as [-> | [-> | [-> | []%elem_of_nil]]];
      [eexists; left | eexists; right; left | eexists; right; right; left]. }
  specialize (Hall _ Hf). cbn in Hall. apply bail_if_Ok in Hall. boolify.
  unfold checked_mul_u64 in Hall. case_match; [boolify|done].
  split; [|done]. rewrite !elem_of_cons in Hin. destruct Hin as [-> | [-> | [-> | []%elem_of_nil]]]; lia.
Qed.

(** The losses that take a copy with them: of its device, or of its service when it is on no
    device, of the site it counts for, and of any risk assigned to its location, archive root,
    device or site. *)
Inductive lost_with (copy : CopyFact) (topology : DomainTopology) : string → Prop :=
  | lost_device id : device_id copy = Some id → lost_with copy topology ("device:" +:+ id)
  | lost_service : device_id copy = None →
      lost_with copy topology ("service:" +:+ location_id copy)
  | lost_site : lost_with copy topology ("site:" +:+ counted_site copy)
  | lost_risk kind id risks risk :
      (kind, Some id) ∈ [("location", Some (location_id copy));
                         ("archive_root", archive_root_id copy);
                         ("device", device_id copy); ("site", Some (counted_site copy))] →
      assignments topology !! (kind, id) = Some risks → risk ∈ risks →
      lost_with copy topology ("risk:" +:+ risk).

Lemma elem_of_add_custom_domains topology kind id domains domain :
  domain ∈ add_custom_domains topology kind id domains ↔
  domain ∈ domains ∨ ∃ id' risks risk, id = Some id' ∧
    assignments topology !! (kind, id') = Some risks ∧ risk ∈ risks ∧ domain = "risk:" +:+ risk.
Proof.
  unfold add_custom_domains. destruct id as [id|]; [|naive_solver].
  destruct (assignments topology !! (kind, id)) as [risks|] eqn:Hr; [|naive_solver].
  rewrite elem_of_union, elem_of_map. naive_solver.
Qed.

Lemma elem_of_copy_domains copy topology domain :
  domain ∈ copy_domains copy topology (counted_site copy) ↔ lost_with copy topology domain.
Proof.
  unfold copy_domains. rewrite !elem_of_add_custom_domains, elem_of_union, elem_of_singleton.
  split.
  - assert (∀ kind id, (kind, id) ∈ [("location", Some (location_id copy));
        ("archive_root", archive_root_id copy); ("device", device_id copy);
        ("site", Some (counted_site copy))] →
      (∃ id' risks risk, id = Some id' ∧ assignments topology !! (kind, id') = Some risks ∧
         risk ∈ risks ∧ domain = "risk:" +:+ risk) → lost_with copy topology domain) as Hrisk.
    { intros kind id Hk (id' & risks & risk & -> & Ha & Hin & ->). by eapply lost_risk. }
    intros [[[[[Hd | ->] | Hr] | Hr] | Hr] | Hr].
    + destruct (device_id copy) eqn:Hdev; apply elem_of_singleton in Hd as ->; by constructor.
    + apply lost_site.
    + eapply Hrisk, Hr. by left.
    + eapply Hrisk, Hr. right. by left.
    + eapply Hrisk, Hr. do 2 right. by left.
    + eapply Hrisk, Hr. do 3 right. by left.
  - intros [id Hid | Hid | | kind id risks risk Hk Ha Hin].
    + rewrite Hid. do 5 left. by apply elem_of_singleton.
    + rewrite Hid. do 5 left. by apply elem_of_singleton.
    + do 4 left. by right.
    + rewrite !elem_of_cons in Hk.
      destruct Hk as [[= -> ->] | [[= -> Hid] | [[= -> Hid] | [[= -> ->] | []%elem_of_nil]]]];
        naive_solver.
Qed.

(** C12: a satisfied file under a policy that was accepted can lose any one device, site,
    service or risk domain: at least one of its copies that is present, recently
    verified, on sound media and outside the lost domain remains, and the counting
    copies are as many, on as many devices and sites, as the policy asks for. *)
Theorem satisfied_survives_loss `{FromJson PolicyRequirements} policy_id text file requirements
    topology now ev :
  requirements_from_json policy_id text = Ok requirements →
  evaluate_file file requirements topology now = Ok ev →
  status ev = None →
  (∀ domain, ∃ copy, copy ∈ copies file ∧ sound_copy file requirements now copy ∧
     ¬ lost_with copy topology domain) ∧
  ∃ sound, sound ⊆+ copies file ∧ Forall (sound_copy file requirements now) sound ∧
    (min_qualifying_copies requirements <= N.of_nat (length sound))%N ∧
    (min_devices requirements
       <= N.of_nat (size (list_to_set (omap device_id sound) : gset string)))%N ∧
    (min_sites requirements
       <= N.of_nat (size (list_to_set (counted_site <$> sound) : gset string)))%N ∧
    (require_offsite_copy requirements = true → ∃ copy, copy ∈ sound ∧
       counted_site copy ≠ home_site_id file).
Proof.
  intros Hreq Hev Hst. apply requirements_from_json_Ok in Hreq as (Hpos & _).
  apply evaluate_file_spec in Hev as [Hev _].
  destruct Hev as [[(_ & Hmet & Hloss) _] | [_ [[_ Hs] | (_ & _ & Hs)]]]; [|congruence..].
  destruct Hmet as [Hc Hd Hsi Hoff _ _]. unfold counting in *. rewrite length_fmap in Hc.
  set (sound := filter (sound_copy file requirements now) (copies file)) in *.
  split.
  - intros domain. destruct (Hloss) with domain as (q & (c & -> & Hin)%list_elem_of_fmap & Hdom).
    { intros Hn%fmap_nil_inv. rewrite Hn in Hc. cbn in Hc. lia. }
    apply list_elem_of_filter in Hin as [Hg Hin]. exists c.
    rewrite <- elem_of_copy_domains. split_and!; done.
  - exists sound. split_and!; [apply sublist_submseteq, sublist_filter 
      | by apply list.Forall_forall; intros c [? ?]%list_elem_of_filter | done | ..].
    + unfold device_ids in Hd. by rewrite omap_fmap in Hd.
    + unfold site_ids in Hsi. by rewrite <- list_fmap_compose in Hsi.
    + intros Ho. destruct (Hoff Ho) as (q & (c & -> & Hin)%list_elem_of_fmap & Hq).
      exists c. split; [done |]. cbn in Hq. boolify. done.
Qed.

(** ** A satisfied verdict stays satisfied until its time limit *)

Lemma filter_sublist_imp {A} (P Q : A → Prop) `{∀ x, Decision (P x), ∀ x, Decision (Q x)}
    (l : list A) :
  (∀ x, x ∈ l → P x → Q x) → filter P l `sublist_of` filter Q l.
Proof.
  induction l as [|x l IH]; intros HPQ; [done |].
  assert (filter P l `sublist_of` filter Q l) by (apply IH; intros y ?; apply HPQ; by right).
  destruct (decide (Q x)) as [HQ | HQ].
  - rewrite (filter_cons_True Q) by done. destruct (decide (P x)).
    + rewrite filter_cons_True by done. by constructor.
    + rewrite filter_cons_False by done. by constructor.
  - rewrite (filter_cons_False Q) by done. rewrite filter_cons_False; [done |].
    intros ?. apply HQ, HPQ; [left | done].
Qed.

Lemma omap_sublist {A B} (f : A → option B) l k :
  l `sublist_of` k → omap f l `sublist_of` omap f k.
Proof.
  induction 1 as [|x l k _ IH|x l k _ IH]; cbn; [done |..]; destruct (f x);
    first [done | by constructor].
Qed.

Lemma elem_of_sublist {A} (x : A) l k : l `sublist_of` k → x ∈ l → x ∈ k.
Proof. intros Hs Hx. eapply elem_of_submseteq; [exact Hx | by apply sublist_submseteq]. Qed.

Lemma size_list_to_set_sublist (l k : list string) :
  l `sublist_of` k → size (list_to_set l : gset string) ≤ size (list_to_set k : gset string).
Proof.
  intros Hs. apply subseteq_size. intros s. rewrite !elem_of_list_to_set.
  by apply elem_of_sublist.
Qed.

Lemma requirements_met_sublist requirements qs qs' :
  qs `sublist_of` qs' → requirements_met requirements qs → requirements_met requirements qs'.
Proof.
  intros Hs [Hc Hd Hsi Hof Hol He].
  assert (∀ q, q ∈ qs → q ∈ qs') as Hin.
  { intros q. by apply elem_of_sublist. }
  constructor.
  - apply sublist_length in Hs. lia.
  - pose proof (size_list_to_set_sublist _ _ (omap_sublist q_device_id _ _ Hs)).
    unfold device_ids in *. lia.
  - pose proof (size_list_to_set_sublist _ _ (fmap_sublist q_site_id _ _ Hs)).
    unfold site_ids in *. lia.
  - intros Hr. destruct (Hof Hr) as (q & ? & ?). eauto.
  - intros Hr. destruct (Hol Hr) as (q & ? & ?). eauto.
  - intros Hr. destruct (He Hr) as (q & ? & ?). eauto.
Qed.

Lemma survives_sublist qs qs' :
  qs `sublist_of` qs' → qs ≠ [] → survives_any_loss qs → survives_any_loss qs'.
Proof.
  intros Hs Hne Hl _ domain. destruct (Hl Hne domain) as (q & Hq & Hd). exists q. split; [|done].
  by eapply elem_of_sublist.
Qed.

(** A sound copy stays sound while every timestamp it depends on is fresh. *)
Lemma sound_copy_later file requirements copy now now' :
  (now <= now')%N → sound_copy file requirements now copy →
  (∀ e, copy_expiry requirements copy e → (now' < e)%N) →
  sound_copy file requirements now' copy.
Proof.
  intros Hle [] Hexp.
  assert (∀ ts days, fresh ts days now → (∀ e, expiry_of ts days e → (now' < e)%N) →
    fresh ts days now') as Hf.
  { intros ts days (t & -> & Ht) He. exists t. split; [done |]. split; [lia |].
    apply He. by exists t. }
  unfold copy_expiry, device_expiry in Hexp. constructor; try done.
  - apply Hf; [done | auto].
  - apply Hf; [done | auto].
  - destruct kind_sound0 as [[Hk []] | ?]; [left | by right]. split; [done |]. constructor; try done.
    + apply Hf; [done |]. intros. apply Hexp. tauto.
    + apply Hf; [done |]. intros. apply Hexp. tauto.
Qed.

(** As long as the time limit of a satisfied verdict has not come, judging the file
    again at a later time finds it satisfied too. *)
Theorem satisfied_until `{FromJson PolicyRequirements} policy_id text file requirements topology
    now now' ev ev' :
  requirements_from_json policy_id text = Ok requirements →
  evaluate_file file requirements topology now = Ok ev → status ev = None →
  (now <= now')%N → (∀ v, valid_until_utc_ms ev = Some v → (now' < v)%N) →
  evaluate_file file requirements topology now' = Ok ev' →
  status ev' = None.
Proof.
  intros (Hpos & _)%requirements_from_json_Ok Hev Hst Hle Hlim [Hev' _]%evaluate_file_spec.
  apply evaluate_file_spec in Hev as [Hev Hids].
  destruct Hev as [[(Hid & Hmet & Hloss) _] | [_ [[_ Hs] | (_ & _ & Hs)]]]; [|congruence..].
  destruct (Hids Hid) as [_ Hexp].
  assert (counting file requirements topology now
          `sublist_of` counting file requirements topology now') as Hsub.
  { apply fmap_sublist, filter_sublist_imp. intros copy Hin Hg.
    apply (sound_copy_later _ _ _ now); [done..|]. intros e He.
    destruct (Hexp copy e Hin Hg He) as (v & Hv & ?). specialize (Hlim v Hv). lia. }
  destruct Hev' as [[_ ?] | [Hns _]]; [done |]. destruct Hns. split; [done |]. split.
  - by eapply requirements_met_sublist.
  - eapply survives_sublist; [done | | done]. intros Hn. destruct Hmet as [Hc]. rewrite Hn in Hc.
    cbn in Hc. lia.
Qed.

(** ** Evaluation does not fail for reasonable times *)

(** No timestamp of the copy overflows when an age limit is added to it. *)
Definition times_fit (requirements : PolicyRequirements) (copy : CopyFact) : Prop :=
  ∀ t days,
    Some t ∈ [last_verified_time_utc_ms copy; last_seen_time_utc_ms copy;
              last_checkin_time_utc_ms copy; last_fingerprint_match_time_utc_ms copy] →
    days ∈ [max_verification_age_days requirements; max_observation_age_days requirements;
            max_device_checkin_age_days requirements] →
    (expiry t days <= u64_max)%N.

Lemma check_freshness_total timestamp days now label n :
  (∀ t, timestamp = Some t → (expiry t days <= u64_max)%N) →
  ∃ n', check_freshness timestamp days now label n = Ok n'.
Proof.
  intros Hfit. unfold check_freshness. destruct timestamp as [t|]; [|eauto].
  case_match; [eauto |]. specialize (Hfit t eq_refl). unfold expiry in Hfit.
  assert (checked_mul_u64 days DAY_MS = Some (days * DAY_MS)%N) as ->
    by (apply checked_mul_u64_Some; lia).
  cbn. assert (checked_add_u64 t (days * DAY_MS) = Some (t + days * DAY_MS)%N) as ->
    by (apply checked_add_u64_Some; lia).
  cbn. case_match; eauto.
Qed.

Lemma assess_copy_total copy file requirements topology now v :
  times_fit requirements copy →
  ∃ r, assess_copy copy file requirements topology now v = Ok r.
Proof.
  intros Hfit. unfold assess_copy.
  edestruct check_freshness_total as [n1 ->]; cbn.
  { intros t Ht. apply Hfit; [rewrite Ht; left | left]. }
  edestruct check_freshness_total as [n2 ->]; cbn.
  { intros t Ht. apply Hfit; [rewrite Ht; right; left | right; left]. }
  destruct (check_site _ _) as [s n3]. unfold check_device. case_bool_decide; cbn; [|eauto].
  edestruct check_freshness_total as [n4 ->]; cbn.
  { intros t Ht. apply Hfit; [rewrite Ht; right; right; left | right; right; left]. }
  edestruct check_freshness_total as [n5 ->]; cbn; [|eauto].
  intros t Ht. apply Hfit; [rewrite Ht; right; right; right; left | right; right; left].
Qed.

Lemma evaluate_file_fits file requirements topology now :
  (∀ copy, copy ∈ copies file → times_fit requirements copy) →
  ∃ ev, evaluate_file file requirements topology now = Ok ev.
Proof.
  intros Hfit.
  assert (∃ t, tally_copies file requirements topology now = Ok t) as [t Ht].
  { unfold tally_copies. destruct (identity_usable file); [|eauto].
    apply fold_result_total. intros t copy Hin. unfold tally_copy.
    destruct (assess_copy_total copy file requirements topology now (tally_valid_until t))
      as [[a v] ->]; [auto |]. cbn. destruct (assessed a); eauto. }
  unfold evaluate_file. rewrite Ht. cbn. eauto.
Qed.

(** Evaluation succeeds for every file whose times come from SQLite's 64-bit signed
    integers when the age limits in milliseconds fit one as well. *)
Theorem evaluate_file_total file requirements topology now :
  (∀ copy t, copy ∈ copies file →
     Some t ∈ [last_verified_time_utc_ms copy; last_seen_time_utc_ms copy;
               last_checkin_time_utc_ms copy; last_fingerprint_match_time_utc_ms copy] →
     (Z.of_N t <= i64_max)%Z) →
  (∀ days, days ∈ [max_verification_age_days requirements; max_observation_age_days requirements;
                   max_device_checkin_age_days requirements] →
     (Z.of_N (days * DAY_MS) <= i64_max)%Z) →
  ∃ ev, evaluate_file file requirements topology now = Ok ev.
Proof.
  intros Ht Hd. apply evaluate_file_fits. intros copy Hin t days Hts Hdays.
  specialize (Ht copy t Hin Hts). specialize (Hd days Hdays). unfold expiry, u64_max, i64_max in *.
  lia.
Qed.

(** ** Examples *)

(** The situation of the evaluation test of [policy.rs]: a disk at home and an offline
    disk at a remote office, checked in a moment ago under a policy of one day. *)
Module Examples.
Definition NOW : N := 1000000.

Definition starter : PolicyRequirements :=
  {| min_qualifying_copies := 2; min_devices := 2; min_sites := 2;
     require_offsite_copy := true; require_offline_copy := false;
     require_encrypted_offsite := false; max_verification_age_days := 1;
     max_observation_age_days := 1; max_device_checkin_age_days := 1 |}.

(** A deserializer that knows the one document of the example. *)
#[local] Instance starter_json : FromJson PolicyRequirements :=
  {| from_json b := Ok starter |}.

Definition disk_copy (n device site encryption availability : string) : CopyFact :=
  {| copy_claim_id := "copy_" +:+ n; state := "present"; copy_object_id := Some "object_1";
     last_seen_time_utc_ms := Some 900000%N; last_verified_time_utc_ms := Some 900000%N;
     last_verification_result := Some "ok"; location_id := "location_" +:+ n;
     location_name := "copy " +:+ n; location_kind := "filesystem";
     location_status := "active"; archive_root_id := Some ("root_" +:+ n);
     archive_root_status := Some "active"; archive_root_device_id := Some device;
     device_id := Some device; device_name := Some device; device_status := Some "active";
     device_identity_state := Some "confirmed";
     device_expected_availability := Some availability;
     last_checkin_time_utc_ms := Some 900000%N;
     last_fingerprint_match_time_utc_ms := Some 900000%N;
     last_fingerprint_status := Some "match"; site_id := Some site; site_name := Some site;
     site_status := Some "active"; encryption_state := Some encryption;
     trust_level := Some "trusted"; location_expected_availability := availability |}.

Definition home_copy := disk_copy "1" "device_1" "site_home" "unencrypted" "online".
Definition remote_copy := disk_copy "2" "device_2" "site_remote" "encrypted" "offline".

Definition photo : FileFact :=
  {| file_ref_id := "file_1"; object_id := Some "object_1"; identity_state := "resolved";
     logical_path_display := "photo.jpg"; size_bytes := Some 1234%N;
     hash_algo := Some "blake3"; policy_id := "policy_main";
     collection_id := "collection_main"; collection_name := "Family archive";
     home_site_id := "site_home"; copies := [home_copy; remote_copy] |}.

Definition no_risks : DomainTopology := {| names := ∅; assignments := ∅ |}.

(** Both disks hang on one power system. *)
Definition shared_power : DomainTopology :=
  {| names := {["risk_power" := "Shared power system"]};
     assignments := {[("site", "site_home") := {["risk_power"]};
                      ("device", "device_2") := {["risk_power"]}]} |}.

Definition verdict (topology : DomainTopology) (now : N) : option (option string * option N) :=
  match evaluate_file photo starter topology now with
  | Ok ev => Some (status ev, valid_until_utc_ms ev)
  | Err _ => None
  end.

Example verdict_satisfied : verdict no_risks NOW = Some (None, Some 87300000%N).
Proof. vm_compute. reflexivity. Qed.
Example verdict_shared_power : verdict shared_power NOW = Some (Some "violated", Some 87300000%N).
Proof. vm_compute. reflexivity. Qed.
Example verdict_expired : verdict no_risks 87300000 = Some (Some "uncertain", None).
Proof. vm_compute. reflexivity. Qed.

Definition photo_evaluation (now : N) : FileEvaluation :=
  match evaluate_file photo starter no_risks now with
  | Ok ev => ev
  | Err _ => {| status := None; file_reasons := Null; actions := Null;
                valid_until_utc_ms := None; qualifying_copies := [] |}
  end.

Lemma photo_evaluates now :
  is_ok (evaluate_file photo starter no_risks now) = true →
  evaluate_file photo starter no_risks now = Ok (photo_evaluation now).
Proof. unfold photo_evaluation. by destruct (evaluate_file _ _ _ _). Qed.

Lemma evaluate_file_status_witness :
  evaluate_file photo starter no_risks NOW = Ok (photo_evaluation NOW) ∧
  secured photo starter no_risks NOW.
Proof.
  assert (evaluate_file photo starter no_risks NOW = Ok (photo_evaluation NOW)) as H
    by (apply photo_evaluates; vm_compute; reflexivity).
  split; [done |]. apply (evaluate_file_status _ _ _ _ _ H). vm_compute. reflexivity.
Defined.

Lemma satisfied_survives_loss_witness :
  ∃ copy, copy ∈ copies photo ∧ sound_copy photo starter NOW copy ∧
    ¬ lost_with copy no_risks "device:device_1".
Proof.
  assert (evaluate_file photo starter no_risks NOW = Ok (photo_evaluation NOW)) as H
    by (apply photo_evaluates; vm_compute; reflexivity).
  assert (requirements_from_json "policy_main" "{}" = Ok starter) as Hr
    by (vm_compute; reflexivity).
  assert (status (photo_evaluation NOW) = None) as Hs by (vm_compute; reflexivity).
  destruct (satisfied_survives_loss _ _ _ _ _ _ _ Hr H Hs) as [Hloss _].
  exact (Hloss "device:device_1").
Defined.

Lemma satisfied_until_witness :
  (NOW <= 87299999)%N ∧ status (photo_evaluation 87299999) = None.
Proof.
  assert (NOW <= 87299999)%N as Hle by (vm_compute; done). split; [done |].
  assert (evaluate_file photo starter no_risks NOW = Ok (photo_evaluation NOW)) as H
    by (apply photo_evaluates; vm_compute; reflexivity).
  assert (evaluate_file photo starter no_risks 87299999 = Ok (photo_evaluation 87299999)) as H'
    by (apply photo_evaluates; vm_compute; reflexivity).
  assert (requirements_from_json "policy_main" "{}" = Ok starter) as Hr
    by (vm_compute; reflexivity).
  assert (status (photo_evaluation NOW) = None) as Hs by (vm_compute; reflexivity).
  assert (∀ v, valid_until_utc_ms (photo_evaluation NOW) = Some v → (87299999 < v)%N) as Hlim.
  { assert (valid_until_utc_ms (photo_evaluation NOW) = Some 87300000%N) as ->
      by (vm_compute; reflexivity).
    intros v [= <-]. vm_compute. done. }
  exact (satisfied_until "policy_main" "{}" photo starter no_risks NOW 87299999
    (photo_evaluation NOW) (photo_evaluation 87299999) Hr H Hs Hle Hlim H').
Defined.

Lemma evaluate_file_total_witness :
  ∃ ev, evaluate_file photo starter no_risks NOW = Ok ev.
Proof.
  apply evaluate_file_total.
  - intros copy t Hc Ht. unfold photo, home_copy, remote_copy in Hc. cbn in Hc.
    rewrite !elem_of_cons in Hc.
    destruct Hc as [-> | [-> | []%elem_of_nil]]; cbn in Ht; rewrite !elem_of_cons in Ht;
      destruct Ht as [[= ->] | [[= ->] | [[= ->] | [[= ->] | []%elem_of_nil]]]]; done.
  - cbn. intros days Hd. rewrite !elem_of_cons in Hd.
    destruct Hd as [-> | [-> | [-> | []%elem_of_nil]]]; done.
Defined.

(** The largest age limit a policy may state lets the evaluation of a file fail: the
    limit itself fits 64 bits, its sum with a timestamp does not. *)
Definition boundless : PolicyRequirements :=
  {| min_qualifying_copies := 1; min_devices := 1; min_sites := 1;
     require_offsite_copy := false; require_offline_copy := false;
     require_encrypted_offsite := false; max_verification_age_days := 213503982334;
     max_observation_age_days := 1; max_device_checkin_age_days := 1 |}.

#[local] Instance boundless_json : FromJson PolicyRequirements :=
  {| from_json b := Ok boundless |}.

(** The failing timestamp of the example, in the range of SQLite's integers. *)
Definition late_copy : CopyFact :=
  {| copy_claim_id := "copy_1"; state := "present"; copy_object_id := Some "object_1";
     last_seen_time_utc_ms := Some 900000%N;
     last_verified_time_utc_ms := Some 1700000000000%N;
     last_verification_result := Some "ok"; location_id := "location_1";
     location_name := "copy"; location_kind := "service"; location_status := "active";
     archive_root_id := None; archive_root_status := None; archive_root_device_id := None;
     device_id := None; device_name := None; device_status := None;
     device_identity_state := None; device_expected_availability := None;
     last_checkin_time_utc_ms := None; last_fingerprint_match_time_utc_ms := None;
     last_fingerprint_status := None; site_id := Some "site_home";
     site_name := Some "Home"; site_status := Some "active";
     encryption_state := None; trust_level := Some "trusted";
     location_expected_availability := "online" |}.

(** A policy can be accepted and still make evaluation fail: its age limit passes the
    overflow check of the requirements, and overflows when it is added to an ordinary
    verification time. *)
Theorem accepted_limit_overflows :
  requirements_from_json "policy_main" "{}" = Ok boundless ∧
  evaluate_file
    {| file_ref_id := "file_1"; object_id := Some "object_1"; identity_state := "resolved";
       logical_path_display := "photo.jpg"; size_bytes := None; hash_algo := Some "blake3";
       policy_id := "policy_main"; collection_id := "collection_main";
       collection_name := "Family archive"; home_site_id := "site_home";
       copies := [late_copy] |} boundless no_risks 1700000001000
  = Err (InvalidState "verification expiry overflows").
Proof. split; vm_compute; reflexivity. Qed.
End Examples.
