(* ===== verification/PolicyStore.v ===== *)
(** Policy evaluation over the database, the rest of [policy.rs] up to the findings: the
    contexts of the configured policies, the stream of files, the cached evaluations and
    their validity. The tables the code writes are finite maps keyed by their primary
    keys; the answers of its joins over the catalog are arguments. *)
From Stdlib Require Import ZArith NArith Lia Ascii.
From stdpp Require Import base decidable list gmap strings sorting fin_maps.
From S2P Require Import Prelude.
From S2P Require Import Text.
From S2P Require Import External.
From S2P Require Import Store.
From S2P Require Import Policy.

(** ** The database *)

(** A row of [policies], as far as evaluation reads it back. *)
Record PolicyRow : Type := {
  policy_row_version : Z;
  policy_row_status : string;
  policy_row_enabled : Z;
}.

(** A row of [policy_evaluations]. *)
Record EvaluationRow : Type := {
  e_policy_id : string;
  e_policy_version : Z;
  e_evaluated_event_seq : Z;
  e_evaluated_event_hash : string;
  e_evaluated_policy_input_seq : Z;
  e_rules_version : Z;
  e_started_time_utc_ms : Z;
  e_completed_time_utc_ms : option Z;
  e_valid_until_utc_ms : option Z;
  e_status : string;
  e_files_expected : Z;
  e_files_evaluated : Z;
}.

(** A row of [policy_status] below its key of evaluation and file. *)
Record StatusRow : Type := {
  s_object_id : option string;
  s_policy_id : string;
  s_policy_version : Z;
  s_evaluated_event_seq : Z;
  s_evaluated_policy_input_seq : Z;
  s_status : string;
  s_evaluated_time_utc_ms : Z;
  s_reasons_json : string;
  s_recommended_actions_json : string;
}.

(** A row of [policy_rollup] below its key of evaluation and policy. *)
Record RollupRow : Type := {
  r_policy_version : Z;
  r_evaluated_event_seq : Z;
  r_evaluated_policy_input_seq : Z;
  r_evaluated_time_utc_ms : Z;
  r_files_total : Z;
  r_files_satisfied : Z;
  r_files_violated : Z;
  r_files_uncertain : Z;
  r_files_size_unknown : Z;
  r_bytes_known_total : Z;
  r_bytes_known_at_risk : Z;
}.

Record Db : Type := {
  archive_meta : gmap string string;
  events : gmap (string * Z) string;
  policies : gmap string PolicyRow;
  policy_evaluations : gmap string EvaluationRow;
  policy_status : gmap (string * string) StatusRow;
  policy_rollup : gmap (string * string) RollupRow;
}.

Definition set_policy_evaluations (f : gmap string EvaluationRow → gmap string EvaluationRow)
    (db : Db) : Db :=
  {| archive_meta := archive_meta db; events := events db; policies := policies db;
     policy_evaluations := f (policy_evaluations db); policy_status := policy_status db;
     policy_rollup := policy_rollup db |}.
Definition set_policy_status (f : gmap (string * string) StatusRow →
    gmap (string * string) StatusRow) (db : Db) : Db :=
  {| archive_meta := archive_meta db; events := events db; policies := policies db;
     policy_evaluations := policy_evaluations db; policy_status := f (policy_status db);
     policy_rollup := policy_rollup db |}.
Definition set_policy_rollup (f : gmap (string * string) RollupRow →
    gmap (string * string) RollupRow) (db : Db) : Db :=
  {| archive_meta := archive_meta db; events := events db; policies := policies db;
     policy_evaluations := policy_evaluations db; policy_status := policy_status db;
     policy_rollup := f (policy_rollup db) |}.

(** An [INSERT] into a table with a primary key. *)
Definition insert_row `{Countable K} {V} (k : K) (v : V) (table : gmap K V)
    : result PolicyError (gmap K V) :=
  match table !! k with
  | Some _ => Err (Sqlite "UNIQUE constraint failed")
  | None => Ok (<[k := v]> table)
  end.

(** A [NOT NULL] read of a column. *)
Definition get_column {A} (column : option A) : result PolicyError A :=
  ok_or column (Sqlite "invalid column type Null").

Definition sql_u64 (value : Z) (field : string) : result PolicyError N :=
  ok_or (u64_of_i64 value) (InvalidState (field +:+ " is outside the u64 range")).
Definition optional_u64 (value : option Z) (field : string)
    : result PolicyError (option N) :=
  match value with
  | Some value => Some <$> sql_u64 value field
  | None => Ok None
  end.
Definition sql_i64 (value : N) (field : string) : result PolicyError Z :=
  ok_or (i64_of_u64 value) (InvalidState (field +:+ " is outside the SQLite range")).
Definition optional_i64 (value : option N) (field : string) : result PolicyError (option Z) :=
  match value with
  | Some value => Some <$> sql_i64 value field
  | None => Ok None
  end.

(** ** The projection marker *)

(** [str::parse::<u64>]: decimal digits, with an optional plus sign. *)
Definition parse_u64 (s : string) : option N :=
  let digits := default s (strip_prefix "+" s) in
  let value := foldl (λ n a, n * 10 + (byte_val a - 48))%N 0%N (as_bytes digits) in
  if negb (str_is_empty digits) && all_bytes is_ascii_digit digits && (value <=? u64_max)%N
  then Some value else None.

Record ProjectionMarker : Type := {
  applied_seq : N;
  applied_event_hash : string;
  policy_input_event_seq : N;
}.

Definition marker_meta (db : Db) (key : string) : result PolicyError string :=
  ok_or (archive_meta db !! key) (Sqlite "Query returned no rows").
Definition marker_parse (db : Db) (key : string) : result PolicyError N :=
  value ← marker_meta db key;
  ok_or (parse_u64 value) (InvalidState ("projection marker " +:+ key +:+ " is invalid")).

Definition load_projection_marker (db : Db) : result PolicyError ProjectionMarker :=
  applied_seq ← marker_parse db "applied_event_seq";
  policy_input_event_seq ← marker_parse db "policy_input_event_seq";
  _ ← bail_if (applied_seq <? policy_input_event_seq)%N
        (InvalidState "policy input sequence exceeds the applied event sequence");
  _ ← bail_if (applied_seq =? 0)%N (InvalidState "the projection has no applied event");
  applied_event_hash ← marker_meta db "applied_event_hash";
  _ ← bail_if (str_is_empty applied_event_hash)
        (InvalidState "the applied event hash is empty");
  stream_id ← marker_meta db "stream_id";
  seq ← sql_i64 applied_seq "applied_event_seq";
  _ ← bail_if (negb (bool_decide (events db !! (stream_id, seq) = Some applied_event_hash)))
        (InvalidState "the applied event hash does not match the mirrored tail event");
  Ok {| applied_seq := applied_seq; applied_event_hash := applied_event_hash;
        policy_input_event_seq := policy_input_event_seq |}.

(** ** Validity of an evaluation *)

Record ValidityRow : Type := {
  v_status : string;
  v_files_expected : Z;
  v_files_evaluated : Z;
  v_evaluated_policy_input_seq : Z;
  v_evaluation_policy_version : Z;
  v_valid_until_utc_ms : option Z;
  v_current_policy_version : Z;
  v_policy_status : string;
  v_policy_enabled : Z;
  v_rules_version : Z;
  v_rollup_total : option Z;
  v_rollup_satisfied : option Z;
  v_rollup_violated : option Z;
  v_rollup_uncertain : option Z;
  v_finding_count : Z;
}.

Definition rollup_reason (row : ValidityRow) (expected : N) : option string :=
  match v_rollup_total row ≫= u64_of_i64, v_rollup_satisfied row ≫= u64_of_i64,
        v_rollup_violated row ≫= u64_of_i64, v_rollup_uncertain row ≫= u64_of_i64 with
  | Some total, Some satisfied, Some violated, Some uncertain =>
      match checked_add_u64 satisfied violated ≫= λ value, checked_add_u64 value uncertain with
      | None => Some "rollup_count_mismatch"
      | Some classified =>
          if negb (total =? expected)%N || negb (classified =? total)%N
          then Some "rollup_count_mismatch"
          else if negb (bool_decide (u64_of_i64 (v_finding_count row)
                                     = checked_add_u64 violated uncertain))
          then Some "finding_count_mismatch"
          else None
      end
  | _, _, _, _ => Some "rollup_missing_or_invalid"
  end.

(** The checks of [valid_until_utc_ms]. *)
Definition valid_until_reason (row : ValidityRow) (now_utc_ms : N) : option string :=
  match v_valid_until_utc_ms row with
  | Some valid_until =>
      match u64_of_i64 valid_until with
      | None => Some "invalid_valid_until"
      | Some valid_until =>
          if (valid_until <=? now_utc_ms)%N then Some "freshness_expired" else None
      end
  | None => None
  end.

Definition invalid_evaluation_reason (row : ValidityRow) (marker : ProjectionMarker)
    (now_utc_ms : N) : option string :=
  if negb (bool_decide (v_status row = "complete")) then Some "evaluation_incomplete" else
  match u64_of_i64 (v_files_expected row), u64_of_i64 (v_files_evaluated row) with
  | Some expected, Some evaluated =>
      if negb (expected =? evaluated)%N then Some "file_count_mismatch" else
      if negb (bool_decide (u64_of_i64 (v_evaluated_policy_input_seq row)
                            = Some (policy_input_event_seq marker)))
      then Some "policy_input_advanced" else
      match u64_of_i64 (v_evaluation_policy_version row),
            u64_of_i64 (v_current_policy_version row) with
      | Some evaluation_version, Some current_version =>
          if negb (evaluation_version =? current_version)%N
          then Some "policy_version_changed" else
          if negb (bool_decide (v_policy_status row = "active"))
             || negb (v_policy_enabled row =? 1)%Z
          then Some "policy_inactive" else
          match valid_until_reason row now_utc_ms with
          | Some reason => Some reason
          | None =>
              if negb (bool_decide (u64_of_i64 (v_rules_version row) = Some RULES_VERSION))
              then Some "rules_version_changed"
              else rollup_reason row expected
          end
      | _, _ => Some "invalid_policy_version"
      end
  | _, _ => Some "invalid_file_count"
  end.

(** How many findings of [policy_status] an evaluation has. *)
Definition finding_count (db : Db) (evaluation_id : string) : nat :=
  size (filter (λ '(k, _), k.1 = evaluation_id) (policy_status db)).

(** The query of [policy_evaluation_validity]. *)
Definition validity_row (db : Db) (evaluation_id : string) : option ValidityRow :=
  e ← policy_evaluations db !! evaluation_id;
  p ← policies db !! e_policy_id e;
  let r := policy_rollup db !! (evaluation_id, e_policy_id e) in
  Some
    {| v_status := e_status e; v_files_expected := e_files_expected e;
       v_files_evaluated := e_files_evaluated e;
       v_evaluated_policy_input_seq := e_evaluated_policy_input_seq e;
       v_evaluation_policy_version := e_policy_version e;
       v_valid_until_utc_ms := e_valid_until_utc_ms e;
       v_current_policy_version := policy_row_version p;
       v_policy_status := policy_row_status p; v_policy_enabled := policy_row_enabled p;
       v_rules_version := e_rules_version e; v_rollup_total := r_files_total <$> r;
       v_rollup_satisfied := r_files_satisfied <$> r;
       v_rollup_violated := r_files_violated <$> r;
       v_rollup_uncertain := r_files_uncertain <$> r;
       v_finding_count := Z.of_nat (finding_count db evaluation_id) |}.

Record PolicyEvaluationValidity : Type := {
  usable : bool;
  unusable_reason : option string;
}.

Definition policy_evaluation_validity (db : Db) (evaluation_id : string) (now_utc_ms : N)
    : result PolicyError PolicyEvaluationValidity :=
  marker ← load_projection_marker db;
  let reason :=
    match validity_row db evaluation_id with
    | Some row => invalid_evaluation_reason row marker now_utc_ms
    | None => Some "unknown_evaluation"
    end in
  Ok {| usable := negb (is_some_b reason); unusable_reason := reason |}.

(** ** Contexts of the configured policies *)

Record PolicyContext : Type := {
  evaluation_id : string;
  ctx_policy_id : string;
  policy_version : N;
  requirements : PolicyRequirements;
  files_expected : N;
  files_evaluated : N;
  files_satisfied : N;
  files_violated : N;
  files_uncertain : N;
  files_size_unknown : N;
  bytes_known_total : N;
  bytes_known_at_risk : N;
  ctx_valid_until_utc_ms : option N;
}.

(** The state of a run inside its transaction: the contexts by policy and the tables. *)
Record Run : Type := {
  contexts : gmap string PolicyContext;
  db : Db;
}.

Definition set_contexts (f : gmap string PolicyContext → gmap string PolicyContext) (s : Run)
    : Run := {| contexts := f (contexts s); db := db s |}.
Definition set_db (d : Db) (s : Run) : Run := {| contexts := contexts s; db := d |}.

(** A row of the query of [load_policy_contexts]. *)
Record ContextRow : Type := {
  row_policy_id : string;
  row_policy_version : Z;
  row_requirements_json : string;
  row_files_expected : Z;
}.

Section run.
Context `{FromJson PolicyRequirements} `{ToJson Value}.

(** The [i]th value of [Ulid::new] in the run, in lower case. *)
Variable new_ulid : nat → string.

Definition load_policy_context (marker : ProjectionMarker) (now_utc_ms : N) (i : nat)
    (row : ContextRow) : st Run PolicyError () := λ s,
  match
    requirements ← requirements_from_json (row_policy_id row) (row_requirements_json row);
    let evaluation_id := "evaluation_" +:+ new_ulid i in
    event_seq ← sql_i64 (applied_seq marker) "evaluated_event_seq";
    input_seq ← sql_i64 (policy_input_event_seq marker) "evaluated_policy_input_seq";
    rules_version ← sql_i64 RULES_VERSION "rules_version";
    started_time ← sql_i64 now_utc_ms "started_time_utc_ms";
    evaluations ← insert_row evaluation_id
      {| e_policy_id := row_policy_id row; e_policy_version := row_policy_version row;
         e_evaluated_event_seq := event_seq;
         e_evaluated_event_hash := applied_event_hash marker;
         e_evaluated_policy_input_seq := input_seq; e_rules_version := rules_version;
         e_started_time_utc_ms := started_time; e_completed_time_utc_ms := None;
         e_valid_until_utc_ms := None; e_status := "running";
         e_files_expected := row_files_expected row; e_files_evaluated := 0 |}
      (policy_evaluations (db s));
    policy_version ← sql_u64 (row_policy_version row) "policy_version";
    files_expected ← sql_u64 (row_files_expected row) "files_expected";
    Ok (evaluations,
      {| evaluation_id := evaluation_id; ctx_policy_id := row_policy_id row;
         policy_version := policy_version; requirements := requirements;
         files_expected := files_expected; files_evaluated := 0; files_satisfied := 0;
         files_violated := 0; files_uncertain := 0; files_size_unknown := 0;
         bytes_known_total := 0; bytes_known_at_risk := 0; ctx_valid_until_utc_ms := None |})
  with
  | Err error => (Err error, s)
  | Ok (evaluations, context) =>
      (Ok (), set_db (set_policy_evaluations (λ _, evaluations) (db s))
                (set_contexts <[row_policy_id row := context]> s))
  end.

Fixpoint load_policy_contexts (marker : ProjectionMarker) (now_utc_ms : N) (i : nat)
    (rows : list ContextRow) : st Run PolicyError () :=
  match rows with
  | [] => mret ()
  | row :: rows =>
      _ ← load_policy_context marker now_utc_ms i row;
      load_policy_contexts marker now_utc_ms (S i) rows
  end.

(** ** Failure domains of the catalog *)

(** Rows of the two queries of [load_domain_topology]: active risk domains, and the
    assignments of active domains with whether their entity exists. *)
Definition load_assignment (assignments : gmap (string * string) (gset string))
    (row : string * string * string * bool)
    : result PolicyError (gmap (string * string) (gset string)) :=
  let '(entity_type, entity_id, domain_id, exists_) := row in
  _ ← bail_if (negb exists_)
        (InvalidState ("risk assignment refers to unknown " +:+ entity_type +:+ " "
                       +:+ entity_id));
  Ok (partial_alter (λ assigned, Some (default ∅ assigned ∪ {[domain_id]}))
        (entity_type, entity_id) assignments).

Definition load_domain_topology (domains : list (string * string))
    (rows : list (string * string * string * bool)) : result PolicyError DomainTopology :=
  assignments ← fold_result load_assignment ∅ rows;
  Ok {| names := foldl (λ names '(id, name), <[id := name]> names) ∅ domains;
        assignments := assignments |}.

(** ** The stream of files *)

(** A row of the query of [stream_and_evaluate_files]: a file, and one of its copies
    where it has any. *)
Record FileRow : Type := {
  c_policy_id : string;
  c_collection_id : string;
  c_collection_name : string;
  c_home_site_id : string;
  c_file_ref_id : string;
  c_object_id : option string;
  c_identity_state : string;
  c_logical_path_display : string;
  c_size_bytes : option Z;
  c_hash_algo : option string;
  c_copy_claim_id : option string;
  c_state : option string;
  c_copy_object_id : option string;
  c_last_seen_time : option Z;
  c_last_verified_time : option Z;
  c_last_verification_result : option string;
  c_location_id : option string;
  c_location_name : option string;
  c_location_kind : option string;
  c_location_status : option string;
  c_archive_root_id : option string;
  c_archive_root_status : option string;
  c_archive_root_device_id : option string;
  c_device_id : option string;
  c_device_name : option string;
  c_device_status : option string;
  c_device_identity_state : option string;
  c_device_expected_availability : option string;
  c_last_checkin_time : option Z;
  c_last_fingerprint_match_time : option Z;
  c_last_fingerprint_status : option string;
  c_site_id : option string;
  c_site_name : option string;
  c_site_status : option string;
  c_encryption_state : option string;
  c_trust_level : option string;
  c_location_expected_availability : option string;
}.

Definition copy_from_row (row : FileRow) : result PolicyError CopyFact :=
  copy_claim_id ← get_column (c_copy_claim_id row);
  state ← get_column (c_state row);
  last_seen ← optional_u64 (c_last_seen_time row) "last_seen_time_utc_ms";
  last_verified ← optional_u64 (c_last_verified_time row) "last_verified_time_utc_ms";
  location_id ← get_column (c_location_id row);
  location_name ← get_column (c_location_name row);
  location_kind ← get_column (c_location_kind row);
  location_status ← get_column (c_location_status row);
  last_checkin ← optional_u64 (c_last_checkin_time row) "last_checkin_time_utc_ms";
  last_match ← optional_u64 (c_last_fingerprint_match_time row)
                 "last_fingerprint_match_time_utc_ms";
  availability ← get_column (c_location_expected_availability row);
  Ok {| copy_claim_id := copy_claim_id; state := state;
        copy_object_id := c_copy_object_id row; last_seen_time_utc_ms := last_seen;
        last_verified_time_utc_ms := last_verified;
        last_verification_result := c_last_verification_result row;
        location_id := location_id; location_name := location_name;
        location_kind := location_kind; location_status := location_status;
        archive_root_id := c_archive_root_id row;
        archive_root_status := c_archive_root_status row;
        archive_root_device_id := c_archive_root_device_id row;
        device_id := c_device_id row; device_name := c_device_name row;
        device_status := c_device_status row;
        device_identity_state := c_device_identity_state row;
        device_expected_availability := c_device_expected_availability row;
        last_checkin_time_utc_ms := last_checkin;
        last_fingerprint_match_time_utc_ms := last_match;
        last_fingerprint_status := c_last_fingerprint_status row;
        site_id := c_site_id row; site_name := c_site_name row;
        site_status := c_site_status row; encryption_state := c_encryption_state row;
        trust_level := c_trust_level row; location_expected_availability := availability |}.

(** The file of a row, without copies. *)
Definition file_from_row (row : FileRow) : result PolicyError FileFact :=
  size ← optional_u64 (c_size_bytes row) "file size";
  Ok {| file_ref_id := c_file_ref_id row; object_id := c_object_id row;
        identity_state := c_identity_state row;
        logical_path_display := c_logical_path_display row; size_bytes := size;
        hash_algo := c_hash_algo row; policy_id := c_policy_id row;
        collection_id := c_collection_id row; collection_name := c_collection_name row;
        home_site_id := c_home_site_id row; copies := [] |}.

Definition push_copy (copy : CopyFact) (file : FileFact) : FileFact :=
  {| file_ref_id := file_ref_id file; object_id := object_id file;
     identity_state := identity_state file;
     logical_path_display := logical_path_display file; size_bytes := size_bytes file;
     hash_algo := hash_algo file; policy_id := policy_id file;
     collection_id := collection_id file; collection_name := collection_name file;
     home_site_id := home_site_id file; copies := copies file ++ [copy] |}.

(** The counters after one more file. *)
Definition count_file (file : FileFact) (evaluation : FileEvaluation) (policy : PolicyContext)
    : result PolicyError PolicyContext :=
  let add (b : bool) (n : N) : N := if b then wrapping_add_u64 n 1 else n in
  let known := size_bytes file in
  let at_risk := is_some_b (status evaluation) in
  _ ← bail_if (negb (bool_decide
        (status evaluation ∈ [None; Some "violated"; Some "uncertain"])))
        (InvalidState ("unsupported policy result " +:+ default "" (status evaluation)));
  Ok {| evaluation_id := evaluation_id policy; ctx_policy_id := ctx_policy_id policy;
        policy_version := policy_version policy; requirements := requirements policy;
        files_expected := files_expected policy;
        files_evaluated := add true (files_evaluated policy);
        files_satisfied := add (negb at_risk) (files_satisfied policy);
        files_violated := add (bool_decide (status evaluation = Some "violated"))
          (files_violated policy);
        files_uncertain := add (bool_decide (status evaluation = Some "uncertain"))
          (files_uncertain policy);
        files_size_unknown := add (negb (is_some_b known)) (files_size_unknown policy);
        bytes_known_total := match known with
          | Some size => saturating_add_u64 (bytes_known_total policy) size
          | None => bytes_known_total policy
          end;
        bytes_known_at_risk := match known with
          | Some size => if at_risk then saturating_add_u64 (bytes_known_at_risk policy) size
                         else bytes_known_at_risk policy
          | None => bytes_known_at_risk policy
          end;
        ctx_valid_until_utc_ms :=
          minimum_time (ctx_valid_until_utc_ms policy) (valid_until_utc_ms evaluation) |}.

(** The finding of a file that is not satisfied. *)
Definition finding_row (policy : PolicyContext) (file : FileFact) (evaluation : FileEvaluation)
    (file_status : string) (marker : ProjectionMarker) (now_utc_ms : N)
    : result PolicyError StatusRow :=
  reasons_json ← map_err (λ error, InvalidState
    ("could not serialize policy reasons: " +:+ error)) (to_json (file_reasons evaluation));
  actions_json ← map_err (λ error, InvalidState
    ("could not serialize policy actions: " +:+ error)) (to_json (actions evaluation));
  policy_version ← sql_i64 (policy_version policy) "policy_version";
  event_seq ← sql_i64 (applied_seq marker) "evaluated_event_seq";
  input_seq ← sql_i64 (policy_input_event_seq marker) "evaluated_policy_input_seq";
  evaluated_time ← sql_i64 now_utc_ms "evaluated_time_utc_ms";
  Ok {| s_object_id := object_id file; s_policy_id := ctx_policy_id policy;
        s_policy_version := policy_version; s_evaluated_event_seq := event_seq;
        s_evaluated_policy_input_seq := input_seq; s_status := file_status;
        s_evaluated_time_utc_ms := evaluated_time;
        s_reasons_json := of_bytes reasons_json;
        s_recommended_actions_json := of_bytes actions_json |}.

Definition evaluate_and_store_file (topology : DomainTopology) (marker : ProjectionMarker)
    (now_utc_ms : N) (file : FileFact) : st Run PolicyError () := λ s,
  match
    policy ← ok_or (contexts s !! policy_id file)
      (InvalidState ("unknown policy context " +:+ policy_id file));
    evaluation ← evaluate_file file (requirements policy) topology now_utc_ms;
    counted ← count_file file evaluation policy;
    findings ←
      match status evaluation with
      | Some file_status =>
          row ← finding_row counted file evaluation file_status marker now_utc_ms;
          insert_row (evaluation_id counted, file_ref_id file) row (policy_status (db s))
      | None => Ok (policy_status (db s))
      end;
    Ok (counted, findings)
  with
  | Err error => (Err error, s)
  | Ok (counted, findings) =>
      (Ok (), set_db (set_policy_status (λ _, findings) (db s))
                (set_contexts <[policy_id file := counted]> s))
  end.

(** One turn of the row loop; [current] is the file being collected. *)
Definition stream_row (topology : DomainTopology) (marker : ProjectionMarker) (now_utc_ms : N)
    (current : option FileFact) (row : FileRow) : st Run PolicyError (option FileFact) :=
  current ←
    match current with
    | Some file =>
        if bool_decide (file_ref_id file = c_file_ref_id row) then mret (Some file)
        else _ ← evaluate_and_store_file topology marker now_utc_ms file; mret None
    | None => mret None
    end;
  file ← st_lift match current with Some file => Ok file | None => file_from_row row end;
  match c_copy_claim_id row with
  | Some _ => copy ← st_lift (copy_from_row row); mret (Some (push_copy copy file))
  | None => mret (Some file)
  end.

Fixpoint stream_rows (topology : DomainTopology) (marker : ProjectionMarker) (now_utc_ms : N)
    (current : option FileFact) (rows : list FileRow)
    : st Run PolicyError (option FileFact) :=
  match rows with
  | [] => mret current
  | row :: rows =>
      current ← stream_row topology marker now_utc_ms current row;
      stream_rows topology marker now_utc_ms current rows
  end.

Definition stream_and_evaluate_files (topology : DomainTopology) (marker : ProjectionMarker)
    (now_utc_ms : N) (rows : list FileRow) : st Run PolicyError () :=
  current ← stream_rows topology marker now_utc_ms None rows;
  match current with
  | Some file => evaluate_and_store_file topology marker now_utc_ms file
  | None => mret ()
  end.

(** ** Publishing the evaluations *)

Definition rollup_row (policy : PolicyContext) (marker : ProjectionMarker) (now_utc_ms : N)
    : result PolicyError RollupRow :=
  policy_version ← sql_i64 (policy_version policy) "policy_version";
  event_seq ← sql_i64 (applied_seq marker) "evaluated_event_seq";
  input_seq ← sql_i64 (policy_input_event_seq marker) "evaluated_policy_input_seq";
  evaluated_time ← sql_i64 now_utc_ms "evaluated_time_utc_ms";
  files_total ← sql_i64 (files_evaluated policy) "files_total";
  files_satisfied ← sql_i64 (files_satisfied policy) "files_satisfied";
  files_violated ← sql_i64 (files_violated policy) "files_violated";
  files_uncertain ← sql_i64 (files_uncertain policy) "files_uncertain";
  files_size_unknown ← sql_i64 (files_size_unknown policy) "files_size_unknown";
  bytes_known_total ← sql_i64 (bytes_known_total policy) "bytes_known_total";
  bytes_known_at_risk ← sql_i64 (bytes_known_at_risk policy) "bytes_known_at_risk";
  Ok {| r_policy_version := policy_version; r_evaluated_event_seq := event_seq;
        r_evaluated_policy_input_seq := input_seq;
        r_evaluated_time_utc_ms := evaluated_time; r_files_total := files_total;
        r_files_satisfied := files_satisfied; r_files_violated := files_violated;
        r_files_uncertain := files_uncertain; r_files_size_unknown := files_size_unknown;
        r_bytes_known_total := bytes_known_total;
        r_bytes_known_at_risk := bytes_known_at_risk |}.

(** The [UPDATE] of a running evaluation. *)
Definition complete_row (completed : Z) (valid_until : option Z) (files_total : Z)
    (row : EvaluationRow) : EvaluationRow :=
  if bool_decide (e_status row = "running") then
    {| e_policy_id := e_policy_id row; e_policy_version := e_policy_version row;
       e_evaluated_event_seq := e_evaluated_event_seq row;
       e_evaluated_event_hash := e_evaluated_event_hash row;
       e_evaluated_policy_input_seq := e_evaluated_policy_input_seq row;
       e_rules_version := e_rules_version row;
       e_started_time_utc_ms := e_started_time_utc_ms row;
       e_completed_time_utc_ms := Some completed; e_valid_until_utc_ms := valid_until;
       e_status := "complete"; e_files_expected := e_files_expected row;
       e_files_evaluated := files_total |}
  else row.

Definition finish_evaluation (marker : ProjectionMarker) (now_utc_ms : N) (d : Db)
    (policy : PolicyContext) : result PolicyError Db :=
  _ ← bail_if (negb (files_evaluated policy =? files_expected policy)%N)
        (InvalidState ("policy " +:+ ctx_policy_id policy
                       +:+ " did not evaluate the files it expected"));
  row ← rollup_row policy marker now_utc_ms;
  rollup ← insert_row (evaluation_id policy, ctx_policy_id policy) row (policy_rollup d);
  valid_until ← optional_i64 (ctx_valid_until_utc_ms policy) "valid_until_utc_ms";
  Ok (set_policy_evaluations
        (alter (complete_row (r_evaluated_time_utc_ms row) valid_until (r_files_total row))
           (evaluation_id policy))
        (set_policy_rollup (λ _, rollup) d)).

(** The values of the contexts in the order of the [BTreeMap]. *)
Definition btree_values {A} (m : gmap string A) : list A :=
  omap (λ k, m !! k) (btree_keys m).

Definition finish_evaluations (marker : ProjectionMarker) (now_utc_ms : N)
    (policies : gmap string PolicyContext) (d : Db) : result PolicyError Db :=
  fold_result (finish_evaluation marker now_utc_ms) d (btree_values policies).

Record PolicyEvaluation : Type := {
  p_evaluation_id : string;
  p_policy_id : string;
  p_policy_version : N;
  p_files_total : N;
  p_files_satisfied : N;
  p_files_violated : N;
  p_files_uncertain : N;
  p_valid_until_utc_ms : option N;
  p_files_size_unknown : N;
  p_bytes_known_total : N;
  p_bytes_known_at_risk : N;
}.

Definition policy_evaluation (policy : PolicyContext) : PolicyEvaluation :=
  {| p_evaluation_id := evaluation_id policy; p_policy_id := ctx_policy_id policy;
     p_policy_version := policy_version policy; p_files_total := files_evaluated policy;
     p_files_satisfied := files_satisfied policy; p_files_violated := files_violated policy;
     p_files_uncertain := files_uncertain policy;
     p_valid_until_utc_ms := ctx_valid_until_utc_ms policy;
     p_files_size_unknown := files_size_unknown policy;
     p_bytes_known_total := bytes_known_total policy;
     p_bytes_known_at_risk := bytes_known_at_risk policy |}.

(** What the catalog queries of one run answer. *)
Record CatalogRows : Type := {
  domain_rows : list (string * string);
  assignment_rows : list (string * string * string * bool);
  context_rows : list ContextRow;
  file_rows : list FileRow;
}.

Record PolicyEvaluationResult : Type := {
  evaluated_event_seq : N;
  evaluated_policy_input_seq : N;
  evaluations : list PolicyEvaluation;
}.

(** The reads at the start of [evaluate_policies], then its contexts and files. *)
Definition read_inputs (rows : CatalogRows) (d : Db)
    : result PolicyError (ProjectionMarker * DomainTopology) :=
  marker ← load_projection_marker d;
  topology ← load_domain_topology (domain_rows rows) (assignment_rows rows);
  Ok (marker, topology).

Definition evaluate_rows (rows : CatalogRows) (marker : ProjectionMarker)
    (topology : DomainTopology) (now_utc_ms : N) : st Run PolicyError () :=
  _ ← load_policy_contexts marker now_utc_ms 0 (context_rows rows);
  stream_and_evaluate_files topology marker now_utc_ms (file_rows rows).

Definition evaluate_policies (rows : CatalogRows) (now_utc_ms : N)
    : st Db PolicyError PolicyEvaluationResult :=
  transaction (λ d,
    match read_inputs rows d with
    | Err error => (Err error, d)
    | Ok (marker, topology) =>
        match evaluate_rows rows marker topology now_utc_ms {| contexts := ∅; db := d |} with
        | (Err error, s) => (Err error, db s)
        | (Ok _, s) =>
            match finish_evaluations marker now_utc_ms (contexts s) (db s) with
            | Err error => (Err error, db s)
            | Ok d' =>
                (Ok {| evaluated_event_seq := applied_seq marker;
                       evaluated_policy_input_seq := policy_input_event_seq marker;
                       evaluations := policy_evaluation <$> btree_values (contexts s) |}, d')
            end
        end
    end).
End run.

(** ** Cached status *)

Record StalePolicyEvaluation : Type := {
  stale_policy_id : string;
  stale_evaluation_id : option string;
  stale_reason : string;
}.

Record CachedPolicyStatus : Type := {
  applied_event_seq : N;
  cached_evaluations : list PolicyEvaluation;
  stale_policies : list StalePolicyEvaluation;
}.

(** The rollup of a usable evaluation, read back. *)
Definition read_rollup (d : Db) (policy_id evaluation_id : string)
    : result PolicyError PolicyEvaluation :=
  r ← ok_or (policy_rollup d !! (evaluation_id, policy_id)) (Sqlite "Query returned no rows");
  e ← ok_or (policy_evaluations d !! evaluation_id) (Sqlite "Query returned no rows");
  policy_version ← sql_u64 (r_policy_version r) "policy_version";
  files_total ← sql_u64 (r_files_total r) "files_total";
  files_satisfied ← sql_u64 (r_files_satisfied r) "files_satisfied";
  files_violated ← sql_u64 (r_files_violated r) "files_violated";
  files_uncertain ← sql_u64 (r_files_uncertain r) "files_uncertain";
  valid_until ← optional_u64 (e_valid_until_utc_ms e) "valid_until_utc_ms";
  files_size_unknown ← sql_u64 (r_files_size_unknown r) "files_size_unknown";
  bytes_known_total ← sql_u64 (r_bytes_known_total r) "bytes_known_total";
  bytes_known_at_risk ← sql_u64 (r_bytes_known_at_risk r) "bytes_known_at_risk";
  Ok {| p_evaluation_id := evaluation_id; p_policy_id := policy_id;
        p_policy_version := policy_version; p_files_total := files_total;
        p_files_satisfied := files_satisfied; p_files_violated := files_violated;
        p_files_uncertain := files_uncertain; p_valid_until_utc_ms := valid_until;
        p_files_size_unknown := files_size_unknown; p_bytes_known_total := bytes_known_total;
        p_bytes_known_at_risk := bytes_known_at_risk |}.

(** One policy of [cached_policy_status]: its latest complete evaluation, if any. *)
Definition cached_policy (d : Db) (now_utc_ms : N)
    (acc : list PolicyEvaluation * list StalePolicyEvaluation)
    (row : string * option string)
    : result PolicyError (list PolicyEvaluation * list StalePolicyEvaluation) :=
  let '(evaluations, stale) := acc in
  let '(policy_id, evaluation_id) := row in
  match evaluation_id with
  | None =>
      Ok (evaluations,
          stale ++ [{| stale_policy_id := policy_id; stale_evaluation_id := None;
                       stale_reason := "evaluation_missing" |}])
  | Some evaluation_id =>
      validity ← policy_evaluation_validity d evaluation_id now_utc_ms;
      match unusable_reason validity with
      | Some reason =>
          Ok (evaluations,
              stale ++ [{| stale_policy_id := policy_id;
                           stale_evaluation_id := Some evaluation_id;
                           stale_reason := reason |}])
      | None =>
          evaluation ← read_rollup d policy_id evaluation_id;
          Ok (evaluations ++ [evaluation], stale)
      end
  end.

(** [rows] are the active policies with their latest complete evaluation. *)
Definition cached_policy_status (d : Db) (rows : list (string * option string))
    (now_utc_ms : N) : result PolicyError CachedPolicyStatus :=
  marker ← load_projection_marker d;
  '(evaluations, stale) ← fold_result (cached_policy d now_utc_ms) ([], []) rows;
  Ok {| applied_event_seq := applied_seq marker; cached_evaluations := evaluations;
        stale_policies := stale |}.

(** ** Lemmas *)

Lemma insert_row_Ok `{Countable K} {V} (k : K) (v : V) table table' :
  insert_row k v table = Ok table' ↔ table !! k = None ∧ table' = <[k := v]> table.
Proof. unfold insert_row. case_match; naive_solver. Qed.

Lemma get_column_Ok {A} (column : option A) a : get_column column = Ok a ↔ column = Some a.
Proof. apply ok_or_Ok. Qed.

Lemma sql_u64_Ok value field n : sql_u64 value field = Ok n ↔ value = Z.of_N n.
Proof. unfold sql_u64. rewrite ok_or_Ok, u64_of_i64_Some. split; [intros [-> ?] | intros ->]; lia. Qed.

Lemma sql_i64_Ok n field z : sql_i64 n field = Ok z → z = Z.of_N n.
Proof. unfold sql_i64. rewrite ok_or_Ok, i64_of_u64_Some. tauto. Qed.

Lemma optional_i64_Ok o field z : optional_i64 o field = Ok z → z = Z.of_N <$> o.
Proof.
  unfold optional_i64. destruct o as [n|]; cbn; [|congruence].
  destruct (sql_i64 n field) eqn:Hn; cbn; [|done]. apply sql_i64_Ok in Hn as ->. congruence.
Qed.

(** A cached evaluation that may be used: it is complete and all of its numbers agree
    with each other, with the policy as it is now and with the catalog it was made on. *)
Record evaluation_fits (row : ValidityRow) (marker : ProjectionMarker) (now_utc_ms : N)
    (satisfied violated uncertain : N) : Prop := {
  fits_complete : v_status row = "complete";
  fits_expected : v_files_expected row = Z.of_N (satisfied + violated + uncertain);
  fits_evaluated : v_files_evaluated row = Z.of_N (satisfied + violated + uncertain);
  fits_input : v_evaluated_policy_input_seq row = Z.of_N (policy_input_event_seq marker);
  fits_version : v_evaluation_policy_version row = v_current_policy_version row;
  fits_version_range : (0 <= v_current_policy_version row)%Z;
  fits_active : v_policy_status row = "active" ∧ v_policy_enabled row = 1%Z;
  fits_fresh : ∀ v, v_valid_until_utc_ms row = Some v → (Z.of_N now_utc_ms < v)%Z;
  fits_rules : v_rules_version row = Z.of_N RULES_VERSION;
  fits_total : v_rollup_total row = Some (Z.of_N (satisfied + violated + uncertain));
  fits_satisfied : v_rollup_satisfied row = Some (Z.of_N satisfied);
  fits_violated : v_rollup_violated row = Some (Z.of_N violated);
  fits_uncertain : v_rollup_uncertain row = Some (Z.of_N uncertain);
  fits_no_overflow : (satisfied + violated + uncertain <= u64_max)%N;
  fits_findings : v_finding_count row = Z.of_N (violated + uncertain);
}.

Lemma u64_of_i64_of_N n : u64_of_i64 (Z.of_N n) = Some n.
Proof. apply u64_of_i64_Some. lia. Qed.

Lemma u64_of_i64_Some_iff z n : u64_of_i64 z = Some n ↔ z = Z.of_N n.
Proof. rewrite u64_of_i64_Some. split; [intros [-> ?] | intros ->]; lia. Qed.

Lemma u64_of_i64_None z : u64_of_i64 z = None ↔ (z < 0)%Z.
Proof. unfold u64_of_i64. case_match; boolify; split; intros; try done; lia. Qed.

Lemma valid_until_reason_None row now :
  valid_until_reason row now = None ↔
  ∀ v, v_valid_until_utc_ms row = Some v → (Z.of_N now < v)%Z.
Proof.
  unfold valid_until_reason. destruct (v_valid_until_utc_ms row) as [v|]; [|naive_solver].
  destruct (u64_of_i64 v) as [n|] eqn:Hn.
  - apply u64_of_i64_Some_iff in Hn as ->. case_match; boolify; split; try done.
    + intros Hv. specialize (Hv _ eq_refl). lia.
    + intros _ ? [= <-]. lia.
  - apply u64_of_i64_None in Hn. split; [done |]. intros Hv. specialize (Hv _ eq_refl). lia.
Qed.

Lemma option_bind_Some_of_N (o : option Z) n :
  (o ≫= u64_of_i64) = Some n ↔ o = Some (Z.of_N n).
Proof.
  destruct o as [z|]; cbn; [rewrite u64_of_i64_Some_iff; naive_solver | naive_solver].
Qed.

Lemma rollup_reason_None row expected :
  rollup_reason row expected = None ↔
  ∃ satisfied violated uncertain,
    v_rollup_total row = Some (Z.of_N expected) ∧
    v_rollup_satisfied row = Some (Z.of_N satisfied) ∧
    v_rollup_violated row = Some (Z.of_N violated) ∧
    v_rollup_uncertain row = Some (Z.of_N uncertain) ∧
    (satisfied + violated + uncertain = expected)%N ∧ (expected <= u64_max)%N ∧
    v_finding_count row = Z.of_N (violated + uncertain).
Proof.
  unfold rollup_reason. setoid_rewrite <- option_bind_Some_of_N.
  destruct (v_rollup_total row ≫= _) as [t|], (v_rollup_satisfied row ≫= _) as [s|],
    (v_rollup_violated row ≫= _) as [v|], (v_rollup_uncertain row ≫= _) as [u|];
    [|naive_solver..].
  destruct (checked_add_u64 s v ≫= _) as [c|] eqn:Hc.
  - apply bind_Some in Hc as (sv & Hsv & Hc).
    apply checked_add_u64_Some in Hsv as [-> ?]. apply checked_add_u64_Some in Hc as [-> ?].
    assert (checked_add_u64 v u = Some (v + u)%N) as -> by (apply checked_add_u64_Some; lia).
    case_match eqn:Hm; [split; [done |]; intros (? & ? & ? & ?); destruct_and!; simplify_eq;
      apply orb_true_iff in Hm as [Hm | Hm]; apply negb_true_iff in Hm; boolify; lia |].
    boolify. subst. case_bool_decide as Hf; cbn; rewrite u64_of_i64_Some_iff in Hf.
    + split; [|done]. intros _. exists s, v, u. split_and!; done.
    + split; [done |]. intros (s' & v' & u' & Hall). destruct_and! Hall. simplify_eq.
  - split; [done |]. intros (s' & v' & u' & Hall). destruct_and! Hall. simplify_eq.
    assert (checked_add_u64 s' v' = Some (s' + v')%N) as Hsv by (apply checked_add_u64_Some; lia).
    rewrite Hsv in Hc. cbn in Hc.
    assert (checked_add_u64 (s' + v') u' = Some (s' + v' + u')%N) as Hu
      by (apply checked_add_u64_Some; lia). congruence.
Qed.

Lemma invalid_evaluation_reason_None row marker now :
  invalid_evaluation_reason row marker now = None ↔
  ∃ satisfied violated uncertain,
    evaluation_fits row marker now satisfied violated uncertain.
Proof.
  unfold invalid_evaluation_reason. split.
  - intros H. repeat case_match; try done; boolify.
    rewrite ?u64_of_i64_Some_iff in *.
    match goal with Hr : rollup_reason _ _ = None |- _ =>
      apply rollup_reason_None in Hr as (s & v & u & Hr); destruct_and! Hr end.
    match goal with Hv : valid_until_reason _ _ = None |- _ =>
      rewrite valid_until_reason_None in Hv end.
    exists s, v, u. subst. constructor; try done; try lia.
    split; [done |]. by apply Z.eqb_eq.
  - intros (s & v & u & []). rewrite fits_complete0, bool_decide_true by done. cbn.
    rewrite fits_expected0, fits_evaluated0, !u64_of_i64_of_N, N.eqb_refl. cbn.
    rewrite fits_input0, u64_of_i64_of_N, bool_decide_true by done. cbn.
    rewrite fits_version0.
    destruct (u64_of_i64 (v_current_policy_version row)) as [c|] eqn:Hc;
      [|apply u64_of_i64_None in Hc; lia].
    rewrite N.eqb_refl. cbn. destruct fits_active0 as [-> ->]. rewrite bool_decide_true by done. cbn.
    apply valid_until_reason_None in fits_fresh0 as ->.
    rewrite fits_rules0, u64_of_i64_of_N, bool_decide_true by done. cbn.
    apply rollup_reason_None. exists s, v, u. split_and!; done.
Qed.

(** ** The run keeps counters and findings consistent *)

(** Findings belong to evaluations, as the table's foreign key demands. *)
Definition findings_owned (d : Db) : Prop :=
  ∀ k row, policy_status d !! k = Some row → is_Some (policy_evaluations d !! k.1).

(** The tables and columns a run does not touch before it publishes. *)
Definition same_base (d d' : Db) : Prop :=
  archive_meta d' = archive_meta d ∧ events d' = events d ∧ policies d' = policies d.

(** A context agrees with its running evaluation and with the findings stored for it. *)
Record context_ok (rows : list ContextRow) (marker : ProjectionMarker) (n : N) (d : Db)
    (pid : string) (c : PolicyContext) : Prop := {
  context_policy : ctx_policy_id c = pid;
  context_row : ∃ row, row ∈ rows ∧ row_policy_id row = pid
    ∧ row_policy_version row = Z.of_N (policy_version c);
  context_evaluation : ∃ e, policy_evaluations d !! evaluation_id c = Some e
    ∧ e_status e = "running" ∧ e_policy_id e = pid
    ∧ e_policy_version e = Z.of_N (policy_version c)
    ∧ e_evaluated_policy_input_seq e = Z.of_N (policy_input_event_seq marker)
    ∧ e_rules_version e = Z.of_N RULES_VERSION
    ∧ e_files_expected e = Z.of_N (files_expected c);
  context_counts : files_evaluated c
    = (files_satisfied c + files_violated c + files_uncertain c)%N;
  context_bound : (files_evaluated c <= n)%N;
  context_findings : N.of_nat (finding_count d (evaluation_id c))
    = (files_violated c + files_uncertain c)%N;
}.

Record run_ok (rows : list ContextRow) (marker : ProjectionMarker) (d0 : Db) (n : N) (s : Run)
    : Prop := {
  run_base : same_base d0 (db s);
  run_owned : findings_owned (db s);
  run_contexts : ∀ pid c, contexts s !! pid = Some c →
    context_ok rows marker n (db s) pid c;
}.

Lemma run_ok_weaken rows marker d0 n n' s :
  (n <= n')%N → run_ok rows marker d0 n s → run_ok rows marker d0 n' s.
Proof.
  intros Hn [Hb Ho Hc]. split; [done..|]. intros pid c Hin. destruct (Hc pid c Hin).
  constructor; try done. lia.
Qed.

Lemma finding_count_insert d eid fid row eid' :
  policy_status d !! (eid, fid) = None →
  finding_count (set_policy_status (λ _, <[(eid, fid) := row]> (policy_status d)) d) eid'
  = if decide (eid = eid') then S (finding_count d eid') else finding_count d eid'.
Proof.
  intros Hnone. unfold finding_count. cbn. case_decide as He.
  - rewrite map_filter_insert_True by done. apply map_size_insert_None.
    apply map_lookup_filter_None. auto.
  - rewrite map_filter_insert_False by done. by rewrite delete_id by done.
Qed.

Lemma finding_count_evaluations f d eid :
  finding_count (set_policy_evaluations f d) eid = finding_count d eid.
Proof. done. Qed.

Lemma finding_count_zero d eid :
  findings_owned d → policy_evaluations d !! eid = None → finding_count d eid = 0.
Proof.
  intros Ho Hn. unfold finding_count. apply map_size_empty_iff, map_empty_filter_2.
  intros k row Hk He. destruct (Ho k row Hk) as [e Hev]. cbn in He. congruence.
Qed.

Section run_lemmas.
Context `{FromJson PolicyRequirements} `{ToJson Value} (new_ulid : nat → string).
Context (all : list ContextRow) (marker : ProjectionMarker) (now : N) (d0 : Db).

Lemma load_policy_context_ok i row s u s' :
  row ∈ all → run_ok all marker d0 0 s →
  load_policy_context new_ulid marker now i row s = (Ok u, s') → run_ok all marker d0 0 s'.
Proof.
  intros Hrow [Hb Ho Hc] Hrun. unfold load_policy_context in Hrun.
  match type of Hrun with context [match ?m with _ => _ end] => destruct m as [[evs c]|] eqn:Hm end;
    [|done].
  injection Hrun as <- <-. inv_ok. rewrite insert_row_Ok in *. rewrite !sql_u64_Ok in *.
  repeat match goal with Hs : sql_i64 _ _ = Ok _ |- _ => apply sql_i64_Ok in Hs as -> end.
  destruct_and!; subst. cbn. split; cbn; [done | |].
  - intros k r Hk. apply lookup_insert_is_Some'. right. exact (Ho k r Hk).
  - intros pid c' Hin. apply lookup_insert_Some in Hin as [[<- <-] | [Hne Hin]].
    + constructor; cbn; try done.
      * exists row. auto.
      * eexists. rewrite lookup_insert_eq. auto 10.
      * by rewrite finding_count_evaluations, finding_count_zero.
    + destruct (Hc pid c' Hin) as [? ? (e & He & Hrest) ? ? Hf]. constructor; try done.
      exists e. split; [|done]. cbn. rewrite lookup_insert_ne; [done | congruence].
Qed.

Lemma load_policy_contexts_ok i rows s u s' :
  (∀ row, row ∈ rows → row ∈ all) → run_ok all marker d0 0 s →
  load_policy_contexts new_ulid marker now i rows s = (Ok u, s') → run_ok all marker d0 0 s'.
Proof.
  revert i s. induction rows as [|row rows IH]; intros i s Hin Hok Hrun; cbn in Hrun.
  - by injection Hrun as _ <-.
  - apply st_bind_Ok in Hrun as (v & s1 & Hrow & Hrest). eapply IH; [| |exact Hrest].
    + intros r Hr. apply Hin. by right.
    + eapply load_policy_context_ok; [apply Hin; by left | done..].
Qed.

Lemma count_file_Ok file ev c c' :
  (files_evaluated c + 1 <= u64_max)%N →
  files_evaluated c = (files_satisfied c + files_violated c + files_uncertain c)%N →
  count_file file ev c = Ok c' →
  evaluation_id c' = evaluation_id c ∧ ctx_policy_id c' = ctx_policy_id c ∧
  policy_version c' = policy_version c ∧ files_expected c' = files_expected c ∧
  files_evaluated c' = (files_evaluated c + 1)%N ∧
  files_evaluated c' = (files_satisfied c' + files_violated c' + files_uncertain c')%N ∧
  (files_violated c' + files_uncertain c'
   = files_violated c + files_uncertain c + if status ev is Some _ then 1 else 0)%N.
Proof.
  intros Hb Hs Hc. unfold count_file in Hc. inv_ok. boolify. cbn.
  rewrite (wrapping_add_u64_small (files_evaluated c)) by done.
  destruct (status ev) as [st0|]; cbn.
  - assert (st0 = "violated" ∨ st0 = "uncertain") as [-> | ->] by
      (match goal with Hin : Some st0 ∈ _ |- _ => rewrite !elem_of_cons, elem_of_nil in Hin;
         naive_solver end).
    + rewrite bool_decide_true, bool_decide_false by done.
      rewrite (wrapping_add_u64_small (files_violated c)) by lia. split_and!; try done; lia.
    + rewrite bool_decide_false, bool_decide_true by done.
      rewrite (wrapping_add_u64_small (files_uncertain c)) by lia. split_and!; try done; lia.
  - rewrite !bool_decide_false by done.
    rewrite (wrapping_add_u64_small (files_satisfied c)) by lia. split_and!; try done; lia.
Qed.

Lemma evaluate_and_store_file_ok topology file n s u s' :
  (n + 1 <= u64_max)%N → run_ok all marker d0 n s →
  evaluate_and_store_file topology marker now file s = (Ok u, s') →
  run_ok all marker d0 (n + 1) s'.
Proof.
  intros Hn [Hb Ho Hc] Hrun. unfold evaluate_and_store_file in Hrun.
  match type of Hrun with context [match ?m with _ => _ end] => destruct m as [[c' fs]|] eqn:Hm end;
    [|done].
  injection Hrun as <- <-. apply bind_Ok in Hm as (c & Hctx & Hm). apply ok_or_Ok in Hctx.
  apply bind_Ok in Hm as (ev & Hev & Hm). apply bind_Ok in Hm as (c1 & Hcount & Hm).
  apply bind_Ok in Hm as (fs1 & Hfs & [= -> ->]).
  destruct (Hc _ _ Hctx) as [Hpol Hrow (e & He & Hrest) Hsum Hbound Hfind].
  apply count_file_Ok in Hcount as (Hid & Hpid & Hver & Hexp & Heval & Hsum' & Hviol); [|lia | done].
  assert (fs = policy_status (db s) ∧ status ev = None ∨
          is_Some (status ev) ∧ policy_status (db s) !! (evaluation_id c, file_ref_id file) = None ∧
          ∃ r, fs = <[(evaluation_id c, file_ref_id file) := r]> (policy_status (db s))) as Hcase.
  { destruct (status ev) as [st0|]; [|left; split; congruence]. right. split; [done |].
    apply bind_Ok in Hfs as (r & _ & Hfs). apply insert_row_Ok in Hfs as [Hnone ->].
    rewrite Hid in *. eauto. }
  split; cbn; [done | |].
  - destruct Hcase as [[-> _] | (_ & _ & r & ->)]; [done |].
    intros k r' Hk. cbn in Hk.
    apply lookup_insert_Some in Hk as [[<- <-] | [_ Hk]]; cbn; [eauto | exact (Ho k r' Hk)].
  - intros pid cc Hin. apply lookup_insert_Some in Hin as [[<- <-] | [Hne Hin]].
    + constructor; [congruence | | | done | lia |].
      * by rewrite Hver.
      * cbn. rewrite Hid, Hver, Hexp. eauto.
      * rewrite Hid, Hviol. destruct Hcase as [[-> Hst] | ([st0 Hst] & Hnone & r & ->)].
        -- rewrite Hst, N.add_0_r. exact Hfind.
        -- rewrite finding_count_insert, decide_True, Hst by done. lia.
    + destruct (Hc _ _ Hin) as [Hpol2 ? (e2 & He2 & Hrest2) ? ? Hfind2].
      constructor; try done; [by exists e2 | lia |].
      destruct Hcase as [[-> Hst] | (_ & Hnone & r & ->)]; [exact Hfind2 |].
      rewrite finding_count_insert, decide_False by
        (try done; intros Heq; rewrite Heq in He; destruct_and!; congruence).
      exact Hfind2.
Qed.

Lemma stream_row_ok topology n current row s r s' :
  (n + 1 <= u64_max)%N → run_ok all marker d0 n s →
  stream_row topology marker now current row s = (Ok r, s') → run_ok all marker d0 (n + 1) s'.
Proof.
  intros Hn Hok Hrun. unfold stream_row in Hrun.
  apply st_bind_Ok in Hrun as (cur & s1 & Hflush & Hrun).
  assert (run_ok all marker d0 (n + 1) s1) as Hok1.
  { destruct current as [file|]; cycle 1.
    { injection Hflush as _ <-. eapply run_ok_weaken; [|done]. lia. }
    case_bool_decide.
    - injection Hflush as _ <-. eapply run_ok_weaken; [|done]. lia.
    - apply st_bind_Ok in Hflush as (u & s2 & He & [= _ <-]).
      by eapply evaluate_and_store_file_ok. }
  apply st_bind_Ok in Hrun as (file & s2 & [= _ <-] & Hrun).
  case_match; [|by injection Hrun as _ <-].
  apply st_bind_Ok in Hrun as (copy & s3 & [= _ <-] & [= _ <-]). done.
Qed.

Lemma stream_rows_ok topology n current rows s r s' :
  (n + N.of_nat (length rows) <= u64_max)%N → run_ok all marker d0 n s →
  stream_rows topology marker now current rows s = (Ok r, s') →
  run_ok all marker d0 (n + N.of_nat (length rows)) s'.
Proof.
  revert n current s. induction rows as [|row rows IH]; intros n current s Hn Hok Hrun; cbn in Hrun.
  - injection Hrun as _ <-. eapply run_ok_weaken; [|done]. lia.
  - cbn [length] in *. apply st_bind_Ok in Hrun as (cur & s1 & Hrow & Hrest).
    eapply run_ok_weaken; [|eapply (IH (n + 1)%N); [| |exact Hrest]]; [lia | lia |].
    eapply stream_row_ok; [|done..]. lia.
Qed.

Lemma stream_and_evaluate_files_ok topology rows s u s' :
  (N.of_nat (length rows) < u64_max)%N → run_ok all marker d0 0 s →
  stream_and_evaluate_files topology marker now rows s = (Ok u, s') →
  run_ok all marker d0 u64_max s'.
Proof.
  intros Hn Hok Hrun. unfold stream_and_evaluate_files in Hrun.
  apply st_bind_Ok in Hrun as (cur & s1 & Hrows & Hlast).
  apply (stream_rows_ok _ 0) in Hrows; [|lia | done].
  destruct cur as [file|]; cycle 1.
  - injection Hlast as _ <-. eapply run_ok_weaken; [|done]. lia.
  - eapply evaluate_and_store_file_ok in Hlast; [|..|done]; [|lia].
    eapply run_ok_weaken; [|done]. lia.
Qed.
End run_lemmas.

(** ** Publication makes every evaluation usable *)

Lemma elem_of_btree_values {A} (m : gmap string A) x :
  x ∈ btree_values m ↔ ∃ k, m !! k = Some x.
Proof.
  unfold btree_values. rewrite list_elem_of_omap. setoid_rewrite elem_of_btree_keys.
  split; [naive_solver |]. intros [k Hk]. exists k. split; [by eexists | done].
Qed.

(** The published rows of a context. *)
Record published (marker : ProjectionMarker) (d : Db) (c : PolicyContext) : Prop := {
  published_evaluation : ∃ e, policy_evaluations d !! evaluation_id c = Some e
    ∧ e_status e = "complete" ∧ e_policy_id e = ctx_policy_id c
    ∧ e_policy_version e = Z.of_N (policy_version c)
    ∧ e_evaluated_policy_input_seq e = Z.of_N (policy_input_event_seq marker)
    ∧ e_rules_version e = Z.of_N RULES_VERSION
    ∧ e_files_expected e = Z.of_N (files_evaluated c)
    ∧ e_files_evaluated e = Z.of_N (files_evaluated c)
    ∧ e_valid_until_utc_ms e = Z.of_N <$> ctx_valid_until_utc_ms c;
  published_rollup : ∃ r, policy_rollup d !! (evaluation_id c, ctx_policy_id c) = Some r
    ∧ r_files_total r = Z.of_N (files_evaluated c)
    ∧ r_files_satisfied r = Z.of_N (files_satisfied c)
    ∧ r_files_violated r = Z.of_N (files_violated c)
    ∧ r_files_uncertain r = Z.of_N (files_uncertain c)
    ∧ r_policy_version r = Z.of_N (policy_version c)
    ∧ r_files_size_unknown r = Z.of_N (files_size_unknown c)
    ∧ r_bytes_known_total r = Z.of_N (bytes_known_total c)
    ∧ r_bytes_known_at_risk r = Z.of_N (bytes_known_at_risk c);
}.

Lemma rollup_row_Ok c marker now r :
  rollup_row c marker now = Ok r →
  r_files_total r = Z.of_N (files_evaluated c) ∧
  r_files_satisfied r = Z.of_N (files_satisfied c) ∧
  r_files_violated r = Z.of_N (files_violated c) ∧
  r_files_uncertain r = Z.of_N (files_uncertain c) ∧
  r_policy_version r = Z.of_N (policy_version c) ∧
  r_files_size_unknown r = Z.of_N (files_size_unknown c) ∧
  r_bytes_known_total r = Z.of_N (bytes_known_total c) ∧
  r_bytes_known_at_risk r = Z.of_N (bytes_known_at_risk c).
Proof.
  intros H. unfold rollup_row in H. inv_ok.
  repeat match goal with Hs : sql_i64 _ _ = Ok _ |- _ => apply sql_i64_Ok in Hs as -> end. done.
Qed.

Section finish.
Context (all : list ContextRow) (marker : ProjectionMarker) (now n : N) (d0 : Db) (s : Run).
Hypothesis Hrun : run_ok all marker d0 n s.

(** Contexts that share an evaluation are the same. *)
Lemma evaluation_id_inj c1 c2 :
  c1 ∈ btree_values (contexts s) → c2 ∈ btree_values (contexts s) →
  evaluation_id c1 = evaluation_id c2 → c1 = c2.
Proof.
  intros [p1 H1]%elem_of_btree_values [p2 H2]%elem_of_btree_values Heq.
  destruct (run_contexts _ _ _ _ _ Hrun p1 c1 H1) as [_ _ (e1 & He1 & _ & Hp1 & _) _ _ _].
  destruct (run_contexts _ _ _ _ _ Hrun p2 c2 H2) as [_ _ (e2 & He2 & _ & Hp2 & _) _ _ _].
  congruence.
Qed.

Lemma finish_evaluations_ok d' :
  finish_evaluations marker now (contexts s) (db s) = Ok d' →
  same_base d0 d' ∧ policy_status d' = policy_status (db s) ∧
  ∀ c, c ∈ btree_values (contexts s) → published marker d' c.
Proof.
  unfold finish_evaluations. intros Hfin.
  cut (same_base d0 d' ∧ policy_status d' = policy_status (db s) ∧
       ∀ c, c ∈ btree_values (contexts s) →
         (c ∈ btree_values (contexts s) → published marker d' c) ∧
         (c ∉ btree_values (contexts s) →
            policy_evaluations d' !! evaluation_id c = policy_evaluations (db s) !! evaluation_id c)).
  { intros (? & ? & Hall). split_and!; [done..|]. intros c Hc. by apply (Hall c Hc). }
  revert Hfin. apply (fold_result_ind_in _ (λ done d,
    same_base d0 d ∧ policy_status d = policy_status (db s) ∧
    ∀ c, c ∈ btree_values (contexts s) →
      (c ∈ done → published marker d c) ∧
      (c ∉ done →
         policy_evaluations d !! evaluation_id c = policy_evaluations (db s) !! evaluation_id c))).
  { split_and!; [apply Hrun | done |]. intros c _. split; [by intros ?%elem_of_nil | done]. }
  intros done x rest d1 d2 Hl (Hb & Hst & Hall) Hx. unfold finish_evaluation in Hx.
  apply bind_Ok in Hx as ([] & Hcount & Hx). apply bail_if_Ok in Hcount. boolify.
  apply bind_Ok in Hx as (r & Hr & Hx). apply bind_Ok in Hx as (roll & Hroll & Hx).
  apply bind_Ok in Hx as (valid & Hvalid & [= <-]). apply insert_row_Ok in Hroll as [Hnone ->].
  apply optional_i64_Ok in Hvalid as ->. apply rollup_row_Ok in Hr. pose proof (proj1 Hr) as Ht.
  assert (x ∈ btree_values (contexts s)) as Hxin by (rewrite Hl; set_solver).
  assert (x ∉ done) as Hnew.
  { intros Hd. destruct (Hall x Hxin) as [Hp _].
    destruct (published_rollup _ _ _ (Hp Hd)) as (r' & Hr' & _). congruence. }
  split_and!; [done | done |]. intros c Hc. rewrite elem_of_app, list_elem_of_singleton.
  destruct (decide (evaluation_id c = evaluation_id x)) as [Heq | Hne].
  - assert (c = x) as -> by (by apply evaluation_id_inj). split; [intros _ | tauto].
    destruct (Hall x Hxin) as [_ Hun]. specialize (Hun Hnew).
    apply elem_of_btree_values in Hxin as [pid Hpid].
    destruct (run_contexts _ _ _ _ _ Hrun pid x Hpid)
      as [Hp _ (e & He & Hrunning & He1 & He2 & He3 & He4 & He5) _ _ _].
    split; cbn.
    + rewrite lookup_alter_eq, Hun, He. eexists. split; [done |]. unfold complete_row.
      rewrite bool_decide_true by done. cbn. split_and!; first [congruence | exact He4].
    + exists r. rewrite lookup_insert_eq. tauto.
  - destruct (Hall c Hc) as [Hdone Hundone]. split.
    + intros [Hd | ->]; [|done]. destruct (Hdone Hd) as [(e & He & Hrest) (r' & Hr' & Hrest')].
      split; cbn.
      * exists e. by rewrite lookup_alter_ne by done.
      * exists r'. by rewrite lookup_insert_ne by congruence.
    + intros Hnd. cbn. rewrite lookup_alter_ne by done. apply Hundone. tauto.
Qed.
End finish.

Lemma load_projection_marker_base d d' :
  same_base d d' → load_projection_marker d' = load_projection_marker d.
Proof.
  intros (Hm & He & _). unfold load_projection_marker, marker_parse, marker_meta.
  by rewrite Hm, He.
Qed.

(** Everything a successful run leaves behind. *)
Lemma evaluate_policies_inv `{FromJson PolicyRequirements} `{ToJson Value} new_ulid rows now d
    res d' :
  findings_owned d → (N.of_nat (length (file_rows rows)) < u64_max)%N →
  evaluate_policies new_ulid rows now d = (Ok res, d') →
  ∃ marker s, load_projection_marker d = Ok marker ∧
    evaluated_event_seq res = applied_seq marker ∧
    evaluations res = policy_evaluation <$> btree_values (contexts s) ∧
    run_ok (context_rows rows) marker d u64_max s ∧
    load_projection_marker d' = Ok marker ∧ policies d' = policies d ∧
    policy_status d' = policy_status (db s) ∧
    ∀ c, c ∈ btree_values (contexts s) → published marker d' c.
Proof.
  intros Howned Hlen Hrun. unfold evaluate_policies in Hrun. rewrite transaction_Ok in Hrun.
  destruct (read_inputs rows d) as [[mk tp]|] eqn:Hm; [|done].
  apply bind_Ok in Hm as (mk' & Hmarker & Hm). apply bind_Ok in Hm as (tp' & _ & [= -> ->]).
  destruct (evaluate_rows _ _ _ _ _ _) as [[u|] s] eqn:Hs; [|done].
  destruct (finish_evaluations _ _ _ _) as [d1|] eqn:Hfin; [|done]. injection Hrun as <- <-.
  apply st_bind_Ok in Hs as (v & s1 & Hload & Hstream).
  eapply (load_policy_contexts_ok _ (context_rows rows) _ _ d) in Hload; [|done|].
  2:{ split; cbn; [done | done |]. intros pid c Hc. by rewrite lookup_empty in Hc. }
  eapply stream_and_evaluate_files_ok in Hstream; [|done..].
  destruct (finish_evaluations_ok _ _ _ _ _ _ Hstream _ Hfin) as (Hbase & Hstatus & Hpub).
  exists mk, s. rewrite (load_projection_marker_base _ _ Hbase). destruct Hbase as (_ & _ & Hp).
  by split_and!.
Qed.

(** A published evaluation is valid until its limit, if its policy is still the one it was
    made for. *)
Lemma published_usable marker d c now p :
  load_projection_marker d = Ok marker → published marker d c →
  policies d !! ctx_policy_id c = Some p →
  policy_row_version p = Z.of_N (policy_version c) → policy_row_status p = "active" →
  policy_row_enabled p = 1%Z →
  files_evaluated c = (files_satisfied c + files_violated c + files_uncertain c)%N →
  (files_evaluated c <= u64_max)%N →
  N.of_nat (finding_count d (evaluation_id c)) = (files_violated c + files_uncertain c)%N →
  (∀ v, ctx_valid_until_utc_ms c = Some v → (now < v)%N) →
  policy_evaluation_validity d (evaluation_id c) now
  = Ok {| usable := true; unusable_reason := None |}.
Proof.
  intros Hm [(er & Her & He1 & He2 & He3 & He4 & He5 & He6 & He7 & He8)
    (rr & Hrr & Hr1 & Hr2 & Hr3 & Hr4 & _)] Hp Hpv Hps Hpe Hsum Hbound Hfind Hlim.
  unfold policy_evaluation_validity. rewrite Hm. cbn. unfold validity_row. rewrite Her. cbn.
  rewrite He2, Hp. cbn. rewrite Hrr. cbn.
  match goal with |- context [invalid_evaluation_reason ?r marker now] =>
    assert (invalid_evaluation_reason r marker now = None) as -> end; [|done].
  apply invalid_evaluation_reason_None.
  exists (files_satisfied c), (files_violated c), (files_uncertain c).
  constructor; cbn; try done; try congruence; try lia.
  rewrite He8. intros z [v' [Hv' ->]]%fmap_Some. specialize (Hlim v' Hv'). lia.
Qed.

(** C33: a run that succeeds publishes usable evaluations. For every policy evaluated, its
    files are the satisfied, violated and uncertain ones together, and asking for the
    validity of its evaluation at any time before its limit finds it usable: complete,
    counted as expected, of the current policy version and policy input, with a finding
    stored for exactly the files that are not satisfied. *)
Theorem evaluate_policies_usable `{FromJson PolicyRequirements} `{ToJson Value} new_ulid rows
    now now' d res d' :
  findings_owned d →
  (N.of_nat (length (file_rows rows)) < u64_max)%N →
  (∀ row, row ∈ context_rows rows → policies d !! row_policy_id row
     = Some {| policy_row_version := row_policy_version row; policy_row_status := "active";
               policy_row_enabled := 1 |}) →
  evaluate_policies new_ulid rows now d = (Ok res, d') →
  ∀ e, e ∈ evaluations res →
    p_files_total e = (p_files_satisfied e + p_files_violated e + p_files_uncertain e)%N ∧
    N.of_nat (finding_count d' (p_evaluation_id e))
      = (p_files_violated e + p_files_uncertain e)%N ∧
    ((∀ v, p_valid_until_utc_ms e = Some v → (now' < v)%N) →
       policy_evaluation_validity d' (p_evaluation_id e) now'
       = Ok {| usable := true; unusable_reason := None |}).
Proof.
  intros Howned Hlen Hpol Hrun e He.
  destruct (evaluate_policies_inv _ _ _ _ _ _ Howned Hlen Hrun)
    as (marker & s & _ & _ & Hres & Hok & Hmarker & Hpols & Hstatus & Hpub).
  rewrite Hres in He. apply list_elem_of_fmap in He as (c & -> & Hc). cbn.
  specialize (Hpub c Hc). apply elem_of_btree_values in Hc as [pid Hpid].
  destruct (run_contexts _ _ _ _ _ Hok pid c Hpid)
    as [Hcp (row & Hrow & Hrid & Hrver) _ Hsum Hbound Hfind].
  assert (finding_count d' (evaluation_id c) = finding_count (db s) (evaluation_id c)) as Hcnt
    by (unfold finding_count; by rewrite Hstatus).
  rewrite <- Hcnt in Hfind. split_and!; [done..|]. intros Hlim.
  eapply (published_usable _ _ _ _ _ Hmarker Hpub);
    [by rewrite Hpols, Hcp, <- Hrid, (Hpol row Hrow) | done..].
Qed.

Lemma sql_u64_of_N n field : sql_u64 (Z.of_N n) field = Ok n.
Proof. by apply sql_u64_Ok. Qed.

Lemma read_rollup_published marker d c :
  published marker d c →
  read_rollup d (ctx_policy_id c) (evaluation_id c) = Ok (policy_evaluation c).
Proof.
  intros [(er & Her & _ & _ & _ & _ & _ & _ & _ & He8)
    (rr & Hrr & Hr1 & Hr2 & Hr3 & Hr4 & Hr5 & Hr6 & Hr7 & Hr8)].
  unfold read_rollup. rewrite Hrr, Her. cbn.
  rewrite Hr1, Hr2, Hr3, Hr4, Hr5, Hr6, Hr7, Hr8, He8, !sql_u64_of_N. cbn.
  destruct c as [? ? ? ? ? ? ? ? ? ? ? ? [v|]]; cbn; [rewrite sql_u64_of_N|]; done.
Qed.

(** What a run publishes is what the status reads back: asked before any of the limits
    about the policies just evaluated, the cached status lists exactly the evaluations
    the run returned, number for number, and finds none of them stale. *)
Theorem cached_status_roundtrip `{FromJson PolicyRequirements} `{ToJson Value} new_ulid rows
    now now' d res d' :
  findings_owned d → (N.of_nat (length (file_rows rows)) < u64_max)%N →
  (∀ row, row ∈ context_rows rows → policies d !! row_policy_id row
     = Some {| policy_row_version := row_policy_version row; policy_row_status := "active";
               policy_row_enabled := 1 |}) →
  evaluate_policies new_ulid rows now d = (Ok res, d') →
  (∀ e v, e ∈ evaluations res → p_valid_until_utc_ms e = Some v → (now' < v)%N) →
  cached_policy_status d' ((λ e, (p_policy_id e, Some (p_evaluation_id e))) <$> evaluations res)
    now'
  = Ok {| applied_event_seq := evaluated_event_seq res;
          cached_evaluations := evaluations res; stale_policies := [] |}.
Proof.
  intros Howned Hlen Hpol Hrun Hlim.
  destruct (evaluate_policies_inv _ _ _ _ _ _ Howned Hlen Hrun)
    as (marker & s & _ & Hseq & Hres & Hok & Hmarker & Hpols & Hstatus & Hpub).
  unfold cached_policy_status. rewrite Hmarker, Hseq. cbn.
  assert (∀ l acc, (∀ e, e ∈ l → e ∈ evaluations res) →
    fold_result (cached_policy d' now') (acc, [])
      ((λ e, (p_policy_id e, Some (p_evaluation_id e))) <$> l) = Ok (acc ++ l, [])) as Hfold.
  { induction l as [|e l IH]; intros acc Hl; cbn [fmap list_fmap fold_result].
    - by rewrite app_nil_r.
    - assert (e ∈ evaluations res) as He by (apply Hl; by left). specialize (Hlim e).
      rewrite Hres in He. apply list_elem_of_fmap in He as (c & -> & Hc).
      specialize (Hpub c Hc). pose proof Hc as [pid Hpid]%elem_of_btree_values.
      destruct (run_contexts _ _ _ _ _ Hok pid c Hpid)
        as [Hcp (row & Hrow & Hrid & Hrver) _ Hsum Hbound Hfind].
      unfold cached_policy. cbn.
      erewrite (published_usable _ _ _ _ _ Hmarker Hpub);
        [| by rewrite Hpols, Hcp, <- Hrid, (Hpol row Hrow) | done | done | done | done | done
         | by unfold finding_count; rewrite Hstatus
         | intros v Hv; apply (Hlim v); [apply Hl; by left | done]].
      cbn. rewrite (read_rollup_published _ _ _ Hpub). cbn.
      rewrite IH by (intros e' He'; apply Hl; by right). by rewrite <- app_assoc. }
  rewrite Hfold by done. done.
Qed.

(** ** Examples *)

(** A small catalog: one policy, the photo of [Policy.Examples] with its two copies, and a
    second file without copies. *)
Module Examples.
#[local] Instance starter_json : FromJson PolicyRequirements :=
  {| from_json b := Ok Policy.Examples.starter |}.
#[local] Instance opaque_json : ToJson Value := {| to_json v := Ok (as_bytes "{}") |}.

Definition catalog_db : Db :=
  {| archive_meta :=
       list_to_map [("applied_event_seq", "12"); ("policy_input_event_seq", "10");
                    ("applied_event_hash", "hash_12"); ("stream_id", "stream_primary")];
     events := {[("stream_primary", 12%Z) := "hash_12"]};
     policies := {["policy_main" := {| policy_row_version := 3; policy_row_status := "active";
                                       policy_row_enabled := 1 |}]};
     policy_evaluations := ∅; policy_status := ∅; policy_rollup := ∅ |}.

Definition photo_row (copy : CopyFact) : FileRow :=
  {| c_policy_id := "policy_main"; c_collection_id := "collection_main";
     c_collection_name := "Family archive"; c_home_site_id := "site_home";
     c_file_ref_id := "file_1"; c_object_id := Some "object_1";
     c_identity_state := "resolved"; c_logical_path_display := "photo.jpg";
     c_size_bytes := Some 1234%Z; c_hash_algo := Some "blake3";
     c_copy_claim_id := Some (copy_claim_id copy); c_state := Some (state copy);
     c_copy_object_id := copy_object_id copy;
     c_last_seen_time := Z.of_N <$> last_seen_time_utc_ms copy;
     c_last_verified_time := Z.of_N <$> last_verified_time_utc_ms copy;
     c_last_verification_result := last_verification_result copy;
     c_location_id := Some (location_id copy); c_location_name := Some (location_name copy);
     c_location_kind := Some (location_kind copy);
     c_location_status := Some (location_status copy);
     c_archive_root_id := archive_root_id copy;
     c_archive_root_status := archive_root_status copy;
     c_archive_root_device_id := archive_root_device_id copy;
     c_device_id := device_id copy; c_device_name := device_name copy;
     c_device_status := device_status copy;
     c_device_identity_state := device_identity_state copy;
     c_device_expected_availability := device_expected_availability copy;
     c_last_checkin_time := Z.of_N <$> last_checkin_time_utc_ms copy;
     c_last_fingerprint_match_time := Z.of_N <$> last_fingerprint_match_time_utc_ms copy;
     c_last_fingerprint_status := last_fingerprint_status copy;
     c_site_id := site_id copy; c_site_name := site_name copy; c_site_status := site_status copy;
     c_encryption_state := encryption_state copy; c_trust_level := trust_level copy;
     c_location_expected_availability := Some (location_expected_availability copy) |}.

(** The outer joins of a file without copies are null. *)
Definition lost_row : FileRow :=
  {| c_policy_id := "policy_main"; c_collection_id := "collection_main";
     c_collection_name := "Family archive"; c_home_site_id := "site_home";
     c_file_ref_id := "file_2"; c_object_id := Some "object_2";
     c_identity_state := "resolved"; c_logical_path_display := "lost.jpg";
     c_size_bytes := None; c_hash_algo := Some "blake3"; c_copy_claim_id := None;
     c_state := None; c_copy_object_id := None; c_last_seen_time := None;
     c_last_verified_time := None; c_last_verification_result := None; c_location_id := None;
     c_location_name := None; c_location_kind := None; c_location_status := None;
     c_archive_root_id := None; c_archive_root_status := None;
     c_archive_root_device_id := None; c_device_id := None; c_device_name := None;
     c_device_status := None; c_device_identity_state := None;
     c_device_expected_availability := None; c_last_checkin_time := None;
     c_last_fingerprint_match_time := None; c_last_fingerprint_status := None;
     c_site_id := None; c_site_name := None; c_site_status := None;
     c_encryption_state := None; c_trust_level := None;
     c_location_expected_availability := None |}.

Definition catalog_rows : CatalogRows :=
  {| domain_rows := []; assignment_rows := [];
     context_rows := [{| row_policy_id := "policy_main"; row_policy_version := 3;
                         row_requirements_json := "{}"; row_files_expected := 2 |}];
     file_rows := [photo_row Policy.Examples.home_copy; photo_row Policy.Examples.remote_copy;
                   lost_row] |}.

Definition catalog_run : result PolicyError PolicyEvaluationResult * Db :=
  evaluate_policies (λ i, "01j") catalog_rows Policy.Examples.NOW catalog_db.

Definition catalog_result : PolicyEvaluationResult :=
  match catalog_run.1 with
  | Ok res => res
  | Err _ => {| evaluated_event_seq := 0; evaluated_policy_input_seq := 0; evaluations := [] |}
  end.

Definition main_evaluation : PolicyEvaluation :=
  {| p_evaluation_id := "evaluation_01j"; p_policy_id := "policy_main"; p_policy_version := 3;
     p_files_total := 2; p_files_satisfied := 1; p_files_violated := 1; p_files_uncertain := 0;
     p_valid_until_utc_ms := Some 87300000%N; p_files_size_unknown := 1;
     p_bytes_known_total := 1234; p_bytes_known_at_risk := 0 |}.

Example catalog_evaluations : evaluations catalog_result = [main_evaluation].
Proof. vm_compute. reflexivity. Qed.

Lemma catalog_runs : catalog_run = (Ok catalog_result, catalog_run.2).
Proof.
  assert (is_ok catalog_run.1 = true) as H by (vm_compute; reflexivity).
  unfold catalog_result. destruct catalog_run as [[res|e] d']; [done | discriminate H].
Qed.

Lemma catalog_owned : findings_owned catalog_db.
Proof. intros k row Hk. cbn in Hk. by rewrite lookup_empty in Hk. Qed.

Lemma catalog_policies row :
  row ∈ context_rows catalog_rows → policies catalog_db !! row_policy_id row
  = Some {| policy_row_version := row_policy_version row; policy_row_status := "active";
            policy_row_enabled := 1 |}.
Proof. by intros ->%list_elem_of_singleton. Qed.

Lemma evaluate_policies_usable_witness :
  policy_evaluation_validity catalog_run.2 "evaluation_01j" 87299999
  = Ok {| usable := true; unusable_reason := None |}.
Proof.
  assert (main_evaluation ∈ evaluations catalog_result) as He
    by (rewrite catalog_evaluations; left).
  destruct (evaluate_policies_usable (λ i, "01j") catalog_rows Policy.Examples.NOW 87299999
    catalog_db catalog_result catalog_run.2 catalog_owned ltac:(done) catalog_policies
    catalog_runs main_evaluation He) as (_ & _ & H).
  apply H. intros v Hv. injection Hv as <-. done.
Defined.

Lemma cached_status_roundtrip_witness :
  cached_policy_status catalog_run.2 [("policy_main", Some "evaluation_01j")] 87299999
  = Ok {| applied_event_seq := evaluated_event_seq catalog_result;
          cached_evaluations := evaluations catalog_result; stale_policies := [] |}.
Proof.
  assert ([("policy_main", Some "evaluation_01j")]
    = (λ e, (p_policy_id e, Some (p_evaluation_id e))) <$> evaluations catalog_result) as ->
    by (rewrite catalog_evaluations; reflexivity).
  apply (cached_status_roundtrip (λ i, "01j") catalog_rows Policy.Examples.NOW 87299999
    catalog_db catalog_result catalog_run.2 catalog_owned ltac:(done) catalog_policies
    catalog_runs).
  intros e v He. rewrite catalog_evaluations in He. apply list_elem_of_singleton in He as ->.
  intros Hv. injection Hv as <-. done.
Defined.
End Examples.
