(* ===== verification/Codec.v ===== *)
(** Concrete codecs for the examples: JSON values have a text form that reads back and holds no
    line end, and every countable type an injective serialization, so the laws the components
    assume of the serializers hold of them. Only examples depend on this file. *)
From Stdlib Require Import ZArith NArith Lia Ascii.
From stdpp Require Import base decidable list gmap strings countable.
From S2P Require Import Prelude.
From S2P Require Import Text.
From S2P Require Import External.

(** ** A serialization of countable types *)

Fixpoint pos_bits (p : positive) : bytes :=
  match p with
  | xH => []
  | xO p => "0"%char :: pos_bits p
  | xI p => "1"%char :: pos_bits p
  end.
Fixpoint bits_pos (b : bytes) : positive :=
  match b with
  | [] => xH
  | a :: b => if decide (a = "1"%char) then xI (bits_pos b) else xO (bits_pos b)
  end.

Lemma bits_pos_bits p : bits_pos (pos_bits p) = p.
Proof. induction p as [p IH|p IH|]; cbn; by rewrite ?IH. Qed.

Lemma pos_bits_digit p a : a ∈ pos_bits p → a = "0"%char ∨ a = "1"%char.
Proof.
  induction p as [p IH|p IH|]; cbn; rewrite ?elem_of_cons, ?elem_of_nil; naive_solver.
Qed.

(** The code number in binary digits behind a letter. *)
Definition encode_bytes `{Countable A} (a : A) : bytes := "j"%char :: pos_bits (encode a).
Definition decode_bytes `{Countable A} (b : bytes) : result string A :=
  match b with
  | _ :: b => ok_or (decode (bits_pos b)) "invalid code"
  | [] => Err "empty"
  end.

Lemma decode_encode_bytes `{Countable A} (a : A) : decode_bytes (encode_bytes a) = Ok a.
Proof. unfold decode_bytes, encode_bytes. by rewrite bits_pos_bits, decode_encode. Qed.

Lemma encode_bytes_digits `{Countable A} (a : A) c :
  c ∈ encode_bytes a → c = "j"%char ∨ c = "0"%char ∨ c = "1"%char.
Proof. intros [-> | ?%pos_bits_digit]%elem_of_cons; tauto. Qed.

(** ** Values in bytes *)

(** Induction over a value with the members of arrays and objects. *)
Section value_induction.
Variable P : Value → Prop.
Hypothesis P_null : P Null.
Hypothesis P_bool : ∀ b, P (Bool b).
Hypothesis P_num : ∀ n, P (Num n).
Hypothesis P_str : ∀ s, P (Str s).
Hypothesis P_arr : ∀ l, Forall P l → P (Arr l).
Hypothesis P_obj : ∀ members, Forall (λ m, P m.2) members → P (Obj members).

Fixpoint value_induction (v : Value) : P v :=
  match v with
  | Null => P_null
  | Bool b => P_bool b
  | Num n => P_num n
  | Str s => P_str s
  | Arr l =>
      P_arr l ((fix go (l : list Value) : Forall P l :=
        match l with
        | [] => List.Forall_nil P
        | v :: l => List.Forall_cons P v l (value_induction v) (go l)
        end) l)
  | Obj members =>
      P_obj members ((fix go (l : list (string * Value)) : Forall (λ m, P m.2) l :=
        match l with
        | [] => List.Forall_nil (λ m, P m.2)
        | m :: l => List.Forall_cons (λ m, P m.2) m l (value_induction m.2) (go l)
        end) members)
  end.
End value_induction.

Definition number_sum (n : Number) : N + Z + N :=
  match n with PosInt n => inl (inl n) | NegInt z => inl (inr z) | Float f => inr f end.
Definition sum_number (x : N + Z + N) : Number :=
  match x with inl (inl n) => PosInt n | inl (inr z) => NegInt z | inr f => Float f end.


Lemma sum_number_sum n : sum_number (number_sum n) = n.
Proof. by destruct n. Qed.

(** What a character is written as, if it cannot stand for itself in a string. *)
Definition escape (a : ascii) : option ascii :=
  match a with
  | "034" => Some "q"
  | "\" => Some "b"
  | "010" => Some "n"
  | "013" => Some "r"
  | _ => None
  end%char.
Definition unescape (a : ascii) : ascii :=
  match a with "q" => "034" | "b" => "\" | "n" => "010" | _ => "013" end%char.

Fixpoint text_bytes (s : string) : bytes :=
  match s with
  | "" => ["034"%char]
  | String a s =>
      match escape a with
      | Some e => "\"%char :: e :: text_bytes s
      | None => a :: text_bytes s
      end
  end%string.
Fixpoint read_text (b : bytes) : option (string * bytes) :=
  match b with
  | [] => None
  | "034" :: b => Some (EmptyString, b)
  | "\" :: e :: b => prod_map (String (unescape e)) id <$> read_text b
  | a :: b => prod_map (String a) id <$> read_text b
  end%char.

(** A number as the digits of its code, ended by a point. *)
Definition number_bytes (n : Number) : bytes := pos_bits (encode (number_sum n)) ++ ["."%char].
Fixpoint read_bits (b : bytes) : option (positive * bytes) :=
  match b with
  | "." :: b => Some (xH, b)
  | "0" :: b => prod_map xO id <$> read_bits b
  | "1" :: b => prod_map xI id <$> read_bits b
  | _ => None
  end%char.

(** A letter says what follows; a list ends in a closing bracket. *)
Fixpoint value_bytes (v : Value) : bytes :=
  match v with
  | Null => ["z"]
  | Bool true => ["t"]
  | Bool false => ["f"]
  | Num n => "n" :: number_bytes n
  | Str s => "s" :: text_bytes s
  | Arr l => "[" :: mjoin (value_bytes <$> l) ++ ["]"]
  | Obj members =>
      "{" :: mjoin ((λ m : string * Value, "s" :: text_bytes m.1 ++ value_bytes m.2) <$> members)
      ++ ["]"]
  end%char.

(** A value, the elements of an array and the members of an object. *)
Fixpoint read_value (n : nat) (b : bytes) : option (Value * bytes) :=
  match n with
  | O => None
  | S n =>
      match b with
      | "z" :: b => Some (Null, b)
      | "t" :: b => Some (Bool true, b)
      | "f" :: b => Some (Bool false, b)
      | "n" :: b =>
          '(p, b) ← read_bits b;
          (λ x, (Num (sum_number x), b)) <$> decode p
      | "s" :: b => prod_map Str id <$> read_text b
      | "[" :: b => prod_map Arr id <$> read_values n b
      | "{" :: b => prod_map Obj id <$> read_members n b
      | _ => None
      end%char
  end
with read_values (n : nat) (b : bytes) : option (list Value * bytes) :=
  match n with
  | O => None
  | S n =>
      match b with
      | "]"%char :: b => Some ([], b)
      | _ =>
          '(v, b) ← read_value n b;
          prod_map (cons v) id <$> read_values n b
      end
  end
with read_members (n : nat) (b : bytes) : option (list (string * Value) * bytes) :=
  match n with
  | O => None
  | S n =>
      match b with
      | "s"%char :: b =>
          '(k, b) ← read_text b;
          '(v, b) ← read_value n b;
          prod_map (cons (k, v)) id <$> read_members n b
      | "]"%char :: b => Some ([], b)
      | _ => None
      end
  end.

Definition bytes_value (b : bytes) : result string Value :=
  ok_or (fst <$> read_value (length b) b) "invalid value".

Lemma read_text_bytes s rest : read_text (text_bytes s ++ rest) = Some (s, rest).
Proof.
  induction s as [|a s IH]; [done |]. cbn.
  destruct a as [[] [] [] [] [] [] [] []]; cbn; by rewrite IH.
Qed.

Lemma read_bits_pos p rest : read_bits (pos_bits p ++ "."%char :: rest) = Some (p, rest).
Proof. induction p as [p IH | p IH |]; cbn; by rewrite ?IH. Qed.

Lemma value_bytes_head v : ∃ a b, value_bytes v = a :: b ∧ a ≠ "]"%char.
Proof. destruct v as [|[]| | | |]; cbn; by eexists _, _. Qed.

(** As much fuel as bytes is enough. *)
Definition reads_back (v : Value) : Prop := ∀ n rest,
  length (value_bytes v) <= n → read_value n (value_bytes v ++ rest) = Some (v, rest).

Lemma read_values_bytes l n rest :
  Forall reads_back l → length (mjoin (value_bytes <$> l)) < n →
  read_values n (mjoin (value_bytes <$> l) ++ "]"%char :: rest) = Some (l, rest).
Proof.
  intros Hl. revert n. induction Hl as [|v l Hv _ IH]; intros [|n] Hn; try lia; [done |].
  change (mjoin (value_bytes <$> v :: l)) with (value_bytes v ++ mjoin (value_bytes <$> l)) in *.
  rewrite length_app in Hn.
  destruct (value_bytes_head v) as (a & b & Hab & Ha).
  assert (0 < length (value_bytes v)) by (rewrite Hab; cbn; lia).
  rewrite <- app_assoc. cbn [read_values].
  assert (∀ b, match value_bytes v ++ b with
               | "]"%char :: b => Some ([], b)
               | _ => '(w, b) ← read_value n (value_bytes v ++ b);
                      prod_map (cons w) id <$> read_values n b
               end = ('(w, b) ← read_value n (value_bytes v ++ b);
                      prod_map (cons w) id <$> read_values n b)) as Hmatch.
  { intros b'. rewrite Hab. cbn. by destruct a as [[] [] [] [] [] [] [] []]. }
  rewrite Hmatch, Hv by lia. cbn. by rewrite IH by lia.
Qed.

Definition member_bytes (m : string * Value) : bytes :=
  "s"%char :: text_bytes m.1 ++ value_bytes m.2.

Lemma read_members_bytes l n rest :
  Forall (λ m, reads_back m.2) l → length (mjoin (member_bytes <$> l)) < n →
  read_members n (mjoin (member_bytes <$> l) ++ "]"%char :: rest) = Some (l, rest).
Proof.
  intros Hl. revert n. induction Hl as [|[k v] l Hv _ IH]; intros [|n] Hn; try lia; [done |].
  change (mjoin (member_bytes <$> (k, v) :: l))
    with ("s"%char :: (text_bytes k ++ value_bytes v) ++ mjoin (member_bytes <$> l)) in *.
  cbn [length] in Hn. rewrite !length_app in Hn. cbn [app read_members]. rewrite <- !app_assoc.
  rewrite read_text_bytes. cbn. cbn in Hv. rewrite Hv by lia. cbn. by rewrite IH by lia.
Qed.

Lemma read_value_bytes v : reads_back v.
Proof.
  induction v as [| [] | m | s | l IH | l IH] using value_induction;
    intros [|n] rest; cbn [value_bytes length read_value app]; intros Hn; try lia; try done.
  - unfold number_bytes. rewrite <- app_assoc. cbn [app].
    rewrite read_bits_pos. cbn. by rewrite decode_encode; cbn; rewrite sum_number_sum.
  - by rewrite read_text_bytes.
  - rewrite <- app_assoc. rewrite length_app in Hn. cbn [app length] in *.
    by rewrite read_values_bytes by (done || lia).
  - change (λ m : string * Value, _) with member_bytes in Hn |- *.
    rewrite <- app_assoc. rewrite length_app in Hn. cbn [app length] in *.
    by rewrite read_members_bytes by (done || lia).
Qed.

Lemma bytes_value_bytes v : bytes_value (value_bytes v) = Ok v.
Proof.
  unfold bytes_value. rewrite <- (app_nil_r (value_bytes v)) at 2.
  by rewrite read_value_bytes by done.
Qed.

(** No byte ends a line. *)
Definition in_line (a : ascii) : Prop := a ≠ "010"%char ∧ a ≠ "013"%char.

Lemma text_in_line s : Forall in_line (text_bytes s).
Proof.
  induction s as [|a s IH]; [by repeat constructor |]. cbn.
  destruct a as [[] [] [] [] [] [] [] []]; cbn; repeat (constructor; [by split |]); done.
Qed.

Lemma number_in_line n : Forall in_line (number_bytes n).
Proof.
  apply Forall_app. split; [|by repeat constructor].
  induction (encode _) as [p IH | p IH |]; cbn; repeat (constructor; [by split |]); done.
Qed.

Lemma value_in_line v : Forall in_line (value_bytes v).
Proof.
  induction v as [| [] | m | s | l IH | l IH] using value_induction; cbn;
    (constructor; [by split |]); try done.
  - apply number_in_line.
  - apply text_in_line.
  - apply Forall_app. split; [|by repeat constructor].
    induction IH as [|v l Hv _ IHl]; cbn; [done |]. by apply Forall_app.
  - apply Forall_app. split; [|by repeat constructor].
    induction IH as [|[k v] l Hv _ IHl]; cbn; [done |]. constructor; [by split |].
    apply Forall_app. split; [|done]. apply Forall_app. split; [apply text_in_line | done].
Qed.

Lemma value_bytes_line v : "010"%char ∉ value_bytes v ∧ "013"%char ∉ value_bytes v.
Proof.
  pose proof (value_in_line v) as Hv. rewrite Forall_forall in Hv.
  split; intros Hin; by destruct (Hv _ Hin).
Qed.

(** ** Documents that are cut short *)

Lemma text_longer b x s r : read_text b = Some (s, r) → read_text (b ++ x) = Some (s, r ++ x).
Proof.
  revert s r. induction b as [b IH] using (induction_ltof1 _ (@length ascii)). unfold ltof in IH.
  intros s r. destruct b as [|a b]; [done |].
  assert (∀ f : string → string, prod_map f id <$> read_text b = Some (s, r) →
    prod_map f id <$> read_text (b ++ x) = Some (s, r ++ x)) as Hstep.
  { intros f Hf. destruct (read_text b) as [[s' r']|] eqn:Hb; [|done].
    rewrite (IH b ltac:(cbn; lia) s' r' Hb). cbn in *. congruence. }
  destruct a as [[] [] [] [] [] [] [] []]; try apply Hstep.
  - cbn. by intros [= <- <-].
  - destruct b as [|e b]; [done |]. cbn. destruct (read_text b) as [[s' r']|] eqn:Hb; [|done].
    rewrite (IH b ltac:(cbn; lia) s' r' Hb). cbn. by intros [= <- <-].
Qed.

Lemma bits_longer b x p r : read_bits b = Some (p, r) → read_bits (b ++ x) = Some (p, r ++ x).
Proof.
  revert p r. induction b as [|a b IH]; intros p r; [done |].
  assert (∀ f : positive → positive, prod_map f id <$> read_bits b = Some (p, r) →
    prod_map f id <$> read_bits (b ++ x) = Some (p, r ++ x)) as Hstep.
  { intros f Hf. destruct (read_bits b) as [[p' r']|] eqn:Hb; [|done].
    rewrite (IH p' r' eq_refl). cbn in *. congruence. }
  destruct a as [[] [] [] [] [] [] [] []]; try done; try apply Hstep.
  cbn. by intros [= <- <-].
Qed.

(** A reading that succeeds also succeeds with more fuel and with more bytes behind. *)
Lemma value_longer n :
  (∀ m b x v r, n <= m → read_value n b = Some (v, r) → read_value m (b ++ x) = Some (v, r ++ x)) ∧
  (∀ m b x l r, n <= m → read_values n b = Some (l, r) → read_values m (b ++ x) = Some (l, r ++ x)) ∧
  (∀ m b x l r, n <= m → read_members n b = Some (l, r) →
    read_members m (b ++ x) = Some (l, r ++ x)).
Proof.
  induction n as [|n (IHv & IHl & IHm)]; [done |]. split_and!.
  - intros [|m] [|a b] x v r Hnm; try done; [lia |]. apply le_S_n in Hnm. cbn [app].
    destruct a as [[] [] [] [] [] [] [] []]; try done; cbn [read_value];
      try (by intros [= <- <-]).
    all: intros Hrun.
    all: repeat match goal with
      | Hrun : context [read_bits ?c] |- _ => destruct (read_bits c) as [[p r']|] eqn:Hb; [|done];
          rewrite (bits_longer _ x _ _ Hb)
      | Hrun : context [read_text ?c] |- _ => destruct (read_text c) as [[s r']|] eqn:Hb; [|done];
          rewrite (text_longer _ x _ _ Hb)
      | Hrun : context [read_values ?k ?c] |- _ =>
          destruct (read_values k c) as [[l r']|] eqn:Hb; [|done]; rewrite (IHl _ _ x _ _ Hnm Hb)
      | Hrun : context [read_members ?k ?c] |- _ =>
          destruct (read_members k c) as [[l r']|] eqn:Hb; [|done]; rewrite (IHm _ _ x _ _ Hnm Hb)
      end; cbn in *; try congruence.
    destruct (decode p); [|done]. cbn in *. congruence.
  - intros [|m] b x l r Hnm; [lia |]. apply le_S_n in Hnm. cbn [read_values].
    destruct b as [|a b]; [by destruct n |]. cbn [app].
    assert (∀ c, ('(v, c) ← read_value n c; prod_map (cons v) id <$> read_values n c) = Some (l, r) →
      ('(v, c) ← read_value m (c ++ x); prod_map (cons v) id <$> read_values m c)
      = Some (l, r ++ x)) as Hstep.
    { intros c. destruct (read_value n c) as [[v r']|] eqn:Hv; [|done].
      rewrite (IHv _ _ x _ _ Hnm Hv). cbn. destruct (read_values n r') as [[l' r'']|] eqn:Hl; [|done].
      rewrite (IHl _ _ x _ _ Hnm Hl). cbn. congruence. }
    specialize (Hstep (a :: b)). cbn [app] in Hstep.
    destruct a as [[] [] [] [] [] [] [] []]; try exact Hstep. by intros [= <- <-].
  - intros [|m] [|a b] x l r Hnm; try done; [lia |]. apply le_S_n in Hnm. cbn [app].
    destruct a as [[] [] [] [] [] [] [] []]; try done; cbn [read_members].
    + destruct (read_text b) as [[k r']|] eqn:Hk; [|done]. rewrite (text_longer _ x _ _ Hk). cbn.
      destruct (read_value n r') as [[v r'']|] eqn:Hv; [|done]. rewrite (IHv _ _ x _ _ Hnm Hv). cbn.
      destruct (read_members n r'') as [[l' r3]|] eqn:Hl; [|done].
      rewrite (IHm _ _ x _ _ Hnm Hl). cbn. congruence.
    + by intros [= <- <-].
Qed.

Lemma bytes_value_cut v p :
  p `prefix_of` value_bytes v → p ≠ value_bytes v → bytes_value p = Err "invalid value".
Proof.
  intros [x Hx] Hne. unfold bytes_value.
  destruct (read_value (length p) p) as [[w r]|] eqn:Hp; [|done]. exfalso.
  apply (proj1 (value_longer _) (length (value_bytes v)) p x) in Hp;
    [|rewrite Hx, length_app; lia].
  pose proof (read_value_bytes v (length (value_bytes v)) [] (le_n _)) as Hw.
  rewrite app_nil_r in Hw. rewrite <- Hx, Hw in Hp.
  injection Hp as _ Hnil. symmetry in Hnil. apply app_eq_nil in Hnil as [_ ->].
  by rewrite app_nil_r in Hx.
Qed.

(** ** A checksum *)

Definition xor_byte (a b : ascii) : ascii :=
  let 'Ascii a0 a1 a2 a3 a4 a5 a6 a7 := a in
  let 'Ascii b0 b1 b2 b3 b4 b5 b6 b7 := b in
  Ascii (xorb a0 b0) (xorb a1 b1) (xorb a2 b2) (xorb a3 b3) (xorb a4 b4) (xorb a5 b5)
    (xorb a6 b6) (xorb a7 b7).

(** Rows of 29 bytes, added up. *)
Fixpoint xor_rows (fuel : nat) (acc b : bytes) : bytes :=
  match fuel, b with
  | S fuel, _ :: _ =>
      xor_rows fuel (zip_with xor_byte acc (take 29 b ++ replicate 29 "000"%char)) (drop 29 b)
  | _, _ => acc
  end.

(** The length in three bytes and the sum of the rows. *)
Definition sized_digest (b : bytes) : bytes :=
  be_bytes 3 (N.of_nat (length b)) ++ xor_rows (length b) (replicate 29 "000"%char) b.

Lemma length_sized_digest b : length (sized_digest b) = 32.
Proof.
  unfold sized_digest. rewrite length_app, length_be_bytes.
  assert (∀ fuel acc b, length acc = 29 → length (xor_rows fuel acc b) = 29) as Hrows.
  { intros fuel. induction fuel as [|fuel IH]; intros acc [|a b'] Hacc; cbn [xor_rows]; try done.
    apply IH. rewrite length_zip_with, length_app, length_take, length_replicate, Hacc. lia. }
  rewrite Hrows; [done | apply length_replicate].
Qed.

#[export] Instance sized_blake3 : Blake3 | 200 := {
  hasher := bytes;
  hasher_new := [];
  hasher_update := app;
  hasher_finalize_hex b := hex_encode (sized_digest b);
  blake3_hex b := hex_encode (sized_digest b);
}.

#[export] Instance sized_blake3_laws : Blake3Laws (H := sized_blake3).
Proof.
  split.
  - intros pieces. cbn. by rewrite foldl_app_concat.
  - intros b. cbn -[hex_encode sized_digest]. by rewrite length_hex_encode, length_sized_digest.
  - intros b. apply hex_encode_lower.
Qed.
