(* ===== verification/PolicyPages.v ===== *)
(** Reading the findings of cached evaluations page by page, the rest of [policy.rs]:
    the query over the findings, the continuation token and [cached_policy_findings].
    The theorem is that following the tokens reads every finding exactly once. *)
From Stdlib Require Import ZArith NArith Lia Ascii.
From stdpp Require Import base decidable list gmap strings sorting fin_maps.
From S2P Require Import Prelude.
From S2P Require Import Text.
From S2P Require Import External.
From S2P Require Import Store.
From S2P Require Import Policy.
From S2P Require Import PolicyStore.
From S2P Require Import Codec.

Definition FINDING_PAGE_VERSION : N := 1.
Definition MAX_FINDING_PAGE_SIZE : N := 1000.

(** ** The query *)

(** The catalog tables the query joins, by their primary keys. *)
Record FileRefRow : Type := {
  fr_collection_id : string;
  fr_object_id : option string;
  fr_external_identity_id : option string;
  fr_logical_path_display : string;
  fr_observed_size_bytes : option Z;
}.
Record Catalog : Type := {
  file_refs : gmap string FileRefRow;
  collection_names : gmap string string;
  object_sizes : gmap string (option Z);
  external_sizes : gmap string (option Z);
}.

Record PolicyFindingFilter : Type := {
  filter_policy_id : option string;
  filter_collection_id : option string;
  filter_status : option string;
}.

(** A row the query answers. *)
Record FindingRow : Type := {
  fd_evaluation_id : string;
  fd_file_ref_id : string;
  fd_object_id : option string;
  fd_policy_id : string;
  fd_policy_version : Z;
  fd_status : string;
  fd_logical_path_display : string;
  fd_collection_id : string;
  fd_collection_name : string;
  fd_size_bytes : option Z;
  fd_reasons_json : string;
  fd_actions_json : string;
}.

(** [COALESCE] *)
Definition coalesce {A} (l : list (option A)) : option A := head (omap id l).

(** One finding joined with its file, collection and sizes. *)
Definition join_finding (cat : Catalog) (evaluation_id file_ref_id : string) (s : StatusRow)
    : option FindingRow :=
  f ← file_refs cat !! file_ref_id;
  name ← collection_names cat !! fr_collection_id f;
  Some
    {| fd_evaluation_id := evaluation_id; fd_file_ref_id := file_ref_id;
       fd_object_id := s_object_id s; fd_policy_id := s_policy_id s;
       fd_policy_version := s_policy_version s; fd_status := s_status s;
       fd_logical_path_display := fr_logical_path_display f;
       fd_collection_id := fr_collection_id f; fd_collection_name := name;
       fd_size_bytes :=
         coalesce [fr_object_id f ≫= λ o, mjoin (object_sizes cat !! o);
                   fr_external_identity_id f ≫= λ x, mjoin (external_sizes cat !! x);
                   fr_observed_size_bytes f];
       fd_reasons_json := s_reasons_json s;
       fd_actions_json := s_recommended_actions_json s |}.

(** [?n IS NULL OR column = ?n] *)
Definition matches (wanted : option string) (column : string) : Prop :=
  match wanted with Some w => column = w | None => True end.
#[export] Instance matches_dec wanted column : Decision (matches wanted column).
Proof. destruct wanted; cbn; apply _. Defined.

(** [?4 IS NULL OR s.file_ref_id > ?4] *)
Definition after (cursor : option string) (file_ref_id : string) : Prop :=
  match cursor with Some c => str_lt c file_ref_id | None => True end.
#[export] Instance after_dec cursor file_ref_id : Decision (after cursor file_ref_id).
Proof. destruct cursor; cbn; apply _. Defined.

(** The findings of an evaluation in the order of their files. *)
Definition ordered_findings (d : Db) (cat : Catalog) (evaluation_id : string)
    : list FindingRow :=
  merge_sort (λ x y, String.le (fd_file_ref_id x) (fd_file_ref_id y))
    (omap (λ '(k, s), join_finding cat k.1 k.2 s)
       (map_to_list (filter (λ '(k, _), k.1 = evaluation_id) (policy_status d)))).

Definition finding_rows (d : Db) (cat : Catalog) (evaluation_id : string)
    (collection_id status after_file_ref_id : option string) : list FindingRow :=
  filter (λ r, matches collection_id (fd_collection_id r) ∧ matches status (fd_status r)
               ∧ after after_file_ref_id (fd_file_ref_id r))
    (ordered_findings d cat evaluation_id).

Record PolicyFinding : Type := {
  f_evaluation_id : string;
  f_file_ref_id : string;
  f_object_id : option string;
  f_policy_id : string;
  f_policy_version : N;
  f_status : string;
  f_collection_id : string;
  f_collection_name : string;
  f_logical_path_display : string;
  f_size_bytes : option N;
  f_reasons : Value;
  f_recommended_actions : Value;
}.

Record PolicyFindingToken : Type := {
  token_version : N;
  token_applied_event_seq : N;
  token_evaluation_hash : string;
  token_query_hash : string;
  token_policy_id : string;
  token_file_ref_id : string;
}.

Record PolicyFindingPage : Type := {
  page_applied_event_seq : N;
  items : list PolicyFinding;
  next : option string;
}.

Section pages.
Context `{Blake3} `{Base64} `{FromJson Value} `{ToJson PolicyFindingToken}
  `{FromJson PolicyFindingToken}.

(** The documents whose serialization the code expects to succeed. *)
Context (evaluation_ids_json : list string → bytes) (filter_json : PolicyFindingFilter → bytes).

Definition parse_cached_json (value field : string) : result PolicyError Value :=
  map_err (λ error, InvalidState
    ("cached " +:+ field +:+ " JSON is invalid: " +:+ error)) (from_json (as_bytes value)).

Definition finding_of_row (r : FindingRow) : result PolicyError PolicyFinding :=
  policy_version ← sql_u64 (fd_policy_version r) "policy_version";
  size_bytes ← optional_u64 (fd_size_bytes r) "finding size";
  reasons ← parse_cached_json (fd_reasons_json r) "reasons";
  actions ← parse_cached_json (fd_actions_json r) "actions";
  Ok {| f_evaluation_id := fd_evaluation_id r; f_file_ref_id := fd_file_ref_id r;
        f_object_id := fd_object_id r; f_policy_id := fd_policy_id r;
        f_policy_version := policy_version; f_status := fd_status r;
        f_collection_id := fd_collection_id r; f_collection_name := fd_collection_name r;
        f_logical_path_display := fd_logical_path_display r; f_size_bytes := size_bytes;
        f_reasons := reasons; f_recommended_actions := actions |}.

Definition policy_findings_filtered_after (d : Db) (cat : Catalog) (evaluation_id : string)
    (collection_id status after_file_ref_id : option string) (limit : N)
    : result PolicyError (list PolicyFinding) :=
  _ ← bail_if (limit =? 0)%N (InvalidState "finding page limit must be greater than zero");
  map_result finding_of_row
    (take (N.to_nat (default (Z.to_N i64_max) (Z.to_N <$> i64_of_u64 limit)))
       (finding_rows d cat evaluation_id collection_id status after_file_ref_id)).

Definition policy_findings_after (d : Db) (cat : Catalog) (evaluation_id : string)
    (after_file_ref_id : option string) (limit : N)
    : result PolicyError (list PolicyFinding) :=
  policy_findings_filtered_after d cat evaluation_id None None after_file_ref_id limit.

(** ** Tokens *)

Definition policy_finding_query_hash (filter : PolicyFindingFilter) : string :=
  blake3_hex (filter_json filter).

Definition encode_policy_finding_token (finding : PolicyFinding) (applied_event_seq : N)
    (evaluation_hash query_hash : string) : result PolicyError string :=
  base64_encode <$> map_err (λ _, InvalidContinuation)
    (to_json {| token_version := FINDING_PAGE_VERSION;
                token_applied_event_seq := applied_event_seq;
                token_evaluation_hash := evaluation_hash; token_query_hash := query_hash;
                token_policy_id := f_policy_id finding;
                token_file_ref_id := f_file_ref_id finding |}).

Definition decode_policy_finding_token (value : string)
    : result PolicyError PolicyFindingToken :=
  bytes ← ok_or (base64_decode value) InvalidContinuation;
  token ← map_err (λ _, InvalidContinuation) (from_json bytes);
  _ ← bail_if (negb (token_version token =? FINDING_PAGE_VERSION)%N) InvalidContinuation;
  Ok token.

(** ** Pages *)

(** The loop over the evaluations. *)
Fixpoint collect_page (d : Db) (cat : Catalog) (filter : PolicyFindingFilter)
    (cursor : option PolicyFindingToken) (limit : N) (items : list PolicyFinding)
    (evaluations : list PolicyEvaluation) : result PolicyError (list PolicyFinding) :=
  match evaluations with
  | [] => Ok items
  | evaluation :: evaluations =>
      let skip :=
        match cursor with
        | Some cursor => bool_decide (str_lt (p_policy_id evaluation) (token_policy_id cursor))
        | None => false
        end in
      if skip then collect_page d cat filter cursor limit items evaluations
      else
        let after_file_ref_id :=
          cursor ≫= λ cursor,
            if bool_decide (token_policy_id cursor = p_policy_id evaluation)
            then Some (token_file_ref_id cursor) else None in
        let remaining := (limit + 1 - N.of_nat (length items))%N in
        found ← policy_findings_filtered_after d cat (p_evaluation_id evaluation)
          (filter_collection_id filter) (filter_status filter) after_file_ref_id remaining;
        let items := items ++ found in
        if (limit <? N.of_nat (length items))%N then Ok items
        else collect_page d cat filter cursor limit items evaluations
  end.

(** The evaluations of a query, by policy. *)
Definition selected (status : CachedPolicyStatus) (filter_ : PolicyFindingFilter)
    : list PolicyEvaluation :=
  merge_sort (λ x y, String.le (p_policy_id x) (p_policy_id y))
    (filter (λ e, matches (filter_policy_id filter_) (p_policy_id e))
       (cached_evaluations status)).

Definition is_stale (status : CachedPolicyStatus) (evaluation_hash query_hash : string)
    (cursor : option PolicyFindingToken) : bool :=
  match cursor with
  | Some cursor =>
      negb (token_applied_event_seq cursor =? applied_event_seq status)%N
      || negb (bool_decide (token_evaluation_hash cursor = evaluation_hash))
      || negb (bool_decide (token_query_hash cursor = query_hash))
  | None => false
  end.

Definition cached_policy_findings (d : Db) (cat : Catalog) (status : CachedPolicyStatus)
    (filter : PolicyFindingFilter) (limit : N) (continuation : option string)
    : result PolicyError PolicyFindingPage :=
  _ ← bail_if (negb ((1 <=? limit)%N && (limit <=? MAX_FINDING_PAGE_SIZE)%N)) InvalidLimit;
  _ ← bail_if match filter_status filter with
              | Some value => negb (bool_decide (value ∈ ["violated"; "uncertain"]))
              | None => false
              end
        (InvalidState "finding status must be violated or uncertain");
  marker ← load_projection_marker d;
  _ ← bail_if (negb (applied_seq marker =? applied_event_seq status)%N) StaleContinuation;
  let evaluations := selected status filter in
  let evaluation_ids := p_evaluation_id <$> evaluations in
  let evaluation_hash := blake3_hex (evaluation_ids_json evaluation_ids) in
  let query_hash := policy_finding_query_hash filter in
  cursor ← match continuation with
           | Some value => Some <$> decode_policy_finding_token value
           | None => Ok None
           end;
  _ ← bail_if (is_stale status evaluation_hash query_hash cursor) StaleContinuation;
  if is_empty evaluation_ids then
    Ok {| page_applied_event_seq := applied_event_seq status; items := []; next := None |}
  else
    items ← collect_page d cat filter cursor limit [] evaluations;
    let has_more := (limit <? N.of_nat (length items))%N in
    let items := take (N.to_nat limit) items in
    next ← (if has_more then
              match last items with
              | Some finding =>
                  Some <$> encode_policy_finding_token finding (applied_event_seq status)
                             evaluation_hash query_hash
              | None => Ok None
              end
            else Ok None);
    Ok {| page_applied_event_seq := applied_event_seq status; items := items; next := next |}.

(** A caller that follows the continuation tokens, for at most [fuel] pages. *)
Fixpoint read_pages (d : Db) (cat : Catalog) (status : CachedPolicyStatus)
    (filter : PolicyFindingFilter) (limit : N) (fuel : nat) (continuation : option string)
    : result PolicyError (list PolicyFinding) :=
  match fuel with
  | O => Err (InvalidState "out of pages")
  | S fuel =>
      page ← cached_policy_findings d cat status filter limit continuation;
      match next page with
      | None => Ok (items page)
      | Some token =>
          rest ← read_pages d cat status filter limit fuel (Some token);
          Ok (items page ++ rest)
      end
  end.
End pages.

(** ** Order of the findings *)

(** The position of a row or of a token: its policy, then its file. *)
Definition key_lt (p1 f1 p2 f2 : string) : Prop := str_lt p1 p2 ∨ p1 = p2 ∧ str_lt f1 f2.
#[export] Instance key_lt_dec p1 f1 p2 f2 : Decision (key_lt p1 f1 p2 f2).
Proof. unfold key_lt. apply _. Defined.

Definition row_lt (x y : FindingRow) : Prop :=
  key_lt (fd_policy_id x) (fd_file_ref_id x) (fd_policy_id y) (fd_file_ref_id y).
#[export] Instance row_lt_dec : RelDecision row_lt.
Proof. intros x y. unfold row_lt. apply _. Defined.

#[export] Instance row_lt_strict : StrictOrder row_lt.
Proof.
  unfold row_lt, key_lt. split.
  - intros x [Hx | [_ Hx]]; by apply str_lt_irrefl in Hx.
  - intros x y z [Hp | [Hp Hf]] [Hp' | [Hp' Hf']].
    + left. by etrans.
    + left. by rewrite <- Hp'.
    + left. by rewrite Hp.
    + right. split; [congruence | by etrans].
Qed.

Lemma str_lt_asym s1 s2 : str_lt s1 s2 → ¬ str_lt s2 s1.
Proof. intros H1 H2. apply (str_lt_irrefl s1). by etrans. Qed.

(** What follows an element of a strictly sorted list is the rest of the list. *)
Lemma filter_after_drop l i x :
  StronglySorted row_lt l → l !! i = Some x → filter (row_lt x) l = drop (S i) l.
Proof.
  intros Hs Hi. rewrite <- (take_drop_middle l i x Hi) in Hs |- *.
  rewrite filter_app. assert (filter (row_lt x) (take i l) = []) as ->.
  { apply filter_none. intros y Hy Hxy.
    assert (row_lt y x) as Hyx.
    { apply StronglySorted_app_1_elem_of with (l1 := take i l) (l2 := x :: drop (S i) l) (x1 := y) (x2 := x) in Hs;
        [done | done | left]. }
    apply (irreflexivity row_lt x). by etrans. }
  rewrite filter_cons_False by apply (irreflexivity row_lt).
  assert (filter (row_lt x) (drop (S i) l) = drop (S i) l) as ->.
  { apply filter_all. intros y Hy. apply StronglySorted_app_1_r in Hs.
    apply StronglySorted_inv in Hs as [_ Hall]. rewrite Forall_forall in Hall. auto. }
  pose proof (lookup_lt_Some _ _ _ Hi) as Hlt.
  rewrite drop_app_ge by (rewrite length_take; lia).
  replace (S i - length (take i l)) with 1 by (rewrite length_take; lia). done.
Qed.

Lemma join_finding_key cat eid fid s r :
  join_finding cat eid fid s = Some r →
  fd_file_ref_id r = fid ∧ fd_policy_id r = s_policy_id s ∧ fd_evaluation_id r = eid.
Proof.
  intros Hj. unfold join_finding in Hj. apply bind_Some in Hj as (f & _ & Hj).
  apply bind_Some in Hj as (name & _ & Hj). by injection Hj as <-.
Qed.

Lemma elem_of_ordered_findings d cat eid r :
  r ∈ ordered_findings d cat eid → ∃ s, policy_status d !! (eid, fd_file_ref_id r) = Some s
    ∧ fd_policy_id r = s_policy_id s.
Proof.
  unfold ordered_findings. rewrite merge_sort_Permutation, list_elem_of_omap.
  intros ([[e f] s] & Hin%elem_of_map_to_list & Hj). cbn in Hj.
  apply map_lookup_filter_Some in Hin as [Hin He]. cbn in He. subst e.
  apply join_finding_key in Hj as (Hf & Hp & _). exists s. split; congruence.
Qed.

Lemma ordered_findings_sorted d cat eid :
  key_sorted fd_file_ref_id (ordered_findings d cat eid).
Proof.
  apply key_sorted_merge_sort.
  assert (∀ l : list (string * string * StatusRow), NoDup l.*1 → (∀ x, x ∈ l → x.1.1 = eid) →
    NoDup (fd_file_ref_id <$> omap (λ '(k, s), join_finding cat k.1 k.2 s) l)) as Hl.
  { induction l as [|[[e f] s] l IH]; cbn; [constructor |].
    intros [Hn Hnd]%NoDup_cons Hin.
    assert (NoDup (fd_file_ref_id <$> omap (λ '(k, s), join_finding cat k.1 k.2 s) l))
      as Hrest by (apply IH; [done | intros x ?; apply Hin; by right]).
    destruct (join_finding cat e f s) as [r|] eqn:Hj; [|done]. cbn. constructor; [|done].
    intros (r' & Hr & ([[e' f'] s'] & Hin' & Hj')%list_elem_of_omap)%list_elem_of_fmap.
    apply join_finding_key in Hj as (Hf & _). apply join_finding_key in Hj' as (Hf' & _).
    apply Hn, list_elem_of_fmap. exists (e', f', s'). split; [|done]. cbn.
    pose proof (Hin (e, f, s) ltac:(left)) as He. pose proof (Hin (e', f', s') ltac:(by right)) as He'.
    cbn in *. congruence. }
  apply Hl; [apply NoDup_fst_map_to_list |].
  intros [[e f] s] Hin%elem_of_map_to_list. by apply map_lookup_filter_Some in Hin as [_ He].
Qed.

(** The rows behind a cursor. *)
Definition behind (cursor : option PolicyFindingToken) (r : FindingRow) : Prop :=
  match cursor with
  | None => True
  | Some c => key_lt (token_policy_id c) (token_file_ref_id c) (fd_policy_id r) (fd_file_ref_id r)
  end.
#[export] Instance behind_dec cursor r : Decision (behind cursor r).
Proof. destruct cursor; cbn; apply _. Defined.

Section reading.
Context (d : Db) (cat : Catalog) (status : CachedPolicyStatus) (query : PolicyFindingFilter).
Hypothesis Hpolicies : NoDup (p_policy_id <$> cached_evaluations status).
Hypothesis Hcarry : ∀ e k s, e ∈ cached_evaluations status →
  policy_status d !! k = Some s → k.1 = p_evaluation_id e → s_policy_id s = p_policy_id e.

(** The rows of one evaluation, and all rows of the query. *)
Definition rows_of (e : PolicyEvaluation) : list FindingRow :=
  finding_rows d cat (p_evaluation_id e) (filter_collection_id query) (filter_status query) None.
Definition all_rows : list FindingRow := selected status query ≫= rows_of.

Lemma elem_of_selected e : e ∈ selected status query → e ∈ cached_evaluations status.
Proof.
  unfold selected. rewrite merge_sort_Permutation. by intros [_ ?]%list_elem_of_filter.
Qed.

Lemma rows_of_policy e r :
  e ∈ cached_evaluations status → r ∈ rows_of e → fd_policy_id r = p_policy_id e.
Proof.
  intros He [_ (s & Hs & ->)%elem_of_ordered_findings]%list_elem_of_filter.
  by apply (Hcarry e _ s He Hs).
Qed.

Lemma selected_sorted : key_sorted p_policy_id (selected status query).
Proof.
  apply key_sorted_merge_sort. revert Hpolicies. generalize (cached_evaluations status).
  clear. induction l as [|e l IH]; cbn; [done |]. intros [Hn Hnd]%NoDup_cons.
  case_decide; cbn; [|auto]. constructor; [|auto].
  intros (e' & He & [_ Hin]%list_elem_of_filter)%list_elem_of_fmap.
  apply Hn. rewrite He. by apply list_elem_of_fmap_2.
Qed.

Lemma all_rows_sorted : StronglySorted row_lt all_rows.
Proof.
  unfold all_rows. pose proof selected_sorted as Hs. pose proof elem_of_selected as Hin.
  revert Hs Hin. generalize (selected status query). intros l Hs.
  induction Hs as [|e l Hs IH Hall]; intros Hin; cbn; [constructor |].
  apply StronglySorted_app. split_and!.
  - intros x y Hx (e' & He' & Hy)%list_elem_of_bind. rewrite Forall_forall in Hall.
    left. rewrite (rows_of_policy e x), (rows_of_policy e' y); [auto | apply Hin; by right
      | done | apply Hin; by left | done].
  - assert (key_sorted fd_file_ref_id (rows_of e)) as Hk
      by apply key_sorted_filter, ordered_findings_sorted.
    assert (∀ r, r ∈ rows_of e → fd_policy_id r = p_policy_id e) as Hp
      by (intros r; apply rows_of_policy, Hin; left).
    revert Hk Hp. generalize (rows_of e). clear. intros k Hk.
    induction Hk as [|r k Hk IH Hall]; intros Hp; constructor.
    + apply IH. intros. apply Hp. by right.
    + rewrite Forall_forall in Hall |- *. intros x Hx. right. split; [|auto].
      rewrite !Hp; [done | by right | left].
  - apply IH. intros e' He'. apply Hin. by right.
Qed.

(** The rows of an evaluation behind a cursor, as the code asks for them. *)
Definition asked_rows (cursor : option PolicyFindingToken) (e : PolicyEvaluation)
    : list FindingRow :=
  match cursor with
  | None => rows_of e
  | Some c =>
      if bool_decide (str_lt (p_policy_id e) (token_policy_id c)) then []
      else finding_rows d cat (p_evaluation_id e) (filter_collection_id query)
             (filter_status query)
             (if bool_decide (token_policy_id c = p_policy_id e)
              then Some (token_file_ref_id c) else None)
  end.

Lemma asked_rows_behind cursor e :
  e ∈ cached_evaluations status → asked_rows cursor e = filter (behind cursor) (rows_of e).
Proof.
  intros He. unfold asked_rows. destruct cursor as [c|]; cbn; [|by rewrite filter_all].
  pose proof (rows_of_policy e) as Hp. specialize (Hp) with (1 := He).
  case_bool_decide as Hlt.
  { rewrite filter_none; [done |]. intros r Hr [Hk | [Hk _]]; rewrite (Hp r Hr) in Hk.
    - by apply (str_lt_asym _ _ Hlt).
    - rewrite Hk in Hlt. by apply str_lt_irrefl in Hlt. }
  unfold rows_of, finding_rows in *. rewrite list_filter_filter.
  apply filter_ext_in. intros r Hr.
  assert (matches (filter_collection_id query) (fd_collection_id r) →
    matches (filter_status query) (fd_status r) → fd_policy_id r = p_policy_id e) as Hpol.
  { intros ? ?. apply Hp. apply list_elem_of_filter. by split. }
  unfold key_lt, after. case_bool_decide as Heq; cbn.
  - split.
    + intros (Hm1 & Hm2 & Ha). rewrite Hpol, Heq by done.
      split; [right; by split | by split_and!].
    + intros [[Hk | [_ Hk]] (Hm1 & Hm2 & _)]; [|done]. exfalso.
      rewrite Hpol, Heq in Hk by done. by apply str_lt_irrefl in Hk.
  - split; [|tauto]. intros (Hm1 & Hm2 & _). split; [|done]. left. rewrite Hpol by done.
    by destruct (str_trichotomy (p_policy_id e) (token_policy_id c)) as [? | [? | ?]].
Qed.

Lemma asked_rows_all cursor l :
  (∀ e, e ∈ l → e ∈ cached_evaluations status) →
  (l ≫= asked_rows cursor) = filter (behind cursor) (l ≫= rows_of).
Proof.
  induction l as [|e l IH]; intros Hin; cbn; [done |].
  rewrite filter_app, asked_rows_behind, IH; [done | intros; apply Hin; by right
    | apply Hin; by left].
Qed.
End reading.

(** ** Following the tokens *)

(** The codec of tokens: what is encoded is decoded. *)
Class TokenLaws `{ToJson PolicyFindingToken, FromJson PolicyFindingToken} : Prop := {
  token_roundtrip : ∀ t : PolicyFindingToken, ∃ b, to_json t = Ok b ∧ from_json b = Ok t
}.

Section following.
Context `{Blake3} `{Base64Laws} `{FromJson Value} `{TokenLaws}.
Context (evaluation_ids_json : list string → bytes) (filter_json : PolicyFindingFilter → bytes).
Context (d : Db) (cat : Catalog) (status : CachedPolicyStatus) (query : PolicyFindingFilter).
Context (limit : N).
Hypothesis Hpolicies : NoDup (p_policy_id <$> cached_evaluations status).
Hypothesis Hcarry : ∀ e k s, e ∈ cached_evaluations status →
  policy_status d !! k = Some s → k.1 = p_evaluation_id e → s_policy_id s = p_policy_id e.
Hypothesis Hlimit : (1 <= limit <= MAX_FINDING_PAGE_SIZE)%N.

Lemma finding_of_row_key r f :
  finding_of_row r = Ok f →
  f_policy_id f = fd_policy_id r ∧ f_file_ref_id f = fd_file_ref_id r.
Proof. intros Hf. unfold finding_of_row in Hf. by inv_ok. Qed.

Lemma policy_findings_asked eid coll st after n found :
  (1 <= n <= 1001)%N →
  map_result finding_of_row (finding_rows d cat eid coll st after) = Ok found →
  policy_findings_filtered_after d cat eid coll st after n = Ok (take (N.to_nat n) found).
Proof.
  intros Hn Hf. unfold policy_findings_filtered_after.
  assert ((n =? 0)%N = false) as -> by (apply N.eqb_neq; lia). cbn.
  assert (i64_of_u64 n = Some (Z.of_N n)) as -> by (apply i64_of_u64_Some; unfold i64_max; lia).
  cbn. rewrite N2Z.id. by apply map_result_take.
Qed.

Lemma collect_page_take cursor l items found :
  (N.of_nat (length items) <= limit)%N →
  map_result finding_of_row (l ≫= asked_rows d cat query cursor) = Ok found →
  collect_page d cat query cursor limit items l
  = Ok (take (N.to_nat limit + 1) (items ++ found)).
Proof.
  revert items found. induction l as [|e l IH]; intros items found Hlen Hf; cbn in Hf |- *.
  { injection Hf as <-. rewrite app_nil_r, take_ge by lia. done. }
  apply map_result_app in Hf as (fe & fl & -> & He & Hl). unfold asked_rows in He.
  assert (Hgo : ∀ after,
    map_result finding_of_row (finding_rows d cat (p_evaluation_id e)
      (filter_collection_id query) (filter_status query) after) = Ok fe →
    (found ← policy_findings_filtered_after d cat (p_evaluation_id e)
       (filter_collection_id query) (filter_status query) after
       (limit + 1 - N.of_nat (length items));
     if (limit <? N.of_nat (length (items ++ found)))%N then Ok (items ++ found)
     else collect_page d cat query cursor limit (items ++ found) l)
    = Ok (take (N.to_nat limit + 1) (items ++ fe ++ fl))).
  { intros after Hfe. rewrite (policy_findings_asked _ _ _ _ _ fe) by
      (done || (unfold MAX_FINDING_PAGE_SIZE in Hlimit; lia)). cbn.
    set (n := N.to_nat (limit + 1 - N.of_nat (length items))).
    destruct (limit <? N.of_nat (length (items ++ take n fe)))%N eqn:Hfull; boolify.
    - assert (n ≤ length fe) as Hn by (rewrite length_app, length_take in Hfull; lia).
      f_equal. rewrite take_app_ge by lia. f_equal.
      rewrite take_app_le by lia. f_equal. lia.
    - rewrite length_app, length_take in Hfull.
      assert (take n fe = fe) as -> by (apply take_ge; lia).
      rewrite (IH _ fl); [by rewrite <- app_assoc | rewrite length_app; lia | done]. }
  destruct cursor as [c|]; cbn; [|by apply Hgo].
  case_bool_decide; [|by apply Hgo]. injection He as <-. by apply IH.
Qed.

(** The continuation that stands for the first [n] rows having been read. *)
Definition stands_for (n : nat) (continuation : option string) : Prop :=
  match continuation with
  | None => n = 0
  | Some value => ∃ m r, n = S m ∧ all_rows d cat status query !! m = Some r ∧
      decode_policy_finding_token value = Ok
        {| token_version := FINDING_PAGE_VERSION;
           token_applied_event_seq := applied_event_seq status;
           token_evaluation_hash := blake3_hex (evaluation_ids_json
             (p_evaluation_id <$> selected status query));
           token_query_hash := policy_finding_query_hash filter_json query;
           token_policy_id := fd_policy_id r; token_file_ref_id := fd_file_ref_id r |}
  end.

Lemma encode_decode f seq eh qh :
  ∃ value, encode_policy_finding_token f seq eh qh = Ok value ∧
    decode_policy_finding_token value = Ok
      {| token_version := FINDING_PAGE_VERSION; token_applied_event_seq := seq;
         token_evaluation_hash := eh; token_query_hash := qh;
         token_policy_id := f_policy_id f; token_file_ref_id := f_file_ref_id f |}.
Proof.
  unfold encode_policy_finding_token, decode_policy_finding_token.
  match goal with |- context [to_json ?t] => destruct (token_roundtrip t) as (b & -> & Hb) end.
  cbn. eexists. split; [done |]. rewrite base64_decode_encode. cbn. by rewrite Hb.
Qed.

Context (marker : ProjectionMarker).
Hypothesis Hmarker : load_projection_marker d = Ok marker.
Hypothesis Hseq : applied_seq marker = applied_event_seq status.
Hypothesis Hstatus : ∀ s, filter_status query = Some s → s ∈ ["violated"; "uncertain"].

(** One page: the next [limit] findings, and a token if there are more. *)
Lemma cached_policy_findings_page full n continuation :
  map_result finding_of_row (all_rows d cat status query) = Ok full →
  stands_for n continuation →
  ∃ page, cached_policy_findings evaluation_ids_json filter_json d cat status query limit
            continuation = Ok page ∧
    items page = take (N.to_nat limit) (drop n full) ∧
    (next page = None ∧ (length full - n ≤ N.to_nat limit) ∨
     ∃ value, next page = Some value ∧ stands_for (n + N.to_nat limit) (Some value) ∧
       N.to_nat limit < length full - n).
Proof.
  intros Hfull Hst. unfold cached_policy_findings.
  assert ((1 <=? limit)%N && (limit <=? MAX_FINDING_PAGE_SIZE)%N = true) as ->
    by (apply andb_true_iff; rewrite !N.leb_le; lia). cbn.
  assert (bail_if match filter_status query with
      | Some value => negb (bool_decide (value ∈ ["violated"; "uncertain"]))
      | None => false end (InvalidState "finding status must be violated or uncertain")
      = Ok ()) as ->.
  { apply bail_if_Ok. destruct (filter_status query) as [s|]; [|done].
    by rewrite bool_decide_true by auto. }
  cbn. rewrite Hmarker. cbn. rewrite Hseq, N.eqb_refl. cbn.
  set (eh := blake3_hex _). set (qh := policy_finding_query_hash filter_json query).
  assert (∃ cursor, match continuation with
      | Some value => Some <$> decode_policy_finding_token value
      | None => Ok None end = Ok cursor ∧ is_stale status eh qh cursor = false ∧
      filter (behind cursor) (all_rows d cat status query) = drop n (all_rows d cat status query))
    as (cursor & -> & Hfresh & Hdrop).
  { destruct continuation as [value|]; cbn in Hst.
    - destruct Hst as (m & r & -> & Hr & ->). cbn. eexists. split; [done |]. cbn.
      rewrite N.eqb_refl, !bool_decide_true by done. split; [done |].
      apply filter_after_drop; [by apply all_rows_sorted | done].
    - subst n. exists None. split; [done |]. split; [done |]. by apply filter_all. }
  cbn. rewrite Hfresh. cbn.
  assert (map_result finding_of_row (selected status query ≫= asked_rows d cat query cursor)
    = Ok (drop n full)) as Hasked.
  { rewrite (asked_rows_all d cat status query) by (done || apply elem_of_selected).
    fold (all_rows d cat status query). rewrite Hdrop. by apply map_result_drop. }
  destruct (is_empty _) eqn:Hempty.
  { apply is_empty_true, fmap_nil_inv in Hempty. unfold all_rows in Hfull. rewrite Hempty in Hfull.
    injection Hfull as <-. eexists. split; [done |]. rewrite drop_nil, take_nil. cbn.
    split; [done | left; split; [done | lia]]. }
  rewrite (collect_page_take cursor _ [] _ ltac:(cbn; lia) Hasked). cbn [app mbind result_bind].
  rewrite take_take, Nat.min_l by lia. rewrite length_take, length_drop.
  match goal with |- context [if ?b then _ else Ok None] => destruct b eqn:Hmore end;
    boolify; cycle 1.
  { eexists. split; [done |]. split; [done | left; split; [done | lia]]. }
  set (page := take (N.to_nat limit) (drop n full)).
  assert (is_Some (full !! (n + (N.to_nat limit - 1)))) as [f Hf] by (apply lookup_lt_is_Some; lia).
  assert (last page = Some f) as ->.
  { rewrite last_lookup. unfold page. rewrite length_take, length_drop.
    rewrite lookup_take_lt, lookup_drop by lia. rewrite <- Hf. f_equal. lia. }
  destruct (encode_decode f (applied_event_seq status) eh qh) as (value & -> & Hdec).
  eexists. split; [done |]. split; [done |]. right. exists value. split; [done |].
  split; [|lia]. exists (n + (N.to_nat limit - 1)).
  pose proof Hfull as Hall. apply map_result_Ok in Hall.
  destruct (Forall2_lookup_r _ _ _ _ _ Hall Hf) as (r & Hr & Hrf).
  apply finding_of_row_key in Hrf as [Hp Hfile]. exists r. rewrite <- Hp, <- Hfile.
  split; [lia | by split].
Qed.

Lemma read_pages_from full n continuation fuel :
  map_result finding_of_row (all_rows d cat status query) = Ok full →
  stands_for n continuation → length full - n < fuel →
  read_pages evaluation_ids_json filter_json d cat status query limit fuel continuation
  = Ok (drop n full).
Proof.
  intros Hfull. revert n continuation.
  induction fuel as [|fuel IH]; intros n continuation Hst Hfuel; [lia |]. cbn.
  destruct (cached_policy_findings_page full n continuation Hfull Hst)
    as (page & -> & Hitems & [[Hnext Hlen] | (value & Hnext & Hst' & Hlen)]); cbn; rewrite Hnext.
  - by rewrite Hitems, take_ge by (rewrite length_drop; lia).
  - rewrite (IH _ _ Hst') by lia. cbn. by rewrite Hitems, <- drop_drop, take_drop.
Qed.
End following.

(** C35: reading the findings page by page reads all of them. For any page size the code
    allows, starting without a token and following the tokens of the pages ends, and the
    pages put together are exactly the findings of the query in order, each once. *)
Theorem read_pages_all `{Blake3} `{Base64Laws} `{FromJson Value} `{TokenLaws}
    evaluation_ids_json filter_json d cat status query limit marker full :
  NoDup (p_policy_id <$> cached_evaluations status) →
  (∀ e k s, e ∈ cached_evaluations status → policy_status d !! k = Some s →
     k.1 = p_evaluation_id e → s_policy_id s = p_policy_id e) →
  (1 <= limit <= MAX_FINDING_PAGE_SIZE)%N →
  load_projection_marker d = Ok marker → applied_seq marker = applied_event_seq status →
  (∀ s, filter_status query = Some s → s ∈ ["violated"; "uncertain"]) →
  map_result finding_of_row (selected status query ≫= λ e,
    finding_rows d cat (p_evaluation_id e) (filter_collection_id query) (filter_status query)
      None) = Ok full →
  read_pages evaluation_ids_json filter_json d cat status query limit (S (length full)) None
  = Ok full.
Proof.
  intros. change (Ok full) with (@Ok PolicyError _ (drop 0 full)).
  eapply read_pages_from; [eassumption.. | done | lia].
Qed.

(** ** Examples *)

(** Five findings under two policies, read two at a time. *)
Module Examples.
#[local] Instance null_json : FromJson Value := {| from_json b := Ok Null |}.

(** A codec of tokens: the bits of their code number as digits. *)
Definition token_tuple (t : PolicyFindingToken) : N * N * string * string * string * string :=
  (token_version t, token_applied_event_seq t, token_evaluation_hash t, token_query_hash t,
   token_policy_id t, token_file_ref_id t).
Definition tuple_token (x : N * N * string * string * string * string) : PolicyFindingToken :=
  let '(v, seq, eh, qh, p, f) := x in
  {| token_version := v; token_applied_event_seq := seq; token_evaluation_hash := eh;
     token_query_hash := qh; token_policy_id := p; token_file_ref_id := f |}.

#[local] Instance token_to_json : ToJson PolicyFindingToken :=
  {| to_json t := Ok (encode_bytes (token_tuple t)) |}.
#[local] Instance token_from_json : FromJson PolicyFindingToken :=
  {| from_json b := x ← decode_bytes b; Ok (tuple_token x) |}.
#[local] Instance token_laws : TokenLaws.
Proof.
  split. intros t. exists (encode_bytes (token_tuple t)). split; [done |].
  change (from_json (encode_bytes (token_tuple t)))
    with (x ← decode_bytes (encode_bytes (token_tuple t)); Ok (tuple_token x)).
  rewrite decode_encode_bytes. by destruct t.
Qed.

Definition finding (policy : string) : StatusRow :=
  {| s_object_id := None; s_policy_id := policy; s_policy_version := 1;
     s_evaluated_event_seq := 12; s_evaluated_policy_input_seq := 10; s_status := "violated";
     s_evaluated_time_utc_ms := 0; s_reasons_json := "{}"; s_recommended_actions_json := "[]" |}.

Definition findings_db : Db :=
  {| archive_meta := archive_meta PolicyStore.Examples.catalog_db;
     events := events PolicyStore.Examples.catalog_db; policies := ∅; policy_evaluations := ∅;
     policy_status := list_to_map
       [(("e1", "file_3"), finding "p1"); (("e2", "file_4"), finding "p2");
        (("e1", "file_1"), finding "p1"); (("e0", "file_1"), finding "p1");
        (("e2", "file_2"), finding "p2"); (("e1", "file_5"), finding "p1")];
     policy_rollup := ∅ |}.

Definition findings_catalog : Catalog :=
  {| file_refs := list_to_map ((λ f, (f,
       {| fr_collection_id := "c"; fr_object_id := None; fr_external_identity_id := None;
          fr_logical_path_display := f; fr_observed_size_bytes := Some 7%Z |}))
       <$> ["file_1"; "file_2"; "file_3"; "file_4"; "file_5"]);
     collection_names := {["c" := "Photos"]}; object_sizes := ∅; external_sizes := ∅ |}.

Definition some_evaluation (id policy : string) : PolicyEvaluation :=
  {| p_evaluation_id := id; p_policy_id := policy; p_policy_version := 1; p_files_total := 0;
     p_files_satisfied := 0; p_files_violated := 0; p_files_uncertain := 0;
     p_valid_until_utc_ms := None; p_files_size_unknown := 0; p_bytes_known_total := 0;
     p_bytes_known_at_risk := 0 |}.

Definition two_policies : CachedPolicyStatus :=
  {| applied_event_seq := 12;
     cached_evaluations := [some_evaluation "e2" "p2"; some_evaluation "e1" "p1"];
     stale_policies := [] |}.

Definition no_filter : PolicyFindingFilter :=
  {| filter_policy_id := None; filter_collection_id := None; filter_status := None |}.

Definition ids_json (ids : list string) : bytes := concat (as_bytes <$> ids).

Definition read_two : result PolicyError (list PolicyFinding) :=
  read_pages ids_json (λ _, []) findings_db findings_catalog two_policies no_filter 2 6 None.

Example read_two_files :
  match read_two with
  | Ok l => Some ((λ f, (f_policy_id f, f_file_ref_id f)) <$> l)
  | Err _ => None
  end = Some [("p1", "file_1"); ("p1", "file_3"); ("p1", "file_5"); ("p2", "file_2");
        ("p2", "file_4")].
Proof. vm_compute. reflexivity. Qed.

Definition all_findings : result PolicyError (list PolicyFinding) :=
  map_result finding_of_row (selected two_policies no_filter ≫= λ e,
    finding_rows findings_db findings_catalog (p_evaluation_id e) None None None).
Definition findings : list PolicyFinding :=
  match all_findings with Ok l => l | Err _ => [] end.

Lemma read_pages_all_witness :
  read_pages ids_json (λ _, []) findings_db findings_catalog two_policies no_filter 2
    (S (length findings)) None = Ok findings.
Proof.
  assert (∃ m, load_projection_marker findings_db = Ok m ∧ applied_seq m = 12%N) as (m & Hm & Hs)
    by (eexists; split; vm_compute; reflexivity).
  apply (read_pages_all ids_json (λ _, []) findings_db findings_catalog two_policies no_filter 2
    m findings).
  - cbn. repeat constructor; set_solver.
  - intros e k s He Hk Hke. apply elem_of_list_to_map_2 in Hk. cbn in He.
    rewrite !elem_of_cons, elem_of_nil in He. rewrite !elem_of_cons, elem_of_nil in Hk.
    clear Hm. destruct_or! He; destruct_or! Hk; subst e; injection Hk as -> ->;
      cbn in Hke |- *; congruence.
  - done.
  - exact Hm.
  - rewrite Hs. done.
  - done.
  - assert (is_ok all_findings = true) as Hok by (vm_compute; reflexivity).
    assert (all_findings = Ok findings) as H
      by (unfold findings; destruct all_findings as [l|]; [done | discriminate Hok]).
    exact H.
Defined.
End Examples.
