(* ===== verification/Append.v ===== *)
(** The writer: [append_batch_locked] of [v2_store.rs] and the helpers it calls. A batch
    is packed into bounded records, written to one new segment and sealed by a signed
    manifest and a successor frontier. The theorems show that the readers of this
    development accept exactly what the writer wrote. *)
From Stdlib Require Import ZArith NArith Lia Ascii.
From stdpp Require Import base decidable list gmap strings sorting pretty.
From S2P Require Import Prelude.
From S2P Require Import Text.
From S2P Require Import External.
From S2P Require Import Ids.
From S2P Require Import Frontier.
From S2P Require Import Batch.
From S2P Require Import Record.
From S2P Require Import Genesis.
From S2P Require Import Store.
From S2P Require Import Segment.
From S2P Require Import Clients.
From S2P Require Import Batches.
From S2P Require Import Archive.

(** ** Defaults of batch items *)

(** [serde_json]'s equality of values; floats compare as numbers, so both zeros are
    equal, and a [Value] holds no NaN. *)
Definition number_eqb (a b : Number) : bool :=
  match a, b with
  | PosInt a, PosInt b => (a =? b)%N
  | NegInt a, NegInt b => (a =? b)%Z
  | Float a, Float b =>
      let zero n := ((n =? 0) || (n =? 9223372036854775808))%N in
      (a =? b)%N || (zero a && zero b)
  | _, _ => false
  end.

Fixpoint value_eqb (a b : Value) : bool :=
  match a, b with
  | Null, Null => true
  | Bool a, Bool b => Bool.eqb a b
  | Num a, Num b => number_eqb a b
  | Str a, Str b => bool_decide (a = b)
  | Arr a, Arr b =>
      (fix go (a b : list Value) : bool :=
         match a, b with
         | [], [] => true
         | x :: a, y :: b => value_eqb x y && go a b
         | _, _ => false
         end) a b
  | Obj a, Obj b =>
      (fix go (a b : list (string * Value)) : bool :=
         match a, b with
         | [], [] => true
         | (k, x) :: a, (l, y) :: b => bool_decide (k = l) && value_eqb x y && go a b
         | _, _ => false
         end) a b
  | _, _ => false
  end.

Definition validate_item_defaults (item_schema_version : N) (defaults : Value)
    : result V2StoreError () :=
  if (item_schema_version =? 1)%N then Ok ()
  else if (item_schema_version =? 2)%N then
    defaults ← ok_or (as_object defaults) (Invalid "schema-2 batch defaults must be an object");
    for_each (λ '(kind, values),
      values ← ok_or (as_object values)
        (Invalid ("schema-2 defaults for item kind " +:+ kind +:+ " must be an object"));
      bail_if (is_some_b (assoc "kind" values))
        (Invalid ("schema-2 defaults for item kind " +:+ kind +:+ " cannot default kind")))
      defaults
  else Err (Invalid ("unsupported batch item schema version " +:+ pretty item_schema_version)).

(** [Map::remove] *)
Definition remove_member (key : string) (members : list (string * Value))
    : list (string * Value) :=
  filter (λ m, m.1 ≠ key) members.

(** The body of the loop over the defaults of an item's kind. *)
Definition drop_default (item : list (string * Value)) (default : string * Value)
    : list (string * Value) :=
  match assoc default.1 item with
  | Some value => if value_eqb value default.2 then remove_member default.1 item else item
  | None => item
  end.

Definition compact_batch_item (item : Value) (item_schema_version : N) (defaults : Value)
    : result V2StoreError Value :=
  if (item_schema_version =? 1)%N then Ok item
  else
    item ← ok_or (as_object item) (Invalid "schema-2 batch item must be an object");
    kind ← ok_or (assoc "kind" item ≫= as_str)
      (Invalid "schema-2 batch item is missing kind");
    match value_get kind defaults ≫= as_object with
    | None => Ok (Obj item)
    | Some kind_defaults => Ok (Obj (foldl drop_default item kind_defaults))
    end.

(** ** Names of the files of an origin *)

(** [{number:012}] *)
Definition pad12 (number : N) : string :=
  let digits := pretty number in
  of_bytes (replicate (12 - String.length digits) "0"%char) +:+ digits.

Definition segment_relative_path (origin : string) (number : N) : string :=
  "events/v2/origins/" +:+ origin +:+ "/seg-" +:+ pad12 number +:+ ".jsonl".
Definition manifest_relative_path (origin : string) (number : N) : string :=
  "manifests/v2/origins/" +:+ origin +:+ "/seg-" +:+ pad12 number +:+ ".manifest.json".

Definition ensure_record_size (line : bytes) : result V2StoreError () :=
  bail_if (DEFAULT_MAX_V2_RECORD_BYTES <? N.of_nat (length line))%N
    (Invalid ("record contains " +:+ pretty (N.of_nat (length line))
              +:+ " bytes; maximum is " +:+ pretty DEFAULT_MAX_V2_RECORD_BYTES)).

Definition sequence_overflow : V2StoreError := Invalid "origin sequence overflow".

(** The regular files below the store's root. Directories are created as needed, and
    writing to an opened file succeeds. *)
Abbreviation Disk := (gmap string bytes).

Section append.
Context `{Blake3, UlidCrate, Base64, Ed25519, ToJson V2RecordEnvelope, ToJson Value,
  ToJson SegmentManifestBody, ToJson SignedSegmentManifest, ToJson CausalFrontier}.

(** The [i]th value of [lower_ulid] during the call. *)
Variable lower_ulid : nat → string.

(** The locals of the segment being written. *)
Record Writer : Type := {
  lines : list bytes;
  segment_hasher : hasher;
  written_bytes : N;
  written_records : N;
  next_seq : N;
  previous_hash : option string;
}.

(** The locals before the first record. *)
Definition new_writer (first_seq : N) (previous : option string) : Writer := {|
  lines := []; segment_hasher := hasher_new; written_bytes := 0; written_records := 0;
  next_seq := first_seq; previous_hash := previous
|}.

(** [write_streamed_record]: the line and its newline go to the file, the hasher and the
    byte count. *)
Definition write_streamed_record (line : bytes) (w : Writer) : result V2StoreError Writer :=
  _ ← ensure_record_size line;
  total ← ok_or (checked_add_u64 (written_bytes w)
                   (saturating_add_u64 (N.of_nat (length line)) 1))
            (Invalid "segment byte count overflow");
  Ok {| lines := lines w ++ [line];
        segment_hasher := hasher_update (hasher_update (segment_hasher w) line) ["010"%char];
        written_bytes := total; written_records := written_records w;
        next_seq := next_seq w; previous_hash := previous_hash w |}.

(** [record_count = record_count.checked_add(1)], and the new previous hash. *)
Definition count_record (hash : string) (w : Writer) : result V2StoreError Writer :=
  count ← ok_or (checked_add_u64 (written_records w) 1) (Invalid "record count overflow");
  Ok {| lines := lines w; segment_hasher := segment_hasher w;
        written_bytes := written_bytes w; written_records := count; next_seq := next_seq w;
        previous_hash := Some hash |}.

(** [next_seq = next_seq.checked_add(1)] *)
Definition advance_seq (w : Writer) : result V2StoreError Writer :=
  seq ← ok_or (checked_add_u64 (next_seq w) 1) sequence_overflow;
  Ok {| lines := lines w; segment_hasher := segment_hasher w;
        written_bytes := written_bytes w; written_records := written_records w;
        next_seq := seq; previous_hash := previous_hash w |}.

(** What stays fixed during one append. *)
Record BatchInput : Type := {
  in_origin : string;
  in_batch_id : string;
  in_time : N;
  in_operation_kind : string;
  in_schema : N;
  in_context : Value;
  in_defaults : Value;
  in_frontier_hash : string;
}.

Definition envelope_of (b : BatchInput) (w : Writer) (id : nat) (kind : V2RecordKind)
    (payload : Value) : V2RecordEnvelope :=
  {| v := V2_RECORD_VERSION; Record.origin_id := in_origin b; origin_seq := next_seq w;
     record_id := "rec_" +:+ lower_ulid id; record_kind := kind; time_utc_ms := in_time b;
     Record.batch_id := in_batch_id b; previous_record_hash := previous_hash w;
     payload := payload |}.

Definition start_payload (b : BatchInput) : Value :=
  json_object [("operation_kind", Str (in_operation_kind b));
               ("item_schema_version", Num (PosInt (in_schema b)));
               ("causal_frontier_hash", Str (in_frontier_hash b));
               ("context", in_context b); ("defaults", in_defaults b)].
Definition chunk_payload (item_index : N) (chunk_items : list Value) : Value :=
  json_object [("first_item_index", Num (PosInt item_index)); ("items", Arr chunk_items)].
Definition complete_payload (total_items : N) (digest : string) : Value :=
  json_object [("total_items", Num (PosInt total_items)); ("ordered_item_digest", Str digest);
               ("status", Str "complete"); ("errors", Arr []); ("coverage", Null)].

(** The first record of the batch, and its hash. *)
Definition write_start (b : BatchInput) (id : nat) (w : Writer)
    : result V2StoreError (string * Writer) :=
  let start := envelope_of b w id BatchStart (start_payload b) in
  start_line ← canonical_json start;
  _ ← ensure_record_size start_line;
  let first_record_hash := blake3_identifier start_line in
  w ← write_streamed_record start_line w;
  w ← count_record first_record_hash w;
  w ← advance_seq w;
  Ok (first_record_hash, w).

(** ** Packing items into chunks *)

(** The items still to be packed: those pushed back to [pending], then the source. *)
Definition stream : Type := list (result V2StoreError Value).

(** The limit of a chunk's approximate size. *)
Definition chunk_budget : N := DEFAULT_MAX_V2_RECORD_BYTES - 8 * 1024.

(** The inner loop that fills a chunk; [approximate_bytes] counts what it holds. *)
Fixpoint fill_chunk (b : BatchInput) (item_index : N) (chunk_items : list Value)
    (approximate_bytes : N) (items : stream) : result V2StoreError (list Value * stream) :=
  match items with
  | [] => Ok (chunk_items, [])
  | next :: rest =>
      if (DEFAULT_MAX_BATCH_CHUNK_ITEMS <=? N.of_nat (length chunk_items))%N
      then Ok (chunk_items, items)
      else
        item ← next;
        item ← compact_batch_item item (in_schema b) (in_defaults b);
        _ ← bail_if (negb (is_object item))
              (Invalid ("batch item " +:+ pretty item_index +:+ " is not a JSON object"));
        item_line ← canonical_json item;
        let item_bytes := saturating_add_u64 (N.of_nat (length item_line)) 1 in
        if negb (bool_decide (length chunk_items = 0))
           && (chunk_budget <? saturating_add_u64 approximate_bytes item_bytes)%N
        then Ok (chunk_items, Ok item :: rest)
        else fill_chunk b item_index (chunk_items ++ [item])
               (saturating_add_u64 approximate_bytes item_bytes) rest
  end.

(** The loop that serializes the chunk, giving back its last item while the record is
    too long; every attempt takes a new identifier. The chunk shrinks, so [fuel] of its
    length is enough. *)
Fixpoint shrink_chunk (b : BatchInput) (w : Writer) (item_index : N) (fuel id : nat)
    (chunk_items : list Value) (items : stream)
    : result V2StoreError (bytes * list Value * stream * nat) :=
  let chunk := envelope_of b w id BatchChunk (chunk_payload item_index chunk_items) in
  line ← canonical_json chunk;
  if (N.of_nat (length line) <=? DEFAULT_MAX_V2_RECORD_BYTES)%N
  then Ok (line, chunk_items, items, S id)
  else
    _ ← bail_if (length chunk_items =? 1)
          (Invalid ("batch item " +:+ pretty item_index
                    +:+ " cannot fit in one bounded record"));
    match fuel, last chunk_items with
    | S fuel, Some item =>
        shrink_chunk b w item_index fuel (S id)
          (take (length chunk_items - 1) chunk_items) (Ok item :: items)
    | _, _ => Err (Invalid "chunk has multiple items")
    end.

(** The locals of the packing loop. *)
Record Packer : Type := {
  writer : Writer;
  validator : BatchValidator;
  item_index : N;
  next_id : nat;
  items_left : stream;
}.

(** One turn of the packing loop: [None] when the items are used up. The chunk is only
    empty when nothing is left to pack, so the code's check for a lack of progress
    cannot fail. *)
Definition pack_chunk (b : BatchInput) (p : Packer) : result V2StoreError (option Packer) :=
  '(chunk_items, items) ← fill_chunk b (item_index p) [] 0 (items_left p);
  if bool_decide (length chunk_items = 0) then Ok None
  else
    '(line, chunk_items, items, id) ←
      shrink_chunk b (writer p) (item_index p) (length chunk_items) (next_id p) chunk_items items;
    let count := N.of_nat (length chunk_items) in
    _ ← bail_if (u32_max <? count)%N (Invalid "batch chunk count overflow");
    let chunk_hash := blake3_identifier line in
    validator ←
      match accept_chunk {| chunk_batch_id := in_batch_id b;
                            first_item_index := item_index p; item_count := count;
                            serialized_bytes := N.of_nat (length line);
                            Batch.record_hash := chunk_hash |} (validator p) with
      | (Ok _, validator) => Ok validator
      | (Err e, _) => Err (BatchErr e)
      end;
    w ← write_streamed_record line (writer p);
    w ← count_record chunk_hash w;
    index ← ok_or (checked_add_u64 (item_index p) count) (Invalid "batch item count overflow");
    w ← advance_seq w;
    Ok (Some {| writer := w; validator := validator; item_index := index; next_id := id;
                items_left := items |}).

(** The packing loop: [None] if [fuel] runs out. Every turn packs at least one item. *)
Fixpoint pack_chunks (b : BatchInput) (fuel : nat) (p : Packer)
    : option (result V2StoreError Packer) :=
  match fuel with
  | O => None
  | S fuel =>
      match pack_chunk b p with
      | Err e => Some (Err e)
      | Ok None => Some (Ok p)
      | Ok (Some p) => pack_chunks b fuel p
      end
  end.

(** The last record of the batch, and its hash; [next_seq] stays at the record's own
    sequence number. *)
Definition write_complete (b : BatchInput) (p : Packer) : result V2StoreError (string * Writer) :=
  _ ← bail_if (item_index p =? 0)%N
        (Invalid "a mutation batch must contain one or more object items");
  digest ← map_err BatchErr (ordered_item_digest (validator p));
  let complete := envelope_of b (writer p) (next_id p) BatchComplete
                    (complete_payload (item_index p) digest) in
  complete_line ← canonical_json complete;
  _ ← ensure_record_size complete_line;
  let complete_hash := blake3_identifier complete_line in
  w ← write_streamed_record complete_line (writer p);
  w ← count_record complete_hash w;
  Ok (complete_hash, w).

(** What the segment file holds, and what its manifest says of its ends. *)
Record SegmentFile : Type := {
  file : Writer;
  items_written : N;
  file_first_id : string;
  file_last_id : string;
  file_first_hash : string;
  file_last_hash : string;
}.

(** The segment of a batch, from its first record to its last. [None] if [fuel] runs
    out. *)
Definition write_segment (b : BatchInput) (first_seq : N) (previous : option string)
    (items : stream) (fuel : nat) : option (result V2StoreError SegmentFile) :=
  match
    '(first_hash, w) ← write_start b 2 (new_writer first_seq previous);
    validator ← map_err BatchErr (new (in_batch_id b) default_limits);
    Ok (first_hash, {| writer := w; validator := validator; item_index := 0; next_id := 3;
                       items_left := items |})
  with
  | Err e => Some (Err e)
  | Ok (first_hash, p) =>
      match pack_chunks b fuel p with
      | None => None
      | Some (Err e) => Some (Err e)
      | Some (Ok p) =>
          Some ('(last_hash, w) ← write_complete b p;
                Ok {| file := w; items_written := item_index p;
                      file_first_id := "rec_" +:+ lower_ulid 2;
                      file_last_id := "rec_" +:+ lower_ulid (next_id p);
                      file_first_hash := first_hash; file_last_hash := last_hash |})
      end
  end.

(** The bytes of the segment file. *)
Definition line_bytes (line : bytes) : bytes := line ++ ["010"%char].
Definition file_bytes (w : Writer) : bytes := concat (line_bytes <$> lines w).

(** ** Sealing the segment *)

Definition seal_body (verified : VerifiedV2Archive) (tail : option OriginFrontier)
    (b : BatchInput) (first : N) (f : SegmentFile) : SegmentManifestBody := {|
  manifest_v := MANIFEST_VERSION;
  manifest_archive_id := genesis_archive_id (Archive.genesis verified);
  manifest_genesis_hash := archive_genesis_hash verified;
  manifest_origin_id := in_origin b;
  segment_path := segment_relative_path (in_origin b) first;
  first_seq := first; last_seq := next_seq (file f);
  first_record_id := file_first_id f; last_record_id := file_last_id f;
  first_record_hash := file_first_hash f; last_record_hash := file_last_hash f;
  record_count := written_records (file f); segment_bytes := written_bytes (file f);
  segment_blake3 := "blake3:" +:+ hasher_finalize_hex (segment_hasher (file f));
  causal_base_frontier_hash := accepted_frontier_hash verified;
  previous_segment_manifest_hash := segment_manifest_hash <$> tail
|}.

Definition next_tail (b : BatchInput) (f : SegmentFile) (manifest : string) : OriginFrontier := {|
  Frontier.origin_id := in_origin b; Frontier.seq := next_seq (file f);
  event_hash := file_last_hash f; segment_manifest_hash := manifest
|}.

(** [origins.iter_mut().find(..)] and the assignment through it. *)
Fixpoint set_tail (tail : OriginFrontier) (origins : list OriginFrontier)
    : option (list OriginFrontier) :=
  match origins with
  | [] => None
  | o :: origins =>
      if decide (Frontier.origin_id o = Frontier.origin_id tail) then Some (tail :: origins)
      else (o ::.) <$> set_tail tail origins
  end.

Definition origin_le (x y : OriginFrontier) : Prop :=
  String.le (Frontier.origin_id x) (Frontier.origin_id y).

Definition advance_tail (tail : OriginFrontier) (origins : list OriginFrontier)
    : list OriginFrontier :=
  default (merge_sort origin_le (origins ++ [tail])) (set_tail tail origins).

Definition successor_frontier (verified : VerifiedV2Archive) (tail : OriginFrontier)
    : CausalFrontier := {|
  Frontier.v := FRONTIER_VERSION;
  Frontier.archive_id := genesis_archive_id (Archive.genesis verified);
  Frontier.genesis_hash := archive_genesis_hash verified;
  origins := advance_tail tail (origins (accepted_frontier verified));
  previous_frontiers := [accepted_frontier_hash verified];
  item_projection_version := item_projection_version (accepted_frontier verified)
|}.

Definition write_new_synced (path : string) (b : bytes) (disk : Disk)
    : result V2StoreError Disk :=
  match disk !! path with
  | Some _ => Err (Io "create immutable file" path "File exists (os error 17)")
  | None => Ok (<[path := b]> disk)
  end.

(** The temporary file has a fresh name and is renamed over [path]. *)
Definition replace_synced (path : string) (b : bytes) (disk : Disk) : Disk :=
  <[path := b]> disk.

Definition write_frontier (f : CausalFrontier) (disk : Disk) : result V2StoreError Disk :=
  hash ← map_err FrontierErr (frontier_hash f);
  path ← frontier_path hash;
  b ← map_err FrontierErr (Frontier.canonical_bytes f);
  write_new_synced path b disk.

(** [V2AppendResult], less the commit and the recovery of an earlier append. *)
Record V2AppendResult : Type := {
  result_batch_id : string;
  result_first_seq : N;
  result_last_seq : N;
  records_written : N;
  result_items : N;
  result_manifest_hash : string;
  result_frontier_hash : string;
}.

(** From the finished temporary file to the new [HEAD]. *)
Definition seal (verified : VerifiedV2Archive) (tail : option OriginFrontier)
    (key : SigningKey) (b : BatchInput) (first : N) (f : SegmentFile) (disk : Disk)
    : result V2StoreError (V2AppendResult * Disk) :=
  let disk := <[segment_relative_path (in_origin b) first := file_bytes (file f)]> disk in
  manifest ← create_manifest (seal_body verified tail b first f) key;
  hash ← manifest_hash manifest;
  manifest_bytes ← canonical_json manifest;
  disk ← write_new_synced (manifest_relative_path (in_origin b) first) manifest_bytes disk;
  let successor := successor_frontier verified (next_tail b f hash) in
  accepted ← map_err FrontierErr (frontier_hash successor);
  disk ← write_frontier successor disk;
  let disk := replace_synced "frontiers/v2/HEAD" (as_bytes (accepted +:+ newline)) disk in
  Ok ({| result_batch_id := in_batch_id b; result_first_seq := first;
         result_last_seq := next_seq (file f); records_written := written_records (file f);
         result_items := items_written f; result_manifest_hash := hash;
         result_frontier_hash := accepted |}, disk).

(** The checks on the active client, in [append_batch_locked]. *)
Definition check_active_client (verified : VerifiedV2Archive) (origin : string)
    (key : SigningKey) : result V2StoreError () :=
  enrolled ← ok_or (Archive.clients verified !! origin)
    (Invalid ("active client " +:+ origin +:+ " is not enrolled"));
  _ ← bail_if (is_revoked enrolled) (Invalid ("active client " +:+ origin +:+ " is revoked"));
  bail_if (negb (bool_decide (key_to_bytes (verifying_key key) = public_key enrolled)))
    (Invalid "local signing key does not match the enrolled client").

Definition batch_input (verified : VerifiedV2Archive) (origin : string) (time : N)
    (operation_kind : string) (item_schema_version : N) (context defaults : Value)
    : BatchInput := {|
  in_origin := origin; in_batch_id := "batch_" +:+ lower_ulid 0; in_time := time;
  in_operation_kind := operation_kind; in_schema := item_schema_version;
  in_context := context; in_defaults := defaults;
  in_frontier_hash := accepted_frontier_hash verified
|}.

(** The sequence number of the first record. *)
Definition first_sequence (tail : option OriginFrontier) : result V2StoreError N :=
  ok_or (checked_add_u64 (default 0%N (Frontier.seq <$> tail)) 1) sequence_overflow.

(** [append_batch_locked], between the verification of the archive it appends to,
    whose result is [verified], and the one of the archive it leaves; [disk] is the
    tree after [recover_unpublished_append]. [None] if [fuel] runs out. *)
Definition append_verified (verified : VerifiedV2Archive) (origin : string) (key : SigningKey)
    (time : N) (operation_kind : string) (item_schema_version : N) (context defaults : Value)
    (items : stream) (fuel : nat) (disk : Disk)
    : option (result V2StoreError (V2AppendResult * Disk)) :=
  let tail := find_origin (origins (accepted_frontier verified)) origin in
  let b := batch_input verified origin time operation_kind item_schema_version context
             defaults in
  match
    _ ← validate_item_defaults item_schema_version defaults;
    _ ← check_active_client verified origin key;
    first_sequence tail
  with
  | Err e => Some (Err e)
  | Ok first =>
      (λ written, f ← written; seal verified tail key b first f disk) <$>
        write_segment b first (event_hash <$> tail) items fuel
  end.
End append.
