(* ===== verification/Packing.v ===== *)
(** Packing a batch: the theorems on the item half of [Append.v]. The chunks hold the
    compacted items in their order, every record is bounded, and the loops end. *)
From Stdlib Require Import ZArith NArith Lia Ascii.
From stdpp Require Import base decidable list gmap strings sorting.
From S2P Require Import Prelude.
From S2P Require Import Text.
From S2P Require Import External.
From S2P Require Import Ids.
From S2P Require Import Batch.
From S2P Require Import Record.
From S2P Require Import Store.
From S2P Require Import Append.

(** ** Compaction *)

(** A default that dropping would leave alone: the item lacks it or overrides it. *)
Definition settled (item : list (string * Value)) (default : string * Value) : Prop :=
  ∀ value, assoc default.1 item = Some value → value_eqb value default.2 = false.

Lemma assoc_None {A} k (members : list (string * A)) v :
  (k, v) ∈ members → assoc k members ≠ None.
Proof.
  induction members as [|[k' v'] members IH]; [by intros ?%elem_of_nil |].
  intros [[= -> ->] | Hin]%elem_of_cons; cbn; case_decide; [done.. | auto].
Qed.

Lemma assoc_remove_member key k item :
  assoc k (remove_member key item) = if decide (k = key) then None else assoc k item.
Proof.
  unfold remove_member. induction item as [|[k' v] item IH]; [by case_decide |].
  destruct (decide (k' = key)) as [-> | Hne].
  - rewrite filter_cons_False by naive_solver. rewrite IH. cbn. by repeat case_decide.
  - rewrite filter_cons_True by done. cbn. rewrite IH. repeat case_decide; congruence.
Qed.

Lemma drop_default_assoc k item default :
  assoc k (drop_default item default) = assoc k item ∨
  (k = default.1 ∧ assoc k (drop_default item default) = None).
Proof.
  unfold drop_default. repeat case_match; try by left.
  rewrite assoc_remove_member. case_decide; [by right | by left].
Qed.

Lemma drop_default_settles item default : settled (drop_default item default) default.
Proof.
  unfold settled, drop_default. intros value. destruct (assoc default.1 item) eqn:Ha.
  - destruct (value_eqb v default.2) eqn:He; [|congruence].
    rewrite assoc_remove_member, decide_True by done. done.
  - congruence.
Qed.

Lemma drop_default_settled item default : settled item default → drop_default item default = item.
Proof. unfold settled, drop_default. intros Hs. case_match; [|done]. by rewrite Hs. Qed.

Lemma drop_defaults_assoc k item defaults :
  assoc k (foldl drop_default item defaults) = assoc k item ∨
  (k ∈ defaults.*1 ∧ assoc k (foldl drop_default item defaults) = None).
Proof.
  revert item. induction defaults as [|d defaults IH]; cbn; intros item; [by left |].
  rewrite elem_of_cons. destruct (IH (drop_default item d)) as [-> | [? ?]]; [|tauto].
  destruct (drop_default_assoc k item d) as [-> | [? ?]]; tauto.
Qed.

Lemma drop_defaults_settled item default defaults :
  settled item default → settled (foldl drop_default item defaults) default.
Proof.
  intros Hs value Hv. destruct (drop_defaults_assoc default.1 item defaults) as [He | [_ ?]];
    [|congruence]. apply Hs. congruence.
Qed.

Lemma drop_defaults_settle item defaults :
  Forall (settled (foldl drop_default item defaults)) defaults.
Proof.
  revert item. induction defaults as [|d defaults IH]; cbn; intros item; constructor.
  - apply drop_defaults_settled, drop_default_settles.
  - apply IH.
Qed.

Lemma drop_settled item defaults : Forall (settled item) defaults → foldl drop_default item defaults = item.
Proof. induction 1 as [|d defaults Hd _ IH]; cbn; [done |]. by rewrite drop_default_settled. Qed.

(** Valid defaults never drop the member that selects them. *)
Lemma validate_item_defaults_kind schema defaults kind values u :
  validate_item_defaults schema defaults = Ok u → schema ≠ 1%N →
  value_get kind defaults ≫= as_object = Some values → assoc "kind" values = None.
Proof.
  unfold validate_item_defaults. intros Hrun H1. rewrite (proj2 (N.eqb_neq _ _) H1) in Hrun.
  destruct (schema =? 2)%N; [|done].
  apply bind_Ok in Hrun as (kinds & Hkinds%ok_or_Ok & Hrun).
  destruct defaults as [| | | | |members]; try done. injection Hkinds as <-. cbn.
  destruct (assoc kind members) as [value|] eqn:Ha; [|done].
  apply assoc_Some_elem in Ha. rewrite for_each_Ok in Hrun. specialize (Hrun _ Ha). cbn in *.
  intros Hobj. rewrite Hobj in Hrun. cbn in Hrun. by destruct (assoc "kind" values).
Qed.

(** Compacting a compacted item changes nothing, so an item the packer gives back can
    be compacted again. *)
Lemma compact_idempotent schema defaults item item' u :
  validate_item_defaults schema defaults = Ok u →
  compact_batch_item item schema defaults = Ok item' →
  compact_batch_item item' schema defaults = Ok item'.
Proof.
  intros Hv. unfold compact_batch_item. destruct (N.eqb_spec schema 1) as [|H1]; [done |].
  intros (members & Ho & (kind & Hk & Hrun)%bind_Ok)%bind_Ok. inv_ok.
  destruct (value_get kind defaults ≫= as_object) as [values|] eqn:Hd; inv_ok; cbn.
  - destruct (drop_defaults_assoc "kind" members values) as [Ha | [Hin _]].
    + rewrite Ha, Hk. cbn. rewrite Hd. do 2 f_equal. apply drop_settled, drop_defaults_settle.
    + pose proof (validate_item_defaults_kind _ _ _ _ _ Hv H1 Hd) as Hnone.
      apply list_elem_of_fmap in Hin as ([k v] & Hkey & Hin). cbn in Hkey. subst k.
      by apply assoc_None in Hin.
  - rewrite Hk. cbn. by rewrite Hd.
Qed.

(** ** Filling and shrinking a chunk *)

(** What the items of a stream become: their compacted forms, in order. *)
Definition compact_all (b : BatchInput) (items : stream) : result V2StoreError (list Value) :=
  map_result (λ next, item ← next; compact_batch_item item (in_schema b) (in_defaults b)) items.

(** A property of the items of a stream, and one that compaction preserves. *)
Definition stream_all (Q : Value → Prop) (items : stream) : Prop := ∀ item, Ok item ∈ items → Q item.
Definition compact_closed (b : BatchInput) (Q : Value → Prop) : Prop :=
  ∀ item item', Q item →
    compact_batch_item item (in_schema b) (in_defaults b) = Ok item' → Q item'.

Lemma stream_all_cons Q next items :
  stream_all Q (next :: items) ↔ (∀ item, next = Ok item → Q item) ∧ stream_all Q items.
Proof.
  unfold stream_all. setoid_rewrite elem_of_cons. split; [|naive_solver].
  intros Hq. split; intros item; [intros ->|]; auto.
Qed.

Section packing.
Context `{Blake3, UlidCrate, ToJson V2RecordEnvelope, ToJson Value}.
Context (lower_ulid : nat → string) (b : BatchInput).
Hypothesis defaults_ok : validate_item_defaults (in_schema b) (in_defaults b) = Ok ().

Lemma compact_all_given given items rest :
  Forall (λ item, compact_batch_item item (in_schema b) (in_defaults b) = Ok item) given →
  compact_all b ((Ok <$> given) ++ items) = Ok rest →
  ∃ rest', rest = given ++ rest' ∧ compact_all b items = Ok rest'.
Proof using.
  intros Hg. revert rest. induction Hg as [|item given Hi _ IH]; intros rest; [by eexists |].
  unfold compact_all in *. cbn. rewrite Hi. cbn.
  intros (rest1 & (rest' & -> & ?)%IH & [= <-])%bind_Ok. by exists rest'.
Qed.

(** The chunk after the loop: the items read are compacted objects, those not taken are
    left, and only an exhausted stream leaves a chunk empty. *)
Lemma fill_chunk_Ok index chunk approximate items chunk' items' :
  fill_chunk b index chunk approximate items = Ok (chunk', items') →
  (N.of_nat (length chunk) <= DEFAULT_MAX_BATCH_CHUNK_ITEMS)%N →
  ∃ new, chunk' = chunk ++ new ∧
    (N.of_nat (length chunk') <= DEFAULT_MAX_BATCH_CHUNK_ITEMS)%N ∧
    Forall (λ item, is_object item = true ∧
      compact_batch_item item (in_schema b) (in_defaults b) = Ok item) new ∧
    (∀ rest, compact_all b items' = Ok rest → compact_all b items = Ok (new ++ rest)) ∧
    length items = length new + length items' ∧ (chunk' = [] → items = []) ∧
    (∀ Q, compact_closed b Q → stream_all Q items → Forall Q new ∧ stream_all Q items').
Proof using defaults_ok.
  revert chunk approximate. induction items as [|next items IH]; intros chunk approximate Hrun Hlen.
  { cbn in Hrun. simplify_eq. exists []. rewrite app_nil_r. split_and!; try done. }
  cbn [fill_chunk] in Hrun. destruct (N.leb_spec DEFAULT_MAX_BATCH_CHUNK_ITEMS (N.of_nat (length chunk))) as [Hmax | Hmax].
  { simplify_eq. exists []. rewrite app_nil_r. split_and!; try done.
    intros ->. cbn in Hmax. unfold DEFAULT_MAX_BATCH_CHUNK_ITEMS in Hmax. lia. }
  apply bind_Ok in Hrun as (item0 & Hnext & Hrun).
  apply bind_Ok in Hrun as (item & Hitem & Hrun).
  apply bind_Ok in Hrun as ([] & Hobj%bail_if_Ok%negb_false_iff & Hrun).
  apply bind_Ok in Hrun as (line & _ & Hrun).
  pose proof (compact_idempotent _ _ _ _ _ defaults_ok Hitem) as Hagain.
  match type of Hrun with (if ?c then _ else _) = _ => destruct c eqn:Hfull end.
  - simplify_eq. exists []. rewrite app_nil_r. split_and!; try done.
    + intros rest. unfold compact_all. cbn. rewrite Hagain. by rewrite Hitem.
    + intros ->. done.
    + intros Q Hclosed [Hq ?]%stream_all_cons. split; [done |]. apply stream_all_cons.
      split; [|done]. intros i [= <-]. by eapply Hclosed; [apply Hq |].
  - apply IH in Hrun as (new & -> & Hb & Hnew & Hrest & Hl & Hempty & Hq); [|rewrite length_app; cbn; lia].
    exists (item :: new). rewrite <- app_assoc in *. cbn [app] in *. split_and!; try done.
    + by constructor.
    + intros rest Hr. apply Hrest in Hr. unfold compact_all in *. cbn. rewrite Hnext. cbn. by rewrite Hitem, Hr.
    + cbn. lia.
    + by destruct chunk.
    + intros Q Hclosed [Hnextq Hitems]%stream_all_cons. destruct (Hq Q Hclosed Hitems).
      split; [|done]. constructor; [|done]. by eapply Hclosed; [apply Hnextq |].
Qed.

(** The record a chunk ends in: bounded, and holding the chunk less what was given
    back. *)
Lemma shrink_chunk_Ok w index fuel id chunk items line chunk' items' id' :
  shrink_chunk lower_ulid b w index fuel id chunk items = Ok (line, chunk', items', id') →
  chunk ≠ [] →
  ∃ given k, chunk = chunk' ++ given ∧ items' = (Ok <$> given) ++ items ∧ chunk' ≠ [] ∧
    to_json (envelope_of lower_ulid b w k BatchChunk (chunk_payload index chunk')) = Ok line ∧
    (N.of_nat (length line) <= DEFAULT_MAX_V2_RECORD_BYTES)%N.
Proof using.
  revert id chunk items. induction fuel as [|fuel IH]; intros id chunk items Hrun Hne;
    cbn [shrink_chunk] in Hrun; apply bind_Ok in Hrun as (line0 & Hline%canonical_json_Ok & Hrun);
    (destruct (N.leb_spec (N.of_nat (length line0)) DEFAULT_MAX_V2_RECORD_BYTES) as [Hmax | Hmax];
      [simplify_eq; exists [], id; rewrite app_nil_r; by split_and! |]);
    apply bind_Ok in Hrun as ([] & Hone%bail_if_Ok%Nat.eqb_neq & Hrun); [done |].
  destruct (last chunk) as [item|] eqn:Hlast; [|done].
  destruct chunk as [|item' chunk _] using rev_ind; [done |]. clear Hne.
  rewrite last_snoc in Hlast. simplify_eq.
  rewrite length_app in Hone, Hrun. cbn in Hone, Hrun.
  rewrite Nat.add_sub, take_app_length in Hrun.
  apply IH in Hrun as (given & k & -> & -> & Hne' & Hj & Hb); [|intros ->; cbn in *; lia].
  exists (given ++ [item]), k. rewrite <- app_assoc, fmap_app, <- app_assoc. by split_and!.
Qed.

(** The loop ends before its fuel does: its last error is unreachable. *)
Lemma shrink_chunk_fuel w index fuel id chunk items :
  length chunk <= fuel →
  shrink_chunk lower_ulid b w index fuel id chunk items
  = shrink_chunk lower_ulid b w index (S fuel) id chunk items.
Proof using.
  revert id chunk items. induction fuel as [|fuel IH]; intros id chunk items Hlen.
  - apply Nat.le_0_r, nil_length_inv in Hlen as ->. done.
  - set (s := S fuel) in *. cbn [shrink_chunk]. subst s. cbn [shrink_chunk].
    destruct (canonical_json _) as [line|e]; cbn; [|done]. case_match; [done |].
    destruct (length chunk =? 1) eqn:Hone; cbn; [done |]. destruct (last chunk) as [item|] eqn:Hlast; [|done].
    apply IH. rewrite length_take. lia.
Qed.

(** ** One turn of the loop, and its end *)

Definition chunk_descriptor_of (index : N) (chunk : list Value) (line : bytes)
    : BatchChunkDescriptor := {|
  chunk_batch_id := in_batch_id b; first_item_index := index;
  item_count := N.of_nat (length chunk); serialized_bytes := N.of_nat (length line);
  Batch.record_hash := blake3_identifier line |}.

(** Writing one record and moving to the next sequence number. *)
Definition write_record (line : bytes) (w : Writer) : result V2StoreError Writer :=
  w ← write_streamed_record line w;
  w ← count_record (blake3_identifier line) w;
  advance_seq w.

(** What a turn does: one chunk of compacted objects goes to one bounded record. *)
Record chunk_packed (p p' : Packer) (chunk : list Value) (line : bytes) (k : nat) : Prop := {
  cp_items : chunk ≠ [] ∧ (N.of_nat (length chunk) <= DEFAULT_MAX_BATCH_CHUNK_ITEMS)%N;
  cp_objects : Forall (λ item, is_object item = true) chunk;
  cp_line : to_json (envelope_of lower_ulid b (writer p) k BatchChunk
                       (chunk_payload (item_index p) chunk)) = Ok line;
  cp_bounded : (N.of_nat (length line) <= DEFAULT_MAX_V2_RECORD_BYTES)%N;
  cp_validator : accept_chunk (chunk_descriptor_of (item_index p) chunk line) (validator p)
                 = (Ok (), validator p');
  cp_writer : write_record line (writer p) = Ok (writer p');
  cp_index : item_index p' = (item_index p + N.of_nat (length chunk))%N;
  cp_stream : ∀ rest, compact_all b (items_left p') = Ok rest →
    compact_all b (items_left p) = Ok (chunk ++ rest);
  cp_all : ∀ Q, compact_closed b Q → stream_all Q (items_left p) →
    Forall Q chunk ∧ stream_all Q (items_left p');
  cp_progress : length (items_left p') < length (items_left p);
}.

Lemma pack_chunk_Some p p' :
  pack_chunk lower_ulid b p = Ok (Some p') → ∃ chunk line k, chunk_packed p p' chunk line k.
Proof using defaults_ok.
  unfold pack_chunk. intros ([chunk items] & Hfill & Hrun)%bind_Ok.
  apply fill_chunk_Ok in Hfill as (new & -> & Hmax & Hnew & Hrest & Hlen & _ & Hq); [|done].
  cbn [app] in *. case_bool_decide as Hempty; [done |].
  apply bind_Ok in Hrun as ([[[line chunk] items'] id] & Hshrink & Hrun).
  apply shrink_chunk_Ok in Hshrink as (given & k & -> & -> & Hne & Hline & Hbound);
    [|by intros ->].
  apply bind_Ok in Hrun as ([] & _ & Hrun).
  apply bind_Ok in Hrun as (validator' & Haccept & Hrun).
  destruct (accept_chunk _ (validator p)) as [[[]|e] v'] eqn:Ha; [|done]. injection Haccept as ->.
  apply bind_Ok in Hrun as (w1 & Hw1 & Hrun). apply bind_Ok in Hrun as (w2 & Hw2 & Hrun).
  apply bind_Ok in Hrun as (index & [-> _]%ok_or_Ok%checked_add_u64_Some & Hrun).
  apply bind_Ok in Hrun as (w3 & Hw3 & Hrun). injection Hrun as <-.
  apply Forall_app in Hnew as [Hchunk Hgiven]. rewrite length_app in Hmax, Hlen.
  exists chunk, line, k. split; cbn [writer validator item_index items_left]; try done.
  - split; [done | lia].
  - eapply Forall_impl; [exact Hchunk |]. by intros item [? _].
  - unfold write_record. rewrite Hw1. cbn. by rewrite Hw2.
  - intros rest Hr. apply compact_all_given in Hr as (rest' & -> & Hr).
    + rewrite app_assoc. by apply Hrest.
    + eapply Forall_impl; [exact Hgiven |]. by intros item [_ ?].
  - intros Q Hclosed Hitems. destruct (Hq Q Hclosed Hitems) as [[Hc Hg]%Forall_app Hrestq].
    split; [done |]. intros item [(i & [= <-] & Hi)%list_elem_of_fmap | Hi]%elem_of_app; [|auto].
    rewrite Forall_forall in Hg. auto.
  - rewrite Hlen, length_app, length_fmap. destruct chunk; [done |]. cbn. lia.
Qed.

Lemma pack_chunk_None p : pack_chunk lower_ulid b p = Ok None → items_left p = [].
Proof using defaults_ok.
  unfold pack_chunk. intros ([chunk items] & Hfill & Hrun)%bind_Ok.
  apply fill_chunk_Ok in Hfill as (new & -> & _ & _ & _ & _ & Hempty & _); [|done].
  case_bool_decide as Hlen; [by apply Hempty, nil_length_inv |].
  apply bind_Ok in Hrun as ([[[? ?] ?] ?] & _ & Hrun). by inv_ok.
Qed.

(** The whole loop, by induction on its turns. *)
Lemma pack_chunks_ind (P : Packer → Prop) fuel p p' :
  (∀ q q' chunk line k, P q → chunk_packed q q' chunk line k → P q') →
  P p → pack_chunks lower_ulid b fuel p = Some (Ok p') → P p' ∧ items_left p' = [].
Proof using defaults_ok.
  intros Hstep. revert p. induction fuel as [|fuel IH]; cbn; intros p Hp Hrun; [done |].
  destruct (pack_chunk lower_ulid b p) as [[q|]|e] eqn:Hq; [| |done].
  - apply pack_chunk_Some in Hq as (chunk & line & k & Hq). eapply IH; [|done]. eauto.
  - simplify_eq. split; [done |]. by apply pack_chunk_None.
Qed.

(** One turn more than there are items is enough, however often the serializer makes a
    chunk give items back. *)
Lemma pack_chunks_total fuel p :
  length (items_left p) < fuel → pack_chunks lower_ulid b fuel p ≠ None.
Proof using defaults_ok.
  revert p. induction fuel as [|fuel IH]; cbn; intros p Hlen; [lia |].
  destruct (pack_chunk lower_ulid b p) as [[q|]|e] eqn:Hq; [|done..].
  apply pack_chunk_Some in Hq as (chunk & line & k & Hq). apply IH.
  pose proof (cp_progress _ _ _ _ _ Hq). lia.
Qed.
End packing.
