(* ===== verification/Sealing.v ===== *)
(** Sealing a batch: the theorems on the segment half of [Append.v]. The records the
    writer produced form one more stretch of the origin's chain, the manifest describes
    them, and the readers of [Segment.v] and [Batches.v] accept both. *)
From Stdlib Require Import ZArith NArith Lia Ascii.
From stdpp Require Import base decidable list gmap strings sorting.
From S2P Require Import Prelude.
From S2P Require Import Text.
From S2P Require Import External.
From S2P Require Import Ids.
From S2P Require Import Frontier.
From S2P Require Import Batch.
From S2P Require Import Record.
From S2P Require Import Genesis.
From S2P Require Import Store.
From S2P Require Import Segment.
From S2P Require Import FrontierGraph.
From S2P Require Import Clients.
From S2P Require Import Coordination.
From S2P Require Import Batches.
From S2P Require Import Archive.
From S2P Require Import Append.
From S2P Require Import Packing.

(** ** What serde_json promises *)

(** A value [serde_json] prints and reads back unchanged with [n] levels of nesting left:
    its objects have sorted keys, and it holds no floats, whose shortest decimal form the
    parser may round. *)
Inductive json_readable : nat → Value → Prop :=
  | readable_null n : json_readable n Null
  | readable_bool n b : json_readable n (Bool b)
  | readable_pos n k : json_readable n (Num (PosInt k))
  | readable_neg n z : json_readable n (Num (NegInt z))
  | readable_str n s : json_readable n (Str s)
  | readable_arr n l : Forall (json_readable n) l → json_readable (S n) (Arr l)
  | readable_obj n members : key_sorted fst members →
      Forall (λ m, json_readable n m.2) members → json_readable (S n) (Obj members).

(** Reading stops at 128 levels of nesting, one of which is the envelope; a printed
    envelope is one line and not empty. *)
Class RecordJsonLaws `{ToJson V2RecordEnvelope, FromJson V2RecordEnvelope} : Prop := {
  record_json_read : ∀ e line, json_readable 126 (payload e) →
    to_json e = Ok line → from_json line = Ok e;
  record_json_line : ∀ (e : V2RecordEnvelope) line, to_json e = Ok line →
    ("010"%char ∉ line) ∧ ("013"%char ∉ line) ∧ line ≠ [];
}.

(** A manifest holds only strings and numbers. *)
Class ManifestJsonLaws `{ToJson SignedSegmentManifest, FromJson SignedSegmentManifest} : Prop := {
  manifest_json_read : ∀ (m : SignedSegmentManifest) b, to_json m = Ok b → from_json b = Ok m;
}.

(** A generated identifier is one the readers accept. *)
Definition ulids_ok `{UlidCrate} (lower_ulid : nat → string) : Prop :=
  ∀ i, is_prefixed_lowercase_ulid ("rec_" +:+ lower_ulid i) "rec_" = true ∧
       is_prefixed_lowercase_ulid ("batch_" +:+ lower_ulid i) "batch_" = true.

(** ** Readable payloads *)

Lemma json_object_readable n members :
  NoDup members.*1 → Forall (λ m, json_readable n m.2) members →
  json_readable (S n) (json_object members).
Proof.
  intros Hnd Hall. constructor; [by apply key_sorted_merge_sort |]. by rewrite merge_sort_Permutation.
Qed.

Lemma compact_readable b n : compact_closed b (json_readable n).
Proof.
  intros item item' Hr. unfold compact_batch_item. case_match; [congruence |].
  destruct item as [| | | | |members]; try done. cbn.
  intros (kind & _ & Hrun)%bind_Ok. destruct (_ ≫= as_object) as [values|]; [|congruence].
  injection Hrun as <-. revert members Hr. induction values as [|d values IH]; cbn; intros members Hr; [done |].
  apply IH. unfold drop_default. repeat case_match; try done.
  inversion Hr; subst. constructor; [by apply key_sorted_filter |].
  rewrite Forall_forall in *. intros m [_ Hm]%list_elem_of_filter. auto.
Qed.

Lemma start_payload_readable b :
  json_readable 125 (in_context b) → json_readable 125 (in_defaults b) →
  json_readable 126 (start_payload b).
Proof.
  intros Hc Hd. apply json_object_readable; [|by repeat constructor].
  apply (bool_decide_unpack _). by vm_compute.
Qed.

Lemma chunk_payload_readable index chunk :
  Forall (json_readable 124) chunk → json_readable 126 (chunk_payload index chunk).
Proof.
  intros Hc. apply json_object_readable; [|by repeat constructor].
  apply (bool_decide_unpack _). by vm_compute.
Qed.

Lemma complete_payload_readable total digest : json_readable 126 (complete_payload total digest).
Proof.
  apply json_object_readable; [|by repeat constructor]. apply (bool_decide_unpack _). by vm_compute.
Qed.

(** ** Lines of a file *)

Lemma split_char_line line rest :
  "010"%char ∉ line →
  split_char "010" (of_bytes (line ++ "010"%char :: rest))
  = of_bytes line :: split_char "010" (of_bytes rest).
Proof.
  induction line as [|a line IH]; [done |].
  intros [Ha Hline]%not_elem_of_cons.
  change (of_bytes ((a :: line) ++ "010"%char :: rest))
    with (String a (of_bytes (line ++ "010"%char :: rest))).
  cbn [split_char]. destruct (Ascii.eqb_spec a "010"%char) as [->|]; [done |].
  by rewrite (IH Hline).
Qed.

Lemma split_char_end line : "010"%char ∉ line → split_char "010" (of_bytes line) = [of_bytes line].
Proof.
  induction line as [|a line IH]; [done |]. intros [Ha Hline]%not_elem_of_cons.
  change (of_bytes (a :: line)) with (String a (of_bytes line)).
  cbn [split_char]. destruct (Ascii.eqb_spec a "010"%char) as [->|]; [done |].
  by rewrite (IH Hline).
Qed.

Lemma split_char_lines ls line :
  Forall (λ line, "010"%char ∉ line) (ls ++ [line]) →
  split_char "010" (of_bytes (concat (line_bytes <$> ls) ++ line)) = of_bytes <$> (ls ++ [line]).
Proof.
  induction ls as [|l ls IH]; cbn [app].
  - intros [Hline _]%Forall_cons. by apply split_char_end.
  - intros [Hl Hls]%Forall_cons. rewrite !fmap_cons. cbn [concat].
    unfold line_bytes at 1. rewrite <- !app_assoc. cbn [app].
    by rewrite split_char_line, IH.
Qed.

(** The reader's lines of a file of lines are those lines. *)
Lemma segment_lines_concat (ls : list bytes) :
  ls ≠ [] → Forall (λ line, "010"%char ∉ line) ls →
  segment_lines (concat (line_bytes <$> ls)) = ls.
Proof.
  intros Hne Hls. destruct ls as [|line ls _] using rev_ind; [done |]. unfold segment_lines.
  rewrite fmap_app, concat_app. cbn [fmap list_fmap concat].
  change (line_bytes line) with (line ++ ["010"%char]).
  rewrite app_nil_r, !app_assoc, length_app. cbn [length].
  rewrite Nat.add_sub, take_app_length, split_char_lines by done.
  rewrite <- list_fmap_compose. rewrite <- (list_fmap_id (ls ++ [line])) at 2.
  apply list_fmap_ext. intros i l _. apply as_of_bytes.
Qed.

Lemma file_ends_with_newline (ls : list bytes) :
  ls ≠ [] → ends_with_newline (concat (line_bytes <$> ls)) = true.
Proof.
  intros Hne. destruct ls as [|line ls _] using rev_ind; [done |].
  rewrite fmap_app, concat_app. cbn [fmap list_fmap concat].
  change (line_bytes line) with (line ++ ["010"%char]).
  unfold ends_with_newline. rewrite app_nil_r, app_assoc, last_snoc.
  by apply bool_decide_eq_true.
Qed.

(** ** The records written so far *)

(** A written record as its reader will return it: with the hash of its manifest and the
    frontier the manifest names. *)
Definition written_record `{Blake3} (manifest frontier : string) (r : V2RecordEnvelope * bytes)
    : VerifiedV2Record := {|
  record := {| envelope := r.1; Record.record_hash := blake3_identifier r.2 |};
  exact_line_bytes := r.2; record_manifest_hash := manifest; causal_frontier_hash := frontier
|}.

Section sealing.
Context `{Blake3Laws, UlidCrate, Base64, Ed25519, ToJson V2RecordEnvelope,
  FromJson V2RecordEnvelope, ToJson Value, ToJson SegmentManifestBody,
  ToJson SignedSegmentManifest, FromJson SignedSegmentManifest, ToJson CausalFrontier}.
Context `{!RecordJsonLaws, !ManifestJsonLaws, !Base64Laws, !Ed25519Laws}.
Context (lower_ulid : nat → string) (b : BatchInput).
Hypothesis ulids : ulids_ok lower_ulid.
Hypothesis origin_ok : is_origin_id (in_origin b) = true.
Hypothesis batch_ok : is_prefixed_lowercase_ulid (in_batch_id b) "batch_" = true.

(** The locals of the writer agree with the records [rs] it has written from sequence
    number [first] and hash [previous] on. *)
Record so_far (first : N) (previous : option string) (w : Writer)
    (rs : list (V2RecordEnvelope * bytes)) : Prop := {
  sf_lines : lines w = rs.*2;
  sf_hasher : ∃ pieces, segment_hasher w = foldl hasher_update hasher_new pieces ∧
    concat pieces = file_bytes w;
  sf_bytes : written_bytes w = N.of_nat (length (file_bytes w));
  sf_count : written_records w = N.of_nat (length rs);
  sf_chain : ∀ manifest frontier,
    linked (in_origin b) first previous (written_record manifest frontier <$> rs);
  sf_previous : ∀ manifest frontier,
    previous_hash w = last_hash previous (written_record manifest frontier <$> rs);
  sf_clean : Forall (λ line, line ≠ [] ∧ "010"%char ∉ line) rs.*2;
}.

(** The frontier's tail is the hash a chain that starts at [first] must name. *)
Definition starts_at (first : N) (previous : option string) : Prop :=
  first ≠ 0%N ∧ (previous = None ↔ first = 1%N) ∧
  ∀ h, previous = Some h → is_blake3_identifier h = true.

Lemma so_far_previous first previous w rs h :
  starts_at first previous → so_far first previous w rs →
  (previous_hash w = None ↔ (first + N.of_nat (length rs) = 1)%N) ∧
  (previous_hash w = Some h → is_blake3_identifier h = true).
Proof using All.
  intros (H0' & Hfirst & Hh) Hsf. rewrite (sf_previous _ _ _ _ Hsf "" "").
  destruct rs as [|r rs _] using rev_ind.
  { cbn. rewrite N.add_0_r. split; [done | apply Hh]. }
  rewrite fmap_app, last_hash_app, length_app. cbn. split.
  - split; [done | lia].
  - intros [= <-]. apply blake3_identifier_ok.
Qed.

(** Writing one more record. *)
Lemma so_far_write first previous w rs id kind value line w1 w2 :
  starts_at first previous → so_far first previous w rs →
  next_seq w = (first + N.of_nat (length rs))%N →
  json_readable 126 value → is_object value = true →
  to_json (envelope_of lower_ulid b w id kind value) = Ok line →
  write_streamed_record line w = Ok w1 → count_record (blake3_identifier line) w1 = Ok w2 →
  so_far first previous w2 (rs ++ [(envelope_of lower_ulid b w id kind value, line)]) ∧
  next_seq w2 = next_seq w.
Proof using All.
  intros Hstart Hsf Hseq Hread Hobj Hline Hw1 Hw2.
  unfold write_streamed_record in Hw1.
  apply bind_Ok in Hw1 as ([] & Hsize%bail_if_Ok%N.ltb_ge & Hw1).
  apply bind_Ok in Hw1 as (total & [-> Htotal]%ok_or_Ok%checked_add_u64_Some & [= <-]).
  unfold count_record in Hw2.
  apply bind_Ok in Hw2 as (count & [-> Hcount]%ok_or_Ok%checked_add_u64_Some & [= <-]).
  cbn [lines segment_hasher written_bytes written_records next_seq previous_hash] in *.
  set (e := envelope_of _ _ _ _ _ _) in *.
  destruct (record_json_line e line Hline) as (Hnl & Hcr & Hne).
  pose proof (record_json_read e line Hread Hline) as Hparse.
  destruct (so_far_previous first previous w rs "" Hstart Hsf) as [Hnone _].
  assert (Hsome := λ h, proj2 (so_far_previous first previous w rs h Hstart Hsf)).
  destruct Hsf as [Hlines (pieces & Hpieces & Hconcat) Hbytes Hrecords Hchain Hprev Hclean].
  split; [|done]. split; cbn [lines segment_hasher written_bytes written_records previous_hash].
  - by rewrite Hlines, fmap_app.
  - exists (pieces ++ [line; ["010"%char]]). unfold file_bytes in *. cbn [lines].
    rewrite foldl_app, concat_app, fmap_app, concat_app, Hpieces, Hconcat. cbn. by rewrite app_nil_r.
  - unfold file_bytes in *. cbn [lines]. rewrite fmap_app, concat_app, length_app, Hbytes.
    cbn. unfold line_bytes. rewrite app_nil_r, length_app. cbn. unfold saturating_add_u64.
    unfold DEFAULT_MAX_V2_RECORD_BYTES, DEFAULT_MAX_BATCH_CHUNK_BYTES, u64_max in *. lia.
  - rewrite length_app, Hrecords. cbn. lia.
  - intros manifest frontier. rewrite fmap_app. apply linked_app. split; [done |].
    rewrite <- Hprev, length_fmap. cbn. split; [|done]. split; cbn; try done.
    + destruct Hstart as [Hpos _]. split; [done | clear -Hpos; lia].
    + apply ulids.
  - intros manifest frontier. rewrite fmap_app, last_hash_app. done.
  - rewrite fmap_app. apply Forall_app. split; [done |]. by repeat constructor.
Qed.

(** ** The packing loop *)

(** A record of the batch, by its kind. *)
Definition of_batch (kind : V2RecordKind) (e : V2RecordEnvelope) : Prop :=
  record_kind e = kind ∧ Record.batch_id e = in_batch_id b ∧ Record.origin_id e = in_origin b.

Lemma payload_object_get k (r : VerifiedV2Record) :
  is_object (payload (envelope (record r))) = true →
  assoc k (payload_object r) = value_get k (payload (envelope (record r))).
Proof using. unfold payload_object. by destruct (payload (envelope (record r))). Qed.

(** A chunk record within the limits of [v2_batch.rs]. *)
Definition bounded_chunk (r : V2RecordEnvelope * bytes) : Prop :=
  ∃ group, value_get "items" (payload r.1) = Some (Arr group) ∧
    (1 <= N.of_nat (length group) <= DEFAULT_MAX_BATCH_CHUNK_ITEMS)%N ∧
    Forall (λ item, is_object item = true) group.

(** The items of some records, in order. *)
Definition items_of (rs : list VerifiedV2Record) : list Value := concat (omap record_items rs).

Lemma get_chunk_payload index chunk :
  value_get "first_item_index" (chunk_payload index chunk) = Some (Num (PosInt index)) ∧
  value_get "items" (chunk_payload index chunk) = Some (Arr chunk).
Proof using.
  unfold chunk_payload. rewrite !value_get_json_object; [done | |];
    apply (bool_decide_unpack _); by vm_compute.
Qed.

Section loop.
Context (first : N) (previous : option string) (original : stream) (fresh : BatchValidator).
Context (start : V2RecordEnvelope * bytes).
Hypothesis start_ok : starts_at first previous.

Record packed (p : Packer) (cs : list (V2RecordEnvelope * bytes)) : Prop := {
  pk_so_far : so_far first previous (writer p) (start :: cs);
  pk_seq : next_seq (writer p) = (first + N.of_nat (S (length cs)))%N;
  pk_max : (next_seq (writer p) <= u64_max)%N;
  pk_chunks : Forall (λ c, of_batch BatchChunk c.1 ∧ bounded_chunk c) cs;
  pk_validator : ∀ manifest frontier,
    fold_result (accept_record (in_batch_id b)) fresh (written_record manifest frontier <$> cs)
    = Ok (validator p);
  pk_next : next_item_index (validator p) = item_index p;
  pk_items : ∀ manifest frontier rest, compact_all b (items_left p) = Ok rest →
    compact_all b original = Ok (items_of (written_record manifest frontier <$> cs) ++ rest);
  pk_count : ∀ manifest frontier,
    item_index p = N.of_nat (length (items_of (written_record manifest frontier <$> cs)));
  pk_readable : stream_all (json_readable 124) (items_left p);
}.

Lemma packed_step p p' cs chunk line k :
  packed p cs → chunk_packed lower_ulid b p p' chunk line k →
  packed p' (cs ++ [(envelope_of lower_ulid b (writer p) k BatchChunk
                       (chunk_payload (item_index p) chunk), line)]).
Proof using All.
  intros [Hsf Hseq _ Hchunks Hvalidator Hnext Hitems Hcount Hread]
    [[Hne Hlen] Hobjects Hline Hbound Haccept Hwriter Hindex Hstream Hall Hprogress].
  destruct (Hall _ (compact_readable b 124) Hread) as [Hchunkr Hread'].
  destruct (get_chunk_payload (item_index p) chunk) as [Hgi Hgc].
  unfold write_record in Hwriter. apply bind_Ok in Hwriter as (w1 & Hw1 & Hwriter).
  apply bind_Ok in Hwriter as (w2 & Hw2 & Hwriter).
  unfold advance_seq in Hwriter.
  apply bind_Ok in Hwriter as (seq & [-> Hmax]%ok_or_Ok%checked_add_u64_Some & [= Hw3]).
  destruct (so_far_write first previous (writer p) (start :: cs) k BatchChunk
    (chunk_payload (item_index p) chunk) line w1 w2) as [Hsf2 Hseq2]; try done.
  { by apply chunk_payload_readable. }
  set (c := (envelope_of _ _ _ _ _ _, line)) in *.
  assert (∀ manifest frontier, items_of (written_record manifest frontier <$> cs ++ [c])
          = items_of (written_record manifest frontier <$> cs) ++ chunk) as Hsnoc.
  { intros manifest frontier. rewrite fmap_app. unfold items_of.
    rewrite omap_app, concat_app. f_equal. cbn [fmap list_fmap omap list_omap].
    change (record_items (written_record manifest frontier c))
      with (value_get "items" (chunk_payload (item_index p) chunk) ≫= as_array).
    rewrite Hgc. cbn. by rewrite app_nil_r. }
  split.
  - rewrite <- Hw3. by destruct Hsf2.
  - rewrite <- Hw3. cbn [next_seq]. rewrite Hseq2, Hseq, length_app. cbn. lia.
  - by rewrite <- Hw3.
  - apply Forall_app. split; [done |]. constructor; [|done]. split; [done |].
    exists chunk. split_and!; try done. destruct chunk; [done | cbn; lia].
  - intros manifest frontier. rewrite fmap_app, fold_result_app, Hvalidator. cbn [mbind result_bind].
    cbn [fmap list_fmap fold_result]. unfold accept_record.
    assert (chunk_descriptor (in_batch_id b) (written_record manifest frontier c)
            = Ok (chunk_descriptor_of b (item_index p) chunk line)) as ->.
    { unfold chunk_descriptor, u64_field. rewrite !payload_object_get by done. cbn [record written_record envelope fst c payload envelope_of].
      rewrite Hgi, Hgc. cbn. rewrite (proj2 (N.leb_le _ _)); [done |].
      unfold DEFAULT_MAX_BATCH_CHUNK_ITEMS, u32_max in *. lia. }
    cbn [mbind result_bind]. by rewrite Haccept.
  - rewrite accept_chunk_run in Haccept. destruct (check_chunk _ _) as [[h n]|] eqn:Hcheck; [|done].
    apply check_chunk_Ok in Hcheck as (_ & _ & ->). injection Haccept as <-. cbn.
    by rewrite Hindex, Hnext.
  - intros manifest frontier rest Hr. rewrite (Hitems manifest frontier _ (Hstream _ Hr)).
    by rewrite Hsnoc, <- app_assoc.
  - intros manifest frontier. rewrite Hsnoc, length_app, Hindex, (Hcount manifest frontier). lia.
  - done.
Qed.
End loop.

(** ** The whole segment *)

(** What the segment of a batch holds. *)
Record segment_written (first : N) (previous : option string) (items : stream) (f : SegmentFile)
    (start complete : V2RecordEnvelope * bytes) (cs : list (V2RecordEnvelope * bytes)) : Prop := {
  sw_records : so_far first previous (file f) (start :: cs ++ [complete]);
  sw_seq : next_seq (file f) = (first + N.of_nat (S (length cs)))%N ∧
    (next_seq (file f) <= u64_max)%N;
  sw_start : of_batch BatchStart start.1 ∧ payload start.1 = start_payload b;
  sw_complete : of_batch BatchComplete complete.1 ∧ ∃ digest,
    payload complete.1 = complete_payload (items_written f) digest ∧
    ∀ manifest frontier, ∃ fresh v, new (in_batch_id b) default_limits = Ok fresh ∧
      fold_result (accept_record (in_batch_id b)) fresh (written_record manifest frontier <$> cs)
        = Ok v ∧
      validate_completion v {| total_items := items_written f; completion_digest := digest |}
        = Ok ();
  sw_first : file_first_id f = record_id start.1 ∧ file_first_hash f = blake3_identifier start.2;
  sw_last : file_last_id f = record_id complete.1 ∧
    file_last_hash f = blake3_identifier complete.2;
  sw_chunks : Forall (λ c, of_batch BatchChunk c.1 ∧ bounded_chunk c) cs;
  sw_items : ∀ manifest frontier,
    compact_all b items = Ok (items_of (written_record manifest frontier <$> cs));
  sw_count : ∀ manifest frontier,
    items_written f = N.of_nat (length (items_of (written_record manifest frontier <$> cs)));
}.

Lemma write_start_Ok first previous id h w :
  json_readable 125 (in_context b) → json_readable 125 (in_defaults b) → starts_at first previous →
  write_start lower_ulid b id (new_writer first previous) = Ok (h, w) →
  ∃ line, let e := envelope_of lower_ulid b (new_writer first previous) id BatchStart
                     (start_payload b) in
    h = blake3_identifier line ∧ so_far first previous w [(e, line)] ∧
    next_seq w = (first + 1)%N ∧ (first + 1 <= u64_max)%N.
Proof using All.
  intros Hcontext Hdefault Hstart Hrun. unfold write_start in Hrun.
  apply bind_Ok in Hrun as (line & Hline%canonical_json_Ok & Hrun).
  apply bind_Ok in Hrun as ([] & _ & Hrun).
  apply bind_Ok in Hrun as (w1 & Hw1 & Hrun). apply bind_Ok in Hrun as (w2 & Hw2 & Hrun).
  apply bind_Ok in Hrun as (w3 & Hw3 & [= <- <-]). unfold advance_seq in Hw3.
  apply bind_Ok in Hw3 as (seq & [-> Hmax]%ok_or_Ok%checked_add_u64_Some & [= <-]).
  edestruct (so_far_write first previous (new_writer first previous) [] id BatchStart
    (start_payload b) line w1 w2) as [Hsf Hseq]; try done.
  - split; cbn; try done. by exists [].
  - cbn. lia.
  - by apply start_payload_readable.
  - exists line. split; [done |]. split; [by destruct Hsf |]. cbn. rewrite Hseq in *. done.
Qed.

Lemma write_complete_Ok first previous items fresh start p cs h w :
  starts_at first previous → new (in_batch_id b) default_limits = Ok fresh →
  packed first previous items fresh start p cs →
  write_complete lower_ulid b p = Ok (h, w) →
  ∃ digest line v, let e := envelope_of lower_ulid b (writer p) (next_id p) BatchComplete
                              (complete_payload (item_index p) digest) in
    h = blake3_identifier line ∧ so_far first previous w (start :: cs ++ [(e, line)]) ∧
    next_seq w = (first + N.of_nat (S (length cs)))%N ∧ (next_seq w <= u64_max)%N ∧
    v = validator p ∧
    validate_completion v {| total_items := item_index p; completion_digest := digest |} = Ok ().
Proof using All.
  intros Hstart Hfresh Hp Hrun. unfold write_complete in Hrun.
  apply bind_Ok in Hrun as ([] & _ & Hrun).
  apply bind_Ok in Hrun as (digest & Hdigest%map_err_Ok & Hrun).
  apply bind_Ok in Hrun as (line & Hline%canonical_json_Ok & Hrun).
  apply bind_Ok in Hrun as ([] & _ & Hrun).
  apply bind_Ok in Hrun as (w1 & Hw1 & Hrun). apply bind_Ok in Hrun as (w2 & Hw2 & [= <- <-]).
  destruct Hp as [Hsf Hseq Hmax _ _ Hnext _ _ _].
  destruct (so_far_write first previous (writer p) (start :: cs) (next_id p) BatchComplete
    (complete_payload (item_index p) digest) line w1 w2) as [Hsf2 Hseq2]; try done.
  { apply complete_payload_readable. }
  exists digest, line, (validator p). split_and!; try done.
  - by rewrite Hseq2.
  - by rewrite Hseq2.
  - unfold validate_completion. rewrite Hdigest. unfold ordered_item_digest in Hdigest.
    apply bind_Ok in Hdigest as ([] & Hcount & _). rewrite Hcount. cbn [mbind result_bind total_items completion_digest].
    rewrite Hnext, N.eqb_refl. cbn. by rewrite bool_decide_eq_true_2.
Qed.

Lemma write_segment_Ok first previous items fuel f :
  validate_item_defaults (in_schema b) (in_defaults b) = Ok () →
  json_readable 125 (in_context b) → json_readable 125 (in_defaults b) →
  stream_all (json_readable 124) items → starts_at first previous →
  write_segment lower_ulid b first previous items fuel = Some (Ok f) →
  ∃ start complete cs, segment_written first previous items f start complete cs.
Proof using All.
  intros Hdefaults Hcontext Hdefault Hitems Hstart Hrun. unfold write_segment in Hrun.
  match type of Hrun with match ?m with _ => _ end = _ =>
    destruct m as [[first_hash p0]|e] eqn:Hp0; [|done] end.
  apply bind_Ok in Hp0 as ([h w0] & Hw0 & Hp0).
  apply bind_Ok in Hp0 as (fresh & Hfresh%map_err_Ok & [= <- <-]).
  apply write_start_Ok in Hw0 as (line0 & -> & Hsf & Hseq & Hmax); [|done..].
  set (start := (envelope_of _ _ _ _ _ _, line0)) in *.
  destruct (pack_chunks _ _ _ _) as [[p|]|] eqn:Hpack; [|done..].
  apply (pack_chunks_ind lower_ulid b Hdefaults
      (λ p, ∃ cs, packed first previous items fresh start p cs) fuel)
    in Hpack as [[cs Hp] Hleft]; cycle 1.
  { intros q q' chunk line k [cs Hq] Hqq'. eexists. by eapply packed_step. }
  { exists []. apply new_inv in Hfresh as [[_ _ Hnext _ _ _] _]. split; cbn [writer next_seq item_index items_left validator]; try done. by rewrite Hseq. }
  injection Hrun as Hrun. apply bind_Ok in Hrun as ([last_hash w] & Hcomplete & [= <-]).
  destruct (write_complete_Ok _ _ _ _ _ _ _ _ _ Hstart Hfresh Hp Hcomplete)
    as (digest & line & v & -> & Hsf' & Hseq' & Hmax' & -> & Hv).
  destruct Hp as [_ _ _ Hchunks Hvalidator _ Hall Hcount _].
  exists start. eexists _, cs. split; cbn [file items_written file_first_id file_last_id file_first_hash file_last_hash]; try done.
  - split; [done |]. exists digest. split; [done |]. intros manifest frontier.
    by exists fresh, (validator p).
  - intros manifest frontier. rewrite (Hall manifest frontier []); [by rewrite app_nil_r |].
    by rewrite Hleft.
Qed.

(** ** The manifest and its reader *)

Lemma create_manifest_verifies body key m :
  create_manifest body key = Ok m →
  manifest_body m = body ∧ verify_manifest m (verifying_key key) = Ok ().
Proof using All.
  unfold create_manifest. intros ([] & Hbody & (message & Hmessage & [= <-])%bind_Ok)%bind_Ok.
  split; [done |]. unfold verify_manifest. cbn. rewrite Hbody, base64_decode_encode. cbn.
  rewrite signature_wellformed. cbn. rewrite Hmessage. cbn. by rewrite verify_sign.
Qed.

(** The reader's loop over lines that continue the chain. *)
Lemma read_lines_linked origin mh fh path seq previous acc rs :
  linked origin seq previous rs → Forall (λ r, exact_line_bytes r ≠ []) rs →
  Forall (λ r, record_manifest_hash r = mh ∧ causal_frontier_hash r = fh) rs →
  (seq + N.of_nat (length rs) <= u64_max)%N →
  fold_result (read_line origin mh fh path) (seq, previous, acc) (exact_line_bytes <$> rs)
  = Ok ((seq + N.of_nat (length rs))%N, last_hash previous rs, acc ++ rs).
Proof using.
  revert seq previous acc. induction rs as [|r rs IH]; intros seq previous acc Hl Hne Hfrom Hmax.
  { cbn. by rewrite N.add_0_r, app_nil_r. }
  destruct Hl as (Hat & Hhash & Hl). apply Forall_cons in Hne as [Hr Hne].
  apply Forall_cons in Hfrom as [[? ?] Hfrom]. cbn [length] in Hmax.
  rewrite fmap_cons. cbn [fold_result].
  rewrite (proj2 (read_line_Ok origin mh fh path seq previous acc (exact_line_bytes r)
    (seq + 1) (Some (record_hash (record r))) (acc ++ [r]))).
  - cbn [mbind result_bind]. rewrite IH; [|done.. | clear -Hmax; lia]. rewrite <- app_assoc. cbn [app length].
    assert (seq + 1 + N.of_nat (length rs) = seq + N.of_nat (S (length rs)))%N as ->
      by (clear; lia).
    change (r :: rs) with ([r] ++ rs). by rewrite last_hash_app.
  - exists r. split_and!; try done. clear -Hmax; lia.
Qed.

(** The segment read back: every check of the reader on the file's bytes and records. *)
Lemma segment_reads first previous items f start complete cs mh fh path :
  segment_written first previous items f start complete cs → (next_seq (file f) < u64_max)%N →
  fold_result (read_line (in_origin b) mh fh path) (first, previous, [])
    (segment_lines (file_bytes (file f)))
  = Ok ((next_seq (file f) + 1)%N,
        last_hash previous (written_record mh fh <$> (start :: cs ++ [complete])),
        written_record mh fh <$> (start :: cs ++ [complete])).
Proof using All.
  intros [[Hlines _ _ _ Hchain _ Hclean] [Hseq _] _ _ _ _ _ _ _] Hmax.
  unfold file_bytes. rewrite segment_lines_concat; rewrite Hlines; cycle 1.
  { done. }
  { eapply Forall_impl; [exact Hclean |]. by intros line [_ ?]. }
  set (rs := start :: cs ++ [complete]) in *.
  assert (rs.*2 = exact_line_bytes <$> (written_record mh fh <$> rs)) as Heq
    by (rewrite <- list_fmap_compose; by apply list_fmap_ext).
  assert (next_seq (file f) + 1 = first + N.of_nat (length (written_record mh fh <$> rs)))%N as Hlen
    by (subst rs; rewrite length_fmap, Hseq; cbn; rewrite length_app; cbn; lia).
  rewrite Heq, (read_lines_linked _ _ _ _ _ _ [] _ (Hchain mh fh)), Hlen; [done | | | lia].
  - rewrite Heq in Hclean. rewrite Forall_fmap in Hclean. eapply Forall_impl; [exact Hclean |].
    by intros r [? _].
  - apply Forall_fmap. by apply Forall_true.
Qed.

(** A tree that serves the files of [disk]. *)
Definition serves (root : Tree) (disk : Disk) : Prop :=
  ∀ path content, disk !! path = Some content → tree_read root path = Ok content.

Lemma bool_decide_same {A} `{EqDecision A} (x : A) : bool_decide (x = x) = true.
Proof using. by apply bool_decide_eq_true. Qed.

Lemma so_far_blake3 first previous w rs :
  so_far first previous w rs →
  blake3_identifier (file_bytes w) = "blake3:" +:+ hasher_finalize_hex (segment_hasher w).
Proof using All.
  intros [_ (pieces & -> & Hc) _ _ _ _ _]. rewrite hasher_stream, Hc. done.
Qed.

Lemma sealed_verifies verified tail key first previous items f start complete cs
    m hash manifest_bytes root w path :
  segment_written first previous items f start complete cs → (next_seq (file f) < u64_max)%N →
  create_manifest (seal_body verified tail b first f) key = Ok m →
  manifest_hash m = Ok hash → to_json m = Ok manifest_bytes →
  tree_read root path = Ok manifest_bytes →
  tree_read root (segment_relative_path (in_origin b) first) = Ok (file_bytes (file f)) →
  expected_seq w = first → previous_record w = previous →
  previous_manifest w = segment_manifest_hash <$> tail →
  verify_segment root (Archive.genesis verified) (archive_genesis_hash verified)
    (verifying_key key) (next_tail b f hash) w path
  = Ok ({| expected_seq := next_seq (file f) + 1;
           previous_record := Some (file_last_hash f); previous_manifest := Some hash;
           verified_segments := verified_segments w + 1;
           output := output w ++
             (written_record hash (accepted_frontier_hash verified) <$>
              (start :: cs ++ [complete])) |}, true).
Proof using All.
  intros Hsw Hmax [Hbody Hverify]%create_manifest_verifies Hhash Hjson Hmanifest Hsegment Hseq Hprev Hpm.
  destruct (sw_records _ _ _ _ _ _ _ Hsw) as [Hlines _ Hbytes Hcount _ Hprevious Hclean].
  pose proof (so_far_blake3 _ _ _ _ (sw_records _ _ _ _ _ _ _ Hsw)) as Hblake.
  destruct (sw_first _ _ _ _ _ _ _ Hsw) as [Hfid Hfh].
  destruct (sw_last _ _ _ _ _ _ _ Hsw) as [Hlid Hlh].
  set (rs := written_record hash (accepted_frontier_hash verified) <$> (start :: cs ++ [complete])).
  assert (head rs = Some (written_record hash (accepted_frontier_hash verified) start)) as Hhead by done.
  assert (last rs = Some (written_record hash (accepted_frontier_hash verified) complete)) as Hlast.
  { subst rs. rewrite app_comm_cons, fmap_app. exact (last_snoc _ _). }
  assert (length rs = length (start :: cs ++ [complete])) as Hlen by apply length_fmap.
  assert (N.of_nat (length rs) = written_records (file f)) as Hlen' by by rewrite Hlen.
  assert (next_seq (file f) = origin_seq complete.1) as Hls.
  { pose proof (linked_last_seq _ _ _ _ _
      (sf_chain _ _ _ _ (sw_records _ _ _ _ _ _ _ Hsw) hash (accepted_frontier_hash verified))
      Hlast) as Hl.
    rewrite (proj1 (sw_seq _ _ _ _ _ _ _ Hsw)). fold rs in Hl. rewrite Hlen in Hl. cbn in Hl.
    rewrite length_app in Hl. cbn in Hl. clear -Hl. lia. }
  unfold verify_segment, read_file, parse_json, canonical_json.
  rewrite Hmanifest. cbn [map_err mbind result_bind].
  rewrite (manifest_json_read m manifest_bytes Hjson). cbn [map_err mbind result_bind].
  rewrite Hjson. cbn [map_err mbind result_bind].
  rewrite bool_decide_same. cbn [negb bail_if mbind result_bind]. rewrite Hverify, Hhash, Hbody.
  cbn [seal_body manifest_archive_id manifest_genesis_hash manifest_origin_id segment_path
    Segment.first_seq Segment.last_seq previous_segment_manifest_hash next_tail Frontier.origin_id
    mbind result_bind Segment.segment_blake3 Segment.segment_bytes causal_base_frontier_hash
    Segment.first_record_id Segment.last_record_id Segment.first_record_hash
    Segment.last_record_hash Segment.record_count segment_manifest_hash Frontier.seq event_hash].
  rewrite Hseq, Hpm, Hprev, !bool_decide_same, !N.eqb_refl. cbn [negb orb bail_if mbind result_bind].
  rewrite Hsegment. cbn [map_err mbind result_bind].
  assert (ends_with_newline (file_bytes (file f)) = true) as Hnl
    by (apply file_ends_with_newline; by rewrite Hlines).
  rewrite Hblake, Hbytes, bool_decide_same, N.eqb_refl, Hnl. cbn [negb orb bail_if mbind result_bind].
  rewrite (segment_reads _ _ _ _ _ _ _ _ _ _ Hsw Hmax). cbn [mbind result_bind].
  fold rs. rewrite Hhead, Hlast. cbn [ok_or mbind result_bind].
  cbn [written_record record envelope Record.record_hash].
  rewrite <- Hls, <- Hfid, <- Hlid, <- Hfh, <- Hlh, <- Hlen', !bool_decide_same, !N.eqb_refl.
  cbn [negb orb bail_if mbind result_bind]. rewrite decide_True by done.
  do 3 f_equal. unfold last_hash. rewrite Hlast. cbn. by rewrite Hlh.
Qed.

(** ** The batch and its reader *)

Lemma collect_chunks id entry cs :
  Forall (λ r, id_of r = id ∧ record_kind (envelope (record r)) = BatchChunk) cs →
  fold_result collect_record {[id := entry]} cs
  = Ok {[id := {| Batches.start := Batches.start entry; chunks := chunks entry ++ cs;
                  complete := complete entry |}]}.
Proof using.
  intros Hcs. revert entry. induction Hcs as [|r cs [Hid Hkind] _ IH]; intros entry; cbn [fold_result].
  { rewrite app_nil_r. by destruct entry. }
  assert (collect_record {[id := entry]} r
    = Ok {[id := {| Batches.start := Batches.start entry; chunks := chunks entry ++ [r];
                    complete := complete entry |}]}) as ->.
  { unfold collect_record. by rewrite Hkind, Hid, lookup_singleton_eq, insert_singleton_eq. }
  cbn [mbind result_bind].
  etrans; [apply IH |]. cbn. by rewrite <- app_assoc.
Qed.

(** One batch alone in a stream is checked as one entry. *)
Lemma verify_one_batch id s cs c :
  id_of s = id → record_kind (envelope (record s)) = BatchStart →
  Forall (λ r, id_of r = id ∧ record_kind (envelope (record r)) = BatchChunk) cs →
  id_of c = id → record_kind (envelope (record c)) = BatchComplete →
  check_batch id {| Batches.start := Some s; chunks := cs; complete := Some c |} = Ok () →
  verify_batches (s :: cs ++ [c]) = Ok ().
Proof using.
  intros Hs Hsk Hcs Hc Hck Hcheck. unfold verify_batches. cbn [fold_result].
  assert (collect_record ∅ s = Ok {[id := {| Batches.start := Some s; chunks := [];
                                             complete := None |}]}) as ->.
  { unfold collect_record. by rewrite Hsk, Hs, lookup_empty, insert_empty. }
  cbn [mbind result_bind]. rewrite fold_result_app, collect_chunks by done.
  cbn [mbind result_bind fold_result].
  assert (collect_record {[id := {| Batches.start := Some s; chunks := [] ++ cs;
                                    complete := None |}]} c
    = Ok {[id := {| Batches.start := Some s; chunks := cs; complete := Some c |}]}) as Hlast.
  { unfold collect_record. by rewrite Hck, Hc, lookup_singleton_eq, insert_singleton_eq. }
  cbn [Batches.start chunks complete]. rewrite Hlast. cbn [mbind result_bind].
  unfold btree_keys. rewrite map_to_list_singleton. cbn -[check_batch].
  rewrite lookup_singleton_eq. cbn -[check_batch]. by rewrite Hcheck.
Qed.

Lemma get_start_payload :
  value_get "causal_frontier_hash" (start_payload b) = Some (Str (in_frontier_hash b)).
Proof using.
  unfold start_payload. rewrite value_get_json_object; [done |].
  apply (bool_decide_unpack _). by vm_compute.
Qed.

Lemma get_complete_payload total digest :
  value_get "total_items" (complete_payload total digest) = Some (Num (PosInt total)) ∧
  value_get "ordered_item_digest" (complete_payload total digest) = Some (Str digest) ∧
  value_get "status" (complete_payload total digest) = Some (Str "complete").
Proof using.
  unfold complete_payload. rewrite !value_get_json_object; [done | | |];
    apply (bool_decide_unpack _); by vm_compute.
Qed.

(** The records are numbered from the first to the last. *)
Lemma written_order first previous items f start complete cs mh fh :
  segment_written first previous items f start complete cs →
  let wr := written_record mh fh in
  (seq_of (wr start) < seq_of (wr complete))%N ∧
  ∀ c, c ∈ cs → (seq_of (wr start) < seq_of (wr c) < seq_of (wr complete))%N.
Proof using All.
  intros Hsw wr.
  pose proof (sf_chain _ _ _ _ (sw_records _ _ _ _ _ _ _ Hsw) mh fh) as Hl.
  assert (∀ j r, (start :: cs ++ [complete]) !! j = Some r →
    seq_of (wr r) = (first + N.of_nat j)%N) as Hseq.
  { intros j r Hj. apply (linked_seq _ _ _ _ _ _ Hl). by rewrite list_lookup_fmap, Hj. }
  rewrite (Hseq 0 start), (Hseq (S (length cs)) complete); [| |done]; cycle 1.
  { change ((cs ++ [complete]) !! length cs = Some complete).
    by rewrite lookup_app_r, Nat.sub_diag. }
  split; [clear; lia |]. intros c [i Hi]%list_elem_of_lookup_1.
  pose proof (lookup_lt_Some _ _ _ Hi) as Hlt. rewrite (Hseq (S i) c); [clear -Hlt; lia |].
  change ((cs ++ [complete]) !! i = Some c). by rewrite lookup_app_l.
Qed.

(** Only the chunks hold items. *)
Lemma items_of_whole start complete cs mh fh total digest :
  payload start.1 = start_payload b → payload complete.1 = complete_payload total digest →
  items_of (written_record mh fh <$> (start :: cs ++ [complete]))
  = items_of (written_record mh fh <$> cs).
Proof using.
  intros Hs Hc. rewrite fmap_cons, fmap_app. unfold items_of. cbn [omap list_omap fmap list_fmap].
  assert (record_items (written_record mh fh start) = None) as ->.
  { unfold record_items. change (payload (envelope (record (written_record mh fh start))))
      with (payload start.1). rewrite Hs. unfold start_payload.
    rewrite value_get_json_object; [done |]. apply (bool_decide_unpack _). by vm_compute. }
  rewrite omap_app. cbn [omap list_omap].
  assert (record_items (written_record mh fh complete) = None) as ->.
  { unfold record_items. change (payload (envelope (record (written_record mh fh complete))))
      with (payload complete.1). rewrite Hc. unfold complete_payload.
    rewrite value_get_json_object; [done |]. apply (bool_decide_unpack _). by vm_compute. }
  by rewrite app_nil_r.
Qed.

Lemma written_batch_verifies first previous items f start complete cs mh :
  segment_written first previous items f start complete cs →
  verify_batches (written_record mh (in_frontier_hash b) <$> (start :: cs ++ [complete])) = Ok ().
Proof using All.
  intros Hsw. destruct (written_order _ _ _ _ _ _ _ mh (in_frontier_hash b) Hsw) as [Hlt Horder].
  destruct Hsw as [_ _ [(Hsk & Hsb & Hso) Hspayload]
    [(Hck & Hcb & Hco) (digest & Hcpayload & Hvalid)] _ _ Hchunks _ _].
  destruct (Hvalid mh (in_frontier_hash b)) as (fresh & v & Hfresh & Hfold & Hcomplete).
  destruct (get_complete_payload (items_written f) digest) as (Ht & Hd & Hst).
  rewrite fmap_cons, fmap_app. cbn [fmap list_fmap]. apply (verify_one_batch (in_batch_id b)); try done.
  { apply Forall_fmap. eapply Forall_impl; [exact Hchunks |]. intros c [(? & ? & _) _]. done. }
  set (s := written_record _ _ start) in *. set (c := written_record _ _ complete) in *.
  assert (origin_of s = in_origin b) as Hs by done. assert (origin_of c = in_origin b) as Hc by done.
  assert (existsb (λ chunk, negb (bool_decide (origin_of chunk = origin_of s))
            || (seq_of chunk <=? seq_of s)%N || (seq_of c <=? seq_of chunk)%N)
            (written_record mh (in_frontier_hash b) <$> cs) = false) as Hexists.
  { apply existsb_false. intros r (r' & -> & Hr')%list_elem_of_fmap.
    destruct (Horder r' Hr') as [? ?]. rewrite Forall_forall in Hchunks.
    destruct (Hchunks r' Hr') as [(_ & _ & Ho) _]. rewrite Hs, <- Ho, bool_decide_same.
    apply orb_false_iff. split; [apply orb_false_iff; split; [done |] |]; by apply N.leb_gt. }
  assert (is_object (payload (envelope (record s))) = true) as Hsobj
    by (change (is_object (payload start.1) = true); by rewrite Hspayload).
  assert (is_object (payload (envelope (record c))) = true) as Hcobj
    by (change (is_object (payload complete.1) = true); by rewrite Hcpayload).
  unfold check_batch. cbn [Batches.start Batches.complete Batches.chunks ok_or mbind result_bind].
  rewrite Hexists, Hs, Hc, bool_decide_same, (proj2 (N.leb_gt _ _) Hlt).
  cbn [negb orb bail_if mbind result_bind].
  unfold string_field, u64_field. rewrite !payload_object_get by done.
  change (payload (envelope (record s))) with (payload start.1).
  change (payload (envelope (record c))) with (payload complete.1).
  rewrite Hspayload, Hcpayload, get_start_payload, Ht, Hd, Hst. cbn -[new validate_completion accept_record].
  rewrite bool_decide_same. cbn [negb bail_if mbind result_bind].
  rewrite Hfresh. cbn [map_err mbind result_bind]. rewrite Hfold.
  cbn [map_err mbind result_bind]. rewrite Hcomplete. cbn [map_err mbind result_bind].
  by rewrite bool_decide_same.
Qed.
End sealing.

(** ** Sealing changes the tree by four files *)

(** What [seal] returns and writes. *)
Record sealed `{Blake3, Base64, Ed25519, ToJson SegmentManifestBody,
    ToJson SignedSegmentManifest, ToJson CausalFrontier}
    (verified : VerifiedV2Archive) (tail : option OriginFrontier) (key : SigningKey)
    (b : BatchInput) (first : N) (f : SegmentFile) (disk : Disk) (res : V2AppendResult)
    (disk' : Disk) (m : SignedSegmentManifest) (content : bytes) : Prop := {
  se_manifest : create_manifest (seal_body verified tail b first f) key = Ok m ∧
    manifest_hash m = Ok (result_manifest_hash res) ∧ to_json m = Ok content;
  se_result : result_first_seq res = first ∧ result_last_seq res = next_seq (file f) ∧
    records_written res = written_records (file f) ∧ result_items res = items_written f;
  se_segment_file : disk' !! segment_relative_path (in_origin b) first = Some (file_bytes (file f));
  se_manifest_file : disk' !! manifest_relative_path (in_origin b) first = Some content;
  se_frontier : let successor := successor_frontier verified
                                   (next_tail b f (result_manifest_hash res)) in
    frontier_hash successor = Ok (result_frontier_hash res) ∧
    ∃ path content, frontier_path (result_frontier_hash res) = Ok path ∧
      Frontier.canonical_bytes successor = Ok content ∧ disk' !! path = Some content;
  se_head : disk' !! "frontiers/v2/HEAD" = Some (as_bytes (result_frontier_hash res +:+ newline));
  se_kept : ∀ path content, disk !! path = Some content → path ≠ "frontiers/v2/HEAD" →
    path ≠ segment_relative_path (in_origin b) first → disk' !! path = Some content;
}.

Lemma write_new_synced_Ok path content disk disk' :
  write_new_synced path content disk = Ok disk' →
  disk !! path = None ∧ disk' = <[path := content]> disk.
Proof. unfold write_new_synced. case_match; naive_solver. Qed.

Lemma seal_Ok `{Blake3, Base64, Ed25519, ToJson SegmentManifestBody,
    ToJson SignedSegmentManifest, ToJson CausalFrontier}
    verified tail key b first f disk res disk' :
  seal verified tail key b first f disk = Ok (res, disk') →
  ∃ m content, sealed verified tail key b first f disk res disk' m content.
Proof.
  unfold seal. intros (m & Hm & Hrun)%bind_Ok.
  apply bind_Ok in Hrun as (hash & Hhash & Hrun).
  apply bind_Ok in Hrun as (content & Hcontent%canonical_json_Ok & Hrun).
  apply bind_Ok in Hrun as (disk1 & [Hm1 ->]%write_new_synced_Ok & Hrun).
  apply bind_Ok in Hrun as (accepted & Haccepted%map_err_Ok & Hrun).
  apply bind_Ok in Hrun as (disk2 & Hfrontier & [= <- <-]).
  unfold write_frontier in Hfrontier.
  apply bind_Ok in Hfrontier as (h & Hh%map_err_Ok & Hfrontier).
  rewrite Haccepted in Hh. injection Hh as <-.
  apply bind_Ok in Hfrontier as (path & Hpath & Hfrontier).
  apply bind_Ok in Hfrontier as (fcontent & Hfcontent%map_err_Ok & Hfrontier).
  apply write_new_synced_Ok in Hfrontier as [Hnone ->].
  pose proof Hpath as (hex & _ & _ & Hpathname)%frontier_path_Ok.
  set (seg := segment_relative_path (in_origin b) first) in *.
  set (man := manifest_relative_path (in_origin b) first) in *.
  assert (seg ≠ man) as Hsm by done. assert (path ≠ seg) as Hps by by subst path.
  assert (path ≠ man) as Hpm by by subst path.
  assert (path ≠ "frontiers/v2/HEAD") as Hph by by subst path.
  assert (seg ≠ "frontiers/v2/HEAD") as Hsh by done.
  assert (man ≠ "frontiers/v2/HEAD") as Hmh by done.
  exists m, content. unfold replace_synced. split; cbn [result_first_seq result_last_seq
    records_written result_items result_manifest_hash result_frontier_hash]; try done.
  - fold seg. rewrite !lookup_insert_ne by congruence. apply lookup_insert_eq.
  - fold man. rewrite !lookup_insert_ne by congruence. apply lookup_insert_eq.
  - split; [done |]. exists path, fcontent. split_and!; try done.
    rewrite lookup_insert_ne by congruence. apply lookup_insert_eq.
  - apply lookup_insert_eq.
  - intros p c Hp Hhead Hseg. fold seg in Hseg. rewrite lookup_insert_ne by congruence.
    assert (p ≠ path) by (intros ->; rewrite !lookup_insert_ne in Hnone by congruence; congruence).
    rewrite lookup_insert_ne by congruence.
    assert (p ≠ man) by (intros ->; rewrite lookup_insert_ne in Hm1 by congruence; congruence).
    by rewrite !lookup_insert_ne by congruence.
Qed.

(** ** The successor frontier *)

Lemma set_tail_Some tail os os' :
  set_tail tail os = Some os' → ∃ l o r, os = l ++ o :: r ∧ os' = l ++ tail :: r ∧
    Frontier.origin_id o = Frontier.origin_id tail.
Proof.
  revert os'. induction os as [|o os IH]; cbn; intros os' Hrun; [done |]. case_decide.
  - simplify_eq. by exists [], o, os.
  - destruct (set_tail tail os) as [os1|]; [|done]. injection Hrun as <-.
    destruct (IH os1 eq_refl) as (l & o' & r & -> & -> & ?). by exists (o :: l), o', r.
Qed.

Lemma set_tail_None tail os :
  set_tail tail os = None → Frontier.origin_id tail ∉ Frontier.origin_id <$> os.
Proof.
  induction os as [|o os IH]; cbn; [set_solver |]. case_decide; [done |].
  intros Hn%fmap_None. apply not_elem_of_cons. split; [congruence | auto].
Qed.

(** The origin's tail is replaced or added; the other origins stay. *)
Lemma advance_tail_keeps tail os o :
  key_sorted Frontier.origin_id os → o ∈ os → o ∈ advance_tail tail os ∨
  (Frontier.origin_id o = Frontier.origin_id tail ∧ tail ∈ advance_tail tail os).
Proof.
  intros Hs Ho. unfold advance_tail. destruct (set_tail tail os) as [os'|] eqn:Hset; cbn.
  - apply set_tail_Some in Hset as (l & o' & r & -> & -> & Hid).
    apply elem_of_app in Ho as [Ho | [-> | Ho]%elem_of_cons]; [set_solver | set_solver | set_solver].
  - left. rewrite merge_sort_Permutation. set_solver.
Qed.

Lemma find_origin_elem os id o : find_origin os id = Some o → o ∈ os ∧ Frontier.origin_id o = id.
Proof. unfold find_origin. intros [? ?]%head_Some_elem_of%list_elem_of_filter. done. Qed.

Lemma find_origin_None os id o : find_origin os id = None → o ∈ os → Frontier.origin_id o ≠ id.
Proof.
  unfold find_origin. rewrite head_None. intros Hn Ho Hid.
  assert (o ∈ filter (λ o, Frontier.origin_id o = id) os) as Hin by by apply list_elem_of_filter.
  rewrite Hn in Hin. by apply elem_of_nil in Hin.
Qed.

(** One turn of the packing loop for each item, and one to see that none is left. *)
Definition enough_turns (items : stream) (fuel : nat) : Prop := length items < fuel.

(** What an append needs of the archive it builds on, however that was verified: the accepted
    frontier is well-formed, under its hash and of this archive, and the clients' identifiers
    are the hashes of their keys. *)
Record trusted_base `{Blake3, Ed25519, ToJson CausalFrontier} (a : VerifiedV2Archive) : Prop := {
  tb_side : side_ok a;
  tb_clients : registry_ok (clients a);
}.

(** A record of a chain is one at its position. *)
Lemma linked_at `{Blake3, UlidCrate, FromJson V2RecordEnvelope} origin seq previous rs i r :
  linked origin seq previous rs → rs !! i = Some r →
  ∃ previous', record_at (exact_line_bytes r) origin (seq + N.of_nat i) previous'
    DEFAULT_MAX_V2_RECORD_BYTES (envelope (record r)).
Proof.
  revert seq previous i. induction rs as [|r' rs IH]; intros seq previous [|i] Hl Hi; try done.
  - injection Hi as ->. destruct Hl as [Hat _]. rewrite N.add_0_r. by eexists.
  - destruct Hl as (_ & _ & Hl). replace (seq + N.of_nat (S i))%N with (seq + 1 + N.of_nat i)%N by lia.
    by eapply IH.
Qed.

(** ** The theorems *)

Section append.
Context `{Blake3Laws, UlidCrate, Base64, Ed25519,
  ToJson V2RecordEnvelope, FromJson V2RecordEnvelope, ToJson Value, ToJson SegmentManifestBody,
  ToJson SignedSegmentManifest, FromJson SignedSegmentManifest, ToJson GenesisBody,
  ToJson SignedGenesis, FromJson SignedGenesis, ToJson CausalFrontier, FromJson CausalFrontier,
  ToJson CoordinationLeaseBody, FromValue SignedCoordinationLease}.
Context `{!RecordJsonLaws, !ManifestJsonLaws, !Base64Laws, !Ed25519Laws}.
Context (lower_ulid : nat → string) (verified : VerifiedV2Archive).
Context (origin : string) (key : SigningKey) (time : N) (operation_kind : string) (schema : N).
Context (context defaults : Value) (items : stream) (fuel : nat) (disk : Disk).

Abbreviation tail := (find_origin (origins (accepted_frontier verified)) origin).
Abbreviation input :=
  (batch_input lower_ulid verified origin time operation_kind schema context defaults).
Abbreviation run :=
  (append_verified lower_ulid verified origin key time operation_kind schema context defaults
    items fuel disk).

(** The base can be built on, and what is appended can be read back. *)
Record appendable : Prop := {
  ap_verified : trusted_base verified;
  ap_ulids : ulids_ok lower_ulid;
  ap_context : json_readable 125 context;
  ap_defaults : json_readable 125 defaults;
  ap_items : stream_all (json_readable 124) items;
}.

(** A full verification is such a base. *)
Lemma verified_base depth root : verify_archive depth root = Ok verified → trusted_base verified.
Proof.
  intros Hv. split; [by eapply archive_side_ok |]. by apply (ao_registry _ _ (verify_archive_Ok _ _ _ Hv)).
Qed.

(** The origin's tail in the frontier the append leaves. *)
Definition appended_tail (res : V2AppendResult) (event : string) : OriginFrontier := {|
  Frontier.origin_id := origin; Frontier.seq := result_last_seq res; event_hash := event;
  segment_manifest_hash := result_manifest_hash res
|}.

Lemma tail_starts first :
  appendable → first_sequence tail = Ok first → starts_at first (event_hash <$> tail).
Proof.
  intros [[[Hwf _ _ _] _] _ _ _ _] [-> _]%ok_or_Ok%checked_add_u64_Some.
  unfold starts_at. destruct tail as [t|] eqn:Ht; cbn.
  - apply find_origin_elem in Ht as [Ht _]. destruct (wf_origins _ Hwf t Ht) as [_ Hseq Hevent _].
    split_and!; [lia | split; [done | lia] | congruence].
  - by split_and!.
Qed.

Lemma append_Ok res disk' :
  appendable → run = Some (Ok (res, disk')) →
  ∃ first f start complete cs m content,
    first_sequence tail = Ok first ∧
    segment_written input first (event_hash <$> tail) items f start complete cs ∧
    sealed verified tail key input first f disk res disk' m content ∧
    ∃ c, Archive.clients verified !! origin = Some c ∧ is_revoked c = false ∧
      key_to_bytes (verifying_key key) = public_key c.
Proof.
  intros Hap Hrun. unfold append_verified in Hrun.
  match type of Hrun with match ?m with _ => _ end = _ => destruct m as [first|e] eqn:Hchecks; [|done] end.
  apply bind_Ok in Hchecks as ([] & Hdefaults & Hchecks).
  apply bind_Ok in Hchecks as ([] & Hclient & Hfirst).
  apply bind_Ok in Hclient as (c & Hc%ok_or_Ok & Hclient).
  apply bind_Ok in Hclient as ([] & Hrevoked%bail_if_Ok & Hkey%bail_if_Ok).
  apply negb_false_iff, bool_decide_eq_true_1 in Hkey.
  destruct (write_segment _ _ _ _ _ _) as [[f|e]|] eqn:Hwrite; [|done..].
  injection Hrun as Hseal. cbn in Hseal.
  apply seal_Ok in Hseal as (m & content & Hsealed).
  pose proof Hap as [Hv Hulids Hcontext Hdefaultsr Hitems].
  pose proof (tb_clients _ Hv _ _ Hc) as [_ Horigin _ _ _].
  edestruct (write_segment_Ok lower_ulid input Hulids) as (start & complete & cs & Hsw);
    [exact Horigin | apply Hulids | exact Hdefaults | done | done | done | by apply tail_starts |
     exact Hwrite |].
  exists first, f, start, complete, cs, m, content. split_and!; try done. by exists c.
Qed.

(** What a reader of the new tree finds: the head names a frontier with the new tail, and
    the segment holds the records [new] of one whole batch. *)
Record append_accepted (res : V2AppendResult) (disk' : Disk) (event : string)
    (new : list VerifiedV2Record) : Prop := {
  aa_key : ∃ c, Archive.clients verified !! origin = Some c ∧ is_revoked c = false ∧
    client_key c = Ok (verifying_key key);
  aa_head : disk' !! "frontiers/v2/HEAD" = Some (as_bytes (result_frontier_hash res +:+ newline)) ∧
    frontier_hash (successor_frontier verified (appended_tail res event))
      = Ok (result_frontier_hash res);
  aa_segment : ∀ root' w, serves root' disk' →
    expected_seq w = result_first_seq res → previous_record w = event_hash <$> tail →
    previous_manifest w = segment_manifest_hash <$> tail →
    verify_segment root' (Archive.genesis verified) (archive_genesis_hash verified)
      (verifying_key key) (appended_tail res event) w
      (manifest_relative_path origin (result_first_seq res))
    = Ok ({| expected_seq := result_last_seq res + 1; previous_record := Some event;
             previous_manifest := Some (result_manifest_hash res);
             verified_segments := verified_segments w + 1; output := output w ++ new |}, true);
  aa_batch : verify_batches new = Ok ();
  aa_items : compact_all input items = Ok (items_of new) ∧
    result_items res = N.of_nat (length (items_of new));
}.


Lemma sw_first_bound first previous f start complete cs :
  segment_written input first previous items f start complete cs →
  (first < next_seq (file f))%N.
Proof. intros Hsw. rewrite (proj1 (sw_seq _ _ _ _ _ _ _ _ Hsw)). lia. Qed.

(** C10: an append only adds history. The frontier the new head names is stored under its
    hash and is an accepted successor of the verified archive's frontier, at the same
    archive and genesis, with every other origin as it was; and every file of the tree but
    the head and the file of the new segment keeps its bytes. *)
Theorem append_extends res disk' :
  appendable → run = Some (Ok (res, disk')) →
  ∃ event path content advance,
    let successor := successor_frontier verified (appended_tail res event) in
    disk' !! "frontiers/v2/HEAD" = Some (as_bytes (result_frontier_hash res +:+ newline)) ∧
    frontier_path (result_frontier_hash res) = Ok path ∧ disk' !! path = Some content ∧
    Frontier.canonical_bytes successor = Ok content ∧
    validate_successor_of successor (accepted_frontier verified) = Ok advance ∧
    (∀ o, o ∈ origins (accepted_frontier verified) → Frontier.origin_id o ≠ origin →
      o ∈ origins successor) ∧
    ∀ p c, disk !! p = Some c → p ≠ "frontiers/v2/HEAD" →
      p ≠ segment_relative_path origin (result_first_seq res) → disk' !! p = Some c.
Proof.
  intros Hap Hrun.
  destruct (append_Ok res disk' Hap Hrun) as (first & f & start & complete & cs & m & content &
    Hfirst & Hsw & [_ (<- & Hls & _) _ _ (Hfh & path & fcontent & Hpath & Hbytes & Hfile) Hhead Hkept] & _).
  assert (next_tail input f (result_manifest_hash res) = appended_tail res (file_last_hash f))
    as Htail by (unfold next_tail, appended_tail; by rewrite Hls).
  rewrite Htail in *. destruct (tb_side _ (ap_verified Hap)) as [Hwf (bytes & Hjson & Hhash) Ha Hg].
  set (successor := successor_frontier verified (appended_tail res (file_last_hash f))) in *.
  pose proof (proj1 (frontier_hash_Ok _ _) Hfh) as [Hwf' _].
  assert (∀ o, o ∈ origins (accepted_frontier verified) → o ∈ origins successor ∨
    Frontier.origin_id o = origin ∧ appended_tail res (file_last_hash f) ∈ origins successor) as Hkeep
    by (intros o Ho; by apply advance_tail_keeps; [apply Hwf |]).
  assert (extends (accepted_frontier verified) successor) as Hext.
  { split; [done | done | done |]. intros o Ho. destruct (Hkeep o Ho) as [Ho' | [Hid Ht]].
    { exists o. split_and!; [done | done | lia | done]. }
    exists (appended_tail res (file_last_hash f)). split; [done |]. split; [done |].
    assert (Frontier.seq o < result_last_seq res)%N as Hlt; [|cbn; split; [lia | lia]].
    rewrite Hls. pose proof (sw_first_bound _ _ _ _ _ _ Hsw) as Hb.
    assert (tail = Some o) as Ho2 by (apply find_origin_Some; [apply Hwf | done]).
    unfold first_sequence in Hfirst. rewrite Ho2 in Hfirst.
    apply ok_or_Ok, checked_add_u64_Some in Hfirst as [Hf _]. cbn in Hf. lia. }
  destruct (proj2 (successor_Ok (accepted_frontier verified) successor)) as [advance Hadv].
  { split_and!; try done. exists bytes. split; [done |]. rewrite <- Hhash. by left. }
  exists (file_last_hash f), path, fcontent, advance. split_and!; try done.
  intros o Ho Hid. destruct (Hkeep o Ho) as [? | [? _]]; done.
Qed.

(** C25: every append is bounded: the segment file on disk splits into the declared number
    of records, each within 1 MiB and parsing to an envelope of the client's origin; the
    envelopes are numbered one after the other from the first sequence number the result
    reports to the last, within 64 bits; and every chunk among them holds between one and
    1000 object items. *)
Theorem append_bounded res disk' :
  appendable → run = Some (Ok (res, disk')) →
  ∃ content, disk' !! segment_relative_path origin (result_first_seq res) = Some content ∧
    N.of_nat (length (segment_lines content)) = records_written res ∧
    (result_last_seq res + 1 = result_first_seq res + records_written res)%N ∧
    (result_last_seq res <= u64_max)%N ∧
    ∀ i line, segment_lines content !! i = Some line →
      (N.of_nat (length line) <= DEFAULT_MAX_V2_RECORD_BYTES)%N ∧
      ∃ e, from_json line = Ok e ∧ Record.origin_id e = origin ∧
        origin_seq e = (result_first_seq res + N.of_nat i)%N ∧
        (record_kind e = BatchChunk → bounded_chunk (e, line)).
Proof.
  intros Hap Hrun.
  destruct (append_Ok res disk' Hap Hrun) as (first & f & start & complete & cs & m & content &
    Hfirst & Hsw & [_ (<- & Hls & Hcount & _) Hseg _ _ _ _] & _).
  exists (file_bytes (file f)). split; [done |].
  destruct Hsw as [[Hlines _ _ Hrecords Hchain _ Hclean] [Hseq Hmax] [(Hsk & _) _] [(Hck & _) _] _ _
    Hchunks _ _].
  unfold file_bytes. rewrite segment_lines_concat; rewrite Hlines; [| done |]; cycle 1.
  { eapply Forall_impl; [exact Hclean |]. by intros line [_ ?]. }
  rewrite Hls, Hcount, Hrecords. set (rs := start :: cs ++ [complete]) in *.
  split_and!; [by rewrite length_fmap | subst rs; cbn; rewrite length_app; cbn; lia | done |].
  intros i line Hi. rewrite list_lookup_fmap in Hi.
  apply fmap_Some in Hi as ([e line'] & Hi & ->). cbn [snd].
  specialize (Hchain "" ""). apply (linked_at _ _ _ _ i (written_record "" "" (e, line'))) in Hchain
    as (previous & [_ Hsize Hjson _ [Horigin _] [Hnumber _] _ _ _ _ _ _]);
    [|by rewrite list_lookup_fmap, Hi].
  rewrite N.min_id in Hsize. split; [done |]. exists e. split_and!; [done.. |]. intros Hk.
  apply list_elem_of_lookup_2 in Hi. subst rs.
  apply elem_of_cons in Hi as [<- | [Hi | <-%list_elem_of_singleton]%elem_of_app];
    cbn in *; [congruence | | congruence].
  rewrite Forall_forall in Hchunks. by destruct (Hchunks _ Hi).
Qed.

(** C26: an append of finitely many items returns: one turn of the packing loop more than
    there are items is always enough. *)
Theorem append_terminates :
  enough_turns items fuel →
  append_verified lower_ulid verified origin key time operation_kind schema context defaults
    items fuel disk ≠ None.
Proof.
  intros Hfuel. unfold append_verified.
  match goal with |- match ?m with _ => _ end ≠ _ => destruct m as [first|e] eqn:Hchecks; [|done] end.
  apply bind_Ok in Hchecks as ([] & Hdefaults & _). unfold write_segment.
  match goal with |- context [match ?m with Ok _ => _ | Err _ => _ end] => destruct m as [[h p]|e] eqn:Hp; [|done] end.
  apply bind_Ok in Hp as ([h' w] & _ & (v & _ & [= <- <-])%bind_Ok).
  match goal with |- context [pack_chunks ?l ?b ?n ?p] =>
    pose proof (pack_chunks_total l b Hdefaults n p Hfuel); destruct (pack_chunks l b n p) as [[]|] end; done.
Qed.
End append.
