(* ===== verification/WriterExamples.v ===== *)
(** The writer run on a small archive: the examples of [Sealing.v]. The documents are
    serialized by [Codec.v], so the laws the theorems assume of the serializers hold. An
    empty archive is initialized through the writer, verified by the reader, and then
    appended to. *)
From Stdlib Require Import ZArith NArith Lia Ascii.
From stdpp Require Import base decidable list gmap strings countable.
From S2P Require Import Prelude.
From S2P Require Import Text.
From S2P Require Import External.
From S2P Require Import Ids.
From S2P Require Import Frontier.
From S2P Require Import Batch.
From S2P Require Import Record.
From S2P Require Import Genesis.
From S2P Require Import Store.
From S2P Require Import Segment.
From S2P Require Import FrontierGraph.
From S2P Require Import Clients.
From S2P Require Import Coordination.
From S2P Require Import Batches.
From S2P Require Import Archive.
From S2P Require Import Codec.
From S2P Require Import Append.
From S2P Require Import Packing.
From S2P Require Import Sealing.

(** ** Codecs of the documents *)

#[local] Existing Instance Genesis.Examples.two_keys.
#[local] Existing Instance Genesis.Examples.two_keys_laws.
#[local] Existing Instance sized_blake3.
#[local] Existing Instance sized_blake3_laws.

(** A document as a value: its fields in order. *)
Definition num (n : N) : Value := Num (PosInt n).
Definition opt (s : option string) : Value := match s with Some s => Str s | None => Null end.
Definition get_opt (v : Value) : option string := match v with Str s => Some s | _ => None end.

Definition kind_value (k : V2RecordKind) : Value :=
  match k with BatchStart => num 0 | BatchChunk => num 1 | BatchComplete => num 2 end.
Definition value_kind (v : Value) : V2RecordKind :=
  match v with
  | Num (PosInt 0) => BatchStart
  | Num (PosInt 1) => BatchChunk
  | _ => BatchComplete
  end.

Definition envelope_value (e : V2RecordEnvelope) : Value :=
  Arr [num (v e); Str (Record.origin_id e); num (origin_seq e); Str (record_id e);
       kind_value (record_kind e); num (time_utc_ms e); Str (Record.batch_id e);
       opt (previous_record_hash e); payload e].
Definition value_envelope (d : Value) : result string V2RecordEnvelope :=
  match d with
  | Arr [Num (PosInt v); Str o; Num (PosInt s); Str r; k; Num (PosInt t); Str b; p; d] =>
      Ok (Build_V2RecordEnvelope v o s r (value_kind k) t b (get_opt p) d)
  | _ => Err "envelope"
  end.

Lemma value_envelope_value e : value_envelope (envelope_value e) = Ok e.
Proof. destruct e as [? ? ? ? [] ? ? [] ?]; reflexivity. Qed.

Definition manifest_body_value (m : SegmentManifestBody) : Value :=
  Arr [num (manifest_v m); Str (manifest_archive_id m); Str (manifest_genesis_hash m);
       Str (manifest_origin_id m); Str (segment_path m); num (first_seq m); num (last_seq m);
       Str (first_record_id m); Str (last_record_id m); Str (first_record_hash m);
       Str (last_record_hash m); num (record_count m); num (segment_bytes m);
       Str (segment_blake3 m); Str (causal_base_frontier_hash m);
       opt (previous_segment_manifest_hash m)].
Definition manifest_value (m : SignedSegmentManifest) : Value :=
  Arr [manifest_body_value (manifest_body m); Str (manifest_signature m)].
Definition value_manifest (d : Value) : result string SignedSegmentManifest :=
  match d with
  | Arr [Arr [Num (PosInt v); Str a; Str g; Str o; Str p; Num (PosInt f); Num (PosInt l);
              Str fi; Str li; Str fh; Str lh; Num (PosInt rc); Num (PosInt sb); Str bl; Str cb;
              pm]; Str sig] =>
      Ok (Build_SignedSegmentManifest
            (Build_SegmentManifestBody v a g o p f l fi li fh lh rc sb bl cb (get_opt pm)) sig)
  | _ => Err "manifest"
  end.

Lemma value_manifest_value m : value_manifest (manifest_value m) = Ok m.
Proof. by destruct m as [[? ? ? ? ? ? ? ? ? ? ? ? ? ? ? []] ?]. Qed.

Definition tail_value (o : OriginFrontier) : Value :=
  Arr [Str (Frontier.origin_id o); num (Frontier.seq o); Str (event_hash o);
       Str (segment_manifest_hash o)].
Definition value_tail (d : Value) : option OriginFrontier :=
  match d with
  | Arr [Str i; Num (PosInt s); Str e; Str m] => Some (Build_OriginFrontier i s e m)
  | _ => None
  end.
Definition frontier_value (f : CausalFrontier) : Value :=
  Arr [num (Frontier.v f); Str (Frontier.archive_id f); Str (Frontier.genesis_hash f);
       Arr (tail_value <$> origins f); Arr (Str <$> previous_frontiers f);
       num (item_projection_version f)].
Definition value_frontier (d : Value) : result string CausalFrontier :=
  match d with
  | Arr [Num (PosInt v); Str a; Str g; Arr os; Arr ps; Num (PosInt i)] =>
      Ok (Build_CausalFrontier v a g (omap value_tail os) (omap get_opt ps) i)
  | _ => Err "frontier"
  end.

#[local] Instance envelope_to_json : ToJson V2RecordEnvelope := {
  to_json e := Ok (value_bytes (envelope_value e)) }.
#[local] Instance envelope_from_json : FromJson V2RecordEnvelope := {
  from_json b := bytes_value b ≫= value_envelope }.
#[local] Instance value_to_json : ToJson Value := { to_json e := Ok (value_bytes e) }.
#[local] Instance body_to_json : ToJson SegmentManifestBody := {
  to_json e := Ok (value_bytes (manifest_body_value e)) }.
#[local] Instance manifest_to_json : ToJson SignedSegmentManifest := {
  to_json e := Ok (value_bytes (manifest_value e)) }.
#[local] Instance manifest_from_json : FromJson SignedSegmentManifest := {
  from_json b := bytes_value b ≫= value_manifest }.
#[local] Instance frontier_to_json : ToJson CausalFrontier := {
  to_json e := Ok (value_bytes (frontier_value e)) }.
#[local] Instance frontier_from_json : FromJson CausalFrontier := {
  from_json b := bytes_value b ≫= value_frontier }.
#[local] Existing Instance Archive.Examples.body_json.
#[local] Existing Instance Archive.Examples.genesis_json.
#[local] Existing Instance Archive.Examples.lease_json.
#[local] Existing Instance Archive.Examples.lease_from_value.

Definition key : SigningKey := Genesis.Examples.first_key.
Definition client : string := client_id (key_to_bytes (verifying_key key)).

Definition genesis : SignedGenesis := {|
  body := new_body "archive_1" "Family photos" 1700000000000 (verifying_key key);
  signature := "abody" |}.
#[local] Instance genesis_from_json : FromJson SignedGenesis := { from_json _ := Ok genesis }.

#[local] Instance record_json_laws : RecordJsonLaws.
Proof.
  split.
  - intros e line _ [= <-].
    change (bytes_value (value_bytes (envelope_value e)) ≫= value_envelope = Ok e).
    rewrite bytes_value_bytes. apply value_envelope_value.
  - intros e line [= <-]. destruct (value_bytes_line (envelope_value e)). by split_and!.
Qed.

#[local] Instance manifest_json_laws : ManifestJsonLaws.
Proof. split. intros m b [= <-].
  change (bytes_value (value_bytes (manifest_value m)) ≫= value_manifest = Ok m).
  rewrite bytes_value_bytes. apply value_manifest_value. Qed.

(** ** The archive *)

Definition ulid (i : nat) : string :=
  "01arz3ndektsv4rrffq69g5f" +:+ hex_encode [Ascii.ascii_of_nat i].

Definition root_frontier : CausalFrontier := {|
  Frontier.v := 2; Frontier.archive_id := "archive_1";
  Frontier.genesis_hash := blake3_identifier (as_bytes "genesis"); origins := [];
  previous_frontiers := []; item_projection_version := 1 |}.
Definition root_hash : string := blake3_identifier (value_bytes (frontier_value root_frontier)).

Definition unwrap {E A} (d : A) (r : result E A) : A := match r with Ok a => a | Err _ => d end.
Lemma unwrap_ok {E A} (d : A) (r : result E A) : is_ok r = true → r = Ok (unwrap d r).
Proof. by destruct r. Qed.

(** The result and the disk of an append, if it returned them. *)
Definition appended {A} (run : option (result V2StoreError A)) : result V2StoreError A :=
  default (Err (Invalid "out of fuel")) run.
Lemma appended_ok {A} (d : A) (run : option (result V2StoreError A)) :
  is_ok (appended run) = true → run = Some (Ok (unwrap d (appended run))).
Proof. by destruct run as [[]|]. Qed.

Definition root_path : string := unwrap "" (frontier_path root_hash).

(** The initial client before it wrote anything. *)
Definition bare : VerifiedV2Archive := {|
  Archive.genesis := genesis; archive_genesis_hash := blake3_identifier (as_bytes "genesis");
  accepted_frontier := root_frontier; accepted_frontier_hash := root_hash; records := [];
  archive_record_count := 0;
  Archive.clients := {[ client := {|
    Clients.client := client; display_name := "Initial client";
    public_key := key_to_bytes (verifying_key key); capabilities := [];
    approved_origin_id := client; approved_origin_seq := 2;
    revoked_origin_id := None; revoked_origin_seq := None |} ]};
  frontiers := ∅; segment_count := 0; frontier_count := 0 |}.

Definition initial_item : Value := Obj [("kind", Str "archive_initialized")].

Definition first_disk : Disk := {[ "genesis.json" := as_bytes "genesis"; root_path := value_bytes (frontier_value root_frontier) ]}.

Definition first_append :=
  append_verified ulid bare client key 1700000000000 "archive_initialize" 1 (Obj []) (Obj [])
    [Ok initial_item] 2 first_disk.

Definition manifest_directory : string := "manifests/v2/origins/" +:+ client.
Definition no_result : V2AppendResult := {|
  result_batch_id := ""; result_first_seq := 0; result_last_seq := 0; records_written := 0;
  result_items := 0; result_manifest_hash := ""; result_frontier_hash := "" |}.
Definition disk : Disk := (unwrap (no_result, ∅) (appended first_append)).2.

Definition tree : Tree :=
  tree_of disk {[ manifest_directory := ["seg-000000000001.manifest.json"] ]}.

Definition verified : VerifiedV2Archive := unwrap bare (verify_archive 3 tree).

(** Reading back what was initialized. *)
Lemma initialized_verifies : verify_archive 3 tree = Ok verified.
Proof. apply unwrap_ok. vm_compute. reflexivity. Qed.

(** ** A second batch *)

Definition defaults : Value := Obj [("asset", Obj [("state", Str "present")])].
Definition new_items : stream := [
  Ok (Obj [("kind", Str "asset"); ("path", Str "a.jpg"); ("state", Str "present")]);
  Ok (Obj [("kind", Str "asset"); ("path", Str "b.jpg")])].

Definition second_append : option (result V2StoreError (V2AppendResult * Disk)) :=
  append_verified ulid verified client key 1700000001000 "scan" 2 (Obj []) defaults
    new_items 3 disk.

Definition second : V2AppendResult * Disk := unwrap (no_result, ∅) (appended second_append).

Lemma second_computes :
  is_ok (appended second_append) && (result_last_seq second.1 <? u64_max)%N = true.
Proof. vm_compute. reflexivity. Qed.

Lemma second_appends :
  append_verified ulid verified client key 1700000001000 "scan" 2 (Obj []) defaults
    new_items 3 disk = Some (Ok (second.1, second.2)).
Proof.
  fold second_append.
  rewrite <- surjective_pairing. apply appended_ok.
  exact (proj1 (proj1 (andb_true_iff _ _) second_computes)).
Qed.

Lemma second_last : (result_last_seq second.1 < u64_max)%N.
Proof. apply N.ltb_lt. exact (proj2 (proj1 (andb_true_iff _ _) second_computes)). Qed.

Lemma ulids_accepted : ulids_ok ulid.
Proof.
  intros i. unfold ulid. generalize (Ascii.ascii_of_nat i). intros [[] [] [] [] [] [] [] []];
    split; vm_compute; reflexivity.
Qed.

Lemma example_appendable :
  appendable ulid verified (Obj []) defaults new_items.
Proof.
  split.
  - exact (verified_base verified 3 tree initialized_verifies).
  - exact ulids_accepted.
  - repeat constructor.
  - repeat constructor.
  - intros item [[= ->] | [[= ->] | Hin%elem_of_nil]%elem_of_cons]%elem_of_cons; [| | done];
      repeat constructor.
Qed.


Lemma append_extends_witness :
  ∃ event path content, second.2 !! path = Some content ∧
    Frontier.canonical_bytes (successor_frontier verified (appended_tail client second.1 event))
    = Ok content.
Proof.
  destruct (append_extends ulid verified client key 1700000001000 "scan" 2 (Obj [])
    defaults new_items 3 disk second.1 second.2 example_appendable
    second_appends) as
    (event & path & content & advance & _ & _ & Hfile & Hbytes & _).
  exists event, path, content. split; [exact Hfile | exact Hbytes].
Defined.

Lemma append_bounded_witness :
  ∃ content, second.2 !! segment_relative_path client (result_first_seq second.1) = Some content ∧
    N.of_nat (length (segment_lines content)) = records_written second.1.
Proof.
  destruct (append_bounded ulid verified client key 1700000001000 "scan" 2 (Obj [])
    defaults new_items 3 disk second.1 second.2 example_appendable
    second_appends) as
    (content & Hfile & Hcount & _).
  exists content. split; [exact Hfile | exact Hcount].
Defined.

Lemma append_terminates_witness : second_append ≠ None.
Proof.
  assert (enough_turns new_items 3) as Hlen by (unfold enough_turns; cbn; lia). unfold second_append.
  exact (append_terminates ulid verified client key 1700000001000 "scan" 2 (Obj []) defaults
    new_items 3 disk Hlen).
Defined.
