(* ===== verification/Ranges.v ===== *)
(** Incremental verification: [verify_origin_range], [verify_since] and
    [verify_since_with_clients] of [v2_store.rs]. A caller that remembers where each origin
    stood verifies only what came after; the theorems show that the two halves together are
    what a full verification accepts. *)
From Stdlib Require Import ZArith NArith Lia Ascii.
From stdpp Require Import base decidable list gmap strings sorting.
From S2P Require Import Prelude.
From S2P Require Import Text.
From S2P Require Import External.
From S2P Require Import Ids.
From S2P Require Import Frontier.
From S2P Require Import Record.
From S2P Require Import Genesis.
From S2P Require Import Store.
From S2P Require Import Segment.
From S2P Require Import FrontierGraph.
From S2P Require Import Clients.
From S2P Require Import Coordination.
From S2P Require Import Batches.
From S2P Require Import Archive.
From S2P Require Import Append.

Record V2OriginCursor : Type := {
  applied_seq : N;
  applied_record_hash : option string;
  applied_segment_manifest_hash : option string;
}.

Definition no_cursor : V2OriginCursor := {|
  applied_seq := 0; applied_record_hash := None; applied_segment_manifest_hash := None |}.

(** [cursors.get(..).cloned().unwrap_or(..)] *)
Definition cursor_of (cursors : gmap string V2OriginCursor) (id : string) : V2OriginCursor :=
  default no_cursor (cursors !! id).

Section ranges.
Context `{Blake3, UlidCrate, Base64, Ed25519,
  FromJson V2RecordEnvelope, ToJson SegmentManifestBody, ToJson SignedSegmentManifest,
  FromJson SignedSegmentManifest, ToJson GenesisBody, ToJson SignedGenesis,
  FromJson SignedGenesis, ToJson CausalFrontier, FromJson CausalFrontier,
  ToJson CoordinationLeaseBody, FromValue SignedCoordinationLease}.

(** One turn of the loop of [verify_origin_range]: the locals after the segment that starts
    at the expected sequence number, and whether it is the accepted one. *)
Definition range_segment (root : Tree) (genesis : SignedGenesis) (genesis_hash : string)
    (key : VerifyingKey) (tail : OriginFrontier) (known : gmap string CausalFrontier) (w : Walk)
    : result V2StoreError (Walk * bool) :=
  let path := manifest_relative_path (Frontier.origin_id tail) (expected_seq w) in
  b ← read_file root path;
  manifest ← parse_json path b;
  canonical ← canonical_json manifest;
  _ ← bail_if (negb (bool_decide (canonical = b)))
        (Invalid (path +:+ " does not use deterministic bytes"));
  _ ← verify_manifest manifest key;
  let body := manifest_body manifest in
  _ ← bail_if (negb (bool_decide (manifest_archive_id body = archive_id (Genesis.body genesis)))
               || negb (bool_decide (manifest_genesis_hash body = genesis_hash))
               || negb (bool_decide (manifest_origin_id body = Frontier.origin_id tail))
               || negb (first_seq body =? expected_seq w)%N
               || negb (bool_decide (previous_segment_manifest_hash body = previous_manifest w))
               || negb (is_some_b (known !! causal_base_frontier_hash body)))
        (Invalid ("incremental segment manifest chain is inconsistent at " +:+ path));
  hash ← manifest_hash manifest;
  content ← read_file root (segment_path body);
  _ ← bail_if (negb (bool_decide (blake3_identifier content = segment_blake3 body))
               || negb (N.of_nat (length content) =? segment_bytes body)%N
               || negb (ends_with_newline content))
        (Invalid ("segment bytes do not match manifest at " +:+ segment_path body));
  '(seq, previous, records) ← fold_result
    (read_line (Frontier.origin_id tail) hash (causal_base_frontier_hash body)
       (segment_path body))
    (expected_seq w, previous_record w, []) (segment_lines content);
  first ← ok_or (head records) (Invalid "signed segment is empty");
  last ← ok_or (last records) (Invalid "signed segment is empty");
  _ ← bail_if (negb (last_seq body =? origin_seq (envelope (record last)))%N
               || negb (bool_decide (first_record_id body = record_id (envelope (record first))))
               || negb (bool_decide (last_record_id body = record_id (envelope (record last))))
               || negb (bool_decide (first_record_hash body = record_hash (record first)))
               || negb (bool_decide (last_record_hash body = record_hash (record last)))
               || negb (N.of_nat (length records) =? record_count body)%N)
        (Invalid ("record range does not match manifest at " +:+ path));
  segments ← ok_or (checked_add_u64 (verified_segments w) 1) (Invalid "segment count overflow");
  let w := {| expected_seq := seq; previous_record := previous;
              previous_manifest := Some hash; verified_segments := segments;
              output := output w ++ records |} in
  if decide (hash = segment_manifest_hash tail) then
    _ ← bail_if (negb (last_seq body =? Frontier.seq tail)%N
                 || negb (bool_decide (last_record_hash body = event_hash tail)))
          (Invalid ("accepted frontier tail does not match origin "
                    +:+ Frontier.origin_id tail));
    Ok (w, true)
  else
    _ ← bail_if (Frontier.seq tail <=? last_seq body)%N
          (Invalid ("incremental manifest chain passed accepted origin "
                    +:+ Frontier.origin_id tail));
    Ok (w, false).

(** The loop; every turn moves the expected sequence number towards the tail's, so the
    distance is enough [fuel]. *)
Fixpoint range_loop (root : Tree) (genesis : SignedGenesis) (genesis_hash : string)
    (key : VerifyingKey) (tail : OriginFrontier) (known : gmap string CausalFrontier)
    (fuel : nat) (w : Walk) : result Stop Walk :=
  match fuel with
  | O => Err OutOfFuel
  | S fuel =>
      '(w, found) ← map_err Stopped (range_segment root genesis genesis_hash key tail known w);
      if found : bool then Ok w
      else range_loop root genesis genesis_hash key tail known fuel w
  end.

Definition range_start (cursor : V2OriginCursor) : result V2StoreError Walk :=
  seq ← ok_or (checked_add_u64 (applied_seq cursor) 1) (Invalid "origin sequence overflow");
  Ok {| expected_seq := seq; previous_record := applied_record_hash cursor;
        previous_manifest := applied_segment_manifest_hash cursor;
        verified_segments := 0; output := [] |}.

(** Enough turns for any range: one for each sequence number up to the tail's, and one. *)
Definition range_fuel (tail : OriginFrontier) (w : Walk) : nat :=
  S (N.to_nat (Frontier.seq tail + 1 - expected_seq w)).

Definition verify_origin_range (root : Tree) (genesis : SignedGenesis) (genesis_hash : string)
    (key : VerifyingKey) (tail : OriginFrontier) (cursor : V2OriginCursor)
    (known : gmap string CausalFrontier) : result Stop (list VerifiedV2Record * N) :=
  w ← map_err Stopped (range_start cursor);
  w ← range_loop root genesis genesis_hash key tail known (range_fuel tail w) w;
  Ok (output w, verified_segments w).

(** [clients.entry(..).or_insert_with(..)] *)
Definition with_initial_client (genesis : SignedGenesis) (key : VerifyingKey)
    (clients : Registry) : Registry :=
  let id := initial_client_id (body genesis) in
  match clients !! id with
  | Some _ => clients
  | None => <[id := {|
      client := id; display_name := "Initial client"; public_key := key_to_bytes key;
      capabilities := ["additive_observation"; "coordination"];
      approved_origin_id := id; approved_origin_seq := 2;
      revoked_origin_id := None; revoked_origin_seq := None |}]> clients
  end.

(** The body of the loop over the accepted origins, which collects those with something
    new. *)
Definition check_cursor (cursors : gmap string V2OriginCursor) (pending : list string)
    (origin : OriginFrontier) : result V2StoreError (list string) :=
  let id := Frontier.origin_id origin in
  let cursor := cursor_of cursors id in
  let record := is_some_b (applied_record_hash cursor) in
  let manifest := is_some_b (applied_segment_manifest_hash cursor) in
  _ ← bail_if ((Frontier.seq origin <? applied_seq cursor)%N
               || ((applied_seq cursor =? 0)%N && (record || manifest))
               || ((0 <? applied_seq cursor)%N && (negb record || negb manifest)))
        (Invalid ("projection cursor for origin " +:+ id +:+ " is structurally invalid"));
  if (applied_seq cursor =? Frontier.seq origin)%N then
    _ ← bail_if (negb (bool_decide (applied_record_hash cursor = Some (event_hash origin)))
                 || negb (bool_decide (applied_segment_manifest_hash cursor
                                       = Some (segment_manifest_hash origin))))
          (Invalid ("projection cursor does not match canonical origin " +:+ id));
    Ok pending
  else Ok (pending ++ [id]).

(** One candidate of a round; [true] if it progressed. *)
Definition range_candidate (root : Tree) (g : SignedGenesis) (ghash : string)
    (accepted : CausalFrontier) (cursors : gmap string V2OriginCursor)
    (visited : gmap string CausalFrontier) (locals : Enrollment * bool) (id : string)
    : result Stop (Enrollment * bool) :=
  let '(e, progressed) := locals in
  match e_clients e !! id with
  | None => Ok (e, progressed)
  | Some c =>
      origin ← ok_or (find_origin (origins accepted) id) Panicked;
      key ← map_err Stopped (client_key c);
      '(range, segments) ←
        verify_origin_range root g ghash key origin (cursor_of cursors id) visited;
      _ ← (if decide (id = initial_client_id (body g)) then Ok ()
           else map_err Stopped (validate_client_origin_records range c visited));
      count ← ok_or (checked_add_u64 (e_segments e) segments)
                (Stopped (Invalid "segment count overflow"));
      clients ← map_err Stopped (apply_client_registry_items range (e_clients e));
      Ok ({| e_clients := clients; e_records := e_records e ++ range; e_segments := count;
             e_pending := filter (λ p, p ≠ id) (e_pending e) |}, true)
  end.

(** [while !pending.is_empty()] *)
Fixpoint range_rounds (root : Tree) (g : SignedGenesis) (ghash : string)
    (accepted : CausalFrontier) (cursors : gmap string V2OriginCursor)
    (visited : gmap string CausalFrontier) (fuel : nat) (e : Enrollment)
    : result Stop Enrollment :=
  match e_pending e with
  | [] => Ok e
  | _ =>
      match fuel with
      | O => Err OutOfFuel
      | S fuel =>
          '(e, progressed) ←
            fold_result (range_candidate root g ghash accepted cursors visited) (e, false)
              (e_pending e);
          _ ← bail_if (negb progressed)
                (Stopped (Invalid
                   ("unapplied frontier contains origins without trusted enrollment: "
                    +:+ String.concat ", " (e_pending e))));
          range_rounds root g ghash accepted cursors visited fuel e
      end
  end.

(** [verify_since_with_clients]; [fuel] bounds the depth of the frontier graph. *)
Definition verify_since_with_clients (fuel : nat) (root : Tree) (base_hash : string)
    (cursors : gmap string V2OriginCursor) (trusted : Registry)
    : result Stop VerifiedV2Archive :=
  _ ← map_err Stopped (validate_blake3_id "base frontier hash" base_hash);
  '(g, ghash) ← map_err Stopped (read_genesis root);
  head ← map_err Stopped (read_head root);
  '(visited, _) ←
    load_frontier_path_to_base root (genesis_archive_id g) ghash fuel head base_hash ∅;
  _ ← bail_if (negb (is_some_b (visited !! base_hash)))
        (Stopped (Invalid "SQLite applied frontier is not an ancestor of canonical HEAD"));
  accepted ← ok_or (visited !! head) (Stopped (Invalid "accepted frontier was not loaded"));
  key ← map_err (Stopped ∘ GenesisErr) (validate_body (body g));
  let clients := with_initial_client g key trusted in
  pending ← map_err Stopped (fold_result (check_cursor cursors) [] (origins accepted));
  let pending := btree_set pending in
  e ← range_rounds root g ghash accepted cursors visited (length pending)
        {| e_clients := clients; e_records := []; e_segments := 0; e_pending := pending |};
  _ ← map_err Stopped (validate_coordination_contexts (e_records e) (e_clients e));
  _ ← map_err Stopped (verify_batches (e_records e));
  Ok {| Archive.genesis := g; archive_genesis_hash := ghash; accepted_frontier := accepted;
        accepted_frontier_hash := head; records := e_records e;
        archive_record_count := N.of_nat (length (e_records e)); clients := e_clients e;
        frontiers := visited; segment_count := e_segments e;
        frontier_count := N.of_nat (size visited) |}.

(** [verify_since] *)
Definition verify_since (fuel : nat) (root : Tree) (base_hash : string)
    (cursors : gmap string V2OriginCursor) : result Stop VerifiedV2Archive :=
  b ← map_err Stopped (read_file root "genesis.json");
  g ← map_err Stopped (parse_json "genesis.json" b);
  key ← map_err (Stopped ∘ GenesisErr) (validate_body (body g));
  verify_since_with_clients fuel root base_hash cursors (with_initial_client g key ∅).

(** ** A range continues a verified origin *)

(** The same locals with other records before them. *)
Definition put_output (out : list VerifiedV2Record) (w : Walk) : Walk := {|
  expected_seq := expected_seq w; previous_record := previous_record w;
  previous_manifest := previous_manifest w; verified_segments := verified_segments w;
  output := out
|}.

Section walk.
Context (root : Tree) (g : SignedGenesis) (ghash : string) (key : VerifyingKey).
Context (tail : OriginFrontier) (known : gmap string CausalFrontier).

(** A turn accepts what the full walk accepts at the same place, from known frontiers only,
    and moves forward. *)
Lemma range_segment_walk w w' found :
  range_segment root g ghash key tail known w = Ok (w', found) →
  ∃ new, output w' = output w ++ new ∧
    (∀ out, verify_segment root g ghash key tail (put_output out w)
       (manifest_relative_path (Frontier.origin_id tail) (expected_seq w))
     = Ok (put_output (out ++ new) w', found)) ∧
    (∀ r, r ∈ new → is_Some (known !! causal_frontier_hash r) ∧
       origin_of r = Frontier.origin_id tail) ∧
    (expected_seq w < expected_seq w')%N ∧
    (found = false → (expected_seq w' <= Frontier.seq tail)%N).
Proof.
  unfold range_segment. set (path := manifest_relative_path _ _).
  intros (b & Hb & Hrun)%bind_Ok. apply bind_Ok in Hrun as (m & Hm & Hrun).
  apply bind_Ok in Hrun as (canonical & Hcan & Hrun).
  apply bind_Ok in Hrun as ([] & Hdet & Hrun). apply bind_Ok in Hrun as ([] & Hverify & Hrun).
  apply bind_Ok in Hrun as ([] & Hchain & Hrun).
  pose proof Hchain as Hchain'. apply bail_if_Ok, orb_false_iff in Hchain as [Hchain Hknown].
  apply negb_false_iff, is_some_b_true in Hknown.
  apply bind_Ok in Hrun as (hash & Hhash & Hrun).
  apply bind_Ok in Hrun as (content & Hcontent & Hrun).
  apply bind_Ok in Hrun as ([] & Hbytes & Hrun).
  apply bind_Ok in Hrun as ([[seq previous] records] & Hread & Hrun).
  apply bind_Ok in Hrun as (first & Hfirst & Hrun).
  apply bind_Ok in Hrun as (last' & Hlast & Hrun).
  apply bind_Ok in Hrun as ([] & Hrange & Hrun).
  apply bind_Ok in Hrun as (segments & [-> _]%ok_or_Ok%checked_add_u64_Some & Hrun).
  apply read_lines_Ok in Hread as Hread'.
  destruct Hread' as (new & Hnew & Hlinked & _ & Hfrom & Hseq & _). cbn [app] in Hnew. subst new.
  exists records.
  assert (last_seq (manifest_body m) = origin_seq (envelope (record last'))) as Hls.
  { apply bail_if_Ok in Hrange. boolify. done. }
  apply ok_or_Ok in Hlast as Hlast'.
  pose proof (linked_last_seq _ _ _ _ _ Hlinked Hlast') as Hlseq.
  assert (0 < length records) as Hpos by (destruct records; [done | cbn; lia]).
  assert (∀ r, r ∈ records → is_Some (known !! causal_frontier_hash r) ∧
    origin_of r = Frontier.origin_id tail) as Hall.
  { rewrite Forall_forall in Hfrom. intros r Hr. destruct (Hfrom r Hr) as [_ ->].
    split; [done |]. by eapply linked_origin. }
  assert (∀ out, verify_segment root g ghash key tail (put_output out w) path
    = Ok (put_output (out ++ records) w', found)) as Hwalk.
  { intros out. unfold verify_segment. rewrite Hb. cbn [mbind result_bind]. rewrite Hm.
    cbn [mbind result_bind]. rewrite Hcan. cbn [mbind result_bind]. rewrite Hdet.
    cbn [mbind result_bind]. rewrite Hverify.
    cbn [mbind result_bind put_output expected_seq previous_record previous_manifest].
    rewrite Hchain. cbn [bail_if mbind result_bind]. rewrite Hhash. cbn [mbind result_bind].
    rewrite Hcontent. cbn [mbind result_bind]. rewrite Hbytes. cbn [mbind result_bind].
    rewrite Hread. cbn [mbind result_bind]. rewrite Hfirst. cbn [mbind result_bind].
    rewrite Hlast. cbn [mbind result_bind]. rewrite Hrange. cbn [mbind result_bind].
    case_decide; apply bind_Ok in Hrun as ([] & Hend & [= <- <-]); [by rewrite Hend | done]. }
  case_decide; apply bind_Ok in Hrun as ([] & Hend & [= <- <-]);
    cbn [output expected_seq put_output]; split_and!; try done; try lia.
  apply bail_if_Ok, N.leb_gt in Hend. intros _. lia.
Qed.

(** The whole loop, from the state a full walk was in. *)
Lemma range_loop_walk fuel w w' out :
  range_loop root g ghash key tail known fuel w = Ok w' →
  walk_ok g ghash key tail (put_output out w) →
  ∃ new, output w' = output w ++ new ∧ walk_ok g ghash key tail (put_output (out ++ new) w') ∧
    at_tail tail (out ++ new) ∧ ∀ r, r ∈ new → is_Some (known !! causal_frontier_hash r).
Proof.
  revert w out. induction fuel as [|fuel IH]; cbn [range_loop]; intros w out Hrun Hok; [done |].
  apply bind_Ok in Hrun as ([w1 found] & Hseg%map_err_Ok & Hrun).
  apply range_segment_walk in Hseg as (new & Hout & Hwalk & Hknown & _).
  pose proof (verify_segment_Ok _ _ _ _ _ _ _ _ _ (Hwalk out) Hok) as [Hok1 Htail].
  destruct found.
  - injection Hrun as <-. exists new. split_and!; try done; [by apply Htail |]. intros r Hr.
    by apply Hknown.
  - destruct (IH w1 (out ++ new) Hrun Hok1) as (new' & Hout' & Hok' & Htail' & Hknown').
    exists (new ++ new'). rewrite Hout', Hout, <- !app_assoc in *. split_and!; try done.
    intros r [Hr | Hr]%elem_of_app; [by apply Hknown | auto].
Qed.

Lemma range_loop_origin fuel w w' :
  range_loop root g ghash key tail known fuel w = Ok w' →
  (∀ r, r ∈ output w → origin_of r = Frontier.origin_id tail) →
  ∀ r, r ∈ output w' → origin_of r = Frontier.origin_id tail.
Proof.
  revert w. induction fuel as [|fuel IH]; cbn [range_loop]; intros w Hrun Hw; [done |].
  apply bind_Ok in Hrun as ([w1 found] & Hseg%map_err_Ok & Hrun).
  apply range_segment_walk in Hseg as (new & Hout & _ & Hnew & _).
  assert (∀ r, r ∈ output w1 → origin_of r = Frontier.origin_id tail) as Hw1.
  { rewrite Hout. intros r [Hr | Hr]%elem_of_app; [auto | by apply Hnew]. }
  destruct found; [by injection Hrun as <- | by apply (IH w1)].
Qed.

(** Every turn gets closer to the tail, so the fuel is never what stops the loop. *)
Lemma range_loop_total fuel w :
  (N.to_nat (Frontier.seq tail + 1 - expected_seq w) < fuel)%nat →
  range_loop root g ghash key tail known fuel w ≠ Err OutOfFuel.
Proof.
  revert w. induction fuel as [|fuel IH]; intros w Hfuel; [lia |]. cbn [range_loop].
  destruct (range_segment _ _ _ _ _ _ w) as [[w1 [|]]|] eqn:Hseg; cbn; [done | | done].
  apply range_segment_walk in Hseg as (new & _ & _ & _ & Hlt & Hle). specialize (Hle eq_refl).
  apply IH. lia.
Qed.
End walk.

(** The cursor of an origin that was verified up to [o]. *)
Definition cursor_at (o : OriginFrontier) : V2OriginCursor := {|
  applied_seq := Frontier.seq o; applied_record_hash := Some (event_hash o);
  applied_segment_manifest_hash := Some (segment_manifest_hash o) |}.

(** The records [rs] that a cursor stands for: the whole chain up to it. *)
Definition trusted (g : SignedGenesis) (ghash : string) (key : VerifyingKey) (id : string)
    (cursor : V2OriginCursor) (rs : list VerifiedV2Record) : Prop :=
  linked id 1 None rs ∧ applied_seq cursor = N.of_nat (length rs) ∧
  applied_record_hash cursor = last_hash None rs ∧ Forall (signed g ghash key id) rs.

Lemma trusted_none g ghash key id : trusted g ghash key id no_cursor [].
Proof. by split_and!. Qed.

Lemma trusted_origin root g ghash key o rs n :
  verify_origin root g ghash key o = Ok (rs, n) →
  trusted g ghash key (Frontier.origin_id o) (cursor_at o) rs.
Proof.
  intros (Hl & Hlen & (r & Hr & _ & Hh & _) & Hs)%verify_origin_Ok.
  split_and!; [done | done | | done]. unfold last_hash. cbn. by rewrite Hr, Hh.
Qed.

Lemma verify_origin_range_origin root g ghash key tail cursor known rs n r :
  verify_origin_range root g ghash key tail cursor known = Ok (rs, n) → r ∈ rs →
  origin_of r = Frontier.origin_id tail.
Proof.
  unfold verify_origin_range, range_start.
  intros (w & Hstart%map_err_Ok & (w' & Hloop & [= <- _])%bind_Ok)%bind_Ok.
  apply bind_Ok in Hstart as (seq & _ & [= <-]). revert r.
  eapply range_loop_origin; [exact Hloop |]. intros r Hr. by apply elem_of_nil in Hr.
Qed.

(** A range ends: with its records, or with an error of the code. *)
Lemma verify_origin_range_total root g ghash key tail cursor known stop :
  verify_origin_range root g ghash key tail cursor known = Err stop →
  ∃ error, stop = Stopped error.
Proof.
  unfold verify_origin_range. intros [?%map_err_Stopped' | (w & _ & Hrun)]%bind_Err; [done |].
  apply bind_Err in Hrun as [Hloop | (w' & _ & Hrun)]; [|done].
  assert (stop ≠ OutOfFuel) as Hfuel.
  { intros ->. revert Hloop. apply range_loop_total. unfold range_fuel. lia. }
  revert Hloop. generalize (range_fuel tail w). intros fuel. revert w. induction fuel as [|fuel IH]; intros w Hloop; cbn [range_loop] in Hloop;
    [congruence |].
  apply bind_Err in Hloop as [?%map_err_Stopped' | ([w1 []] & _ & Hloop)]; [done | done |].
  by apply IH in Hloop.
Qed.

(** A range after a trusted cursor: together they are the verified origin. *)
Lemma verify_origin_range_Ok root g ghash key tail cursor known rs0 rs n :
  verify_origin_range root g ghash key tail cursor known = Ok (rs, n) →
  trusted g ghash key (Frontier.origin_id tail) cursor rs0 →
  linked (Frontier.origin_id tail) 1 None (rs0 ++ rs) ∧
  N.of_nat (length (rs0 ++ rs)) = Frontier.seq tail ∧
  at_tail tail (rs0 ++ rs) ∧ Forall (signed g ghash key (Frontier.origin_id tail)) (rs0 ++ rs) ∧
  ∀ r, r ∈ rs → is_Some (known !! causal_frontier_hash r).
Proof.
  unfold verify_origin_range, range_start.
  intros (w & Hstart%map_err_Ok & (w' & Hloop & [= <- _])%bind_Ok)%bind_Ok (Hl & Hlen & Hh & Hs).
  apply bind_Ok in Hstart as (seq & [-> _]%ok_or_Ok%checked_add_u64_Some & [= <-]).
  eapply (range_loop_walk _ _ _ _ _ _ _ _ _ rs0) in Hloop
    as (new & -> & [Hlinked _ _ Hsigned] & Htail & Hknown); cycle 1.
  { split; cbn; [done | lia | done | done]. }
  cbn [output app put_output] in *. split_and!; try done.
  destruct Htail as (r & Hr & Hseq & _). pose proof (linked_last_seq _ _ _ _ _ Hlinked Hr). lia.
Qed.

(** ** The frontiers between the head and the base *)

Section path.
Context (root : Tree) (archive genesis : string).

Abbreviation anc := (ancestor root archive genesis).

(** A load that stops at a base keeps what was loaded, and adds only the frontier it was
    asked for and its ancestors. *)
Record path_loads (hash : string) (visited visited' : gmap string CausalFrontier) : Prop := {
  pl_keep : visited ⊆ visited';
  pl_new : ∃ f, visited' !! hash = Some f ∧
    ∀ h, visited !! h = None → is_Some (visited' !! h) → anc visited' h f;
}.

Lemma path_parents_ok (load : string → gmap string CausalFrontier →
      result Stop (gmap string CausalFrontier * bool)) f parents vf vf' :
  (∀ p v r, load p v = Ok r → path_loads p v r.1) →
  fold_result (λ vf parent_hash,
     found ← load parent_hash vf.1;
     _ ← check_parent f parent_hash found.1;
     Ok (found.1, vf.2 || found.2)) vf parents = Ok vf' →
  vf.1 ⊆ vf'.1 ∧ ∀ h, vf.1 !! h = None → is_Some (vf'.1 !! h) → anc vf'.1 h f.
Proof.
  intros Hload. revert vf. induction parents as [|p parents IH]; intros vf Hrun.
  - cbn in Hrun. simplify_eq. split; [done |]. intros h Hn [? ?]. congruence.
  - cbn in Hrun. apply bind_Ok in Hrun as (v1 & Hstep & Hrun).
    apply bind_Ok in Hstep as (found & Hfound & Hstep).
    apply bind_Ok in Hstep as ([] & Hcheck & [= <-]).
    destruct (Hload _ _ _ Hfound) as [Hk1 (b & Hb & Hn1)].
    unfold check_parent in Hcheck. inv_ok. simplify_eq.
    match goal with H : validate_successor_of _ _ = Ok _ |- _ => rename H into Hsucc end.
    apply IH in Hrun as (Hk & Hn). cbn [fst] in *. split; [by etrans |].
    intros h Hnone Hsome. destruct (found.1 !! h) as [g|] eqn:Hg; [|auto].
    destruct (Hn1 h Hnone) as (g' & Hg' & Hr & Hch); [eauto |]. exists g'.
    split_and!; [by eapply lookup_weaken | done |].
    eapply chain_trans; [done |]. by eapply chain_one.
Qed.

Lemma path_insert hash f visited v1 :
  visited !! hash = None → read_frontier root archive genesis hash = Ok f → visited ⊆ v1 →
  (∀ h, visited !! h = None → is_Some (v1 !! h) → anc v1 h f) →
  path_loads hash visited (<[hash := f]> v1).
Proof.
  intros Hvis Hread Hk Hn.
  assert (v1 ⊆ <[hash := f]> v1) as Hsub.
  { destruct (v1 !! hash) as [g|] eqn:Hg; [|by apply insert_subseteq].
    destruct (Hn hash) as (g' & Hg' & Hr & _); [done | eauto |].
    rewrite insert_id; [done |]. congruence. }
  split; [by etrans |]. exists f. rewrite lookup_insert_eq. split; [done |]. intros h Hnone [g Hg].
  destruct (decide (h = hash)) as [-> | Hne].
  - exists f. rewrite lookup_insert_eq. split_and!; [done | done | constructor].
  - rewrite lookup_insert_ne in Hg by done. eapply chain_mono; [done |]. apply Hn; eauto.
Qed.

Lemma path_ok fuel hash base visited r :
  load_frontier_path_to_base root archive genesis fuel hash base visited = Ok r →
  path_loads hash visited r.1.
Proof.
  revert hash visited r. induction fuel as [|fuel IH]; intros hash visited r Hrun; [done |].
  cbn [load_frontier_path_to_base] in Hrun.
  destruct (visited !! hash) as [f|] eqn:Hvis; cbn [is_some_b] in Hrun.
  { simplify_eq. split; [done |]. exists f. split; [done |]. intros h Hn [? ?]. cbn in *. congruence. }
  apply bind_Ok in Hrun as (f & Hread%map_err_Ok & Hrun). case_decide.
  - injection Hrun as <-. apply path_insert; try done. intros h Hn [? ?]. congruence.
  - apply bind_Ok in Hrun as (vf & Hfold & Hrun). apply bind_Ok in Hrun as ([] & _ & [= <-]).
    apply (path_parents_ok (λ p v, load_frontier_path_to_base root archive genesis fuel p base v))
      in Hfold as [Hk Hn]; [|intros p v r' Hr; by apply (IH p)].
    by apply path_insert.
Qed.

(** Everything loaded from nothing is extended by the frontier asked for. *)
Lemma path_extends fuel head base r :
  load_frontier_path_to_base root archive genesis fuel head base ∅ = Ok r →
  ∃ accepted, r.1 !! head = Some accepted ∧
    read_frontier root archive genesis head = Ok accepted ∧
    ∀ h f, r.1 !! h = Some f →
      read_frontier root archive genesis h = Ok f ∧ extends f accepted.
Proof.
  intros [_ (accepted & Ha & Hnew)]%path_ok. exists accepted.
  assert (∀ h f, r.1 !! h = Some f →
    read_frontier root archive genesis h = Ok f ∧ extends f accepted) as Hall.
  { intros h f Hf. destruct (Hnew h) as (f' & Hf' & Hread & Hch); [apply lookup_empty | eauto |].
    simplify_eq. split; [done | by apply chain_sound]. }
  split_and!; [done | by apply Hall | done].
Qed.

(** The load ends, and never panics on a parent. *)
Lemma path_total (rank : string → nat) fuel hash base visited stop :
  (∀ hash f p, read_frontier root archive genesis hash = Ok f → p ∈ previous_frontiers f →
     rank p < rank hash) →
  rank hash < fuel →
  load_frontier_path_to_base root archive genesis fuel hash base visited = Err stop →
  ∃ error, stop = Stopped error.
Proof.
  intros Hrank. revert hash visited stop.
  induction fuel as [|fuel IH]; intros hash visited stop Hfuel Hrun; [lia |].
  cbn [load_frontier_path_to_base] in Hrun. case_match; [done |].
  apply bind_Err in Hrun as [?%map_err_Stopped' | (f & Hread%map_err_Ok & Hrun)]; [done |].
  case_decide; [done |].
  apply bind_Err in Hrun as [Hfold | (vf & _ & Hrun)]; cycle 1.
  { apply bind_Err in Hrun as [Hb | ([] & _ & Hrun)]; [|done]. unfold check_parentless in Hb.
    apply bail_if_Err in Hb as [_ ->]. by eexists. }
  assert (∀ p, p ∈ previous_frontiers f → rank p < fuel) as Hlt.
  { intros p Hp. pose proof (Hrank _ _ _ Hread Hp). lia. }
  clear Hread. revert Hfold. generalize (visited, false). revert Hlt.
  generalize (previous_frontiers f). intros parents.
  induction parents as [|p parents IHp]; intros Hlt vf Hfold; [done |]. cbn in Hfold.
  apply bind_Err in Hfold as [Hstep | (v1 & _ & Hfold)]; cycle 1.
  { eapply IHp; [|done]. intros q Hq. apply Hlt. by right. }
  apply bind_Err in Hstep as [Hload | (found & [_ (b & Hb & _)]%path_ok & Hstep)].
  { eapply IH; [|done]. apply Hlt. by left. }
  unfold check_parent in Hstep. rewrite Hb in Hstep. cbn [ok_or mbind result_bind] in Hstep.
  apply bind_Err in Hstep as [Hs | (x & _ & Hstep)]; [|done].
  destruct (validate_successor_of f b); cbn in Hs; simplify_eq; by eexists.
Qed.
End path.

(** ** Rounds over pending origins *)

Section rounds.
Context (step : Enrollment * bool → string → result Stop (Enrollment * bool)).
Context (good : Enrollment → Prop).
Hypothesis good_nodup : ∀ e, good e → NoDup (e_pending e).
Hypothesis step_ok : ∀ e progressed id e' progressed',
  good e → id ∈ e_pending e → step (e, progressed) id = Ok (e', progressed') →
  (e' = e ∧ progressed' = progressed) ∨
  (progressed' = true ∧ e_pending e' = filter (λ p, p ≠ id) (e_pending e) ∧ good e').

(** A round keeps the state good; if it progressed, fewer origins are pending. *)
Lemma round_good l e progressed e' progressed' :
  good e → NoDup l → (∀ id, id ∈ l → id ∈ e_pending e) →
  fold_result step (e, progressed) l = Ok (e', progressed') →
  good e' ∧ length (e_pending e') <= length (e_pending e) ∧
  (progressed' = true → progressed = true ∨ length (e_pending e') < length (e_pending e)).
Proof using step_ok.
  revert e progressed. induction l as [|id l IH]; intros e progressed Hok Hnd Hsub Hrun.
  - cbn in Hrun. simplify_eq. split_and!; [done | done | auto].
  - cbn in Hrun. apply bind_Ok in Hrun as ([e1 p1] & Hstep & Hrun).
    apply NoDup_cons in Hnd as [Hid Hnd].
    assert (id ∈ e_pending e) as Hin by (apply Hsub; by left).
    destruct (step_ok _ _ _ _ _ Hok Hin Hstep) as [[-> ->] | (-> & Hpend & Hok1)].
    + eapply IH in Hrun; eauto. intros x Hx. apply Hsub. by right.
    + pose proof (filter_ne_length id _ Hin) as Hlt. rewrite <- Hpend in Hlt.
      eapply IH in Hrun as (? & ? & _); [|done | done |].
      * split_and!; [done | lia | intros _; right; lia].
      * intros x Hx. rewrite Hpend. apply list_elem_of_filter. split; [by intros -> |].
        apply Hsub. by right.
Qed.

(** A round fails only with an error of a step. *)
Lemma round_total l e progressed stop :
  (∀ e progressed id stop, good e → id ∈ e_pending e → step (e, progressed) id = Err stop →
     ∃ error, stop = Stopped error) →
  good e → NoDup l → (∀ id, id ∈ l → id ∈ e_pending e) →
  fold_result step (e, progressed) l = Err stop → ∃ error, stop = Stopped error.
Proof using step_ok.
  intros Htotal. revert e progressed.
  induction l as [|id l IH]; intros e progressed Hok Hnd Hsub Hrun; [done |].
  cbn in Hrun. apply NoDup_cons in Hnd as [Hid Hnd].
  assert (id ∈ e_pending e) as Hin by (apply Hsub; by left).
  apply bind_Err in Hrun as [Hstep | ([e1 p1] & Hstep & Hrun)]; [by eapply Htotal |].
  destruct (step_ok _ _ _ _ _ Hok Hin Hstep) as [[-> ->] | (-> & Hpend & Hok1)].
  - eapply IH in Hrun; eauto. intros x Hx. apply Hsub. by right.
  - eapply IH in Hrun; [done | done | done |]. intros x Hx.
    rewrite Hpend. apply list_elem_of_filter. split; [by intros -> |]. apply Hsub. by right.
Qed.
End rounds.

(** ** Incremental verification of an archive *)

Section since.
Context `{!Blake3Laws, !Ed25519Laws}.
Context (root : Tree) (g : SignedGenesis) (ghash : string) (accepted : CausalFrontier).
Context (replays : list VerifiedV2Record → Registry → Prop).
Hypothesis replays_app : ∀ prior rs registry registry', replays prior registry →
  apply_client_registry_items rs registry = Ok registry' → replays (prior ++ rs) registry'.
Context (cursors : gmap string V2OriginCursor) (visited : gmap string CausalFrontier).
Hypothesis sorted : key_sorted Frontier.origin_id (origins accepted).

(** The records of an origin were its client's to write: the genesis client's, or those of
    the client of that identifier in the registry that a replay of the records [prior], read
    before them, leaves: every frontier they were written from includes the enrollment, and
    none the revocation, that the registry holds for it. *)
Definition authorized (prior : list VerifiedV2Record) (o : OriginFrontier)
    (rs : list VerifiedV2Record) : Prop :=
  Frontier.origin_id o = initial_client_id (body g) ∨
  ∃ registry c, replays prior registry ∧
    registry !! Frontier.origin_id o = Some c ∧ client_ok (Frontier.origin_id o) c ∧
    ∀ r, r ∈ rs → ∃ base, visited !! causal_frontier_hash r = Some base ∧ may_write_from c base.

(** An origin's range was verified from its cursor with the client's key. *)
Definition range_verified (prior : list VerifiedV2Record) (o : OriginFrontier)
    (rs : list VerifiedV2Record) : Prop :=
  (∃ key n, key_of_client (Frontier.origin_id o) key ∧
    verify_origin_range root g ghash key o (cursor_of cursors (Frontier.origin_id o)) visited
    = Ok (rs, n)) ∧ authorized prior o rs.

(** An origin's cursor is its accepted tail. *)
Definition up_to_date (o : OriginFrontier) : Prop :=
  cursor_of cursors (Frontier.origin_id o) = cursor_at o.

(** The state of the rounds: the origins done, each with its range; the others are up to
    date or pending. *)
Record since_ok (log : list (OriginFrontier * list VerifiedV2Record)) (e : Enrollment) : Prop := {
  si_records : e_records e = concat log.*2;
  si_verified : in_turn range_verified log;
  si_clients : replays (e_records e) (e_clients e);
  si_nodup : NoDup (Frontier.origin_id <$> log.*1);
  si_done : ∀ o, o ∈ log.*1 → o ∈ origins accepted ∧ ¬ up_to_date o ∧
    Frontier.origin_id o ∉ e_pending e;
  si_all : ∀ o, o ∈ origins accepted →
    o ∈ log.*1 ∨ Frontier.origin_id o ∈ e_pending e ∨ up_to_date o;
  si_pending : ∀ o, o ∈ origins accepted → Frontier.origin_id o ∈ e_pending e → ¬ up_to_date o;
  si_registry : registry_ok (e_clients e);
  si_pending_nodup : NoDup (e_pending e);
  si_known : ∀ id, id ∈ e_pending e → id ∈ Frontier.origin_id <$> origins accepted;
}.

Lemma range_candidate_Ok log e progressed id e' progressed' :
  since_ok log e → id ∈ e_pending e →
  range_candidate root g ghash accepted cursors visited (e, progressed) id
    = Ok (e', progressed') →
  (e' = e ∧ progressed' = progressed) ∨
  (progressed' = true ∧ e_pending e' = filter (λ p, p ≠ id) (e_pending e) ∧
   ∃ log', since_ok log' e').
Proof using All.
  intros Hok Hid. unfold range_candidate.
  destruct (e_clients e !! id) as [c|] eqn:Hc; [|intros; simplify_eq; by left].
  intros (o & Ho%ok_or_Ok & Hrun)%bind_Ok. right. apply find_origin_Some in Ho as [Ho <-]; [|done].
  apply bind_Ok in Hrun as (key & Hkey%map_err_Ok%ok_or_Ok & Hrun).
  apply bind_Ok in Hrun as ([rs n] & Hrange & Hrun). apply bind_Ok in Hrun as ([] & Hmay & Hrun).
  apply bind_Ok in Hrun as (count & _ & Hrun).
  apply bind_Ok in Hrun as (clients & Happly%map_err_Ok & [= <- <-]).
  pose proof (apply_items_evolves _ _ _ Happly) as [_ _ Hreg].
  split_and!; [done.. |].
  destruct Hok as [Hr Hall Hclients Hnd Hdone Horigins Hpend Hregistry Hpnd Hknown].
  exists (log ++ [(o, rs)]). split; cbn [e_records e_pending e_clients].
  - rewrite fmap_app, concat_app, Hr. cbn. by rewrite app_nil_r.
  - apply in_turn_snoc; [done |]. split.
    + exists key, n. split; [|done]. eapply client_key_of; [by apply Hregistry | done].
    + case_decide as Hi; [by left | right]. exists (e_clients e), c. rewrite <- Hr.
      split_and!; [done.. | by apply Hregistry |].
      by apply map_err_Ok, validate_client_origin_Ok in Hmay as [_ Hmay].
  - by apply (replays_app _ _ (e_clients e)).
  - rewrite !fmap_app. apply NoDup_app. split_and!; [done | | by repeat constructor; apply not_elem_of_nil].
    intros x (o' & -> & Ho')%list_elem_of_fmap Heq%list_elem_of_singleton.
    destruct (Hdone _ Ho') as (_ & _ & Hn). apply Hn. by rewrite Heq.
  - intros o'. rewrite fmap_app. intros [Ho' | ->%list_elem_of_singleton]%elem_of_app.
    + destruct (Hdone _ Ho') as (? & ? & ?). split_and!; [done.. |].
      rewrite list_elem_of_filter. tauto.
    + split_and!; [done | by apply Hpend |]. rewrite list_elem_of_filter. tauto.
  - intros o' Ho'. rewrite fmap_app. destruct (Horigins o' Ho') as [? | [Hp | ?]]; [set_solver | |tauto].
    destruct (decide (Frontier.origin_id o' = Frontier.origin_id o)) as [Heq |].
    + left. assert (o' = o) as -> by by apply (key_sorted_inj Frontier.origin_id (origins accepted)).
      set_solver.
    + right. left. by apply list_elem_of_filter.
  - intros o' Ho' [_ Hp]%list_elem_of_filter. auto.
  - auto.
  - by apply NoDup_filter.
  - intros id' [_ Hid']%list_elem_of_filter. auto.
Qed.

(** A candidate that was pending is an accepted origin, so looking it up does not panic. *)
Lemma range_candidate_total log e progressed id stop :
  since_ok log e → id ∈ e_pending e →
  range_candidate root g ghash accepted cursors visited (e, progressed) id = Err stop →
  ∃ error, stop = Stopped error.
Proof using All.
  intros Hok Hid Hstep. unfold range_candidate in Hstep.
  destruct (e_clients e !! id) as [c|]; [|done].
  pose proof (si_known _ _ Hok id Hid) as (o & -> & Ho)%list_elem_of_fmap.
  rewrite (proj2 (find_origin_Some _ sorted _ o)) in Hstep by done.
  cbn [ok_or mbind result_bind] in Hstep.
  apply bind_Err in Hstep as [?%map_err_Stopped' | (key & _ & Hstep)]; [done |].
  apply bind_Err in Hstep as [?%verify_origin_range_total | ([rs n] & _ & Hstep)]; [done |].
  apply bind_Err in Hstep as [Hv | ([] & _ & Hstep)].
  { case_decide; [done |]. by apply map_err_Stopped' in Hv. }
  apply bind_Err in Hstep as [?%ok_or_Stopped | (count & _ & Hstep)]; [done |].
  by apply bind_Err in Hstep as [?%map_err_Stopped' | (clients & _ & Hstep)].
Qed.

Lemma range_rounds_total fuel log e stop :
  since_ok log e → length (e_pending e) <= fuel →
  range_rounds root g ghash accepted cursors visited fuel e = Err stop →
  ∃ error, stop = Stopped error.
Proof using All.
  revert log e. induction fuel as [|fuel IH]; intros log e Hok Hfuel Hrun; cbn [range_rounds] in Hrun;
    (destruct (e_pending e) eqn:Hp; [done |]); [cbn in Hfuel; lia |].
  rewrite <- Hp in Hrun. rewrite <- Hp in Hfuel.
  assert (∀ e0 q id e0' q', (∃ log, since_ok log e0) → id ∈ e_pending e0 →
    range_candidate root g ghash accepted cursors visited (e0, q) id = Ok (e0', q') →
    (e0' = e0 ∧ q' = q) ∨ (q' = true ∧ e_pending e0' = filter (λ p, p ≠ id) (e_pending e0) ∧
      ∃ log, since_ok log e0')) as Hstep.
  { intros e0 q id e0' q' [log0 Hok0]. by apply (range_candidate_Ok log0). }
  apply bind_Err in Hrun as [Hround | ([e1 p1] & Hround & Hrun)].
  - eapply (round_total _ (λ e, ∃ log, since_ok log e) Hstep) in Hround; [done | | | | done].
    + intros e0 q id stop' [log0 Hok0]. by apply (range_candidate_total log0).
    + by exists log.
    + apply Hok.
  - apply (round_good _ (λ e, ∃ log, since_ok log e) Hstep) in Hround as ([log1 Hok1] & _ & Hprog);
      [| by exists log | by apply Hok | done].
    apply bind_Err in Hrun as [Hb | ([] & Hb & Hrun)].
    + apply bail_if_Err in Hb as [_ ->]. by eexists.
    + apply bail_if_Ok, negb_false_iff in Hb as ->.
      apply (IH log1) in Hrun; [done | done |]. destruct Hprog as [? | ?]; [done | done | lia].
Qed.

Lemma range_rounds_Ok fuel log e e' :
  since_ok log e →
  range_rounds root g ghash accepted cursors visited fuel e = Ok e' →
  (∃ log', since_ok log' e') ∧ e_pending e' = [].
Proof using All.
  revert log e. induction fuel as [|fuel IH]; intros log e Hok Hrun; cbn [range_rounds] in Hrun;
    (destruct (e_pending e) eqn:Hp; [simplify_eq; split; [by exists log | done] |]); [done |].
  rewrite <- Hp in Hrun. apply bind_Ok in Hrun as ([e1 p1] & Hround & Hrun).
  apply (round_good (range_candidate root g ghash accepted cursors visited)
    (λ e, ∃ log, since_ok log e)) in Hround as ([log1 Hok1] & _).
  - inv_ok. by apply (IH log1 e1).
  - intros e0 q id e0' q' [log0 Hok0]. by apply (range_candidate_Ok log0).
  - by exists log.
  - apply Hok.
  - done.
Qed.

(** The loop over the cursors collects exactly the origins that are not up to date. *)
Lemma check_cursors_Ok pending :
  fold_result (check_cursor cursors) [] (origins accepted) = Ok pending →
  (∀ o, o ∈ origins accepted → Frontier.origin_id o ∈ pending ∨ up_to_date o) ∧
  (∀ o, o ∈ origins accepted → Frontier.origin_id o ∈ pending → ¬ up_to_date o) ∧
  (∀ id, id ∈ pending → id ∈ Frontier.origin_id <$> origins accepted).
Proof using All.
  intros Hrun.
  assert ((∀ o, o ∈ origins accepted → Frontier.origin_id o ∈ pending ∨ up_to_date o) ∧
    (∀ id, id ∈ pending → ∃ o, o ∈ origins accepted ∧ Frontier.origin_id o = id ∧ ¬ up_to_date o))
    as [Hall Hpend].
  { revert Hrun. apply (fold_result_ind_in (check_cursor cursors) (λ seen pending,
      (∀ o, o ∈ seen → Frontier.origin_id o ∈ pending ∨ up_to_date o) ∧
      (∀ id, id ∈ pending → ∃ o, o ∈ origins accepted ∧ Frontier.origin_id o = id ∧ ¬ up_to_date o))).
    - split; [|]; intros ? ?%elem_of_nil; done.
    - intros seen o rest pend pend' Horigins [IHall IHpend] Hstep.
      unfold check_cursor in Hstep. apply bind_Ok in Hstep as ([] & _ & Hstep).
      destruct (N.eqb_spec (applied_seq (cursor_of cursors (Frontier.origin_id o))) (Frontier.seq o))
        as [Hseq | Hseq].
      + apply bind_Ok in Hstep as ([] & Hsame & [= <-]). apply bail_if_Ok in Hsame. boolify.
        split; [|done]. intros o' [Ho' | ->%list_elem_of_singleton]%elem_of_app; [auto |].
        right. unfold up_to_date, cursor_at.
        destruct (cursor_of cursors (Frontier.origin_id o)); cbn in *. congruence.
      + injection Hstep as <-. split.
        * intros o' [Ho' | ->%list_elem_of_singleton]%elem_of_app; [|set_solver].
          destruct (IHall o' Ho'); [set_solver | by right].
        * intros id [Hid | ->%list_elem_of_singleton]%elem_of_app; [auto |]. exists o.
          split_and!; [rewrite Horigins; set_solver | done |]. unfold up_to_date. intros Hu.
          by rewrite Hu in Hseq. }
  split_and!; [done | |].
  2: { intros id Hid. destruct (Hpend _ Hid) as (o & Ho & <- & _). by apply list_elem_of_fmap_2. }
  intros o Ho Hid. destruct (Hpend _ Hid) as (o' & Ho' & Heq & Hn).
  by rewrite <- (key_sorted_inj Frontier.origin_id (origins accepted) o' o).
Qed.

(** The records of one origin, from the log of a finished verification. *)
Lemma since_records log e :
  since_ok log e → e_pending e = [] →
  (∀ o, o ∈ origins accepted →
    let rs := filter (λ r, origin_of r = Frontier.origin_id o) (e_records e) in
    (∃ prior post, e_records e = prior ++ rs ++ post ∧ range_verified prior o rs) ∨
    (up_to_date o ∧ rs = [])) ∧
  ∀ r, r ∈ e_records e → origin_of r ∈ Frontier.origin_id <$> origins accepted.
Proof using All.
  intros [Hr Hall _ Hnd Hdone Horigins _ _ _ _] Hnil. rewrite Hr. clear Hr.
  pose proof (in_turn_all _ _ Hall) as Heach. rewrite Forall_forall in Heach.
  assert (∀ p r, p ∈ log → r ∈ p.2 → origin_of r = Frontier.origin_id p.1) as Hown.
  { intros p r Hp Hr. destruct (Heach _ Hp) as (prior & (key & n & _ & Hrange) & _).
    by eapply verify_origin_range_origin. }
  split.
  - intros o Ho. destruct (decide (Frontier.origin_id o ∈ Frontier.origin_id <$> log.*1))
      as [Hin | Hn].
    + left. apply list_elem_of_fmap in Hin as (o' & Hid & Hin).
      destruct (Hdone o' Hin) as (Ho' & _).
      assert (o = o') as -> by by apply (key_sorted_inj Frontier.origin_id (origins accepted)).
      apply list_elem_of_fmap in Hin as ([o1 rs] & -> & Hin). cbn [fst].
      rewrite (log_records log o1 rs) by done.
      destruct (in_turn_elem _ _ _ _ Hall Hin) as (prior & post & ? & ?). by exists prior, post.
    + right. split; [|by apply log_other].
      destruct (Horigins o Ho) as [Hin | [Hin | Hup]]; [| |done].
      * by destruct Hn; apply list_elem_of_fmap_2.
      * by rewrite Hnil in Hin; apply elem_of_nil in Hin.
  - intros r Hr.
    apply list_elem_of_In, in_concat in Hr as (rs & Hrs%list_elem_of_In & Hr%list_elem_of_In).
    apply list_elem_of_fmap in Hrs as (p & -> & Hp). rewrite (Hown p r Hp Hr).
    apply list_elem_of_fmap_2. apply Hdone. by apply list_elem_of_fmap_2.
Qed.
End since.

Section continues.
Context `{!Blake3Laws, !Ed25519Laws}.

Lemma with_initial_client_ok g key clients :
  validate_body (body g) = Ok key → registry_ok clients →
  registry_ok (with_initial_client g key clients).
Proof.
  intros [_ _ _ Hc]%validate_body_Ok Hreg. unfold with_initial_client. case_match; [done |].
  intros id c [[<- <-] | [_ Hl]]%lookup_insert_Some; [|by apply Hreg].
  split; cbn; [done | rewrite Hc; apply client_id_origin | apply key_bytes_length | done |].
  eexists. apply key_from_to_bytes.
Qed.

(** The registry after [prior], from the registry [start]. *)
Definition replayed_from (start : Registry) (prior : list VerifiedV2Record)
    (registry : Registry) : Prop :=
  apply_client_registry_items prior start = Ok registry.

Lemma replayed_from_app start prior rs registry registry' :
  replayed_from start prior registry → apply_client_registry_items rs registry = Ok registry' →
  replayed_from start (prior ++ rs) registry'.
Proof.
  unfold replayed_from, apply_client_registry_items. intros Hprior Hrs.
  by rewrite fold_result_app, Hprior.
Qed.

(** The state before the rounds. *)
Lemma since_start root g ghash accepted cursors visited pending key trusted :
  key_sorted Frontier.origin_id (origins accepted) →
  validate_body (body g) = Ok key → registry_ok trusted →
  fold_result (check_cursor cursors) [] (origins accepted) = Ok pending →
  since_ok root g ghash accepted (replayed_from (with_initial_client g key trusted)) cursors
    visited [] {|
    e_clients := with_initial_client g key trusted; e_records := []; e_segments := 0;
    e_pending := btree_set pending |}.
Proof.
  intros Hsorted Hkey Htrusted Hpending.
  apply (check_cursors_Ok root g ghash _ _ (replayed_from_app ∅) _ visited Hsorted) in Hpending as (Hcur & Hnot & Hsub).
  split; cbn [e_records e_pending e_clients]; try done.
  - apply in_turn_nil.
  - constructor.
  - intros o Ho. by apply elem_of_nil in Ho.
  - intros o Ho. right. rewrite elem_of_btree_set. by apply Hcur.
  - intros o Ho. rewrite elem_of_btree_set. by apply Hnot.
  - by apply with_initial_client_ok.
  - unfold btree_set. rewrite merge_sort_Permutation. apply NoDup_remove_dups.
  - intros id. rewrite elem_of_btree_set. apply Hsub.
Qed.

(** What an incremental verification establishes before its records are put after others. *)
Record since_verified (root : Tree) (base_hash : string)
    (cursors : gmap string V2OriginCursor) (trusted : Registry) (a : VerifiedV2Archive)
    : Prop := {
  sv_genesis : Genesis.genesis_hash (genesis a) = Ok (archive_genesis_hash a);
  sv_head : read_head root = Ok (accepted_frontier_hash a) ∧
    read_frontier root (genesis_archive_id (genesis a)) (archive_genesis_hash a)
      (accepted_frontier_hash a) = Ok (accepted_frontier a);
  sv_base : ∃ f, read_frontier root (genesis_archive_id (genesis a)) (archive_genesis_hash a)
      base_hash = Ok f ∧ extends f (accepted_frontier a);
  sv_extends : ∀ h f, frontiers a !! h = Some f → extends f (accepted_frontier a);
  sv_origins : ∃ key, validate_body (body (genesis a)) = Ok key ∧
    let replays := replayed_from (with_initial_client (genesis a) key trusted) in
    replays (records a) (clients a) ∧
    ∀ o, o ∈ origins (accepted_frontier a) →
    let own := origin_records a (Frontier.origin_id o) in
    (∃ prior post, records a = prior ++ own ++ post ∧
       range_verified root (genesis a) (archive_genesis_hash a) replays cursors (frontiers a)
         prior o own) ∨
    (up_to_date cursors o ∧ own = []);
  sv_only : ∀ r, r ∈ records a →
    origin_of r ∈ Frontier.origin_id <$> origins (accepted_frontier a);
  sv_batches : ∀ r, r ∈ records a →
    ∃ start complete ds, batch_complete (records a) (id_of r) start complete ds;
}.

Lemma verify_since_Ok fuel root base_hash cursors trusted a :
  verify_since_with_clients fuel root base_hash cursors trusted = Ok a →
  registry_ok trusted → since_verified root base_hash cursors trusted a.
Proof.
  unfold verify_since_with_clients. intros Hrun Htrusted.
  apply bind_Ok in Hrun as ([] & _ & Hrun).
  apply bind_Ok in Hrun as ([g ghash] & Hgen%map_err_Ok & Hrun).
  apply bind_Ok in Hrun as (head & Hhead%map_err_Ok & Hrun).
  apply bind_Ok in Hrun as ([visited at_base] & Hload%path_extends & Hrun).
  apply bind_Ok in Hrun as ([] & Hbase & Hrun).
  apply bail_if_Ok, negb_false_iff, is_some_b_true in Hbase as [f Hf].
  apply bind_Ok in Hrun as (accepted & Hacc%ok_or_Ok & Hrun).
  destruct Hload as (accepted' & Hacc' & Hread & Hall). cbn [fst] in *.
  rewrite Hacc in Hacc'. injection Hacc' as <-.
  apply bind_Ok in Hrun as (key & Hkey%map_err_Ok & Hrun).
  apply bind_Ok in Hrun as (pending & Hpending%map_err_Ok & Hrun).
  apply bind_Ok in Hrun as (e & Hrounds & Hrun). apply bind_Ok in Hrun as ([] & _ & Hrun).
  apply bind_Ok in Hrun as ([] & Hbatches%map_err_Ok & [= <-]).
  assert (key_sorted Frontier.origin_id (origins accepted)) as Hsorted.
  { apply read_frontier_Ok in Hread as [[Hwf _]%frontier_hash_Ok _]. by apply Hwf. }
  pose proof (since_start root _ ghash _ _ visited _ _ _ Hsorted Hkey Htrusted Hpending) as Hstart.
  eapply range_rounds_Ok in Hrounds as [[log Hlog] Hnil];
    [| apply replayed_from_app | done | exact Hstart].
  destruct (since_records _ _ _ _ _ (replayed_from_app _) _ _ Hsorted _ _ Hlog Hnil) as [Horigins Honly].
  split; cbn; try done.
  - unfold read_genesis in Hgen. inv_ok. done.
  - exists f. by apply Hall.
  - intros h f' Hf'. by apply (Hall h).
  - exists key. split_and!; [done | by apply Hlog | done].
  - exact (verify_batches_Ok _ _ Hbatches).
Qed.

(** The cursors of everything a verified archive holds. *)
Definition cursors_of (a : VerifiedV2Archive) : gmap string V2OriginCursor :=
  list_to_map ((λ o, (Frontier.origin_id o, cursor_at o)) <$> origins (accepted_frontier a)).

Lemma cursors_of_Some a o :
  key_sorted Frontier.origin_id (origins (accepted_frontier a)) →
  o ∈ origins (accepted_frontier a) →
  cursor_of (cursors_of a) (Frontier.origin_id o) = cursor_at o.
Proof.
  intros Hsorted Ho. unfold cursor_of, cursors_of.
  rewrite (elem_of_list_to_map_1 _ _ (cursor_at o)); [done | |].
  - rewrite <- list_fmap_compose. by apply (key_sorted_NoDup Frontier.origin_id).
  - by apply (list_elem_of_fmap_2 (λ o, (Frontier.origin_id o, cursor_at o))).
Qed.

Lemma cursors_of_None a id :
  id ∉ Frontier.origin_id <$> origins (accepted_frontier a) →
  cursor_of (cursors_of a) id = no_cursor.
Proof.
  intros Hid. unfold cursor_of, cursors_of. rewrite not_elem_of_list_to_map_1; [done |].
  by rewrite <- list_fmap_compose.
Qed.

(** The records [rs] are the whole chain of the origin [o], as [verify_origin] accepts it. *)
Definition origin_chain (a : VerifiedV2Archive) (o : OriginFrontier)
    (rs : list VerifiedV2Record) : Prop :=
  ∃ key, key_of_client (Frontier.origin_id o) key ∧
    linked (Frontier.origin_id o) 1 None rs ∧ N.of_nat (length rs) = Frontier.seq o ∧
    at_tail o rs ∧ Forall (signed (genesis a) (archive_genesis_hash a) key (Frontier.origin_id o)) rs.

(** Two keys one identifier is the hash of. *)
Definition key_collision (id : string) : Prop :=
  ∃ key key', key_of_client id key ∧ key_of_client id key' ∧
    blake3_collision (key_to_bytes key) (key_to_bytes key').

Lemma key_of_client_inj id key key' :
  key_of_client id key → key_of_client id key' → key = key' ∨ key_collision id.
Proof.
  intros Hk Hk'. pose proof Hk as Heq. unfold key_of_client in Heq. rewrite Hk' in Heq.
  apply (inj (String.append _)) in Heq.
  destruct (decide (key_to_bytes key' = key_to_bytes key)) as [Hb |].
  - left. apply (f_equal key_from_bytes) in Hb. rewrite !key_from_to_bytes in Hb. by injection Hb.
  - right. by exists key', key.
Qed.
(** A range, or an up-to-date origin, continues the chain the base archive holds. *)
Lemma continues_origin root0 base root a o :
  archive_ok root0 base →
  since_verified root (accepted_frontier_hash base) (cursors_of base) (clients base) a →
  genesis a = genesis base → o ∈ origins (accepted_frontier a) →
  origin_chain a o
    (origin_records base (Frontier.origin_id o) ++ origin_records a (Frontier.origin_id o)) ∨
  key_collision (Frontier.origin_id o).
Proof.
  intros Hbase Ha Hg Ho.
  assert (archive_genesis_hash a = archive_genesis_hash base) as Hgh.
  { destruct (ao_genesis _ _ Hbase) as [_ Hh]. pose proof (sv_genesis _ _ _ _ _ Ha) as Hh'. congruence. }
  assert (key_sorted Frontier.origin_id (origins (accepted_frontier base))) as Hsorted.
  { destruct (ao_head _ _ Hbase) as [_ [[Hwf _]%frontier_hash_Ok _]%read_frontier_Ok].
    by apply Hwf. }
  destruct (sv_origins _ _ _ _ _ Ha) as (gkey & _ & _ & Horigins). specialize (Horigins o Ho).
  cbn zeta in Horigins. unfold origin_chain. rewrite Hg, Hgh in *.
  destruct (decide (Frontier.origin_id o ∈ Frontier.origin_id <$> origins (accepted_frontier base)))
    as [(ob & Hid & Hob)%list_elem_of_fmap | Hn].
  - destruct (archive_origin _ _ Hbase ob Hob) as (key & n & Hv & Hkey).
    pose proof (cursors_of_Some _ _ Hsorted Hob) as Hcur. rewrite <- Hid in Hv, Hkey, Hcur.
    destruct Horigins as [(prior & post & _ & (key' & n' & Hkey' & Hrange) & _) | [Hup ->]].
    + destruct (key_of_client_inj _ _ _ Hkey Hkey') as [<- | ?]; [left | by right].
      rewrite Hcur in Hrange. exists key. split; [done |].
      apply trusted_origin in Hv. rewrite <- Hid in Hv.
      by eapply verify_origin_range_Ok in Hrange as (? & ? & ? & ? & _).
    + left. exists key. rewrite app_nil_r. split; [done |]. unfold up_to_date in Hup.
      assert (ob = o) as ->; [|by apply verify_origin_Ok in Hv].
      rewrite Hcur in Hup. destruct o, ob. cbn in *. unfold cursor_at in Hup. cbn in *. congruence.
  - rewrite (archive_no_origin _ _ _ Hbase Hn). pose proof (cursors_of_None _ _ Hn) as Hcur.
    destruct Horigins as [(prior & post & _ & (key' & n' & Hkey' & Hrange) & _) | [Hup _]].
    + left. exists key'. split; [done |]. rewrite Hcur in Hrange.
      eapply verify_origin_range_Ok in Hrange as (? & ? & ? & ? & _); [done |].
      apply trusted_none.
    + unfold up_to_date in Hup. by rewrite Hcur in Hup.
Qed.


(** C36: an incremental verification always ends without a panic: when parent links of
    frontier files are acyclic and the fuel exceeds the length of the longest line of
    parents below HEAD, the result is an archive or an error of the code; the walk over a
    range and the rounds over the pending origins need no assumption. *)
Theorem verify_since_total fuel root base_hash cursors trusted (rank : string → nat) :
  (∀ archive ghash hash f p,
     read_frontier root archive ghash hash = Ok f → p ∈ previous_frontiers f →
     rank p < rank hash) →
  (∀ head, read_head root = Ok head → rank head < fuel) →
  registry_ok trusted →
  (∃ a, verify_since_with_clients fuel root base_hash cursors trusted = Ok a) ∨
  (∃ error, verify_since_with_clients fuel root base_hash cursors trusted = Err (Stopped error)).
Proof.
  intros Hrank Hfuel Htrusted.
  destruct (verify_since_with_clients _ _ _ _ _) as [a|stop] eqn:Hrun; [by left; exists a | right].
  enough (∃ error, stop = Stopped error) as [error ->] by (by exists error).
  unfold verify_since_with_clients in Hrun.
  apply bind_Err in Hrun as [?%map_err_Stopped' | ([] & _ & Hrun)]; [done |].
  apply bind_Err in Hrun as [?%map_err_Stopped' | ([g ghash] & _ & Hrun)]; [done |].
  apply bind_Err in Hrun as [?%map_err_Stopped' | (head & Hhead%map_err_Ok & Hrun)]; [done |].
  apply bind_Err in Hrun as [Hload | ([visited at_base] & Hload%path_extends & Hrun)].
  { eapply path_total; [apply Hrank | by apply Hfuel | done]. }
  destruct Hload as (accepted' & Hacc' & Hread & _). cbn [fst] in *.
  apply bind_Err in Hrun as [[_ ->]%bail_if_Err | ([] & _ & Hrun)]; [by eexists |].
  apply bind_Err in Hrun as [?%ok_or_Stopped | (accepted & Hacc%ok_or_Ok & Hrun)]; [done |].
  rewrite Hacc in Hacc'. injection Hacc' as <-.
  apply bind_Err in Hrun as [?%map_err_Stopped | (key & Hkey%map_err_Ok & Hrun)]; [done |].
  apply bind_Err in Hrun as [?%map_err_Stopped' | (pending & Hpending%map_err_Ok & Hrun)]; [done |].
  apply read_frontier_Ok in Hread as [[Hwf _]%frontier_hash_Ok _].
  apply bind_Err in Hrun as [Hrounds | (e & _ & Hrun)].
  { eapply range_rounds_total; [apply replayed_from_app | apply Hwf | by eapply (since_start root _ ghash _ _ visited); [apply Hwf | ..] | done | done]. }
  apply bind_Err in Hrun as [?%map_err_Stopped' | ([] & _ & Hrun)]; [done |].
  by apply bind_Err in Hrun as [?%map_err_Stopped' | ([] & _ & Hrun)].
Qed.
End continues.
End ranges.

(** ** Examples *)

(** On the archive of two clients. *)
Module Examples.
#[local] Existing Instance Archive.Examples.lease_from_value.
#[local] Existing Instance Archive.Examples.lease_json.
#[local] Existing Instance Archive.Examples.genesis_json.
#[local] Existing Instance Archive.Examples.body_json.
#[local] Existing Instance Genesis.Examples.two_keys_laws.
#[local] Existing Instance Genesis.Examples.two_keys.
#[local] Existing Instance Archive.Examples.genesis_from_json.
#[local] Existing Instance Archive.Examples.envelope_json.
#[local] Existing Instance Archive.Examples.manifest_body_json.
#[local] Existing Instance Archive.Examples.manifest_json.
#[local] Existing Instance Archive.Examples.manifest_from_json.
#[local] Existing Instance Archive.Examples.frontier_json.
#[local] Existing Instance Archive.Examples.frontier_from_json.

Import Archive.Examples.

(** The cursors of the frontier before the last batch of the genesis client. *)
Definition before : gmap string V2OriginCursor := {[
  a := cursor_at (tail_at a 3 "3" "m1"); b := cursor_at (tail_at b 3 "6" "m2") ]}.

Definition since_f2 : result Stop VerifiedV2Archive :=
  verify_since_with_clients 4 Archive.Examples.tree (hash_of "f2") before ∅.

Lemma since_f2_computes : is_ok since_f2 = true.
Proof. vm_compute. reflexivity. Qed.

Lemma verify_since_total_witness :
  (∃ ar, since_f2 = Ok ar) ∨ (∃ error, since_f2 = Err (Stopped error)).
Proof.
  unfold since_f2. apply (verify_since_total 4 Archive.Examples.tree (hash_of "f2") before ∅ rank).
  - exact rank_acyclic.
  - intros head Hhead.
    assert (read_head Archive.Examples.tree = Ok (hash_of "f3")) as Hf3 by (vm_compute; reflexivity).
    rewrite Hf3 in Hhead. injection Hhead as <-. vm_compute. lia.
  - intros id c Hc. rewrite lookup_empty in Hc. discriminate Hc.
Defined.
End Examples.
