(* ===== verification/Visit.v ===== *)
(** Streaming verification: [visit_origin_range] of [v2_store.rs] and the operations built on
    it, [visit_verified], [verify_compact], [verification_report],
    [visit_verified_since_with_clients] and [verify_append_base]. A segment is read record by
    record, checked to its end, and only then replayed to a visitor.

    The visitor is a parameter: a state-changing call that may fail with an error of its own.
    What it did stays done when the visit fails later, so the visits are [st] computations over
    the visitor's state. So is [reopen], what reading a segment file again for the replay
    yields: the code opens the file a second time by its name, after the checks, and nothing
    makes the two readings agree; what is needed of it is a hypothesis of the theorems. *)
From Stdlib Require Import ZArith NArith Lia Ascii.
From stdpp Require Import base decidable list gmap strings sorting.
From S2P Require Import Prelude.
From S2P Require Import Text.
From S2P Require Import External.
From S2P Require Import Ids.
From S2P Require Import Frontier.
From S2P Require Import Batch.
From S2P Require Import Record.
From S2P Require Import Genesis.
From S2P Require Import Store.
From S2P Require Import Segment.
From S2P Require Import FrontierGraph.
From S2P Require Import Clients.
From S2P Require Import Coordination.
From S2P Require Import Batches.
From S2P Require Import Archive.
From S2P Require Import Append.
From S2P Require Import Ranges.

(** [E: From<V2StoreError>], with the two ways a model run ends that are not errors of the
    code. *)
Inductive Halt (E : Type) : Type :=
  | Halted (error : E)
  | HaltPanicked
  | HaltOutOfFuel.
Arguments Halted {E} error.
Arguments HaltPanicked {E}.
Arguments HaltOutOfFuel {E}.

Definition halt_of {E} (from : V2StoreError → E) (stop : Stop) : Halt E :=
  match stop with
  | Stopped error => Halted (from error)
  | Panicked => HaltPanicked
  | OutOfFuel => HaltOutOfFuel
  end.

(** ** Reading a file in pieces *)

(** What a [BufReader] with a buffer of [size] bytes yields, read by read. *)
Fixpoint buffer_reads (fuel size : nat) (b : bytes) : list bytes :=
  match fuel, b with
  | S fuel, _ :: _ => take size b :: buffer_reads fuel size (drop size b)
  | _, _ => []
  end.

(** [take(limit).read_until(b'\n', ..)]: the line with its newline, and what is left. *)
Fixpoint read_until (limit : N) (b : bytes) : bytes * bytes :=
  match b with
  | [] => ([], [])
  | c :: b' =>
      if (limit =? 0)%N then ([], b)
      else if Ascii.eqb c "010" then ([c], b')
      else let '(line, rest) := read_until (limit - 1) b' in (c :: line, rest)
  end.

(** [read_record_line]; the reader is what is left of the file. *)
Definition read_record_line (reader : bytes) (path : string)
    : result V2StoreError (option (bytes * bytes)) :=
  let '(line, rest) := read_until (saturating_add_u64 DEFAULT_MAX_V2_RECORD_BYTES 2) reader in
  if bool_decide (line = []) then Ok None
  else
    _ ← bail_if (negb (bool_decide (last line = Some "010"%char)))
          (Invalid ("segment has an unterminated or oversized record at " +:+ path));
    let line := take (length line - 1) line in
    _ ← bail_if (bool_decide (line = []))
          (Invalid ("segment contains an empty line at " +:+ path));
    Ok (Some (line, rest)).

Section stream.
Context `{Blake3}.

(** The body of the loop of [verify_segment_file]; its locals are [hasher], [observed] and
    [last]. *)
Definition hash_read (locals : hasher * N * option ascii) (buffer : bytes)
    : result V2StoreError (hasher * N * option ascii) :=
  let '(h, observed, _) := locals in
  observed ← ok_or (checked_add_u64 observed (N.of_nat (length buffer)))
               (Invalid "segment byte count overflow");
  Ok (hasher_update h buffer, observed, last buffer).

Definition verify_segment_file (root : Tree) (path : string) (expected_bytes : N)
    (expected_hash : string) : result V2StoreError () :=
  content ← map_err (Io "open signed segment" path) (tree_read root path);
  '(h, observed, last) ← fold_result hash_read (hasher_new, 0%N, None)
                           (buffer_reads (length content) (N.to_nat 65536) content);
  let observed_hash := "blake3:" +:+ hasher_finalize_hex h in
  bail_if (negb (observed =? expected_bytes)%N
           || negb (bool_decide (observed_hash = expected_hash))
           || negb (bool_decide (last = Some "010"%char)))
    (Invalid ("segment bytes do not match manifest at " +:+ path)).

(** [StreamingBatch] *)
Record StreamingBatch : Type := {
  stream_batch_id : string;
  stream_validator : BatchValidator;
}.

Definition streamed_descriptor (batch : string) (chunk : VerifiedV2Record)
    : result V2StoreError BatchChunkDescriptor :=
  items ← ok_or (assoc "items" (payload_object chunk) ≫= as_array)
            (Invalid ("batch " +:+ batch +:+ " chunk items are invalid"));
  first ← u64_field (payload_object chunk) "first_item_index";
  count ← ok_or (if (N.of_nat (length items) <=? u32_max)%N
                 then Some (N.of_nat (length items)) else None)
            (Invalid "batch item count overflow");
  Ok {| chunk_batch_id := batch; first_item_index := first; item_count := count;
        serialized_bytes := N.of_nat (length (exact_line_bytes chunk));
        Batch.record_hash := Record.record_hash (record chunk) |}.

(** [validate_streamed_batch_record]: the active batch after the record. *)
Definition validate_streamed_batch_record (r : VerifiedV2Record)
    (active : option StreamingBatch) : result V2StoreError (option StreamingBatch) :=
  let batch := id_of r in
  let no_start := Invalid ("batch " +:+ batch +:+ " has no start") in
  let crosses := Invalid ("batch " +:+ batch +:+ " crosses another batch") in
  match record_kind (envelope (record r)) with
  | BatchStart =>
      _ ← bail_if (is_some_b active)
            (Invalid ("batch " +:+ batch +:+ " starts before the preceding batch completed"));
      causal ← string_field (payload_object r) "causal_frontier_hash";
      _ ← bail_if (negb (bool_decide (causal = causal_frontier_hash r)))
            (Invalid ("batch " +:+ batch
                      +:+ " causal frontier does not match its segment manifest"));
      validator ← map_err BatchErr (new batch default_limits);
      Ok (Some {| stream_batch_id := batch; stream_validator := validator |})
  | BatchChunk =>
      state ← ok_or active no_start;
      _ ← bail_if (negb (bool_decide (stream_batch_id state = batch))) crosses;
      descriptor ← streamed_descriptor batch r;
      match accept_chunk descriptor (stream_validator state) with
      | (Ok _, validator) =>
          Ok (Some {| stream_batch_id := stream_batch_id state; stream_validator := validator |})
      | (Err e, _) => Err (BatchErr e)
      end
  | BatchComplete =>
      state ← ok_or active no_start;
      _ ← bail_if (negb (bool_decide (stream_batch_id state = batch))) crosses;
      total ← u64_field (payload_object r) "total_items";
      digest ← string_field (payload_object r) "ordered_item_digest";
      _ ← map_err BatchErr (validate_completion (stream_validator state)
            {| total_items := total; completion_digest := digest |});
      status ← string_field (payload_object r) "status";
      _ ← bail_if (negb (bool_decide (status = "complete")))
            (Invalid ("batch " +:+ batch +:+ " is not complete"));
      Ok None
  end.
End stream.

(** [OriginVisitStats] *)
Record OriginVisitStats : Type := {
  visit_records : N;
  visit_segments : N;
  archive_initialized_at : option (string * N);
}.
Definition no_stats : OriginVisitStats :=
  {| visit_records := 0; visit_segments := 0; archive_initialized_at := None |}.

Section visit.
Context `{Blake3, UlidCrate, Base64, Ed25519,
  FromJson V2RecordEnvelope, ToJson SegmentManifestBody, ToJson SignedSegmentManifest,
  FromJson SignedSegmentManifest, ToJson GenesisBody, ToJson SignedGenesis,
  FromJson SignedGenesis, ToJson CausalFrontier, FromJson CausalFrontier,
  ToJson CoordinationLeaseBody, FromValue SignedCoordinationLease}.

(** The locals of the reading loop of one segment, with the [&mut] parameters [clients] and
    [retained_starts]. *)
Record SegmentRead : Type := {
  read_seq : N;
  read_previous : option string;
  active : option StreamingBatch;
  segment_records : N;
  first_id : option string;
  first_hash : option string;
  last_id : option string;
  last_line_hash : option string;
  initialized_at : option (string * N);
  read_clients : Registry;
  retained_starts : list VerifiedV2Record;
}.

(** [Option::get_or_insert_with] *)
Definition get_or_insert {A} (o : option A) (a : A) : option A := Some (default a o).

(** The body of the reading loop. *)
Definition stream_record (origin manifest_hash frontier_hash : string)
    (known : gmap string CausalFrontier) (c : option VerifiedV2Client) (apply_registry : bool)
    (s : SegmentRead) (line : bytes) : result V2StoreError SegmentRead :=
  parsed ← map_err RecordErr
             (parse_v2_record line origin (read_seq s) (read_previous s)
                DEFAULT_MAX_V2_RECORD_BYTES);
  seq ← ok_or (checked_add_u64 (read_seq s) 1) (Invalid "origin sequence overflow");
  let r := {| record := parsed; exact_line_bytes := line;
              record_manifest_hash := manifest_hash; causal_frontier_hash := frontier_hash |} in
  _ ← match c with
      | Some c => validate_client_origin_records [r] c known
      | None => Ok ()
      end;
  _ ← validate_coordination_contexts [r] (read_clients s);
  active ← validate_streamed_batch_record r (active s);
  initialized ←
    (if record_contains_item_kind r "archive_initialized" then
       _ ← bail_if (is_some_b (initialized_at s))
             (Invalid "archive_initialized appears more than once");
       Ok (Some (dot r))
     else Ok (initialized_at s));
  clients ←
    (if apply_registry then apply_client_registry_items [r] (read_clients s)
     else Ok (read_clients s));
  let retained :=
    if bool_decide (record_kind (envelope parsed) = BatchStart)
       || record_contains_item_kind r "archive_initialized"
    then retained_starts s ++ [r] else retained_starts s in
  count ← ok_or (checked_add_u64 (segment_records s) 1) (Invalid "record count overflow");
  Ok {| read_seq := seq; read_previous := Some (record_hash parsed); active := active;
        segment_records := count;
        first_id := get_or_insert (first_id s) (record_id (envelope parsed));
        first_hash := get_or_insert (first_hash s) (record_hash parsed);
        last_id := Some (record_id (envelope parsed));
        last_line_hash := Some (record_hash parsed);
        initialized_at := initialized; read_clients := clients; retained_starts := retained |}.

(** [while let Some(line) = read_record_line(..)]; each line takes at least a byte, so the
    length of the file is enough [fuel]. *)
Fixpoint read_loop {S} (body : S → bytes → result V2StoreError S) (path : string)
    (fuel : nat) (reader : bytes) (s : S) : result Stop S :=
  match fuel with
  | O => Err OutOfFuel
  | S fuel =>
      next ← map_err Stopped (read_record_line reader path);
      match next with
      | None => Ok s
      | Some (line, reader) =>
          s ← map_err Stopped (body s line);
          read_loop body path fuel reader s
      end
  end.

(** The locals of the loop over the segments. *)
Record Visit : Type := {
  visit_seq : N;
  visit_previous : option string;
  visit_manifest : option string;
  stats : OriginVisitStats;
  visit_clients : Registry;
  visit_starts : list VerifiedV2Record;
}.

Definition read_start (v : Visit) : SegmentRead := {|
  read_seq := visit_seq v; read_previous := visit_previous v; active := None;
  segment_records := 0; first_id := None; first_hash := None; last_id := None;
  last_line_hash := None; initialized_at := archive_initialized_at (stats v);
  read_clients := visit_clients v; retained_starts := visit_starts v
|}.

(** One segment up to its replay: its manifest, the manifest's hash, its bytes and the locals
    its records leave. *)
Definition authenticate_segment (root : Tree) (g : SignedGenesis) (ghash : string)
    (key : VerifyingKey) (tail : OriginFrontier) (known : gmap string CausalFrontier)
    (c : option VerifiedV2Client) (apply_registry : bool) (v : Visit)
    : result Stop (SegmentManifestBody * string * bytes * SegmentRead) :=
  let path := manifest_relative_path (Frontier.origin_id tail) (visit_seq v) in
  b ← map_err Stopped (read_file root path);
  manifest ← map_err Stopped (parse_json path b);
  canonical ← map_err Stopped (canonical_json manifest);
  _ ← bail_if (negb (bool_decide (canonical = b)))
        (Stopped (Invalid (path +:+ " does not use deterministic bytes")));
  _ ← map_err Stopped (verify_manifest manifest key);
  let body := manifest_body manifest in
  _ ← bail_if (negb (bool_decide (manifest_archive_id body = archive_id (Genesis.body g)))
               || negb (bool_decide (manifest_genesis_hash body = ghash))
               || negb (bool_decide (manifest_origin_id body = Frontier.origin_id tail))
               || negb (first_seq body =? visit_seq v)%N
               || negb (bool_decide (previous_segment_manifest_hash body = visit_manifest v))
               || negb (is_some_b (known !! causal_base_frontier_hash body)))
        (Stopped (Invalid ("incremental segment manifest chain is inconsistent at " +:+ path)));
  hash ← map_err Stopped (manifest_hash manifest);
  _ ← map_err Stopped
        (verify_segment_file root (segment_path body) (segment_bytes body)
           (segment_blake3 body));
  content ← map_err (Stopped ∘ Io "open signed segment" (segment_path body))
              (tree_read root (segment_path body));
  s ← read_loop
        (stream_record (Frontier.origin_id tail) hash (causal_base_frontier_hash body) known c
           apply_registry)
        (segment_path body) (S (length content)) content (read_start v);
  _ ← bail_if (is_some_b (active s))
        (Stopped (Invalid ("signed segment contains an incomplete batch at "
                           +:+ segment_path body)));
  _ ← bail_if (negb (last_seq body =? read_seq s - 1)%N
               || negb (bool_decide (first_id s = Some (first_record_id body)))
               || negb (bool_decide (last_id s = Some (last_record_id body)))
               || negb (bool_decide (first_hash s = Some (first_record_hash body)))
               || negb (bool_decide (last_line_hash s = Some (last_record_hash body)))
               || negb (segment_records s =? record_count body)%N)
        (Stopped (Invalid ("record range does not match manifest at " +:+ path)));
  Ok (body, hash, content, s).

(** What follows the replay, up to the next turn; [true] at the accepted tail. *)
Definition close_segment (tail : OriginFrontier) (v : Visit)
    (segment : SegmentManifestBody * string * bytes * SegmentRead)
    : result V2StoreError (Visit * bool) :=
  let '(body, hash, _, s) := segment in
  records ← ok_or (checked_add_u64 (visit_records (stats v)) (segment_records s))
              (Invalid "record count overflow");
  segments ← ok_or (checked_add_u64 (visit_segments (stats v)) 1)
               (Invalid "segment count overflow");
  let v := {| visit_seq := read_seq s; visit_previous := read_previous s;
              visit_manifest := Some hash;
              stats := {| visit_records := records; visit_segments := segments;
                          archive_initialized_at := initialized_at s |};
              visit_clients := read_clients s; visit_starts := retained_starts s |} in
  if decide (hash = segment_manifest_hash tail) then
    _ ← bail_if (negb (last_seq body =? Frontier.seq tail)%N
                 || negb (bool_decide (last_record_hash body = event_hash tail)))
          (Invalid ("accepted frontier tail does not match origin "
                    +:+ Frontier.origin_id tail));
    Ok (v, true)
  else
    _ ← bail_if (Frontier.seq tail <=? last_seq body)%N
          (Invalid ("incremental manifest chain passed accepted origin "
                    +:+ Frontier.origin_id tail));
    Ok (v, false).

Section visitor.
(** The visitor's error type and state. *)
Context {E A : Type} (from : V2StoreError → E).
Context (visitor : VerifiedV2Record → st A E ()).
(** [File::open] of a segment to replay it, and the bytes it then yields. *)
Context (reopen : string → result string bytes).

Definition store {X} (m : result V2StoreError X) : st A (Halt E) X :=
  st_lift (map_err (Halted ∘ from) m).
Definition stop {X} (m : result Stop X) : st A (Halt E) X :=
  st_lift (map_err (halt_of from) m).
Definition call {X} (m : st A E X) : st A (Halt E) X := λ a,
  let '(x, a) := m a in (map_err Halted x, a).

(** The replay of a segment: parsed again from its start and handed to the visitor. *)
Fixpoint replay (origin manifest_hash frontier_hash path : string) (fuel : nat)
    (reader : bytes) (seq : N) (previous : option string) : st A (Halt E) () :=
  match fuel with
  | O => st_lift (Err HaltOutOfFuel)
  | S fuel =>
      next ← store (read_record_line reader path);
      match next with
      | None => mret ()
      | Some (line, reader) =>
          parsed ← store (map_err RecordErr
                     (parse_v2_record line origin seq previous DEFAULT_MAX_V2_RECORD_BYTES));
          seq ← store (ok_or (checked_add_u64 seq 1) (Invalid "origin sequence overflow"));
          _ ← call (visitor {| record := parsed; exact_line_bytes := line;
                               record_manifest_hash := manifest_hash;
                               causal_frontier_hash := frontier_hash |});
          replay origin manifest_hash frontier_hash path fuel reader seq
            (Some (record_hash parsed))
      end
  end.

(** One turn of the loop over the segments. *)
Definition visit_segment (root : Tree) (g : SignedGenesis) (ghash : string)
    (key : VerifyingKey) (tail : OriginFrontier) (known : gmap string CausalFrontier)
    (c : option VerifiedV2Client) (apply_registry : bool) (v : Visit)
    : st A (Halt E) (Visit * bool) :=
  segment ← stop (authenticate_segment root g ghash key tail known c apply_registry v);
  let '(body, hash, _, _) := segment in
  content ← store (map_err (Io "reopen signed segment" (segment_path body))
              (reopen (segment_path body)));
  _ ← replay (Frontier.origin_id tail) hash (causal_base_frontier_hash body)
        (segment_path body) (S (length content)) content (visit_seq v) (visit_previous v);
  store (close_segment tail v segment).

Fixpoint visit_loop (root : Tree) (g : SignedGenesis) (ghash : string)
    (key : VerifyingKey) (tail : OriginFrontier) (known : gmap string CausalFrontier)
    (c : option VerifiedV2Client) (apply_registry : bool) (fuel : nat) (v : Visit)
    : st A (Halt E) Visit :=
  match fuel with
  | O => st_lift (Err HaltOutOfFuel)
  | S fuel =>
      '(v, found) ← visit_segment root g ghash key tail known c apply_registry v;
      if found : bool then mret v
      else visit_loop root g ghash key tail known c apply_registry fuel v
  end.

(** The locals before the first segment. *)
Definition visit_start (cursor : V2OriginCursor) (clients : Registry)
    (starts : list VerifiedV2Record) : result V2StoreError Visit :=
  seq ← ok_or (checked_add_u64 (applied_seq cursor) 1) (Invalid "origin sequence overflow");
  Ok {| visit_seq := seq; visit_previous := applied_record_hash cursor;
        visit_manifest := applied_segment_manifest_hash cursor; stats := no_stats;
        visit_clients := clients; visit_starts := starts |}.

(** Enough turns, as for [verify_origin_range]. *)
Definition visit_fuel (tail : OriginFrontier) (v : Visit) : nat :=
  S (N.to_nat (Frontier.seq tail + 1 - visit_seq v)).

(** [visit_origin_range]: the statistics, with the [&mut] parameters [clients] and
    [retained_starts] it leaves. *)
Definition visit_origin_range (root : Tree) (g : SignedGenesis) (ghash : string)
    (key : VerifyingKey) (tail : OriginFrontier) (cursor : V2OriginCursor)
    (known : gmap string CausalFrontier) (c : option VerifiedV2Client)
    (clients : Registry) (apply_registry : bool) (starts : list VerifiedV2Record)
    : st A (Halt E) (OriginVisitStats * Registry * list VerifiedV2Record) :=
  v ← store (visit_start cursor clients starts);
  v ← visit_loop root g ghash key tail known c apply_registry (visit_fuel tail v) v;
  mret (stats v, visit_clients v, visit_starts v).
End visitor.

(** ** The operations built on the visit *)

(** The registry entry of the genesis client before its approval is read. *)
Definition provisional_client (g : SignedGenesis) (key : VerifyingKey) : VerifiedV2Client := {|
  client := initial_client_id (body g); display_name := "Initial client";
  public_key := key_to_bytes key;
  capabilities := ["additive_observation"; "coordination"];
  approved_origin_id := initial_client_id (body g); approved_origin_seq := 2;
  revoked_origin_id := None; revoked_origin_seq := None |}.

(** [clients.get_mut(..)] with the approval of the genesis client. *)
Definition approve_initial (id : string) (approval : string * N) (clients : Registry)
    : result Stop Registry :=
  c ← ok_or (clients !! id) Panicked;
  Ok (<[id := {| client := client c; display_name := display_name c;
                 public_key := public_key c; capabilities := capabilities c;
                 approved_origin_id := approval.1; approved_origin_seq := approval.2;
                 revoked_origin_id := revoked_origin_id c;
                 revoked_origin_seq := revoked_origin_seq c |}]> clients).

(** The locals of the loop over the pending origins. *)
Record Visited : Type := {
  v_clients : Registry;
  v_starts : list VerifiedV2Record;
  v_records : N;
  v_segments : N;
  v_pending : list string;
}.

(** Adding the statistics of one origin. *)
Definition add_stats (s : OriginVisitStats) (clients : Registry)
    (starts : list VerifiedV2Record) (pending : list string) (v : Visited)
    : result V2StoreError Visited :=
  records ← ok_or (checked_add_u64 (v_records v) (visit_records s))
              (Invalid "record count overflow");
  segments ← ok_or (checked_add_u64 (v_segments v) (visit_segments s))
               (Invalid "segment count overflow");
  Ok {| v_clients := clients; v_starts := starts; v_records := records;
        v_segments := segments; v_pending := pending |}.

Section archive.
Context {E A : Type} (from : V2StoreError → E).
Context (visitor : VerifiedV2Record → st A E ()).
Context (reopen : string → result string bytes).
Context (root : Tree) (g : SignedGenesis) (ghash : string) (accepted : CausalFrontier).
Context (frontiers : gmap string CausalFrontier).

(** One candidate of a round; [exempt] is the origin whose records are not checked against
    the registry. *)
Definition visit_candidate (cursors : gmap string V2OriginCursor) (exempt : option string)
    (locals : Visited * bool) (id : string) : st A (Halt E) (Visited * bool) :=
  let '(v, progressed) := locals in
  match v_clients v !! id with
  | None => mret (v, progressed)
  | Some c =>
      origin ← stop from (ok_or (find_origin (origins accepted) id) Panicked);
      key ← store from (client_key c);
      '(s, clients, starts) ←
        visit_origin_range from visitor reopen root g ghash key origin (cursor_of cursors id) frontiers
          (if decide (exempt = Some id) then None else Some c)
          (v_clients v) true (v_starts v);
      v ← store from (add_stats s clients starts (filter (λ p, p ≠ id) (v_pending v)) v);
      mret (v, true)
  end.

(** [while !pending.is_empty()]; [contains] begins the message of a round without
    progress. *)
Fixpoint visit_rounds (cursors : gmap string V2OriginCursor) (exempt : option string)
    (contains : string) (fuel : nat) (v : Visited) : st A (Halt E) Visited :=
  match v_pending v with
  | [] => mret v
  | _ =>
      match fuel with
      | O => st_lift (Err HaltOutOfFuel)
      | S fuel =>
          '(v, progressed) ←
            st_fold (visit_candidate cursors exempt) (v, false) (v_pending v);
          _ ← store from (bail_if (negb progressed)
                (Invalid (contains +:+ " contains origins without trusted enrollment: "
                          +:+ String.concat ", " (v_pending v))));
          visit_rounds cursors exempt contains fuel v
      end
  end.
End archive.

Section operations.
Context {E A : Type} (from : V2StoreError → E).

(** [visit_verified]; the origins, genesis client first. *)
Definition visit_origins (visitor : VerifiedV2Record → st A E ())
    (reopen : string → result string bytes) (root : Tree)
    (g : SignedGenesis) (ghash : string) (accepted : CausalFrontier)
    (frontiers : gmap string CausalFrontier) : st A (Halt E) Visited :=
  let initial := initial_client_id (body g) in
  key ← store from (map_err GenesisErr (validate_body (body g)));
  origin ← store from (ok_or (find_origin (origins accepted) initial)
             (Invalid "accepted frontier omits the genesis client"));
  '(s, clients, starts) ←
    visit_origin_range from visitor reopen root g ghash key origin no_cursor frontiers None
      {[ initial := provisional_client g key ]} true [];
  approval ← store from (ok_or (archive_initialized_at s)
               (Invalid "genesis origin lacks archive_initialized"));
  clients ← stop from (approve_initial initial approval clients);
  let pending := btree_set (Frontier.origin_id <$>
    filter (λ o, Frontier.origin_id o ≠ initial) (origins accepted)) in
  v ← store from (add_stats s clients starts pending
        {| v_clients := clients; v_starts := starts; v_records := 0; v_segments := 0;
           v_pending := pending |});
  visit_rounds from visitor reopen root g ghash accepted frontiers ∅ None "accepted frontier"
    (length pending) v.

Definition visit_verified (visitor : VerifiedV2Record → st A E ())
    (reopen : string → result string bytes) (fuel : nat) (root : Tree)
    : st A (Halt E) VerifiedV2Archive :=
  '(g, ghash) ← store from (read_genesis root);
  head ← store from (read_head root);
  frontiers ← stop from (load_frontier_graph root (genesis_archive_id g) ghash fuel head ∅);
  accepted ← store from (ok_or (frontiers !! head)
               (Invalid "accepted frontier was not loaded"));
  v ← visit_origins visitor reopen root g ghash accepted frontiers;
  expected ← store from (ok_or (total_records (origins accepted))
               (Invalid "record count overflow"));
  _ ← store from (bail_if (negb (v_records v =? expected)%N)
        (Invalid "verified record count does not match accepted frontier"));
  mret {| Archive.genesis := g; archive_genesis_hash := ghash; accepted_frontier := accepted;
          accepted_frontier_hash := head; records := v_starts v;
          archive_record_count := v_records v; clients := v_clients v;
          frontiers := frontiers; segment_count := v_segments v;
          frontier_count := N.of_nat (size frontiers) |}.

(** [V2VerificationContext] *)
Record V2VerificationContext : Type := {
  context_genesis : SignedGenesis;
  context_genesis_hash : string;
  context_frontier : CausalFrontier;
  context_frontier_hash : string;
  context_frontiers : gmap string CausalFrontier;
}.

Definition visit_verified_since_with_clients
    (visitor : VerifiedV2Record → V2VerificationContext → st A E ())
    (reopen : string → result string bytes) (fuel : nat) (root : Tree) (base_hash : string) (cursors : gmap string V2OriginCursor)
    (trusted : Registry) : st A (Halt E) VerifiedV2Archive :=
  _ ← store from (validate_blake3_id "base frontier hash" base_hash);
  '(g, ghash) ← store from (read_genesis root);
  head ← store from (read_head root);
  '(frontiers, _) ← stop from
    (load_frontier_path_to_base root (genesis_archive_id g) ghash fuel head base_hash ∅);
  _ ← store from (bail_if (negb (is_some_b (frontiers !! base_hash)))
        (Invalid "SQLite applied frontier is not an ancestor of canonical HEAD"));
  accepted ← store from (ok_or (frontiers !! head)
               (Invalid "accepted frontier was not loaded"));
  let context := {| context_genesis := g; context_genesis_hash := ghash;
                    context_frontier := accepted; context_frontier_hash := head;
                    context_frontiers := frontiers |} in
  key ← store from (map_err GenesisErr (validate_body (body g)));
  let clients := with_initial_client g key trusted in
  pending ← store from (fold_result (check_cursor cursors) [] (origins accepted));
  let pending := btree_set pending in
  v ← visit_rounds from (λ r, visitor r context) reopen root g ghash accepted frontiers cursors
        (Some (initial_client_id (body g))) "unapplied frontier" (length pending)
        {| v_clients := clients; v_starts := []; v_records := 0; v_segments := 0;
           v_pending := pending |};
  mret {| Archive.genesis := g; archive_genesis_hash := ghash; accepted_frontier := accepted;
          accepted_frontier_hash := head; records := v_starts v;
          archive_record_count := v_records v; clients := v_clients v;
          frontiers := frontiers; segment_count := v_segments v;
          frontier_count := N.of_nat (size frontiers) |}.
End operations.

(** A visitor that does nothing. *)
Definition ignore (r : VerifiedV2Record) : st () V2StoreError () := mret ().

(** The canonical tree of a store is read as a snapshot here, the second time as the first. *)
Definition verify_compact (fuel : nat) (root : Tree)
    : result (Halt V2StoreError) VerifiedV2Archive :=
  (visit_verified id ignore (tree_read root) fuel root ()).1.

(** [V2VerificationReport] *)
Record V2VerificationReport : Type := {
  report_version : N;
  report_archive_id : string;
  report_genesis_hash : string;
  report_frontier_hash : string;
  report_origins : N;
  report_records : N;
  report_segments : N;
  report_frontiers : N;
}.

Definition verification_report (fuel : nat) (root : Tree)
    : result (Halt V2StoreError) V2VerificationReport :=
  verified ← verify_compact fuel root;
  Ok {| report_version := 2; report_archive_id := genesis_archive_id (Archive.genesis verified);
        report_genesis_hash := archive_genesis_hash verified;
        report_frontier_hash := accepted_frontier_hash verified;
        report_origins := N.of_nat (length (origins (accepted_frontier verified)));
        report_records := archive_record_count verified;
        report_segments := segment_count verified;
        report_frontiers := frontier_count verified |}.

(** [verify_append_base] *)
Definition append_cursor (parent_tail : option OriginFrontier) : V2OriginCursor :=
  match parent_tail with
  | None => no_cursor
  | Some origin => {| applied_seq := Frontier.seq origin;
                      applied_record_hash := Some (event_hash origin);
                      applied_segment_manifest_hash := Some (segment_manifest_hash origin) |}
  end.

Definition verify_append_base (root : Tree) : result (Halt V2StoreError) VerifiedV2Archive :=
  let store {X} (m : result V2StoreError X) := map_err Halted m in
  '(g, ghash) ← store (read_genesis root);
  head ← store (read_head root);
  accepted ← store (read_frontier root (genesis_archive_id g) ghash head);
  _ ← store (bail_if (negb (length (previous_frontiers accepted) =? 1))
        (Invalid "local append after a merged frontier is not implemented yet; synchronize projection first"));
  parent_hash ← ok_or (previous_frontiers accepted !! 0) HaltPanicked;
  parent ← store (read_frontier root (genesis_archive_id g) ghash parent_hash);
  _ ← store (map_err FrontierErr (validate_successor_of accepted parent));
  let id := initial_client_id (body g) in
  tail ← store (ok_or (find_origin (origins accepted) id)
           (Invalid "local origin is absent from frontier"));
  let cursor := append_cursor (find_origin (origins parent) id) in
  _ ← store (bail_if (Frontier.seq tail <=? applied_seq cursor)%N
        (Invalid "accepted frontier does not advance the local origin"));
  let known := <[head := accepted]> {[ parent_hash := parent ]} in
  key ← store (map_err GenesisErr (validate_body (body g)));
  '(s, clients, starts) ←
    (visit_origin_range (λ e, e) ignore (tree_read root) root g ghash key tail cursor known None
       {[ id := provisional_client g key ]} false [] ()).1;
  Ok {| Archive.genesis := g; archive_genesis_hash := ghash; accepted_frontier := accepted;
        accepted_frontier_hash := head; records := starts;
        archive_record_count := visit_records s; clients := clients; frontiers := known;
        segment_count := visit_segments s; frontier_count := 2 |}.
End visit.
