(* ===== verification/Frames.v ===== *)
(** Verification reads only what it needs: a tree with more files verifies as before. The
    streaming verification of [Visit.v] opens every file by its name, so whatever it accepts in
    one tree it accepts, with the same result, in every tree that has the same files and others
    besides. The leftovers of an interrupted append are such others. *)
From Stdlib Require Import ZArith NArith Lia Ascii.
From stdpp Require Import base decidable list gmap strings sorting.
From S2P Require Import Prelude.
From S2P Require Import Text.
From S2P Require Import External.
From S2P Require Import Ids.
From S2P Require Import Frontier.
From S2P Require Import Batch.
From S2P Require Import Record.
From S2P Require Import Genesis.
From S2P Require Import Store.
From S2P Require Import Segment.
From S2P Require Import FrontierGraph.
From S2P Require Import Clients.
From S2P Require Import Coordination.
From S2P Require Import Batches.
From S2P Require Import Archive.
From S2P Require Import Append.
From S2P Require Import Ranges.
From S2P Require Import Visit.

(** Every file of [root] is in [root'] with the same bytes. *)
Definition tree_extends (root root' : Tree) : Prop := ∀ path content,
  tree_read root path = Ok content → tree_read root' path = Ok content.

#[export] Instance tree_extends_preorder : PreOrder tree_extends.
Proof.
  split; [intros root path content Hr; exact Hr |].
  intros r1 r2 r3 H12 H23 path content Hr. by apply H23, H12.
Qed.

(** ** Computations that succeed alike *)

Definition ok_le {E A} (m m' : result E A) : Prop := ∀ a, m = Ok a → m' = Ok a.

Definition st_le {S E A} (m m' : st S E A) : Prop := ∀ s a s', m s = (Ok a, s') → m' s = (Ok a, s').

Lemma ok_le_refl {E A} (m : result E A) : ok_le m m.
Proof. by intros a. Qed.

Lemma ok_le_bind {E A B} (m m' : result E A) (k k' : A → result E B) :
  ok_le m m' → (∀ a, ok_le (k a) (k' a)) → ok_le (m ≫= k) (m' ≫= k').
Proof. intros Hm Hk b (a & Ha & Hb)%bind_Ok. apply bind_Ok. exists a. split; [by apply Hm | by apply Hk]. Qed.

Lemma ok_le_map_err {E F A} (f : E → F) (m m' : result E A) :
  ok_le m m' → ok_le (map_err f m) (map_err f m').
Proof. intros Hm a Ha%map_err_Ok. by apply map_err_Ok, Hm. Qed.

Lemma ok_le_fold {E A B} (f f' : B → A → result E B) (l : list A) b :
  (∀ b a, ok_le (f b a) (f' b a)) → ok_le (fold_result f b l) (fold_result f' b l).
Proof.
  intros Hf. revert b. induction l as [|a l IH]; intros b; [apply ok_le_refl |]. cbn.
  by apply ok_le_bind.
Qed.

Lemma st_le_refl {S E A} (m : st S E A) : st_le m m.
Proof. by intros s. Qed.

Lemma st_le_bind {S E A B} (m m' : st S E A) (k k' : A → st S E B) :
  st_le m m' → (∀ a, st_le (k a) (k' a)) → st_le (m ≫= k) (m' ≫= k').
Proof.
  intros Hm Hk s b s'. unfold mbind, st_bind. destruct (m s) as [[a | e] s1] eqn:Ha; [|done].
  rewrite (Hm _ _ _ Ha). apply Hk.
Qed.

Lemma st_le_lift {S E A} (m m' : result E A) : ok_le m m' → st_le (S := S) (st_lift m) (st_lift m').
Proof. intros Hm s a s' [= Ha <-]. unfold st_lift. by rewrite (Hm _ Ha). Qed.

Lemma st_le_fold {S E A B} (f f' : B → A → st S E B) (l : list A) b :
  (∀ b a, st_le (f b a) (f' b a)) → st_le (st_fold f b l) (st_fold f' b l).
Proof.
  intros Hf. revert b. induction l as [|a l IH]; intros b; [apply st_le_refl |]. cbn.
  by apply st_le_bind.
Qed.

Create HintDb frame.
#[export] Hint Resolve ok_le_refl ok_le_map_err st_le_refl st_le_lift : frame.

(** Follows two computations of one shape. *)
Ltac frame :=
  repeat first
    [ progress intros
    | solve [auto with frame]
    | apply ok_le_bind
    | apply st_le_bind
    | apply ok_le_map_err
    | apply ok_le_fold
    | apply st_le_lift
    | apply st_le_fold
    | match goal with
      | |- ok_le (match ?x with _ => _ end) _ => destruct x
      | |- st_le (match ?x with _ => _ end) _ => destruct x
      | |- ok_le (let '(_, _) := ?x in _) _ => destruct x
      | |- st_le (let '(_, _) := ?x in _) _ => destruct x
      end ].

Section frames.
Context `{Blake3, UlidCrate, Base64, Ed25519,
  FromJson V2RecordEnvelope, ToJson SegmentManifestBody, ToJson SignedSegmentManifest,
  FromJson SignedSegmentManifest, ToJson GenesisBody, ToJson SignedGenesis,
  FromJson SignedGenesis, ToJson CausalFrontier, FromJson CausalFrontier,
  ToJson CoordinationLeaseBody, FromValue SignedCoordinationLease}.
Context (root root' : Tree) (Hroot : tree_extends root root').

Lemma tree_read_frame path : ok_le (tree_read root path) (tree_read root' path).
Proof. intros content. apply Hroot. Qed.
#[local] Hint Resolve tree_read_frame : frame.

Lemma read_file_frame path : ok_le (read_file root path) (read_file root' path).
Proof. unfold read_file. frame. Qed.
#[local] Hint Resolve read_file_frame : frame.

Lemma read_frontier_frame archive genesis hash :
  ok_le (read_frontier root archive genesis hash) (read_frontier root' archive genesis hash).
Proof. unfold read_frontier. frame. Qed.
#[local] Hint Resolve read_frontier_frame : frame.

Lemma load_frontier_graph_frame archive genesis fuel hash visited :
  ok_le (load_frontier_graph root archive genesis fuel hash visited)
    (load_frontier_graph root' archive genesis fuel hash visited).
Proof. revert hash visited. induction fuel as [|fuel IH]; intros hash visited; cbn; frame. Qed.
#[local] Hint Resolve load_frontier_graph_frame : frame.

Lemma read_genesis_frame : ok_le (read_genesis root) (read_genesis root').
Proof. unfold read_genesis. frame. Qed.

Lemma read_head_frame : ok_le (read_head root) (read_head root').
Proof. unfold read_head. frame. Qed.

Lemma verify_segment_file_frame path size hash :
  ok_le (verify_segment_file root path size hash) (verify_segment_file root' path size hash).
Proof. unfold verify_segment_file. frame. Qed.
#[local] Hint Resolve read_genesis_frame read_head_frame verify_segment_file_frame : frame.

Lemma authenticate_segment_frame g ghash key tail known c apply_registry v :
  ok_le (authenticate_segment root g ghash key tail known c apply_registry v)
    (authenticate_segment root' g ghash key tail known c apply_registry v).
Proof. unfold authenticate_segment. frame. Qed.
#[local] Hint Resolve authenticate_segment_frame : frame.

Section visitor.
Context {E A : Type} (from : V2StoreError → E) (visitor : VerifiedV2Record → st A E ()).
Context (reopen reopen' : string → result string bytes).
Context (Hreopen : ∀ path, ok_le (reopen path) (reopen' path)).
#[local] Hint Resolve Hreopen : frame.

Lemma visit_loop_frame g ghash key tail known c apply_registry fuel v :
  st_le (visit_loop from visitor reopen root g ghash key tail known c apply_registry fuel v)
    (visit_loop from visitor reopen' root' g ghash key tail known c apply_registry fuel v).
Proof.
  revert v. induction fuel as [|fuel IH]; intros v; cbn; [frame |].
  apply st_le_bind; [|frame]. unfold visit_segment, stop, store. frame.
Qed.
#[local] Hint Resolve visit_loop_frame : frame.

Lemma visit_origin_range_frame g ghash key tail cursor known c clients apply_registry starts :
  st_le (visit_origin_range from visitor reopen root g ghash key tail cursor known c clients
           apply_registry starts)
    (visit_origin_range from visitor reopen' root' g ghash key tail cursor known c clients
           apply_registry starts).
Proof. unfold visit_origin_range. frame. Qed.
#[local] Hint Resolve visit_origin_range_frame : frame.

Lemma visit_rounds_frame g ghash accepted frontiers cursors exempt contains fuel v :
  st_le (visit_rounds from visitor reopen root g ghash accepted frontiers cursors exempt contains fuel v)
    (visit_rounds from visitor reopen' root' g ghash accepted frontiers cursors exempt contains fuel v).
Proof.
  revert v. induction fuel as [|fuel IH]; intros v; cbn; [frame |].
  destruct (v_pending v); [frame |]. apply st_le_bind; [|frame].
  apply st_le_fold. intros [v' progressed] id. unfold visit_candidate. frame.
Qed.
#[local] Hint Resolve visit_rounds_frame : frame.

Lemma visit_verified_frame fuel :
  st_le (visit_verified from visitor reopen fuel root)
    (visit_verified from visitor reopen' fuel root').
Proof.
  unfold visit_verified, visit_origins, store, stop. frame.
Qed.
End visitor.

(** What [verify_compact] accepts in a tree it accepts with the same result in a tree that
    has more files. *)
Lemma verify_compact_frame fuel : ok_le (verify_compact fuel root) (verify_compact fuel root').
Proof.
  intros v. unfold verify_compact. intros Hv.
  destruct (visit_verified id ignore (tree_read root) fuel root ()) as [r []] eqn:Hrun. cbn in Hv. subst r.
  by rewrite (visit_verified_frame id ignore _ _ tree_read_frame fuel _ _ _ Hrun).
Qed.
End frames.
