(* ===== verification/Streaming.v ===== *)
(** Streaming verification is sound: what [Visit.v] reads and hands to the visitor is what the
    retaining verification of [Ranges.v] returns, record for record, and every record a
    visitor sees, on a failing visit too, comes from a segment that was checked to its end. *)
From Stdlib Require Import ZArith NArith Lia Ascii.
From stdpp Require Import base decidable list gmap strings sorting.
From S2P Require Import Prelude.
From S2P Require Import Text.
From S2P Require Import External.
From S2P Require Import Ids.
From S2P Require Import Frontier.
From S2P Require Import Batch.
From S2P Require Import Record.
From S2P Require Import Genesis.
From S2P Require Import Store.
From S2P Require Import Segment.
From S2P Require Import FrontierGraph.
From S2P Require Import Clients.
From S2P Require Import Coordination.
From S2P Require Import Batches.
From S2P Require Import Archive.
From S2P Require Import Append.
From S2P Require Import Sealing.
From S2P Require Import Ranges.
From S2P Require Import Visit.

(** ** Reading lines *)

Lemma read_until_app limit b line rest :
  read_until limit b = (line, rest) → b = line ++ rest.
Proof.
  revert limit line. induction b as [|c b IH]; intros limit line Hrun; cbn in Hrun.
  { by injection Hrun as <- <-. }
  destruct (limit =? 0)%N; [by injection Hrun as <- <- |].
  destruct (Ascii.eqb c "010"); [by injection Hrun as <- <- |].
  destruct (read_until (limit - 1) b) as [l r] eqn:Hread. injection Hrun as <- <-.
  cbn. f_equal. by eapply IH.
Qed.

(** Only the last byte of what is read can be a newline. *)
Lemma read_until_newline limit b line rest :
  read_until limit b = (line, rest) → "010"%char ∉ take (length line - 1) line.
Proof.
  revert limit line. induction b as [|c b IH]; intros limit line Hrun; cbn in Hrun.
  { injection Hrun as <- <-. apply not_elem_of_nil. }
  destruct (limit =? 0)%N; [injection Hrun as <- <-; apply not_elem_of_nil |].
  destruct (Ascii.eqb_spec c "010"); [injection Hrun as <- <-; apply not_elem_of_nil |].
  destruct (read_until (limit - 1) b) as [l r] eqn:Hread. injection Hrun as <- <-.
  specialize (IH _ _ Hread). cbn [length]. rewrite Nat.sub_succ, Nat.sub_0_r.
  destruct l as [|c' l]; [apply not_elem_of_nil |]. cbn [length take] in *.
  rewrite Nat.sub_succ, Nat.sub_0_r in IH. apply not_elem_of_cons. done.
Qed.

Lemma read_record_line_Some reader path line rest :
  read_record_line reader path = Ok (Some (line, rest)) →
  reader = line_bytes line ++ rest ∧ line ≠ [] ∧ "010"%char ∉ line.
Proof.
  unfold read_record_line. destruct (read_until _ reader) as [l r] eqn:Hread.
  case_bool_decide; [done |]. intros Hrun. inv_ok. boolify. simplify_eq.
  split_and!; [| done | by eapply read_until_newline].
  rewrite (read_until_app _ _ _ _ Hread). f_equal.
  match goal with Hl : last l = _ |- _ => apply last_Some in Hl as [l' ->] end.
  by rewrite length_app, Nat.add_sub, take_app_length.
Qed.

Lemma read_record_line_None reader path : read_record_line reader path = Ok None → reader = [].
Proof.
  unfold read_record_line. destruct reader as [|c reader]; [done |].
  cbn [read_until]. destruct (_ =? 0)%N eqn:Hz; [by vm_compute in Hz |].
  destruct (Ascii.eqb c "010"); [cbn; intros; inv_ok; done |].
  destruct (read_until _ reader) as [l r]. cbn. intros Hrun. inv_ok. done.
Qed.

Lemma read_record_line_nil path : read_record_line [] path = Ok None.
Proof. done. Qed.

(** The lines a reader yields one after the other, up to its end. *)
Inductive reads (path : string) : bytes → list bytes → Prop :=
  | reads_nil : reads path [] []
  | reads_cons reader line rest lines :
      read_record_line reader path = Ok (Some (line, rest)) →
      reads path rest lines → reads path reader (line :: lines).

Lemma reads_lines path reader lines :
  reads path reader lines →
  reader = concat (line_bytes <$> lines) ∧
  Forall (λ line, line ≠ [] ∧ "010"%char ∉ line) lines.
Proof.
  induction 1 as [|reader line rest lines Hline _ [-> IH]]; [done |].
  apply read_record_line_Some in Hline as (-> & ? & ?). split; [done |]. by constructor.
Qed.

Lemma read_record_line_shorter reader path line rest :
  read_record_line reader path = Ok (Some (line, rest)) → (length rest < length reader)%nat.
Proof.
  intros (-> & _ & _)%read_record_line_Some. unfold line_bytes. rewrite !length_app. cbn. lia.
Qed.

(** The reading loop is a fold over the lines. *)
Lemma read_loop_Ok {S} (body : S → bytes → result V2StoreError S) path fuel reader s s' :
  read_loop body path fuel reader s = Ok s' →
  ∃ lines, reads path reader lines ∧ fold_result body s lines = Ok s'.
Proof.
  revert reader s. induction fuel as [|fuel IH]; cbn [read_loop]; intros reader s Hrun; [done |].
  apply bind_Ok in Hrun as ([[line rest]|] & Hline%map_err_Ok & Hrun).
  - apply bind_Ok in Hrun as (s1 & Hs1%map_err_Ok & Hrun).
    apply IH in Hrun as (lines & Hreads & Hfold). exists (line :: lines).
    split; [by econstructor |]. cbn. by rewrite Hs1.
  - injection Hrun as <-. apply read_record_line_None in Hline as ->. exists [].
    split; [constructor | done].
Qed.

(** The length of the file is enough turns. *)
Lemma read_loop_total {S} (body : S → bytes → result V2StoreError S) path fuel reader s stop :
  (length reader < fuel)%nat → read_loop body path fuel reader s = Err stop →
  ∃ error, stop = Stopped error.
Proof.
  revert reader s. induction fuel as [|fuel IH]; cbn [read_loop]; intros reader s Hfuel Hrun; [lia |].
  apply bind_Err in Hrun as [?%map_err_Stopped' | ([[line rest]|] & Hline%map_err_Ok & Hrun)];
    [done | | done].
  apply bind_Err in Hrun as [?%map_err_Stopped' | (s1 & _ & Hrun)]; [done |].
  apply read_record_line_shorter in Hline. apply IH in Hrun; [done | lia].
Qed.

(** ** The hash of a file read in pieces *)

Lemma buffer_reads_concat fuel size b :
  (0 < size)%nat → (length b <= fuel)%nat → concat (buffer_reads fuel size b) = b ∧
  Forall (λ p, p ≠ []) (buffer_reads fuel size b).
Proof.
  intros Hsize. revert b. induction fuel as [|fuel IH]; intros b Hb.
  { destruct b; [done | cbn in Hb; lia]. }
  cbn [buffer_reads]. destruct b as [|c b]; [done |].
  destruct (IH (drop size (c :: b))) as [Hc Hf]. { rewrite length_drop. cbn in *. lia. }
  cbn [concat]. rewrite Hc, take_drop. split; [done |]. constructor; [|done].
  destruct size; [lia | done].
Qed.

Lemma hash_reads_Ok `{Blake3} pieces h n a h' n' a' :
  fold_result hash_read (h, n, a) pieces = Ok (h', n', a') → Forall (λ p, p ≠ []) pieces →
  h' = foldl hasher_update h pieces ∧ n' = (n + N.of_nat (length (concat pieces)))%N ∧
  a' = match last (concat pieces) with Some c => Some c | None => a end.
Proof.
  revert h n a. induction pieces as [|p pieces IH]; intros h n a Hrun Hne.
  - cbn in Hrun. injection Hrun as <- <- <-. cbn. split_and!; [done | lia | done].
  - cbn in Hrun. apply bind_Ok in Hrun as ([[h1 n1] a1] & Hp & Hrun).
    apply bind_Ok in Hp as (m & [-> _]%ok_or_Ok%checked_add_u64_Some & [= <- <- <-]).
    apply Forall_cons in Hne as [Hp Hne]. apply IH in Hrun as (-> & -> & ->); [|done].
    cbn [concat foldl]. rewrite last_app, length_app. split_and!; [done | lia |].
    destruct (last (concat pieces)); [done |]. destruct (last p) eqn:Hl; [done |].
    by apply last_None in Hl.
Qed.

(** The streamed check of a file is the check of its bytes. *)
Lemma verify_segment_file_Ok `{Blake3, !Blake3Laws} root path n hash :
  verify_segment_file root path n hash = Ok () →
  ∃ content, tree_read root path = Ok content ∧ blake3_identifier content = hash ∧
    N.of_nat (length content) = n ∧ ends_with_newline content = true.
Proof.
  unfold verify_segment_file. intros (content & Hc%map_err_Ok & Hrun)%bind_Ok.
  apply bind_Ok in Hrun as ([[h observed] l] & Hfold & Hrun). exists content. split; [done |].
  destruct (buffer_reads_concat (length content) (N.to_nat 65536) content) as [Hcat Hne];
    [lia | done |].
  apply hash_reads_Ok in Hfold as (-> & -> & ->); [|done]. rewrite Hcat in Hrun.
  rewrite hasher_stream, Hcat in Hrun. inv_ok. boolify. split_and!; [done | lia |].
  unfold ends_with_newline. apply bool_decide_eq_true. by destruct (last content).
Qed.

Lemma hash_reads_total `{Blake3} pieces h n a :
  (n + N.of_nat (length (concat pieces)) <= u64_max)%N →
  ∃ r, fold_result hash_read (h, n, a) pieces = Ok r.
Proof.
  revert h n a. induction pieces as [|p pieces IH]; intros h n a Hmax; [by eexists |].
  cbn [concat] in Hmax. rewrite length_app in Hmax. cbn [fold_result].
  assert (checked_add_u64 n (N.of_nat (length p)) = Some (n + N.of_nat (length p))%N) as Hadd
    by (apply checked_add_u64_Some; split; [done | lia]).
  unfold hash_read at 2. rewrite Hadd. cbn [ok_or mbind result_bind]. apply IH. lia.
Qed.

(** The converse of [verify_segment_file_Ok]. *)
Lemma verify_segment_file_total `{Blake3, !Blake3Laws} root path content :
  tree_read root path = Ok content → (N.of_nat (length content) <= u64_max)%N →
  ends_with_newline content = true →
  verify_segment_file root path (N.of_nat (length content)) (blake3_identifier content) = Ok ().
Proof.
  intros Hread Hmax Hnl. unfold verify_segment_file. rewrite Hread. cbn [map_err mbind result_bind].
  destruct (buffer_reads_concat (length content) (N.to_nat 65536) content) as [Hcat Hne];
    [lia | done |].
  destruct (hash_reads_total (buffer_reads (length content) (N.to_nat 65536) content) hasher_new 0
    None) as [[[h observed] l] Hfold]; [rewrite Hcat; lia |].
  rewrite Hfold. cbn [mbind result_bind]. apply hash_reads_Ok in Hfold as (-> & -> & ->); [|done].
  rewrite Hcat, hasher_stream, Hcat, N.add_0_l, N.eqb_refl, !bool_decide_true; [done | | done].
  unfold ends_with_newline in Hnl. apply bool_decide_eq_true in Hnl. by destruct (last content).
Qed.
(** ** Batches, one after the other *)

Section batches.
Context `{Blake3, !Blake3Laws, !UlidCrate, !FromJson V2RecordEnvelope}.

(** One complete batch and nothing else. *)
Definition one_batch (rs : list VerifiedV2Record) : Prop :=
  ∃ start complete ds, batch_complete rs (id_of start) start complete ds ∧
    ∀ r, r ∈ rs → id_of r = id_of start.

(** A start and the chunks the validator has accepted since. *)
Record open_batch (part : list VerifiedV2Record) (sb : StreamingBatch) : Prop := {
  ob_part : ∃ start chunks v,
    part = start :: chunks ∧ record_kind (envelope (record start)) = BatchStart ∧
    Forall (λ r, record_kind (envelope (record r)) = BatchChunk) chunks ∧
    Forall (λ r, id_of r = stream_batch_id sb) part ∧
    assoc "causal_frontier_hash" (payload_object start) = Some (Str (causal_frontier_hash start)) ∧
    new (stream_batch_id sb) default_limits = Ok v ∧
    fold_result (accept_record (stream_batch_id sb)) v chunks = Ok (stream_validator sb);
}.

(** The records read so far: whole batches, then the active one. *)
Definition in_batches (rs : list VerifiedV2Record) (active : option StreamingBatch) : Prop :=
  ∃ groups part, rs = concat groups ++ part ∧ Forall one_batch groups ∧
    match active with
    | None => part = []
    | Some sb => open_batch part sb
    end.

Lemma streamed_descriptor_Ok batch r d :
  streamed_descriptor batch r = Ok d → chunk_descriptor batch r = Ok d.
Proof.
  unfold streamed_descriptor, chunk_descriptor. intros Hrun.
  apply bind_Ok in Hrun as (items & Hi & Hrun). apply bind_Ok in Hrun as (first & Hf & Hrun).
  rewrite Hf. cbn [mbind result_bind]. by rewrite Hi.
Qed.

Lemma of_kind_skip k id r rs :
  record_kind (envelope (record r)) ≠ k → of_kind k id (r :: rs) = of_kind k id rs.
Proof. intros Hk. apply filter_cons_False. by intros [_ ?]. Qed.

Lemma of_kind_take k id r rs :
  id_of r = id → record_kind (envelope (record r)) = k →
  of_kind k id (r :: rs) = r :: of_kind k id rs.
Proof. intros. by apply filter_cons_True. Qed.

Lemma of_kind_all k id rs :
  Forall (λ r, id_of r = id) rs → Forall (λ r, record_kind (envelope (record r)) = k) rs →
  of_kind k id rs = rs.
Proof. rewrite !Forall_forall. intros Hid Hk. apply filter_all. auto. Qed.

Lemma of_kind_other k k' id rs :
  k ≠ k' → Forall (λ r, record_kind (envelope (record r)) = k) rs → of_kind k' id rs = [].
Proof. rewrite Forall_forall. intros Hne Hk. apply filter_none. intros r Hr [_ ?]. by rewrite Hk in *. Qed.

(** A completion that the validator accepts closes the batch. *)
Lemma open_batch_complete part sb r origin seq previous total digest :
  open_batch part sb → linked origin seq previous (part ++ [r]) →
  record_kind (envelope (record r)) = BatchComplete → id_of r = stream_batch_id sb →
  u64_field (payload_object r) "total_items" = Ok total →
  string_field (payload_object r) "ordered_item_digest" = Ok digest →
  validate_completion (stream_validator sb)
    {| total_items := total; completion_digest := digest |} = Ok () →
  string_field (payload_object r) "status" = Ok "complete" →
  one_batch (part ++ [r]).
Proof.
  intros [(s & cs & v & -> & Hs & Hcs & Hids & Hcausal & Hnew & Hfold)] Hl Hkind Hid Ht Hd Hv Hst.
  apply u64_field_Ok in Ht. apply string_field_Ok in Hd, Hst.
  destruct (accept_records_complete _ _ _ _ _ _ Hnew Hfold Hv) as (ds & Hds & Hcons & -> & ->).
  apply Forall_cons in Hids as [Hids Hidc]. rewrite <- Hids in *.
  assert (∀ i x, (s :: cs ++ [r]) !! i = Some x → origin_of x = origin ∧ seq_of x = (seq + N.of_nat i)%N)
    as Hat.
  { intros i x Hx. split; [|by eapply linked_seq]. eapply linked_origin; [done |].
    by eapply list_elem_of_lookup_2. }
  assert (of_kind BatchChunk (id_of s) (s :: cs ++ [r]) = cs) as Hchunks.
  { rewrite of_kind_skip, of_kind_app, of_kind_skip, app_nil_r by congruence. by apply of_kind_all. }
  destruct (Hat 0 s eq_refl) as [Hso Hss].
  destruct (Hat (S (length cs)) r) as [Hro Hrs]; [by apply list_lookup_middle |].
  exists s, r, ds. split.
  - cbn [app]. split; try done; rewrite ?Hchunks.
    + rewrite of_kind_take, of_kind_app, of_kind_skip by congruence.
      by rewrite (of_kind_other BatchChunk) by done.
    + rewrite of_kind_skip, of_kind_app, of_kind_take by congruence.
      by rewrite (of_kind_other BatchChunk) by done.
    + split; [congruence |]. clear -Hss Hrs. lia.
    + intros c [i Hi]%list_elem_of_lookup_1. destruct (Hat (S i) c) as [Hco Hcseq].
      { cbn. by apply lookup_app_l_Some. }
      split; [congruence |]. apply lookup_lt_Some in Hi. clear -Hss Hrs Hcseq Hi. lia.
    + done.
  - rewrite Forall_forall in Hidc. intros x [-> | [Hx | ->%list_elem_of_singleton]%elem_of_app]%elem_of_cons;
      [done | by apply Hidc | done].
Qed.

Lemma streamed_batch_step rs r active active' origin seq previous :
  in_batches rs active → linked origin seq previous (rs ++ [r]) →
  validate_streamed_batch_record r active = Ok active' → in_batches (rs ++ [r]) active'.
Proof.
  intros (groups & part & -> & Hgroups & Hpart) Hl Hrun.
  unfold validate_streamed_batch_record in Hrun.
  rewrite <- app_assoc in Hl. apply linked_app in Hl as [_ Hl].
  destruct (record_kind (envelope (record r))) eqn:Hkind.
  - inv_ok. boolify. destruct active; [done |]. subst part. rewrite app_nil_r.
    match goal with Hf : string_field _ _ = Ok _ |- _ => apply string_field_Ok in Hf end.
    exists groups, [r]. split_and!; [done.. |]. constructor. eexists r, [], _. cbn.
    split_and!; try done; [by repeat constructor | by subst].
  - apply bind_Ok in Hrun as (sb & [= ->]%ok_or_Ok & Hrun).
    apply bind_Ok in Hrun as ([] & Hid & Hrun). apply bail_if_Ok in Hid. boolify.
    apply bind_Ok in Hrun as (d & Hd%streamed_descriptor_Ok & Hrun).
    destruct (accept_chunk d (stream_validator sb)) as [[[]|] v'] eqn:Hacc; [|done].
    injection Hrun as <-. exists groups, (part ++ [r]). rewrite app_assoc.
    split_and!; [done.. |].
    destruct Hpart as [(s & cs & v & -> & Hs & Hcs & Hids & Hcausal & Hnew & Hfold)].
    constructor. exists s, (cs ++ [r]), v. cbn [stream_batch_id stream_validator].
    split_and!; try done.
    + apply Forall_app. split; [done | by repeat constructor].
    + apply (Forall_app _ (s :: cs)). split; [done |]. repeat constructor. congruence.
    + rewrite fold_result_app, Hfold. cbn [mbind result_bind fold_result].
      unfold accept_record. replace (stream_batch_id sb) with (id_of r) by congruence.
      rewrite Hd. cbn [mbind result_bind]. by rewrite Hacc.
  - apply bind_Ok in Hrun as (sb & [= ->]%ok_or_Ok & Hrun).
    apply bind_Ok in Hrun as ([] & Hid & Hrun). apply bail_if_Ok in Hid. boolify.
    apply bind_Ok in Hrun as (total & Ht & Hrun). apply bind_Ok in Hrun as (digest & Hd & Hrun).
    apply bind_Ok in Hrun as ([] & Hv%map_err_Ok & Hrun).
    apply bind_Ok in Hrun as (status & Hst & Hrun).
    apply bind_Ok in Hrun as ([] & Hc & [= <-]). apply bail_if_Ok in Hc. boolify. subst status.
    exists (groups ++ [part ++ [r]]), []. rewrite concat_app. cbn. rewrite !app_nil_r, app_assoc.
    split_and!; [done | | done]. apply Forall_app. split; [done |]. repeat constructor.
    by eapply open_batch_complete.
Qed.
End batches.

(** ** Reading the records of a segment *)

Section stream.
Context `{Blake3, UlidCrate, Base64, Ed25519,
  FromJson V2RecordEnvelope, ToJson SegmentManifestBody, ToJson SignedSegmentManifest,
  FromJson SignedSegmentManifest, ToJson GenesisBody, ToJson SignedGenesis,
  FromJson SignedGenesis, ToJson CausalFrontier, FromJson CausalFrontier,
  ToJson CoordinationLeaseBody, FromValue SignedCoordinationLease}.
Context `{!Blake3Laws}.

(** No client is dropped and every client keeps its key. *)
Definition keeps_keys (clients clients' : Registry) : Prop :=
  ∀ id c, clients !! id = Some c → ∃ c', clients' !! id = Some c' ∧ public_key c' = public_key c.

Lemma evolves_keeps_keys dots clients clients' :
  evolves dots clients clients' → keeps_keys clients clients'.
Proof.
  intros [Hkeep _ _] id c Hc. destruct (Hkeep _ _ Hc) as (c' & Hc' & [-> | (_ & d & _ & ->)]);
    by eexists.
Qed.

Lemma apply_items_keep_keys rs clients clients' :
  apply_client_registry_items rs clients = Ok clients' → keeps_keys clients clients'.
Proof. by intros ?%apply_items_evolves%evolves_keeps_keys. Qed.

Lemma keeps_keys_refl clients : keeps_keys clients clients.
Proof. intros id c Hc. by exists c. Qed.

(** A lease proof that was accepted stays accepted under the same keys. *)
Lemma check_coordination_keeps clients clients' r :
  keeps_keys clients clients' → check_coordination clients r = Ok () →
  check_coordination clients' r = Ok ().
Proof.
  intros Hkeep. unfold check_coordination. case_decide; [done |].
  destruct (coordination_of r) as [coordination|]; [|done].
  intros (c & Hc & Hrun)%bind_Ok. rewrite Hc. cbn [mbind result_bind].
  apply bind_Ok in Hrun as (value & Hvalue & Hrun). rewrite Hvalue. cbn [mbind result_bind].
  apply bind_Ok in Hrun as (proof & Hproof & Hrun). rewrite Hproof. cbn [mbind result_bind].
  apply bind_Ok in Hrun as ([] & Hverified & Hrun).
  assert (verified_proof clients' proof = Ok ()) as ->; [|done].
  unfold verified_proof in *. apply bind_Ok in Hverified as ([] & Hb & Hverified). rewrite Hb.
  cbn [mbind result_bind]. apply bind_Ok in Hverified as (holder & Hh%ok_or_Ok & Hsig).
  destruct (Hkeep _ _ Hh) as (holder' & Hh' & Hsame). rewrite Hh'. cbn [ok_or mbind result_bind].
  unfold check_lease_signature, client_key in *. by rewrite Hsame.
Qed.

Lemma contexts_keep clients clients' rs :
  keeps_keys clients clients' → validate_coordination_contexts rs clients = Ok () →
  validate_coordination_contexts rs clients' = Ok ().
Proof.
  unfold validate_coordination_contexts. rewrite !for_each_Ok. intros Hev Hall r Hr.
  by eapply check_coordination_keeps, Hall.
Qed.

Lemma contexts_app rs rs' clients :
  validate_coordination_contexts (rs ++ rs') clients = Ok () ↔
  validate_coordination_contexts rs clients = Ok () ∧
  validate_coordination_contexts rs' clients = Ok ().
Proof.
  unfold validate_coordination_contexts. rewrite !for_each_Ok. setoid_rewrite elem_of_app.
  naive_solver.
Qed.

(** The records the operations keep. *)
Definition retained (r : VerifiedV2Record) : Prop :=
  bool_decide (record_kind (envelope (record r)) = BatchStart)
  || record_contains_item_kind r "archive_initialized" = true.

#[export] Instance retained_dec r : Decision (retained r).
Proof. unfold retained. apply _. Defined.

(** The initialization known after reading [rs]. *)
Abbreviation initializes := (λ r, record_contains_item_kind r "archive_initialized" = true).

Definition initialized_after (known : option (string * N)) (rs : list VerifiedV2Record)
    : option (string * N) :=
  match known with Some d => Some d | None => dot <$> head (filter initializes rs) end.

Lemma initialized_after_app known rs rs' :
  initialized_after (initialized_after known rs) rs' = initialized_after known (rs ++ rs').
Proof.
  destruct known; [done |]. cbn. rewrite filter_app. by destruct (filter initializes rs).
Qed.

(** What reading the records [rs] did to the locals. *)
Record streamed (origin mh fh : string) (known : gmap string CausalFrontier)
    (c : option VerifiedV2Client) (apply_registry : bool) (s : SegmentRead)
    (rs : list VerifiedV2Record) (s' : SegmentRead) : Prop := {
  sd_read path : fold_result (read_line origin mh fh path) (read_seq s, read_previous s, [])
      (exact_line_bytes <$> rs) = Ok (read_seq s', read_previous s', rs);
  sd_client cl : c = Some cl → ∀ r, r ∈ rs → check_client_record cl known r = Ok ();
  sd_contexts : validate_coordination_contexts rs (read_clients s') = Ok ();
  sd_clients : if apply_registry
    then apply_client_registry_items rs (read_clients s) = Ok (read_clients s')
    else read_clients s' = read_clients s;
  sd_batches : in_batches [] (active s) → in_batches rs (active s');
  sd_starts : retained_starts s' = retained_starts s ++ filter retained rs;
  sd_initialized : initialized_at s' = initialized_after (initialized_at s) rs;
  sd_count : segment_records s' = (segment_records s + N.of_nat (length rs))%N;
  sd_first : first_id s = None → first_hash s = None →
    first_id s' = (λ r, record_id (envelope (record r))) <$> head rs ∧
    first_hash s' = (λ r, record_hash (record r)) <$> head rs;
  sd_last : rs ≠ [] → last_id s' = (λ r, record_id (envelope (record r))) <$> last rs ∧
    last_line_hash s' = (λ r, record_hash (record r)) <$> last rs;
}.

Lemma streamed_nil origin mh fh known c apply_registry s :
  streamed origin mh fh known c apply_registry s [] s.
Proof.
  split; try done.
  - intros cl _ r Hr. by apply elem_of_nil in Hr.
  - by destruct apply_registry.
  - by rewrite filter_nil, app_nil_r.
  - by destruct (initialized_at s).
  - cbn. lia.
Qed.

Lemma streamed_snoc origin mh fh known c apply_registry s rs s1 line s2 :
  streamed origin mh fh known c apply_registry s rs s1 → line ≠ [] →
  stream_record origin mh fh known c apply_registry s1 line = Ok s2 →
  ∃ r, exact_line_bytes r = line ∧
    streamed origin mh fh known c apply_registry s (rs ++ [r]) s2.
Proof.
  intros [Hread Hclient Hctx Hclients Hbatches Hstarts Hinit Hcount Hfirst Hlast] Hline Hrun.
  unfold stream_record in Hrun.
  apply bind_Ok in Hrun as (parsed & Hparse & Hrun).
  apply bind_Ok in Hrun as (seq & Hseq & Hrun).
  set (r := {| record := parsed; exact_line_bytes := line; record_manifest_hash := mh;
               causal_frontier_hash := fh |}) in *.
  apply bind_Ok in Hrun as ([] & Hcl & Hrun).
  apply bind_Ok in Hrun as ([] & Hcoord & Hrun).
  apply bind_Ok in Hrun as (active' & Hactive & Hrun).
  apply bind_Ok in Hrun as (init & Hinitial & Hrun).
  apply bind_Ok in Hrun as (clients & Hreg & Hrun).
  apply bind_Ok in Hrun as (count & [-> _]%ok_or_Ok%checked_add_u64_Some & [= <-]).
  exists r. split; [done |].
  assert (∀ path, fold_result (read_line origin mh fh path) (read_seq s, read_previous s, [])
    (exact_line_bytes <$> (rs ++ [r])) = Ok (seq, Some (record_hash parsed), rs ++ [r])) as Hall.
  { intros path. rewrite fmap_app, fold_result_app, Hread. cbn [mbind result_bind fmap list_fmap].
    cbn [fold_result]. unfold read_line. rewrite bool_decide_eq_false_2 by done.
    cbn [bail_if mbind result_bind]. change (exact_line_bytes r) with line.
    rewrite Hparse. cbn [mbind result_bind]. apply ok_or_Ok in Hseq. by rewrite Hseq. }
  assert (keeps_keys (read_clients s1) clients) as Hkeys.
  { destruct apply_registry; [by eapply apply_items_keep_keys |].
    injection Hreg as <-. apply keeps_keys_refl. }
  split; cbn [read_seq read_previous read_clients active retained_starts segment_records
    first_id first_hash last_id last_line_hash].
  - exact Hall.
  - intros cl -> x [Hx | ->%list_elem_of_singleton]%elem_of_app; [by eapply Hclient |].
    unfold validate_client_origin_records in Hcl. apply bind_Ok in Hcl as ([] & _ & Hcl).
    rewrite for_each_Ok in Hcl. apply Hcl. by left.
  - apply contexts_app. split; by eapply contexts_keep.
  - destruct apply_registry; [|injection Hreg as <-; done].
    unfold apply_client_registry_items in *. by rewrite fold_result_app, Hclients.
  - intros Hin. eapply streamed_batch_step; [by apply Hbatches | | done].
    specialize (Hall ""). apply read_lines_Ok in Hall as (new & Hnew & Hlinked & _).
    cbn [app] in Hnew. rewrite Hnew. exact Hlinked.
  - rewrite filter_app, app_assoc, <- Hstarts.
    assert (retained r ↔ bool_decide (record_kind (envelope parsed) = BatchStart)
      || record_contains_item_kind r "archive_initialized" = true) as Hr by done.
    destruct (_ || _); [by rewrite filter_cons_True by by apply Hr |].
    rewrite filter_cons_False, filter_nil, app_nil_r; [done |]. intros ?%Hr. done.
  - cbn [initialized_at]. rewrite <- initialized_after_app, <- Hinit. fold r in Hinitial.
    destruct (record_contains_item_kind r "archive_initialized") eqn:Hkind.
    + inv_ok. destruct (initialized_at s1); [done |]. cbn [initialized_after].
      by rewrite filter_cons_True.
    + injection Hinitial as <-. destruct (initialized_at s1); [done |]. cbn [initialized_after].
      by rewrite filter_cons_False by congruence.
  - rewrite Hcount, length_app. cbn. lia.
  - intros Hi Hh. destruct (Hfirst Hi Hh) as [-> ->]. by destruct rs.
  - intros _. by rewrite last_snoc.
Qed.

Lemma stream_Ok origin mh fh known c apply_registry path fuel content s s' :
  read_loop (stream_record origin mh fh known c apply_registry) path fuel content s = Ok s' →
  ∃ rs, reads path content (exact_line_bytes <$> rs) ∧
    streamed origin mh fh known c apply_registry s rs s'.
Proof.
  intros (lines & Hreads & Hfold)%read_loop_Ok.
  pose proof (reads_lines _ _ _ Hreads) as [_ Hlines]. rewrite Forall_forall in Hlines.
  enough (∃ rs, exact_line_bytes <$> rs = lines ∧
    streamed origin mh fh known c apply_registry s rs s') as (rs & <- & ?) by eauto.
  revert Hfold. apply (fold_result_ind_in _ (λ lines s', ∃ rs, exact_line_bytes <$> rs = lines ∧
    streamed origin mh fh known c apply_registry s rs s')).
  - exists []. split; [done | apply streamed_nil].
  - intros seen line rest s1 s2 -> (rs & <- & Hs) Hline.
    eapply streamed_snoc in Hline as (r & <- & Hr); [| done |].
    + exists (rs ++ [r]). by rewrite fmap_app.
    + apply Hlines. set_solver.
Qed.

Section origin.
Context (root : Tree) (g : SignedGenesis) (ghash : string) (key : VerifyingKey).
Context (tail : OriginFrontier) (known : gmap string CausalFrontier).
Context (c : option VerifiedV2Client) (apply_registry : bool).

(** What reading the records [rs] of one or more segments did to the locals of the visit. *)
Record visited_records (v : Visit) (rs : list VerifiedV2Record) (v' : Visit) : Prop := {
  vr_client cl : c = Some cl → ∀ r, r ∈ rs → check_client_record cl known r = Ok ();
  vr_contexts : validate_coordination_contexts rs (visit_clients v') = Ok ();
  vr_clients : if apply_registry
    then apply_client_registry_items rs (visit_clients v) = Ok (visit_clients v')
    else visit_clients v' = visit_clients v;
  vr_batches : ∃ groups, rs = concat groups ∧ Forall one_batch groups;
  vr_starts : visit_starts v' = visit_starts v ++ filter retained rs;
  vr_initialized : archive_initialized_at (stats v')
    = initialized_after (archive_initialized_at (stats v)) rs;
  vr_count : visit_records (stats v') = (visit_records (stats v) + N.of_nat (length rs))%N;
}.

(** A visit and a walk at the same place. *)
Record same_place (v : Visit) (w : Walk) : Prop := {
  sp_seq : visit_seq v = expected_seq w;
  sp_previous : visit_previous v = previous_record w;
  sp_manifest : visit_manifest v = previous_manifest w;
  sp_segments : visit_segments (stats v) = verified_segments w;
}.

(** [rs] are all the records of the segment file that follows the record [previous] and the
    manifest [manifest], at the sequence number [seq]: the file named by the manifest of that
    number in the tree, which the origin's key signed, which names both predecessors, has the
    hash [hash] and signs the bytes of the file, which are the lines of [rs]. They are linked,
    in complete batches, and written from known frontiers. *)
Record whole_segment (seq : N) (previous manifest : option string) (hash : string)
    (rs : list VerifiedV2Record) : Prop := {
  ws_file : ∃ b m content,
    tree_read root (manifest_relative_path (Frontier.origin_id tail) seq) = Ok b ∧
    from_json b = Ok m ∧ manifest_signed m key ∧ manifest_hash m = Ok hash ∧
    first_seq (manifest_body m) = seq ∧
    previous_segment_manifest_hash (manifest_body m) = manifest ∧
    tree_read root (segment_path (manifest_body m)) = Ok content ∧
    blake3_identifier content = segment_blake3 (manifest_body m) ∧
    content = concat (line_bytes <$> (exact_line_bytes <$> rs)) ∧
    Forall (λ r, record_manifest_hash r = hash) rs;
  ws_linked : linked (Frontier.origin_id tail) seq previous rs;
  ws_signed : Forall (signed g ghash key (Frontier.origin_id tail)) rs;
  ws_batches : ∃ groups, rs = concat groups ∧ Forall one_batch groups;
  ws_known : ∀ r, r ∈ rs → is_Some (known !! causal_frontier_hash r);
  ws_some : rs ≠ [];
}.

(** Segments one after the other, each at the place where the one before it ends. *)
Inductive consecutive_segments : N → option string → option string →
    list (list VerifiedV2Record) → Prop :=
  | no_segments seq previous manifest : consecutive_segments seq previous manifest []
  | next_segment seq previous manifest hash rs segments :
      whole_segment seq previous manifest hash rs →
      consecutive_segments (seq + N.of_nat (length rs)) (last_hash previous rs) (Some hash)
        segments →
      consecutive_segments seq previous manifest (rs :: segments).

Lemma head_Some_cons {A} (l : list A) x : head l = Some x → ∃ l', l = x :: l'.
Proof. destruct l as [|y l]; [done |]. intros [= ->]. eauto. Qed.

Lemma authenticate_Ok v body hash content s :
  authenticate_segment root g ghash key tail known c apply_registry v
    = Ok (body, hash, content, s) →
  ∃ rs, reads (segment_path body) content (exact_line_bytes <$> rs) ∧
    streamed (Frontier.origin_id tail) hash (causal_base_frontier_hash body) known c
      apply_registry (read_start v) rs s ∧
    tree_read root (segment_path body) = Ok content ∧
    whole_segment (visit_seq v) (visit_previous v) (visit_manifest v) hash rs ∧
    (∀ w v' found, same_place v w →
       close_segment tail v (body, hash, content, s) = Ok (v', found) →
       (visit_seq v' = visit_seq v + N.of_nat (length rs))%N ∧
       visit_previous v' = last_hash (visit_previous v) rs ∧ visit_manifest v' = Some hash ∧
       (found = true → at_tail tail rs) ∧
       ∃ w', range_segment root g ghash key tail known w = Ok (w', found) ∧
         output w' = output w ++ rs ∧ same_place v' w' ∧ visited_records v rs v').
Proof.
  unfold authenticate_segment. set (path := manifest_relative_path _ _).
  intros (b & Hb%map_err_Ok & Hrun)%bind_Ok. apply bind_Ok in Hrun as (m & Hm%map_err_Ok & Hrun).
  apply bind_Ok in Hrun as (canonical & Hcan%map_err_Ok & Hrun).
  apply bind_Ok in Hrun as ([] & Hdet%bail_if_Ok & Hrun).
  apply bind_Ok in Hrun as ([] & Hverify%map_err_Ok & Hrun).
  apply bind_Ok in Hrun as ([] & Hchain%bail_if_Ok & Hrun).
  apply bind_Ok in Hrun as (hash' & Hhash%map_err_Ok & Hrun).
  apply bind_Ok in Hrun as ([] & Hfile%map_err_Ok & Hrun).
  apply bind_Ok in Hrun as (content' & Hcontent%map_err_Ok & Hrun).
  apply bind_Ok in Hrun as (s' & Hread & Hrun).
  apply bind_Ok in Hrun as ([] & Hactive%bail_if_Ok & Hrun).
  apply bind_Ok in Hrun as ([] & Hrange%bail_if_Ok & [= <- <- <- <-]).
  apply verify_segment_file_Ok in Hfile as (content & Hc & Hblake & Hlen & Hnl).
  rewrite Hc in Hcontent. injection Hcontent as <-.
  apply stream_Ok in Hread as (rs & Hreads & Hstreamed). exists rs. split; [done |].
  split; [done |].
  destruct Hstreamed as [Hfold Hclient Hctx Hclients Hbatches Hstarts Hinit Hcount Hfirst Hlast].
  pose proof (Hfold "") as Hfold'. apply read_lines_Ok in Hfold'
    as (new & Hnew & Hlinked & _ & Hfrom & Hseq & Hprev). cbn [app] in Hnew. subst new.
  pose proof Hdet as Hdet0. pose proof Hchain as Hchain0. revert Hdet0 Hchain0. boolify. intros Hdet0 Hchain0. destruct Hfirst as [Hfid Hfhash]; [done.. |].
  destruct (head rs) as [r1|] eqn:Hr1; [|cbn in *; congruence].
  destruct (head_Some_cons _ _ Hr1) as [rest Hrs].
  assert (rs ≠ []) as Hne by (by rewrite Hrs).
  destruct (Hlast Hne) as [Hlid Hlhash]. destruct (last rs) as [rl|] eqn:Hrl;
    [|by apply last_None in Hrl].
  pose proof (linked_last_seq _ _ _ _ _ Hlinked Hrl) as Hlseq.
  cbn [read_seq read_previous read_start segment_records read_clients retained_starts
    first_id first_hash active] in *.
  assert (last_seq (manifest_body m) = origin_seq (envelope (record rl))) as Hls.
  { match goal with H : last_seq _ = _ |- _ => rewrite H end. clear -Hlseq Hseq. lia. }
  assert (segment_lines content = exact_line_bytes <$> rs) as Hlines.
  { apply reads_lines in Hreads as [-> Hclean]. apply segment_lines_concat; [by rewrite Hrs |].
    eapply Forall_impl; [exact Hclean |]. by intros line [_ ?]. }
  assert (∃ groups, rs = concat groups ∧ Forall one_batch groups) as Hgroups.
  { destruct Hbatches as (groups & part & -> & Hgroups & Hpart); [by exists [], [] |].
    destruct (active s'); [done |]. subst part. exists groups. by rewrite app_nil_r. }
  split; [done |]. split.
  - split; [| done | | done | | done].
    + apply read_file_Ok in Hb. apply parse_json_Ok in Hm.
      exists b, m, content. split_and!; eauto using verify_manifest_Ok.
      * by apply reads_lines in Hreads as [-> _].
      * eapply Forall_impl; [exact Hfrom |]. by intros r [? _].
    + eapply verify_segment_signed; eauto using verify_manifest_Ok.
    + rewrite Forall_forall in Hfrom. intros r Hr. destruct (Hfrom r Hr) as [_ ->].
      by apply is_some_b_true.
  - intros w v' found [Hws Hwp Hwm Hwn] Hclose. unfold close_segment in Hclose.
    apply bind_Ok in Hclose as (records & [-> _]%ok_or_Ok%checked_add_u64_Some & Hclose).
    apply bind_Ok in Hclose as (segments & Hsegments%ok_or_Ok & Hclose).
    pose proof Hsegments as [-> _]%checked_add_u64_Some.
    assert (∃ w', range_segment root g ghash key tail known w = Ok (w', found) ∧
      w' = {| expected_seq := read_seq s'; previous_record := read_previous s';
              previous_manifest := Some hash'; verified_segments := verified_segments w + 1;
              output := output w ++ rs |}) as (w' & Hw & ->).
    { eexists. split; [|done]. unfold range_segment. rewrite <- Hws.
      fold path. rewrite Hb. cbn [mbind result_bind]. rewrite Hm. cbn [mbind result_bind].
      rewrite Hcan. cbn [mbind result_bind]. rewrite Hdet0.
      cbn [bail_if mbind result_bind]. rewrite Hverify. cbn [mbind result_bind].
      rewrite <- Hwm, Hchain0. cbn [bail_if mbind result_bind]. rewrite Hhash.
      cbn [mbind result_bind]. unfold read_file. rewrite Hc. cbn [map_err mbind result_bind].
      assert (negb (bool_decide (blake3_identifier content = segment_blake3 (manifest_body m)))
        || negb (N.of_nat (length content) =? segment_bytes (manifest_body m))%N
        || negb (ends_with_newline content) = false) as ->.
      { rewrite Hnl, bool_decide_eq_true_2, (proj2 (N.eqb_eq _ _)); done. }
      cbn [bail_if mbind result_bind].
      rewrite Hlines, <- Hwp, Hfold. cbn [mbind result_bind]. rewrite Hr1, Hrl.
      cbn [ok_or mbind result_bind].
      match goal with |- (bail_if ?cond _ ≫= _) = _ => replace cond with false end.
      2: { symmetry. rewrite !orb_false_iff, !negb_false_iff, !N.eqb_eq.
        rewrite !bool_decide_eq_true. cbn in *. split_and!; try congruence. lia. }
      cbn [bail_if mbind result_bind]. rewrite <- Hwn, Hsegments. cbn [ok_or mbind result_bind].
      case_decide; apply bind_Ok in Hclose as ([] & Hend & [= <- <-]); rewrite Hend; done. }
    split_and!; [by case_decide; apply bind_Ok in Hclose as ([] & _ & [= <- <-]) .. | |].
    { intros ->. case_decide as Htail; apply bind_Ok in Hclose as ([] & Hend%bail_if_Ok & [= <-]).
      boolify. exists rl. rewrite Forall_forall in Hfrom.
      split_and!; [done | congruence | cbn in *; congruence |].
      rewrite <- Htail. apply Hfrom. by apply last_Some_elem_of. }
    eexists. split; [exact Hw |]. split; [done |].
    split.
    + case_decide; apply bind_Ok in Hclose as ([] & _ & [= <- <-]); split; cbn; congruence.
    + case_decide; apply bind_Ok in Hclose as ([] & _ & [= <- <-]); split; cbn; try done;
        rewrite Hcount; done.
Qed.
End origin.

(** ** Replaying it *)

Section visitor.
Context {E A : Type} (from : V2StoreError → E) (visitor : VerifiedV2Record → st A E ()).

(** The visitor, called on one record after the other. *)
Fixpoint visit_all (rs : list VerifiedV2Record) : st A E () :=
  match rs with
  | [] => mret ()
  | r :: rs => _ ← visitor r; visit_all rs
  end.

Lemma visit_all_app rs rs' a :
  visit_all (rs ++ rs') a = (_ ← visit_all rs; visit_all rs') a.
Proof.
  revert a. induction rs as [|r rs IH]; intros a; [done |].
  cbn [app visit_all]. unfold mbind, st_bind in *. destruct (visitor r a) as [[[]|e] a']; [|done].
  apply IH.
Qed.

(** The replay of a segment that was read is the visitor on its records. *)
Lemma replay_reads origin mh fh path lines content fuel seq previous acc seq' previous' rs a :
  reads path content lines → (length content < fuel)%nat →
  fold_result (read_line origin mh fh path) (seq, previous, acc) lines
    = Ok (seq', previous', acc ++ rs) →
  replay from visitor origin mh fh path fuel content seq previous a
  = (let '(x, a') := visit_all rs a in (map_err Halted x, a')).
Proof.
  intros Hreads. revert fuel seq previous acc rs a.
  induction Hreads as [|reader line rest lines Hline _ IH]; intros fuel seq previous acc rs a Hfuel Hfold.
  - destruct fuel; [cbn in Hfuel; lia |]. cbn in Hfold. injection Hfold as <- <- Hacc.
    rewrite <- (app_nil_r acc) in Hacc at 1. apply (inj (app acc)) in Hacc as <-. done.
  - destruct fuel; [lia |]. pose proof (read_record_line_shorter _ _ _ _ Hline) as Hlt.
    cbn [replay]. unfold mbind at 1, st_bind at 1, store at 1, st_lift at 1. rewrite Hline.
    cbn [map_err]. cbn [fold_result] in Hfold.
    apply bind_Ok in Hfold as ([[seq1 previous1] acc1] & Hstep & Hfold).
    unfold read_line in Hstep. apply bind_Ok in Hstep as ([] & _ & Hstep).
    apply bind_Ok in Hstep as (parsed & Hparse & Hstep).
    apply bind_Ok in Hstep as (n & Hn & [= <- <- <-]).
    assert (∃ rs', rs = {| record := parsed; exact_line_bytes := line;
      record_manifest_hash := mh; causal_frontier_hash := fh |} :: rs') as [rs' ->].
    { apply read_lines_Ok in Hfold as Hpre. destruct Hpre as (new & Heq & _).
      rewrite <- app_assoc in Heq. apply (inj (app acc)) in Heq. cbn in Heq. eauto. }
    unfold mbind at 1, st_bind at 1, store at 1, st_lift at 1. rewrite Hparse. cbn [map_err].
    unfold mbind at 1, st_bind at 1, store at 1, st_lift at 1.
    apply ok_or_Ok in Hn. rewrite Hn. cbn [ok_or map_err].
    unfold mbind at 1, st_bind at 1, call at 1. cbn [visit_all].
    unfold mbind at 1, st_bind at 1.
    destruct (visitor _ a) as [[[]|e] a1]; cbn [map_err]; [|done].
    apply (IH _ _ _ (acc ++ [{| record := parsed; exact_line_bytes := line;
      record_manifest_hash := mh; causal_frontier_hash := fh |}])); [lia |].
    rewrite <- app_assoc. exact Hfold.
Qed.

Section origin.
Context (root : Tree) (g : SignedGenesis) (ghash : string) (key : VerifyingKey).
Context (tail : OriginFrontier) (known : gmap string CausalFrontier).
Context (c : option VerifiedV2Client) (apply_registry : bool).

Context (reopen : string → result string bytes).
(** Reading a segment again fails, or yields what the tree holds. *)
Hypothesis steady : ∀ path content, reopen path = Ok content → tree_read root path = Ok content.

(** Segments from the place of a visit on. *)
Definition placed (v : Visit) : list (list VerifiedV2Record) → Prop :=
  consecutive_segments root g ghash key tail known (visit_seq v) (visit_previous v)
    (visit_manifest v).

Abbreviation moved := (visited_records known c apply_registry).

(** The walk at the place of a visit. *)
Definition walk_at (v : Visit) : Walk := {|
  expected_seq := visit_seq v; previous_record := visit_previous v;
  previous_manifest := visit_manifest v; verified_segments := visit_segments (stats v);
  output := [] |}.

Lemma same_place_walk_at v : same_place v (walk_at v).
Proof. done. Qed.

Lemma authenticate_total v stop :
  authenticate_segment root g ghash key tail known c apply_registry v = Err stop →
  ∃ error, stop = Stopped error.
Proof.
  unfold authenticate_segment. intros Hrun.
  repeat (apply bind_Err in Hrun as [Hrun | (? & ? & Hrun)];
    [first [ by apply map_err_Stopped' in Hrun | by apply map_err_Stopped in Hrun
           | apply bail_if_Err in Hrun as [_ ->]; by eexists
           | apply read_loop_total in Hrun; [done | lia] ] |]).
  done.
Qed.

(** A turn: nothing was visited, or exactly the records of the next segment were. *)
Lemma visit_segment_visits v a :
  let '(x, a') := visit_segment from visitor reopen root g ghash key tail known c apply_registry
                    v a in
  (∀ e, x = Err e → ∃ error, e = Halted error) ∧
  ∃ segments, placed v segments ∧ (visit_all (concat segments) a).2 = a' ∧
    (is_ok x = true → (visit_all (concat segments) a).1 = Ok ()) ∧
    ∀ v' found, x = Ok (v', found) →
      (∀ rest, placed v' rest → placed v (segments ++ rest)) ∧
      (found = true → at_tail tail (concat segments)) ∧
      ∀ w, same_place v w →
      ∃ w', range_segment root g ghash key tail known w = Ok (w', found) ∧
        output w' = output w ++ concat segments ∧ same_place v' w' ∧ moved v (concat segments) v'.
Proof.
  unfold visit_segment, stop. unfold mbind at 1, st_bind at 1, st_lift.
  destruct (authenticate_segment _ _ _ _ _ _ _ _ v) as [[[[body hash] content] s]|e] eqn:Hauth;
    cbn [map_err].
  2: { apply authenticate_total in Hauth as [error ->]. split; [intros e [= <-]; by eexists |].
    exists []. split_and!; [constructor | done..]. }
  apply authenticate_Ok in Hauth as (rs & Hreads & Hstreamed & Hcontent & Hrs & Hclose).
  unfold mbind at 1, st_bind at 1, store at 1, st_lift.
  destruct (reopen (segment_path body)) as [content'|e] eqn:Hreopen; cbn [map_err].
  2: { split; [intros e' [= <-]; by eexists |]. exists []. split_and!; [constructor | done..]. }
  apply steady in Hreopen. rewrite Hcontent in Hreopen. injection Hreopen as <-.
  pose proof (sd_read _ _ _ _ _ _ _ _ _ Hstreamed (segment_path body)) as Hfold.
  cbn [read_seq read_previous read_start] in Hfold.
  unfold mbind at 1, st_bind at 1.
  rewrite (replay_reads _ _ _ _ _ _ _ _ _ [] _ _ rs a Hreads (Nat.lt_succ_diag_r _) Hfold).
  assert (placed v [rs]) as Hplaced by (econstructor; [exact Hrs | constructor]).
  destruct (visit_all rs a) as [[[]|e] a'] eqn:Hvisit; cbn [map_err].
  - unfold store, st_lift. split.
    { intros e. destruct (close_segment _ _ _); cbn; intros [= <-]. by eexists. }
    exists [rs]. cbn [concat]. rewrite app_nil_r, Hvisit. split_and!; [done.. |].
    intros v' found Hx%map_err_Ok.
    destruct (Hclose _ _ _ (same_place_walk_at v) Hx) as (Hseq & Hprev & Hman & Htail & _).
    split_and!; [| done | intros w Hw; by apply (Hclose w v' found)].
    intros rest. unfold placed. rewrite Hseq, Hprev, Hman. by apply next_segment.
  - split; [intros e' [= <-]; by eexists |]. exists [rs]. cbn [concat].
    rewrite app_nil_r, Hvisit. by split_and!.
Qed.

Lemma moved_refl v : moved v [] v.
Proof.
  split; try done.
  - intros cl _ r Hr. by apply elem_of_nil in Hr.
  - by destruct apply_registry.
  - by exists [].
  - by rewrite filter_nil, app_nil_r.
  - by destruct (archive_initialized_at (stats v)).
  - cbn. lia.
Qed.

Lemma moved_trans v1 rs v2 rs' v3 : moved v1 rs v2 → moved v2 rs' v3 → moved v1 (rs ++ rs') v3.
Proof.
  intros [Hcl Hctx Hreg (gs & -> & Hgs) Hst Hi Hn] [Hcl' Hctx' Hreg' (gs' & -> & Hgs') Hst' Hi' Hn'].
  assert (keeps_keys (visit_clients v2) (visit_clients v3)) as Hkeys.
  { destruct apply_registry; [by eapply apply_items_keep_keys |].
    rewrite Hreg'. apply keeps_keys_refl. }
  split.
  - intros cl Hc r [Hr | Hr]%elem_of_app; [by eapply Hcl | by eapply Hcl'].
  - apply contexts_app. split; [by eapply contexts_keep | done].
  - destruct apply_registry; [|congruence]. unfold apply_client_registry_items in *.
    rewrite fold_result_app, Hreg. exact Hreg'.
  - exists (gs ++ gs'). rewrite concat_app. split; [done |]. by apply Forall_app.
  - by rewrite Hst', Hst, filter_app, app_assoc.
  - by rewrite Hi', Hi, initialized_after_app.
  - rewrite Hn', Hn, length_app. lia.
Qed.

(** The loop visits the next segments; when it succeeds, they are the range. *)
Lemma visit_loop_visits fuel v a :
  let '(x, a') := visit_loop from visitor reopen root g ghash key tail known c apply_registry
                    fuel v a in
  ((N.to_nat (Frontier.seq tail + 1 - visit_seq v) < fuel)%nat →
    ∀ e, x = Err e → ∃ error, e = Halted error) ∧
  ∃ segments, placed v segments ∧ (visit_all (concat segments) a).2 = a' ∧
    (is_ok x = true → (visit_all (concat segments) a).1 = Ok () ∧
       at_tail tail (concat segments)) ∧
    ∀ v' w, x = Ok v' → same_place v w →
      ∃ w', range_loop root g ghash key tail known fuel w = Ok w' ∧
        output w' = output w ++ concat segments ∧ same_place v' w' ∧ moved v (concat segments) v'.
Proof.
  revert v a. induction fuel as [|fuel IH]; intros v a; cbn [visit_loop].
  { unfold st_lift. split; [lia |]. exists []. by split_and!; [constructor | ..]. }
  unfold mbind at 1, st_bind at 1. pose proof (visit_segment_visits v a) as Hseg.
  destruct (visit_segment _ _ _ _ _ _ _ _ _ _ _ v a) as [[[v1 found]|e] a1].
  2: { destruct Hseg as (He & segments & Hplaced & Ha & _ & _).
    split; [intros _ e0 [= <-]; by apply He |]. exists segments. by split_and!. }
  destruct Hseg as (_ & first & Hplaced & Ha & Hok & Hw). specialize (Hok eq_refl).
  destruct (Hw _ _ eq_refl) as (Hrest & Htail & Hsim). clear Hw. destruct found.
  { cbn. split; [done |]. exists first. split_and!; [done.. | by split; [| apply Htail] |].
    intros v' w [= <-] Hsame. destruct (Hsim _ Hsame) as (w' & Hrange & Hout & Hsame' & Hmoved).
    exists w'. cbn [range_loop]. rewrite Hrange. by split_and!. }
  specialize (IH v1 a1). destruct (visit_loop _ _ _ _ _ _ _ _ _ _ _ fuel v1 a1) as [x a'].
  destruct IH as (He & segments & Hsegs & Ha' & Hok' & Hw'). split.
  - intros Hfuel. apply He.
    destruct (Hsim _ (same_place_walk_at v)) as (w' & Hrange & _ & Hsame & _).
    apply range_segment_walk in Hrange as (_ & _ & _ & _ & Hlt & Hle). specialize (Hle eq_refl).
    rewrite (sp_seq _ _ Hsame). cbn in Hlt. lia.
  - exists (first ++ segments). rewrite concat_app.
    assert (visit_all (concat first ++ concat segments) a = visit_all (concat segments) a1) as Hcat.
    { rewrite visit_all_app. unfold mbind, st_bind.
      destruct (visit_all (concat first) a) as [y a2]. cbn in Ha, Hok. by subst. }
    rewrite Hcat. split_and!; [by apply Hrest | done | |].
    { intros [Hv (r & Hr & Hat)]%Hok'. split; [done |]. exists r. by rewrite last_app, Hr. }
    intros v' w -> Hsame.
    destruct (Hsim _ Hsame) as (w1 & Hrange & Hout & Hsame1 & Hmoved1).
    destruct (Hw' _ _ eq_refl Hsame1) as (w' & Hloop & Hout' & Hsame' & Hmoved').
    exists w'. cbn [range_loop]. rewrite Hrange. cbn [map_err mbind result_bind].
    split_and!; [done | | done | by eapply moved_trans]. rewrite Hout', Hout. by rewrite app_assoc.
Qed.

(** Segments from a cursor on. *)
Definition after_cursor (cursor : V2OriginCursor) : list (list VerifiedV2Record) → Prop :=
  consecutive_segments root g ghash key tail known (applied_seq cursor + 1)
    (applied_record_hash cursor) (applied_segment_manifest_hash cursor).

(** The whole range: whatever happened, the visitor saw the segments after the cursor, in
    order; and a visit that succeeds saw them up to the tail and agrees with
    [verify_origin_range]. *)
Lemma visit_origin_range_visits cursor clients starts a :
  let '(x, a') := visit_origin_range from visitor reopen root g ghash key tail cursor known c
                    clients apply_registry starts a in
  (∀ e, x = Err e → ∃ error, e = Halted error) ∧
  ∃ segments, after_cursor cursor segments ∧ (visit_all (concat segments) a).2 = a' ∧
    (is_ok x = true → (visit_all (concat segments) a).1 = Ok () ∧
       at_tail tail (concat segments)) ∧
    ∀ s clients' starts', x = Ok (s, clients', starts') →
      visit_all (concat segments) a = (Ok (), a') ∧
      verify_origin_range root g ghash key tail cursor known
        = Ok (concat segments, visit_segments s) ∧
      ∃ v v', visit_clients v = clients ∧ visit_starts v = starts ∧ stats v = no_stats ∧
        stats v' = s ∧ visit_clients v' = clients' ∧
        visit_starts v' = starts' ∧ moved v (concat segments) v'.
Proof.
  unfold visit_origin_range, store. unfold mbind at 1, st_bind at 1, st_lift.
  unfold visit_start, verify_origin_range, range_start.
  destruct (ok_or (checked_add_u64 (applied_seq cursor) 1) _) as [seq|error] eqn:Hseq;
    cbn [map_err mbind result_bind].
  2: { split; [intros e [= <-]; by eexists |]. exists []. by split_and!; [constructor | ..]. }
  apply ok_or_Ok, checked_add_u64_Some in Hseq as [-> _].
  set (v := {| visit_seq := applied_seq cursor + 1 |}).
  set (w := {| expected_seq := applied_seq cursor + 1 |}).
  unfold mbind at 1, st_bind at 1.
  pose proof (visit_loop_visits (visit_fuel tail v) v a) as Hloop.
  destruct (visit_loop _ _ _ _ _ _ _ _ _ _ _ _ v a) as [x a'].
  destruct Hloop as (He & segments & Hsegs & Ha & Hok & Hw).
  assert (∀ e, x = Err e → ∃ error, e = Halted error) as Hx.
  { apply He. unfold visit_fuel. lia. }
  destruct x as [v'|e].
  2: { split; [intros e' [= <-]; by apply Hx |]. exists segments. by split_and!. }
  split; [done |]. exists segments. split_and!; [done.. |].
  intros s clients' starts' [= <- <- <-]. destruct (Hok eq_refl) as [Hvisit _].
  split; [destruct (visit_all (concat segments) a); cbn in *; congruence |].
  destruct (Hw v' w eq_refl) as (w' & Hrange & Hout & Hsame & Hmoved); [done |].
  change (range_fuel tail w) with (visit_fuel tail v). rewrite Hrange. cbn [mbind result_bind].
  rewrite Hout, (sp_segments _ _ Hsame). split; [done |]. by exists v, v'.
Qed.
End origin.
End visitor.

(** C17: a visitor only sees records of segments that were checked to their end, each once and
    in their order, also when the visit of an origin fails halfway or the visitor does: what it
    did is the visitor called on the whole segment files that follow the cursor, one after the
    other, each signed by the origin's key under a manifest that names the manifest before it,
    each with linked records in complete batches, written from known frontiers; when the visit
    succeeds, the visitor accepted every record and the last is the accepted tail; and the
    visit always ends, with a result or an error of the code or of the visitor. Reading a
    segment again to replay it may fail; when it does not, the bytes are those of the tree. *)
Theorem visit_only_authentic {E A} (from : V2StoreError → E) (visitor : VerifiedV2Record → st A E ())
    reopen root g ghash key tail cursor known c clients apply_registry starts a :
  (∀ path content, reopen path = Ok content → tree_read root path = Ok content) →
  let '(x, a') := visit_origin_range from visitor reopen root g ghash key tail cursor known c
                    clients apply_registry starts a in
  (∃ segments,
     consecutive_segments root g ghash key tail known (applied_seq cursor + 1)
       (applied_record_hash cursor) (applied_segment_manifest_hash cursor) segments ∧
     (visit_all visitor (concat segments) a).2 = a' ∧
     (is_ok x = true → (visit_all visitor (concat segments) a).1 = Ok () ∧
        at_tail tail (concat segments))) ∧
  ((∃ y, x = Ok y) ∨ ∃ error, x = Err (Halted error)).
Proof.
  intros Hsteady. pose proof (visit_origin_range_visits from visitor root g ghash key tail known c
    apply_registry reopen Hsteady cursor clients starts a) as Hrun.
  destruct (visit_origin_range _ _ _ _ _ _ _ _ _ _ _ _ _ _ a) as [x a'].
  destruct Hrun as (He & segments & Hsegs & Ha & Hok & _). split; [by exists segments |].
  destruct x as [y|e]; [left; eauto | right]. destruct (He e eq_refl) as [error ->]. eauto.
Qed.

(** ** Rounds over the pending origins *)

Lemma range_loop_nonempty root g ghash key tail known fuel w w' :
  range_loop root g ghash key tail known fuel w = Ok w' → output w' ≠ [].
Proof.
  revert w. induction fuel as [|fuel IH]; cbn [range_loop]; intros w Hrun; [done |].
  apply bind_Ok in Hrun as ([w1 found] & Hseg%map_err_Ok & Hrun). destruct found; [|by eapply IH].
  injection Hrun as <-. apply range_segment_walk in Hseg as (new & -> & Hwalk & _).
  specialize (Hwalk []). apply verify_segment_run in Hwalk
    as (m & hash & new' & r0 & _ & _ & _ & _ & _ & _ & _ & _ & Hlast & _ & _ & Hw & _).
  apply (f_equal output) in Hw. cbn in Hw. subst new'.
  intros [_ ->]%app_eq_nil. done.
Qed.

Lemma verify_origin_range_nonempty root g ghash key tail cursor known rs n :
  verify_origin_range root g ghash key tail cursor known = Ok (rs, n) → rs ≠ [].
Proof.
  unfold verify_origin_range.
  intros (w & _ & (w' & Hloop%range_loop_nonempty & [= <- _])%bind_Ok)%bind_Ok. done.
Qed.

(** The records, in whole batches and with accepted lease proofs. *)
Definition in_order (rs : list VerifiedV2Record) (clients : Registry) : Prop :=
  (∃ groups, rs = concat groups ∧ Forall one_batch groups) ∧
  validate_coordination_contexts rs clients = Ok ().

Lemma in_order_app rs rs' clients clients' :
  in_order rs clients → keeps_keys clients clients' → in_order rs' clients' →
  in_order (rs ++ rs') clients'.
Proof.
  intros [(gs & -> & Hgs) Hctx] Hkeys [(gs' & -> & Hgs') Hctx']. split.
  - exists (gs ++ gs'). rewrite concat_app. split; [done |]. by apply Forall_app.
  - apply contexts_app. split; [by eapply contexts_keep | done].
Qed.

(** The locals of the streaming rounds and those of the retaining rounds. *)
Record same_round (v : Visited) (e : Enrollment) : Prop := {
  sr_clients : v_clients v = e_clients e;
  sr_starts : v_starts v = filter retained (e_records e);
  sr_count : v_records v = N.of_nat (length (e_records e));
  sr_segments : v_segments v = e_segments e;
  sr_pending : v_pending v = e_pending e;
  sr_order : in_order (e_records e) (e_clients e);
}.

Section rounds.
Context {E A : Type} (from : V2StoreError → E) (visitor : VerifiedV2Record → st A E ()).
Context (root : Tree) (g : SignedGenesis) (ghash : string) (accepted : CausalFrontier).
Context (frontiers : gmap string CausalFrontier) (cursors : gmap string V2OriginCursor).
Context (exempt : option string).
(** Only the genesis client's records may be exempt. *)
Hypothesis exempt_initial : ∀ id, exempt = Some id → id = initial_client_id (body g).
Context (reopen : string → result string bytes).
Hypothesis steady : ∀ path content, reopen path = Ok content → tree_read root path = Ok content.

Abbreviation candidate := (visit_candidate from visitor reopen root g ghash accepted frontiers cursors exempt).
Abbreviation retaining := (range_candidate root g ghash accepted cursors frontiers).

Lemma visit_candidate_simulates v e p id a v' p' a' :
  same_round v e →
  candidate (v, p) id a = (Ok (v', p'), a') →
  ∃ e' rs, retaining (e, p) id = Ok (e', p') ∧ same_round v' e' ∧
    e_records e' = e_records e ++ rs ∧ visit_all visitor rs a = (Ok (), a').
Proof.
  intros [Hc Hs Hn Hseg Hp Hord]. unfold visit_candidate, range_candidate. rewrite Hc.
  destruct (e_clients e !! id) as [c|] eqn:Hid.
  2: { intros [= <- <- <-]. exists e, []. rewrite app_nil_r. split_and!; done. }
  unfold stop, store. unfold mbind at 1, st_bind at 1, st_lift.
  destruct (find_origin (origins accepted) id) as [o|]; cbn [ok_or map_err mbind result_bind]; [|done].
  unfold mbind at 1, st_bind at 1.
  destruct (client_key c) as [key|]; cbn [map_err mbind result_bind]; [|done].
  unfold mbind at 1, st_bind at 1.
  match goal with |- context[visit_origin_range from visitor reopen root g ghash key o ?cur
    frontiers ?cl (e_clients e) true ?starts a] =>
    pose proof (visit_origin_range_visits from visitor root g ghash key o frontiers cl true reopen
      steady cur (e_clients e) starts a) as Hrun;
    destruct (visit_origin_range from visitor reopen root g ghash key o cur frontiers cl
      (e_clients e) true starts a) as [[[[s clients] starts']|] a1] end; [|done].
  destruct Hrun as (_ & segments & _ & _ & _ & Hok).
  destruct (Hok _ _ _ eq_refl) as (Hvisit & Hrange & u & u' & Hu1 & Hu2 & Hu3 & Hu4 & Hu5 & Hu6
    & [Hclient Hctx Hreg Hgroups Hstarts _ Hcount]). clear Hok.
  unfold st_lift, add_stats. rewrite Hseg.
  destruct (checked_add_u64 (v_records v) (visit_records s)) as [records|] eqn:Hrecords;
    cbn [ok_or map_err mbind result_bind]; [|done].
  destruct (checked_add_u64 (e_segments e) (visit_segments s)) as [total|] eqn:Htotal;
    cbn [ok_or map_err mbind result_bind]; [|done].
  intros [= <- <- <-]. rewrite Hrange. cbn [map_err mbind result_bind].
  assert ((if decide (id = initial_client_id (body g)) then Ok ()
    else map_err Stopped (validate_client_origin_records (concat segments) c frontiers)) = Ok ()) as ->.
  { destruct (decide (id = initial_client_id (body g))) as [Hi | Hi]; [done |].
    rewrite decide_False in Hclient by (intros ?%exempt_initial; done).
    unfold validate_client_origin_records.
    rewrite bool_decide_eq_false_2 by by eapply verify_origin_range_nonempty.
    cbn [bail_if mbind result_bind]. apply map_err_Ok, for_each_Ok. by apply Hclient. }
  cbn [mbind result_bind]. rewrite Htotal. cbn [ok_or mbind result_bind].
  rewrite Hu1, Hu5 in Hreg. rewrite Hreg. cbn [map_err mbind result_bind].
  eexists _, (concat segments). split; [done |]. split; [|by split].
  split; cbn [v_clients v_starts v_records v_segments v_pending e_clients e_records e_segments e_pending];
    [done | | | done | by rewrite Hp |].
  - rewrite filter_app, <- Hs, <- Hu2, <- Hu6. exact Hstarts.
  - apply checked_add_u64_Some in Hrecords as [-> _].
    rewrite Hn, <- Hu4, Hcount, Hu3, length_app. cbn. clear. lia.
  - eapply in_order_app; [done | by eapply apply_items_keep_keys | split; [done |]]. by rewrite <- Hu5.
Qed.

Lemma visit_round_simulates l v e p a v' p' a' :
  same_round v e →
  st_fold candidate (v, p) l a = (Ok (v', p'), a') →
  ∃ e' rs, fold_result retaining (e, p) l = Ok (e', p') ∧ same_round v' e' ∧
    e_records e' = e_records e ++ rs ∧ visit_all visitor rs a = (Ok (), a').
Proof.
  revert v e p a. induction l as [|id l IH]; intros v e p a Hsame Hrun.
  - cbn in Hrun. injection Hrun as <- <- <-. exists e, []. rewrite app_nil_r. by split_and!.
  - cbn [st_fold] in Hrun. apply st_bind_Ok in Hrun as ([v1 p1] & a1 & Hstep & Hrun).
    eapply visit_candidate_simulates in Hstep as (e1 & rs & Hstep & Hsame1 & Hrec & Hvisit);
      [|done].
    eapply IH in Hrun as (e' & rs' & Hrun & Hsame' & Hrec' & Hvisit');
      [|done].
    exists e', (rs ++ rs'). cbn [fold_result]. rewrite Hstep. cbn [mbind result_bind].
    split_and!; [done.. | |]. { by rewrite Hrec', Hrec, app_assoc. }
    rewrite visit_all_app. by apply st_bind_Ok; exists (), a1.
Qed.

(** The streaming rounds are the retaining rounds. *)
Lemma visit_rounds_simulates contains fuel v e a v' a' :
  same_round v e →
  visit_rounds from visitor reopen root g ghash accepted frontiers cursors exempt contains fuel v a
    = (Ok v', a') →
  ∃ e' rs, range_rounds root g ghash accepted cursors frontiers fuel e = Ok e' ∧
    same_round v' e' ∧ e_records e' = e_records e ++ rs ∧ visit_all visitor rs a = (Ok (), a').
Proof.
  revert v e a. induction fuel as [|fuel IH]; intros v e a Hsame Hrun;
    cbn [visit_rounds range_rounds] in *; rewrite (sr_pending _ _ Hsame) in Hrun;
    (destruct (e_pending e) as [|id l] eqn:Hp;
      [injection Hrun as <- <-; exists e, []; rewrite app_nil_r; by split_and! |]); [done |].
  rewrite <- Hp in *. apply st_bind_Ok in Hrun as ([v1 p1] & a1 & Hround & Hrun).
  eapply visit_round_simulates in Hround as (e1 & rs & Hround & Hsame1 & Hrec & Hvisit);
    [|done].
  rewrite Hround. cbn [mbind result_bind].
  apply st_bind_Ok in Hrun as ([] & a2 & Hb & Hrun). unfold store, st_lift in Hb.
  injection Hb as Hb <-. apply map_err_Ok, bail_if_Ok in Hb. rewrite Hb. cbn [bail_if mbind result_bind].
  eapply IH in Hrun as (e' & rs' & Hrun & Hsame' & Hrec' & Hvisit'); [|done].
  exists e', (rs ++ rs'). split_and!; [done.. | by rewrite Hrec', Hrec, app_assoc |].
  rewrite visit_all_app. by apply st_bind_Ok; exists (), a1.
Qed.
End rounds.

(** ** Whole archives *)

Lemma store_Ok {E A X} (from : V2StoreError → E) (m : result V2StoreError X) (a a' : A) x :
  store from m a = (Ok x, a') ↔ m = Ok x ∧ a' = a.
Proof. unfold store, st_lift. destruct m; cbn; naive_solver. Qed.

Lemma stop_Ok {E A X} (from : V2StoreError → E) (m : result Stop X) (a a' : A) x :
  stop from m a = (Ok x, a') ↔ m = Ok x ∧ a' = a.
Proof. unfold stop, st_lift. destruct m; cbn; naive_solver. Qed.

(** The archive with all the records that were visited. *)
Definition with_records (ar : VerifiedV2Archive) (rs : list VerifiedV2Record)
    : VerifiedV2Archive := {|
  Archive.genesis := Archive.genesis ar; archive_genesis_hash := archive_genesis_hash ar;
  accepted_frontier := accepted_frontier ar; accepted_frontier_hash := accepted_frontier_hash ar;
  records := rs; archive_record_count := archive_record_count ar; clients := clients ar;
  frontiers := frontiers ar; segment_count := segment_count ar;
  frontier_count := frontier_count ar |}.

(** The context the visitor is given. *)
Definition context_of (ar : VerifiedV2Archive) : V2VerificationContext := {|
  context_genesis := Archive.genesis ar; context_genesis_hash := archive_genesis_hash ar;
  context_frontier := accepted_frontier ar;
  context_frontier_hash := accepted_frontier_hash ar; context_frontiers := frontiers ar |}.

(** C19: a streaming incremental verification that succeeds agrees with the retaining one: the
    visitor saw, in order, exactly the records [verify_since_with_clients] works out from the
    same tree, cursors and clients, in whole batches; the archive it returns keeps of them the
    batch starts and the initialization; and [verify_since_with_clients] returns the same
    archive with all the records, unless a batch identifier is used by two batches, which only
    it refuses. Reading a segment again to replay it may fail; when it does not, the bytes are
    those of the tree. *)
Theorem visit_since_agrees {E A} (from : V2StoreError → E)
    (visitor : VerifiedV2Record → V2VerificationContext → st A E ()) reopen fuel root base_hash
    cursors trusted a ar a' :
  (∀ path content, reopen path = Ok content → tree_read root path = Ok content) →
  visit_verified_since_with_clients from visitor reopen fuel root base_hash cursors trusted a
    = (Ok ar, a') →
  ∃ rs, visit_all (λ r, visitor r (context_of ar)) rs a = (Ok (), a') ∧
    (∃ groups, rs = concat groups ∧ Forall one_batch groups) ∧
    records ar = filter retained rs ∧
    verify_since_with_clients fuel root base_hash cursors trusted
    = (_ ← map_err Stopped (verify_batches rs); Ok (with_records ar rs)).
Proof.
  unfold visit_verified_since_with_clients, verify_since_with_clients. intros Hsteady Hrun.
  apply st_bind_Ok in Hrun as ([] & a1 & [Hbase ->]%store_Ok & Hrun).
  apply st_bind_Ok in Hrun as ([g ghash] & a1 & [Hgen ->]%store_Ok & Hrun).
  apply st_bind_Ok in Hrun as (head & a1 & [Hhead ->]%store_Ok & Hrun).
  apply st_bind_Ok in Hrun as ([frontiers at_base] & a1 & [Hload ->]%stop_Ok & Hrun).
  apply st_bind_Ok in Hrun as ([] & a1 & [Hanc%bail_if_Ok ->]%store_Ok & Hrun).
  apply st_bind_Ok in Hrun as (accepted & a1 & [Hacc%ok_or_Ok ->]%store_Ok & Hrun).
  apply st_bind_Ok in Hrun as (key & a1 & [Hkey%map_err_Ok ->]%store_Ok & Hrun).
  apply st_bind_Ok in Hrun as (pending & a1 & [Hpending ->]%store_Ok & Hrun).
  apply st_bind_Ok in Hrun as (v & a1 & Hrounds & [= <- <-]).
  eapply (visit_rounds_simulates _ _ _ _ _ _ _ _ (Some (initial_client_id (body g)))) in Hrounds
    as (e & rs & Hrounds & Hsame & Hrec & Hvisit);
    [| by intros id [= <-] | done | by apply (Build_same_round _ {|
         e_clients := with_initial_client g key trusted; e_records := []; e_segments := 0;
         e_pending := btree_set pending |}); [.. | split; [by exists [] | done]]].
  cbn [e_records app] in Hrec. destruct (sr_order _ _ Hsame) as [Hgroups Hctx].
  rewrite Hrec in Hgroups, Hctx. exists rs. split; [exact Hvisit |]. split; [done |].
  split; [by rewrite (sr_starts _ _ Hsame), Hrec |].
  rewrite Hbase. cbn [map_err mbind result_bind]. rewrite Hgen. cbn [map_err mbind result_bind].
  rewrite Hhead. cbn [map_err mbind result_bind]. rewrite Hload. cbn [mbind result_bind].
  rewrite Hanc. cbn [bail_if mbind result_bind]. rewrite Hacc. cbn [ok_or mbind result_bind].
  rewrite Hkey. cbn [map_err mbind result_bind]. rewrite Hpending. cbn [map_err mbind result_bind].
  rewrite Hrounds. cbn [mbind result_bind]. rewrite Hrec, Hctx. cbn [map_err mbind result_bind].
  unfold with_records. cbn. by rewrite (sr_clients _ _ Hsame), (sr_count _ _ Hsame), Hrec,
    (sr_segments _ _ Hsame).
Qed.

Section whole.
Context `{!Ed25519Laws}.

(** What [visit_verified] establishes of the records it handed to the visitor and of the
    archive it returns. *)
Record whole_history (root : Tree) (ar : VerifiedV2Archive) (rs : list VerifiedV2Record)
    : Prop := {
  wh_genesis : verify (Archive.genesis ar) = Ok () ∧
    Genesis.genesis_hash (Archive.genesis ar) = Ok (archive_genesis_hash ar);
  wh_head : read_head root = Ok (accepted_frontier_hash ar) ∧
    frontiers ar !! accepted_frontier_hash ar = Some (accepted_frontier ar);
  wh_graph : closed (genesis_archive_id (Archive.genesis ar)) (archive_genesis_hash ar)
    (frontiers ar);
  wh_extends : ∀ h f, frontiers ar !! h = Some f → extends f (accepted_frontier ar);
  wh_origins : ∀ o, o ∈ origins (accepted_frontier ar) →
    let own := filter (λ r, origin_of r = Frontier.origin_id o) rs in
    origin_chain ar o own ∧ ∃ prior post, rs = prior ++ own ++ post ∧
      authorized (Archive.genesis ar) (registry_after (Archive.genesis ar)) (frontiers ar)
        prior o own;
  wh_clients : registry_after (Archive.genesis ar) rs (clients ar);
  wh_only : ∀ r, r ∈ rs →
    origin_of r ∈ Frontier.origin_id <$> origins (accepted_frontier ar) ∧
    is_Some (frontiers ar !! causal_frontier_hash r);
  wh_order : in_order rs (clients ar);
  wh_registry : registry_ok (clients ar);
  wh_kept : records ar = filter retained rs;
  wh_count : archive_record_count ar = N.of_nat (length rs) ∧
    archive_record_count ar = total (Frontier.seq <$> origins (accepted_frontier ar));
}.

Lemma approve_initial_Ok id approval clients clients' :
  approve_initial id approval clients = Ok clients' →
  keeps_keys clients clients' ∧ (registry_ok clients → registry_ok clients').
Proof.
  unfold approve_initial. intros (c & Hc%ok_or_Ok & [= <-])%bind_Ok. split.
  - intros id' c' Hc'. destruct (decide (id = id')) as [<- | Hne].
    + rewrite lookup_insert_eq. rewrite Hc in Hc'. injection Hc' as <-. by eexists.
    + rewrite lookup_insert_ne by done. by exists c'.
  - intros Hreg id' c'. rewrite lookup_insert_Some. intros [[<- <-] | [_ ?]]; [|auto].
    destruct (Hreg _ _ Hc). by split.
Qed.

(** Approving the genesis client after its records are read is as good as before: no item
    looks at an approval. *)
Definition approve (approval : string * N) (c : VerifiedV2Client) : VerifiedV2Client := {|
  client := client c; display_name := display_name c; public_key := public_key c;
  capabilities := capabilities c; approved_origin_id := approval.1;
  approved_origin_seq := approval.2; revoked_origin_id := revoked_origin_id c;
  revoked_origin_seq := revoked_origin_seq c |}.

Lemma apply_item_approve id approval r clients item clients' :
  is_Some (clients !! id) → apply_item r clients item = Ok clients' →
  apply_item r (alter (approve approval) id clients) item
    = Ok (alter (approve approval) id clients').
Proof.
  intros [c Hc]. unfold apply_item. case_decide; [|case_decide; [|by intros [= <-]]].
  - intros (object & -> & Hrun)%bind_Ok. cbn [mbind result_bind].
    apply bind_Ok in Hrun as (new & -> & Hrun). cbn [mbind result_bind].
    apply bind_Ok in Hrun as ([] & Hnew%bail_if_Ok & [= <-]).
    assert (id ≠ client new) as Hne by (intros ->; by rewrite Hc in Hnew).
    rewrite lookup_alter_ne, Hnew by done. cbn [bail_if mbind result_bind].
    by rewrite alter_insert_ne.
  - intros (rid & -> & Hrun)%bind_Ok. cbn [mbind result_bind].
    apply bind_Ok in Hrun as ([] & -> & Hrun). cbn [mbind result_bind].
    apply bind_Ok in Hrun as (old & Hold%ok_or_Ok & Hrun).
    apply bind_Ok in Hrun as ([] & Hrevoked%bail_if_Ok & [= <-]).
    destruct (decide (id = rid)) as [-> | Hne].
    + rewrite lookup_alter_eq, Hold. cbn [fmap option_fmap option_map ok_or mbind result_bind].
      change (is_revoked (approve approval old)) with (is_revoked old). rewrite Hrevoked.
      cbn [bail_if mbind result_bind].
      by rewrite insert_alter_eq, alter_insert_eq.
    + rewrite lookup_alter_ne, Hold by done. cbn [ok_or mbind result_bind]. rewrite Hrevoked.
      cbn [bail_if mbind result_bind]. by rewrite alter_insert_ne.
Qed.

Lemma apply_item_keeps id r clients item clients' :
  is_Some (clients !! id) → apply_item r clients item = Ok clients' → is_Some (clients' !! id).
Proof.
  intros [c Hc] Hrun%apply_item_evolves. destruct (ev_keep _ _ _ Hrun _ _ Hc) as (c' & ? & _). eauto.
Qed.

Lemma apply_record_approve id approval clients r clients' :
  is_Some (clients !! id) → apply_record clients r = Ok clients' →
  apply_record (alter (approve approval) id clients) r = Ok (alter (approve approval) id clients').
Proof.
  unfold apply_record. intros Hid. case_decide; [|by intros [= <-]].
  destruct (record_items r) as [items|]; [|by intros [= <-]]. revert clients Hid.
  induction items as [|item items IH]; intros clients Hid; cbn; [by intros [= <-] |].
  intros (c1 & Hstep & Hrun)%bind_Ok. rewrite (apply_item_approve _ _ _ _ _ _ Hid Hstep).
  cbn [mbind result_bind]. apply IH; [by eapply apply_item_keeps | done].
Qed.

Lemma apply_items_approve id approval rs clients clients' :
  is_Some (clients !! id) → apply_client_registry_items rs clients = Ok clients' →
  apply_client_registry_items rs (alter (approve approval) id clients)
    = Ok (alter (approve approval) id clients').
Proof.
  unfold apply_client_registry_items. revert clients.
  induction rs as [|r rs IH]; intros clients Hid; cbn; [by intros [= <-] |].
  intros (c1 & Hstep & Hrun)%bind_Ok. rewrite (apply_record_approve _ _ _ _ _ Hid Hstep).
  cbn [mbind result_bind]. apply IH; [|done].
  destruct Hid as [c Hc]. apply apply_record_evolves in Hstep.
  destruct (ev_keep _ _ _ Hstep _ _ Hc) as (c' & ? & _). eauto.
Qed.

(** The registry of the streaming verification is that of the retaining one. *)
Lemma approved_registry g key rs approval clients clients' :
  validate_body (body g) = Ok key →
  apply_client_registry_items rs {[ initial_client_id (body g) := provisional_client g key ]}
    = Ok clients →
  initialized_after None rs = Some approval →
  approve_initial (initial_client_id (body g)) approval clients = Ok clients' →
  registry_after g rs clients'.
Proof.
  intros Hkey Hrun Hinit (c & Hc%ok_or_Ok & [= <-])%bind_Ok.
  cbn in Hinit. apply fmap_Some in Hinit as (r & Hr & ->). exists key, r.
  split_and!; [done.. |].
  apply (apply_items_approve (initial_client_id (body g)) (dot r)) in Hrun;
    [|rewrite lookup_singleton_eq; eauto].
  rewrite alter_singleton_eq in Hrun. change (approve _ _) with (initial_client g key r) in Hrun.
  unfold initial. rewrite Hrun. f_equal. rewrite <- (insert_id clients _ c Hc) at 1.
  by rewrite alter_insert_eq.
Qed.

Lemma provisional_registry_ok g key :
  validate_body (body g) = Ok key →
  registry_ok {[ initial_client_id (body g) := provisional_client g key ]}.
Proof.
  intros [_ _ _ Hc]%validate_body_Ok id c. rewrite lookup_singleton_Some. intros [<- <-].
  split; cbn; [done | rewrite Hc; apply client_id_origin | apply key_bytes_length | done |].
  eexists. apply key_from_to_bytes.
Qed.

Lemma no_cursor_not_up_to_date o : ¬ up_to_date ∅ o.
Proof. unfold up_to_date, cursor_of. by rewrite lookup_empty. Qed.

(** The origins, genesis client first, as a log of ranges from nothing. *)
Lemma visit_origins_Ok {E A} (from : V2StoreError → E) (visitor : VerifiedV2Record → st A E ())
    reopen root g ghash accepted visited a v a' :
  (∀ path content, reopen path = Ok content → tree_read root path = Ok content) →
  key_sorted Frontier.origin_id (origins accepted) →
  visit_origins from visitor reopen root g ghash accepted visited a = (Ok v, a') →
  ∃ e log, visit_all visitor (e_records e) a = (Ok (), a') ∧ same_round v e ∧
    since_ok root g ghash accepted (registry_after g) ∅ visited log e ∧ e_pending e = [].
Proof.
  intros Hsteady Hsorted Hrun. unfold visit_origins in Hrun.
  apply st_bind_Ok in Hrun as (key & a1 & [Hkey%map_err_Ok ->]%store_Ok & Hrun).
  apply st_bind_Ok in Hrun as (o & a1 & [Ho%ok_or_Ok ->]%store_Ok & Hrun).
  apply find_origin_Some in Ho as [Ho Hid]; [|done].
  apply st_bind_Ok in Hrun as ([[s clients] starts] & a1 & Hvisit & Hrun).
  pose proof (visit_origin_range_visits from visitor root g ghash key o visited None true reopen
    Hsteady no_cursor {[ initial_client_id (body g) := provisional_client g key ]} [] a) as Hrange.
  rewrite Hvisit in Hrange. destruct Hrange as (_ & segments & _ & _ & _ & Hok).
  destruct (Hok _ _ _ eq_refl) as (Hall & Hrange & u & u' & Hu1 & Hu2 & Hu3 & Hu4 & Hu5 & Hu6
    & [_ Hctx Hreg Hgroups Hstarts Hinit Hcount]). clear Hok Hvisit.
  apply st_bind_Ok in Hrun as (approval & a2 & [Happroval%ok_or_Ok ->]%store_Ok & Hrun).
  apply st_bind_Ok in Hrun as (clients1 & a2 & [Happroved ->]%stop_Ok & Hrun).
  pose proof (approve_initial_Ok _ _ _ _ Happroved) as [Hkeys Happrove].
  set (pending := btree_set (Frontier.origin_id <$>
    filter (λ o, Frontier.origin_id o ≠ initial_client_id (body g)) (origins accepted))) in *.
  apply st_bind_Ok in Hrun as (v1 & a2 & [Hadd ->]%store_Ok & Hrounds).
  unfold add_stats in Hadd.
  apply bind_Ok in Hadd as (n & [-> _]%ok_or_Ok%checked_add_u64_Some & Hadd).
  apply bind_Ok in Hadd as (m & [-> _]%ok_or_Ok%checked_add_u64_Some & [= <-]).
  rewrite Hu1, Hu5 in Hreg. rewrite Hu5 in Hctx. rewrite Hu2, Hu6 in Hstarts.
  rewrite Hu3, Hu4 in Hcount, Hinit. rewrite Happroval in Hinit.
  cbn [visit_records no_stats] in Hcount.
  pose proof (approved_registry _ _ _ _ _ _ Hkey Hreg (eq_sym Hinit) Happroved) as Hafter.
  set (e := {| e_clients := clients1; e_records := concat segments; e_segments := visit_segments s;
               e_pending := pending |}).
  assert (∀ id, id ∈ pending ↔
    id ∈ Frontier.origin_id <$> origins accepted ∧ id ≠ initial_client_id (body g)) as Hpend.
  { intros id. unfold pending. rewrite elem_of_btree_set, !list_elem_of_fmap.
    setoid_rewrite list_elem_of_filter. naive_solver. }
  eapply (visit_rounds_simulates _ _ _ _ _ _ _ _ None) with (e := e) in Hrounds
    as (e' & rs & Hrounds & Hsame & Hrec & Hvisit); [| done | done |].
  2: { split; cbn; [done | done | lia | lia | done |]. split; [done |]. by eapply contexts_keep. }
  assert (since_ok root g ghash accepted (registry_after g) ∅ visited [(o, concat segments)] e)
    as Hstart.
  { split; cbn [e_records e_pending e_clients e].
    - cbn. by rewrite app_nil_r.
    - apply (in_turn_snoc _ []); [apply in_turn_nil |]. split; [|by left].
      exists key, (visit_segments s). split.
      + apply validate_body_Ok in Hkey as [_ _ _ Hc]. unfold key_of_client. congruence.
      + unfold cursor_of. by rewrite lookup_empty.
    - exact Hafter.
    - cbn. repeat constructor. apply not_elem_of_nil.
    - intros o' ->%list_elem_of_singleton. split_and!; [done | apply no_cursor_not_up_to_date |].
      rewrite Hpend. tauto.
    - intros o' Ho'. destruct (decide (Frontier.origin_id o' = initial_client_id (body g))) as [Hi |].
      + left. apply list_elem_of_singleton.
        apply (key_sorted_inj Frontier.origin_id (origins accepted)); [done.. |]. cbn [fst]. by rewrite Hi, Hid.
      + right. left. rewrite Hpend. split; [by apply list_elem_of_fmap_2 | done].
    - intros o' _ _. apply no_cursor_not_up_to_date.
    - apply Happrove. eapply apply_items_evolves; [done |]. by apply provisional_registry_ok.
    - unfold pending, btree_set. rewrite merge_sort_Permutation. apply NoDup_remove_dups.
    - intros id. rewrite Hpend. tauto. }
  eapply range_rounds_Ok in Hrounds as [[log Hlog] Hnil];
    [| apply registry_after_app | done | exact Hstart].
  exists e', log. split_and!; [|done..]. rewrite Hrec, visit_all_app.
  apply st_bind_Ok. by exists (), a1.
Qed.

Lemma visit_verified_Ok {E A} (from : V2StoreError → E)
    (visitor : VerifiedV2Record → st A E ()) reopen fuel root a ar a' :
  (∀ path content, reopen path = Ok content → tree_read root path = Ok content) →
  visit_verified from visitor reopen fuel root a = (Ok ar, a') →
  ∃ rs, visit_all visitor rs a = (Ok (), a') ∧ whole_history root ar rs.
Proof.
  unfold visit_verified. intros Hsteady Hrun.
  apply st_bind_Ok in Hrun as ([g ghash] & a1 & [Hgen ->]%store_Ok & Hrun).
  apply st_bind_Ok in Hrun as (head & a1 & [Hhead ->]%store_Ok & Hrun).
  apply st_bind_Ok in Hrun as (visited & a1 & [Hload ->]%stop_Ok & Hrun).
  apply load_from_empty in Hload as (Hclosed & f & Hf & [Hst _] & _ & Hext).
  apply st_bind_Ok in Hrun as (accepted & a1 & [Hacc%ok_or_Ok ->]%store_Ok & Hrun).
  rewrite Hf in Hacc. injection Hacc as <-. apply frontier_hash_Ok in Hst as [Hwf _].
  apply st_bind_Ok in Hrun as (v & a1 & Hvisit & Hrun).
  apply visit_origins_Ok in Hvisit as (e & log & Hvisit & Hsame & Hlog & Hnil);
    [| done | apply Hwf].
  apply st_bind_Ok in Hrun as (expected & a2 & [Htotal%ok_or_Ok%total_records_Some ->]%store_Ok & Hrun).
  apply st_bind_Ok in Hrun as ([] & a2 & [Hn%bail_if_Ok ->]%store_Ok & [= <- <-]). boolify.
  destruct (since_records _ _ _ _ _ (registry_after_app g) _ _ (wf_sorted _ Hwf) _ _ Hlog Hnil)
    as [Horigins Honly].
  unfold read_genesis in Hgen. inv_ok. exists (e_records e). split; [done |].
  destruct (sr_order _ _ Hsame) as [Hgroups Hctx].
  assert (∀ o, o ∈ origins f →
    origin_chain {| Archive.genesis := g; archive_genesis_hash := ghash; accepted_frontier := f;
      accepted_frontier_hash := head; records := v_starts v; archive_record_count := v_records v;
      clients := v_clients v; frontiers := visited; segment_count := v_segments v;
      frontier_count := N.of_nat (size visited) |} o
      (filter (λ r, origin_of r = Frontier.origin_id o) (e_records e)) ∧
    (∃ prior post,
       e_records e = prior ++ filter (λ r, origin_of r = Frontier.origin_id o) (e_records e)
                     ++ post ∧
       authorized g (registry_after g) visited prior o
         (filter (λ r, origin_of r = Frontier.origin_id o) (e_records e))) ∧
    ∀ r, r ∈ filter (λ r, origin_of r = Frontier.origin_id o) (e_records e) →
      is_Some (visited !! causal_frontier_hash r)) as Hchains.
  { intros o Ho.
    destruct (Horigins o Ho) as [(prior & post & Hat & (key & n & Hkey & Hrange) & Hauth) | [Hup _]];
      [|by apply no_cursor_not_up_to_date in Hup].
    unfold cursor_of in Hrange. rewrite lookup_empty in Hrange.
    eapply verify_origin_range_Ok in Hrange as (? & ? & ? & ? & ?); [|apply trusted_none].
    split_and!; [by exists key | by exists prior, post | done]. }
  split; cbn [Archive.genesis archive_genesis_hash accepted_frontier accepted_frontier_hash records
    archive_record_count clients frontiers]; try done.
  - intros o Ho. by destruct (Hchains o Ho) as (? & ? & _).
  - rewrite (sr_clients _ _ Hsame). apply Hlog.
  - intros r Hr. pose proof (Honly r Hr) as Hin. split; [done |].
    apply list_elem_of_fmap in Hin as (o & Hor & Ho). destruct (Hchains o Ho) as (_ & _ & Hcausal).
    apply Hcausal. by apply list_elem_of_filter.
  - split; [done |]. by rewrite (sr_clients _ _ Hsame).
  - rewrite (sr_clients _ _ Hsame). by apply Hlog.
  - by apply (sr_starts _ _ Hsame).
  - split; [by apply (sr_count _ _ Hsame) | done].
Qed.

(** C18: a streaming verification that succeeds has shown the visitor the whole history: the
    records it was called on are, origin by origin, exactly the signed chains up to the
    accepted tails, each written by the genesis client or by the client of that identifier in
    the registry that the records before it make, from known frontiers that include the
    enrollment and not the revocation the registry holds for it; in whole batches, with
    accepted lease proofs; the clients are the replay of all the records, as for [verify];
    the archive returned is anchored in a verified genesis and a closed frontier graph that the
    accepted frontier extends, keeps the batch starts and the initialization, and counts the
    records. Reading a segment again to replay it may fail; when it does not, the bytes are
    those of the tree. *)
Theorem visit_verified_sound {E A} (from : V2StoreError → E)
    (visitor : VerifiedV2Record → st A E ()) reopen fuel root a ar a' :
  (∀ path content, reopen path = Ok content → tree_read root path = Ok content) →
  visit_verified from visitor reopen fuel root a = (Ok ar, a') →
  ∃ rs, visit_all visitor rs a = (Ok (), a') ∧ whole_history root ar rs.
Proof. apply visit_verified_Ok. Qed.

(** A verified archive has the frontier its head names, and every frontier it knows is in
    the tree under its name. *)
Lemma verify_compact_side fuel tree a :
  verify_compact fuel tree = Ok a →
  read_head tree = Ok (accepted_frontier_hash a) ∧ side_ok a ∧
  (∀ h, is_Some (frontiers a !! h) → ∃ path content,
    frontier_path h = Ok path ∧ tree_read tree path = Ok content) ∧
  ∃ path content, frontier_path (accepted_frontier_hash a) = Ok path ∧
    tree_read tree path = Ok content ∧ from_json content = Ok (accepted_frontier a).
Proof.
  unfold verify_compact, visit_verified. intros Hrun.
  match type of Hrun with fst ?p = _ => destruct p as [r u] eqn:Hvisit end. cbn in Hrun. subst r.
  apply st_bind_Ok in Hvisit as ([g ghash] & u1 & [_ ->]%store_Ok & Hrun).
  apply st_bind_Ok in Hrun as (head & u1 & [Hhead ->]%store_Ok & Hrun).
  apply st_bind_Ok in Hrun as (visited & u1 & [Hload ->]%stop_Ok & Hrun).
  pose proof (load_ok _ _ _ _ _ _ _ Hload) as [_ _ (f0 & Hf0 & Hnew)].
  apply load_from_empty in Hload as (_ & f & Hf & _ & Hread & _).
  apply st_bind_Ok in Hrun as (accepted & u1 & [Hacc%ok_or_Ok ->]%store_Ok & Hrun).
  rewrite Hf in Hacc. injection Hacc as <-.
  apply st_bind_Ok in Hrun as (v & u1 & _ & Hrun).
  apply st_bind_Ok in Hrun as (expected & u2 & _ & Hrun).
  apply st_bind_Ok in Hrun as ([] & u3 & _ & [= <- _]). cbn.
  assert (∀ h g', read_frontier tree (genesis_archive_id g) ghash h = Ok g' → ∃ path content,
    frontier_path h = Ok path ∧ tree_read tree path = Ok content ∧ from_json content = Ok g') as Hfile.
  { intros h g' Hr. unfold read_frontier in Hr. apply bind_Ok in Hr as (path & Hpath & Hr).
    apply bind_Ok in Hr as (content & Hcontent%read_file_Ok & Hr).
    apply bind_Ok in Hr as (g2 & Hg2%parse_json_Ok & Hr). exists path, content.
    split_and!; [done.. |]. inv_ok. done. }
  pose proof (Hfile _ _ Hread) as Haccepted.
  apply FrontierGraph.read_frontier_Ok in Hread as ([Hwf Hhash]%frontier_hash_Ok & Harchive & Hgenesis).
  split; [done |]. split; [by split |]. split; [|done]. intros h Hsome.
  destruct (Hnew h) as (g' & _ & Hr & _); [done | done |].
  destruct (Hfile _ _ Hr) as (path & content & ? & ? & _). by exists path, content.
Qed.
End whole.
End stream.
