(* ===== verification/RangesExamples.v ===== *)
(** Incremental verification run on the archive of [WriterExamples.v]: it was verified after
    its initialization, then a second batch was appended, and only that batch is verified. *)
From Stdlib Require Import ZArith NArith Lia Ascii.
From stdpp Require Import base decidable list gmap strings.
From S2P Require Import Prelude.
From S2P Require Import Text.
From S2P Require Import External.
From S2P Require Import Ids.
From S2P Require Import Frontier.
From S2P Require Import Record.
From S2P Require Import Genesis.
From S2P Require Import Store.
From S2P Require Import Segment.
From S2P Require Import FrontierGraph.
From S2P Require Import Clients.
From S2P Require Import Coordination.
From S2P Require Import Batches.
From S2P Require Import Archive.
From S2P Require Import Codec.
From S2P Require Import Append.
From S2P Require Import WriterExamples.
From S2P Require Import Ranges.

#[local] Existing Instance Genesis.Examples.two_keys.
#[local] Existing Instance Genesis.Examples.two_keys_laws.
#[local] Existing Instance sized_blake3.
#[local] Existing Instance sized_blake3_laws.
#[local] Existing Instance envelope_from_json.
#[local] Existing Instance body_to_json.
#[local] Existing Instance manifest_to_json.
#[local] Existing Instance manifest_from_json.
#[local] Existing Instance frontier_to_json.
#[local] Existing Instance frontier_from_json.
#[local] Existing Instance Archive.Examples.body_json.
#[local] Existing Instance Archive.Examples.genesis_json.
#[local] Existing Instance Archive.Examples.lease_json.
#[local] Existing Instance Archive.Examples.lease_from_value.
#[local] Existing Instance WriterExamples.genesis_from_json.

(** The tree after the second batch. *)
Definition later : Tree := tree_of second.2 ∅.

Definition incremental : result Stop VerifiedV2Archive :=
  verify_since_with_clients 3 later (accepted_frontier_hash verified) (cursors_of verified)
    (clients verified).
Definition newer : VerifiedV2Archive := unwrap bare incremental.

Lemma newer_computes :
  is_ok incremental && (N.of_nat (length (records newer)) =? records_written second.1)%N
  && bool_decide (genesis_archive_id (Archive.genesis newer) = "archive_1") = true.
Proof. vm_compute. reflexivity. Qed.

Lemma newer_verifies : incremental = Ok newer.
Proof. apply unwrap_ok. vm_compute. reflexivity. Qed.

Lemma newer_genesis : Archive.genesis newer = Archive.genesis verified.
Proof. vm_compute. reflexivity. Qed.

Definition unwrap_tail (os : list OriginFrontier) : OriginFrontier :=
  default {| Frontier.origin_id := ""; Frontier.seq := 0; event_hash := "";
             segment_manifest_hash := "" |} (head os).

Lemma newer_origin :
  ∃ o, o ∈ origins (accepted_frontier newer) ∧
    bool_decide (origin_records verified (Frontier.origin_id o) = []) = false ∧
    bool_decide (origin_records newer (Frontier.origin_id o) = []) = false.
Proof.
  assert (head (origins (accepted_frontier newer)) = Some (unwrap_tail (origins (accepted_frontier newer))))
    as Hh by (vm_compute; reflexivity).
  exists (unwrap_tail (origins (accepted_frontier newer))).
  split; [by apply head_Some_elem_of |]. split; vm_compute; reflexivity.
Qed.

