(* ===== verification/AppendBase.v ===== *)
(** The archive an append builds on: the choice [append_batch_locked] of [v2_store.rs] makes
    between [verify_append_base], which reads only the genesis client's last append, and
    [verify_compact], which reads the whole history. Either gives what the theorems on the
    writer ask for. *)
From Stdlib Require Import ZArith NArith Lia Ascii.
From stdpp Require Import base decidable list gmap strings.
From S2P Require Import Prelude.
From S2P Require Import Text.
From S2P Require Import External.
From S2P Require Import Ids.
From S2P Require Import Frontier.
From S2P Require Import Batch.
From S2P Require Import Record.
From S2P Require Import Genesis.
From S2P Require Import Store.
From S2P Require Import Segment.
From S2P Require Import FrontierGraph.
From S2P Require Import Clients.
From S2P Require Import Coordination.
From S2P Require Import Batches.
From S2P Require Import Archive.
From S2P Require Import Append.
From S2P Require Import Sealing.
From S2P Require Import Ranges.
From S2P Require Import Visit.
From S2P Require Import Streaming.

Section base.
Context `{Blake3, UlidCrate, Base64, Ed25519,
  FromJson V2RecordEnvelope, ToJson SegmentManifestBody, ToJson SignedSegmentManifest,
  FromJson SignedSegmentManifest, ToJson GenesisBody, ToJson SignedGenesis,
  FromJson SignedGenesis, ToJson CausalFrontier, FromJson CausalFrontier,
  ToJson CoordinationLeaseBody, FromValue SignedCoordinationLease}.

(** [let verified = if origin_id == genesis.body.initial_client_id ..] *)
Definition append_base (fuel : nat) (root : Tree) (origin : string)
    : result (Halt V2StoreError) VerifiedV2Archive :=
  b ← map_err Halted (read_file root "genesis.json");
  genesis ← map_err Halted (parse_json "genesis.json" b);
  if decide (origin = initial_client_id (body genesis)) then
    match verify_append_base root with
    | Ok verified => Ok verified
    | Err (Halted (Invalid message)) =>
        if String.prefix "local append after a merged frontier" message
        then verify_compact fuel root
        else Err (Halted (Invalid message))
    | Err error => Err error
    end
  else verify_compact fuel root.

(** ** What the base is *)

(** The records just read of an origin, up to its accepted tail. *)
Definition read_to_tail (a : VerifiedV2Archive) (tail : OriginFrontier) : Prop :=
  ∃ key seq previous rs, key_of_client (Frontier.origin_id tail) key ∧
    linked (Frontier.origin_id tail) seq previous rs ∧
    Forall (signed (Archive.genesis a) (archive_genesis_hash a) key (Frontier.origin_id tail)) rs ∧
    at_tail tail rs.

Context `{!Blake3Laws, !Ed25519Laws}.

(** Segments one after the other are linked records, all signed. *)
Lemma consecutive_linked root g ghash key tail known seq previous manifest segments :
  consecutive_segments root g ghash key tail known seq previous manifest segments →
  linked (Frontier.origin_id tail) seq previous (concat segments) ∧
  Forall (signed g ghash key (Frontier.origin_id tail)) (concat segments).
Proof.
  induction 1 as [|seq previous manifest hash rs segments [_ Hl Hs _ _ _] _ [IHl IHs]]; [done |].
  cbn [concat]. split; [by apply linked_app | by apply Forall_app].
Qed.

Lemma verify_compact_base fuel root v :
  verify_compact fuel root = Ok v →
  read_head root = Ok (accepted_frontier_hash v) ∧ trusted_base v ∧
  ∀ tail, tail ∈ origins (accepted_frontier v) → read_to_tail v tail.
Proof.
  intros Hv. pose proof (verify_compact_side _ _ _ Hv) as (Hhead & Hside & _).
  unfold verify_compact in Hv.
  destruct (visit_verified id ignore (tree_read root) fuel root ()) as [r u] eqn:Hvisit.
  cbn in Hv. subst r. apply visit_verified_Ok in Hvisit as (rs & _ & Hwhole); [|done].
  split_and!; [done | split; [done | apply Hwhole] |]. intros tail Htail.
  destruct (wh_origins _ _ _ Hwhole _ Htail) as [(key & Hkey & Hl & _ & Hat & Hs) _].
  by exists key, 1%N, None, (filter (λ r, origin_of r = Frontier.origin_id tail) rs).
Qed.

(** The fast path reads the last append of the genesis client. *)
Lemma verify_append_base_Ok root v :
  verify_append_base root = Ok v →
  read_genesis root = Ok (Archive.genesis v, archive_genesis_hash v) ∧
  read_head root = Ok (accepted_frontier_hash v) ∧ trusted_base v ∧
  ∀ tail, find_origin (origins (accepted_frontier v)) (initial_client_id (body (Archive.genesis v)))
    = Some tail → read_to_tail v tail.
Proof.
  unfold verify_append_base.
  intros ([g ghash] & Hgen%map_err_Ok & Hrun)%bind_Ok.
  apply bind_Ok in Hrun as (head & Hhead%map_err_Ok & Hrun).
  apply bind_Ok in Hrun as (accepted & Hacc%map_err_Ok & Hrun).
  apply bind_Ok in Hrun as ([] & _ & Hrun). apply bind_Ok in Hrun as (parent_hash & _ & Hrun).
  apply bind_Ok in Hrun as (parent & _ & Hrun). apply bind_Ok in Hrun as (adv & _ & Hrun).
  apply bind_Ok in Hrun as (tail & Htail%map_err_Ok%ok_or_Ok & Hrun).
  apply bind_Ok in Hrun as ([] & _ & Hrun).
  apply bind_Ok in Hrun as (key & Hkey%map_err_Ok%map_err_Ok & Hrun).
  apply bind_Ok in Hrun as ([[s clients] starts] & Hvisit & [= <-]).
  cbn [Archive.genesis accepted_frontier accepted_frontier_hash].
  match type of Hvisit with (visit_origin_range ?from ?visitor ?reopen ?root ?g ?ghash ?key ?tail
    ?cursor ?known ?c ?clients0 ?apply ?starts0 ?a).1 = _ =>
    pose proof (visit_origin_range_visits from visitor root g ghash key tail known c apply reopen
      (λ path content Hread, Hread) cursor clients0 starts0 a) as Hrange;
    destruct (visit_origin_range from visitor reopen root g ghash key tail cursor known c clients0
      apply starts0 a) as [x a'] end.
  cbn in Hvisit. subst x. destruct Hrange as (_ & segments & Hsegments & _ & Hat & Hok).
  destruct (Hat eq_refl) as [_ Htail']. destruct (find_origin_elem _ _ _ Htail) as [_ Hid].
  apply FrontierGraph.read_frontier_Ok in Hacc as ([Hwf Hhash]%frontier_hash_Ok & Ha & Hg).
  do 2 (split; [done |]). split.
  - split; [by split |]. destruct (Hok _ _ _ eq_refl) as (_ & _ & u & u' & Hu & _ & _ & _ & Hu' & _ & Hmoved).
    cbn [Archive.clients]. rewrite <- Hu', (vr_clients _ _ _ _ _ _ Hmoved), Hu.
    by apply provisional_registry_ok.
  - intros t Ht. rewrite Htail in Ht. injection Ht as <-.
    apply consecutive_linked in Hsegments as [Hl Hs].
    eexists key, _, _, (concat segments). split_and!; [|done..].
    apply validate_body_Ok in Hkey as [_ _ _ Hc]. unfold key_of_client. congruence.
Qed.

(** C39: whatever an append builds on was verified: the frontier HEAD names is stored under
    its hash, well-formed and of this archive; every client identifier is the hash of a usable
    key; and the accepted tail of the appending origin, when it has one, is the last of
    linked records that were just read and that are signed with its client's key. This holds
    of both ways the base is read: the whole history, or only the genesis client's last
    append. *)
Theorem append_base_sound fuel root origin v :
  append_base fuel root origin = Ok v →
  read_head root = Ok (accepted_frontier_hash v) ∧ trusted_base v ∧
  ∀ tail, find_origin (origins (accepted_frontier v)) origin = Some tail → read_to_tail v tail.
Proof.
  unfold append_base. intros (b & Hb%map_err_Ok & Hrun)%bind_Ok.
  apply bind_Ok in Hrun as (g & Hg%map_err_Ok & Hrun).
  assert (verify_compact fuel root = Ok v →
    read_head root = Ok (accepted_frontier_hash v) ∧ trusted_base v ∧
    ∀ tail, find_origin (origins (accepted_frontier v)) origin = Some tail → read_to_tail v tail)
    as Hcompact.
  { intros (? & ? & Hall)%verify_compact_base. split_and!; [done.. |].
    intros tail [? _]%find_origin_elem. by apply Hall. }
  case_decide as Horigin; [|by apply Hcompact].
  destruct (verify_append_base root) as [v'|[[]| |]] eqn:Hbase; try done.
  - injection Hrun as ->. apply verify_append_base_Ok in Hbase as (Hgenesis & ? & ? & Hall).
    split_and!; [done.. |]. rewrite Horigin.
    unfold read_genesis in Hgenesis. rewrite Hb in Hgenesis. cbn [mbind result_bind] in Hgenesis.
    rewrite Hg in Hgenesis. cbn [mbind result_bind] in Hgenesis.
    inv_ok. exact Hall.
  - destruct (String.prefix _ _); [by apply Hcompact | done].
Qed.
End base.
