(* ===== verification/StreamingExamples.v ===== *)
(** Streaming verification run on the archive of [WriterExamples.v]: visits of the whole history
    and of a second batch, a visit that its visitor stops, and an archive in which a
    batch is repeated, where the streaming and the retaining verification differ. *)
From Stdlib Require Import ZArith NArith Lia Ascii.
From stdpp Require Import base decidable list gmap strings.
From S2P Require Import Prelude.
From S2P Require Import Text.
From S2P Require Import External.
From S2P Require Import Ids.
From S2P Require Import Frontier.
From S2P Require Import Record.
From S2P Require Import Genesis.
From S2P Require Import Store.
From S2P Require Import Segment.
From S2P Require Import FrontierGraph.
From S2P Require Import Clients.
From S2P Require Import Coordination.
From S2P Require Import Batches.
From S2P Require Import Archive.
From S2P Require Import Codec.
From S2P Require Import Append.
From S2P Require Import WriterExamples.
From S2P Require Import Ranges.
From S2P Require Import Visit.
From S2P Require Import Streaming.
From S2P Require Import AppendBase.

#[local] Existing Instance Genesis.Examples.two_keys.
#[local] Existing Instance Genesis.Examples.two_keys_laws.
#[local] Existing Instance sized_blake3.
#[local] Existing Instance sized_blake3_laws.
#[local] Existing Instance envelope_from_json.
#[local] Existing Instance body_to_json.
#[local] Existing Instance manifest_to_json.
#[local] Existing Instance manifest_from_json.
#[local] Existing Instance frontier_to_json.
#[local] Existing Instance frontier_from_json.
#[local] Existing Instance Archive.Examples.body_json.
#[local] Existing Instance Archive.Examples.genesis_json.
#[local] Existing Instance Archive.Examples.lease_json.
#[local] Existing Instance Archive.Examples.lease_from_value.
#[local] Existing Instance WriterExamples.genesis_from_json.

(** The tree after a second batch whose identifier is the first's. *)
Definition later : Tree := tree_of second.2 {[ manifest_directory :=
  ["seg-000000000001.manifest.json"; "seg-000000000004.manifest.json"] ]}.

(** A visitor that writes down what it sees. *)
Definition trace (r : VerifiedV2Record) : st (list VerifiedV2Record) V2StoreError () :=
  st_modify (λ l, l ++ [r]).

Definition visited : result (Halt V2StoreError) VerifiedV2Archive * list VerifiedV2Record :=
  visit_verified (λ e, e) trace (tree_read later) 3 later [].
Definition streamed_archive : VerifiedV2Archive := unwrap bare visited.1.

Lemma visited_ok :
  is_ok visited.1 && (length visited.2 =? 6) && (length (records streamed_archive) =? 3) = true.
Proof. vm_compute. reflexivity. Qed.

Lemma later_visited : visit_verified (λ e, e) trace (tree_read later) 3 later [] = (Ok streamed_archive, visited.2).
Proof.
  assert (visited.1 = Ok streamed_archive) as Hok.
  { apply unwrap_ok. exact (proj1 (proj1 (andb_true_iff _ _) (proj1 (proj1 (andb_true_iff _ _) visited_ok)))). }
  fold visited. rewrite <- Hok. apply surjective_pairing.
Qed.

Lemma visit_verified_sound_witness :
  ∃ rs, visit_all trace rs [] = (Ok (), visited.2) ∧ whole_history later streamed_archive rs.
Proof.
  exact (visit_verified_sound (λ e, e) trace (tree_read later) 3 later [] streamed_archive
    visited.2 (λ path content Hread, Hread) later_visited).
Defined.

(** A visitor that fails at the second record. *)
Definition halting (r : VerifiedV2Record) : st (list VerifiedV2Record) V2StoreError () := λ l,
  match l with
  | [] => (Ok (), [r])
  | _ => (Err (Invalid "visitor stopped"), l)
  end.

Definition later_tail : OriginFrontier :=
  default Segment.Examples.tail (head (origins (accepted_frontier streamed_archive))).

(** The visit of the one origin, with a visitor and what reading a segment again yields. *)
Definition ranged (visitor : VerifiedV2Record → st (list VerifiedV2Record) V2StoreError ())
    (reopen : string → result string bytes)
    : result (Halt V2StoreError) (OriginVisitStats * Registry * list VerifiedV2Record)
      * list VerifiedV2Record :=
  visit_origin_range (λ e, e) visitor reopen later (Archive.genesis streamed_archive)
    (archive_genesis_hash streamed_archive) (verifying_key WriterExamples.key) later_tail
    no_cursor (frontiers streamed_archive) None (clients streamed_archive) true [] [].

Lemma halted_early :
  (match (ranged halting (tree_read later)).1 with
   | Err (Halted (Invalid _)) => true | _ => false end
   && (length (ranged halting (tree_read later)).2 =? 1)) = true.
Proof. vm_compute. reflexivity. Qed.

(** Both segments are visited; none is when the segments cannot be read again. *)
Lemma ranged_segments :
  is_ok (ranged trace (tree_read later)).1
  && (length (ranged trace (tree_read later)).2 =? 6)
  && negb (is_ok (ranged trace (λ _, Err "gone")).1)
  && (length (ranged trace (λ _, Err "gone")).2 =? 0) = true.
Proof. vm_compute. reflexivity. Qed.

Lemma visit_only_authentic_witness :
  ∃ segments,
    consecutive_segments later (Archive.genesis streamed_archive)
      (archive_genesis_hash streamed_archive) (verifying_key WriterExamples.key) later_tail
      (frontiers streamed_archive) 1 None None segments ∧
    (visit_all trace (concat segments) []).1 = Ok () ∧ at_tail later_tail (concat segments).
Proof.
  pose proof (visit_only_authentic (λ e, e) trace (tree_read later) later
    (Archive.genesis streamed_archive) (archive_genesis_hash streamed_archive)
    (verifying_key WriterExamples.key) later_tail no_cursor (frontiers streamed_archive) None
    (clients streamed_archive) true [] [] (λ path content Hread, Hread)) as Hrun.
  assert (is_ok (ranged trace (tree_read later)).1 = true) as Hok by (vm_compute; reflexivity).
  unfold ranged in Hok. destruct (visit_origin_range _ _ _ _ _ _ _ _ _ _ _ _ _ _ []) as [x a'].
  destruct Hrun as [(segments & Hsegments & _ & Hall) _]. destruct (Hall Hok) as [Hvisit Htail].
  exists segments. split; [exact Hsegments | split; [exact Hvisit | exact Htail]].
Defined.

(** ** Only the new batch *)

Definition trace_since (r : VerifiedV2Record) (context : V2VerificationContext)
    : st (list VerifiedV2Record) V2StoreError () := trace r.

Definition since : result (Halt V2StoreError) VerifiedV2Archive * list VerifiedV2Record :=
  visit_verified_since_with_clients (λ e, e) trace_since (tree_read later) 3 later
    (accepted_frontier_hash verified) (cursors_of verified) (clients verified) [].
Definition since_archive : VerifiedV2Archive := unwrap bare since.1.

Lemma since_ok : is_ok since.1 && (length since.2 =? 3) = true.
Proof. vm_compute. reflexivity. Qed.

Lemma later_since :
  visit_verified_since_with_clients (λ e, e) trace_since (tree_read later) 3 later
    (accepted_frontier_hash verified) (cursors_of verified) (clients verified) []
  = (Ok since_archive, since.2).
Proof.
  assert (since.1 = Ok since_archive) as Hok.
  { apply unwrap_ok. exact (proj1 (proj1 (andb_true_iff _ _) since_ok)). }
  fold since. rewrite <- Hok. apply surjective_pairing.
Qed.

Lemma visit_since_agrees_witness :
  ∃ rs, visit_all (λ r, trace_since r (context_of since_archive)) rs [] = (Ok (), since.2) ∧
    (∃ groups, rs = concat groups ∧ Forall one_batch groups) ∧
    records since_archive = filter retained rs ∧
    verify_since_with_clients 3 later (accepted_frontier_hash verified) (cursors_of verified)
      (clients verified)
    = (_ ← map_err Stopped (verify_batches rs); Ok (with_records since_archive rs)).
Proof.
  exact (visit_since_agrees (λ e, e) trace_since (tree_read later) 3 later
    (accepted_frontier_hash verified) (cursors_of verified) (clients verified) [] since_archive
    since.2 (λ path content Hread, Hread) later_since).
Defined.

(** ** A difference between the two verifications *)

(** Whether two starts of the records have one batch identifier. *)
Definition repeats_batch (rs : list VerifiedV2Record) : bool :=
  negb (bool_decide (NoDup (id_of <$>
    filter (λ r, record_kind (envelope (record r)) = BatchStart) rs))).

(** The streaming verification accepts an archive in which two batches have one identifier,
    which the retaining verification of the same tree refuses for this reason. *)
Lemma repeated_batch_visited :
  (∃ ar, visit_verified (λ e, e) trace (tree_read later) 3 later [] = (Ok ar, visited.2)) ∧
  repeats_batch visited.2 = true ∧
  verify_archive 3 later = Err (Stopped (Invalid
    ("batch " +:+ default "" (id_of <$> head visited.2) +:+ " has duplicate control records"))).
Proof.
  split; [exists streamed_archive; exact later_visited |]. split; vm_compute; reflexivity.
Qed.

(** ** The base of a third append *)

Definition base_archive : VerifiedV2Archive := unwrap bare (append_base 3 later client).

(** Only the last append is read. *)
Lemma base_computes :
  is_ok (append_base 3 later client) && (archive_record_count base_archive =? 3)%N
  && is_some_b (find_origin (origins (accepted_frontier base_archive)) client) = true.
Proof. vm_compute. reflexivity. Qed.

Lemma base_built : append_base 3 later client = Ok base_archive.
Proof. apply unwrap_ok. exact (proj1 (proj1 (andb_true_iff _ _) (proj1 (proj1 (andb_true_iff _ _) base_computes)))). Qed.

Definition base_tail : OriginFrontier :=
  default Segment.Examples.tail (find_origin (origins (accepted_frontier base_archive)) client).

Lemma append_base_sound_witness :
  read_head later = Ok (accepted_frontier_hash base_archive) ∧
  read_to_tail base_archive base_tail.
Proof.
  assert (find_origin (origins (accepted_frontier base_archive)) client = Some base_tail) as Htail
    by (vm_compute; reflexivity).
  destruct (append_base_sound 3 later client base_archive base_built) as (Hhead & _ & Hall).
  split; [exact Hhead | exact (Hall base_tail Htail)].
Defined.
