(* ===== verification/WorkTree.v ===== *)
(** Checked-out trees: [merge_immutable_tree] of [v2_store.rs], which adds the files of one
    canonical tree to another, and the files a synchronization writes on top of the merge.

    The source is a directory as [read_dir] lists it, the target a map from paths to what is
    there, symbolic links included. [Path::exists], [Path::is_dir], [fs::read] and [fs::copy]
    follow links, on the way to a name and in its last place; creating a directory or a file
    that must be new, and renaming, follow them only on the way. Where a path leads is the
    kernel's doing: a parameter ([PathResolution]). Apart from that, reading and writing the
    two temporary checkouts does not fail. *)
From Stdlib Require Import ZArith NArith Lia Ascii.
From stdpp Require Import base decidable list gmap strings sorting.
From S2P Require Import Prelude.
From S2P Require Import Text.
From S2P Require Import External.
From S2P Require Import Ids.
From S2P Require Import Frontier.
From S2P Require Import Store.
From S2P Require Import Archive.

(** An entry of a directory, by [DirEntry::file_type]. *)
Inductive Entry : Type :=
  | RegularFile (content : bytes)
  | Directory (children : list (string * Entry))
  | Symlink (destination : string)
  | SpecialFile.

(** What a path of the target holds itself. *)
Inductive Node : Type :=
  | FileNode (content : bytes)
  | DirNode
  | LinkNode (destination : string)
  | SpecialNode.

Abbreviation WorkTree := (gmap string Node).

(** [q] is the path [p] or one of the directories on the way to it. *)
Definition leads_to (q p : string) : bool :=
  bool_decide (q = p) || is_some_b (strip_prefix (q +:+ "/") p).

(** No name on the way to a path, or in its last place, is a link. *)
Definition linkless (t : WorkTree) (p : string) : Prop :=
  ∀ q destination, leads_to q p = true → t !! q ≠ Some (LinkNode destination).

(** Where the kernel finds a path: [follow] with all links followed, [locate] with a link in
    the last place taken as itself. Neither requires that something is there. A path on which
    there is no link leads where it says; what [follow] finds is no link; and a path under
    which a file was put without following its last name leads to that file. *)
Class PathResolution := {
  follow : WorkTree → string → option string;
  locate : WorkTree → string → option string;
  follow_plain t p : linkless t p → follow t p = Some p;
  locate_plain t p : linkless t p → locate t p = Some p;
  follow_resolved t p q destination : follow t p = Some q → t !! q ≠ Some (LinkNode destination);
  follow_located t p q content :
    locate t p = Some q → follow (<[q := FileNode content]> t) p = Some q;
}.

(** [Path::join] of a relative path and a name. *)
Definition join_path (relative name : string) : string :=
  if str_is_empty relative then name else relative +:+ "/" +:+ name.

Definition HEAD_PATH : string := "frontiers/v2/HEAD".

Definition skipped (relative name : string) : bool :=
  (str_is_empty relative && bool_decide (name = ".git"))
  || bool_decide (join_path relative name = HEAD_PATH).

Section merge.
Context `{PathResolution}.

(** [fs::metadata]: what is at the end of the links; nothing when they dangle. *)
Definition stat (t : WorkTree) (path : string) : option Node :=
  q ← follow t path; t !! q.

(** [create_dir_all] of a path whose parent is there. *)
Definition create_dir_all (path : string) : st WorkTree V2StoreError () :=
  let failed reason :=
    st_lift (Err (Io "create synchronization union directory" path reason)) in
  target ← st_get;
  match stat target path with
  | Some DirNode => mret ()
  | _ =>
      match locate target path with
      | None => failed "No such file or directory (os error 2)"
      | Some q =>
          match target !! q with
          | None => st_modify <[q := DirNode]>
          | Some _ => failed "File exists (os error 17)"
          end
      end
  end.

(** The branch of the loop for a directory, up to the recursive call. *)
Definition create_directory (path : string) : st WorkTree V2StoreError () :=
  target ← st_get;
  match stat target path with
  | None | Some DirNode => create_dir_all path
  | Some _ => st_lift (Err (Invalid ("canonical synchronization path type conflicts at " +:+ path)))
  end.

(** [fs::copy] to a path at which nothing was found. *)
Definition copy_file (path : string) (content : bytes) : st WorkTree V2StoreError () :=
  target ← st_get;
  match follow target path with
  | None => st_lift (Err (Io "copy immutable synchronization file" path
                            "No such file or directory (os error 2)"))
  | Some q => st_modify <[q := FileNode content]>
  end.

(** The branch of the loop for a regular file. The directory it makes sure of first was made, or
    found, by the branch for directories. *)
Definition merge_file (path : string) (content : bytes) : st WorkTree V2StoreError () :=
  let differs := Invalid ("immutable canonical path differs between peers: " +:+ path) in
  target ← st_get;
  match stat target path with
  | Some (FileNode existing) => st_lift (bail_if (negb (bool_decide (content = existing))) differs)
  | Some _ => st_lift (Err differs)
  | None => copy_file path content
  end.

(** The body of the loop of [merge_immutable_directory], with the loop over the children of a
    directory. *)
Fixpoint merge_entry (relative name : string) (e : Entry) : st WorkTree V2StoreError () :=
  if skipped relative name then mret () else
  let child := join_path relative name in
  match e with
  | Symlink _ =>
      st_lift (Err (Invalid ("canonical synchronization tree contains a symlink at " +:+ child)))
  | Directory children =>
      _ ← create_directory child;
      (fix merge_children (l : list (string * Entry)) : st WorkTree V2StoreError () :=
         match l with
         | [] => mret ()
         | (name, e) :: l => _ ← merge_entry child name e; merge_children l
         end) children
  | RegularFile content => merge_file child content
  | SpecialFile =>
      st_lift (Err (Invalid ("canonical synchronization tree contains a special file at "
                             +:+ child)))
  end.

Fixpoint merge_immutable_directory (relative : string) (l : list (string * Entry))
    : st WorkTree V2StoreError () :=
  match l with
  | [] => mret ()
  | (name, e) :: l =>
      _ ← merge_entry relative name e;
      merge_immutable_directory relative l
  end.

Definition merge_immutable_tree (source : list (string * Entry)) : st WorkTree V2StoreError () :=
  merge_immutable_directory "" source.
End merge.

(** ** Trees on disk *)

(** Everything a checked-out directory holds. *)
Fixpoint entries (relative name : string) (e : Entry) : list (string * Node) :=
  let child := join_path relative name in
  match e with
  | RegularFile content => [(child, FileNode content)]
  | Directory children =>
      (child, DirNode) ::
      (fix below (l : list (string * Entry)) : list (string * Node) :=
         match l with
         | [] => []
         | (name, e) :: l => entries child name e ++ below l
         end) children
  | Symlink destination => [(child, LinkNode destination)]
  | SpecialFile => [(child, SpecialNode)]
  end.

Definition work_tree (source : list (string * Entry)) : WorkTree :=
  list_to_map (source ≫= λ '(name, e), entries "" name e).

(** The names directly below a directory. *)
Definition child_name (directory path : string) : option string :=
  name ← strip_prefix (directory +:+ "/") path;
  if contains "/" name then None else Some name.

Section store.
Context `{PathResolution}.

(** The tree as the readers of the store see it. *)
Definition tree_of_work (t : WorkTree) : Tree := {|
  tree_read path :=
    match stat t path with
    | Some (FileNode content) => Ok content
    | _ => Err "No such file or directory"
    end;
  tree_list directory :=
    match follow t directory with
    | Some q =>
        match t !! q with
        | Some DirNode => Ok (omap (child_name q) (map_to_list t).*1)
        | _ => Err "No such file or directory"
        end
    | None => Err "No such file or directory"
    end;
|}.

Definition is_v2_event_tree (t : WorkTree) : bool :=
  match stat t "genesis.json" with Some (FileNode _) => true | _ => false end.

(** [V2OriginStore::open] of a checkout at [path]. *)
Definition open_store (path : string) (t : WorkTree) : result V2StoreError () :=
  bail_if (negb (is_v2_event_tree t))
    (Invalid (path +:+ " is not a version 2 event tree (genesis.json is missing); recreate pre-v2 development Archives")).

(** [write_new_synced], which creates a file that must be new. It makes sure of the directory
    first; a frontier's is there, because the merge added the frontiers of the remote. *)
Definition write_new_file (path : string) (content : bytes) : st WorkTree V2StoreError () :=
  let failed reason := st_lift (Err (Io "create immutable file" path reason)) in
  target ← st_get;
  match locate target path with
  | None => failed "No such file or directory (os error 2)"
  | Some q =>
      match target !! q with
      | None => st_modify <[q := FileNode content]>
      | Some _ => failed "File exists (os error 17)"
      end
  end.

(** [replace_synced] of the accepted head: a new file renamed over it. *)
Definition replace_head (hash : string) : st WorkTree V2StoreError () :=
  let failed reason := st_lift (Err (Io "replace accepted frontier HEAD" HEAD_PATH reason)) in
  target ← st_get;
  match locate target HEAD_PATH with
  | None => failed "No such file or directory (os error 2)"
  | Some q =>
      match target !! q with
      | Some DirNode => failed "Is a directory (os error 21)"
      | _ => st_modify <[q := FileNode (as_bytes (hash +:+ newline))]>
      end
  end.

Context `{Blake3, ToJson CausalFrontier}.

Definition write_frontier_idempotent (frontier : CausalFrontier) : st WorkTree V2StoreError () :=
  hash ← st_lift (map_err FrontierErr (frontier_hash frontier));
  path ← st_lift (frontier_path hash);
  content ← st_lift (map_err FrontierErr (canonical_bytes frontier));
  target ← st_get;
  match stat target path with
  | Some (FileNode existing) =>
      st_lift (bail_if (negb (bool_decide (existing = content)))
        (Invalid "frontier hash path contains different bytes"))
  | Some _ => st_lift (Err (Io "read canonical file" path "not a regular file"))
  | None => write_new_file path content
  end.
End store.

(** ** Specification *)

(** What an entry puts into the target: its paths, depth first, with what belongs there, or
    nothing when it holds a link or a special file. *)
Fixpoint contents (relative name : string) (e : Entry) : option (list (string * Node)) :=
  if skipped relative name then Some [] else
  let child := join_path relative name in
  match e with
  | RegularFile content => Some [(child, FileNode content)]
  | Directory children =>
      below ← (fix below (l : list (string * Entry)) : option (list (string * Node)) :=
         match l with
         | [] => Some []
         | (name, e) :: l => first ← contents child name e; rest ← below l; Some (first ++ rest)
         end) children;
      Some ((child, DirNode) :: below)
  | Symlink _ | SpecialFile => None
  end.

Fixpoint all_contents (relative : string) (l : list (string * Entry))
    : option (list (string * Node)) :=
  match l with
  | [] => Some []
  | (name, e) :: l =>
      first ← contents relative name e;
      rest ← all_contents relative l;
      Some (first ++ rest)
  end.

(** A tree that has every path of the list. *)
Definition holds_all (l : list (string * Node)) (t : WorkTree) : Prop :=
  ∀ path node, (path, node) ∈ l → t !! path = Some node.

(** A node the source can put into the target. *)
Definition plain (node : Node) : Prop :=
  match node with FileNode _ | DirNode => True | _ => False end.

(** ** Lemmas: the merge adds the contents *)

Lemma Entry_children_ind (P : Entry → Prop) :
  (∀ content, P (RegularFile content)) →
  (∀ children, Forall (λ c, P c.2) children → P (Directory children)) →
  (∀ destination, P (Symlink destination)) → P SpecialFile → ∀ e, P e.
Proof.
  intros Hfile Hdir Hlink Hspecial. fix IH 1.
  intros [content | children | destination |]; [apply Hfile | | apply Hlink | done].
  apply Hdir. induction children as [|[name e] children IHc]; constructor; [apply IH | apply IHc].
Qed.

Section union.
Context `{PathResolution}.

Definition place (path : string) (node : Node) : st WorkTree V2StoreError () :=
  match node with
  | FileNode content => merge_file path content
  | _ => create_directory path
  end.

Fixpoint places (l : list (string * Node)) : st WorkTree V2StoreError () :=
  match l with
  | [] => mret ()
  | (path, node) :: l => _ ← place path node; places l
  end.

Lemma st_bind_ext {S E A B} (m m' : st S E A) (k k' : A → st S E B) s :
  m s = m' s → (∀ a s', k a s' = k' a s') → (m ≫= k) s = (m' ≫= k') s.
Proof. intros Hm Hk. unfold mbind, st_bind. rewrite Hm. by destruct (m' s) as [[a|e] s']. Qed.

Lemma places_app l k t : places (l ++ k) t = (_ ← places l; places k) t.
Proof.
  revert t. induction l as [|[p n] l IH]; intros t; [done |]. cbn [app places].
  unfold mbind, st_bind in *. destruct (place p n t) as [[[]|e] t']; [|done]. apply IH.
Qed.

Lemma merge_children_eq relative l t :
  (fix merge_children (l : list (string * Entry)) : st WorkTree V2StoreError () :=
     match l with
     | [] => mret ()
     | (name, e) :: l => _ ← merge_entry relative name e; merge_children l
     end) l t
  = merge_immutable_directory relative l t.
Proof.
  revert t. induction l as [|[name e] l IH]; intros t; [done |]. cbn.
  apply st_bind_ext; [done |]. intros [] s'. apply IH.
Qed.

Lemma contents_children_eq relative l :
  (fix below (l : list (string * Entry)) : option (list (string * Node)) :=
     match l with
     | [] => Some []
     | (name, e) :: l => first ← contents relative name e; rest ← below l; Some (first ++ rest)
     end) l
  = all_contents relative l.
Proof. induction l as [|[name e] l IH]; [done |]. cbn. by rewrite IH. Qed.

(** Merging an entry places its contents, or fails where it has none. *)
Definition merges_as (m : st WorkTree V2StoreError ()) (c : option (list (string * Node))) : Prop :=
  match c with
  | Some l => ∀ t, m t = places l t
  | None => ∀ t, ∃ e t', m t = (Err e, t')
  end.

Lemma directory_merges relative l :
  Forall (λ c : string * Entry, ∀ relative name,
    merges_as (merge_entry relative name c.2) (contents relative name c.2)) l →
  merges_as (merge_immutable_directory relative l) (all_contents relative l).
Proof.
  induction 1 as [|[name e] l He Hl IH]; [done |]. specialize (He relative name). cbn in *.
  destruct (contents relative name e) as [first|]; cbn in *.
  - destruct (all_contents relative l) as [rest|]; cbn in *.
    + intros t. rewrite places_app. by apply st_bind_ext; [|intros []].
    + intros t. unfold mbind, st_bind. destruct (merge_entry relative name e t) as [[[]|err] t'];
        [apply IH | eauto].
  - intros t. unfold mbind, st_bind. destruct (He t) as (err & t' & ->). eauto.
Qed.

Lemma entry_merges relative name e :
  merges_as (merge_entry relative name e) (contents relative name e).
Proof.
  revert relative name.
  induction e as [content | children IH | destination |] using Entry_children_ind;
    intros relative name; cbn [merge_entry contents]; destruct (skipped relative name); try done.
  - intros t. cbn. unfold mbind, st_bind. by destruct (merge_file _ content t) as [[[]|e] t'].
  - rewrite contents_children_eq.
    pose proof (directory_merges (join_path relative name) children IH) as Hdir.
    destruct (all_contents (join_path relative name) children) as [l|]; cbn in *; intros t.
    + apply st_bind_ext; [done |]. intros [] t'.
      exact (eq_trans (merge_children_eq _ children t') (Hdir t')).
    + unfold mbind, st_bind. destruct (create_directory _ t) as [[[]|err] t']; [|eauto].
      destruct (Hdir t') as (err & t'' & He). exists err, t''.
      exact (eq_trans (merge_children_eq _ children t') He).
  - intros t. by eexists _, t.
  - intros t. by eexists _, t.
Qed.

Lemma tree_merges source :
  merges_as (merge_immutable_tree source) (all_contents "" source).
Proof.
  apply directory_merges. apply Forall_forall. intros c _ relative name. apply entry_merges.
Qed.

(** Where there are no links, placing is inserting. *)
Lemma place_Ok path node t t' :
  plain node → linkless t path →
  place path node t = (Ok (), t') ↔
  (t !! path = Some node ∧ t' = t) ∨ (t !! path = None ∧ t' = <[path := node]> t).
Proof.
  intros Hnode Hlink. pose proof (follow_plain _ _ Hlink) as Hfollow.
  pose proof (locate_plain _ _ Hlink) as Hlocate.
  assert (∀ destination, t !! path ≠ Some (LinkNode destination)) as Hno.
  { intros destination. apply Hlink. unfold leads_to. by rewrite bool_decide_eq_true_2. }
  destruct node as [content| | |]; try done; unfold place, merge_file, copy_file,
    create_directory, create_dir_all, stat, mbind, st_bind, st_get, st_lift, st_modify; cbn;
    rewrite !Hfollow; cbn; destruct (t !! path) as [[existing| |d|]|] eqn:Ht; cbn;
    rewrite ?Hfollow, ?Hlocate; cbn; rewrite ?Ht; cbn; try naive_solver.
  - destruct (bool_decide_reflect (content = existing)) as [-> | Hne]; cbn; naive_solver.
  - unfold mret, st_ret. naive_solver.
Qed.

Lemma linkless_insert t p q node : plain node → linkless t p → linkless (<[q := node]> t) p.
Proof.
  intros Hnode Hlink x destination Hx [[<- ->] | [_ Ht]]%lookup_insert_Some; [done |].
  by apply (Hlink x destination).
Qed.

Lemma contents_plain relative name e l p n :
  contents relative name e = Some l → (p, n) ∈ l → plain n.
Proof.
  revert relative name l. induction e as [content | children IH | destination |] using Entry_children_ind;
    intros relative name l; cbn [contents]; destruct (skipped relative name);
    try (intros [= <-] ?%elem_of_nil; done); try done.
  - by intros [= <-] [[= -> ->] | ?%elem_of_nil]%elem_of_cons.
  - rewrite contents_children_eq. intros (below & Hb & [= <-])%bind_Some.
    intros [[= -> ->] | Hin]%elem_of_cons; [done |]. revert below Hb Hin.
    induction IH as [|[name' e'] children He _ IHc]; cbn; intros below Hb Hin.
    + injection Hb as <-. by apply elem_of_nil in Hin.
    + apply bind_Some in Hb as (first & Hf & (rest & Hr & [= <-])%bind_Some).
      apply elem_of_app in Hin as [Hin | Hin]; [by eapply He | by eapply IHc].
Qed.

Lemma all_contents_plain relative source l p n :
  all_contents relative source = Some l → (p, n) ∈ l → plain n.
Proof.
  revert l. induction source as [|[name e] source IH]; cbn; intros l.
  - by intros [= <-] ?%elem_of_nil.
  - intros (first & Hf & (rest & Hr & [= <-])%bind_Some)%bind_Some [Hin | Hin]%elem_of_app;
      [by eapply contents_plain | by eapply IH].
Qed.

(** What placing gives, when it succeeds; and it succeeds below any tree that holds all. *)
Lemma places_Ok l t t' :
  (∀ p n, (p, n) ∈ l → plain n ∧ linkless t p) → places l t = (Ok (), t') →
  t ⊆ t' ∧ holds_all l t' ∧ ∀ p n, t' !! p = Some n → t !! p = Some n ∨ (p, n) ∈ l.
Proof.
  revert t. induction l as [|[p n] l IH]; cbn; intros t Hplain Hrun.
  - injection Hrun as <-. split_and!; [done | by intros ? ? ?%elem_of_nil | auto].
  - apply st_bind_Ok in Hrun as ([] & t1 & Hp & Hl).
    destruct (Hplain p n) as [Hn Hlink]; [by left |]. apply place_Ok in Hp; [|done..].
    destruct (IH t1) as (Hsub & Hall & Hfrom); [| done |].
    { intros q m Hin. destruct (Hplain q m) as [Hm Hq]; [by right |]. split; [done |].
      destruct Hp as [[_ ->] | [_ ->]]; [done | by apply linkless_insert]. }
    assert (t ⊆ t1 ∧ t1 !! p = Some n ∧
      ∀ q m, t1 !! q = Some m → t !! q = Some m ∨ (q = p ∧ m = n)) as (Hsub1 & Hat & Hnew).
    { destruct Hp as [[Ht ->] | [Ht ->]]; [by auto |]. split_and!.
      - by apply insert_subseteq.
      - by rewrite lookup_insert_eq.
      - intros q m. rewrite lookup_insert_Some. naive_solver. }
    split_and!; [by etrans | |].
    + intros q m [[= -> ->] | Hin]%elem_of_cons; [by eapply lookup_weaken | by apply Hall].
    + intros q m Hq. destruct (Hfrom q m Hq) as [[Hq' | [-> ->]]%Hnew | Hin];
        [by left | right; by left | right; by right].
Qed.

Lemma places_below l t u :
  (∀ p n, (p, n) ∈ l → plain n ∧ linkless t p) → t ⊆ u → holds_all l u →
  ∃ t', places l t = (Ok (), t') ∧ t' ⊆ u.
Proof.
  revert t. induction l as [|[p n] l IH]; cbn; intros t Hplain Hsub Hall; [by eauto |].
  destruct (Hplain p n) as [Hn Hlink]; [by left |].
  assert (u !! p = Some n) as Hu by (apply Hall; by left).
  assert (∃ t1, place p n t = (Ok (), t1) ∧ t1 ⊆ u ∧ (t1 = t ∨ t1 = <[p := n]> t))
    as (t1 & Hp & Hsub1 & Hcase).
  { destruct (t !! p) as [m|] eqn:Ht.
    - exists t. split_and!; [apply place_Ok; [done.. | left] | done | by left].
      split; [|done]. pose proof (lookup_weaken _ _ _ _ Ht Hsub). congruence.
    - exists (<[p := n]> t). split_and!; [apply place_Ok; [done.. | by right] | | by right].
      by apply insert_subseteq_l. }
  unfold mbind, st_bind. rewrite Hp. apply IH; [|done|].
  - intros q m Hin. destruct (Hplain q m) as [Hm Hq]; [by right |]. split; [done |].
    destruct Hcase as [-> | ->]; [done | by apply linkless_insert].
  - intros q m Hin. apply Hall. by right.
Qed.

(** Whatever links there are, placing only adds. *)
Lemma place_grows path node t : plain node → t ⊆ (place path node t).2.
Proof.
  intros Hnode.
  assert (∀ q n, t !! q = None → t ⊆ <[q := n]> t) as Hadd by (intros; by apply insert_subseteq).
  destruct node as [content| | |]; try done; unfold place, merge_file, copy_file,
    create_directory, create_dir_all, stat, mbind, st_bind, st_get, st_lift, st_modify; cbn;
    destruct (follow t path) as [q|] eqn:Hq; cbn;
    [destruct (t !! q) as [[existing| |d|]|] eqn:Ht; cbn; rewrite ?Hq; cbn; rewrite ?Ht; cbn
    | rewrite ?Hq; cbn | destruct (t !! q) as [[existing| |d|]|] eqn:Ht; cbn; rewrite ?Hq; cbn;
      rewrite ?Ht; cbn | rewrite ?Hq; cbn]; try done; try by apply Hadd.
  - destruct (locate t path) as [q'|]; [|done]. destruct (t !! q') eqn:Hq'; [done | by apply Hadd].
  - destruct (locate t path) as [q'|]; [|done]. destruct (t !! q') eqn:Hq'; [done | by apply Hadd].
Qed.

Definition adding {A} (m : st WorkTree V2StoreError A) : Prop := ∀ t, t ⊆ (m t).2.

Lemma adding_bind {A B} (m : st WorkTree V2StoreError A) (k : A → st WorkTree V2StoreError B) :
  adding m → (∀ a, adding (k a)) → adding (m ≫= k).
Proof.
  intros Hm Hk t. pose proof (Hm t) as Ht. unfold mbind, st_bind.
  destruct (m t) as [[a|e] t']; [|done]. cbn in Ht. etrans; [exact Ht | apply Hk].
Qed.

Lemma directory_adding relative l :
  Forall (λ c : string * Entry, ∀ relative name, adding (merge_entry relative name c.2)) l →
  adding (merge_immutable_directory relative l).
Proof.
  induction 1 as [|[name e] l He _ IH]; [by intros t |]. cbn.
  apply adding_bind; [apply He | by intros []].
Qed.

Lemma entry_adding relative name e : adding (merge_entry relative name e).
Proof.
  revert relative name.
  induction e as [content | children IH | destination |] using Entry_children_ind;
    intros relative name; cbn [merge_entry]; destruct (skipped relative name); try by intros t.
  - intros t. by apply (place_grows _ (FileNode content)).
  - apply adding_bind; [intros t; by apply (place_grows _ DirNode) |]. intros [] t.
    rewrite merge_children_eq. by apply directory_adding.
Qed.

Lemma st_lift_Ok {S E A} (m : result E A) (s s' : S) a :
  st_lift m s = (Ok a, s') ↔ m = Ok a ∧ s' = s.
Proof. unfold st_lift. naive_solver. Qed.

(** Writing the frontier of the union changes nothing that is there. *)
Lemma write_frontier_adds `{Blake3, ToJson CausalFrontier} frontier t t' :
  write_frontier_idempotent frontier t = (Ok (), t') → t ⊆ t'.
Proof.
  intros Hrun. apply st_bind_Ok in Hrun as (hash & t1 & [_ ->]%st_lift_Ok & Hrun).
  apply st_bind_Ok in Hrun as (path & t1 & [_ ->]%st_lift_Ok & Hrun).
  apply st_bind_Ok in Hrun as (content & t1 & [_ ->]%st_lift_Ok & Hrun).
  apply st_bind_Ok in Hrun as (target & t1 & [= <- <-] & Hrun).
  destruct (stat t path) as [[existing| | |]|].
  1: by apply st_lift_Ok in Hrun as [_ ->].
  1-3: by apply st_lift_Ok in Hrun as [? _].
  apply st_bind_Ok in Hrun as (target & t1 & [= <- <-] & Hrun).
  destruct (locate t path) as [q|]; [|by apply st_lift_Ok in Hrun as [? _]].
  destruct (t !! q) eqn:Hq; [by apply st_lift_Ok in Hrun as [? _] |].
  injection Hrun as <-. by apply insert_subseteq.
Qed.

(** C14: merging a verified tree into a checkout gives exactly their union. Whatever happens,
    also when the merge fails or the checkout has symbolic links, nothing the checkout held is
    changed. Where there are no links on the paths of the source in the checkout, the merge
    succeeds exactly when the source holds no links or special files and no path of it differs
    in the checkout, and then the checkout keeps every file it had, has every file and
    directory of the source with the same bytes, except the accepted head and Git's own
    directory, and has nothing else. *)
Theorem merge_is_union source target :
  target ⊆ (merge_immutable_tree source target).2 ∧
  ((∀ l path node, all_contents "" source = Some l → (path, node) ∈ l → linkless target path) →
   ∀ target', merge_immutable_tree source target = (Ok (), target') ↔
   ∃ l, all_contents "" source = Some l ∧
     target ⊆ target' ∧ holds_all l target' ∧
     ∀ path node, target' !! path = Some node → target !! path = Some node ∨ (path, node) ∈ l).
Proof.
  split.
  { apply directory_adding, Forall_forall. intros c _ relative name. apply entry_adding. }
  intros Hlinks target'. pose proof (tree_merges source) as Hm.
  destruct (all_contents "" source) as [l|] eqn:Hl; cbn in Hm.
  - assert (∀ p n, (p, n) ∈ l → plain n ∧ linkless target p) as Hplain.
    { intros p n Hin. split; [by eapply all_contents_plain | by eapply Hlinks]. }
    rewrite Hm. split.
    + intros Hrun. exists l. split; [done |]. by apply places_Ok.
    + intros (l' & [= <-] & Hsub & Hall & Hfrom).
      destruct (places_below l target target' Hplain Hsub Hall) as (t & Hrun & Ht).
      rewrite Hrun. do 2 f_equal. apply (anti_symm (⊆)); [done |].
      destruct (places_Ok l target t Hplain Hrun) as (Hsub' & Hall' & _).
      apply map_subseteq_spec. intros p n [Hp | Hin]%Hfrom; [by eapply lookup_weaken | auto].
  - split; [|by intros (l & ? & _)]. intros Hrun. destruct (Hm target) as (e & t & He).
    rewrite He in Hrun. done.
Qed.
End union.

(** ** Examples *)

Module Examples.
(** Links in the last place, to a path that is none. *)
Definition last_link (t : WorkTree) (p : string) : option string :=
  match t !! p with
  | Some (LinkNode destination) =>
      match t !! destination with Some (LinkNode _) => None | _ => Some destination end
  | _ => Some p
  end.

Lemma linkless_last t p destination : linkless t p → t !! p ≠ Some (LinkNode destination).
Proof. intros Hlink. apply Hlink. unfold leads_to. by rewrite bool_decide_eq_true_2. Qed.

#[export, refine] Instance last_links : PathResolution := {
  follow := last_link;
  locate t p := Some p;
}.
Proof.
  - intros t p Hlink. pose proof (λ d, linkless_last t p d Hlink) as Hno. unfold last_link.
    destruct (t !! p) as [[| |d|]|]; try done. by destruct (Hno d).
  - done.
  - intros t p q destination. unfold last_link.
    destruct (t !! p) as [[| |d|]|] eqn:Hp; try (intros [= <-]; congruence).
    destruct (t !! d) as [[| |d'|]|] eqn:Hd; try done; intros [= <-]; congruence.
  - intros t p q content [= <-]. unfold last_link. by rewrite lookup_insert_eq.
Defined.

Definition source : list (string * Entry) := [
  (".git", Directory []);
  ("frontiers", Directory [("v2", Directory [
     ("HEAD", RegularFile (as_bytes "theirs")); ("a.json", RegularFile (as_bytes "a"))])]);
  ("genesis.json", RegularFile (as_bytes "genesis"))].

Definition target : WorkTree := {[
  "frontiers" := DirNode; "frontiers/v2" := DirNode;
  "frontiers/v2/HEAD" := FileNode (as_bytes "ours");
  "frontiers/v2/b.json" := FileNode (as_bytes "b");
  "genesis.json" := FileNode (as_bytes "genesis");
  "elsewhere" := LinkNode "genesis.json" ]}.

Definition merged : WorkTree := <["frontiers/v2/a.json" := FileNode (as_bytes "a")]> target.

Lemma merges : merge_immutable_tree source target = (Ok (), merged).
Proof. vm_compute. reflexivity. Qed.

(** A link to a file of the same bytes counts as the file; a link to nothing is written
    through. *)
Lemma link_counts :
  merge_immutable_tree [("f", RegularFile (as_bytes "x"))]
    {[ "f" := LinkNode "g"; "g" := FileNode (as_bytes "x") ]}
  = (Ok (), {[ "f" := LinkNode "g"; "g" := FileNode (as_bytes "x") ]}) ∧
  merge_immutable_tree [("f", RegularFile (as_bytes "x"))] {[ "f" := LinkNode "g" ]}
  = (Ok (), {[ "f" := LinkNode "g"; "g" := FileNode (as_bytes "x") ]}).
Proof. split; vm_compute; reflexivity. Qed.

Lemma target_linkless l path node :
  all_contents "" source = Some l → (path, node) ∈ l → linkless target path.
Proof.
  intros Hl Hin q destination Hq Ht. vm_compute in Hl. injection Hl as <-.
  assert (q = "elsewhere") as ->.
  { unfold target in Ht. repeat (apply lookup_insert_Some in Ht as [[<- Ht] | [_ Ht]]; [done |]).
    by apply lookup_singleton_Some in Ht as [<- _]. }
  rewrite !elem_of_cons in Hin.
  destruct Hin as [[= -> _] | [[= -> _] | [[= -> _] | [[= -> _] | Hin%elem_of_nil]]]];
    [vm_compute in Hq; discriminate Hq .. | done].
Qed.

Lemma merge_is_union_witness :
  target ⊆ merged ∧
  ∃ l, all_contents "" source = Some l ∧ holds_all l merged ∧
    ∀ path node, merged !! path = Some node → target !! path = Some node ∨ (path, node) ∈ l.
Proof.
  destruct (proj1 (proj2 (merge_is_union source target) target_linkless merged) merges)
    as (l & Hl & Hsub & Hall & Hfrom).
  split; [exact Hsub |]. exists l. split; [exact Hl | split; [exact Hall | exact Hfrom]].
Defined.
End Examples.
