(* ===== verification/LocalFiles.v ===== *)
(** The files of one client, with the effects the writer has on them one by one: what an
    interruption between two effects, or in the middle of a write, leaves behind.

    The canonical tree and the client's own [local] directory are maps from relative paths to
    what is there. A program is a list of effects; [crashes] relates a list to every state it
    can be stopped in. Effects that Linux performs at once ([rename], [mkdir]) are one step; a
    new file grows byte by byte. *)
From Stdlib Require Import ZArith NArith Lia Ascii.
From stdpp Require Import base decidable list gmap strings sorting pretty.
From S2P Require Import Prelude.
From S2P Require Import Text.
From S2P Require Import External.
From S2P Require Import Ids.
From S2P Require Import Store.
From S2P Require Import Append.
From S2P Require Import WorkTree.

(** By [symlink_metadata]: a regular file with its number of links, a directory, or anything
    else, which nothing reads through. *)
Inductive LocalNode : Type :=
  | LocalFile (content : bytes) (links : N)
  | LocalDirectory
  | LocalOther.

Abbreviation LocalTree := (gmap string LocalNode).

Definition is_file (n : LocalNode) : bool := match n with LocalFile _ _ => true | _ => false end.
Definition is_directory (n : LocalNode) : bool :=
  match n with LocalDirectory => true | _ => false end.
Definition is_linked (n : LocalNode) : bool :=
  match n with LocalFile _ links => negb (links =? 1)%N | _ => false end.

Definition file_content (n : LocalNode) : option bytes :=
  match n with LocalFile content _ => Some content | _ => None end.

(** The tree as the readers of the store see it, and its regular files. *)
Definition local_tree (t : LocalTree) : Tree := {|
  tree_read path := ok_or (t !! path ≫= file_content) "No such file or directory";
  tree_list directory :=
    match t !! directory with
    | Some LocalDirectory => Ok (omap (child_name directory) (map_to_list t).*1)
    | _ => Err "No such file or directory"
    end;
|}.
Definition disk_of (t : LocalTree) : Disk := omap file_content t.

(** ** Paths *)

(** The directories above a relative path. *)
Definition parents (path : string) : list string :=
  let parts := split_char "/" path in
  (λ n, join_char "/" (take n parts)) <$> seq 1 (length parts - 1).

(** [path.components()], each as the path up to it; [true] at the last. *)
Definition path_steps (path : string) : list (string * bool) :=
  ((λ d, (d, false)) <$> parents path) ++ [(path, true)].

(** ** Effects *)

(** [create_dir_all]. *)
Fixpoint make_directories (operation : string) (directories : list string) (t : LocalTree)
    : result V2StoreError LocalTree :=
  match directories with
  | [] => Ok t
  | d :: directories =>
      match t !! d with
      | Some LocalDirectory => make_directories operation directories t
      | Some _ => Err (Io operation d "Not a directory (os error 20)")
      | None => make_directories operation directories (<[d := LocalDirectory]> t)
      end
  end.

(** A new file in a directory that is created as needed. *)
Definition create_new (make create path : string) (content : bytes) (t : LocalTree)
    : result V2StoreError LocalTree :=
  t ← make_directories make (parents path) t;
  match t !! path with
  | Some _ => Err (Io create path "File exists (os error 17)")
  | None => Ok (<[path := LocalFile content 1]> t)
  end.

(** [rename] of a file; it replaces a file of the new name. *)
Definition rename_file (operation from to : string) (t : LocalTree)
    : result V2StoreError LocalTree :=
  match t !! from, t !! to with
  | Some (LocalFile content links), (None | Some (LocalFile _ _)) =>
      Ok (<[to := LocalFile content links]> (delete from t))
  | Some (LocalFile _ _), _ => Err (Io operation to "Is a directory (os error 21)")
  | _, _ => Err (Io operation from "No such file or directory")
  end.

Record Files : Type := {
  canonical : LocalTree;
  local : LocalTree;
}.

Definition on_canonical (f : LocalTree → result V2StoreError LocalTree) (s : Files)
    : result V2StoreError Files :=
  (λ t, {| canonical := t; local := local s |}) <$> f (canonical s).
Definition on_local (f : LocalTree → result V2StoreError LocalTree) (s : Files)
    : result V2StoreError Files :=
  (λ t, {| canonical := canonical s; local := t |}) <$> f (local s).

(** ** Interruption *)

(** A step the file system performs at once, or the writing of a new file. *)
Inductive Effect : Type :=
  | Atomic (f : Files → result V2StoreError Files)
  | WriteCanonical (make create path : string) (content : bytes)
  | WriteLocal (make create path : string) (content : bytes).

Definition perform (e : Effect) (s : Files) : result V2StoreError Files :=
  match e with
  | Atomic f => f s
  | WriteCanonical make create path content => on_canonical (create_new make create path content) s
  | WriteLocal make create path content => on_local (create_new make create path content) s
  end.

Definition perform_all (es : list Effect) (s : Files) : result V2StoreError Files :=
  fold_result (λ s e, perform e s) s es.

(** Some of the directories, or all of them and the beginning of the file. *)
Definition partly_created (path : string) (content : bytes) (t t' : LocalTree) : Prop :=
  ∃ make create n, make_directories make (take n (parents path)) t = Ok t' ∨
    ∃ p, p `prefix_of` content ∧ create_new make create path p t = Ok t'.

(** The states in which a list of effects can be stopped. *)
Inductive crashes : list Effect → Files → Files → Prop :=
  | crash_before es s : crashes es s s
  | crash_in_canonical make create path content es s t :
      partly_created path content (canonical s) t →
      crashes (WriteCanonical make create path content :: es) s
        {| canonical := t; local := local s |}
  | crash_in_local make create path content es s t :
      partly_created path content (local s) t →
      crashes (WriteLocal make create path content :: es) s
        {| canonical := canonical s; local := t |}
  | crash_after e es s s1 s' :
      perform e s = Ok s1 → crashes es s1 s' → crashes (e :: es) s s'.

(** ** Lemmas *)

Lemma split_char_length c s : 1 <= length (split_char c s).
Proof. pose proof (split_char_not_nil c s). destruct (split_char c s); [done | cbn; lia]. Qed.

Lemma append_assoc s1 s2 s3 : (s1 +:+ s2) +:+ s3 = s1 +:+ (s2 +:+ s3).
Proof. induction s1 as [|a s1 IH]; [done |]. exact (f_equal (String a) IH). Qed.

Lemma join_char_app c l r :
  l ≠ [] → r ≠ [] → join_char c (l ++ r) = join_char c l +:+ String c (join_char c r).
Proof.
  intros Hl Hr. induction l as [|w l IH]; [done |]. destruct l as [|w' l].
  - by destruct r.
  - change (join_char c ((w :: w' :: l) ++ r)) with (w +:+ String c (join_char c ((w' :: l) ++ r))).
    rewrite IH by done.
    change (join_char c (w :: w' :: l)) with (w +:+ String c (join_char c (w' :: l))).
    by rewrite append_assoc.
Qed.

(** A directory above a path is the path up to a slash. *)
Lemma parents_above d path : d ∈ parents path → ∃ rest, path = d +:+ "/" +:+ rest.
Proof.
  unfold parents. intros (n & -> & Hn)%list_elem_of_fmap. apply elem_of_seq in Hn.
  set (parts := split_char "/" path) in *. exists (join_char "/" (drop n parts)).
  change ("/" +:+ ?x) with (String "/" x). rewrite <- join_char_app.
  - rewrite take_drop. symmetry. apply join_split_char.
  - intros Hnil%(f_equal length). rewrite length_take in Hnil. cbn in Hnil. lia.
  - intros Hnil%(f_equal length). rewrite length_drop in Hnil. cbn in Hnil. lia.
Qed.

Lemma make_directories_Ok make l t t' :
  make_directories make l t = Ok t' →
  (∀ d, d ∈ l → t' !! d = Some LocalDirectory) ∧
  ∀ q, t' !! q = t !! q ∨ (q ∈ l ∧ t !! q = None ∧ t' !! q = Some LocalDirectory).
Proof.
  revert t. induction l as [|d l IH]; cbn; intros t Hrun.
  - injection Hrun as <-. split; [set_solver | by left].
  - assert (∃ t1, make_directories make l t1 = Ok t' ∧ t1 !! d = Some LocalDirectory ∧
      ∀ q, t1 !! q = t !! q ∨ (q = d ∧ t !! q = None)) as (t1 & Hrun1 & Hd & Hq).
    { destruct (t !! d) as [[| |]|] eqn:Hd; [done | | done |].
      - exists t. split_and!; [done.. |]. by left.
      - exists (<[d := LocalDirectory]> t). split_and!; [done | apply lookup_insert_eq |].
        intros q. destruct (decide (q = d)) as [-> | Hne]; [by right |].
        left. by rewrite lookup_insert_ne. }
    destruct (IH _ Hrun1) as [Hall Hsame]. split.
    + intros e [-> | He]%elem_of_cons; [|by apply Hall].
      destruct (Hsame d) as [-> | (_ & ? & ?)]; congruence.
    + intros q. destruct (Hsame q) as [Hq' | (Hin & Hn & Hs)].
      * destruct (Hq q) as [Hq1 | [-> Hn]]; [left; congruence |]. right.
        split_and!; [set_solver | done | congruence].
      * destruct (Hq q) as [Hq1 | [-> Hn']]; [|congruence].
        right. split_and!; [set_solver | congruence | done].
Qed.

Lemma create_new_Ok make create path content t t' :
  create_new make create path content t = Ok t' →
  t !! path = None ∧ t' !! path = Some (LocalFile content 1) ∧
  (∀ d, d ∈ parents path → t' !! d = Some LocalDirectory) ∧
  ∀ q, q ≠ path → t' !! q = t !! q ∨
    (q ∈ parents path ∧ t !! q = None ∧ t' !! q = Some LocalDirectory).
Proof.
  unfold create_new. intros (t1 & [Hdirs Hsame]%make_directories_Ok & Hrun)%bind_Ok.
  destruct (t1 !! path) eqn:Hp; [done |]. injection Hrun as <-.
  assert (∀ d, d ∈ parents path → d ≠ path) as Hne.
  { intros d Hd ->. rewrite (Hdirs _ Hd) in Hp. done. }
  split_and!.
  - destruct (Hsame path) as [<- | (? & ? & ?)]; done.
  - apply lookup_insert_eq.
  - intros d Hd. rewrite lookup_insert_ne by (by apply not_eq_sym, Hne). by apply Hdirs.
  - intros q Hq. rewrite lookup_insert_ne by done. apply Hsame.
Qed.

(** Where the directories above are there or can be, and the name is free, creating a file
    succeeds. *)
Definition free_above (path : string) (t : LocalTree) : Prop := ∀ d, d ∈ parents path →
  t !! d = None ∨ t !! d = Some LocalDirectory.

Lemma make_directories_total make l t :
  (∀ d, d ∈ l → t !! d = None ∨ t !! d = Some LocalDirectory) →
  ∃ t', make_directories make l t = Ok t'.
Proof.
  revert t. induction l as [|d l IH]; cbn; intros t Hfree; [by eexists |].
  destruct (Hfree d) as [Hd | Hd]; [by left | |]; rewrite Hd.
  - apply IH. intros e He. destruct (decide (e = d)) as [-> | Hne].
    + right. apply lookup_insert_eq.
    + rewrite lookup_insert_ne by done. apply Hfree. by right.
  - apply IH. intros e He. apply Hfree. by right.
Qed.

Lemma create_new_total make create path content t :
  free_above path t → t !! path = None → path ∉ parents path →
  ∃ t', create_new make create path content t = Ok t'.
Proof.
  intros Hfree Hnone Hself. unfold create_new.
  destruct (make_directories_total make (parents path) t Hfree) as [t1 Ht1]. rewrite Ht1. cbn.
  destruct (make_directories_Ok _ _ _ _ Ht1) as [_ Hsame].
  destruct (Hsame path) as [-> | (? & _)]; [|done]. rewrite Hnone. by eexists.
Qed.

Lemma rename_file_Ok operation from to t t' :
  rename_file operation from to t = Ok t' → from ≠ to →
  (∃ content links, t !! from = Some (LocalFile content links) ∧
     t' !! to = Some (LocalFile content links)) ∧
  t' !! from = None ∧ ∀ q, q ≠ from → q ≠ to → t' !! q = t !! q.
Proof.
  unfold rename_file. intros Hrun Hne.
  destruct (t !! from) as [[content links| |]|] eqn:Hfrom; [|done..].
  assert (t' = <[to := LocalFile content links]> (delete from t)) as ->.
  { by destruct (t !! to) as [[]|]; simplify_eq. }
  split; [exists content, links; split; [done | apply lookup_insert_eq] |]. split.
  - rewrite lookup_insert_ne by done. apply lookup_delete_eq.
  - intros q Hqf Hqt. by rewrite lookup_insert_ne, lookup_delete_ne by done.
Qed.

Lemma tree_read_local t path content :
  tree_read (local_tree t) path = Ok content ↔ ∃ links, t !! path = Some (LocalFile content links).
Proof.
  cbn. rewrite ok_or_Ok. destruct (t !! path) as [[]|]; naive_solver.
Qed.

Lemma lookup_disk_of t path content :
  disk_of t !! path = Some content ↔ ∃ links, t !! path = Some (LocalFile content links).
Proof.
  unfold disk_of. rewrite lookup_omap. destruct (t !! path) as [[]|]; naive_solver.
Qed.

Lemma tree_list_local t directory names :
  tree_list (local_tree t) directory = Ok names ↔
  t !! directory = Some LocalDirectory ∧
  names = omap (child_name directory) (map_to_list t).*1.
Proof. cbn. destruct (t !! directory) as [[]|]; naive_solver. Qed.

(** ** The parts of a path *)

Definition one_name (name : string) : Prop := "/"%char ∉ as_bytes name.

Lemma split_char_cons c s t :
  split_char c (s +:+ String c t) = split_char c s ++ split_char c t.
Proof.
  induction s as [|a s IH].
  - change ("" +:+ String c t) with (String c t). cbn [split_char].
    by destruct (Ascii.eqb_spec c c).
  - change (String a s +:+ String c t) with (String a (s +:+ String c t)). cbn [split_char].
    destruct (Ascii.eqb_spec a c) as [-> | Hne]; [by rewrite IH |]. rewrite IH.
    pose proof (split_char_not_nil c s). by destruct (split_char c s).
Qed.

Lemma split_char_one c s : c ∉ as_bytes s → split_char c s = [s].
Proof.
  induction s as [|a s IH]; [done |]. cbn [split_char]. change (as_bytes (String a s)) with (a :: as_bytes s).
  intros [Ha Hs]%not_elem_of_cons. destruct (Ascii.eqb_spec a c) as [-> |]; [done |]. by rewrite IH.
Qed.

(** The directories above an entry of [d] are those above [d], and [d]. *)
Lemma parents_child d name : one_name name → parents (d +:+ "/" +:+ name) = parents d ++ [d].
Proof.
  intros Hname. unfold parents. change (d +:+ "/" +:+ name) with (d +:+ String "/" name).
  rewrite split_char_cons, (split_char_one _ name) by done. set (parts := split_char "/" d).
  assert (1 <= length parts) as Hlen by apply split_char_length.
  rewrite length_app. cbn [length]. rewrite Nat.add_sub.
  replace (length parts) with (length parts - 1 + 1) at 1 by lia.
  rewrite seq_app, fmap_app. f_equal.
  - apply list_fmap_ext. intros i n Hn%lookup_seq. by rewrite take_app_le by lia.
  - cbn. rewrite take_app_length' by lia. f_equal. apply join_split_char.
Qed.

Lemma parents_no_self path : path ∉ parents path.
Proof.
  intros (rest & Hrest)%parents_above. apply (f_equal (λ s, length (as_bytes s))) in Hrest.
  rewrite !as_bytes_app, !length_app in Hrest. cbn in Hrest. lia.
Qed.

Lemma child_name_Some directory path name :
  child_name directory path = Some name ↔ path = directory +:+ "/" +:+ name ∧ one_name name.
Proof.
  unfold child_name, one_name. cbn. split.
  - destruct (strip_prefix _ path) as [n|] eqn:Hp; cbn; [|done].
    destruct (contains "/" n) eqn:Hc; [done |]. intros [= ->]. apply strip_prefix_Some in Hp.
    split; [by rewrite Hp, append_assoc |]. intros Hin%list_elem_of_split.
    destruct Hin as (l & r & Hs). enough (contains "/" name = true) by congruence.
    apply contains_true. exists (of_bytes l), (of_bytes r).
    apply (inj as_bytes). by rewrite !as_bytes_app, !as_of_bytes, Hs.
  - intros [-> Hname]. rewrite <- append_assoc, strip_prefix_app. cbn.
    destruct (contains "/" name) eqn:Hc; [|done]. destruct Hname.
    apply contains_true in Hc as (l & r & ->). rewrite !as_bytes_app. set_solver.
Qed.

Lemma hex_without c hex : is_lower_hex c = false → all_bytes is_lower_hex hex = true → c ∉ as_bytes hex.
Proof.
  unfold all_bytes. rewrite forallb_forall. intros Hc Hall Hin.
  specialize (Hall _ (proj1 (list_elem_of_In _ _) Hin)). congruence.
Qed.

Lemma hex_one_name hex : all_bytes is_lower_hex hex = true → one_name hex.
Proof. by apply hex_without. Qed.

Lemma one_name_app a b : one_name a → one_name b → one_name (a +:+ b).
Proof. unfold one_name. rewrite as_bytes_app. set_solver. Qed.

Lemma one_name_closed a : forallb (λ c, negb (Ascii.eqb c "/")) (as_bytes a) = true → one_name a.
Proof.
  unfold one_name. rewrite forallb_forall. intros Hall Hin.
  by specialize (Hall _ (proj1 (list_elem_of_In _ _) Hin)).
Qed.

Lemma origin_one_name id : is_origin_id id = true → one_name id.
Proof.
  intros (hex & -> & Hhex)%is_origin_id_true. apply one_name_app; [by apply one_name_closed |].
  apply hex_one_name. unfold is_lower_hex_64 in Hhex. by apply andb_true_iff in Hhex as [_ ?].
Qed.

(** A character that no number has. *)
Lemma pretty_N_without c (n : N) : (∀ x, pretty_N_char x ≠ c) → c ∉ as_bytes (pretty n).
Proof.
  intros Hc. change (c ∉ as_bytes (if decide (n = 0)%N then "0" else pretty_N_go n "")).
  case_decide.
  { intros Hin%list_elem_of_singleton. by apply (Hc 0%N). }
  enough (∀ s, c ∉ as_bytes s → c ∉ as_bytes (pretty_N_go n s)) as Hgo by (apply Hgo; set_solver).
  induction n as [n IH] using (well_founded_induction N.lt_wf_0). intros s Hs.
  destruct (decide (0 < n)%N) as [Hn|]; [|by replace n with 0%N by lia].
  rewrite pretty_N_go_step by done.
  assert (c ∉ as_bytes (String (pretty_N_char (n `mod` 10)) s)) as Hs'.
  { change (as_bytes (String ?a ?s)) with (a :: as_bytes s).
    apply not_elem_of_cons. split; [apply not_eq_sym, Hc | done]. }
  destruct (decide (n `div` 10 = 0)%N) as [-> | Hd]; [done |].
  apply IH; [|lia..| done]. apply N.div_lt; lia.
Qed.

Lemma pad12_without c n : (∀ x, pretty_N_char x ≠ c) → c ∉ as_bytes (pad12 n).
Proof.
  intros Hc. unfold pad12. rewrite as_bytes_app, as_of_bytes, not_elem_of_app.
  split; [|by apply pretty_N_without].
  intros Hin%elem_of_replicate_inv. by apply (Hc 0%N).
Qed.

Lemma pad12_one_name n : one_name (pad12 n).
Proof. apply pad12_without. intros x. unfold pretty_N_char. by repeat case_match. Qed.

(** ** Listing a directory *)

Lemma child_names_NoDup directory (t : LocalTree) :
  NoDup (omap (child_name directory) (map_to_list t).*1).
Proof.
  assert (NoDup (map_to_list t).*1) as Hnd by apply NoDup_fst_map_to_list.
  induction (map_to_list t).*1 as [|p l IH]; [constructor |].
  apply NoDup_cons in Hnd as [Hp Hnd]. cbn. destruct (child_name directory p) as [n|] eqn:Hn; [|auto].
  apply NoDup_cons. split; [|auto]. intros (p' & Hp' & Hn')%list_elem_of_omap.
  apply child_name_Some in Hn as [-> _], Hn' as [-> _]. done.
Qed.

(** What [read_sorted_files] finds in a directory that is there. *)
Lemma read_sorted_files_local t directory suffix :
  t !! directory = Some LocalDirectory → ∃ paths,
    read_sorted_files (local_tree t) directory suffix = Ok paths ∧ NoDup paths ∧
    ∀ path, path ∈ paths ↔ ∃ name node, path = directory +:+ "/" +:+ name ∧ one_name name ∧
      ends_with suffix name = true ∧ t !! path = Some node.
Proof.
  intros Hd.
  set (names := filter (λ name, ends_with suffix name = true) (omap (child_name directory) (map_to_list t).*1)).
  set (paths := (λ name, directory +:+ "/" +:+ name) <$> merge_sort String.le names).
  assert (NoDup paths) as Hnd.
  { apply NoDup_fmap_2.
    - intros a b Hab. by apply (inj (String.append directory)), (inj (String.append "/")) in Hab.
    - rewrite merge_sort_Permutation. apply NoDup_filter, child_names_NoDup. }
  exists paths. split_and!; [| done |].
  { unfold read_sorted_files. rewrite (proj2 (tree_list_local _ _ _) (conj Hd eq_refl)).
    cbn [map_err mbind result_bind]. fold names. fold paths. by rewrite bool_decide_true. }
  intros path. unfold paths. rewrite list_elem_of_fmap. setoid_rewrite merge_sort_Permutation.
  unfold names. setoid_rewrite list_elem_of_filter. setoid_rewrite list_elem_of_omap. split.
  - intros (name & -> & Hsuffix & p & Hp & [-> Hone]%child_name_Some).
    apply list_elem_of_fmap in Hp as ([p node] & Hpath & Hp%elem_of_map_to_list).
    cbn in Hpath. subst p. by exists name, node.
  - intros (name & node & -> & Hone & Hsuffix & Hnode). exists name. split_and!; [done.. |].
    exists (directory +:+ "/" +:+ name). split; [|by apply child_name_Some].
    apply list_elem_of_fmap. exists (directory +:+ "/" +:+ name, node).
    by rewrite elem_of_map_to_list.
Qed.
