(* ===== verification/Recovery.v ===== *)
(** Recovery from an interrupted append: [recover_unpublished_append] of
    [v2_store/recovery.rs], with the effects of [append_batch_locked] one by one.

    An append that is stopped before it replaces [HEAD] leaves a segment, a manifest and a
    frontier, or some of them, the last perhaps cut short. Before it writes, the next append
    moves them out of the canonical tree, frontier first, so that an interruption of the
    recovery itself leaves something the next recovery recognizes. *)
From Stdlib Require Import ZArith NArith Lia Ascii.
From stdpp Require Import base decidable list gmap strings sorting.
From S2P Require Import Prelude.
From S2P Require Import Text.
From S2P Require Import External.
From S2P Require Import Ids.
From S2P Require Import Frontier.
From S2P Require Import Batch.
From S2P Require Import Record.
From S2P Require Import Genesis.
From S2P Require Import Store.
From S2P Require Import Segment.
From S2P Require Import FrontierGraph.
From S2P Require Import Clients.
From S2P Require Import Coordination.
From S2P Require Import Batches.
From S2P Require Import Archive.
From S2P Require Import Append.
From S2P Require Import Packing.
From S2P Require Import Sealing.
From S2P Require Import Ranges.
From S2P Require Import Visit.
From S2P Require Import Streaming.
From S2P Require Import WorkTree.
From S2P Require Import Frames.
From S2P Require Import LocalFiles.

(** [serde_json::Error::is_eof], by the text of the error. *)
Class JsonErrors := { is_eof : string → bool }.

(** [serde_json]: a document that is cut short ends unexpectedly. *)
Class ManifestEofLaws `{ToJson SignedSegmentManifest, FromJson SignedSegmentManifest, JsonErrors}
    : Prop := {
  manifest_cut_short : ∀ (m : SignedSegmentManifest) b p, to_json m = Ok b →
    p `prefix_of` b → p ≠ b → ∃ e, from_json (A := SignedSegmentManifest) p = Err e ∧
      is_eof e = true;
}.

Definition refused (message : string) : V2StoreError := AppendRecoveryRefused message.

(** ** Looking at files *)

Definition entry_exists (t : LocalTree) (path : string) : bool := is_some_b (t !! path).

(** The loop of [plain_file_exists] over the components of a path. *)
Fixpoint plain_steps (t : LocalTree) (steps : list (string * bool)) : result V2StoreError bool :=
  match steps with
  | [] => Ok true
  | (path, whole) :: steps =>
      match t !! path with
      | None => Ok false
      | Some node =>
          _ ← bail_if (negb (if whole : bool then is_file node else is_directory node))
                (refused ("unsafe recovery path " +:+ path));
          _ ← bail_if (is_linked node) (refused ("linked recovery file " +:+ path));
          plain_steps t steps
      end
  end.
Definition plain_file_exists (t : LocalTree) (relative : string) : result V2StoreError bool :=
  plain_steps t (path_steps relative).

Definition FRONTIERS : string := "frontiers/v2".

(** The file is named after an accepted frontier. *)
Definition names_accepted (frontiers : gmap string CausalFrontier) (path : string) : bool :=
  match name ← strip_prefix (FRONTIERS +:+ "/") path;
        stem ← strip_suffix ".json" name;
        strip_prefix "frontier-" stem with
  | Some hex => is_some_b (frontiers !! ("blake3:" +:+ hex))
  | None => false
  end.

Section recovery.
Context `{Blake3, UlidCrate, Base64, Ed25519,
  FromJson V2RecordEnvelope, ToJson SegmentManifestBody, ToJson SignedSegmentManifest,
  FromJson SignedSegmentManifest, ToJson GenesisBody, ToJson SignedGenesis,
  FromJson SignedGenesis, ToJson CausalFrontier, FromJson CausalFrontier,
  ToJson CoordinationLeaseBody, FromValue SignedCoordinationLease,
  ToJson V2RecordEnvelope, ToJson Value, JsonErrors}.

(** [to_string] of an error, and [serde_json::to_vec_pretty]. *)
Variable display : V2StoreError → string.
Variable to_vec_pretty : Value → result string bytes.

(** What [git ls-files] and [git log --all --reflog] print of a path. *)
Variable git_index git_history : string → result V2StoreError string.

(** The depth of the frontier graph [verify_compact] may meet. *)
Variable fuel : nat.

(** ** Identifying the evidence *)

(** The frontier the interrupted append was going to publish. *)
Definition recovered_successor (verified : VerifiedV2Archive) (next : OriginFrontier)
    : CausalFrontier :=
  let frontier := accepted_frontier verified in {|
  Frontier.v := Frontier.v frontier;
  Frontier.archive_id := Frontier.archive_id frontier;
  Frontier.genesis_hash := Frontier.genesis_hash frontier;
  origins := advance_tail next (origins frontier);
  previous_frontiers := [accepted_frontier_hash verified];
  item_projection_version := item_projection_version frontier
|}.

(** The manifest that is there: signed by the client, for the next segment on top of the
    accepted head. One that was cut short says nothing. *)
Definition check_manifest (t : LocalTree) (verified : VerifiedV2Archive) (origin : string)
    (first : N) (segment_exists : bool) (b : bytes) : result V2StoreError (option CausalFrontier) :=
  let tail := find_origin (origins (accepted_frontier verified)) origin in
  let segment := segment_relative_path origin first in
  match from_json (A := SignedSegmentManifest) b with
  | Ok signed =>
      client ← ok_or (Archive.clients verified !! origin) (refused "origin is not enrolled");
      key ← ok_or (key_from_bytes (public_key client)) (refused "origin public key is invalid");
      _ ← map_err (refused ∘ display) (verify_manifest signed key);
      let body := manifest_body signed in
      canonical ← canonical_json signed;
      _ ← bail_if (negb (bool_decide (canonical = b))
                   || negb (bool_decide (manifest_archive_id body
                                         = genesis_archive_id (Archive.genesis verified)))
                   || negb (bool_decide (manifest_genesis_hash body
                                         = archive_genesis_hash verified))
                   || negb (bool_decide (manifest_origin_id body = origin))
                   || negb (first_seq body =? first)%N
                   || negb (bool_decide (segment_path body = segment))
                   || negb (bool_decide (causal_base_frontier_hash body
                                         = accepted_frontier_hash verified))
                   || negb (bool_decide (previous_segment_manifest_hash body
                                         = segment_manifest_hash <$> tail)))
            (refused "manifest is not the local next append from accepted HEAD");
      _ ← (if segment_exists then
             map_err (refused ∘ display)
               (verify_segment_file (local_tree t) segment (segment_bytes body)
                  (segment_blake3 body))
           else Ok ());
      hash ← manifest_hash signed;
      Ok (Some (recovered_successor verified {|
        Frontier.origin_id := origin; Frontier.seq := last_seq body;
        event_hash := last_record_hash body; segment_manifest_hash := hash |}))
  | Err error =>
      if is_eof error then Ok None
      else Err (refused ("unpublished manifest is malformed: " +:+ error))
  end.

(** Where the successor belongs, and its bytes. *)
Definition expected_file (successor : option CausalFrontier)
    : result V2StoreError (option (string * bytes)) :=
  match successor with
  | None => Ok None
  | Some f =>
      hash ← map_err FrontierErr (frontier_hash f);
      path ← frontier_path hash;
      b ← map_err FrontierErr (Frontier.canonical_bytes f);
      Ok (Some (path, b))
  end.

(** The body of the loop over the files of [frontiers/v2]. *)
Definition check_detached (t : LocalTree) (verified : VerifiedV2Archive) (origin : string)
    (first : N) (expected : option (string * bytes)) (files : list (string * string))
    (path : string) : result V2StoreError (list (string * string)) :=
  if names_accepted (frontiers verified) path then Ok files else
  _ ← plain_file_exists t path;
  b ← read_file (local_tree t) path;
  let ours := match expected with
              | Some (expected_path, expected_bytes) =>
                  bool_decide (path = expected_path) && bool_decide (b `prefix_of` expected_bytes)
              | None => false
              end in
  if ours then Ok (files ++ [(path, "frontier.json")]) else
  frontier ← map_err (λ _, refused ("cannot identify detached frontier " +:+ path))
               (from_json (A := CausalFrontier) b);
  _ ← bail_if (existsb (λ o, bool_decide (Frontier.origin_id o = origin)
                             && (first <=? Frontier.seq o)%N) (origins frontier))
        (refused ("unexpected detached frontier " +:+ path));
  Ok files.

Definition check_untracked (file : string * string) : result V2StoreError () :=
  let known := refused (file.1 +:+ " is staged or has Git history") in
  index ← git_index file.1;
  _ ← bail_if (negb (str_is_empty index)) known;
  history ← git_history file.1;
  bail_if (negb (str_is_empty history)) known.

(** From the verified archive to the files that will be moved, with their new names. *)
Definition identify (t : LocalTree) (verified : VerifiedV2Archive) (origin : string) (first : N)
    (expected_head : string) : result V2StoreError (list (string * string)) :=
  let segment := segment_relative_path origin first in
  let manifest := manifest_relative_path origin first in
  _ ← bail_if (negb (bool_decide (accepted_frontier_hash verified = expected_head)))
        (refused "accepted frontier changed before recovery");
  let tail := find_origin (origins (accepted_frontier verified)) origin in
  _ ← bail_if (negb (bool_decide
                (match tail with
                 | None => Some 1%N
                 | Some tail => checked_add_u64 (Frontier.seq tail) 1
                 end = Some first)))
        (refused "accepted origin changed before recovery");
  segment_exists ← plain_file_exists t segment;
  manifest_exists ← plain_file_exists t manifest;
  successor ← (if manifest_exists : bool then
                 b ← read_file (local_tree t) manifest;
                 check_manifest t verified origin first segment_exists b
               else Ok None);
  expected ← expected_file successor;
  paths ← read_sorted_files (local_tree t) FRONTIERS ".json";
  files ← fold_result (check_detached t verified origin first expected) [] paths;
  let files := files ++ (if manifest_exists : bool then [(manifest, "manifest.json")] else [])
                     ++ (if segment_exists : bool then [(segment, "segment.jsonl")] else []) in
  _ ← for_each check_untracked files;
  Ok files.

(** Nothing to do, or the files to preserve. *)
Definition plan_recovery (t : LocalTree) (origin : string) (first : N) (expected_head : string)
    : result (Halt V2StoreError) (option (VerifiedV2Archive * list (string * string))) :=
  if negb (entry_exists t (segment_relative_path origin first))
     && negb (entry_exists t (manifest_relative_path origin first)) then Ok None else
  verified ← verify_compact fuel (local_tree t);
  files ← map_err Halted (identify t verified origin first expected_head);
  Ok (Some (verified, files)).

(** ** Preserving it *)

Definition evidence_json (verified : VerifiedV2Archive) (origin : string) (first : N)
    (files : list (string * string)) : Value := json_object [
  ("version", Num (PosInt 1));
  ("accepted_frontier_hash", Str (accepted_frontier_hash verified));
  ("origin_id", Str origin);
  ("first_seq", Num (PosInt first));
  ("files", Arr ((λ file, json_object [("source", Str file.1); ("retained", Str file.2)])
                 <$> files))].

Definition ensure_durable_directory (path : string) (s : LocalTree)
    : result V2StoreError LocalTree :=
  match s !! path with
  | Some LocalDirectory => Ok s
  | Some _ => Err (refused ("unsafe recovery directory " +:+ path))
  | None => Ok (<[path := LocalDirectory]> s)
  end.

Definition create_recovery_directory (path : string) (s : LocalTree)
    : result V2StoreError LocalTree :=
  match s !! path with
  | None => Ok (<[path := LocalDirectory]> s)
  | Some _ => Err (Io "create append recovery directory" path "File exists (os error 17)")
  end.

(** The file is checked again and moved out of the canonical tree. *)
Definition preserve (retained : string) (file : string * string) (s : Files)
    : result V2StoreError Files :=
  let target := retained +:+ "/" +:+ file.2 in
  _ ← plain_file_exists (canonical s) file.1;
  match canonical s !! file.1, local s !! target with
  | Some (LocalFile content links), (None | Some (LocalFile _ _)) =>
      Ok {| canonical := delete file.1 (canonical s);
            local := <[target := LocalFile content links]> (local s) |}
  | Some _, _ => Err (Io "preserve unpublished append evidence" file.1 "Is a directory (os error 21)")
  | None, _ => Err (Io "sync unpublished append evidence" file.1 "No such file or directory")
  end.

Definition RECOVERY_ROOT : string := "local/append-recovery".

(** Serializing [recovery.json] can fail when its directory is already there. *)
Definition recovery_effects (retained : string) (verified : VerifiedV2Archive)
    (origin : string) (first : N) (files : list (string * string)) : list Effect :=
  let content := map_err refused (to_vec_pretty (evidence_json verified origin first files)) in
  [Atomic (on_local (ensure_durable_directory "local"));
   Atomic (on_local (ensure_durable_directory RECOVERY_ROOT));
   Atomic (on_local (create_recovery_directory retained));
   Atomic (λ s, _ ← content; Ok s);
   WriteLocal "create parent directory" "create immutable file" (retained +:+ "/recovery.json")
     (match content with Ok b => b | Err _ => [] end)]
  ++ ((λ file, Atomic (preserve retained file)) <$> files).

(** An error leaves one of the states [crashes] of the effects allows. *)
Definition recover_unpublished_append (origin : string) (first : N) (expected_head ulid : string)
    (s : Files) : result (Halt V2StoreError) (option string * Files) :=
  plan ← plan_recovery (canonical s) origin first expected_head;
  match plan with
  | None => Ok (None, s)
  | Some (verified, files) =>
      let retained := RECOVERY_ROOT +:+ "/" +:+ ulid in
      s ← map_err Halted (perform_all (recovery_effects retained verified origin first files) s);
      Ok (Some retained, s)
  end.

(** ** The effects of an append *)

(** [seal] step by step: the finished temporary file, its new name, the manifest, the
    frontier and the new [HEAD]. *)
Definition seal_effects (verified : VerifiedV2Archive) (tail : option OriginFrontier)
    (key : SigningKey) (b : BatchInput) (first : N) (f : SegmentFile)
    (segment_temp head_temp : string) : result V2StoreError (V2AppendResult * list Effect) :=
  let segment := segment_relative_path (in_origin b) first in
  manifest ← create_manifest (seal_body verified tail b first f) key;
  hash ← manifest_hash manifest;
  manifest_bytes ← canonical_json manifest;
  let successor := successor_frontier verified (next_tail b f hash) in
  accepted ← map_err FrontierErr (frontier_hash successor);
  path ← frontier_path accepted;
  frontier_bytes ← map_err FrontierErr (Frontier.canonical_bytes successor);
  let write := WriteCanonical "create parent directory" "create immutable file" in
  Ok ({| result_batch_id := in_batch_id b; result_first_seq := first;
         result_last_seq := next_seq (file f); records_written := written_records (file f);
         result_items := items_written f; result_manifest_hash := hash;
         result_frontier_hash := accepted |},
      [WriteCanonical "create origin segment directory" "create segment temporary file"
         segment_temp (file_bytes (file f));
       Atomic (on_canonical (rename_file "publish immutable segment" segment_temp segment));
       write (manifest_relative_path (in_origin b) first) manifest_bytes;
       write path frontier_bytes;
       write head_temp (as_bytes (accepted +:+ newline));
       Atomic (on_canonical (rename_file "replace accepted frontier HEAD" head_temp HEAD_PATH))]).

Definition segment_temp (origin ulid : string) : string :=
  "events/v2/origins/" +:+ origin +:+ "/.segment-" +:+ ulid +:+ ".tmp".
Definition head_temp (ulid : string) : string := "frontiers/v2/.head-" +:+ ulid +:+ ".tmp".

(** [append_verified] step by step: what it computes, and the effects that publish it. *)
Definition append_effects (lower_ulid : nat → string) (verified : VerifiedV2Archive)
    (origin : string) (key : SigningKey) (time : N) (operation_kind : string)
    (item_schema_version : N) (context defaults : Value) (items : stream) (turns : nat)
    (segment_temp head_temp : string)
    : option (result V2StoreError (V2AppendResult * list Effect)) :=
  let tail := find_origin (origins (accepted_frontier verified)) origin in
  let b := batch_input lower_ulid verified origin time operation_kind item_schema_version
             context defaults in
  match
    _ ← validate_item_defaults item_schema_version defaults;
    _ ← check_active_client verified origin key;
    first_sequence tail
  with
  | Err e => Some (Err e)
  | Ok first =>
      (λ written, f ← written; seal_effects verified tail key b first f segment_temp head_temp)
      <$> write_segment lower_ulid b first (event_hash <$> tail) items turns
  end.
End recovery.

(** ** Lemmas *)

(** All directories above a path are there. *)
Definition above (path : string) (t : LocalTree) : Prop := ∀ d, d ∈ parents path →
  t !! d = Some LocalDirectory.

Lemma above_free path t : above path t → free_above path t.
Proof. intros Ha d Hd. right. by apply Ha. Qed.

Lemma plain_above t l steps :
  (∀ d, d ∈ l → t !! d = Some LocalDirectory) →
  plain_steps t (((λ d, (d, false)) <$> l) ++ steps) = plain_steps t steps.
Proof.
  intros Hl. induction l as [|d l IH]; [done |].
  cbn. rewrite (Hl d) by set_solver. cbn. apply IH. set_solver.
Qed.

Lemma plain_true t path content :
  above path t → t !! path = Some (LocalFile content 1) → plain_file_exists t path = Ok true.
Proof.
  intros Ha Hp. unfold plain_file_exists, path_steps. rewrite plain_above by apply Ha.
  cbn. by rewrite Hp.
Qed.

Lemma plain_false t path :
  free_above path t → t !! path = None → plain_file_exists t path = Ok false.
Proof.
  unfold plain_file_exists, path_steps, free_above. intros Hfree Hp.
  induction (parents path) as [|d l IH]; cbn; [by rewrite Hp |].
  destruct (Hfree d) as [-> | ->]; [by left | done |]. cbn. apply IH. intros e He.
  apply Hfree. by right.
Qed.

Lemma plain_mono t t' path :
  t ⊆ t' → plain_file_exists t path = Ok true → plain_file_exists t' path = Ok true.
Proof.
  intros Hsub. unfold plain_file_exists. induction (path_steps path) as [|[p whole] steps IH]; [done |].
  cbn. destruct (t !! p) as [node|] eqn:Hp; [|done].
  rewrite (lookup_weaken _ _ _ _ Hp Hsub). intros (u & Hu & (u' & Hu' & Hrest)%bind_Ok)%bind_Ok.
  rewrite Hu. cbn. rewrite Hu'. cbn. by apply IH.
Qed.

Lemma local_tree_extends t t' : t ⊆ t' → tree_extends (local_tree t) (local_tree t').
Proof.
  intros Hsub path content (links & Hp)%tree_read_local. apply tree_read_local. exists links.
  by eapply lookup_weaken.
Qed.

Lemma segment_temp_ne origin ulid n :
  segment_temp origin ulid ≠ segment_relative_path origin n.
Proof.
  unfold segment_temp, segment_relative_path. intros He.
  by apply (inj (String.append "events/v2/origins/")), (inj (String.append origin)) in He.
Qed.

Lemma head_temp_ne ulid : head_temp ulid ≠ HEAD_PATH.
Proof. done. Qed.

Section refinement.
Context `{Blake3, UlidCrate, Base64, Ed25519, ToJson V2RecordEnvelope, ToJson Value,
  ToJson SegmentManifestBody, ToJson SignedSegmentManifest, ToJson CausalFrontier}.

Lemma disk_of_same t t' q : t' !! q = t !! q → disk_of t' !! q = disk_of t !! q.
Proof. intros Hq. unfold disk_of. by rewrite !lookup_omap, Hq. Qed.

(** A created file is new on the disk, and directories are not on it. *)
Lemma disk_create make create path content t t' :
  create_new make create path content t = Ok t' →
  disk_of t !! path = None ∧ disk_of t' = <[path := content]> (disk_of t).
Proof.
  intros (Hnone & Hnew & _ & Hsame)%create_new_Ok. unfold disk_of. split.
  - by rewrite lookup_omap, Hnone.
  - apply map_eq. intros q. rewrite lookup_omap. destruct (decide (q = path)) as [-> | Hne].
    + by rewrite Hnew, lookup_insert_eq.
    + rewrite lookup_insert_ne, lookup_omap by done.
      destruct (Hsame q Hne) as [-> | (_ & -> & ->)]; done.
Qed.

Lemma disk_rename operation from to content t t' :
  from ≠ to → disk_of t !! from = Some content → rename_file operation from to t = Ok t' →
  disk_of t' = <[to := content]> (delete from (disk_of t)).
Proof.
  intros Hne (links & Hfrom)%lookup_disk_of ((c & n & Hf & Ht) & Hgone & Hsame)%rename_file_Ok;
    [|done]. rewrite Hfrom in Hf. injection Hf as <- <-.
  apply map_eq. intros q. unfold disk_of. rewrite lookup_omap.
  destruct (decide (q = to)) as [-> | Hqt]; [by rewrite Ht, lookup_insert_eq |].
  rewrite lookup_insert_ne by done. destruct (decide (q = from)) as [-> | Hqf].
  - by rewrite Hgone, lookup_delete_eq.
  - by rewrite lookup_delete_ne, lookup_omap, Hsame by done.
Qed.

Lemma on_canonical_Ok f s s' :
  on_canonical f s = Ok s' ↔ f (canonical s) = Ok (canonical s') ∧ local s' = local s.
Proof.
  unfold on_canonical. destruct (f (canonical s)) as [t|e]; cbn; [|naive_solver].
  split; [by intros [= <-] | intros [[= ->] <-]; by destruct s'].
Qed.

Lemma on_local_Ok f s s' :
  on_local f s = Ok s' ↔ f (local s) = Ok (local s') ∧ canonical s' = canonical s.
Proof.
  unfold on_local. destruct (f (local s)) as [t|e]; cbn; [|naive_solver].
  split; [by intros [= <-] | intros [[= ->] <-]; by destruct s'].
Qed.

(** A finished temporary file that is renamed. *)
Lemma disk_publish make create operation temp to content s1 s2 s3 :
  temp ≠ to → on_canonical (create_new make create temp content) s1 = Ok s2 →
  on_canonical (rename_file operation temp to) s2 = Ok s3 →
  disk_of (canonical s3) = <[to := content]> (disk_of (canonical s1)) ∧ local s3 = local s1.
Proof.
  intros Hne [[Hnone Hd]%disk_create Hl]%on_canonical_Ok [Hr Hl']%on_canonical_Ok.
  apply (disk_rename _ _ _ content) in Hr; [|done | by rewrite Hd, lookup_insert_eq].
  split; [|congruence]. rewrite Hr, Hd. by rewrite delete_insert_id.
Qed.

Lemma disk_written path content make create s1 s2 :
  on_canonical (create_new make create path content) s1 = Ok s2 →
  write_new_synced path content (disk_of (canonical s1)) = Ok (disk_of (canonical s2)) ∧
  local s2 = local s1.
Proof.
  intros [[Hnone Hd]%disk_create Hl]%on_canonical_Ok. split; [|done].
  unfold write_new_synced. by rewrite Hnone, Hd.
Qed.

(** [seal] from its effects. *)
Lemma seal_refined verified tail key b first f ulid1 ulid2 res es s s' :
  let segment_temp := segment_temp (in_origin b) ulid1 in
  seal_effects verified tail key b first f segment_temp (head_temp ulid2) = Ok (res, es) →
  perform_all es s = Ok s' →
  seal verified tail key b first f (disk_of (canonical s)) = Ok (res, disk_of (canonical s')) ∧
  local s' = local s.
Proof.
  intros temp Heffects Hrun. unfold seal_effects in Heffects.
  apply bind_Ok in Heffects as (m & Hm & Heffects).
  apply bind_Ok in Heffects as (hash & Hhash & Heffects).
  apply bind_Ok in Heffects as (content & Hcontent & Heffects).
  apply bind_Ok in Heffects as (accepted & Haccepted & Heffects).
  apply bind_Ok in Heffects as (path & Hpath & Heffects).
  apply bind_Ok in Heffects as (fcontent & Hfcontent & [= <- <-]).
  unfold perform_all in Hrun. cbn [fold_result perform] in Hrun.
  apply bind_Ok in Hrun as (s1 & Hs1 & Hrun). apply bind_Ok in Hrun as (s2 & Hs2 & Hrun).
  apply bind_Ok in Hrun as (s3 & Hs3 & Hrun). apply bind_Ok in Hrun as (s4 & Hs4 & Hrun).
  apply bind_Ok in Hrun as (s5 & Hs5 & Hrun). apply bind_Ok in Hrun as (s6 & Hs6 & [= <-]).
  destruct (disk_publish _ _ _ _ _ _ _ _ _ (segment_temp_ne _ _ _) Hs1 Hs2) as [Hd2 Hl2].
  apply disk_written in Hs3 as [Hd3 Hl3]. apply disk_written in Hs4 as [Hd4 Hl4].
  destruct (disk_publish _ _ _ _ _ _ _ _ _ (head_temp_ne _) Hs5 Hs6) as [Hd6 Hl6].
  split; [|congruence]. unfold seal. rewrite Hm. cbn [mbind result_bind].
  rewrite Hhash. cbn [mbind result_bind]. rewrite Hcontent. cbn [mbind result_bind].
  rewrite <- Hd2, Hd3. cbn [mbind result_bind]. rewrite Haccepted. cbn [mbind result_bind].
  unfold write_frontier. rewrite Haccepted. cbn [mbind result_bind].
  rewrite Hpath. cbn [mbind result_bind]. rewrite Hfcontent. cbn [mbind result_bind].
  rewrite Hd4. cbn [mbind result_bind]. unfold replace_synced. by rewrite Hd6.
Qed.

(** C24: the writer step by step does what the writer of [Append.v] does at once: when its six
    effects all succeed, the files of the canonical tree are exactly those the append leaves,
    with the same result, its temporary files are gone, and nothing else was touched. *)
Theorem append_effects_refine lower_ulid verified origin key time operation_kind schema context
    defaults items turns ulid1 ulid2 res es s s' :
  append_effects lower_ulid verified origin key time operation_kind schema context defaults items
    turns (segment_temp origin ulid1) (head_temp ulid2) = Some (Ok (res, es)) →
  perform_all es s = Ok s' →
  append_verified lower_ulid verified origin key time operation_kind schema context defaults items
    turns (disk_of (canonical s)) = Some (Ok (res, disk_of (canonical s'))) ∧
  local s' = local s.
Proof.
  unfold append_effects, append_verified. intros Heffects Hrun.
  destruct (validate_item_defaults schema defaults) as [[]|e]; [|done].
  cbn [mbind result_bind] in Heffects |- *.
  destruct (check_active_client verified origin key) as [[]|e]; [|done].
  cbn [mbind result_bind] in Heffects |- *.
  destruct (first_sequence _) as [first|e]; [|done].
  destruct (write_segment _ _ _ _ _ _) as [[f|e]|]; [|done..].
  apply (inj Some) in Heffects.
  set (b := batch_input _ _ _ _ _ _ _ _) in *.
  change (seal_effects verified (find_origin (origins (accepted_frontier verified)) origin) key b
    first f (segment_temp (in_origin b) ulid1) (head_temp ulid2) = Ok (res, es)) in Heffects.
  destruct (seal_refined _ _ _ _ _ _ _ _ _ _ s s' Heffects Hrun) as [Hseal Hl].
  split; [|done]. exact (f_equal Some Hseal).
Qed.
End refinement.
