(* ===== verification/Interrupted.v ===== *)
(** Interrupted appends and interrupted recoveries, in any number: the theorems on
    [Recovery.v]. Whatever state the writer is stopped in before it replaces [HEAD], the
    accepted history is untouched and the next recovery succeeds; what it moves is kept. *)
From Stdlib Require Import ZArith NArith Lia Ascii.
From stdpp Require Import base decidable list gmap strings sorting pretty.
From S2P Require Import Prelude.
From S2P Require Import Text.
From S2P Require Import External.
From S2P Require Import Ids.
From S2P Require Import Frontier.
From S2P Require Import Batch.
From S2P Require Import Record.
From S2P Require Import Genesis.
From S2P Require Import Store.
From S2P Require Import Segment.
From S2P Require Import FrontierGraph.
From S2P Require Import Clients.
From S2P Require Import Coordination.
From S2P Require Import Batches.
From S2P Require Import Archive.
From S2P Require Import Append.
From S2P Require Import Packing.
From S2P Require Import Sealing.
From S2P Require Import Ranges.
From S2P Require Import Visit.
From S2P Require Import Streaming.
From S2P Require Import WorkTree.
From S2P Require Import Frames.
From S2P Require Import LocalFiles.
From S2P Require Import Recovery.

(** What an append that did not finish wrote under a final name. *)
Record Evidence : Type := {
  ev_segment : bytes;
  ev_manifest : bytes;
  ev_path : string;
  ev_frontier : bytes;
}.

Section interrupted.
Context `{Blake3, UlidCrate, Base64, Ed25519,
  FromJson V2RecordEnvelope, ToJson SegmentManifestBody, ToJson SignedSegmentManifest,
  FromJson SignedSegmentManifest, ToJson GenesisBody, ToJson SignedGenesis,
  FromJson SignedGenesis, ToJson CausalFrontier, FromJson CausalFrontier,
  ToJson CoordinationLeaseBody, FromValue SignedCoordinationLease, JsonErrors}.
Context (display : V2StoreError → string) (to_vec_pretty : Value → result string bytes).
Context (git_index git_history : string → result V2StoreError string) (fuel : nat).

(** The tree as it was accepted, and the client that appends to it. *)
Context (base : LocalTree) (verified : VerifiedV2Archive) (origin : string) (first : N).

#[local] Abbreviation segment := (segment_relative_path origin first).
#[local] Abbreviation manifest := (manifest_relative_path origin first).
#[local] Abbreviation check_manifest := (check_manifest display).

(** A file of [frontiers/v2] that recovery leaves alone. *)
Definition harmless (path : string) : Prop :=
  names_accepted (frontiers verified) path = true ∨
  plain_file_exists base path = Ok true ∧
  ∃ b f, tree_read (local_tree base) path = Ok b ∧ from_json (A := CausalFrontier) b = Ok f ∧
    ∀ o, o ∈ origins f → Frontier.origin_id o = origin → (Frontier.seq o < first)%N.

(** Git has never seen a path. *)
Definition unknown_to_git (path : string) : Prop :=
  git_index path = Ok "" ∧ git_history path = Ok "".

(** The accepted tree, at rest: it verifies, [first] is the next sequence number of the
    client, its next segment is not there, and no other frontier waits in it. *)
Record settled : Prop := {
  st_verified : verify_compact fuel (local_tree base) = Ok verified;
  st_first : match find_origin (origins (accepted_frontier verified)) origin with
             | None => Some 1%N
             | Some tail => checked_add_u64 (Frontier.seq tail) 1
             end = Some first;
  st_segment : base !! segment = None ∧ free_above segment base ∧ unknown_to_git segment;
  st_manifest : base !! manifest = None ∧ free_above manifest base ∧ unknown_to_git manifest;
  st_frontiers : base !! FRONTIERS = Some LocalDirectory ∧
    base !! "frontiers" = Some LocalDirectory;
  st_detached : ∀ name node, one_name name → ends_with ".json" name = true →
    base !! (FRONTIERS +:+ "/" +:+ name) = Some node → harmless (FRONTIERS +:+ "/" +:+ name);
}.

(** What the checks of the recovery need to find in an append's files. *)
Record attempt (e : Evidence) : Prop := {
  at_checks : ∀ t, tree_read (local_tree t) segment = Ok (ev_segment e) → ∃ successor,
    check_manifest t verified origin first true (ev_manifest e) = Ok (Some successor) ∧
    expected_file (Some successor) = Ok (Some (ev_path e, ev_frontier e));
  at_cut : ∀ t p, p `prefix_of` ev_manifest e → p ≠ ev_manifest e →
    check_manifest t verified origin first true p = Ok None;
  at_path : ∃ hex, ev_path e = FRONTIERS +:+ "/" +:+ ("frontier-" +:+ hex +:+ ".json") ∧
    is_lower_hex_64 hex = true;
  at_fresh : base !! ev_path e = None ∧ names_accepted (frontiers verified) (ev_path e) = false ∧
    unknown_to_git (ev_path e);
}.

(** Temporary files, and the directories an append makes. *)
Definition temporary (q : string) : Prop := ∃ ulid, one_name ulid ∧
  (q = segment_temp origin ulid ∨ q = head_temp ulid).
Definition made (q : string) : Prop := q ∈ parents segment ∨ q ∈ parents manifest.

(** Next to the accepted tree there are temporary files and new directories only. *)
Definition besides (t : LocalTree) (q : string) : Prop :=
  t !! q = base !! q ∨ base !! q = None ∧ (temporary q ∨ (made q ∧ t !! q = Some LocalDirectory)).

Definition cut_file (t : LocalTree) (path : string) (content : bytes) : Prop :=
  ∃ p, p `prefix_of` content ∧ t !! path = Some (LocalFile p 1) ∧ above path t.

(** The accepted tree with what one interrupted append may leave: a manifest only with its
    segment, a frontier only with its whole manifest. *)
Record leftover (e : Evidence) (t : LocalTree) : Prop := {
  lo_base : base ⊆ t;
  lo_besides : ∀ q, q ≠ segment → q ≠ manifest → q ≠ ev_path e → besides t q;
  lo_segment : t !! segment = None ∨
    t !! segment = Some (LocalFile (ev_segment e) 1) ∧ above segment t;
  lo_manifest : t !! manifest = None ∨
    cut_file t manifest (ev_manifest e) ∧ t !! segment ≠ None;
  lo_frontier : t !! ev_path e = None ∨
    cut_file t (ev_path e) (ev_frontier e) ∧
    t !! manifest = Some (LocalFile (ev_manifest e) 1);
}.

(** The accepted tree without any of it. *)
Record clear (t : LocalTree) : Prop := {
  cl_base : base ⊆ t;
  cl_besides : ∀ q, besides t q;
}.

(** ** Where the files are *)

Lemma append_longer s c t : s ≠ s +:+ String c t.
Proof.
  intros He%(f_equal (λ s, length (as_bytes s))). rewrite as_bytes_app, length_app in He.
  change (as_bytes (String c t)) with (c :: as_bytes t) in He. cbn in He. lia.
Qed.

Definition events_of (id : string) : string := "events/v2/origins/" +:+ id.
Definition manifests_of (id : string) : string := "manifests/v2/origins/" +:+ id.

Lemma parents_of_child top id name :
  one_name id → one_name name →
  parents ((top +:+ "/" +:+ id) +:+ "/" +:+ name) = parents top ++ [top; top +:+ "/" +:+ id].
Proof. intros Hid Hname. by rewrite !parents_child, <- app_assoc by done. Qed.

Context (Horigin : is_origin_id origin = true).

Lemma parents_in_events name :
  one_name name →
  parents (events_of origin +:+ "/" +:+ name)
  = ["events"; "events/v2"; "events/v2/origins"; events_of origin].
Proof.
  intros Hname.
  exact (parents_of_child "events/v2/origins" origin name (origin_one_name _ Horigin) Hname).
Qed.

Lemma parents_in_manifests name :
  one_name name →
  parents (manifests_of origin +:+ "/" +:+ name)
  = ["manifests"; "manifests/v2"; "manifests/v2/origins"; manifests_of origin].
Proof.
  intros Hname.
  exact (parents_of_child "manifests/v2/origins" origin name (origin_one_name _ Horigin) Hname).
Qed.

Lemma parents_in_frontiers name :
  one_name name → parents (FRONTIERS +:+ "/" +:+ name) = ["frontiers"; FRONTIERS].
Proof. intros Hname. by rewrite parents_child by done. Qed.

Lemma segment_name : segment = events_of origin +:+ "/" +:+ ("seg-" +:+ pad12 first +:+ ".jsonl").
Proof. unfold segment_relative_path, events_of. by rewrite append_assoc. Qed.

Lemma manifest_name :
  manifest = manifests_of origin +:+ "/" +:+ ("seg-" +:+ pad12 first +:+ ".manifest.json").
Proof. unfold manifest_relative_path, manifests_of. by rewrite append_assoc. Qed.

Lemma segment_temp_name ulid :
  segment_temp origin ulid = events_of origin +:+ "/" +:+ (".segment-" +:+ ulid +:+ ".tmp").
Proof. unfold segment_temp, events_of. by rewrite append_assoc. Qed.

Lemma head_temp_name ulid : head_temp ulid = FRONTIERS +:+ "/" +:+ (".head-" +:+ ulid +:+ ".tmp").
Proof. done. Qed.

Lemma padded_one_name (prefix suffix middle : string) :
  one_name prefix → one_name middle → one_name suffix → one_name (prefix +:+ middle +:+ suffix).
Proof. intros. by repeat apply one_name_app. Qed.

Lemma parents_segment :
  parents segment = ["events"; "events/v2"; "events/v2/origins"; events_of origin].
Proof.
  rewrite segment_name. apply parents_in_events.
  apply padded_one_name; [by apply one_name_closed | apply pad12_one_name | by apply one_name_closed].
Qed.

Lemma parents_manifest :
  parents manifest = ["manifests"; "manifests/v2"; "manifests/v2/origins"; manifests_of origin].
Proof.
  rewrite manifest_name. apply parents_in_manifests.
  apply padded_one_name; [by apply one_name_closed | apply pad12_one_name | by apply one_name_closed].
Qed.

Lemma parents_segment_temp ulid : one_name ulid →
  parents (segment_temp origin ulid) = parents segment.
Proof.
  intros Hulid. rewrite parents_segment, segment_temp_name. apply parents_in_events.
  apply padded_one_name; [by apply one_name_closed | done | by apply one_name_closed].
Qed.

Lemma parents_head_temp ulid : one_name ulid → parents (head_temp ulid) = ["frontiers"; FRONTIERS].
Proof.
  intros Hulid. rewrite head_temp_name. apply parents_in_frontiers.
  apply padded_one_name; [by apply one_name_closed | done | by apply one_name_closed].
Qed.

(** A directory the writer needs. *)
Definition needed (d : string) : Prop := made d ∨ d = "frontiers" ∨ d = FRONTIERS.

Lemma needed_no_file d :
  needed d → d ≠ segment ∧ d ≠ manifest ∧ ¬ temporary d ∧
  ∀ hex, d ≠ FRONTIERS +:+ "/" +:+ ("frontier-" +:+ hex +:+ ".json").
Proof.
  unfold needed, made. rewrite parents_segment, parents_manifest, segment_name, manifest_name.
  intros Hd. split_and!.
  - intros ->. revert Hd. rewrite !elem_of_cons, !elem_of_nil.
    intros Hd. repeat destruct Hd as [Hd | Hd]; try done; by apply eq_sym, append_longer in Hd.
  - intros ->. revert Hd. rewrite !elem_of_cons, !elem_of_nil.
    intros Hd. repeat destruct Hd as [Hd | Hd]; try done; by apply eq_sym, append_longer in Hd.
  - intros (ulid & _ & [-> | ->]); revert Hd;
      rewrite ?segment_temp_name, !elem_of_cons, !elem_of_nil;
      intros Hd; repeat destruct Hd as [Hd | Hd]; try done; by apply eq_sym, append_longer in Hd.
  - intros hex ->. revert Hd. rewrite !elem_of_cons, !elem_of_nil.
    intros Hd. repeat destruct Hd as [Hd | Hd]; done.
Qed.

Lemma segment_ne_manifest : segment ≠ manifest.
Proof. done. Qed.

Lemma frontier_file_ne name : FRONTIERS +:+ "/" +:+ name ≠ segment ∧ FRONTIERS +:+ "/" +:+ name ≠ manifest.
Proof. done. Qed.

(** A file of [frontiers/v2] with the extension is no temporary file and no directory. *)
Lemma json_not_besides t name :
  ends_with ".json" name = true → besides t (FRONTIERS +:+ "/" +:+ name) →
  t !! (FRONTIERS +:+ "/" +:+ name) = base !! (FRONTIERS +:+ "/" +:+ name).
Proof.
  intros (stem & ->)%ends_with_true [? | (_ & [(ulid & _ & [Ht | Ht]) | [Hmade _]])]; [done.. | |].
  - rewrite head_temp_name in Ht. apply (inj (String.append FRONTIERS)), (inj (String.append "/")) in Ht.
    rewrite <- !append_assoc in Ht. apply (f_equal (λ s, List.rev (as_bytes s))) in Ht.
    rewrite !as_bytes_app, !rev_app_distr in Ht. done.
  - destruct (needed_no_file _ (or_introl Hmade)) as (_ & _ & _ & Hno).
    revert Hmade. unfold made. rewrite parents_segment, parents_manifest.
    rewrite !elem_of_cons, !elem_of_nil. intros Hd. by repeat destruct Hd as [Hd | Hd].
Qed.

Section leftover.
Context (e : Evidence) (t : LocalTree).
Context (Hsettled : settled) (Hattempt : attempt e) (Hleft : leftover e t).

Lemma ev_path_ne : ev_path e ≠ segment ∧ ev_path e ≠ manifest.
Proof. destruct (at_path _ Hattempt) as (hex & -> & _). apply frontier_file_ne. Qed.

(** The directories the writer needs are free. *)
Lemma leftover_free d :
  needed d → base !! d = None ∨ base !! d = Some LocalDirectory →
  t !! d = None ∨ t !! d = Some LocalDirectory.
Proof.
  intros Hneeded Hbase. destruct (needed_no_file d Hneeded) as (Hs & Hm & Htemp & Hno).
  assert (d ≠ ev_path e) as He by (destruct (at_path _ Hattempt) as (hex & -> & _); apply Hno).
  destruct (lo_besides _ _ Hleft d Hs Hm He) as [-> | (_ & [Ht | [_ Ht]])]; [done.. | by right].
Qed.

Lemma leftover_segment :
  plain_file_exists t segment = Ok (is_some_b (t !! segment)) ∧
  plain_file_exists t manifest = Ok (is_some_b (t !! manifest)) ∧
  (is_Some (t !! ev_path e) → plain_file_exists t (ev_path e) = Ok true).
Proof.
  destruct (st_segment Hsettled) as (_ & Hfs & _), (st_manifest Hsettled) as (_ & Hfm & _).
  split_and!.
  - destruct (lo_segment _ _ Hleft) as [Hs | [Hs Ha]]; rewrite Hs.
    + apply plain_false; [|done]. intros d Hd. apply leftover_free; [by left; left | by apply Hfs].
    + by eapply plain_true.
  - destruct (lo_manifest _ _ Hleft) as [Hs | [(p & Hp & Hs & Ha) _]]; rewrite Hs.
    + apply plain_false; [|done]. intros d Hd. apply leftover_free; [by left; right | by apply Hfm].
    + by eapply plain_true.
  - destruct (lo_frontier _ _ Hleft) as [-> | [(p & Hp & Hs & Ha) _]]; [by intros [] |].
    intros _. by eapply plain_true.
Qed.

(** What recovery will move, frontier first. *)
Definition evidence_files : list (string * string) :=
  (if is_some_b (t !! ev_path e) then [(ev_path e, "frontier.json")] else []) ++
  (if is_some_b (t !! manifest) then [(manifest, "manifest.json")] else []) ++
  (if is_some_b (t !! segment) then [(segment, "segment.jsonl")] else []).

(** The successor the manifest there names. *)
Lemma leftover_successor :
  is_Some (t !! manifest) → ∃ b successor,
    read_file (local_tree t) manifest = Ok b ∧
    check_manifest t verified origin first (is_some_b (t !! segment)) b = Ok successor ∧
    (successor = None ∧ t !! ev_path e = None ∨
     expected_file successor = Ok (Some (ev_path e, ev_frontier e))).
Proof.
  intros Hsome. destruct (lo_manifest _ _ Hleft) as [Hm | [(p & Hp & Hm & _) Hs]];
    [by rewrite Hm in Hsome; destruct Hsome |].
  destruct (lo_segment _ _ Hleft) as [? | [Hseg _]]; [done |]. rewrite Hseg. cbn [is_some_b].
  exists p. assert (read_file (local_tree t) manifest = Ok p) as Hread.
  { apply read_file_Ok, tree_read_local. by exists 1%N. }
  destruct (decide (p = ev_manifest e)) as [-> | Hne].
  - destruct (at_checks _ Hattempt t) as (successor & Hc & He).
    { apply tree_read_local. by exists 1%N. }
    exists (Some successor). split_and!; [done.. | by right].
  - exists None. split_and!; [done | by apply (at_cut _ Hattempt) | left]. split; [done |].
    destruct (lo_frontier _ _ Hleft) as [? | [_ Hm']]; [done |]. congruence.
Qed.


(** Each step of the loop over the detached frontiers. *)
Lemma detached_ours expected files :
  expected = Some (ev_path e, ev_frontier e) → is_Some (t !! ev_path e) →
  check_detached t verified origin first expected files (ev_path e)
  = Ok (files ++ [(ev_path e, "frontier.json")]).
Proof.
  intros -> Hsome. destruct (at_fresh _ Hattempt) as (_ & Hna & _).
  destruct leftover_segment as (_ & _ & Hplain).
  destruct (lo_frontier _ _ Hleft) as [Hn | [(p & Hp & Hs & _) _]];
    [by rewrite Hn in Hsome; destruct Hsome |].
  unfold check_detached. rewrite Hna, Hplain by done. cbn [mbind result_bind].
  rewrite (proj2 (read_file_Ok _ _ _) (proj2 (tree_read_local _ _ _) (ex_intro _ 1%N Hs))).
  cbn [mbind result_bind]. by rewrite !bool_decide_true.
Qed.

Lemma nothing_ahead (l : list OriginFrontier) :
  (∀ o, o ∈ l → Frontier.origin_id o = origin → (Frontier.seq o < first)%N) →
  existsb (λ o, bool_decide (Frontier.origin_id o = origin) && (first <=? Frontier.seq o)%N) l
  = false.
Proof.
  intros Hl. apply not_true_is_false. intros (o & Ho%list_elem_of_In & Hand)%existsb_exists.
  apply andb_true_iff in Hand as [Heq%bool_decide_eq_true Hle%N.leb_le].
  specialize (Hl o Ho Heq). lia.
Qed.

Lemma detached_harmless expected files path :
  (∀ p b, expected = Some (p, b) → p ≠ path) → harmless path →
  check_detached t verified origin first expected files path = Ok files.
Proof.
  intros Hexpected. unfold check_detached.
  intros [-> | (Hplain & b & f & Hb & Hf & Hseq)]; [done |].
  destruct (names_accepted (frontiers verified) path); [done |].
  rewrite (plain_mono _ _ _ (lo_base _ _ Hleft) Hplain). cbn [mbind result_bind].
  rewrite (proj2 (read_file_Ok _ _ _) (local_tree_extends _ _ (lo_base _ _ Hleft) _ _ Hb)).
  cbn [mbind result_bind].
  assert (match expected with
          | Some (expected_path, expected_bytes) =>
              bool_decide (path = expected_path) && bool_decide (b `prefix_of` expected_bytes)
          | None => false end = false) as ->.
  { destruct expected as [[p c]|]; [|done].
    by rewrite bool_decide_false by (by apply not_eq_sym, (Hexpected p c)). }
  rewrite Hf. cbn [map_err mbind result_bind]. by rewrite nothing_ahead.
Qed.

Lemma detached_loop expected paths files :
  NoDup paths →
  (∀ path, path ∈ paths → path = ev_path e ∨ harmless path ∧ path ≠ ev_path e) →
  (ev_path e ∈ paths → is_Some (t !! ev_path e)) →
  (expected = None ∧ ev_path e ∉ paths ∨ expected = Some (ev_path e, ev_frontier e)) →
  fold_result (check_detached t verified origin first expected) files paths
  = Ok (files ++ (if bool_decide (ev_path e ∈ paths) then [(ev_path e, "frontier.json")] else [])).
Proof.
  revert files. induction paths as [|path paths IH]; intros files Hnd Hall Hthere Hexpected.
  { cbn. rewrite bool_decide_false by set_solver. by rewrite app_nil_r. }
  apply NoDup_cons in Hnd as [Hnew Hnd]. cbn [fold_result].
  destruct (Hall path ltac:(set_solver)) as [-> | [Hharmless Hne]].
  - destruct Hexpected as [[_ Hno] | Hexpected]; [set_solver |].
    rewrite (detached_ours _ _ Hexpected) by (apply Hthere; set_solver). cbn [mbind result_bind].
    rewrite IH; [| done | set_solver | done | by right].
    rewrite (bool_decide_false (_ ∈ paths)), (bool_decide_true (_ ∈ _ :: _)) by set_solver.
    by rewrite app_nil_r.
  - rewrite detached_harmless; [|naive_solver|done]. cbn [mbind result_bind].
    rewrite IH; [| done | set_solver | set_solver | set_solver]. do 2 f_equal.
    destruct (decide (ev_path e ∈ paths)).
    + by rewrite !bool_decide_true by set_solver.
    + by rewrite !bool_decide_false by set_solver.
Qed.

Lemma leftover_listing : ∃ paths,
  read_sorted_files (local_tree t) FRONTIERS ".json" = Ok paths ∧ NoDup paths ∧
  (ev_path e ∈ paths ↔ is_Some (t !! ev_path e)) ∧
  ∀ path, path ∈ paths → path = ev_path e ∨ harmless path ∧ path ≠ ev_path e.
Proof.
  destruct (st_frontiers Hsettled) as [Hdir _].
  destruct (read_sorted_files_local t FRONTIERS ".json") as (paths & Hrun & Hnd & Hin).
  { by eapply lookup_weaken, Hleft. }
  exists paths. split_and!; [done.. | |].
  - rewrite Hin. destruct (at_path _ Hattempt) as (hex & Hpath & Hhex). split.
    + intros (? & node & _ & _ & _ & Hnode). by exists node.
    + intros [node Hnode]. exists ("frontier-" +:+ hex +:+ ".json"), node. split_and!; [done | | | done].
      * apply padded_one_name; [by apply one_name_closed | | by apply one_name_closed].
        apply hex_one_name. unfold is_lower_hex_64 in Hhex. by apply andb_true_iff in Hhex as [_ ?].
      * apply ends_with_true. exists ("frontier-" +:+ hex). by rewrite append_assoc.
  - intros path (name & node & -> & Hone & Hsuffix & Hnode)%Hin.
    destruct (decide (FRONTIERS +:+ "/" +:+ name = ev_path e)) as [-> | Hne]; [by left | right].
    split; [|done]. destruct (frontier_file_ne name) as [Hns Hnm].
    pose proof (json_not_besides t name Hsuffix (lo_besides _ _ Hleft _ Hns Hnm Hne)) as Hsame.
    rewrite Hnode in Hsame. by eapply (st_detached Hsettled).
Qed.

Lemma untracked_leftover :
  for_each (check_untracked git_index git_history) evidence_files = Ok ().
Proof.
  apply for_each_Ok. intros [path name] Hin. assert (unknown_to_git path) as [Hi Hh].
  { unfold evidence_files in Hin.
    destruct (st_segment Hsettled) as (_ & _ & Hs), (st_manifest Hsettled) as (_ & _ & Hm),
      (at_fresh _ Hattempt) as (_ & _ & He).
    rewrite !elem_of_app in Hin. repeat case_match; set_solver. }
  unfold check_untracked. cbn [fst]. rewrite Hi. cbn. by rewrite Hh.
Qed.

Lemma identify_leftover :
  identify display git_index git_history t verified origin first (accepted_frontier_hash verified)
  = Ok evidence_files.
Proof.
  unfold identify. rewrite !bool_decide_true by (done || apply Hsettled). cbn [negb].
  cbn [bail_if mbind result_bind]. destruct leftover_segment as (-> & -> & _).
  cbn [mbind result_bind]. destruct leftover_listing as (paths & Hlist & Hnd & Hin & Hall).
  assert (∃ successor, (if is_some_b (t !! manifest) then
      b ← read_file (local_tree t) manifest;
      check_manifest t verified origin first (is_some_b (t !! segment)) b
    else Ok None) = Ok successor ∧ ∃ expected, expected_file successor = Ok expected ∧
      (expected = None ∧ ev_path e ∉ paths ∨ expected = Some (ev_path e, ev_frontier e)))
    as (successor & -> & expected & Hexpected & Hcases).
  { destruct (t !! manifest) as [node|] eqn:Hm; cbn [is_some_b].
    - destruct leftover_successor as (b & successor & Hb & Hc & Hs); [by rewrite Hm |].
      exists successor. rewrite Hb. cbn [mbind result_bind]. split; [done |].
      destruct Hs as [[-> Hno] | Hs].
      + exists None. split; [done | left]. split; [done |]. rewrite Hin, Hno. by intros [].
      + exists (Some (ev_path e, ev_frontier e)). by split; [| right].
    - exists None. split; [done |]. exists None. split; [done | left]. split; [done |].
      rewrite Hin. destruct (lo_frontier _ _ Hleft) as [-> | [_ ?]]; [by intros [] | congruence]. }
  cbn [mbind result_bind]. rewrite Hexpected. cbn [mbind result_bind]. rewrite Hlist.
  cbn [mbind result_bind]. rewrite detached_loop; [| done | done | by apply Hin | done].
  cbn [mbind result_bind app]. assert (bool_decide (ev_path e ∈ paths) = is_some_b (t !! ev_path e)) as ->.
  { destruct (t !! ev_path e) as [node|]; cbn.
    - apply bool_decide_eq_true, Hin. by exists node.
    - apply bool_decide_eq_false. rewrite Hin. by intros []. }
  fold evidence_files. by rewrite untracked_leftover.
Qed.

(** The accepted history verifies next to the leftovers. *)
Lemma leftover_verifies : verify_compact fuel (local_tree t) = Ok verified.
Proof.
  apply (verify_compact_frame _ _ (local_tree_extends _ _ (lo_base _ _ Hleft))), Hsettled.
Qed.

Lemma plan_leftover :
  plan_recovery display git_index git_history fuel t origin first (accepted_frontier_hash verified)
  = Ok (if is_some_b (t !! segment) then Some (verified, evidence_files) else None).
Proof.
  unfold plan_recovery, entry_exists.
  assert (negb (is_some_b (t !! segment)) && negb (is_some_b (t !! manifest))
          = negb (is_some_b (t !! segment))) as ->.
  { destruct (t !! segment) as [|] eqn:Hs; [done |]. cbn.
    destruct (lo_manifest _ _ Hleft) as [-> | [_ ?]]; done. }
  destruct (t !! segment) as [node|]; cbn [is_some_b negb]; [|done].
  rewrite leftover_verifies. cbn [mbind result_bind]. by rewrite identify_leftover.
Qed.

(** Without a segment nothing is left. *)
Lemma leftover_none : t !! segment = None → clear t.
Proof.
  intros Hs. assert (t !! manifest = None) as Hm.
  { by destruct (lo_manifest _ _ Hleft) as [? | [_ ?]]. }
  assert (t !! ev_path e = None) as He.
  { destruct (lo_frontier _ _ Hleft) as [? | [_ ?]]; [done | congruence]. }
  split; [apply Hleft |]. intros q.
  destruct (st_segment Hsettled) as (Hbs & _), (st_manifest Hsettled) as (Hbm & _),
    (at_fresh _ Hattempt) as (Hbe & _).
  destruct (decide (q = segment)) as [-> |]; [left; congruence |].
  destruct (decide (q = manifest)) as [-> |]; [left; congruence |].
  destruct (decide (q = ev_path e)) as [-> |]; [left; congruence |].
  by apply (lo_besides _ _ Hleft).
Qed.
End leftover.

(** A clear tree is a leftover of any append that has written nothing. *)
Lemma clear_none t path : settled → clear t → base !! path = None →
  ¬ temporary path → ¬ made path → t !! path = None.
Proof.
  intros _ Hclear Hnone Ht Hm. destruct (cl_besides _ Hclear path) as [-> | (_ & [? | [? _]])]; done.
Qed.

Lemma not_temporary_names :
  ¬ temporary segment ∧ ¬ temporary manifest ∧
  ∀ hex, ¬ temporary (FRONTIERS +:+ "/" +:+ ("frontier-" +:+ hex +:+ ".json")).
Proof.
  split_and!.
  - rewrite segment_name. intros (ulid & _ & [Ht | Ht]); [|done].
    rewrite segment_temp_name in Ht. by apply (inj (String.append (events_of origin))) in Ht.
  - by intros (ulid & _ & [Ht | Ht]).
  - by intros hex (ulid & _ & [Ht | Ht]).
Qed.

Lemma not_made path : path = segment ∨ path = manifest ∨
  (∃ hex, path = FRONTIERS +:+ "/" +:+ ("frontier-" +:+ hex +:+ ".json")) → ¬ made path.
Proof.
  intros Hpath Hm. destruct (needed_no_file path (or_introl Hm)) as (? & ? & _ & Hno).
  destruct Hpath as [? | [? | (hex & ?)]]; [done.. | by eapply Hno].
Qed.

Lemma clear_leftover e t : settled → attempt e → clear t → leftover e t.
Proof.
  intros Hsettled Hattempt Hclear. destruct not_temporary_names as (Hts & Htm & Hte).
  destruct (at_path _ Hattempt) as (hex & Hpath & _).
  split; [apply Hclear | intros q _ _ _; apply Hclear | left..].
  - apply clear_none; [done.. | apply Hsettled | done | apply not_made; auto].
  - apply clear_none; [done.. | apply Hsettled | done | apply not_made; auto].
  - apply clear_none; [done.. | apply Hattempt | by rewrite Hpath | apply not_made; eauto].
Qed.

(** ** Moving the evidence *)

Lemma preserve_Ok retained file s s' :
  preserve retained file s = Ok s' → ∃ node,
    canonical s !! file.1 = Some node ∧ canonical s' = delete file.1 (canonical s) ∧
    local s' = <[retained +:+ "/" +:+ file.2 := node]> (local s).
Proof.
  unfold preserve. intros (plain & _ & Hrun)%bind_Ok.
  destruct (canonical s !! file.1) as [[content links| |]|]; [|by repeat case_match..].
  exists (LocalFile content links). by repeat case_match; simplify_eq.
Qed.

Lemma preserve_total retained file s content :
  canonical s !! file.1 = Some (LocalFile content 1) → above file.1 (canonical s) →
  local s !! (retained +:+ "/" +:+ file.2) = None → ∃ s', preserve retained file s = Ok s'.
Proof.
  intros Hfile Ha Hnone. unfold preserve. rewrite (plain_true _ _ _ Ha Hfile).
  cbn [mbind result_bind]. rewrite Hfile, Hnone. by eexists.
Qed.

Definition preserve_all (retained : string) (files : list (string * string)) (s : Files)
    : result V2StoreError Files := fold_result (λ s file, preserve retained file s) s files.

Lemma perform_preserve retained files s :
  perform_all ((λ file, Atomic (preserve retained file)) <$> files) s
  = preserve_all retained files s.
Proof.
  unfold perform_all, preserve_all. revert s.
  induction files as [|file files IH]; intros s; [done |]. cbn.
  destruct (preserve retained file s); [|done]. apply IH.
Qed.

Lemma target_inj retained a b :
  retained +:+ "/" +:+ a = retained +:+ "/" +:+ b → a = b.
Proof. intros He. by apply (inj (String.append retained)), (inj (String.append "/")) in He. Qed.

(** Every file that was moved is where it belongs, and nothing else changed. *)
Lemma preserve_all_Ok retained files s s' :
  preserve_all retained files s = Ok s' → NoDup files.*1 → NoDup files.*2 →
  (∀ q, q ∉ files.*1 → canonical s' !! q = canonical s !! q) ∧
  (∀ q, q ∈ files.*1 → canonical s' !! q = None) ∧
  (∀ file, file ∈ files → local s' !! (retained +:+ "/" +:+ file.2) = canonical s !! file.1) ∧
  ∀ q, (∀ file, file ∈ files → q ≠ retained +:+ "/" +:+ file.2) → local s' !! q = local s !! q.
Proof.
  unfold preserve_all. revert s. induction files as [|file files IH]; cbn; intros s.
  { intros [= <-] _ _. split_and!; set_solver. }
  intros (s1 & (node & Hnode & Hc & Hl)%preserve_Ok & Hrun)%bind_Ok [Hn1 Hnd1]%NoDup_cons
    [Hn2 Hnd2]%NoDup_cons.
  destruct (IH _ Hrun Hnd1 Hnd2) as (Hout & Hin & Hmoved & Hlocal). split_and!.
  - intros q [Hq Hqs]%not_elem_of_cons. rewrite Hout, Hc by done. by apply lookup_delete_ne.
  - intros q [-> | Hq]%elem_of_cons; [|by apply Hin].
    rewrite Hout, Hc by done. apply lookup_delete_eq.
  - intros f [-> | Hf]%elem_of_cons.
    + rewrite Hlocal, Hl, lookup_insert_eq; [done |]. intros f Hf Heq%target_inj.
      apply Hn2. rewrite Heq. by apply list_elem_of_fmap_2.
    + rewrite Hmoved, Hc by done. apply lookup_delete_ne. intros Heq. apply Hn1. rewrite Heq.
      by apply list_elem_of_fmap_2.
  - intros q Hq. rewrite Hlocal by (intros f Hf; apply Hq; set_solver).
    rewrite Hl. apply lookup_insert_ne. apply not_eq_sym, Hq. set_solver.
Qed.

Lemma preserve_all_total retained files s :
  NoDup files.*1 → NoDup files.*2 →
  (∀ file, file ∈ files →
    (∃ content, canonical s !! file.1 = Some (LocalFile content 1)) ∧ above file.1 (canonical s)) →
  (∀ file, file ∈ files → local s !! (retained +:+ "/" +:+ file.2) = None) →
  ∃ s', preserve_all retained files s = Ok s'.
Proof.
  unfold preserve_all. revert s. induction files as [|file files IH]; cbn; intros s; [by eexists |].
  intros [Hn1 Hnd1]%NoDup_cons [Hn2 Hnd2]%NoDup_cons Hfiles Hfree.
  destruct (Hfiles file ltac:(set_solver)) as [[content Hc] Ha].
  destruct (preserve_total retained file s content Hc Ha (Hfree file ltac:(set_solver))) as [s1 Hs1].
  rewrite Hs1. cbn. apply preserve_Ok in Hs1 as (node & Hnode & Hc1 & Hl1). apply IH; [done.. | |].
  - intros f Hf. destruct (Hfiles f ltac:(set_solver)) as [[cf Hcf] Haf]. rewrite Hc1.
    assert (f.1 ≠ file.1) as Hne.
    { intros Heq. apply Hn1. rewrite <- Heq. by apply list_elem_of_fmap_2. }
    split; [exists cf; by rewrite lookup_delete_ne |]. intros d Hd. rewrite lookup_delete_ne.
    + by apply Haf.
    + intros <-. specialize (Haf _ Hd). congruence.
  - intros f Hf. rewrite Hl1, lookup_insert_ne; [apply Hfree; set_solver |].
    intros Heq%target_inj. apply Hn2. rewrite Heq. by apply list_elem_of_fmap_2.
Qed.

(** ** The directory that retains it *)

Definition retained_at (ulid : string) : string := RECOVERY_ROOT +:+ "/" +:+ ulid.

(** The client's own directory, with nothing under a name that was never used. *)
Record place (ulid : string) (l : LocalTree) : Prop := {
  pl_name : one_name ulid;
  pl_local : l !! "local" = None ∨ l !! "local" = Some LocalDirectory;
  pl_root : l !! RECOVERY_ROOT = None ∨ l !! RECOVERY_ROOT = Some LocalDirectory;
  pl_fresh : l !! retained_at ulid = None;
  pl_empty : ∀ name, l !! (retained_at ulid +:+ "/" +:+ name) = None;
}.

Lemma ensure_total path l :
  l !! path = None ∨ l !! path = Some LocalDirectory →
  ensure_durable_directory path l = Ok (<[path := LocalDirectory]> l).
Proof.
  unfold ensure_durable_directory. intros [-> | Hd]; [done |]. rewrite Hd.
  by rewrite insert_id.
Qed.

Lemma retained_ne ulid name :
  retained_at ulid ≠ "local" ∧ retained_at ulid ≠ RECOVERY_ROOT ∧
  retained_at ulid +:+ "/" +:+ name ≠ "local" ∧
  retained_at ulid +:+ "/" +:+ name ≠ RECOVERY_ROOT ∧
  retained_at ulid +:+ "/" +:+ name ≠ retained_at ulid.
Proof.
  split_and!; try done. intros He. unfold retained_at in He. by apply eq_sym, append_longer in He.
Qed.

Lemma parents_retained ulid name : one_name ulid → one_name name →
  parents (retained_at ulid +:+ "/" +:+ name) = ["local"; RECOVERY_ROOT; retained_at ulid].
Proof. intros Hulid Hname. unfold retained_at. by rewrite !parents_child by done. Qed.

Lemma on_local_at f s l :
  f (local s) = Ok l → on_local f s = Ok {| canonical := canonical s; local := l |}.
Proof. unfold on_local. by intros ->. Qed.

(** The effects up to the first move succeed and stay in the client's own directory. *)
Lemma recovery_prepared ulid files content s :
  place ulid (local s) → to_vec_pretty (evidence_json verified origin first files) = Ok content →
  ∃ l, perform_all (take 5 (recovery_effects to_vec_pretty (retained_at ulid) verified origin first
                              files)) s = Ok {| canonical := canonical s; local := l |} ∧
    ∀ name, name ≠ "recovery.json" → l !! (retained_at ulid +:+ "/" +:+ name) = None.
Proof.
  intros Hplace Hcontent. destruct Hplace as [Hname Hlocal Hroot Hfresh Hempty].
  unfold recovery_effects, perform_all. rewrite Hcontent. cbn [map_err take app fold_result perform].
  erewrite on_local_at by (by apply ensure_total). cbn [mbind result_bind].
  erewrite on_local_at by (apply ensure_total; cbn [local]; by rewrite lookup_insert_ne).
  cbn [mbind result_bind].
  destruct (retained_ne ulid "recovery.json") as (Hr1 & Hr2 & Hr3 & Hr4 & Hr5).
  erewrite on_local_at by (unfold create_recovery_directory; cbn [local];
    by rewrite !lookup_insert_ne, Hfresh by done). cbn [mbind result_bind local canonical].
  set (l3 := <[retained_at ulid := LocalDirectory]> _).
  assert (∀ name, l3 !! (retained_at ulid +:+ "/" +:+ name) = None) as Hl3.
  { intros name. destruct (retained_ne ulid name) as (? & ? & ? & ? & ?). unfold l3.
    by rewrite !lookup_insert_ne. }
  destruct (create_new_total "create parent directory" "create immutable file"
    (retained_at ulid +:+ "/" +:+ "recovery.json") content l3) as [l Hl].
  { intros d. rewrite parents_retained by (done || by apply one_name_closed).
    rewrite !elem_of_cons, elem_of_nil. intros [-> | [-> | [-> | []]]]; right; unfold l3;
      rewrite ?lookup_insert_eq, ?lookup_insert_ne, ?lookup_insert_eq by done; done. }
  { apply Hl3. }
  { apply parents_no_self. }
  exists l. erewrite on_local_at by exact Hl. split; [done |]. intros name Hname'.
  apply create_new_Ok in Hl as (_ & _ & _ & Hsame).
  destruct (Hsame (retained_at ulid +:+ "/" +:+ name)) as [-> | (Hin & _)]; [|apply Hl3|].
  - by intros ?%target_inj.
  - rewrite parents_retained in Hin by (done || by apply one_name_closed).
    destruct (retained_ne ulid name) as (? & ? & ? & ? & ?). set_solver.
Qed.

(** ** A recovery, whole or in part *)

Section moving.
Context (e : Evidence) (t : LocalTree).
Context (Hsettled : settled) (Hattempt : attempt e) (Hleft : leftover e t).

#[local] Abbreviation files := (evidence_files e t).

Lemma evidence_in path name : (path, name) ∈ files →
  (path = ev_path e ∨ path = manifest ∨ path = segment) ∧ name ≠ "recovery.json" ∧
  (∃ content, t !! path = Some (LocalFile content 1)) ∧ above path t.
Proof.
  unfold evidence_files. rewrite !elem_of_app. intros [Hin | [Hin | Hin]].
  - destruct (lo_frontier _ _ Hleft) as [Hn | [(p & _ & Hs & Ha) _]];
      [rewrite Hn in Hin | rewrite Hs in Hin]; cbn in Hin; [set_solver |].
    apply list_elem_of_singleton in Hin as [= -> ->]. split_and!; eauto.
  - destruct (lo_manifest _ _ Hleft) as [Hn | [(p & _ & Hs & Ha) _]];
      [rewrite Hn in Hin | rewrite Hs in Hin]; cbn in Hin; [set_solver |].
    apply list_elem_of_singleton in Hin as [= -> ->]. split_and!; eauto.
  - destruct (lo_segment _ _ Hleft) as [Hn | [Hs Ha]];
      [rewrite Hn in Hin | rewrite Hs in Hin]; cbn in Hin; [set_solver |].
    apply list_elem_of_singleton in Hin as [= -> ->]. split_and!; eauto.
Qed.

Lemma evidence_NoDup : NoDup files.*1 ∧ NoDup files.*2.
Proof.
  destruct (ev_path_ne _ Hattempt) as [Hs Hm]. pose proof segment_ne_manifest as Hsm.
  unfold evidence_files.
  destruct (t !! ev_path e), (t !! manifest), (t !! segment); cbn [is_some_b app fmap list_fmap fst snd];
    split; repeat (apply NoDup_cons; split; [set_solver |]); constructor.
Qed.

(** Frontier before manifest before segment. *)
Lemma evidence_order k :
  (segment ∈ (take k files).*1 → t !! manifest = None ∨ manifest ∈ (take k files).*1) ∧
  (manifest ∈ (take k files).*1 → t !! ev_path e = None ∨ ev_path e ∈ (take k files).*1).
Proof.
  destruct (ev_path_ne _ Hattempt) as [Hs Hm]. pose proof segment_ne_manifest as Hsm.
  unfold evidence_files.
  destruct (t !! ev_path e), (t !! manifest), (t !! segment); cbn [is_some_b app];
    destruct k as [|[|[|k]]]; cbn [take fmap list_fmap fst]; rewrite ?take_nil; set_solver.
Qed.

(** With the first [k] of them moved it is still the leftover of the same append. *)
Lemma leftover_moved k t' :
  (∀ q, q ∉ (take k files).*1 → t' !! q = t !! q) →
  (∀ q, q ∈ (take k files).*1 → t' !! q = None) → leftover e t'.
Proof.
  intros Hout Hin. set (m := (take k files).*1) in *. destruct (evidence_order k) as [Ho1 Ho2].
  fold m in Ho1, Ho2.
  assert (∀ q, q ∈ m → q = ev_path e ∨ q = manifest ∨ q = segment) as Hm.
  { intros q ([path name] & -> & Hf)%list_elem_of_fmap.
    by apply elem_of_take in Hf as (? & [? _]%list_elem_of_lookup_2%evidence_in & _). }
  assert (∀ d, t !! d = Some LocalDirectory → t' !! d = Some LocalDirectory) as Hdir.
  { intros d Hd. rewrite Hout; [done |]. intros ([path name] & -> & Hf)%list_elem_of_fmap.
    apply elem_of_take in Hf as (? & Hf%list_elem_of_lookup_2%evidence_in & _).
    destruct Hf as (_ & _ & [c Hc] & _). cbn in Hd. congruence. }
  assert (∀ path, above path t → above path t') as Habove by (intros path Ha d Hd; by apply Hdir, Ha).
  assert (∀ q, t' !! q = None ∨ q ∉ m ∧ t' !! q = t !! q) as Hcases.
  { intros q. destruct (decide (q ∈ m)); [left; by apply Hin | right; auto]. }
  destruct (st_segment Hsettled) as (Hbs & _), (st_manifest Hsettled) as (Hbm & _),
    (at_fresh _ Hattempt) as (Hbe & _).
  split.
  - apply map_subseteq_spec. intros q node Hq. rewrite Hout; [by eapply lookup_weaken, Hleft |].
    intros Hqm%Hm. naive_solver congruence.
  - intros q Hqs Hqm Hqe. assert (q ∉ m) as Hq by (intros ?%Hm; naive_solver).
    destruct (lo_besides _ _ Hleft q Hqs Hqm Hqe) as [Hsame | [Hb Hrest]].
    + left. by rewrite Hout.
    + right. split; [done |]. destruct Hrest as [? | [? ?]]; [by left | right]. by rewrite Hout.
  - destruct (Hcases segment) as [? | [Hs ->]]; [by left |].
    destruct (lo_segment _ _ Hleft) as [? | [? ?]]; [by left | right]. auto.
  - destruct (Hcases manifest) as [? | [Hs Hsame]]; [by left |]. unfold cut_file. rewrite Hsame.
    destruct (lo_manifest _ _ Hleft) as [? | [(p & ? & Hp & ?) Hne]]; [by left | right].
    split; [exists p; auto |]. destruct (decide (segment ∈ m)) as [[? | ?]%Ho1 | ?]; [congruence | done |].
    by rewrite Hout.
  - destruct (Hcases (ev_path e)) as [? | [Hs Hsame]]; [by left |]. unfold cut_file. rewrite Hsame.
    destruct (lo_frontier _ _ Hleft) as [? | [(p & ? & Hp & ?) Hmm]]; [by left | right].
    split; [exists p; auto |]. destruct (decide (manifest ∈ m)) as [[? | ?]%Ho2 | ?]; [congruence | done |].
    by rewrite Hout.
Qed.
End moving.

(** A recovery that is stopped anywhere leaves a leftover of the same append. *)
Lemma crashes_preserve retained fs s s' :
  crashes ((λ file, Atomic (preserve retained file)) <$> fs) s s' →
  ∃ k, preserve_all retained (take k fs) s = Ok s'.
Proof.
  revert s. induction fs as [|file fs IH]; intros s Hcrash.
  - inversion Hcrash; subst. by exists 0.
  - inversion Hcrash as [| | |? ? ? s1 ? Hrun Hrest]; subst; [by exists 0 |].
    destruct (IH _ Hrest) as [k Hk]. exists (S k). unfold preserve_all. cbn [take fold_result].
    cbn in Hrun. rewrite Hrun. exact Hk.
Qed.

Lemma crashes_app es es' s s' : crashes (es ++ es') s s' →
  crashes es s s' ∨ ∃ s1, perform_all es s = Ok s1 ∧ crashes es' s1 s'.
Proof.
  revert s. induction es as [|x es IH]; intros s Hcrash; cbn in Hcrash.
  - right. by exists s.
  - inversion Hcrash as [| | |? ? ? s1 ? Hrun Hrest]; subst.
    + left. apply crash_before.
    + left. by apply crash_in_canonical.
    + left. by apply crash_in_local.
    + destruct (IH _ Hrest) as [? | (s2 & Hs2 & ?)].
      * left. by eapply crash_after.
      * right. exists s2. split; [|done]. unfold perform_all in *. cbn [fold_result]. by rewrite Hrun.
Qed.

(** An effect of the client's own directory. *)
Definition local_effect (x : Effect) : Prop :=
  match x with
  | Atomic f => ∀ s s', f s = Ok s' → canonical s' = canonical s
  | WriteCanonical _ _ _ _ => False
  | WriteLocal _ _ _ _ => True
  end.

Lemma perform_local es s s' : Forall local_effect es → perform_all es s = Ok s' →
  canonical s' = canonical s.
Proof.
  intros Hes. unfold perform_all. revert s. induction Hes as [|x es Hx _ IH]; cbn; intros s.
  - by intros [= ->].
  - intros (s1 & Hs1 & ->%IH)%bind_Ok. destruct x; cbn in *; [by apply Hx | done |].
    by apply on_local_Ok in Hs1 as [_ ?].
Qed.

Lemma crashes_local es s s' : Forall local_effect es → crashes es s s' → canonical s' = canonical s.
Proof.
  intros Hes Hcrash. revert Hes.
  induction Hcrash as [| | |x es s s1 s' Hs1 _ IH]; intros Hes; [done | | done |].
  - by apply Forall_cons in Hes as [[] _].
  - apply Forall_cons in Hes as [Hx Hes]. rewrite IH by done.
    destruct x; cbn in *; [by apply Hx | done |]. by apply on_local_Ok in Hs1 as [_ ?].
Qed.

Lemma recovery_effects_split v retained fs :
  recovery_effects to_vec_pretty retained v origin first fs
  = take 5 (recovery_effects to_vec_pretty retained v origin first fs)
    ++ ((λ file, Atomic (preserve retained file)) <$> fs).
Proof. done. Qed.

Lemma recovery_effects_local v retained fs :
  Forall local_effect (take 5 (recovery_effects to_vec_pretty retained v origin first fs)).
Proof.
  unfold recovery_effects. cbn [take app].
  repeat (apply Forall_cons; split; [cbn; intros; try done |]); try done.
  1-3: by match goal with Hrun : _ = Ok _ |- _ => apply on_local_Ok in Hrun as [_ ?] end.
  by match goal with Hrun : _ = Ok _ |- _ => apply bind_Ok in Hrun as (? & _ & [= <-]) end.
Qed.

Lemma recovery_crash e ulid s s' :
  settled → attempt e → leftover e (canonical s) →
  crashes (recovery_effects to_vec_pretty (retained_at ulid) verified origin first
             (evidence_files e (canonical s))) s s' →
  leftover e (canonical s').
Proof.
  intros Hsettled Hattempt Hleft. rewrite recovery_effects_split.
  intros [Hcrash | (s1 & Hs1 & [k Hk]%crashes_preserve)]%crashes_app.
  - by rewrite (crashes_local _ _ _ (recovery_effects_local _ _ _) Hcrash).
  - pose proof (perform_local _ _ _ (recovery_effects_local _ _ _) Hs1) as Hc.
    edestruct (evidence_NoDup e (canonical s)) as [Hnd1 Hnd2]; [done.. |].
    apply preserve_all_Ok in Hk as (Hout & Hin & _);
      [| rewrite fmap_take; eapply sublist_NoDup, sublist_take; assumption..].
    rewrite Hc in Hout. by eapply leftover_moved.
Qed.

(** The next recovery finds the evidence, moves all of it out of the canonical tree and keeps
    every byte. *)
Lemma recovery_succeeds e ulid s :
  settled → attempt e → leftover e (canonical s) → place ulid (local s) →
  (∀ v, ∃ b, to_vec_pretty v = Ok b) → ∃ moved s',
    recover_unpublished_append display to_vec_pretty git_index git_history fuel origin first
      (accepted_frontier_hash verified) ulid s = Ok (moved, s') ∧
    clear (canonical s') ∧
    ∀ q node, canonical s !! q = Some node → canonical s' !! q = Some node ∨
      ∃ retained name, moved = Some retained ∧ local s' !! (retained +:+ "/" +:+ name) = Some node.
Proof.
  intros Hsettled Hattempt Hleft Hplace Hpretty. unfold recover_unpublished_append.
  rewrite (plan_leftover e) by done. cbn [mbind result_bind].
  destruct (canonical s !! segment) as [node|] eqn:Hseg; cbn [is_some_b]; last first.
  { exists None, s. split_and!; [done | by eapply leftover_none | by left]. }
  change (RECOVERY_ROOT +:+ "/" +:+ ulid) with (retained_at ulid).
  set (fs := evidence_files e (canonical s)). rewrite recovery_effects_split.
  destruct (Hpretty (evidence_json verified origin first fs)) as [content Hcontent].
  destruct (recovery_prepared ulid fs content s Hplace Hcontent) as (l & Hl & Hempty).
  edestruct (evidence_NoDup e (canonical s)) as [Hnd1 Hnd2]; [done.. |].
  destruct (preserve_all_total (retained_at ulid) fs {| canonical := canonical s; local := l |})
    as [s' Hs']; [done.. | | |].
  { intros [path name] Hin. eapply evidence_in in Hin; [|done..]. naive_solver. }
  { intros [path name] Hin. eapply evidence_in in Hin; [|done..]. apply Hempty. naive_solver. }
  exists (Some (retained_at ulid)), s'.
  pose proof (preserve_all_Ok _ _ _ _ Hs' Hnd1 Hnd2) as (Hout & Hin & Hmoved & _).
  split_and!.
  - unfold perform_all. rewrite fold_result_app. unfold perform_all in Hl. rewrite Hl.
    cbn [mbind result_bind]. fold (perform_all ((λ file, Atomic (preserve (retained_at ulid) file)) <$> fs)
      {| canonical := canonical s; local := l |}). by rewrite perform_preserve, Hs'.
  - apply (leftover_none e); [done.. | |].
    + apply (leftover_moved e (canonical s) Hsettled Hattempt Hleft (length fs)); rewrite firstn_all;
        [apply Hout | apply Hin].
    + apply Hin, list_elem_of_fmap. exists (segment, "segment.jsonl"). split; [done |].
      unfold fs, evidence_files. rewrite Hseg, !elem_of_app. right. right. by left.
  - intros q n Hq. destruct (decide (q ∈ fs.*1)) as [Hf | Hf]; [|left; by rewrite Hout].
    right. apply list_elem_of_fmap in Hf as (file & -> & Hf). exists (retained_at ulid), file.2.
    split; [done |]. by rewrite Hmoved.
Qed.

(** ** An append, stopped anywhere *)

(** The effects of [seal_effects] before the last. *)
Definition unfinished (e : Evidence) (ulid1 ulid2 : string) (head : bytes) : list Effect :=
  let write := WriteCanonical "create parent directory" "create immutable file" in
  [WriteCanonical "create origin segment directory" "create segment temporary file"
     (segment_temp origin ulid1) (ev_segment e);
   Atomic (on_canonical (rename_file "publish immutable segment" (segment_temp origin ulid1) segment));
   write manifest (ev_manifest e);
   write (ev_path e) (ev_frontier e);
   write (head_temp ulid2) head].

Definition grows (t t' : LocalTree) (q : string) : Prop :=
  t' !! q = t !! q ∨ needed q ∧ t !! q = None ∧ t' !! q = Some LocalDirectory ∨
  temporary q ∧ base !! q = None ∧ t !! q ≠ Some LocalDirectory.

Lemma partly_Ok path content t t' :
  partly_created path content t t' →
  (∀ q, q ≠ path → t' !! q = t !! q ∨
     (q ∈ parents path ∧ t !! q = None ∧ t' !! q = Some LocalDirectory)) ∧
  (t' !! path = t !! path ∨
   t !! path = None ∧ ∃ p, p `prefix_of` content ∧ t' !! path = Some (LocalFile p 1) ∧ above path t').
Proof.
  intros (make & create & n & [[_ Hsame]%make_directories_Ok |
    (p & Hp & (Hnone & Hnew & Hdirs & Hsame)%create_new_Ok)]).
  - split.
    + intros q _. destruct (Hsame q) as [? | (Hq & ? & ?)]; [by left | right].
      split; [|done]. by eapply elem_of_take in Hq as (? & ?%list_elem_of_lookup_2 & _).
    + destruct (Hsame path) as [? | (Hq & ? & ?)]; [by left |].
      destruct (parents_no_self path).
      by eapply elem_of_take in Hq as (? & ?%list_elem_of_lookup_2 & _).
  - split; [done | right]. split; [done |]. by exists p.
Qed.

Lemma create_partly make create path content t t' :
  create_new make create path content t = Ok t' → partly_created path content t t'.
Proof. intros Hrun. exists make, create, 0. right. by exists content. Qed.

Section growing.
Context (e : Evidence) (t t' : LocalTree).
Context (Hsettled : settled) (Hattempt : attempt e) (Hleft : leftover e t).

Lemma needed_parents path :
  path = segment ∨ path = manifest ∨ path = ev_path e ∨ temporary path →
  ∀ d, d ∈ parents path → needed d.
Proof.
  intros Hpath d. assert (∀ name, one_name name → d ∈ parents (FRONTIERS +:+ "/" +:+ name) → needed d)
    as Hfrontier.
  { intros name Hname. rewrite parents_in_frontiers by done. rewrite !elem_of_cons, elem_of_nil.
    intros [-> | [-> | []]]; right; auto. }
  destruct Hpath as [-> | [-> | [-> | (ulid & Hulid & [-> | ->])]]].
  - intros Hd. left. by left.
  - intros Hd. left. by right.
  - destruct (at_path _ Hattempt) as (hex & -> & Hhex). apply Hfrontier.
    apply padded_one_name; [by apply one_name_closed | | by apply one_name_closed].
    apply hex_one_name. unfold is_lower_hex_64 in Hhex. by apply andb_true_iff in Hhex as [_ ?].
  - rewrite parents_segment_temp by done. intros Hd. left. by left.
  - rewrite head_temp_name. apply Hfrontier.
    apply padded_one_name; [by apply one_name_closed | done | by apply one_name_closed].
Qed.

Lemma needed_ne d : needed d → d ≠ segment ∧ d ≠ manifest ∧ d ≠ ev_path e ∧ ¬ temporary d.
Proof.
  intros (? & ? & ? & Hno)%needed_no_file. destruct (at_path _ Hattempt) as (hex & -> & _).
  by split_and!.
Qed.

Lemma grows_core :
  (∀ q, q ≠ segment → q ≠ manifest → q ≠ ev_path e → grows t t' q) →
  base ⊆ t' ∧ (∀ q, q ≠ segment → q ≠ manifest → q ≠ ev_path e → besides t' q) ∧
  ∀ path, path = segment ∨ path = manifest ∨ path = ev_path e → above path t → above path t'.
Proof.
  intros Hgrows. destruct (st_segment Hsettled) as (Hbs & _), (st_manifest Hsettled) as (Hbm & _),
    (at_fresh _ Hattempt) as (Hbe & _). split_and!.
  - apply map_subseteq_spec. intros q node Hq.
    destruct (Hgrows q) as [-> | [(_ & Hn & _) | (_ & Hn & _)]]; [congruence.. | | |].
    + by eapply lookup_weaken, Hleft.
    + by rewrite (lookup_weaken _ _ _ _ Hq (lo_base _ _ Hleft)) in Hn.
    + congruence.
  - intros q Hn1 Hn2 Hn3. destruct (lo_besides _ _ Hleft q Hn1 Hn2 Hn3) as [Hb | [Hb Hrest]].
    + destruct (Hgrows q Hn1 Hn2 Hn3) as [Hsame | [(Hneed & Hn & Hd) | (Ht & Hn & _)]].
      * left. congruence.
      * right. split; [congruence | right]. split; [|done].
        destruct Hneed as [? | Hf]; [done |]. destruct (st_frontiers Hsettled) as [Hf1 Hf2].
        destruct Hf as [-> | ->]; congruence.
      * right. split; [done |]. by left.
    + right. split; [done |]. destruct Hrest as [? | [Hm Hd]]; [by left |].
      destruct (Hgrows q Hn1 Hn2 Hn3) as [Hsame | [(_ & Hn & _) | (Ht & _ & _)]]; [| congruence | by left].
      right. split; [done | congruence].
  - intros path Hpath Ha d Hd. assert (needed d) as Hneed.
    { apply (needed_parents path); [naive_solver | done]. }
    destruct (needed_ne d Hneed) as (Hn1 & Hn2 & Hn3 & Hn4).
    destruct (Hgrows d Hn1 Hn2 Hn3) as [-> | [(_ & _ & ?) | (? & _)]]; [by apply Ha | done..].
Qed.

Lemma partly_grows path content :
  partly_created path content t t' →
  path = segment ∨ path = manifest ∨ path = ev_path e ∨ temporary path →
  ∀ q, q ≠ path → grows t t' q.
Proof.
  intros [Hsame _]%partly_Ok Hpath q Hq. destruct (Hsame q Hq) as [? | (Hd & ? & ?)]; [by left |].
  right. left. split; [|done]. by eapply needed_parents.
Qed.

(** What is not a directory and not the new file stays as it was. *)
Lemma partly_same path content q :
  partly_created path content t t' →
  path = segment ∨ path = manifest ∨ path = ev_path e ∨ temporary path →
  q = segment ∨ q = manifest ∨ q = ev_path e → q ≠ path → t' !! q = t !! q.
Proof.
  intros [Hsame _]%partly_Ok Hpath Hq Hne. destruct (Hsame q Hne) as [? | (Hd & _)]; [done |].
  destruct (needed_ne q); [by eapply needed_parents | naive_solver].
Qed.
End growing.

Lemma leftover_partly_temporary e t t' path content :
  settled → attempt e → leftover e t → temporary path → partly_created path content t t' →
  leftover e t'.
Proof.
  intros Hsettled Hattempt Hleft Htemp Hpart.
  assert (path ≠ segment ∧ path ≠ manifest ∧ path ≠ ev_path e) as (Hn1 & Hn2 & Hn3).
  { destruct not_temporary_names as (? & ? & Hte).
    destruct (at_path _ Hattempt) as (hex & Hpath & _). rewrite Hpath.
    split_and!; intros ->; [done.. |]. by eapply Hte. }
  assert (∀ q, q = segment ∨ q = manifest ∨ q = ev_path e → t' !! q = t !! q) as Hsame.
  { intros q Hq. eapply partly_same; [done | done | by right; right; right | done |]. naive_solver. }
  destruct (grows_core e t t' Hsettled Hattempt Hleft) as (Hbase & Hbesides & Habove).
  { intros q Hqs Hqm Hqe. destruct (decide (q = path)) as [-> | Hne].
    - apply partly_Ok in Hpart as [_ [? | (Hnone & _)]]; [by left |]. right. right.
      split_and!; [done | | congruence]. eapply lookup_weaken_None; [done | apply Hleft].
    - eapply partly_grows; [done | done | by right; right; right | done]. }
  split; [done | done | | |].
  - rewrite (Hsame segment) by auto. destruct (lo_segment _ _ Hleft) as [? | [? ?]]; auto.
  - unfold cut_file. rewrite (Hsame segment), (Hsame manifest) by auto.
    destruct (lo_manifest _ _ Hleft) as [? | [(p & ? & ? & ?) ?]]; [by left | right].
    split; [exists p; split_and!; auto | done].
  - unfold cut_file. rewrite (Hsame manifest), (Hsame (ev_path e)) by auto.
    destruct (lo_frontier _ _ Hleft) as [? | [(p & ? & ? & ?) ?]]; [by left | right].
    split; [exists p; split_and!; auto | done].
Qed.

(** Publishing the finished segment under its name. *)
Lemma leftover_renamed e t t' ulid :
  settled → attempt e → leftover e t → one_name ulid → t !! segment = None →
  base !! segment_temp origin ulid = None → above segment t →
  t !! segment_temp origin ulid = Some (LocalFile (ev_segment e) 1) →
  rename_file "publish immutable segment" (segment_temp origin ulid) segment t = Ok t' →
  leftover e t' ∧ t' !! segment = Some (LocalFile (ev_segment e) 1).
Proof.
  intros Hsettled Hattempt Hleft Hulid Hnone Hbtemp Hab Htemp Hrun.
  apply rename_file_Ok in Hrun as ((content & links & Hf & Hs) & Hgone & Hsame);
    [|apply segment_temp_ne].
  rewrite Htemp in Hf. injection Hf as <- <-.
  assert (temporary (segment_temp origin ulid)) as Htt by (exists ulid; auto).
  destruct not_temporary_names as (Hts & Htm & Hte).
  edestruct ev_path_ne as [Hes Hem]; [exact Hattempt |]. pose proof segment_ne_manifest as Hsm.
  assert (ev_path e ≠ segment_temp origin ulid) as Htee.
  { destruct (at_path _ Hattempt) as (hex & Hpath & _). rewrite Hpath. intros He.
    rewrite <- He in Htt. by eapply Hte. }
  assert (manifest ≠ segment_temp origin ulid) as Htme by (intros He; by rewrite <- He in Htt).
  assert (t !! manifest = None) as Hm.
  { by destruct (lo_manifest _ _ Hleft) as [? | [_ ?]]. }
  assert (t !! ev_path e = None) as He.
  { destruct (lo_frontier _ _ Hleft) as [? | [_ ?]]; [done | congruence]. }
  destruct (grows_core e t t' Hsettled Hattempt Hleft) as (Hbase & Hbesides & Habove).
  { intros q Hqs Hqm Hqe. destruct (decide (q = segment_temp origin ulid)) as [-> | Hne].
    - right. right. split_and!; [done | done | congruence].
    - left. by apply Hsame. }
  split; [|done]. split; [done | done | | |].
  - right. split; [done |]. apply Habove; auto.
  - left. rewrite Hsame by done. done.
  - left. by rewrite Hsame.
Qed.

Lemma leftover_partly_manifest e t t' :
  settled → attempt e → leftover e t → t !! segment = Some (LocalFile (ev_segment e) 1) →
  partly_created manifest (ev_manifest e) t t' →
  leftover e t' ∧ t' !! segment = Some (LocalFile (ev_segment e) 1).
Proof.
  intros Hsettled Hattempt Hleft Hseg Hpart.
  edestruct ev_path_ne as [Hes Hem]; [exact Hattempt |]. pose proof segment_ne_manifest as Hsm.
  assert (∀ q, q = segment ∨ q = ev_path e → t' !! q = t !! q) as Hsame.
  { intros q Hq. eapply partly_same; [done | done | auto | naive_solver |]. naive_solver. }
  destruct (grows_core e t t' Hsettled Hattempt Hleft) as (Hbase & Hbesides & Habove).
  { intros q Hqs Hqm Hqe. eapply partly_grows; [done | done | auto | done]. }
  rewrite (Hsame segment) by auto. split; [|done]. split; [done | done | | |].
  - right. rewrite (Hsame segment) by auto. split; [done |].
    destruct (lo_segment _ _ Hleft) as [? | [_ ?]]; [congruence |]. apply Habove; auto.
  - apply partly_Ok in Hpart as [_ [Hm | (_ & p & ? & ? & ?)]].
    + unfold cut_file. rewrite Hm, (Hsame segment) by auto.
      destruct (lo_manifest _ _ Hleft) as [? | [(p & ? & ? & ?) ?]]; [by left | right].
      split; [exists p; split_and!; auto | done].
    + right. rewrite (Hsame segment), Hseg by auto. split; [by exists p | done].
  - assert (t' !! manifest = t !! manifest ∨ t !! manifest = None) as Hm.
    { apply partly_Ok in Hpart as [_ [? | [? _]]]; auto. }
    unfold cut_file. rewrite (Hsame (ev_path e)) by auto.
    destruct (lo_frontier _ _ Hleft) as [? | [(p & ? & ? & ?) Hmm]]; [by left |].
    destruct Hm as [-> | ?]; [right | congruence].
    split; [exists p; split_and!; auto | done].
Qed.

Lemma leftover_partly_frontier e t t' :
  settled → attempt e → leftover e t → t !! manifest = Some (LocalFile (ev_manifest e) 1) →
  partly_created (ev_path e) (ev_frontier e) t t' → leftover e t'.
Proof.
  intros Hsettled Hattempt Hleft Hman Hpart.
  edestruct ev_path_ne as [Hes Hem]; [exact Hattempt |]. pose proof segment_ne_manifest as Hsm.
  assert (∀ q, q = segment ∨ q = manifest → t' !! q = t !! q) as Hsame.
  { intros q Hq. eapply partly_same; [done | done | auto | naive_solver |]. naive_solver. }
  destruct (grows_core e t t' Hsettled Hattempt Hleft) as (Hbase & Hbesides & Habove).
  { intros q Hqs Hqm Hqe. eapply partly_grows; [done | done | auto | done]. }
  split; [done | done | | |].
  - rewrite (Hsame segment) by auto. destruct (lo_segment _ _ Hleft) as [? | [? ?]]; auto.
  - unfold cut_file. rewrite (Hsame segment), (Hsame manifest) by auto.
    destruct (lo_manifest _ _ Hleft) as [? | [(p & ? & ? & ?) ?]]; [by left | right].
    split; [exists p; split_and!; auto | done].
  - rewrite (Hsame manifest) by auto. unfold cut_file.
    apply partly_Ok in Hpart as [_ [-> | (_ & p & ? & ? & ?)]].
    + destruct (lo_frontier _ _ Hleft) as [? | [(p & ? & ? & ?) Hmm]]; [by left | right].
      split; [exists p; split_and!; auto | done].
    + right. split; [by exists p | done].
Qed.

(** Wherever the append is stopped before it replaces [HEAD], its leftovers are those of an
    attempt. *)
Lemma append_crash e ulid1 ulid2 head s s' :
  settled → attempt e → one_name ulid1 → one_name ulid2 → clear (canonical s) →
  crashes (unfinished e ulid1 ulid2 head) s s' → leftover e (canonical s').
Proof.
  intros Hsettled Hattempt Hulid1 Hulid2 Hclear Hcrash.
  pose proof (clear_leftover e _ Hsettled Hattempt Hclear) as Hleft.
  assert (∀ ulid, one_name ulid → temporary (segment_temp origin ulid) ∧ temporary (head_temp ulid))
    as Htemps by (intros ulid Hulid; split; exists ulid; auto).
  destruct (Htemps _ Hulid1) as [Htt _], (Htemps _ Hulid2) as [_ Hth].
  unfold unfinished in Hcrash.
  inversion Hcrash as [|? ? ? ? ? ? t Hpart | |? ? ? s1 ? Hs1 Hcrash1]; subst; [done | | clear Hcrash].
  { exact (leftover_partly_temporary _ _ _ _ _ Hsettled Hattempt Hleft Htt Hpart). }
  cbn in Hs1. apply on_canonical_Ok in Hs1 as [Hs1 _].
  pose proof (leftover_partly_temporary _ _ _ _ _ Hsettled Hattempt Hleft Htt
    (create_partly _ _ _ _ _ _ Hs1)) as Hleft1.
  assert (canonical s1 !! segment = None) as Hnone.
  { erewrite (partly_same e); [| done | by eapply create_partly | auto | auto | apply not_eq_sym, segment_temp_ne].
    apply clear_none; [done.. | apply Hsettled | apply not_temporary_names | apply not_made; auto]. }
  apply create_new_Ok in Hs1 as (Hfresh & Htemp & Hdirs & _).
  rewrite parents_segment_temp in Hdirs by done.
  inversion Hcrash1 as [| | |? ? ? s2 ? Hs2 Hcrash2]; subst; [done | clear Hcrash1].
  cbn in Hs2. apply on_canonical_Ok in Hs2 as [Hs2 _].
  apply (leftover_renamed e) in Hs2 as [Hleft2 Hseg2];
    [| done.. | eapply lookup_weaken_None; [done | apply Hclear] | done | done].
  inversion Hcrash2 as [|? ? ? ? ? ? t Hpart | |? ? ? s3 ? Hs3 Hcrash3]; subst; [done | | clear Hcrash2].
  { cbn. by eapply leftover_partly_manifest. }
  cbn in Hs3. apply on_canonical_Ok in Hs3 as [Hs3 _].
  destruct (leftover_partly_manifest _ _ _ Hsettled Hattempt Hleft2 Hseg2
    (create_partly _ _ _ _ _ _ Hs3)) as [Hleft3 _].
  apply create_new_Ok in Hs3 as (_ & Hman3 & _).
  inversion Hcrash3 as [|? ? ? ? ? ? t Hpart | |? ? ? s4 ? Hs4 Hcrash4]; subst; [done | | clear Hcrash3].
  { cbn. by eapply leftover_partly_frontier. }
  cbn in Hs4. apply on_canonical_Ok in Hs4 as [Hs4 _].
  pose proof (leftover_partly_frontier _ _ _ Hsettled Hattempt Hleft3 Hman3
    (create_partly _ _ _ _ _ _ Hs4)) as Hleft4.
  inversion Hcrash4 as [|? ? ? ? ? ? t Hpart | |? ? ? s5 ? Hs5 Hcrash5]; subst; [done | | clear Hcrash4].
  { cbn. by eapply leftover_partly_temporary. }
  cbn in Hs5. apply on_canonical_Ok in Hs5 as [Hs5 _].
  inversion Hcrash5; subst. eapply leftover_partly_temporary; [done.. | by eapply create_partly].
Qed.

(** ** What an append writes is an attempt *)

Section attempted.
Context `{ToJson V2RecordEnvelope, ToJson Value, !Blake3Laws, !Ed25519Laws, !Base64Laws,
  !RecordJsonLaws, !ManifestJsonLaws, !ManifestEofLaws}.
Context (lower_ulid : nat → string) (key : SigningKey) (time : N) (operation_kind : string)
  (schema : N) (context defaults : Value) (items : stream) (turns : nat).

(** What is appended can be read back. *)
Record readable : Prop := {
  rd_ulids : ulids_ok lower_ulid;
  rd_context : json_readable 125 context;
  rd_defaults : json_readable 125 defaults;
  rd_items : stream_all (json_readable 124) items;
}.

#[local] Abbreviation tail := (find_origin (origins (accepted_frontier verified)) origin).
#[local] Abbreviation input :=
  (batch_input lower_ulid verified origin time operation_kind schema context defaults).

(** Nothing was ever stored under the name of the frontier. *)
Definition fresh_frontier (res : V2AppendResult) : Prop := ∃ path,
  frontier_path (result_frontier_hash res) = Ok path ∧ base !! path = None ∧ unknown_to_git path.

Lemma first_of_tail : settled → first_sequence tail = Ok first.
Proof.
  intros Hsettled. unfold first_sequence. apply ok_or_Ok. pose proof (st_first Hsettled) as Hf.
  by destruct tail.
Qed.

Lemma settled_starts : settled → starts_at first (event_hash <$> tail).
Proof.
  intros Hsettled. pose proof (first_of_tail Hsettled) as [-> _]%ok_or_Ok%checked_add_u64_Some.
  destruct (verify_compact_side _ _ _ (st_verified Hsettled)) as (_ & [Hwf _ _ _] & _).
  unfold starts_at. destruct tail as [o|] eqn:Ht; cbn.
  - apply find_origin_elem in Ht as [Ht _]. destruct (wf_origins _ Hwf o Ht) as [_ Hseq Hevent _].
    split_and!; [lia | split; [done | lia] | congruence].
  - by split_and!.
Qed.

Lemma write_segment_bytes first' previous f :
  write_segment lower_ulid input first' previous items turns = Some (Ok f) →
  (written_bytes (file f) <= u64_max)%N.
Proof.
  unfold write_segment. intros Hrun.
  match type of Hrun with match ?m with _ => _ end = _ => destruct m as [[h p0]|e]; [|done] end.
  destruct (pack_chunks _ _ _ _) as [[p|e]|]; [|done..]. apply (inj Some) in Hrun.
  apply bind_Ok in Hrun as ([last_hash w] & Hcomplete & [= <-]). cbn [file].
  unfold write_complete in Hcomplete. apply bind_Ok in Hcomplete as ([] & _ & Hcomplete).
  apply bind_Ok in Hcomplete as (digest & _ & Hcomplete).
  apply bind_Ok in Hcomplete as (line & _ & Hcomplete).
  apply bind_Ok in Hcomplete as ([] & _ & Hcomplete).
  apply bind_Ok in Hcomplete as (w1 & Hw1 & Hcomplete).
  apply bind_Ok in Hcomplete as (w2 & Hw2 & [= _ <-]).
  unfold write_streamed_record in Hw1. apply bind_Ok in Hw1 as ([] & _ & Hw1).
  apply bind_Ok in Hw1 as (total & [-> Htotal]%ok_or_Ok%checked_add_u64_Some & [= <-]).
  unfold count_record in Hw2. by apply bind_Ok in Hw2 as (count & _ & [= <-]).
Qed.


(** Everything [check_manifest] asks of the manifest an append writes. *)
Lemma sealed_checks f m hash content t :
  settled → readable → validate_item_defaults schema defaults = Ok () →
  check_active_client verified origin key = Ok () →
  write_segment lower_ulid input first (event_hash <$> tail) items turns = Some (Ok f) →
  create_manifest (seal_body verified tail input first f) key = Ok m →
  manifest_hash m = Ok hash → to_json m = Ok content →
  tree_read (local_tree t) segment = Ok (file_bytes (file f)) →
  check_manifest t verified origin first true content
  = Ok (Some (successor_frontier verified (next_tail input f hash))).
Proof.
  intros Hsettled [Hulids Hcontext Hdefault Hitems] Hdefaults Hclient Hwrite Hm Hhash Hjson Hread.
  edestruct (write_segment_Ok lower_ulid input Hulids) as (start & complete & cs & Hsw);
    [exact Horigin | apply Hulids | exact Hdefaults | done | done | done | by apply settled_starts |
     exact Hwrite |].
  destruct (sw_records _ _ _ _ _ _ _ _ Hsw) as [Hlines _ Hbytes _ _ _ _].
  assert (blake3_identifier (file_bytes (file f))
    = "blake3:" +:+ hasher_finalize_hex (segment_hasher (file f))) as Hblake
    by (eapply (so_far_blake3 lower_ulid input Hulids Horigin); [apply Hulids | apply Hsw]).
  apply (create_manifest_verifies lower_ulid input Hulids Horigin (proj2 (Hulids 0))) in Hm as [Hbody Hverify].
  unfold check_active_client in Hclient. apply bind_Ok in Hclient as (c & Hc%ok_or_Ok & Hclient).
  apply bind_Ok in Hclient as ([] & _ & Hkey%bail_if_Ok).
  apply negb_false_iff, bool_decide_eq_true_1 in Hkey.
  unfold Recovery.check_manifest. rewrite (manifest_json_read m content Hjson), Hc.
  cbn [ok_or mbind result_bind]. rewrite <- Hkey, key_from_to_bytes. cbn [ok_or mbind result_bind].
  rewrite Hverify. cbn [map_err mbind result_bind].
  rewrite (proj2 (canonical_json_Ok _ _) Hjson). cbn [mbind result_bind].
  rewrite Hbody. cbn [seal_body manifest_archive_id manifest_genesis_hash manifest_origin_id
    Segment.first_seq segment_path causal_base_frontier_hash previous_segment_manifest_hash
    Segment.segment_bytes Segment.segment_blake3 Segment.last_seq Segment.last_record_hash].
  rewrite N.eqb_refl, !bool_decide_true by done. cbn [negb orb bail_if mbind result_bind].
  rewrite <- Hblake, Hbytes. rewrite verify_segment_file_total; [| exact Hread | | ]; cycle 1.
  { rewrite <- Hbytes. by eapply write_segment_bytes. }
  { apply file_ends_with_newline. by rewrite Hlines. }
  cbn [map_err mbind result_bind]. rewrite Hhash. cbn [mbind result_bind].
  destruct (verify_compact_side _ _ _ (st_verified Hsettled)) as (_ & [Hwf _ Ha Hg] & _).
  unfold recovered_successor, successor_frontier. by rewrite (wf_version _ Hwf), Ha, Hg.
Qed.

(** The effects before the last are those of an attempt, if its frontier is new. *)
Lemma append_attempt ulid1 ulid2 res es :
  settled → readable → fresh_frontier res →
  append_effects lower_ulid verified origin key time operation_kind schema context defaults items
    turns (segment_temp origin ulid1) (head_temp ulid2) = Some (Ok (res, es)) →
  ∃ e head, take 5 es = unfinished e ulid1 ulid2 head ∧ attempt e.
Proof.
  intros Hsettled Hreadable (fpath & Hfpath & Hfnone & Hfgit) Hrun. unfold append_effects in Hrun.
  destruct (validate_item_defaults schema defaults) as [[]|] eqn:Hdefaults; [|done].
  cbn [mbind result_bind] in Hrun.
  destruct (check_active_client verified origin key) as [[]|] eqn:Hclient; [|done].
  cbn [mbind result_bind] in Hrun. rewrite (first_of_tail Hsettled) in Hrun.
  destruct (write_segment _ _ _ _ _ _) as [[f|]|] eqn:Hwrite; [|done..].
  apply (inj Some) in Hrun.
  change (seal_effects verified tail key input first f (segment_temp origin ulid1) (head_temp ulid2)
    = Ok (res, es)) in Hrun. unfold seal_effects in Hrun.
  apply bind_Ok in Hrun as (m & Hm & Hrun). apply bind_Ok in Hrun as (hash & Hhash & Hrun).
  apply bind_Ok in Hrun as (content & Hcontent%canonical_json_Ok & Hrun).
  apply bind_Ok in Hrun as (accepted & Haccepted & Hrun).
  apply bind_Ok in Hrun as (path & Hpath & Hrun).
  apply bind_Ok in Hrun as (fcontent & Hfcontent & [= <- <-]).
  cbn [result_frontier_hash] in Hfpath. rewrite Hfpath in Hpath. injection Hpath as ->.
  exists {| ev_segment := file_bytes (file f); ev_manifest := content; ev_path := path;
            ev_frontier := fcontent |}, (as_bytes (accepted +:+ newline)).
  split; [done |]. pose proof (proj1 (frontier_path_Ok _ _) Hfpath) as (hex & Hhex & Hid & Hname).
  split; cbn [ev_segment ev_manifest ev_path ev_frontier].
  - intros t Ht. exists (successor_frontier verified (next_tail input f hash)).
    split; [by eapply sealed_checks |]. unfold expected_file. rewrite Haccepted.
    cbn [mbind result_bind]. rewrite Hfpath. cbn [mbind result_bind]. by rewrite Hfcontent.
  - intros t p Hp Hne. unfold Recovery.check_manifest.
    destruct (manifest_cut_short m content p Hcontent Hp Hne) as (err & -> & Heof). by rewrite Heof.
  - exists hex. split; [done |]. rewrite Hhex in Hid. apply is_blake3_identifier_true in Hid as (hex' & Heq & Hlow).
    by apply (inj (String.append "blake3:")) in Heq as ->.
  - split_and!; [done | | done].
    destruct (verify_compact_side _ _ _ (st_verified Hsettled)) as (_ & _ & Hstored & _).
    unfold names_accepted. rewrite Hname.
    change ("frontiers/v2/frontier-" +:+ hex +:+ ".json")
      with ((FRONTIERS +:+ "/") +:+ ("frontier-" +:+ hex +:+ ".json")).
    rewrite strip_prefix_app. cbn [mbind option_bind].
    change ("frontier-" +:+ hex +:+ ".json") with ("frontier-" +:+ (hex +:+ ".json")).
    rewrite <- append_assoc, (proj2 (strip_suffix_Some _ _ _) eq_refl). cbn [mbind option_bind].
    rewrite strip_prefix_app. rewrite <- Hhex.
    destruct (frontiers verified !! accepted) as [g|] eqn:Hg; [|done].
    destruct (Hstored accepted) as (path' & c & Hp' & Hc); [by eexists |].
    rewrite Hfpath in Hp'. injection Hp' as <-.
    apply tree_read_local in Hc as (links & Hc). congruence.
Qed.
End attempted.

(** ** Any number of interruptions *)

Section lifetime.
Context `{ToJson V2RecordEnvelope, ToJson Value, !Blake3Laws, !Ed25519Laws, !Base64Laws,
  !RecordJsonLaws, !ManifestJsonLaws, !ManifestEofLaws}.

#[local] Abbreviation recover :=
  (recover_unpublished_append display to_vec_pretty git_index git_history fuel origin first
    (accepted_frontier_hash verified)).

(** The states of the files from the accepted tree on, while no append reaches its last
    effect: recoveries that finish, recoveries that are stopped, appends that are stopped
    while they write their segment, and appends that are stopped later. The client's own
    directory may change in any way in between. *)
Inductive lifetime : Files → Prop :=
  | life_start s : clear (canonical s) → lifetime s
  | life_local s l : lifetime s → lifetime {| canonical := canonical s; local := l |}
  | life_recovered s ulid moved s' : lifetime s → recover ulid s = Ok (moved, s') → lifetime s'
  | life_recovery_stopped s ulid v files s' :
      lifetime s →
      plan_recovery display git_index git_history fuel (canonical s) origin first
        (accepted_frontier_hash verified) = Ok (Some (v, files)) →
      crashes (recovery_effects to_vec_pretty (retained_at ulid) v origin first files) s s' →
      lifetime s'
  | life_segment_stopped s ulid moved s1 ulid1 content t :
      lifetime s → recover ulid s = Ok (moved, s1) → one_name ulid1 →
      partly_created (segment_temp origin ulid1) content (canonical s1) t →
      lifetime {| canonical := t; local := local s1 |}
  | life_append_stopped s ulid moved s1 lower_ulid key time operation_kind schema context
      defaults items turns ulid1 ulid2 res es s' :
      lifetime s → recover ulid s = Ok (moved, s1) → one_name ulid1 → one_name ulid2 →
      readable lower_ulid context defaults items →
      append_effects lower_ulid verified origin key time operation_kind schema context defaults
        items turns (segment_temp origin ulid1) (head_temp ulid2) = Some (Ok (res, es)) →
      fresh_frontier res →
      crashes (take 5 es) s1 s' → lifetime s'.

(** Nothing is left, or the files of one append. *)
Definition recoverable (t : LocalTree) : Prop := clear t ∨ ∃ e, attempt e ∧ leftover e t.

Lemma clear_segment_none t : settled → clear t → t !! segment = None ∧ t !! manifest = None.
Proof.
  intros Hsettled Hclear. destruct not_temporary_names as (? & ? & _).
  split; (apply clear_none; [done.. | apply Hsettled | done | apply not_made; auto]).
Qed.

Lemma plan_clear t : settled → clear t →
  plan_recovery display git_index git_history fuel t origin first (accepted_frontier_hash verified)
  = Ok None.
Proof.
  intros Hsettled Hclear. destruct (clear_segment_none t Hsettled Hclear) as [Hs Hm].
  unfold plan_recovery, entry_exists. by rewrite Hs, Hm.
Qed.

Lemma recover_clear ulid s :
  settled → clear (canonical s) → recover ulid s = Ok (None, s).
Proof. intros Hsettled Hclear. unfold recover_unpublished_append. by rewrite plan_clear. Qed.

Lemma recovered_clear ulid s moved s' :
  settled → recoverable (canonical s) → recover ulid s = Ok (moved, s') → clear (canonical s').
Proof.
  intros Hsettled Hrec Hrun. unfold recover_unpublished_append in Hrun.
  destruct Hrec as [Hclear | (e & Hattempt & Hleft)].
  { rewrite plan_clear in Hrun by done. by injection Hrun as <- <-. }
  rewrite (plan_leftover e) in Hrun by done. cbn [mbind result_bind] in Hrun.
  destruct (canonical s !! segment) as [node|] eqn:Hseg; cbn [is_some_b] in Hrun; last first.
  { injection Hrun as <- <-. by eapply leftover_none. }
  apply bind_Ok in Hrun as (s2 & Hs2%map_err_Ok & [= <- <-]).
  change (RECOVERY_ROOT +:+ "/" +:+ ulid) with (retained_at ulid) in Hs2.
  rewrite recovery_effects_split in Hs2. unfold perform_all in Hs2. rewrite fold_result_app in Hs2.
  apply bind_Ok in Hs2 as (s1 & Hs1 & Hs2).
  apply (perform_local _ _ _ (recovery_effects_local _ _ _)) in Hs1.
  change (perform_all ((λ file, Atomic (preserve (retained_at ulid) file))
    <$> evidence_files e (canonical s)) s1 = Ok s2) in Hs2. rewrite perform_preserve in Hs2.
  edestruct (evidence_NoDup e (canonical s)) as [Hnd1 Hnd2]; [done.. |].
  apply preserve_all_Ok in Hs2 as (Hout & Hin & _); [|done..]. rewrite Hs1 in Hout.
  apply (leftover_none e); [done.. | |].
  - apply (leftover_moved e (canonical s) Hsettled Hattempt Hleft
      (length (evidence_files e (canonical s)))); rewrite firstn_all; [apply Hout | apply Hin].
  - apply Hin, list_elem_of_fmap. exists (segment, "segment.jsonl"). split; [done |].
    unfold evidence_files. rewrite Hseg, !elem_of_app. right. right. by left.
Qed.

Lemma clear_partly_temporary t t' ulid content :
  clear t → one_name ulid → partly_created (segment_temp origin ulid) content t t' → clear t'.
Proof.
  intros [Hbase Hbesides] Hulid [Hsame Htemp]%partly_Ok.
  rewrite parents_segment_temp in Hsame by done. split.
  - apply map_subseteq_spec. intros q node Hq. pose proof (lookup_weaken _ _ _ _ Hq Hbase) as Ht.
    destruct (decide (q = segment_temp origin ulid)) as [-> | Hne].
    + destruct Htemp as [-> | [? _]]; [done | congruence].
    + destruct (Hsame q Hne) as [-> | (_ & ? & _)]; [done | congruence].
  - intros q. destruct (decide (q = segment_temp origin ulid)) as [-> | Hne].
    + destruct Htemp as [Ht | (Hnone & _)].
      * unfold besides. rewrite Ht. apply Hbesides.
      * right. split; [by eapply lookup_weaken_None | left]. exists ulid. auto.
    + destruct (Hsame q Hne) as [Hq | (Hd & Hnone & Hdir)].
      * unfold besides. rewrite Hq. apply Hbesides.
      * right. split; [by eapply lookup_weaken_None | right]. split; [by left | done].
Qed.

(** The invariant, by induction on the steps. *)
Lemma lifetime_recoverable s : settled → lifetime s → recoverable (canonical s).
Proof.
  intros Hsettled Hlife. induction Hlife as
    [s Hclear | s l _ IH | s ulid moved s' _ IH Hrun | s ulid v files s' _ IH Hplan Hcrash
    | s ulid moved s1 ulid1 content t _ IH Hrun Hulid1 Hpart
    | s ulid moved s1 lower_ulid key time kind schema context defaults items turns ulid1 ulid2
        res es s' _ IH Hrun Hulid1 Hulid2 Hreadable Heffects Hfresh Hcrash].
  - by left.
  - done.
  - left. by eapply recovered_clear.
  - destruct IH as [Hclear | (e & Hattempt & Hleft)].
    { by rewrite plan_clear in Hplan. }
    rewrite (plan_leftover e) in Hplan by done.
    destruct (canonical s !! segment); [|done]. injection Hplan as <- <-.
    right. exists e. split; [done |]. by eapply recovery_crash.
  - left. eapply clear_partly_temporary; [|done..]. by eapply recovered_clear.
  - edestruct append_attempt as (e & head & Htake & Hattempt); [done.. |].
    right. exists e. split; [done |]. rewrite Htake in Hcrash.
    apply (append_crash e ulid1 ulid2 head s1); try done. by eapply recovered_clear.
Qed.

(** C6: no interruption harms accepted history. After any number of appends stopped before
    their last effect, and of recoveries finished or stopped anywhere, every accepted file is
    in place with its bytes, and verification accepts the tree with the same result. *)
Theorem interruptions_keep_history s :
  settled → lifetime s →
  base ⊆ canonical s ∧ verify_compact fuel (local_tree (canonical s)) = Ok verified.
Proof.
  intros Hsettled [Hclear | (e & Hattempt & Hleft)]%lifetime_recoverable; [| |done].
  - split; [apply Hclear |].
    apply (verify_compact_frame _ _ (local_tree_extends _ _ (cl_base _ Hclear))), Hsettled.
  - split; [apply Hleft | by eapply leftover_verifies].
Qed.

(** C7: the next recovery always succeeds. In every state that interruptions lead to, with a
    name that is free in the client's own directory, recovery ends without an error. After it
    the canonical tree holds the accepted files, and besides them at most what recovery never
    looks for: temporary files and new directories. Every segment, manifest or frontier of an
    unpublished append that was there is moved out, and no file loses its bytes: each node is
    where it was, or in the directory the recovery reports. *)
Theorem next_recovery_succeeds s ulid :
  settled → lifetime s → place ulid (local s) → (∀ v, ∃ b, to_vec_pretty v = Ok b) →
  ∃ moved s', recover ulid s = Ok (moved, s') ∧ clear (canonical s') ∧
    ∀ q node, canonical s !! q = Some node → canonical s' !! q = Some node ∨
      ∃ retained name, moved = Some retained ∧ local s' !! (retained +:+ "/" +:+ name) = Some node.
Proof.
  intros Hsettled [Hclear | (e & Hattempt & Hleft)]%lifetime_recoverable Hplace Hpretty; [| |done].
  - exists None, s. rewrite recover_clear by done. split_and!; [done.. |]. by left.
  - by eapply recovery_succeeds.
Qed.
End lifetime.

(** ** What recovery may touch *)

Lemma check_untracked_Ok file u :
  check_untracked git_index git_history file = Ok u → unknown_to_git file.1.
Proof.
  unfold check_untracked. intros (index & Hi & Hrun)%bind_Ok.
  apply bind_Ok in Hrun as ([] & Hie%bail_if_Ok%negb_false_iff & Hrun).
  apply bind_Ok in Hrun as (history & Hh & Hhe%bail_if_Ok%negb_false_iff).
  apply str_is_empty_true in Hie as ->. by apply str_is_empty_true in Hhe as ->.
Qed.

(** The loop over the detached frontiers finds at most the expected file. *)
Lemma detached_found t v expected paths files files' :
  fold_result (check_detached t v origin first expected) files paths = Ok files' →
  NoDup paths → files' = files ∨ ∃ path b, expected = Some (path, b) ∧ path ∈ paths ∧
    names_accepted (frontiers v) path = false ∧ files' = files ++ [(path, "frontier.json")].
Proof.
  revert files. induction paths as [|path paths IH]; cbn; intros files.
  { intros [= <-] _. by left. }
  intros (files1 & Hstep & Hrun)%bind_Ok [Hnew Hnd]%NoDup_cons.
  assert (files1 = files ∨ ∃ b, expected = Some (path, b) ∧
    names_accepted (frontiers v) path = false ∧ files1 = files ++ [(path, "frontier.json")]) as Hfiles1.
  { unfold check_detached in Hstep. destruct (names_accepted (frontiers v) path) eqn:Hna.
    { injection Hstep as <-. by left. }
    apply bind_Ok in Hstep as (plain & _ & Hstep). apply bind_Ok in Hstep as (b & _ & Hstep).
    match type of Hstep with (if ?c then _ else _) = _ => destruct c eqn:Hours end.
    - injection Hstep as <-. right. destruct expected as [[p c]|]; [|done].
      apply andb_true_iff in Hours as [->%bool_decide_eq_true _]. by exists c.
    - apply bind_Ok in Hstep as (f & _ & Hstep). apply bind_Ok in Hstep as ([] & _ & [= <-]). by left. }
  destruct (IH _ Hrun Hnd) as [-> | (p & b & Hexp & Hp & Hna & ->)].
  - destruct Hfiles1 as [-> | (b & Hexp & Hna & ->)]; [by left | right].
    exists path, b. split_and!; [done | set_solver | done..].
  - destruct Hfiles1 as [-> | (b' & Hexp' & _)].
    + right. exists p, b. split_and!; [done | set_solver | done..].
    + rewrite Hexp in Hexp'. injection Hexp' as -> ->. done.
Qed.

(** A file recovery may move. *)
Definition unpublished (v : VerifiedV2Archive) (q : string) : Prop :=
  unknown_to_git q ∧ (q = segment ∨ q = manifest ∨
    names_accepted (frontiers v) q = false ∧
    ∃ hex, q = FRONTIERS +:+ "/" +:+ ("frontier-" +:+ hex +:+ ".json")).

Lemma identify_Ok t v head files :
  identify display git_index git_history t v origin first head = Ok files →
  accepted_frontier_hash v = head ∧ Forall (λ file, unpublished v file.1) files ∧
  NoDup files.*1 ∧ NoDup files.*2.
Proof.
  unfold identify. intros ([] & Hhead%bail_if_Ok & Hrun)%bind_Ok.
  apply negb_false_iff, bool_decide_eq_true_1 in Hhead.
  apply bind_Ok in Hrun as ([] & _ & Hrun). apply bind_Ok in Hrun as (se & _ & Hrun).
  apply bind_Ok in Hrun as (me & _ & Hrun). apply bind_Ok in Hrun as (successor & _ & Hrun).
  apply bind_Ok in Hrun as (expected & Hexpected & Hrun).
  apply bind_Ok in Hrun as (paths & Hpaths & Hrun). apply bind_Ok in Hrun as (found & Hfound & Hrun).
  apply bind_Ok in Hrun as (u & Huntracked & [= <-]).
  rewrite for_each_Ok in Huntracked. split; [done |].
  unfold read_sorted_files in Hpaths. apply bind_Ok in Hpaths as (names & _ & Hpaths).
  apply bind_Ok in Hpaths as ([] & Hnd%bail_if_Ok & [= <-]).
  apply negb_false_iff, bool_decide_eq_true_1 in Hnd.
  apply detached_found in Hfound; [|done].
  assert (found = [] ∨ ∃ path hex, found = [(path, "frontier.json")] ∧
    names_accepted (frontiers v) path = false ∧
    path = FRONTIERS +:+ "/" +:+ ("frontier-" +:+ hex +:+ ".json")) as Hf.
  { destruct Hfound as [-> | (path & b & -> & _ & Hna & ->)]; [by left | right].
    destruct successor as [f|]; [|done]. cbn in Hexpected.
    apply bind_Ok in Hexpected as (hash & _ & Hexpected).
    apply bind_Ok in Hexpected as (path' & Hpath & Hexpected).
    apply bind_Ok in Hexpected as (b' & _ & [= <- <-]).
    apply frontier_path_Ok in Hpath as (hex & _ & _ & ->). by eexists _, hex. }
  clear Hfound. pose proof segment_ne_manifest as Hsm. split.
  - apply Forall_forall. intros file Hfile. split; [by eapply check_untracked_Ok, Huntracked |].
    rewrite !elem_of_app in Hfile. destruct Hfile as [Hfile | [Hfile | Hfile]].
    + destruct Hf as [-> | (path & hex & -> & Hna & Hpath)]; [set_solver |].
      apply list_elem_of_singleton in Hfile as ->. right. right. split; [done | by exists hex].
    + destruct me; [|set_solver]. apply list_elem_of_singleton in Hfile as ->. auto.
    + destruct se; [|set_solver]. apply list_elem_of_singleton in Hfile as ->. auto.
  - assert (NoDup [segment; manifest]) by (repeat (apply NoDup_cons; split; [set_solver |]); constructor).
    destruct Hf as [-> | (path & hex & -> & _ & Hpath)].
    + destruct me, se; cbn; split; repeat (apply NoDup_cons; split; [set_solver |]); constructor.
    + destruct (frontier_file_ne ("frontier-" +:+ hex +:+ ".json")) as [Hs Hm].
      rewrite <- Hpath in Hs, Hm.
      destruct me, se; cbn; split; repeat (apply NoDup_cons; split; [set_solver |]); constructor.
Qed.

(** C23: recovery never touches accepted history. Whatever the tree holds, a recovery that
    succeeds leaves every file of the canonical tree as it was but those it preserved: the
    client's next segment or manifest, or one frontier that no accepted history names; Git
    knew none of them, the tree verified at the expected head, and what was moved is in the
    client's own directory, byte for byte. *)
Theorem recovery_moves_only_unpublished head ulid s moved s' :
  recover_unpublished_append display to_vec_pretty git_index git_history fuel origin first head
    ulid s = Ok (moved, s') →
  ∀ q, canonical s' !! q = canonical s !! q ∨
    ∃ v retained name, verify_compact fuel (local_tree (canonical s)) = Ok v ∧
      accepted_frontier_hash v = head ∧ unpublished v q ∧ canonical s' !! q = None ∧
      moved = Some retained ∧ local s' !! (retained +:+ "/" +:+ name) = canonical s !! q.
Proof.
  unfold recover_unpublished_append. intros (plan & Hplan & Hrun)%bind_Ok q.
  destruct plan as [[v files]|]; [|injection Hrun as <- <-; by left].
  unfold plan_recovery in Hplan. destruct (negb _ && negb _); [done |].
  apply bind_Ok in Hplan as (v' & Hv & Hplan).
  apply bind_Ok in Hplan as (files' & (Hhead & Hfiles & Hnd1 & Hnd2)%map_err_Ok%identify_Ok & [= -> ->]).
  apply bind_Ok in Hrun as (s2 & Hs2%map_err_Ok & [= <- <-]).
  change (RECOVERY_ROOT +:+ "/" +:+ ulid) with (retained_at ulid) in *.
  rewrite recovery_effects_split in Hs2. unfold perform_all in Hs2. rewrite fold_result_app in Hs2.
  apply bind_Ok in Hs2 as (s1 & Hs1 & Hs2).
  pose proof (perform_local _ _ _ (recovery_effects_local _ _ _) Hs1) as Hs.
  change (perform_all ((λ file, Atomic (preserve (retained_at ulid) file)) <$> files) s1 = Ok s2)
    in Hs2. rewrite perform_preserve in Hs2.
  apply preserve_all_Ok in Hs2 as (Hout & Hin & Hmoved & _); [|done..]. rewrite Hs in Hout, Hmoved.
  destruct (decide (q ∈ files.*1)) as [Hq | Hq]; [right | left; by apply Hout].
  exists v, (retained_at ulid). pose proof (Hin q Hq) as Hnone.
  apply list_elem_of_fmap in Hq as (file & -> & Hfile). exists file.2.
  rewrite Forall_forall in Hfiles. split_and!; try done; [by apply Hfiles | by apply Hmoved].
Qed.
End interrupted.
