(* ===== verification/Interaction.v ===== *)
(** Programs that interact: a computation that calls its environment and goes on with the
    answer, several of them running at once over one shared world, and the weakest
    precondition their theorems use.

    [wp] is a rely-guarantee reading. Before each of its calls a program tolerates everything
    the rest of the system may have done meanwhile ([later]); its own call must again be
    something the others tolerate. [pool_sound] carries this to any interleaving of any
    number of programs that start at any time. *)
From Stdlib Require Import ZArith NArith Lia Ascii.
From stdpp Require Import base decidable list gmap strings sorting.
From S2P Require Import Prelude.

(** The calls a program can make, and the type of what each one answers. *)
Class Interface := {
  Call : Type;
  answer : Call → Type;
}.

Inductive prog `{Interface} (A : Type) : Type :=
  | Ret (a : A)
  | Do (c : Call) (k : answer c → prog A).
Arguments Ret {_ A} a.
Arguments Do {_ A} c k.

Fixpoint prog_bind `{Interface} {A B} (p : prog A) (k : A → prog B) : prog B :=
  match p with
  | Ret a => k a
  | Do c k' => Do c (λ r, prog_bind (k' r) k)
  end.

(** Interacting code that may fail: [?] stops with the error. *)
Definition action `{Interface} (E A : Type) : Type := prog (result E A).

#[export] Instance action_ret `{Interface} E : MRet (action E) := λ A a, Ret (Ok a).

#[export] Instance action_bind `{Interface} E : MBind (action E) := λ A B k m,
  prog_bind m (λ r, match r with Ok a => k a | Err e => Ret (Err e) end).

(** A pure step; a call whose answer is a result; a call that cannot fail. *)
Definition pure `{Interface} {E A} (m : result E A) : action E A := Ret m.
Definition ask `{Interface} {E} (c : Call) : action E (answer c) := Do c (λ r, Ret (Ok r)).

(** [let _ = m]: the outcome is dropped. *)
Definition ignoring `{Interface} {E A} (m : action E A) : action E () :=
  prog_bind m (λ _, Ret (Ok ())).

(** On every path, whatever the answers, at most [n] of the calls [counted] marks. *)
Fixpoint calls_within `{Interface} (counted : Call → bool) {A} (n : nat) (p : prog A) : Prop :=
  match p with
  | Ret _ => True
  | Do c k =>
      if counted c then
        match n with O => False | S n => ∀ r, calls_within counted n (k r) end
      else ∀ r, calls_within counted n (k r)
  end.

Section counting.
Context `{Interface} (counted : Call → bool).

Lemma calls_within_le {A} (p : prog A) n m :
  n <= m → calls_within counted n p → calls_within counted m p.
Proof.
  revert n m. induction p as [a | c k IH]; cbn; intros n m Hle Hp; [done |].
  destruct (counted c); [|by eauto].
  destruct n as [|n]; [done |]. destruct m as [|m]; [lia |].
  intros r. apply (IH r n); [lia | done].
Qed.

Lemma calls_within_bind {A B} (p : prog A) (k : A → prog B) n m :
  calls_within counted n p → (∀ a, calls_within counted m (k a)) →
  calls_within counted (n + m) (prog_bind p k).
Proof.
  revert n. induction p as [a | c k' IH]; cbn; intros n Hp Hk.
  - by apply (calls_within_le _ m); [lia |].
  - destruct (counted c); [|by intros r; apply IH].
    destruct n as [|n]; [done |]. cbn. intros r. by apply IH.
Qed.

Lemma calls_within_mbind {E A B} (p : action E A) (k : A → action E B) n m :
  calls_within counted n p → (∀ a, calls_within counted m (k a)) →
  calls_within counted (n + m) (p ≫= k).
Proof. intros Hp Hk. apply calls_within_bind; [done |]. by intros [a | e]. Qed.

Lemma calls_within_assoc {A B C} (p : prog A) (f : A → prog B) (g : B → prog C) n :
  calls_within counted n (prog_bind p (λ a, prog_bind (f a) g)) →
  calls_within counted n (prog_bind (prog_bind p f) g).
Proof.
  revert n. induction p as [a | c k IH]; cbn; intros n Hp; [done |].
  destruct (counted c), n; eauto.
Qed.

(** Uncounted before; uncounted after. *)
Lemma calls_within_after {E A B} (p : action E A) (k : A → action E B) n :
  calls_within counted 0 p → (∀ a, calls_within counted n (k a)) →
  calls_within counted n (p ≫= k).
Proof. apply calls_within_mbind. Qed.

Lemma calls_within_before {E A B} (p : action E A) (k : A → action E B) n :
  calls_within counted n p → (∀ a, calls_within counted 0 (k a)) →
  calls_within counted n (p ≫= k).
Proof. intros. rewrite <- (Nat.add_0_r n). by apply calls_within_mbind. Qed.
End counting.

Section rely.
Context `{Interface} {World : Type}.

(** What a call may answer and do in a world; what happens without a call. *)
Context (exec : World → ∀ c : Call, answer c → World → Prop) (drift : World → World → Prop).

(** How worlds may evolve, and the invariant of the protocol. *)
Context (grows : relation World) `{!PreOrder grows} (good : World → Prop).

Definition later (w w' : World) : Prop := grows w w' ∧ good w'.

Fixpoint wp {A} (p : prog A) (Q : A → World → Prop) (w : World) : Prop :=
  match p with
  | Ret a => ∀ w', later w w' → Q a w'
  | Do c k => ∀ w1 r w2, later w w1 → exec w1 c r w2 → later w1 w2 ∧ wp (k r) Q w2
  end.

(** The postcondition speaks of success only. *)
Definition on_ok {E A} (Q : A → World → Prop) (r : result E A) (w : World) : Prop :=
  match r with Ok a => Q a w | Err _ => True end.

Definition wpx {E A} (p : action E A) (Q : A → World → Prop) (w : World) : Prop :=
  wp p (on_ok Q) w.

(** A pool of programs over one world. *)
Inductive pool_step {A} (spawnable : prog A → Prop) :
    list (prog A) * World → list (prog A) * World → Prop :=
  | pool_call ps i c k w r w' :
      ps !! i = Some (Do c k) → exec w c r w' →
      pool_step spawnable (ps, w) (<[i := k r]> ps, w')
  | pool_spawn ps p w : spawnable p → pool_step spawnable (ps, w) (ps ++ [p], w)
  | pool_drift ps w w' : drift w w' → pool_step spawnable (ps, w) (ps, w').

(** One program from a world to its outcome; what happens without a call may happen in between. *)
Inductive runs {A} : prog A → World → A → World → Prop :=
  | runs_ret a w : runs (Ret a) w a w
  | runs_call c k w r w1 a w' : exec w c r w1 → runs (k r) w1 a w' → runs (Do c k) w a w'
  | runs_drift p w w1 a w' : drift w w1 → runs p w1 a w' → runs p w a w'.

(** ** Lemmas *)

Lemma runs_bind {A B} (p : prog A) (k : A → prog B) w a w1 b w2 :
  runs p w a w1 → runs (k a) w1 b w2 → runs (prog_bind p k) w b w2.
Proof.
  intros Hp Hk. induction Hp as [a w | c k' w r w1 a w' He _ IH | p w w1 a w' Hd _ IH].
  - done.
  - cbn. eapply runs_call; [done | by apply IH].
  - eapply runs_drift; [done | by apply IH].
Qed.

Lemma runs_mbind {E A B} (p : action E A) (k : A → action E B) w a w1 r w2 :
  runs p w (Ok a) w1 → runs (k a) w1 r w2 → runs (p ≫= k) w r w2.
Proof. intros Hp Hk. by eapply runs_bind. Qed.

(** A run is one of the interleavings of a pool. *)
Lemma runs_pool {A} (spawnable : prog A → Prop) ps i p w a w' :
  ps !! i = Some p → runs p w a w' →
  rtc (pool_step spawnable) (ps, w) (<[i := Ret a]> ps, w').
Proof.
  intros Hi Hp. revert ps Hi.
  induction Hp as [a w | c k w r w1 a w' He _ IH | p w w1 a w' Hd _ IH]; intros ps Hi.
  - by rewrite list_insert_id.
  - eapply rtc_l; [by eapply pool_call |].
    rewrite <- (list_insert_insert_eq ps i (Ret a) (k r)). apply IH.
    apply list_lookup_insert_eq. by eapply lookup_lt_Some.
  - eapply rtc_l; [by apply pool_drift |]. by apply IH.
Qed.

Lemma runs_spawned {A} (spawnable : prog A → Prop) ps p w a w' :
  spawnable p → runs p w a w' →
  rtc (pool_step spawnable) (ps, w) (ps ++ [Ret a], w').
Proof.
  intros Hp Hrun. eapply rtc_l; [by apply pool_spawn |].
  assert (<[length ps + 0 := Ret a]> (ps ++ [p]) = ps ++ [Ret a]) as <- by by rewrite insert_app_r.
  rewrite Nat.add_0_r. eapply runs_pool; [|done]. by apply list_lookup_middle.
Qed.

Lemma later_refl w : good w → later w w.
Proof. by split. Qed.

Lemma later_trans w1 w2 w3 : later w1 w2 → later w2 w3 → later w1 w3.
Proof. intros [? ?] [? ?]. split; [by etrans | done]. Qed.

Lemma wp_later {A} (p : prog A) Q w w' : wp p Q w → later w w' → wp p Q w'.
Proof.
  destruct p as [a | c k]; cbn; intros Hp Hw.
  - intros w'' Hw''. by apply Hp, (later_trans w w').
  - intros w1 r w2 Hw1. apply Hp. by apply (later_trans w w').
Qed.

Lemma wp_conseq {A} (p : prog A) (Q Q' : A → World → Prop) w :
  (∀ a w', Q a w' → Q' a w') → wp p Q w → wp p Q' w.
Proof.
  intros HQ. revert w. induction p as [a | c k IH]; cbn; intros w Hp; [eauto |].
  intros w1 r w2 Hw1 He. destruct (Hp w1 r w2 Hw1 He). eauto.
Qed.

Lemma wp_bind {A B} (p : prog A) (k : A → prog B) Q w :
  wp p (λ a w', wp (k a) Q w') w → good w → wp (prog_bind p k) Q w.
Proof.
  revert w. induction p as [a | c k' IH]; cbn; intros w Hp Hw.
  - apply Hp. by apply later_refl.
  - intros w1 r w2 Hw1 He. destruct (Hp w1 r w2 Hw1 He) as [Hw2 Hk]. split; [done |].
    apply IH; [done | by apply Hw2].
Qed.

(** What a program ends in is later than where it started. *)
Lemma wp_strengthen {A} (p : prog A) (Q : A → World → Prop) w :
  good w → wp p Q w → wp p (λ a w', later w w' ∧ Q a w') w.
Proof.
  intros Hw Hp.
  assert (∀ w1, later w w1 → wp p Q w1 → wp p (λ a w', later w w' ∧ Q a w') w1) as Hgen.
  { clear Hp Hw. induction p as [a | c k IH]; cbn; intros w1 Hw1 Hp.
    - intros w' Hw'. split; [by eapply later_trans | auto].
    - intros w2 r w3 Hw2 He. destruct (Hp w2 r w3 Hw2 He) as [Hw3 Hk]. split; [done |].
      apply IH; [|done]. eapply later_trans; [done |]. by eapply later_trans. }
  apply Hgen; [by apply later_refl | done].
Qed.

Lemma wp_bind_later {A B} (p : prog A) (k : A → prog B) Q w :
  good w → wp p (λ a w', later w w' → wp (k a) Q w') w → wp (prog_bind p k) Q w.
Proof.
  intros Hw Hp. apply wp_bind; [|done]. eapply wp_conseq, wp_strengthen, Hp; [|done].
  intros a w' [Hw' Hk]. auto.
Qed.

Lemma wpx_bind {E A B} (p : action E A) (k : A → action E B) Q w :
  good w → wpx p (λ a w', later w w' → wpx (k a) Q w') w → wpx (p ≫= k) Q w.
Proof.
  intros Hw Hp. unfold wpx, mbind, action_bind. apply wp_bind_later; [done |].
  revert Hp. apply wp_conseq. intros [a | e] w' Ha; cbn in *; auto.
Qed.

Lemma wpx_ret {E A} (a : A) (Q : A → World → Prop) w :
  (∀ w', later w w' → Q a w') → wpx (E := E) (mret a) Q w.
Proof. intros HQ w' Hw'. by apply HQ. Qed.

Lemma wpx_pure {E A} (m : result E A) (Q : A → World → Prop) w :
  (∀ a w', m = Ok a → later w w' → Q a w') → wpx (pure m) Q w.
Proof. intros HQ w' Hw'. destruct m; [by apply HQ | done]. Qed.

(** A call that leaves the world alone. *)
Lemma wpx_read {E} (c : Call) (Q : answer c → World → Prop) w :
  (∀ w1 r w2, exec w1 c r w2 → w2 = w1) →
  (∀ w1 r w', later w w1 → exec w1 c r w1 → later w1 w' → Q r w') →
  wpx (E := E) (ask c) Q w.
Proof.
  intros Hread HQ. cbn. intros w1 r w2 Hw1 He. pose proof (Hread _ _ _ He) as ->.
  split; [apply later_refl, Hw1 |]. intros w' Hw'. by eapply HQ.
Qed.

Lemma wp_ignoring {E A} (p : action E A) Q w :
  good w → wp p (λ _ _, True) w → (∀ w', later w w' → Q () w') →
  wpx (ignoring p) Q w.
Proof.
  intros Hw Hp HQ. unfold wpx, ignoring. apply wp_bind_later; [done |].
  revert Hp. apply wp_conseq. intros r w' _ Hw' w'' Hw''. apply HQ. by eapply later_trans.
Qed.

(** Adequacy: whatever the interleaving, the invariant holds and what a finished program
    returned satisfies its postcondition. *)
Lemma pool_sound {A} (spawnable : prog A → Prop) (Q : A → World → Prop) w0 ps w :
  (∀ w w', good w → drift w w' → later w w') →
  (∀ p w, spawnable p → good w → wp p Q w) →
  good w0 → rtc (pool_step spawnable) ([], w0) (ps, w) →
  good w ∧ (∀ a, Ret a ∈ ps → Q a w).
Proof.
  intros Hdrift Hspawn Hw0 Hsteps.
  enough (good w ∧ Forall (λ p, wp p Q w) ps) as [Hw Hps].
  { split; [done |]. intros a Ha. rewrite Forall_forall in Hps.
    apply (Hps _ Ha). by apply later_refl. }
  remember (ps, w) as s eqn:Hs.
  enough (good s.2 ∧ Forall (λ p, wp p Q s.2) s.1) as Hinv by by subst.
  clear Hs ps w. revert s Hsteps. apply (rtc_ind_r _ ([], w0)); [split; [done | constructor] |].
  intros [ps w] [ps' w'] _ Hstep [Hw Hps]; cbn in *.
  inversion Hstep as [? i c k ? r ? Hi He | ? p ? Hp | ? ? ? Hd]; subst.
  - pose proof (Forall_lookup_1 _ _ _ _ Hps Hi) as Hk. cbn in Hk.
    destruct (Hk w r w' (later_refl w Hw) He) as [Hw' Hr]. split; [apply Hw' |].
    apply Forall_insert; [|done]. eapply Forall_impl; [done |]. intros p Hp.
    by apply (wp_later p Q w w').
  - split; [done |]. apply Forall_app. split; [done |]. constructor; [by apply Hspawn | done].
  - pose proof (Hdrift _ _ Hw Hd) as Hw'. split; [apply Hw' |].
    eapply Forall_impl; [done |]. intros p Hp. by apply (wp_later p Q w w').
Qed.
End rely.

(** A pool whose calls do less does less. *)
Lemma pool_step_mono `{Interface} {World A : Type}
    (exec exec' : World → ∀ c : Call, answer c → World → Prop) drift
    (spawnable : prog A → Prop) s s' :
  (∀ w c r w', exec w c r w' → exec' w c r w') →
  pool_step exec drift spawnable s s' → pool_step exec' drift spawnable s s'.
Proof.
  intros Hexec Hs. destruct Hs; [eapply pool_call | apply pool_spawn | apply pool_drift]; eauto.
Qed.
