(* ===== verification/Remote.v ===== *)
(** The Git processes the store runs against a synchronization remote: the command lines of
    [v2_store.rs], how it reads their output, and what the commands do to the refs and the
    commits that the clients of one remote share.

    A helper is an interacting program ([Interaction]); the call is one Git process, one read
    of a file or of the clock. [World] and [exec] say what the processes answer and change:
    they state Git's documented behaviour, including a push that reaches the remote but whose
    answer is lost. *)
From Stdlib Require Import ZArith NArith Lia Ascii.
From stdpp Require Import base decidable list gmap strings sorting.
From S2P Require Import Prelude.
From S2P Require Import Text.
From S2P Require Import External.
From S2P Require Import GitPolicy.
From S2P Require Import Store.
From S2P Require Import Coordination.
From S2P Require Import Archive.
From S2P Require Import Visit.
From S2P Require Import WorkTree.
From S2P Require Import Interaction.

Definition CANONICAL_REF : string := "refs/heads/archive-ledger".

(** [str::lines] on the parts between newlines: a carriage return before a newline belongs to
    the line ending, and nothing after the last newline is no line. *)
Definition carriage_return : string := String "013" "".
Fixpoint line_endings (parts : list string) : list string :=
  match parts with
  | [] => []
  | [part] => if str_is_empty part then [] else [part]
  | part :: parts => default part (strip_suffix carriage_return part) :: line_endings parts
  end.
Definition str_lines (s : string) : list string := line_endings (split_char "010" s).

(** [split_once(char::is_whitespace)] *)
Fixpoint split_once_whitespace (b : bytes) : option (bytes * bytes) :=
  match strip_whitespace_char b with
  | Some rest => Some ([], rest)
  | None =>
      match b with
      | [] => None
      | a :: b => (λ '(l, r), (a :: l, r)) <$> split_once_whitespace b
      end
  end.

(** ** Commands *)

(** The Git processes. [git write-tree] also carries what the program left in the worktree it
    runs in. *)
Inductive GitCommand : Type :=
  | RemoteGetUrl (remote : string)
  | StatusPorcelain
  | RevParse (revision : string)
  | LsRemote (remote reference : string)
  | Fetch (remote remote_ref local_ref : string)
  | CatCommit (commit : string)
  | CommitTree (tree : string) (parents : list string)
  | PushNew (remote commit reference : string)
  | PushCas (remote commit reference : string) (expected : option string)
  | IsAncestor (ancestor descendant : string)
  | MergeFfOnly (commit : string)
  | UpdateRef (reference commit : string)
  | WorktreeAdd (path commit : string)
  | AddAll
  | WriteTree (content : WorkTree).

(** The arguments after the managed command line; [commit-tree] reads the message as its
    input. *)
Definition command_args (c : GitCommand) : list string :=
  match c with
  | RemoteGetUrl remote => ["remote"; "get-url"; remote]
  | StatusPorcelain => ["status"; "--porcelain"; "--untracked-files=all"]
  | RevParse revision => ["rev-parse"; revision]
  | LsRemote remote reference => ["ls-remote"; "--"; remote; reference]
  | Fetch remote remote_ref local_ref =>
      ["fetch"; "--quiet"; "--no-tags"; "--"; remote; "+" +:+ remote_ref +:+ ":" +:+ local_ref]
  | CatCommit commit => ["cat-file"; "commit"; commit]
  | CommitTree tree parents => ["commit-tree"; tree] ++ flat_map (λ p, ["-p"; p]) parents
  | PushNew remote commit reference =>
      ["push"; "--quiet"; "--"; remote; commit +:+ ":" +:+ reference]
  | PushCas remote commit reference expected =>
      ["push"; "--quiet";
       "--force-with-lease=" +:+ reference +:+ ":" +:+ default "" expected;
       "--"; remote; commit +:+ ":" +:+ reference]
  | IsAncestor ancestor descendant => ["merge-base"; "--is-ancestor"; ancestor; descendant]
  | MergeFfOnly commit => ["merge"; "--quiet"; "--ff-only"; commit]
  | UpdateRef reference commit => ["update-ref"; reference; commit]
  | WorktreeAdd path commit => ["worktree"; "add"; "--quiet"; "--detach"; path; commit]
  | AddAll => ["add"; "-A"]
  | WriteTree _ => ["write-tree"]
  end.

(** [std::process::Output]: the exit code, unless a signal ended the process, and the
    standard output as UTF-8 text. *)
Record Output : Type := {
  exit_code : option Z;
  stdout : string;
}.
Definition success (o : Output) : bool := bool_decide (exit_code o = Some 0%Z).

(** Where a process that is given input can fail before its output is there. *)
Inductive Stage : Type :=
  | Starting
  | Writing
  | Finishing.

(** A temporary worktree, just added for a commit, or the store's own tree, is read as a
    whole. *)
Inductive RemoteCall : Type :=
  | Git (c : GitCommand)
  | GitInput (c : GitCommand) (input : bytes)
  | ReadWorktree (path commit : string)
  | ReadTree
  | ReadLocal (path : string)
  | CurrentTime
  | NewUlid.

(** What starting a process, reading a file or the clock gives; [Err] carries the text of the
    error of the operating system. *)
Definition remote_answer (c : RemoteCall) : Type :=
  match c with
  | Git _ => result string Output
  | GitInput _ _ => result (Stage * string) Output
  | ReadWorktree _ _ => list (string * Entry)
  | ReadTree => Tree
  | ReadLocal _ => result string bytes
  | CurrentTime => result V2StoreError N
  | NewUlid => string
  end.

#[export] Instance remote_interface : Interface := {
  Call := RemoteCall;
  answer := remote_answer;
}.

(** A run of the model ends with an error of the code, a panic or too little fuel. *)
Definition remote (A : Type) : Type := action (Halt V2StoreError) A.
Definition call (c : RemoteCall) : remote (remote_answer c) := ask (H := remote_interface) c.
Definition store {A} (m : result V2StoreError A) : remote A := pure (map_err Halted m).

Section commands.
(** [self.root] as it is shown in errors. *)
Variable root : string.

(** [Command::output] with its error. *)
Definition run (operation : string) (c : GitCommand) : remote Output :=
  output ← call (Git c);
  store (map_err (Io operation root) output).

Definition ensure_success (operation : string) (o : Output) : remote () :=
  store (bail_if (negb (success o)) (Store.Git operation root)).

(** [git_stdout] and [git_command]; they name an error of the operating system differently. *)
Definition git_command (io_operation operation : string) (c : GitCommand) : remote string :=
  output ← run io_operation c;
  _ ← ensure_success operation output;
  mret (trim (stdout output)).
Definition git_stdout (operation : string) (c : GitCommand) : remote string :=
  git_command "run Git" operation c.
Definition run_git (operation : string) (c : GitCommand) : remote () :=
  _ ← git_stdout operation c; mret ().

(** Output that is not UTF-8 is an error of the code; the text here is. *)
Definition git_stdout_preserve (operation : string) (c : GitCommand) : remote string :=
  output ← run "run Git" c;
  _ ← ensure_success operation output;
  mret (stdout output).

Definition git_command_status (c : GitCommand) : remote bool :=
  output ← run "run Git synchronization command" c;
  mret (success output).

Definition git_is_ancestor (ancestor descendant : string) : remote bool :=
  output ← run "compare synchronization commits" (IsAncestor ancestor descendant);
  match exit_code output with
  | Some 0%Z => mret true
  | Some 1%Z => mret false
  | _ => store (Err (Store.Git "compare synchronization commits" root))
  end.

Definition validate_remote_name (name : string) : remote () :=
  store (map_err (Invalid ∘ GitPolicy.message) (validate_git_remote_name name)).

Definition configured_remote_locator (name : string) : remote string :=
  _ ← validate_remote_name name;
  locator ← git_stdout "read synchronization remote" (RemoteGetUrl name);
  _ ← store (map_err (Invalid ∘ GitPolicy.message) (validate_git_remote_locator locator));
  mret locator.

Definition ensure_git_clean : remote () :=
  status ← git_stdout "inspect canonical synchronization worktree" StatusPorcelain;
  store (bail_if (negb (str_is_empty status))
    (Invalid "canonical Git worktree has uncommitted or untracked files; refusing synchronization")).

(** The part of [remote_ref_commit] that reads the answer of [git ls-remote]. *)
Definition parse_ls_remote (text remote_ref : string) : result V2StoreError (option string) :=
  match str_lines text with
  | [] => Ok None
  | line :: lines =>
      _ ← bail_if (match lines with [] => false | _ => true end)
            (Invalid "synchronization remote returned duplicate canonical refs");
      '(commit, reference) ← ok_or (split_once_whitespace (as_bytes line))
        (Invalid "synchronization remote returned an invalid ref");
      _ ← bail_if (negb (bool_decide (trim (of_bytes reference) = remote_ref))
                   || negb (is_commit_id (of_bytes commit)))
            (Invalid "synchronization remote returned an invalid canonical commit");
      Ok (Some (to_ascii_lowercase (of_bytes commit)))
  end.

Definition remote_ref_commit (name remote_ref : string) : remote (option string) :=
  _ ← validate_remote_name name;
  _ ← store (map_err (Invalid ∘ GitPolicy.message) (validate_git_ref remote_ref));
  output ← run "query synchronization remote" (LsRemote name remote_ref);
  _ ← ensure_success "query synchronization remote" output;
  store (parse_ls_remote (stdout output) remote_ref).

Definition remote_archive_commit (name : string) : remote (option string) :=
  remote_ref_commit name CANONICAL_REF.

Definition fetch_ref (name remote_ref local_ref : string) : remote () :=
  _ ← git_command "run Git synchronization command" "fetch synchronization remote"
        (Fetch name remote_ref local_ref);
  mret ().
Definition fetch_archive_ref (name local_ref : string) : remote () :=
  fetch_ref name CANONICAL_REF local_ref.

Definition push_new_archive_ref (name commit : string) : remote bool :=
  git_command_status (PushNew name commit CANONICAL_REF).
Definition push_archive_ref_cas (name commit expected : string) : remote bool :=
  git_command_status (PushCas name commit CANONICAL_REF (Some expected)).
Definition push_ref_cas (name commit remote_ref : string) (expected : option string)
    : remote bool :=
  git_command_status (PushCas name commit remote_ref expected).

Definition current_time_utc_ms : remote N :=
  now ← call CurrentTime; store now.

Definition prefixed_ulid (prefix : string) : remote string :=
  ulid ← call NewUlid; mret (prefix +:+ to_ascii_lowercase ulid).
End commands.

(** ** What Git does

    The documented behaviour of Git, of the clock and of the file system that the code relies
    on, as a relation that leaves open everything else: answers, failures and what a local
    clone holds. A system runs with any Git that stays within it. *)

(** A commit object. [identity] is the author and committer of the line, with its time. *)
Record Commit : Type := {
  commit_tree : string;
  commit_parents : list string;
  identity : string;
  commit_message : bytes;
}.

(** What [git cat-file commit] prints: header lines, an empty line and the message. *)
Definition commit_lines (c : Commit) : list string :=
  ("tree " +:+ commit_tree c) :: ((λ p, "parent " +:+ p) <$> commit_parents c)
  ++ ["author " +:+ identity c; "committer " +:+ identity c].
Definition commit_headers (c : Commit) : string := join_char "010" (commit_lines c).
Definition commit_text (c : Commit) : string :=
  commit_headers c +:+ newline +:+ newline +:+ of_bytes (commit_message c).

(** Names of objects are lowercase hexadecimal; a line holds no newline. *)
Definition is_object_name (s : string) : bool :=
  bool_decide (String.length s ∈ [40; 64]) && all_bytes is_lower_hex s.
Definition one_line (s : string) : bool :=
  negb (bool_decide ("010"%char ∈ as_bytes s)) && negb (bool_decide ("013"%char ∈ as_bytes s)).

(** The state the clients of one remote share: the commits any of them made, under their
    names, the values each ref of the remote has held, newest first, and the time. *)
Record World : Type := {
  objects : gmap string Commit;
  reflogs : gmap string (list string);
  clock : N;
}.

Definition log (w : World) (reference : string) : list string :=
  default [] (reflogs w !! reference).
Definition current (w : World) (reference : string) : option string := head (log w reference).

Definition add_commit (id : string) (c : Commit) (w : World) : World :=
  {| objects := <[id := c]> (objects w); reflogs := reflogs w; clock := clock w |}.
Definition set_ref (reference commit : string) (w : World) : World :=
  {| objects := objects w; reflogs := <[reference := commit :: log w reference]> (reflogs w);
     clock := clock w |}.

Definition parent_of (w : World) (p c : string) : Prop :=
  ∃ o, objects w !! c = Some o ∧ p ∈ commit_parents o.
(** [git merge-base --is-ancestor] *)
Definition ancestor (w : World) : relation string := rtc (parent_of w).

(** What a successful [git ls-remote] of one ref prints. *)
Definition ls_remote_text (w : World) (reference : string) : string :=
  match current w reference with
  | None => ""
  | Some commit => commit +:+ String "009" "" +:+ reference +:+ newline
  end.

(** Directories as Git records them: whether a tree object is what [git add -A] and
    [git write-tree] make of a directory with that content, or a checkout of the tree object
    leaves that content. *)
Class GitTrees := { tree_holds : string → WorkTree → Prop }.

(** A commit and what is in its tree. *)
Definition committed `{GitTrees} (w : World) (commit : string) (content : WorkTree) : Prop :=
  ∃ c, objects w !! commit = Some c ∧ tree_holds (commit_tree c) content.

(** [git commit-tree] writes a commit whose parents exist; equal names are equal objects. *)
Definition commits (w : World) (tree : string) (parents : list string) (message : bytes)
    (id : string) (w' : World) : Prop :=
  ∃ c, commit_tree c = tree ∧ commit_parents c = parents ∧ commit_message c = message ∧
    one_line tree = true ∧ one_line (identity c) = true ∧ is_object_name id = true ∧
    (∀ p, p ∈ parents → is_Some (objects w !! p)) ∧
    (objects w !! id = None ∨ objects w !! id = Some c) ∧
    w' = add_commit id c w.

(** A push the remote accepts: a ref that already has the value stays; a lease needs the
    expected value; without one only a new ref or a fast-forward is accepted. *)
Definition pushes (w : World) (commit reference : string)
    (allowed : option string → Prop) (w' : World) : Prop :=
  is_Some (objects w !! commit) ∧
  ((current w reference = Some commit ∧ w' = w) ∨
   (allowed (current w reference) ∧ w' = set_ref reference commit w)).

Definition fast_forward (w : World) (commit : string) (current : option string) : Prop :=
  match current with None => True | Some old => ancestor w old commit end.

(** The process ran to the end and exited with zero. *)
Definition succeeded {E} (out : result E Output) : Prop :=
  match out with Ok o => success o = true | Err _ => False end.

(** A push or a new commit may take effect although the process failed later. The commands
    that only touch the local clone leave the shared state alone; a worktree is only added for
    a commit that is there. *)
Definition git_exec `{GitTrees} (w : World) (c : GitCommand) (out : result string Output) (w' : World)
    : Prop :=
  match c with
  | LsRemote _ reference =>
      w' = w ∧ (∀ o, out = Ok o → success o = true → stdout o = ls_remote_text w reference)
  | CatCommit id =>
      w' = w ∧ (∀ o, out = Ok o → success o = true →
        ∃ c, objects w !! id = Some c ∧ stdout o = commit_text c)
  | PushNew _ commit reference =>
      (w' = w ∧ ¬ succeeded out) ∨ pushes w commit reference (fast_forward w commit) w'
  | PushCas _ commit reference expected =>
      (w' = w ∧ ¬ succeeded out) ∨ pushes w commit reference (λ cur, cur = expected) w'
  | IsAncestor a d =>
      w' = w ∧ (∀ o, out = Ok o → exit_code o = Some 0%Z → ancestor w a d)
  | WorktreeAdd _ commit =>
      w' = w ∧ (succeeded out → is_object_name commit = true → is_Some (objects w !! commit))
  | WriteTree content =>
      w' = w ∧ (∀ o, out = Ok o → success o = true → tree_holds (trim (stdout o)) content)
  | RemoteGetUrl _ | StatusPorcelain | RevParse _ | Fetch _ _ _ | MergeFfOnly _
  | UpdateRef _ _ | CommitTree _ _ | AddAll => w' = w
  end.
Definition git_input_exec (w : World) (c : GitCommand) (input : bytes)
    (out : result (Stage * string) Output) (w' : World) : Prop :=
  match c with
  | CommitTree tree parents =>
      (w' = w ∧ ¬ succeeded out) ∨
      (∃ id, commits w tree parents input id w' ∧
        ∀ o, out = Ok o → success o = true → stdout o = id +:+ newline)
  | _ => w' = w
  end.

(** One clock for all clients; a worktree that was added for a commit holds its tree. *)
Definition exec `{GitTrees} (w : World) (c : RemoteCall) : remote_answer c → World → Prop :=
  match c with
  | Git c => git_exec w c
  | GitInput c input => git_input_exec w c input
  | CurrentTime => λ now w', w' = w ∧ ∀ t, now = Ok t → t = clock w
  | ReadWorktree _ commit => λ directory w', w' = w ∧
      ∀ c, objects w !! commit = Some c → tree_holds (commit_tree c) (work_tree directory)
  | ReadTree | ReadLocal _ | NewUlid => λ _ w', w' = w
  end.

(** Between the calls time passes, and clients commit what they append to their own clones. *)
Inductive drift (w w' : World) : Prop :=
  | time_passes :
      objects w' = objects w → reflogs w' = reflogs w → (clock w <= clock w')%N → drift w w'
  | appends_commit tree parents message id :
      commits w tree parents message id w' → drift w w'.

(** ** Lemmas: what stays true *)

Definition grows (w w' : World) : Prop :=
  objects w ⊆ objects w' ∧ (∀ r, ∃ newer, log w' r = newer ++ log w r) ∧
  (clock w <= clock w')%N.

#[export] Instance grows_preorder : PreOrder grows.
Proof.
  split.
  - intros w. split_and!; [done | by exists [] | done].
  - intros w1 w2 w3 (Ho & Hl & Hc) (Ho' & Hl' & Hc'). split_and!; [by etrans | | lia].
    intros r. destruct (Hl r) as [n Hn], (Hl' r) as [n' Hn']. exists (n' ++ n).
    by rewrite Hn', Hn, app_assoc.
Qed.

Lemma grows_object w w' id c : grows w w' → objects w !! id = Some c → objects w' !! id = Some c.
Proof. intros (Ho & _) Hc. by eapply lookup_weaken. Qed.

Lemma committed_grows `{GitTrees} w w' commit content :
  grows w w' → committed w commit content → committed w' commit content.
Proof.
  intros Hw (c & Hc & Ht). exists c. split; [by eapply grows_object | done].
Qed.

Lemma grows_log w w' r c : grows w w' → c ∈ log w r → c ∈ log w' r.
Proof. intros (_ & Hl & _) Hc. destruct (Hl r) as [n ->]. set_solver. Qed.

Lemma grows_ancestor w w' x y : grows w w' → ancestor w x y → ancestor w' x y.
Proof.
  intros Hw. induction 1 as [x | x y z (o & Ho & Hp) _ IH]; [done |].
  eapply rtc_l; [|done]. exists o. split; [by eapply grows_object | done].
Qed.

Lemma log_set_ref w r c : log (set_ref r c w) r = c :: log w r.
Proof. unfold log at 1. cbn. by rewrite lookup_insert_eq. Qed.

Lemma log_set_ref_ne w r r' c : r ≠ r' → log (set_ref r c w) r' = log w r'.
Proof. intros Hne. unfold log at 1. cbn. by rewrite lookup_insert_ne. Qed.

Lemma set_ref_grows w r c : grows w (set_ref r c w).
Proof.
  split_and!; [done | | done]. intros r'. destruct (decide (r = r')) as [<- | Hne].
  - exists [c]. by rewrite log_set_ref.
  - exists []. by rewrite log_set_ref_ne.
Qed.

Lemma commits_grows w tree parents message id w' :
  commits w tree parents message id w' → grows w w'.
Proof.
  intros (c & _ & _ & _ & _ & _ & _ & _ & Hid & ->). split_and!; cbn; [|by exists [] | done].
  apply map_subseteq_spec. intros i x Hi. destruct (decide (i = id)) as [-> | Hne].
  - rewrite lookup_insert_eq. destruct Hid as [Hid | Hid]; congruence.
  - by rewrite lookup_insert_ne.
Qed.

Lemma drift_grows w w' : drift w w' → grows w w'.
Proof.
  intros [Ho Hl Hc | tree parents message id Hc]; [|by eapply commits_grows].
  split_and!; [by rewrite Ho | | done]. intros r. exists []. unfold log. by rewrite Hl.
Qed.

Lemma current_log w r c : current w r = Some c → c ∈ log w r.
Proof. unfold current. destruct (log w r); [done |]. intros [= ->]. by left. Qed.

(** The commits are well formed, and refs hold commits. *)
Record wf (w : World) : Prop := {
  wf_name : ∀ id c, objects w !! id = Some c → is_object_name id = true;
  wf_lines : ∀ id c, objects w !! id = Some c →
    one_line (commit_tree c) = true ∧ one_line (identity c) = true;
  wf_parents : ∀ id c p, objects w !! id = Some c → p ∈ commit_parents c →
    is_object_name p = true;
  wf_refs : ∀ r c, c ∈ log w r → is_Some (objects w !! c);
}.

(** Each value of a ref has the one before it among its ancestors. *)
Definition linear (w : World) : Prop :=
  ∀ r l new old l', log w r = l ++ new :: old :: l' → ancestor w old new.

Lemma wf_commits w tree parents message id w' :
  wf w → commits w tree parents message id w' → wf w'.
Proof.
  intros [Hn Hl Hp Hr] (c & Ht & Hps & _ & Htl & Hil & Hid & Hex & Hfresh & ->).
  assert (∀ i x, <[id := c]> (objects w) !! i = Some x →
    (i = id ∧ x = c) ∨ objects w !! i = Some x) as Hcase.
  { intros i x. rewrite lookup_insert_Some. naive_solver. }
  split; cbn.
  - intros i x [[-> _] | Hx]%Hcase; eauto.
  - intros i x [[_ ->] | Hx]%Hcase; [|eauto]. by rewrite Ht.
  - intros i x p [[_ ->] | Hx]%Hcase Hpx; [|eauto]. rewrite Hps in Hpx.
    destruct (Hex p Hpx) as [o Ho]. eauto.
  - intros r x Hx. apply lookup_insert_is_Some'. right. by apply (Hr r).
Qed.

Lemma linear_commits w tree parents message id w' :
  linear w → commits w tree parents message id w' → linear w'.
Proof.
  intros Hl Hc r l new old l' Hlog. apply (grows_ancestor w); [by eapply commits_grows |].
  destruct Hc as (c & _ & _ & _ & _ & _ & _ & _ & _ & ->). by eapply Hl.
Qed.

Lemma wf_set_ref w r c : wf w → is_Some (objects w !! c) → wf (set_ref r c w).
Proof.
  intros [Hn Hl Hp Hr] Hc. split; cbn; try done. intros r' x.
  destruct (decide (r = r')) as [<- | Hne].
  - rewrite log_set_ref. intros [-> | Hx]%elem_of_cons; eauto.
  - rewrite log_set_ref_ne by done. eauto.
Qed.

Lemma linear_set_ref w r c :
  linear w → fast_forward w c (current w r) → linear (set_ref r c w).
Proof.
  intros Hl Hff r' l new old l' Hlog. apply (grows_ancestor w); [apply set_ref_grows |].
  destruct (decide (r = r')) as [<- | Hne].
  - rewrite log_set_ref in Hlog. destruct l as [|x l]; [|by injection Hlog as _ ?; eapply Hl].
    injection Hlog as <- Hlog. unfold current in Hff. by rewrite Hlog in Hff.
  - rewrite log_set_ref_ne in Hlog by done. by eapply Hl.
Qed.

(** Every value a ref has held is an ancestor of its current value. *)
Lemma linear_current w r c old :
  linear w → current w r = Some c → old ∈ log w r → ancestor w old c.
Proof.
  intros Hl Hc Hold. unfold current in Hc.
  assert (∀ pre l x, log w r = pre ++ x :: l → old ∈ x :: l → ancestor w old x) as Hgen.
  { intros pre l. revert pre. induction l as [|y l IH]; intros pre x Hlog.
    - intros ->%list_elem_of_singleton. done.
    - intros [-> | Hin]%elem_of_cons; [done |].
      transitivity y; [|by eapply Hl]. apply (IH (pre ++ [x])); [|done].
      by rewrite <- app_assoc. }
  destruct (log w r) as [|x l] eqn:Hlog; [done |]. injection Hc as ->.
  by apply (Hgen [] l c).
Qed.

(** ** Lemmas: reading Git's output *)

Lemma one_line_true s : one_line s = true ↔ ("010"%char ∉ as_bytes s) ∧ ("013"%char ∉ as_bytes s).
Proof. unfold one_line. by rewrite andb_true_iff, !negb_true_iff, !bool_decide_eq_false. Qed.

Lemma lower_hex_plain a :
  is_lower_hex a = true →
  a ≠ "010"%char ∧ a ≠ "013"%char ∧ is_hex_digit a = true ∧ ascii_lower a = a ∧
  ∀ b, strip_whitespace_char (a :: b) = None.
Proof.
  intros Ha. destruct a as [[] [] [] [] [] [] [] []]; vm_compute in Ha; try discriminate Ha;
    (split_and!; [done | done | done | done | intros [|? [|]]; done]).
Qed.

Lemma object_name_one_line s : is_object_name s = true → one_line s = true.
Proof.
  unfold is_object_name. rewrite andb_true_iff, all_bytes_true, one_line_true.
  intros [_ Hall]. split; intros Hin; by destruct (lower_hex_plain _ (Hall _ Hin)) as (? & ? & _).
Qed.

Lemma object_name_commit_id s : is_object_name s = true → is_commit_id s = true.
Proof.
  unfold is_object_name, is_commit_id. rewrite !andb_true_iff, !all_bytes_true.
  intros [? Hall]. split; [done |]. intros a Ha. by apply lower_hex_plain, Hall.
Qed.

Lemma object_name_lower s : is_object_name s = true → to_ascii_lowercase s = s.
Proof.
  unfold is_object_name. rewrite andb_true_iff, all_bytes_true. intros [_ Hall].
  induction s as [|a s IH]; cbn in *; [done |]. rewrite IH by set_solver. f_equal.
  apply lower_hex_plain, Hall. by left.
Qed.

Lemma split_once_whitespace_hex h rest :
  (∀ a, a ∈ h → is_lower_hex a = true) →
  split_once_whitespace (h ++ "009"%char :: rest) = Some (h, rest).
Proof.
  induction h as [|a h IH]; intros Hh; [done |].
  destruct (lower_hex_plain a) as (_ & _ & _ & _ & Ha); [apply Hh; by left |].
  cbn [app split_once_whitespace]. rewrite (Ha (h ++ "009"%char :: rest)).
  rewrite IH by (intros; apply Hh; by right). done.
Qed.

Lemma no_return_suffix s : one_line s = true → strip_suffix carriage_return s = None.
Proof.
  rewrite one_line_true. intros [_ Hr].
  destruct (strip_suffix carriage_return s) as [t|] eqn:Ht; [|done].
  apply strip_suffix_Some in Ht as ->. rewrite as_bytes_app in Hr. exfalso. apply Hr.
  apply elem_of_app. right. by left.
Qed.

Lemma str_lines_single s : one_line s = true → s ≠ "" → str_lines (s +:+ newline) = [s].
Proof.
  intros Hs Hne. unfold str_lines, newline. rewrite split_char_app by by apply one_line_true.
  change (split_char "010" "") with [""%string]. cbn [line_endings str_is_empty].
  by rewrite no_return_suffix.
Qed.

(** What [remote_ref_commit] reads is the value of the ref. *)
Lemma parse_ls_remote_current w r x :
  wf w → one_line r = true → parse_ls_remote (ls_remote_text w r) r = Ok x → x = current w r.
Proof.
  intros Hwf Hr Hrun. unfold ls_remote_text in Hrun.
  destruct (current w r) as [c|] eqn:Hc; [|by vm_compute in Hrun; injection Hrun as <-].
  apply current_log, wf_refs in Hc as [o Ho]; [|done]. apply wf_name in Ho; [|done].
  unfold parse_ls_remote in Hrun.
  assert (one_line (c +:+ String "009" "" +:+ r) = true) as Hline.
  { apply object_name_one_line in Ho. rewrite one_line_true in *. rewrite !as_bytes_app. cbn.
    set_solver. }
  assert (str_lines (c +:+ String "009" "" +:+ r +:+ newline) = [c +:+ String "009" "" +:+ r])
    as Hlines.
  { rewrite <- (str_lines_single _ Hline); [|by destruct c].
    f_equal. apply (inj as_bytes). by rewrite !as_bytes_app, <- !app_assoc. }
  rewrite Hlines in Hrun. rewrite !as_bytes_app in Hrun.
  change (as_bytes (String "009" "")) with ["009"%char] in Hrun. cbn [app] in Hrun.
  rewrite split_once_whitespace_hex in Hrun.
  2:{ intros a Ha. unfold is_object_name in Ho. rewrite andb_true_iff, all_bytes_true in Ho.
      by apply Ho. }
  cbn [mbind result_bind ok_or bail_if] in Hrun.
  rewrite !of_as_bytes, object_name_lower in Hrun by done. by inv_ok.
Qed.

Lemma strip_loop_none step fuel b : step b = None → strip_loop step fuel b = b.
Proof. intros Hb. destruct fuel; cbn; [done |]. by rewrite Hb. Qed.

Lemma strip_hex_rev b :
  (∀ a, a ∈ b → is_lower_hex a = true) → strip_whitespace_char_rev b = None.
Proof.
  intros Hb. unfold strip_whitespace_char_rev.
  assert (∀ a r, a ∈ b → strip_whitespace_char (a :: r) = None) as Hno.
  { intros a r Ha. by apply lower_hex_plain, Hb. }
  destruct b as [|a1 [|a2 [|a3 b]]]; [done | | |]; rewrite ?Hno by set_solver; done.
Qed.

(** The output of [git commit-tree] is the name. *)
Lemma trim_object_name s : is_object_name s = true → trim (s +:+ newline) = s.
Proof.
  unfold is_object_name. rewrite andb_true_iff, bool_decide_eq_true, all_bytes_true.
  intros [Hlen Hs]. unfold trim, trim_start.
  assert (strip_whitespace_char (as_bytes (s +:+ newline)) = None) as Hstart.
  { rewrite as_bytes_app. destruct s as [|a s]; [set_solver |].
    apply lower_hex_plain, Hs. by left. }
  rewrite strip_loop_none, of_as_bytes by done. unfold trim_end.
  rewrite as_bytes_app, reverse_app.
  destruct (String.length (s +:+ newline)) as [|n] eqn:Hn.
  { rewrite <- length_as_bytes, as_bytes_app, length_app in Hn. cbn in Hn. lia. }
  change (reverse (as_bytes newline)) with ["010"%char]. cbn [app strip_loop].
  change (strip_whitespace_char_rev ("010"%char :: reverse (as_bytes s)))
    with (Some (reverse (as_bytes s))). cbn iota. rewrite strip_loop_none.
  - by rewrite reverse_involutive, of_as_bytes.
  - apply strip_hex_rev. intros a Ha. apply Hs. by apply elem_of_reverse.
Qed.

(** ** Lemmas: commit objects *)

#[local] Arguments String.append : simpl nomatch.

Lemma one_line_app s t : one_line (s +:+ t) = one_line s && one_line t.
Proof.
  apply eq_true_iff_eq. rewrite andb_true_iff, !one_line_true, as_bytes_app. set_solver.
Qed.

Lemma one_line_prefix s t :
  one_line s = true → one_line t = true → one_line (s +:+ t) = true.
Proof. intros Hs Ht. by rewrite one_line_app, Hs, Ht. Qed.

Lemma str_append_assoc (s t u : string) : s +:+ (t +:+ u) = (s +:+ t) +:+ u.
Proof. apply (inj as_bytes). by rewrite !as_bytes_app, app_assoc. Qed.

Lemma split_char_join c ws :
  ws ≠ [] → Forall (λ s, c ∉ as_bytes s) ws → split_char c (join_char c ws) = ws.
Proof.
  intros Hne. induction 1 as [|s ws Hs Hws IH]; [done |].
  destruct ws as [|t ws]; [by apply split_char_single |].
  change (join_char c (s :: t :: ws)) with (s +:+ String c (join_char c (t :: ws))).
  rewrite split_char_app by done. by rewrite IH.
Qed.

Lemma str_lines_join ws :
  Forall (λ s, one_line s = true ∧ s ≠ "") ws → ws ≠ [] → str_lines (join_char "010" ws) = ws.
Proof.
  intros Hws Hne. unfold str_lines. rewrite split_char_join; [|done |].
  2:{ eapply Forall_impl; [done |]. by intros s [[? _]%one_line_true _]. }
  clear Hne. induction Hws as [|s ws [Hs Hne] Hws IH]; [done |].
  destruct ws as [|t ws].
  - cbn. by rewrite (proj2 (str_is_empty_false s)).
  - change (line_endings (s :: t :: ws))
      with (default s (strip_suffix carriage_return s) :: line_endings (t :: ws)).
    by rewrite IH, no_return_suffix.
Qed.

Lemma no_blank_line a s :
  "010"%char ≠ a →
  strip_prefix (newline +:+ newline) (String a s) = None ∧
  strip_prefix (newline +:+ newline) (String "010" (String a s)) = None.
Proof.
  intros Ha. change (newline +:+ newline) with (String "010" (String "010" "")).
  cbn [strip_prefix]. destruct (Ascii.eqb_spec "010" a); [done |]. by split.
Qed.

(** Before the blank line, the search moves on. *)
Lemma split_once_step a s :
  strip_prefix (newline +:+ newline) (String a s) = None →
  split_once (newline +:+ newline) (String a s)
  = (λ '(l, r), (String a l, r)) <$> split_once (newline +:+ newline) s.
Proof. intros Hs. cbn [split_once]. by rewrite Hs. Qed.

Lemma split_once_line s rest :
  "010"%char ∉ as_bytes s →
  split_once (newline +:+ newline) (s +:+ rest)
  = (λ '(l, r), (s +:+ l, r)) <$> split_once (newline +:+ newline) rest.
Proof.
  induction s as [|a s IH]; intros Hs.
  - change ("" +:+ rest) with rest. destruct (split_once _ rest) as [[l r]|]; done.
  - apply not_elem_of_cons in Hs as [Hne Hs]. change (String a s +:+ rest) with (String a (s +:+ rest)).
    rewrite split_once_step by by apply no_blank_line. rewrite IH by done.
    by destruct (split_once _ rest) as [[l r]|].
Qed.

(** The first empty line of a commit is the one after its headers. *)
Lemma split_once_headers ws m :
  Forall (λ s, one_line s = true ∧ s ≠ "") ws → ws ≠ [] →
  split_once (newline +:+ newline) (join_char "010" ws +:+ newline +:+ newline +:+ m)
  = Some (join_char "010" ws, m).
Proof.
  intros Hws Hne. induction Hws as [|s ws [[Hs _]%one_line_true Hsne] Hws IH]; [done |].
  destruct ws as [|t ws].
  - cbn [join_char]. rewrite split_once_line by done.
    change (split_once _ _) with (Some (""%string, m)). cbn. f_equal. f_equal.
    apply (inj as_bytes). by rewrite as_bytes_app, app_nil_r.
  - specialize (IH ltac:(done)). apply Forall_cons in Hws as [[[Ht _]%one_line_true Htne] _].
    change (join_char "010" (s :: t :: ws)) with (s +:+ String "010" (join_char "010" (t :: ws))).
    assert (∃ b rest, join_char "010" (t :: ws) = String b rest ∧ "010"%char ≠ b)
      as (b & rest & Hjoin & Hb).
    { destruct t as [|b t]; [done |]. exists b. apply not_elem_of_cons in Ht as [Hb _].
      destruct ws; eexists; (split; [reflexivity | done]). }
    rewrite <- str_append_assoc, split_once_line by done. rewrite Hjoin in IH |- *.
    change (String "010" (String b rest) +:+ ?r) with (String "010" (String b rest +:+ r)).
    rewrite split_once_step by by apply no_blank_line. by rewrite IH.
Qed.

Lemma commit_lines_ok c :
  one_line (commit_tree c) = true → one_line (identity c) = true →
  Forall (λ p, one_line p = true) (commit_parents c) →
  Forall (λ s, one_line s = true ∧ s ≠ "") (commit_lines c).
Proof.
  intros Ht Hi Hp. unfold commit_lines. constructor; [|apply Forall_app; split].
  - split; [by apply (one_line_prefix "tree ") | done].
  - apply Forall_fmap. eapply Forall_impl; [done |]. intros p Hpl.
    split; [by apply (one_line_prefix "parent ") | done].
  - constructor; [|constructor; [|constructor]].
    + split; [by apply (one_line_prefix "author ") | done].
    + split; [by apply (one_line_prefix "committer ") | done].
Qed.

(** The text of a commit reads back as its headers, parents and message. *)
Lemma commit_text_reads c :
  one_line (commit_tree c) = true → one_line (identity c) = true →
  Forall (λ p, one_line p = true) (commit_parents c) →
  split_once (newline +:+ newline) (commit_text c)
  = Some (commit_headers c, of_bytes (commit_message c)) ∧
  omap (strip_prefix "parent ") (str_lines (commit_headers c)) = commit_parents c.
Proof.
  intros Ht Hi Hp. pose proof (commit_lines_ok c Ht Hi Hp) as Hlines. split.
  - by apply split_once_headers.
  - unfold commit_headers. rewrite str_lines_join by done. unfold commit_lines.
    change (omap _ (?t :: ?l)) with (omap (strip_prefix "parent ") l). rewrite omap_app.
    cbn [omap list_omap]. change (strip_prefix "parent " ("author " +:+ _)) with (@None string).
    change (strip_prefix "parent " ("committer " +:+ _)) with (@None string).
    rewrite app_nil_r. clear. induction (commit_parents c) as [|p ps IH]; [done |].
    change (omap (strip_prefix "parent ") (((λ p, "parent " +:+ p) <$> p :: ps)))
      with (p :: omap (strip_prefix "parent ") ((λ p, "parent " +:+ p) <$> ps)). by rewrite IH.
Qed.

(** ** Lemmas: specifications of the helpers *)

Section specs.
Context {trees : GitTrees}.
Context (good : World → Prop).
Hypothesis good_wf : ∀ w, good w → wf w.
Hypothesis good_commits : ∀ w tree parents message id w',
  good w → commits w tree parents message id w' → good w'.

#[local] Abbreviation later := (later grows good) (only parsing).
#[local] Abbreviation wpx := (wpx exec grows good) (only parsing).

Lemma trans w1 w2 w3 : later w1 w2 → later w2 w3 → later w1 w3.
Proof. intros H1 H2. exact (later_trans grows good _ _ _ H1 H2). Qed.

Lemma later_good w w' : later w w' → good w'.
Proof. by intros [_ ?]. Qed.

Lemma bind_spec {A B} (p : remote A) (k : A → remote B) Q w :
  good w → wpx p (λ a w', later w w' → wpx (k a) Q w') w → wpx (p ≫= k) Q w.
Proof. exact (wpx_bind exec grows good p k Q w). Qed.

Definition read_only (c : RemoteCall) : Prop := ∀ w r w', exec w c r w' → w' = w.

Lemma read_spec c (Q : remote_answer c → World → Prop) w :
  read_only c →
  (∀ w1 r w', later w w1 → exec w1 c r w1 → later w1 w' → Q r w') →
  wpx (call c) Q w.
Proof. exact (wpx_read exec grows good c Q w). Qed.

Lemma pure_spec {A} (m : result (Halt V2StoreError) A) Q w :
  (∀ a w', m = Ok a → later w w' → Q a w') → wpx (pure m) Q w.
Proof. exact (@wpx_pure remote_interface World exec grows good _ _ m Q w). Qed.

Lemma ret_spec {A} (a : A) (Q : A → World → Prop) w :
  (∀ w', later w w' → Q a w') → wpx (mret a : remote A) Q w.
Proof. exact (@wpx_ret remote_interface World exec grows good _ _ a Q w). Qed.

(** Handling the outcome of a step. *)
Lemma handle_spec {A B} (p : remote A) (h : result (Halt V2StoreError) A → remote B) Q w :
  good w → Interaction.wp (H := remote_interface) exec grows good p
    (λ r w', later w w' → wpx (h r) Q w') w →
  wpx (prog_bind p h : remote B) Q w.
Proof. exact (@wp_bind_later remote_interface World exec grows _ good _ _ p h _ w). Qed.

Lemma ignoring_spec {A} (p : remote A) (Q : () → World → Prop) w :
  good w → wpx p (λ _ _, True) w → (∀ w', later w w' → Q () w') → wpx (ignoring p) Q w.
Proof.
  intros Hw Hp HQ. refine (@wp_ignoring remote_interface World exec grows _ good _ _ p Q w Hw _ HQ).
  revert Hp. by apply (@wp_conseq remote_interface).
Qed.

Lemma store_spec {A} (m : result V2StoreError A) Q w :
  (∀ a w', m = Ok a → later w w' → Q a w') → wpx (store m) Q w.
Proof.
  intros HQ. apply pure_spec. intros a w' Ha. apply HQ. by destruct m; [injection Ha as -> |].
Qed.

(** The value a step has when it succeeds does not matter. *)
Definition harmless {A} (p : remote A) : Prop :=
  ∀ (Q : A → World → Prop) w, good w → (∀ a w', later w w' → Q a w') → wpx p Q w.

Lemma harmless_bind {A B} (p : remote A) (k : A → remote B) :
  harmless p → (∀ a, harmless (k a)) → harmless (p ≫= k).
Proof.
  intros Hp Hk Q w Hw HQ. apply bind_spec; [done |]. apply Hp; [done |].
  intros a w1 Hw1 _. apply Hk; [by eapply later_good |]. intros b w2 Hw2. apply HQ.
  by eapply trans.
Qed.

Lemma harmless_ret {A} (a : A) : harmless (mret a).
Proof. intros Q w _ HQ. apply ret_spec. eauto. Qed.

Lemma harmless_store {A} (m : result V2StoreError A) : harmless (store m).
Proof. intros Q w _ HQ. apply store_spec. eauto. Qed.

Lemma harmless_pure {A} (m : result (Halt V2StoreError) A) : harmless (pure m).
Proof. intros Q w _ HQ. apply pure_spec. eauto. Qed.

Lemma harmless_call c : read_only c → harmless (call c).
Proof.
  intros Hc Q w Hw HQ. apply read_spec; [apply Hc |]. intros w1 r w' Hw1 _ Hw'. apply HQ.
  by eapply trans.
Qed.

Lemma run_spec root operation c (Q : Output → World → Prop) w :
  read_only (Git c) → good w →
  (∀ w1 o w', later w w1 → git_exec w1 c (Ok o) w1 → later w1 w' → Q o w') →
  wpx (run root operation c) Q w.
Proof.
  intros Hc Hw HQ. apply bind_spec; [done |]. apply read_spec; [apply Hc |].
  intros w1 r w' Hw1 He Hw' _. apply store_spec. intros o w'' Ho Hw''.
  apply map_err_Ok in Ho. cbn in r. subst r. eapply HQ; [done | exact He |].
  by eapply trans.
Qed.

Lemma harmless_run root operation c : read_only (Git c) → harmless (run root operation c).
Proof.
  intros Hc Q w Hw HQ. apply run_spec; [done | done |]. intros w1 o w' Hw1 _ Hw'. apply HQ.
  by eapply trans.
Qed.

Lemma harmless_ensure root operation o : harmless (ensure_success root operation o).
Proof. apply harmless_store. Qed.

Lemma harmless_git root io_operation operation c :
  read_only (Git c) → harmless (git_command root io_operation operation c).
Proof.
  intros Hc. apply harmless_bind; [by apply harmless_run |]. intros o.
  apply harmless_bind; [apply harmless_ensure |]. intros []. apply harmless_ret.
Qed.

Lemma harmless_locator root name : harmless (configured_remote_locator root name).
Proof.
  apply harmless_bind; [apply harmless_store |]. intros [].
  apply harmless_bind; [apply harmless_git; by intros w r w' H |]. intros l.
  apply harmless_bind; [apply harmless_store |]. intros []. apply harmless_ret.
Qed.

Lemma harmless_clean root : harmless (ensure_git_clean root).
Proof.
  apply harmless_bind; [apply harmless_git; by intros w r w' H |]. intros s.
  apply harmless_store.
Qed.

Lemma harmless_fetch root name remote_ref local_ref :
  harmless (fetch_ref root name remote_ref local_ref).
Proof.
  apply harmless_bind; [apply harmless_git; by intros w r w' H |]. intros s.
  apply harmless_ret.
Qed.

Lemma harmless_run_git root operation c :
  read_only (Git c) → harmless (run_git root operation c).
Proof.
  intros Hc. apply harmless_bind; [by apply harmless_git |]. intros s. apply harmless_ret.
Qed.

Lemma harmless_ref_commit root name r : harmless (remote_ref_commit root name r).
Proof.
  apply harmless_bind; [apply harmless_store |]. intros [].
  apply harmless_bind; [apply harmless_store |]. intros [].
  apply harmless_bind; [by apply harmless_run; intros w o w' [H _] |]. intros o.
  apply harmless_bind; [apply harmless_ensure |]. intros []. apply harmless_store.
Qed.

Lemma harmless_time : harmless current_time_utc_ms.
Proof.
  apply (harmless_bind (call CurrentTime)); [|intros t; apply harmless_store].
  apply (harmless_call CurrentTime). by intros w r w' [H _].
Qed.

Lemma is_ancestor_spec root a d (Q : bool → World → Prop) w :
  good w → (∀ b w', later w w' → (b = true → ancestor w' a d) → Q b w') →
  wpx (git_is_ancestor root a d) Q w.
Proof.
  intros Hw HQ. apply bind_spec; [done |].
  apply run_spec; [by intros w' o w'' [H _] | done |]. intros w1 o w2 Hw1 [_ Ho] Hw2 _.
  assert (∀ b w3, later w2 w3 → (b = true → exit_code o = Some 0%Z) → Q b w3) as Hend.
  { intros b w3 Hw3 Hb. assert (later w1 w3) as Hw13 by by eapply trans.
    apply HQ; [by eapply trans |]. intros ->. eapply grows_ancestor; [apply Hw13 |].
    by apply (Ho o eq_refl), Hb. }
  destruct (exit_code o) as [[|[]|]|]; try by apply store_spec.
  - apply ret_spec. intros w3 Hw3. by apply Hend.
  - apply ret_spec. intros w3 Hw3. by apply Hend.
Qed.

(** The ref had the returned value at some moment of the call. *)
Lemma remote_ref_commit_spec root name r (Q : option string → World → Prop) w :
  one_line r = true → good w →
  (∀ w1 w', later w w1 → later w1 w' → Q (current w1 r) w') →
  wpx (remote_ref_commit root name r) Q w.
Proof.
  intros Hr Hw HQ. apply bind_spec; [done |]. apply harmless_store; [done |].
  intros [] w1 Hw1 _. apply bind_spec; [by eapply later_good |].
  apply harmless_store; [by eapply later_good |]. intros [] w2 Hw2 _.
  apply bind_spec; [by eapply later_good |].
  apply run_spec; [by intros w' o' w'' [H _] | by eapply later_good |].
  intros w3 o w4 Hw3 [_ Ho] Hw4 _. apply bind_spec; [by eapply later_good |].
  apply store_spec. intros [] w5 Hok Hw5 _. apply bail_if_Ok, negb_false_iff in Hok.
  rewrite (Ho o eq_refl Hok). apply store_spec. intros x w6 Hx Hw6.
  apply parse_ls_remote_current in Hx as ->; [|apply good_wf; by eapply later_good | done].
  apply HQ; [eapply trans; [|done]; by eapply trans |].
  eapply trans; [done |]. by eapply trans.
Qed.

Lemma current_time_spec (Q : N → World → Prop) w :
  good w →
  (∀ w1 w', later w w1 → later w1 w' → Q (clock w1) w') →
  wpx current_time_utc_ms Q w.
Proof.
  intros Hw HQ. apply bind_spec; [done |].
  apply read_spec; [by intros w1 r w' [H _] |]. intros w1 r w' Hw1 [_ Hr] Hw' _.
  apply store_spec. intros t w'' -> Hw''. rewrite (Hr t eq_refl). apply HQ; [done |].
  by eapply trans.
Qed.

Lemma harmless_ulid prefix : harmless (prefixed_ulid prefix).
Proof.
  apply (harmless_bind (call NewUlid)); [apply (harmless_call NewUlid); by intros w r w' H |].
  intros u. apply harmless_ret.
Qed.

(** A push leaves a good world behind; when it was accepted, the remote had the commit or a
    value the push allows, and the commit is on the ref. *)
Lemma pushes_at_spec root c commit r (allowed : World → option string → Prop)
    (Q : bool → World → Prop) w :
  (∀ w1 out w2, git_exec w1 c out w2 →
    (w2 = w1 ∧ ¬ succeeded out) ∨ pushes w1 commit r (allowed w1) w2) →
  good w →
  (∀ w1, later w w1 → is_Some (objects w1 !! commit) → allowed w1 (current w1 r) →
    good (set_ref r commit w1)) →
  (∀ b w', later w w' → (b = true → commit ∈ log w' r ∧ ∃ w1, later w w1 ∧ later w1 w' ∧
     (current w1 r = Some commit ∨ allowed w1 (current w1 r))) → Q b w') →
  wpx (git_command_status root c) Q w.
Proof.
  intros Hc Hw Hgood HQ. apply bind_spec; [done |]. apply bind_spec; [done |].
  intros w1 out w2 Hw1 He.
  assert (later w1 w2 ∧ (succeeded out → commit ∈ log w2 r ∧
    (current w1 r = Some commit ∨ allowed w1 (current w1 r)))) as [Hw2 Hlog].
  { destruct (Hc w1 out w2 He) as [[-> Hno] | [Hcommit [[Hcur ->] | [Hal ->]]]].
    - split; [apply later_refl; [apply _ | by eapply later_good] | done].
    - split; [apply later_refl; [apply _ | by eapply later_good] |].
      intros _. split; [by apply current_log | by left].
    - split; [split; [apply set_ref_grows | by apply Hgood] |].
      intros _. rewrite log_set_ref. split; [by left | by right]. }
  split; [done |]. intros w3 Hw3 _. apply store_spec. intros o w4 Ho Hw4 _.
  apply map_err_Ok in Ho. cbn in out. subst out.
  apply ret_spec. intros w5 Hw5.
  assert (later w2 w5) as Hend by (eapply trans; [done |]; by eapply trans).
  apply HQ; [eapply trans; [|done]; by eapply trans |].
  intros Hb. destruct (Hlog Hb) as [Hin Hallowed].
  split; [eapply grows_log; [apply Hend | done] |].
  exists w1. split_and!; [done | by eapply trans | done].
Qed.

Lemma pushes_spec root c commit r (allowed : World → option string → Prop)
    (Q : bool → World → Prop) w :
  (∀ w1 out w2, git_exec w1 c out w2 →
    (w2 = w1 ∧ ¬ succeeded out) ∨ pushes w1 commit r (allowed w1) w2) →
  good w →
  (∀ w1, later w w1 → is_Some (objects w1 !! commit) → allowed w1 (current w1 r) →
    good (set_ref r commit w1)) →
  (∀ b w', later w w' → (b = true → commit ∈ log w' r) → Q b w') →
  wpx (git_command_status root c) Q w.
Proof.
  intros Hc Hw Hgood HQ. apply (pushes_at_spec root c commit r allowed); [done..|].
  intros b w' Hw' Hb. apply HQ; [done |]. intros Ht. by destruct (Hb Ht).
Qed.

(** The tree a successful [git write-tree] printed. *)
Lemma write_tree_spec root operation content (Q : string → World → Prop) w :
  good w →
  (∀ tree w', later w w' → tree_holds tree content → Q tree w') →
  wpx (git_stdout root operation (WriteTree content)) Q w.
Proof.
  intros Hw HQ. apply bind_spec; [done |].
  apply run_spec; [by intros w1 o w' [Hx _] | done |]. intros w1 o w2 Hw1 [_ Ho] Hw2 _.
  apply bind_spec; [by eapply later_good |]. apply store_spec. intros [] w3 Hok Hw3 _.
  apply bail_if_Ok, negb_false_iff in Hok. apply ret_spec. intros w4 Hw4.
  apply HQ; [|by apply Ho]. eapply trans; [done |]. eapply trans; [done |].
  by eapply trans.
Qed.

(** A commit whose name a successful [git commit-tree] printed. *)
Lemma commit_spec tree parents message
    (Q : result (Stage * string) Output → World → Prop) w :
  good w →
  (∀ out w', later w w' →
    (∀ o, out = Ok o → success o = true → ∃ id c, objects w' !! id = Some c ∧
      commit_tree c = tree ∧ commit_parents c = parents ∧ commit_message c = message ∧
      is_object_name id = true ∧ stdout o = id +:+ newline) → Q out w') →
  wpx (call (GitInput (CommitTree tree parents) message)) Q w.
Proof.
  intros Hw HQ w1 out w2 Hw1 He. cbn in He.
  assert (later w1 w2 ∧ ∀ o, out = Ok o → success o = true → ∃ id c,
    objects w2 !! id = Some c ∧ commit_tree c = tree ∧ commit_parents c = parents ∧ commit_message c = message ∧
    is_object_name id = true ∧ stdout o = id +:+ newline) as [Hw2 Hout].
  { destruct He as [[-> Hno] | (id & Hid & Ho)].
    - split; [apply later_refl; [apply _ | by eapply later_good] |].
      intros o -> Hs. by destruct Hno.
    - split; [split; [by eapply commits_grows |]; eapply good_commits; [|done];
        by eapply later_good |].
      intros o -> Hs. destruct Hid as (c & ? & ? & ? & ? & ? & ? & ? & ? & ->).
      exists id, c. cbn. rewrite lookup_insert_eq. by rewrite (Ho o). }
  split; [done |]. intros w3 Hw3. apply HQ; [eapply trans; [done |]; by eapply trans |].
  intros o Ho Hs. destruct (Hout o Ho Hs) as (id & c & Hc & Hrest). exists id, c.
  split; [|done]. eapply grows_object; [apply Hw3 | done].
Qed.
End specs.

(** Follows the worlds of a program from one to a later one. *)
Ltac chain :=
  first
    [ eassumption
    | match goal with
      | H : later _ _ ?a ?b |- later _ _ ?a ?c => apply (trans _ a b c H); chain
      end ].
