(* ===== verification/Leases.v ===== *)
(** Coordination leases on a remote: [acquire_archive_lease], [release_archive_lease] and the
    helpers they call in [v2_store.rs].

    The leases of an archive are a chain of signed commits under one ref of the remote; a
    client extends it with a compare-and-swap push. The programs below are the whole
    operations. The theorems are about any number of clients that run them at once over one
    remote: the ref always holds a chain in which no lease begins before the one before it
    ended, so two leases are never held at the same time. *)
From Stdlib Require Import ZArith NArith Lia Ascii.
From stdpp Require Import base decidable list gmap strings sorting pretty.
From S2P Require Import Prelude.
From S2P Require Import Text.
From S2P Require Import External.
From S2P Require Import Ids.
From S2P Require Import Frontier.
From S2P Require Import Batch.
From S2P Require Import Record.
From S2P Require Import Genesis.
From S2P Require Import GitPolicy.
From S2P Require Import Store.
From S2P Require Import Segment.
From S2P Require Import Clients.
From S2P Require Import Coordination.
From S2P Require Import Archive.
From S2P Require Import Visit.
From S2P Require Import Interaction.
From S2P Require Import Remote.

Definition DEFAULT_COORDINATION_LEASE_MS : N := 120000.
Definition ACTIVE_CLIENT_FILE : string := "ACTIVE".
Definition LOCAL_KEY_VERSION : N := 1.

Record LocalClientKey : Type := {
  key_v : N;
  key_archive_id : string;
  key_origin_id : string;
  secret_key : string;
}.

Record V2CoordinationLease : Type := {
  held_version : N;
  held_remote : string;
  held_scope_kind : string;
  held_scope_id : string;
  held_token_id : string;
  held_by : string;
  held_base_frontier : string;
  held_from : N;
  held_until : N;
  held_commit : string;
  lease_proof : Value;
}.

(** [SigningKey::from_bytes]; [serde_json::to_value]. *)
Class SecretKeys `{Ed25519} := { signing_key_from_bytes : bytes → SigningKey }.
Class ToValue (A : Type) := { to_value : A → result string Value }.

(** [serde_json] reads back what it wrote, on one line. *)
Class LineJson (A : Type) `{ToJson A, FromJson A} : Prop := {
  line_json : ∀ (a : A) b, to_json a = Ok b → from_json b = Ok a ∧ ("010"%char ∉ b);
}.

(** [matches!(state, "acquired" | "renewed")] *)
Definition is_held (state : string) : bool := bool_decide (state ∈ ["acquired"; "renewed"]).

Section leases.
Context `{Blake3, UlidCrate, Base64, Ed25519, !SecretKeys,
  FromJson V2RecordEnvelope, ToJson SegmentManifestBody, ToJson SignedSegmentManifest,
  FromJson SignedSegmentManifest, ToJson GenesisBody, ToJson SignedGenesis,
  FromJson SignedGenesis, ToJson CausalFrontier, FromJson CausalFrontier,
  ToJson CoordinationLeaseBody, FromValue SignedCoordinationLease,
  ToJson SignedCoordinationLease, FromJson SignedCoordinationLease,
  ToValue SignedCoordinationLease, FromJson LocalClientKey}.

(** [self.root] as errors show it; the depth of the frontier graph [verify_compact] may meet. *)
Variable root : string.
Variable fuel : nat.

Definition coordination_lease_ref (scope_id : string) : string :=
  "refs/archive-ledger/leases/" +:+ blake3_hex (as_bytes scope_id).
Definition coordination_local_ref (scope_id : string) : string :=
  "refs/archive-ledger/fetched-leases/" +:+ blake3_hex (as_bytes scope_id).

(** ** The local client *)

(** [self.verify_compact()] on the canonical tree as it is at that moment. *)
Definition verify_local : remote VerifiedV2Archive :=
  tree ← call ReadTree;
  pure (verify_compact fuel tree).

Definition read_local (path : string) : remote bytes :=
  content ← call (ReadLocal path);
  store (map_err (Io "read canonical file" path) content).

Definition parse_active_client (active : bytes) : result V2StoreError string :=
  _ ← bail_if (negb (is_utf8 active)) (Invalid "active client selector is not UTF-8");
  origin ← ok_or (strip_suffix newline (of_bytes active))
    (Invalid "active client selector must end with one newline");
  _ ← validate_origin_id origin;
  _ ← bail_if (negb (bool_decide (of_bytes active = origin +:+ newline)))
        (Invalid "active client selector must contain one origin ID");
  Ok origin.

Definition active_origin_id : remote string :=
  active ← read_local ("local/clients/" +:+ ACTIVE_CLIENT_FILE);
  store (parse_active_client active).

Definition parse_local_key (path archive_id origin_id : string) (content : bytes)
    : result V2StoreError SigningKey :=
  local ← parse_json (T := LocalClientKey) path content;
  _ ← bail_if (negb (key_v local =? LOCAL_KEY_VERSION)%N
               || negb (bool_decide (key_archive_id local = archive_id))
               || negb (bool_decide (key_origin_id local = origin_id)))
        (Invalid "local signing key belongs to another Archive or origin");
  decoded ← ok_or (base64_decode (secret_key local))
    (Invalid "local secret key is not base64");
  _ ← bail_if (negb (length decoded =? 32))
        (Invalid "local secret key has the wrong length");
  Ok (signing_key_from_bytes decoded).

Definition load_local_signing_key (archive_id origin_id : string) : remote SigningKey :=
  let path := "local/clients/" +:+ origin_id +:+ ".key" in
  content ← read_local path;
  store (parse_local_key path archive_id origin_id content).

(** ** Lease commits *)

Definition archive_of (verified : VerifiedV2Archive) : string :=
  genesis_archive_id (Archive.genesis verified).

(** [read_signed_lease_commit] after [git cat-file]. *)
Definition parse_lease_commit (commit : string) (verified : VerifiedV2Archive)
    (kind scope raw : string) : result V2StoreError SignedCoordinationLease :=
  '(headers, message) ← ok_or (split_once (newline +:+ newline) raw)
    (Invalid "coordination lease commit has no message");
  let message := default message (strip_suffix newline message) in
  _ ← bail_if (contains newline message)
        (Invalid "coordination lease commit message is not one JSON line");
  signed ← parse_json (T := SignedCoordinationLease) ("git:" +:+ commit) (as_bytes message);
  _ ← verify_signed_coordination_lease signed (archive_of verified)
        (archive_genesis_hash verified) (clients verified);
  _ ← bail_if (negb (bool_decide (scope_kind (lease_body signed) = kind))
               || negb (bool_decide (scope_id (lease_body signed) = scope)))
        (Invalid "coordination lease commit uses the wrong scope");
  let parents := omap (strip_prefix "parent ") (str_lines headers) in
  _ ← bail_if (negb match previous_lease_commit (lease_body signed) with
                    | None => bool_decide (parents = [])
                    | Some parent => bool_decide (parents = [parent])
                    end)
        (Invalid "coordination lease Git ancestry does not match its signed chain");
  Ok signed.

Definition read_signed_lease_commit (commit : string) (verified : VerifiedV2Archive)
    (kind scope : string) : remote SignedCoordinationLease :=
  raw ← git_stdout_preserve root "read coordination lease commit" (CatCommit commit);
  store (parse_lease_commit commit verified kind scope raw).

Definition stage_error (failure : Stage * string) : V2StoreError :=
  let operation :=
    match failure.1 with
    | Starting => "create coordination lease commit"
    | Writing => "write coordination lease commit"
    | Finishing => "finish coordination lease commit"
    end in
  Io operation root failure.2.

(** The process is started before the lease is serialized; when that fails, its input ends
    empty. *)
Definition lease_message (signed : SignedCoordinationLease) : result V2StoreError bytes :=
  (λ b, b ++ ["010"%char]) <$> canonical_json signed.

Definition create_coordination_commit (parent : option string)
    (signed : SignedCoordinationLease) : remote string :=
  tree ← git_stdout root "read coordination commit tree" (RevParse "HEAD^{tree}");
  let message := lease_message signed in
  output ← call (GitInput (CommitTree tree (option_list parent))
                   (match message with Ok b => b | Err _ => [] end));
  _ ← store (match output with
             | Err (Starting, e) => Err (stage_error (Starting, e))
             | _ => Ok ()
             end);
  _ ← store message;
  output ← store (map_err stage_error output);
  _ ← ensure_success root "create coordination lease commit" output;
  mret (trim (stdout output)).

(** ** Acquiring *)

(** What the attempts of one call share. *)
Record Request : Type := {
  request_remote : string;
  request_verified : VerifiedV2Archive;
  request_client : string;
  request_key : SigningKey;
  request_duration : N;
}.

(** The lease that is still in force is an error. *)
Definition check_previous (q : Request) (now : N) (previous_commit : option string)
    : remote () :=
  let scope := archive_of (request_verified q) in
  match previous_commit with
  | None => mret ()
  | Some commit =>
      _ ← fetch_ref root (request_remote q) (coordination_lease_ref scope)
            (coordination_local_ref scope);
      previous ← read_signed_lease_commit commit (request_verified q) "archive" scope;
      let b := lease_body previous in
      store (bail_if (is_held (state b) && (now <=? not_after_utc_ms b)%N)
        (Invalid ("coordination scope is held by client " +:+ holder_client_id b
                  +:+ " until " +:+ pretty (not_after_utc_ms b))))
  end.

Definition lease_request (q : Request) (now until : N) (token : string)
    (previous_commit : option string) : CoordinationLeaseBody := {|
  lease_v := COORDINATION_LEASE_VERSION;
  lease_archive_id := archive_of (request_verified q);
  lease_genesis_hash := archive_genesis_hash (request_verified q);
  scope_kind := "archive";
  scope_id := archive_of (request_verified q);
  token_id := token;
  holder_client_id := request_client q;
  base_frontier_hash := accepted_frontier_hash (request_verified q);
  state := "acquired";
  not_before_utc_ms := now;
  not_after_utc_ms := until;
  previous_lease_commit := previous_commit
|}.

Definition granted (q : Request) (signed : SignedCoordinationLease) (commit : string)
    (proof : Value) : V2CoordinationLease :=
  let b := lease_body signed in {|
  held_version := 2;
  held_remote := request_remote q;
  held_scope_kind := "archive";
  held_scope_id := archive_of (request_verified q);
  held_token_id := token_id b;
  held_by := request_client q;
  held_base_frontier := base_frontier_hash b;
  held_from := not_before_utc_ms b;
  held_until := not_after_utc_ms b;
  held_commit := commit;
  lease_proof := proof
|}.

(** The body of the loop; [None] tries again. *)
Definition acquire_attempt (q : Request) : remote (option V2CoordinationLease) :=
  let scope := archive_of (request_verified q) in
  let lease_ref := coordination_lease_ref scope in
  previous_commit ← remote_ref_commit root (request_remote q) lease_ref;
  now ← current_time_utc_ms;
  _ ← check_previous q now previous_commit;
  until ← store (ok_or (checked_add_u64 now (request_duration q)) (Invalid "lease time overflow"));
  token ← prefixed_ulid "lease_";
  signed ← store (sign_coordination_lease (lease_request q now until token previous_commit)
                    (request_key q));
  commit ← create_coordination_commit previous_commit signed;
  pushed ← push_ref_cas root (request_remote q) commit lease_ref previous_commit;
  if pushed : bool then
    proof ← store (map_err (λ error, Invalid ("serialize coordination lease proof: " +:+ error))
                     (to_value signed));
    mret (Some (granted q signed commit proof))
  else mret None.

Fixpoint acquire_loop (q : Request) (attempts : nat) : remote V2CoordinationLease :=
  match attempts with
  | O => store (Err (Invalid "coordination lease changed repeatedly; retry the operation"))
  | S attempts =>
      lease ← acquire_attempt q;
      match lease with
      | Some lease => mret lease
      | None => acquire_loop q attempts
      end
  end.

Definition acquire_archive_lease_with_duration (name : string) (duration : N)
    : remote V2CoordinationLease :=
  _ ← configured_remote_locator root name;
  _ ← store (bail_if (duration =? 0)%N (Invalid "coordination lease duration must be positive"));
  _ ← ensure_git_clean root;
  verified ← verify_local;
  active_client ← active_origin_id;
  client ← store (ok_or (clients verified !! active_client)
    (Invalid "active client is not enrolled"));
  _ ← store (bail_if (is_revoked client
                      || negb (existsb (λ c, bool_decide (c = "coordination")) (capabilities client)))
        (Invalid "active client is not authorized for coordination"));
  local_commit ← git_stdout root "read lease base commit" (RevParse "HEAD");
  remote_commit ← remote_archive_commit root name;
  _ ← store (bail_if (negb (bool_decide (remote_commit = Some local_commit)))
        (Invalid "synchronize the Archive before acquiring a coordination lease"));
  key ← load_local_signing_key (archive_of verified) active_client;
  acquire_loop {| request_remote := name; request_verified := verified;
                  request_client := active_client; request_key := key;
                  request_duration := duration |} 4.

Definition acquire_archive_lease (name : string) : remote V2CoordinationLease :=
  acquire_archive_lease_with_duration name DEFAULT_COORDINATION_LEASE_MS.

(** ** Releasing *)

Definition release_body (lease : V2CoordinationLease) (verified : VerifiedV2Archive) (now : N)
    : CoordinationLeaseBody := {|
  lease_v := COORDINATION_LEASE_VERSION;
  lease_archive_id := archive_of verified;
  lease_genesis_hash := archive_genesis_hash verified;
  scope_kind := held_scope_kind lease;
  scope_id := held_scope_id lease;
  token_id := held_token_id lease;
  holder_client_id := held_by lease;
  base_frontier_hash := held_base_frontier lease;
  state := "released";
  not_before_utc_ms := held_from lease;
  not_after_utc_ms := now;
  previous_lease_commit := Some (held_commit lease)
|}.

Definition release_archive_lease (lease : V2CoordinationLease) : remote () :=
  let foreign :=
    Invalid "coordination lease does not belong to this active client and Archive" in
  _ ← configured_remote_locator root (held_remote lease);
  verified ← verify_local;
  _ ← store (bail_if (negb (bool_decide (held_scope_kind lease = "archive"))
                      || negb (bool_decide (held_scope_id lease = archive_of verified))) foreign);
  active_client ← active_origin_id;
  _ ← store (bail_if (negb (bool_decide (held_by lease = active_client))) foreign);
  let lease_ref := coordination_lease_ref (held_scope_id lease) in
  current_commit ← remote_ref_commit root (held_remote lease) lease_ref;
  _ ← store (bail_if (negb (bool_decide (current_commit = Some (held_commit lease))))
        (Invalid "coordination lease is no longer current"));
  prior ← read_signed_lease_commit (held_commit lease) verified (held_scope_kind lease)
            (held_scope_id lease);
  let b := lease_body prior in
  _ ← store (bail_if (negb (bool_decide (token_id b = held_token_id lease))
                      || negb (bool_decide (holder_client_id b = held_by lease))
                      || negb (is_held (state b)))
        (Invalid "coordination lease token does not match the remote"));
  key ← load_local_signing_key (archive_of verified) (held_by lease);
  now ← current_time_utc_ms;
  signed ← store (sign_coordination_lease (release_body lease verified now) key);
  commit ← create_coordination_commit (Some (held_commit lease)) signed;
  pushed ← push_ref_cas root (held_remote lease) commit lease_ref (Some (held_commit lease));
  store (bail_if (negb pushed)
    (Invalid "coordination lease changed before it could be released")).

(** ** Lease commits read back *)

(** The lease a commit carries. *)
Definition lease_of (c : Commit) : option SignedCoordinationLease :=
  let m := of_bytes (commit_message c) in
  match from_json (as_bytes (default m (strip_suffix newline m))) with
  | Ok signed => Some signed
  | Err _ => None
  end.

(** A commit as Git makes it. *)
Record plain_commit (c : Commit) : Prop := {
  plain_tree : one_line (commit_tree c) = true;
  plain_identity : one_line (identity c) = true;
  plain_parents : Forall (λ p, one_line p = true) (commit_parents c);
}.

Lemma wf_plain w id c : wf w → objects w !! id = Some c → plain_commit c.
Proof.
  intros [_ Hl Hp _] Hc. destruct (Hl id c Hc). split; [done | done |].
  apply Forall_forall. intros p Hin. apply object_name_one_line. by eapply Hp.
Qed.

Lemma contains_newline s : contains newline s = false → "010"%char ∉ as_bytes s.
Proof.
  intros Hc Hin. apply list_elem_of_split in Hin as (l & r & Hs).
  enough (contains newline s = true) by congruence. apply contains_true.
  exists (of_bytes l), (of_bytes r). apply (inj as_bytes).
  by rewrite !as_bytes_app, !as_of_bytes, Hs.
Qed.

Lemma contains_newline_false s : "010"%char ∉ as_bytes s → contains newline s = false.
Proof.
  intros Hs. destruct (contains newline s) eqn:Hc; [|done]. destruct Hs.
  apply contains_true in Hc as (l & r & ->). rewrite !as_bytes_app. set_solver.
Qed.

Lemma parse_lease_commit_Ok commit verified kind scope c signed :
  plain_commit c →
  parse_lease_commit commit verified kind scope (commit_text c) = Ok signed ↔
  lease_of c = Some signed ∧
  ("010"%char ∉ as_bytes (default (of_bytes (commit_message c))
                            (strip_suffix newline (of_bytes (commit_message c))))) ∧
  verify_signed_coordination_lease signed (archive_of verified)
    (archive_genesis_hash verified) (clients verified) = Ok () ∧
  scope_kind (lease_body signed) = kind ∧ scope_id (lease_body signed) = scope ∧
  commit_parents c = option_list (previous_lease_commit (lease_body signed)).
Proof.
  intros [Ht Hi Hp]. destruct (commit_text_reads c Ht Hi Hp) as [Hsplit Hparents].
  unfold parse_lease_commit, lease_of. rewrite Hsplit. cbn [ok_or mbind result_bind].
  cbv zeta. rewrite Hparents. split.
  - intros Hrun. inv_ok. boolify. autorewrite with result in *.
    match goal with H : contains _ _ = false |- _ => apply contains_newline in H end.
    match goal with H : from_json _ = Ok _ |- _ => rewrite H end.
    destruct (previous_lease_commit (lease_body signed)); boolify; by split_and!.
  - intros (Hl & Hn & Hv & Hk & Hs & Hps). rewrite contains_newline_false by done.
    unfold parse_json. destruct (from_json _); [injection Hl as -> | done].
    cbn [bail_if mbind result_bind map_err]. rewrite Hv. cbn [mbind result_bind].
    rewrite (bool_decide_eq_true_2 _ Hk), (bool_decide_eq_true_2 _ Hs).
    cbn [negb orb bail_if mbind result_bind]. rewrite Hps.
    by destruct (previous_lease_commit (lease_body signed)); rewrite bool_decide_eq_true_2.
Qed.

Context `{!LineJson SignedCoordinationLease}.

Lemma lease_message_of signed b c :
  lease_message signed = Ok b → commit_message c = b →
  lease_of c = Some signed ∧
  ("010"%char ∉ as_bytes (default (of_bytes b) (strip_suffix newline (of_bytes b)))).
Proof.
  unfold lease_message, lease_of. intros Hb ->.
  destruct (canonical_json signed) as [m|] eqn:Hm; [|done]. injection Hb as <-.
  apply canonical_json_Ok, line_json in Hm as [Hread Hline].
  assert (strip_suffix newline (of_bytes (m ++ ["010"%char])) = Some (of_bytes m)) as ->.
  { apply strip_suffix_Some. by rewrite of_bytes_app. }
  cbn [from_option id]. by rewrite as_of_bytes, Hread.
Qed.

Lemma sign_lease_Ok body key signed :
  sign_coordination_lease body key = Ok signed →
  lease_body signed = body ∧ lease_ok body ∧
  ∃ message, to_json body = Ok message ∧
    lease_signature signed = base64_encode (sign key message).
Proof.
  unfold sign_coordination_lease. intros Hrun. inv_ok.
  autorewrite with result in *. split_and!; [done | by eapply validate_lease_Ok | eauto].
Qed.

(** ** The invariant of the lease refs *)

Definition lease_at (w : World) (commit : string) : option SignedCoordinationLease :=
  objects w !! commit ≫= lease_of.

(** When the client that wrote a lease read the clock. *)
Definition stamp (b : CoordinationLeaseBody) : N :=
  if decide (state b = "acquired") then not_before_utc_ms b else not_after_utc_ms b.

(** A lease is followed by one that begins after it ended, or by its own release. *)
Definition takes_over (previous b : CoordinationLeaseBody) : Prop :=
  state b = "acquired" ∧
  (is_held (state previous) = true → (not_after_utc_ms previous < not_before_utc_ms b)%N).
Definition gives_back (previous b : CoordinationLeaseBody) : Prop :=
  state b = "released" ∧ is_held (state previous) = true ∧
  token_id b = token_id previous ∧ holder_client_id b = holder_client_id previous.

Definition follows (w : World) (b : CoordinationLeaseBody) (older : list string) : Prop :=
  match older with
  | [] => state b = "acquired" ∧ previous_lease_commit b = None
  | p :: _ =>
      previous_lease_commit b = Some p ∧
      ∃ q, lease_at w p = Some q ∧ (stamp (lease_body q) <= stamp b)%N ∧
        (takes_over (lease_body q) b ∨ gives_back (lease_body q) b)
  end.

Definition entry (w : World) (commit : string) (older : list string) : Prop :=
  ∃ s, lease_at w commit = Some s ∧
    (not_before_utc_ms (lease_body s) <= not_after_utc_ms (lease_body s))%N ∧
    (stamp (lease_body s) <= clock w)%N ∧ follows w (lease_body s) older.

Fixpoint lease_log (w : World) (l : list string) : Prop :=
  match l with
  | [] => True
  | commit :: older => entry w commit older ∧ lease_log w older
  end.

(** The shared state as the programs keep it. *)
Record good (w : World) : Prop := {
  good_wf : wf w;
  good_linear : linear w;
  good_leases : ∀ scope, lease_log w (log w (coordination_lease_ref scope));
}.

Lemma lease_at_grows w w' commit s :
  grows w w' → lease_at w commit = Some s → lease_at w' commit = Some s.
Proof.
  unfold lease_at. rewrite !bind_Some. intros Hw (c & Hc & Hs). exists c.
  split; [by eapply grows_object | done].
Qed.

Lemma follows_grows w w' b older : grows w w' → follows w b older → follows w' b older.
Proof.
  intros Hw. destruct older as [|p older]; [done |]. intros (Hp & q & Hq & Hrest).
  split; [done |]. exists q. split; [by eapply lease_at_grows | done].
Qed.

Lemma entry_grows w w' commit older : grows w w' → entry w commit older → entry w' commit older.
Proof.
  intros Hw (s & Hs & Hwin & Hst & Hf). exists s. pose proof Hw as (_ & _ & Hc).
  split_and!; [by eapply lease_at_grows | done | lia | by eapply follows_grows].
Qed.

Lemma lease_log_grows w w' l : grows w w' → lease_log w l → lease_log w' l.
Proof.
  intros Hw. induction l as [|c l IH]; [done |]. intros [He Hl].
  split; [by eapply entry_grows | auto].
Qed.

Lemma lease_log_suffix w l l' : lease_log w (l ++ l') → lease_log w l'.
Proof. induction l as [|c l IH]; [done |]. intros [_ ?]. auto. Qed.

(** Every entry is a lease written before now. *)
Lemma lease_log_entry w l commit :
  lease_log w l → commit ∈ l →
  ∃ s, lease_at w commit = Some s ∧ (stamp (lease_body s) <= clock w)%N.
Proof.
  intros Hl (l1 & l2 & ->)%list_elem_of_split.
  apply lease_log_suffix in Hl as [(s & Hs & _ & Hst & _) _]. by exists s.
Qed.

(** An entry that names the lease before it comes right after it. *)
Lemma lease_log_position w l commit s p :
  lease_log w l → commit ∈ l → lease_at w commit = Some s →
  previous_lease_commit (lease_body s) = Some p →
  ∃ newer older, l = newer ++ commit :: p :: older.
Proof.
  intros Hl (l1 & l2 & ->)%list_elem_of_split Hs Hp.
  apply lease_log_suffix in Hl as [(s' & Hs' & _ & _ & Hf) _].
  rewrite Hs in Hs'. injection Hs' as <-. destruct l2 as [|p' older]; cbn in Hf.
  - destruct Hf as [_ Hf]. congruence.
  - destruct Hf as [Hf _]. exists l1, older. congruence.
Qed.

Lemma good_commits w tree parents message id w' :
  good w → commits w tree parents message id w' → good w'.
Proof.
  intros [Hwf Hlin Hl] Hc. pose proof (commits_grows _ _ _ _ _ _ Hc) as Hg. split.
  - by eapply wf_commits.
  - by eapply linear_commits.
  - intros scope. apply (lease_log_grows w); [done |].
    destruct Hc as (c & _ & _ & _ & _ & _ & _ & _ & _ & ->). apply Hl.
Qed.

Lemma good_drift w w' : good w → drift w w' → later grows good w w'.
Proof.
  intros Hw Hd. pose proof (drift_grows _ _ Hd) as Hg.
  destruct Hd as [Ho Hlog Hc | tree parents message id Hc];
    [|split; [done | by eapply good_commits]].
  destruct Hw as [[Hn Hli Hp Hr] Hlin Hl]. split; [done |].
  assert (∀ r, log w' r = log w r) as Hlogs by (intros r; unfold log; by rewrite Hlog).
  split.
  - split; setoid_rewrite Ho; try done. intros r c. rewrite Hlogs. apply Hr.
  - intros r l new old l' Heq. rewrite Hlogs in Heq. eapply grows_ancestor; [done |].
    by eapply Hlin.
  - intros scope. rewrite Hlogs. by apply (lease_log_grows w).
Qed.

Lemma good_push w r commit :
  good w → is_Some (objects w !! commit) → fast_forward w commit (current w r) →
  (∀ scope, r = coordination_lease_ref scope → entry w commit (log w r)) →
  good (set_ref r commit w).
Proof.
  intros [Hwf Hlin Hl] Hc Hff He. split.
  - by apply wf_set_ref.
  - by apply linear_set_ref.
  - intros scope. apply (lease_log_grows w); [apply set_ref_grows |].
    destruct (decide (r = coordination_lease_ref scope)) as [-> | Hne].
    + rewrite log_set_ref. split; [by eapply He | apply Hl].
    + rewrite log_set_ref_ne by done. apply Hl.
Qed.

(** ** What the programs do *)

Context {trees : GitTrees}.

#[local] Abbreviation later := (later grows good) (only parsing).
#[local] Abbreviation wpx := (wpx exec grows good) (only parsing).
#[local] Abbreviation harmless := (harmless good) (only parsing).

Lemma harmless_local : harmless verify_local.
Proof.
  apply (harmless_bind good (call ReadTree)); [|intros t; apply harmless_pure].
  apply (harmless_call good ReadTree). by intros w r w' Hr.
Qed.

Lemma harmless_read_local path : harmless (read_local path).
Proof.
  apply (harmless_bind good (call (ReadLocal path))); [|intros t; apply harmless_store].
  apply (harmless_call good (ReadLocal path)). by intros w r w' Hr.
Qed.

Lemma harmless_active : harmless active_origin_id.
Proof.
  apply harmless_bind; [apply harmless_read_local |]. intros b. apply harmless_store.
Qed.

Lemma harmless_key archive origin : harmless (load_local_signing_key archive origin).
Proof.
  apply harmless_bind; [apply harmless_read_local |]. intros b. apply harmless_store.
Qed.

(** A lease that was read is the one its commit carries. *)
Lemma read_lease_spec commit verified kind scope
    (Q : SignedCoordinationLease → World → Prop) w :
  good w →
  (∀ s w', later w w' → lease_at w' commit = Some s → Q s w') →
  wpx (read_signed_lease_commit commit verified kind scope) Q w.
Proof.
  intros Hw HQ. apply bind_spec; [done |]. apply bind_spec; [done |].
  apply run_spec; [by intros w' o w'' [He _] | done |]. intros w1 o w2 Hw1 [_ Ho] Hw2 _.
  apply bind_spec; [by eapply later_good |]. apply store_spec. intros [] w3 Hok Hw3 _.
  apply bail_if_Ok, negb_false_iff in Hok. destruct (Ho o eq_refl Hok) as (c & Hc & Htext).
  apply ret_spec. intros w4 Hw4 _. apply store_spec. intros s w5 Hs Hw5.
  assert (later w1 w5) as Hend by chain.
  apply HQ; [chain |]. rewrite Htext in Hs.
  apply parse_lease_commit_Ok in Hs as (Hs & _);
    [|eapply wf_plain; [exact (good_wf _ (later_good _ _ _ Hw1)) | done]].
  eapply lease_at_grows; [apply Hend |]. unfold lease_at. by rewrite Hc.
Qed.

(** A lease commit that was written carries its lease and its parent. *)
Lemma create_commit_spec parent signed (Q : string → World → Prop) w :
  good w →
  (∀ id c w', later w w' → objects w' !! id = Some c → lease_of c = Some signed →
    commit_parents c = option_list parent → Q id w') →
  wpx (create_coordination_commit parent signed) Q w.
Proof.
  intros Hw HQ. apply bind_spec; [done |].
  apply harmless_git; [by intros w' o w'' He | done |]. intros tree w1 Hw1 _.
  apply bind_spec; [by eapply later_good |].
  apply commit_spec; [apply good_commits | by eapply later_good |]. intros out w2 Hw2 Hout _.
  apply bind_spec; [by eapply later_good |]. apply store_spec. intros [] w3 _ Hw3 _.
  apply bind_spec; [by eapply later_good |]. apply store_spec. intros m w4 Hm Hw4 _.
  apply bind_spec; [by eapply later_good |]. apply store_spec. intros o w5 Ho Hw5 _.
  apply map_err_Ok in Ho.
  apply bind_spec; [by eapply later_good |]. apply store_spec. intros [] w6 Hok Hw6 _.
  apply bail_if_Ok, negb_false_iff in Hok.
  destruct (Hout o Ho Hok) as (id & c & Hc & _ & Hp & Hmsg & Hid & ->).
  rewrite trim_object_name by done. apply ret_spec. intros w7 Hw7.
  assert (later w2 w7) as Hend by chain.
  apply (HQ id c).
  - chain.
  - eapply grows_object; [apply Hend | done].
  - rewrite Hm in Hmsg. by apply (lease_message_of _ _ _ Hm).
  - done.
Qed.

Context `{!Blake3Laws}.

Lemma lease_ref_line scope : one_line (coordination_lease_ref scope) = true.
Proof.
  unfold coordination_lease_ref. rewrite one_line_app. apply andb_true_iff. split; [done |].
  pose proof (blake3_hex_lower (as_bytes scope)) as Hl. rewrite all_bytes_true in Hl.
  apply one_line_true. split; intros Hin; by destruct (lower_hex_plain _ (Hl _ Hin)) as (? & ? & _).
Qed.

(** What the newest lease says to a client that read it and then the clock. *)
Definition may_follow (w : World) (now : N) (previous_commit : option string) : Prop :=
  match previous_commit with
  | None => True
  | Some p => ∃ q, lease_at w p = Some q ∧ (stamp (lease_body q) <= now)%N ∧
      (is_held (state (lease_body q)) = true → (not_after_utc_ms (lease_body q) < now)%N)
  end.

Lemma check_previous_spec q now previous_commit (Q : () → World → Prop) w :
  good w →
  (∀ p, previous_commit = Some p → ∃ s, lease_at w p = Some s ∧ (stamp (lease_body s) <= now)%N) →
  (∀ w', later w w' → may_follow w' now previous_commit → Q () w') →
  wpx (check_previous q now previous_commit) Q w.
Proof.
  intros Hw Hp HQ. destruct previous_commit as [p|]; cbn [check_previous].
  - destruct (Hp p eq_refl) as (s & Hs & Hst).
    apply bind_spec; [done |]. apply harmless_fetch; [done |]. intros [] w1 Hw1 _.
    apply bind_spec; [by eapply later_good |]. apply read_lease_spec; [by eapply later_good |].
    intros s' w2 Hw2 Hs' _. apply store_spec. intros [] w3 Hno Hw3. apply bail_if_Ok in Hno.
    assert (later w w3) as Hend by chain.
    assert (lease_at w3 p = Some s) as Hs3 by (eapply lease_at_grows; [apply Hend | done]).
    apply (lease_at_grows w2 w3) in Hs'; [|apply Hw3]. rewrite Hs3 in Hs'. injection Hs' as <-.
    apply HQ; [done |]. exists s. split_and!; [done | done |]. intros Hheld.
    rewrite Hheld in Hno. by apply N.leb_gt.
  - apply ret_spec. intros w' Hw'. by apply HQ.
Qed.

(** The next entry of a lease ref whose value a client read. *)
Lemma entry_acquired w r commit signed older now :
  lease_at w commit = Some signed → older = log w r →
  state (lease_body signed) = "acquired" → not_before_utc_ms (lease_body signed) = now →
  lease_ok (lease_body signed) → (now <= clock w)%N →
  previous_lease_commit (lease_body signed) = current w r →
  may_follow w now (current w r) →
  entry w commit older.
Proof.
  intros Hs -> Hstate Hnow Hok Hclock Hprev Hmay. exists signed.
  assert (stamp (lease_body signed) = now) as Hst by (unfold stamp; by rewrite decide_True).
  split_and!; [done | apply Hok | lia |]. unfold current in *.
  destruct (log w r) as [|p older]; [done |]. split; [done |].
  destruct Hmay as (q & Hq & Hqst & Hheld). exists q.
  split_and!; [done | lia |]. left. split; [done |]. by rewrite Hnow.
Qed.

(** A lease that was granted is in the chain of its ref, as the client was told. *)
Definition granted_in (w : World) (lease : V2CoordinationLease) : Prop :=
  held_commit lease ∈ log w (coordination_lease_ref (held_scope_id lease)) ∧
  ∃ signed, lease_at w (held_commit lease) = Some signed ∧
    state (lease_body signed) = "acquired" ∧
    scope_id (lease_body signed) = held_scope_id lease ∧
    token_id (lease_body signed) = held_token_id lease ∧
    holder_client_id (lease_body signed) = held_by lease ∧
    not_before_utc_ms (lease_body signed) = held_from lease ∧
    not_after_utc_ms (lease_body signed) = held_until lease.

Lemma granted_grows w w' lease : grows w w' → granted_in w lease → granted_in w' lease.
Proof.
  intros Hw (Hin & s & Hs & Hrest). split; [by eapply grows_log |]. exists s.
  split; [by eapply lease_at_grows | done].
Qed.

(** Pushing a lease onto the ref it was made for. *)
Lemma push_lease_spec name commit scope parent signed c (Q : bool → World → Prop) w :
  good w → objects w !! commit = Some c → lease_of c = Some signed →
  commit_parents c = option_list parent →
  (∀ w1, later w w1 → current w1 (coordination_lease_ref scope) = parent →
    entry w1 commit (log w1 (coordination_lease_ref scope))) →
  (∀ b w', later w w' → lease_at w' commit = Some signed →
    (b = true → commit ∈ log w' (coordination_lease_ref scope)) → Q b w') →
  wpx (push_ref_cas root name commit (coordination_lease_ref scope) parent) Q w.
Proof.
  intros Hw Hc Hs Hp He HQ.
  assert (lease_at w commit = Some signed) as Hat by (unfold lease_at; by rewrite Hc).
  apply (pushes_spec good root _ commit (coordination_lease_ref scope) (λ _ cur, cur = parent));
    [by intros w1 out w2 Hx | done | |].
  - intros w1 Hw1 Hc1 Hcur. apply good_push; [by eapply later_good | done | |].
    + rewrite Hcur. destruct parent as [p|]; [|done]. apply rtc_once. exists c.
      split; [eapply grows_object; [apply Hw1 | done] |]. rewrite Hp. by left.
    + intros scope' Hscope. by apply He.
  - intros b w' Hw' Hb. apply HQ; [done | | done].
    eapply lease_at_grows; [apply Hw' | done].
Qed.

Lemma may_follow_grows w w' now previous :
  grows w w' → may_follow w now previous → may_follow w' now previous.
Proof.
  intros Hw. destruct previous as [p|]; [|done]. intros (q & Hq & Hrest). exists q.
  split; [by eapply lease_at_grows | done].
Qed.

Lemma acquire_attempt_spec q w :
  good w →
  wpx (acquire_attempt q)
    (λ lease w', match lease with Some lease => granted_in w' lease | None => True end) w.
Proof.
  intros Hw. unfold acquire_attempt. set (scope := archive_of _). set (r := coordination_lease_ref scope).
  apply bind_spec; [done |].
  apply remote_ref_commit_spec; [apply good_wf | apply lease_ref_line | done |].
  intros w1 w2 Hw1 Hw2 _. apply bind_spec; [by eapply later_good |].
  apply current_time_spec; [by eapply later_good |]. intros w3 w4 Hw3 Hw4 _.
  set (now := clock w3) in *. apply bind_spec; [by eapply later_good |].
  apply check_previous_spec; [by eapply later_good | |].
  { intros p Hp%current_log.
    destruct (lease_log_entry w1 _ p (good_leases _ (later_good _ _ _ Hw1) scope) Hp)
      as (s & Hs & Hst).
    assert (later w1 w3) as [(_ & _ & Hc) _] by chain. assert (later w1 w4) as [Hg _] by chain.
    exists s. split; [by eapply lease_at_grows | unfold now; lia]. }
  intros w5 Hw5 Hmay _. apply bind_spec; [by eapply later_good |].
  apply store_spec. intros expiry w6 _ Hw6 _. apply bind_spec; [by eapply later_good |].
  apply harmless_ulid; [by eapply later_good |]. intros token w7 Hw7 _.
  apply bind_spec; [by eapply later_good |]. apply store_spec. intros signed w8 Hsigned Hw8 _.
  apply sign_lease_Ok in Hsigned as (Hbody & Hok & _).
  apply bind_spec; [by eapply later_good |].
  apply create_commit_spec; [by eapply later_good |]. intros commit c w9 Hw9 Hc Hlease Hp _.
  apply bind_spec; [by eapply later_good |].
  apply (push_lease_spec _ commit scope (current w1 r) signed c);
    [by eapply later_good | done | done | done | |].
  - intros w10 Hw10 Hcur. assert (later w5 w10) as [Hg5 _] by chain.
    assert (later w3 w10) as [(_ & _ & Hclock) _] by chain.
    apply (entry_acquired w10 r commit signed _ now); rewrite ?Hbody, ?Hcur; try done.
    + eapply lease_at_grows; [apply Hw10 |]. unfold lease_at. by rewrite Hc.
    + change (may_follow w10 now (current w10 r)). fold r in Hcur. rewrite Hcur. by eapply may_follow_grows.
  - intros b w10 Hw10 Hat Hlog _. destruct b; [|by apply ret_spec].
    apply bind_spec; [by eapply later_good |]. apply store_spec. intros proof w11 _ Hw11 _.
    apply ret_spec. intros w12 Hw12. apply (granted_grows w10); [|split; [by apply Hlog |]].
    + assert (later w10 w12) as [Hg _] by chain. done.
    + exists signed. unfold granted. cbn. rewrite Hbody. by split_and!.
Qed.

Lemma acquire_loop_spec q attempts w :
  good w → wpx (acquire_loop q attempts) (λ lease w', granted_in w' lease) w.
Proof.
  revert w. induction attempts as [|n IH]; intros w Hw; cbn [acquire_loop].
  - by apply store_spec.
  - apply bind_spec; [done |]. eapply wp_conseq, acquire_attempt_spec, Hw.
    intros [lease | e] w' Hl; cbn in *; [|done]. intros Hw'. destruct lease as [lease|].
    + apply ret_spec. intros w'' Hw''. by eapply granted_grows; [apply Hw'' |].
    + apply IH. by eapply later_good.
Qed.

Lemma acquire_spec name duration w :
  good w →
  wpx (acquire_archive_lease_with_duration name duration) (λ lease w', granted_in w' lease) w.
Proof.
  intros Hw. unfold acquire_archive_lease_with_duration.
  apply bind_spec; [done |]. apply harmless_locator; [done |]. intros locator w1 Hw1 _.
  apply bind_spec; [by eapply later_good |]. apply store_spec. intros [] w2 _ Hw2 _.
  apply bind_spec; [by eapply later_good |].
  apply harmless_clean; [by eapply later_good |]. intros [] w3 Hw3 _.
  apply bind_spec; [by eapply later_good |].
  apply harmless_local; [by eapply later_good |]. intros verified w4 Hw4 _.
  apply bind_spec; [by eapply later_good |].
  apply harmless_active; [by eapply later_good |]. intros active w5 Hw5 _.
  apply bind_spec; [by eapply later_good |]. apply store_spec. intros c w6 _ Hw6 _.
  apply bind_spec; [by eapply later_good |]. apply store_spec. intros [] w7 _ Hw7 _.
  apply bind_spec; [by eapply later_good |].
  apply harmless_git; [by intros w' o w'' He | by eapply later_good |]. intros local w8 Hw8 _.
  apply bind_spec; [by eapply later_good |].
  apply remote_ref_commit_spec; [apply good_wf | done | by eapply later_good |].
  intros w9 w10 _ Hw10 _. apply bind_spec; [by eapply later_good |].
  apply store_spec. intros [] w11 _ Hw11 _. apply bind_spec; [by eapply later_good |].
  apply harmless_key; [by eapply later_good |]. intros key w12 Hw12 _.
  apply acquire_loop_spec. by eapply later_good.
Qed.

(** A release that succeeded is in the chain, right after the lease it gives back. *)
Definition released_in (w : World) (lease : V2CoordinationLease) : Prop :=
  ∃ commit signed, commit ∈ log w (coordination_lease_ref (held_scope_id lease)) ∧
    lease_at w commit = Some signed ∧ state (lease_body signed) = "released" ∧
    previous_lease_commit (lease_body signed) = Some (held_commit lease) ∧
    token_id (lease_body signed) = held_token_id lease.

Lemma entry_released w r commit p signed s older :
  lease_at w commit = Some signed → older = log w r → current w r = Some p →
  lease_at w p = Some s → is_held (state (lease_body s)) = true →
  (stamp (lease_body s) <= not_after_utc_ms (lease_body signed))%N →
  (not_after_utc_ms (lease_body signed) <= clock w)%N →
  state (lease_body signed) = "released" → lease_ok (lease_body signed) →
  previous_lease_commit (lease_body signed) = Some p →
  token_id (lease_body signed) = token_id (lease_body s) →
  holder_client_id (lease_body signed) = holder_client_id (lease_body s) →
  entry w commit older.
Proof.
  intros Hat -> Hcur Hs Hheld Hst Hclock Hstate Hok Hprev Htoken Hholder. exists signed.
  assert (stamp (lease_body signed) = not_after_utc_ms (lease_body signed)) as Hstamp.
  { unfold stamp. by rewrite decide_False by (rewrite Hstate; discriminate). }
  split_and!; [done | apply Hok | lia |]. unfold current in Hcur.
  destruct (log w r) as [|p' older]; [done |]. injection Hcur as ->. split; [done |].
  exists s. split_and!; [done | lia |]. by right.
Qed.

Lemma release_spec lease w :
  good w → wpx (release_archive_lease lease) (λ _ w', released_in w' lease) w.
Proof.
  intros Hw. unfold release_archive_lease. set (r := coordination_lease_ref _).
  apply bind_spec; [done |]. apply harmless_locator; [done |]. intros locator w1 Hw1 _.
  apply bind_spec; [by eapply later_good |].
  apply harmless_local; [by eapply later_good |]. intros verified w2 Hw2 _.
  apply bind_spec; [by eapply later_good |]. apply store_spec. intros [] w3 _ Hw3 _.
  apply bind_spec; [by eapply later_good |].
  apply harmless_active; [by eapply later_good |]. intros active w4 Hw4 _.
  apply bind_spec; [by eapply later_good |]. apply store_spec. intros [] w5 _ Hw5 _.
  apply bind_spec; [by eapply later_good |].
  apply remote_ref_commit_spec; [apply good_wf | apply lease_ref_line | by eapply later_good |].
  intros w6 w7 Hw6 Hw7 _. apply bind_spec; [by eapply later_good |].
  apply store_spec. intros [] w8 Hcur Hw8 _. apply bail_if_Ok, negb_false_iff in Hcur.
  apply bool_decide_eq_true_1 in Hcur.
  apply bind_spec; [by eapply later_good |]. apply read_lease_spec; [by eapply later_good |].
  intros s w9 Hw9 Hs _. apply bind_spec; [by eapply later_good |].
  apply store_spec. intros [] w10 Hmatch Hw10 _. apply bail_if_Ok in Hmatch. boolify.
  apply bind_spec; [by eapply later_good |].
  apply harmless_key; [by eapply later_good |]. intros key w11 Hw11 _.
  apply bind_spec; [by eapply later_good |].
  apply current_time_spec; [by eapply later_good |]. intros w12 w13 Hw12 Hw13 _.
  apply bind_spec; [by eapply later_good |]. apply store_spec. intros signed w14 Hsigned Hw14 _.
  apply sign_lease_Ok in Hsigned as (Hbody & Hok & _).
  apply bind_spec; [by eapply later_good |].
  apply create_commit_spec; [by eapply later_good |]. intros commit c w15 Hw15 Hc Hlease Hp _.
  apply bind_spec; [by eapply later_good |].
  apply (push_lease_spec _ commit _ (Some (held_commit lease)) signed c);
    [by eapply later_good | done | done | done | |].
  - intros w16 Hw16 Hcur'.
    destruct (lease_log_entry w6 _ (held_commit lease)
      (good_leases _ (later_good _ _ _ Hw6) _) (current_log _ _ _ Hcur)) as (s' & Hs' & Hst).
    assert (later w6 w9) as [Hg _] by chain.
    apply (lease_at_grows w6 w9) in Hs'; [|done]. rewrite Hs in Hs'. injection Hs' as <-.
    assert (later w6 w12) as [(_ & _ & Hc12) _] by chain.
    assert (later w12 w16) as [(_ & _ & Hc16) _] by chain.
    apply (entry_released w16 r commit (held_commit lease) signed s);
      rewrite ?Hbody; try done; cbn; try lia.
    + eapply lease_at_grows; [apply Hw16 |]. unfold lease_at. by rewrite Hc.
    + assert (later w9 w16) as [Hg9 _] by chain. by eapply lease_at_grows.
  - intros b w16 Hw16 Hat Hlog _. apply store_spec. intros [] w17 Hb Hw17.
    apply bail_if_Ok, negb_false_iff in Hb. exists commit, signed. rewrite Hbody.
    split_and!; [eapply grows_log; [apply Hw17 | by apply Hlog] | | done..].
    eapply lease_at_grows; [apply Hw17 | done].
Qed.

(** ** Exclusion *)

(** A lease is in force at a time of its window until its release, if there is one. *)
Definition in_force (w : World) (lease : V2CoordinationLease) (t : N) : Prop :=
  (held_from lease <= t <= held_until lease)%N ∧
  ∀ c s, c ∈ log w (coordination_lease_ref (held_scope_id lease)) → lease_at w c = Some s →
    state (lease_body s) = "released" →
    previous_lease_commit (lease_body s) = Some (held_commit lease) →
    (t < not_after_utc_ms (lease_body s))%N.

(** In the chain, a lease ends before anything newer was written, by its window or by its
    release. *)
Lemma ended_before w c1 s1 older newer c2 s2 :
  lease_log w (c2 :: newer ++ c1 :: older) → lease_at w c1 = Some s1 → lease_at w c2 = Some s2 →
  is_held (state (lease_body s1)) = true →
  (not_after_utc_ms (lease_body s1) < stamp (lease_body s2))%N ∨
  ∃ x r, x ∈ c2 :: newer ∧ lease_at w x = Some r ∧ state (lease_body r) = "released" ∧
    previous_lease_commit (lease_body r) = Some c1 ∧
    (not_after_utc_ms (lease_body r) <= stamp (lease_body s2))%N.
Proof.
  intros Hl Hs1 Hs2 Hheld. revert c2 s2 Hl Hs2.
  induction newer as [|y newer IH]; intros c2 s2 [(s & Hs & _ & _ & Hf) Hl] Hs2;
    rewrite Hs2 in Hs; injection Hs as <-.
  - destruct Hf as (Hprev & q & Hq & _ & Hkind). rewrite Hs1 in Hq. injection Hq as <-.
    destruct Hkind as [[Hstate Hlt] | (Hstate & _)]; [left | right].
    + unfold stamp. rewrite decide_True by done. auto.
    + exists c2, s2. split_and!; [by left | done | done | done |].
      unfold stamp. by rewrite decide_False by (rewrite Hstate; discriminate).
  - destruct Hf as (_ & q & Hq & Hst & _).
    destruct (IH y q Hl Hq) as [Hlt | (x & r & Hx & Hr & Hstate & Hprev & Hle)]; [left; lia | right].
    exists x, r. split_and!; [by right | done | done | done | lia].
Qed.

Lemma not_both_in_force w lease1 lease2 t older newer l :
  lease_log w (log w (coordination_lease_ref (held_scope_id lease1))) →
  granted_in w lease1 → granted_in w lease2 →
  log w (coordination_lease_ref (held_scope_id lease1))
  = l ++ held_commit lease2 :: newer ++ held_commit lease1 :: older →
  in_force w lease1 t → in_force w lease2 t → False.
Proof.
  intros Hlog (_ & s1 & Hs1 & Hst1 & _ & _ & _ & Hb1 & Ha1)
    (_ & s2 & Hs2 & Hst2 & _ & _ & _ & Hb2 & Ha2) Heq [Ht1 Hr1] [Ht2 _].
  rewrite Heq in Hlog. apply lease_log_suffix in Hlog.
  assert (stamp (lease_body s2) = held_from lease2) as Hstamp
    by (unfold stamp; by rewrite decide_True).
  destruct (ended_before w _ s1 _ _ _ s2 Hlog Hs1 Hs2) as
    [Hlt | (x & r & Hx & Hr & Hrel & Hprev & Hle)]; [by rewrite Hst1 | lia |].
  enough (t < not_after_utc_ms (lease_body r))%N by lia.
  apply (Hr1 x r); [|done..]. rewrite Heq. clear -Hx. set_solver.
Qed.

Lemma exclusive w lease1 lease2 t :
  good w → granted_in w lease1 → granted_in w lease2 →
  held_scope_id lease1 = held_scope_id lease2 →
  in_force w lease1 t → in_force w lease2 t →
  held_commit lease1 = held_commit lease2 ∧ held_token_id lease1 = held_token_id lease2 ∧
  held_by lease1 = held_by lease2.
Proof.
  intros Hw Hg1 Hg2 Hscope Hf1 Hf2.
  pose proof (good_leases _ Hw (held_scope_id lease1)) as Hlog.
  destruct (decide (held_commit lease1 = held_commit lease2)) as [He | Hne].
  - destruct Hg1 as (_ & s1 & Hs1 & _ & _ & Ht1 & Hh1 & _), Hg2 as (_ & s2 & Hs2 & _ & _ & Ht2 & Hh2 & _).
    rewrite He, Hs2 in Hs1. injection Hs1 as <-. split_and!; congruence.
  - exfalso. pose proof (proj1 Hg1) as (l & l' & Heq)%list_elem_of_split.
    pose proof (proj1 Hg2) as Hin. rewrite <- Hscope, Heq in Hin.
    apply elem_of_app in Hin as [Hin | [Heq' | Hin]%elem_of_cons]; [| by destruct Hne |].
    + apply list_elem_of_split in Hin as (l1 & l2 & ->). rewrite <- app_assoc in Heq.
      by eapply (not_both_in_force w lease1 lease2 t l' l2 l1).
    + apply list_elem_of_split in Hin as (l1 & l2 & ->). rewrite Hscope in Heq, Hlog.
      by eapply (not_both_in_force w lease2 lease1 t l2 l1 l).
Qed.

(** C32: a lease that a client signed and committed on top of the lease it names reads back, from
    the text Git prints of the commit, as the same signed lease, for every client that has its
    holder's key enrolled in the same archive. *)
Theorem lease_commit_reads_back `{!Ed25519Laws, !Base64Laws} body key signed message c commit
    verified holder :
  sign_coordination_lease body key = Ok signed → lease_message signed = Ok message →
  commit_message c = message → commit_parents c = option_list (previous_lease_commit body) →
  plain_commit c →
  lease_archive_id body = archive_of verified →
  lease_genesis_hash body = archive_genesis_hash verified →
  clients verified !! holder_client_id body = Some holder →
  client_key holder = Ok (verifying_key key) →
  parse_lease_commit commit verified (scope_kind body) (scope_id body) (commit_text c) = Ok signed.
Proof.
  intros Hsign Hmessage Hc Hparents Hplain Harchive Hgenesis Hholder Hkey.
  apply sign_lease_Ok in Hsign as (Hbody & Hok & json & Hjson & Hsig).
  apply parse_lease_commit_Ok; [done |]. rewrite Hbody, Hc.
  destruct (lease_message_of _ _ c Hmessage Hc) as [Hread Hline].
  split_and!; try done. unfold verify_signed_coordination_lease. rewrite Hbody.
  rewrite (proj2 (validate_lease_Ok body ()) Hok), (bool_decide_eq_true_2 _ Harchive),
    (bool_decide_eq_true_2 _ Hgenesis). cbn. rewrite Hholder. cbn.
  unfold check_lease_signature. rewrite Hsig, base64_decode_encode. cbn.
  rewrite signature_wellformed. cbn. rewrite Hkey. cbn. rewrite Hbody.
  rewrite (proj2 (canonical_json_Ok body json) Hjson). cbn. by rewrite verify_sign.
Qed.
End leases.
