(* ===== verification/Sync.v ===== *)
(** Synchronization with a remote: [sync_remote] of [v2_store.rs] with the union of diverged
    histories, and coordinated appends on top of it.

    A client publishes its canonical commit, fast-forwards to the remote's, or pushes a merge
    of both, always with a compare-and-swap on the remote's canonical ref. The theorems are
    about any number of clients doing this at once: the ref only ever moves forward, so nothing
    that was published is lost, what a client was told it synchronized is there, and what it
    pushed over another client's history was checked before. *)
From Stdlib Require Import ZArith NArith Lia Ascii.
From stdpp Require Import base decidable list gmap strings sorting pretty.
From S2P Require Import Prelude.
From S2P Require Import Text.
From S2P Require Import External.
From S2P Require Import Ids.
From S2P Require Import Frontier.
From S2P Require Import Batch.
From S2P Require Import Record.
From S2P Require Import Genesis.
From S2P Require Import GitPolicy.
From S2P Require Import Store.
From S2P Require Import Segment.
From S2P Require Import FrontierGraph.
From S2P Require Import Clients.
From S2P Require Import Coordination.
From S2P Require Import Archive.
From S2P Require Import Visit.
From S2P Require Import Streaming.
From S2P Require Import WorkTree.
From S2P Require Import Interaction.
From S2P Require Import Remote.
From S2P Require Import Leases.

Record V2SyncResult : Type := {
  sync_version : N;
  sync_remote_name : string;
  local_commit_before : string;
  remote_commit_before : option string;
  accepted_commit : string;
  sync_frontier_hash : string;
  sync_origins : N;
  sync_records : N;
  fetched : bool;
  pushed : bool;
  merged : bool;
}.

Definition sync_result (name local : string) (before : option string) (accepted : string)
    (verified : VerifiedV2Archive) (fetched pushed merged : bool) : V2SyncResult := {|
  sync_version := 2;
  sync_remote_name := name;
  local_commit_before := local;
  remote_commit_before := before;
  accepted_commit := accepted;
  sync_frontier_hash := accepted_frontier_hash verified;
  sync_origins := N.of_nat (length (origins (accepted_frontier verified)));
  sync_records := archive_record_count verified;
  fetched := fetched;
  pushed := pushed;
  merged := merged
|}.

(** A step on a checkout the program owns. *)
Definition on_worktree (m : st WorkTree V2StoreError ()) (t : WorkTree) : remote WorkTree :=
  match m t with
  | (Ok _, t') => mret t'
  | (Err e, _) => store (Err e)
  end.

Section sync.
Context `{Blake3, UlidCrate, Base64, Ed25519, !SecretKeys,
  FromJson V2RecordEnvelope, ToJson SegmentManifestBody, ToJson SignedSegmentManifest,
  FromJson SignedSegmentManifest, ToJson GenesisBody, ToJson SignedGenesis,
  FromJson SignedGenesis, ToJson CausalFrontier, FromJson CausalFrontier,
  ToJson CoordinationLeaseBody, FromValue SignedCoordinationLease,
  ToJson SignedCoordinationLease, FromJson SignedCoordinationLease,
  ToValue SignedCoordinationLease, FromJson LocalClientKey, !PathResolution}.

(** [self.root] and [std::env::temp_dir] as errors show them; the depth of the frontier graphs
    [verify_compact] may meet. *)
Variable root temp_dir : string.
Variable fuel : nat.

(** [GitWorktree::create], [V2OriginStore::open] and [verify_compact]. *)
Definition create_worktree (commit : string) : remote (string * list (string * Entry)) :=
  ulid ← prefixed_ulid "archive-ledger-sync-worktree-";
  let path := temp_dir +:+ "/" +:+ ulid in
  output ← run root "create Git synchronization worktree" (WorktreeAdd path commit);
  _ ← ensure_success root "create synchronization worktree" output;
  directory ← call (ReadWorktree path commit);
  mret (path, directory).

Definition verify_worktree (path : string) (t : WorkTree) : remote VerifiedV2Archive :=
  _ ← store (open_store path t);
  pure (verify_compact fuel (tree_of_work t)).

(** [validate_protected_publication]: the clock and the remote are asked only when the remote
    has more than one client. *)
Definition protect_publication (name : string) (local remote_verified : VerifiedV2Archive)
    : remote () :=
  if decide (size (clients remote_verified) <= 1) then mret () else
  now ← current_time_utc_ms;
  lease_commit ← remote_ref_commit root name (coordination_lease_ref (archive_of local));
  store (validate_protected_publication (records local)
           (origins (accepted_frontier remote_verified)) (clients remote_verified)
           (Ok now) (Ok lease_commit)).

Definition union_message (frontier_hash : string) : bytes :=
  as_bytes ("Archive Ledger: synchronize " +:+ frontier_hash +:+ newline).

Definition union_stage_error (worktree : string) (failure : Stage * string) : V2StoreError :=
  let operation :=
    match failure.1 with
    | Starting => "create synchronization union commit"
    | Writing => "write synchronization commit message"
    | Finishing => "finish synchronization union commit"
    end in
  Io operation worktree failure.2.

Definition create_union_commit (worktree : string) (content : WorkTree)
    (local_parent remote_parent frontier_hash : string) : remote string :=
  _ ← run_git worktree "stage synchronization union" AddAll;
  tree ← git_stdout worktree "write synchronization union tree" (WriteTree content);
  output ← call (GitInput (CommitTree tree [local_parent; remote_parent])
                   (union_message frontier_hash));
  output ← store (map_err (union_stage_error worktree) output);
  _ ← ensure_success worktree "create synchronization union commit" output;
  mret (trim (stdout output)).

(** What the attempts of one call share. *)
Record Local : Type := {
  sync_name : string;
  local_verified : VerifiedV2Archive;
  local_before : string;
}.

(** The remote is behind: it is fast-forwarded to the local commit. *)
Definition publish_local (s : Local) (remote_verified : VerifiedV2Archive)
    (remote_commit : string) : remote (option V2SyncResult) :=
  _ ← protect_publication (sync_name s) (local_verified s) remote_verified;
  pushed ← push_archive_ref_cas root (sync_name s) (local_before s) remote_commit;
  mret (if pushed : bool then
          Some (sync_result (sync_name s) (local_before s) (Some remote_commit) (local_before s)
                  (local_verified s) true true false)
        else None).

(** The local client is behind. *)
Definition follow_remote (s : Local) (remote_commit : string) : remote V2SyncResult :=
  _ ← run_git root "fast-forward local synchronization ref" (MergeFfOnly remote_commit);
  verified ← verify_local fuel;
  mret (sync_result (sync_name s) (local_before s) (Some remote_commit) remote_commit verified
          true false false).

(** Both moved: the union of the two trees is verified and published as a merge commit. *)
Definition publish_union (s : Local) (remote_tree : list (string * Entry))
    (remote_verified : VerifiedV2Archive) (remote_commit : string)
    : remote (option V2SyncResult) :=
  _ ← protect_publication (sync_name s) (local_verified s) remote_verified;
  '(path, directory) ← create_worktree (local_before s);
  union_tree ← on_worktree (merge_immutable_tree remote_tree) (work_tree directory);
  frontier ← store (union_frontier (local_verified s) remote_verified);
  union_tree ← on_worktree (write_frontier_idempotent frontier) union_tree;
  hash ← store (map_err FrontierErr (frontier_hash frontier));
  union_tree ← on_worktree (replace_head hash) union_tree;
  union_verified ← verify_worktree path union_tree;
  union_commit ← create_union_commit path union_tree (local_before s) remote_commit hash;
  pushed ← push_archive_ref_cas root (sync_name s) union_commit remote_commit;
  if negb pushed then mret None else
  _ ← run_git root "fast-forward local synchronization union" (MergeFfOnly union_commit);
  verified ← verify_local fuel;
  _ ← store (bail_if (negb (bool_decide (accepted_frontier_hash verified
                                         = accepted_frontier_hash union_verified)))
        (Invalid "local synchronization result differs from verified union"));
  mret (Some (sync_result (sync_name s) (local_before s) (Some remote_commit) union_commit
                verified true true true)).

(** The remote has no canonical ref yet. *)
Definition publish_first (s : Local) : remote (option V2SyncResult) :=
  pushed ← push_new_archive_ref root (sync_name s) (local_before s);
  mret (if pushed : bool then
          Some (sync_result (sync_name s) (local_before s) None (local_before s)
                  (local_verified s) false true false)
        else None).

(** The fetched commit is the remote's and not the local one. *)
Definition reconcile (s : Local) (remote_commit : string) : remote (option V2SyncResult) :=
  '(path, directory) ← create_worktree remote_commit;
  remote_verified ← verify_worktree path (work_tree directory);
  _ ← store (validate_same_archive (local_verified s) remote_verified);
  behind ← git_is_ancestor root (local_before s) remote_commit;
  if behind : bool then
    result ← follow_remote s remote_commit; mret (Some result)
  else
    ahead ← git_is_ancestor root remote_commit (local_before s);
    if ahead : bool then publish_local s remote_verified remote_commit
    else publish_union s directory remote_verified remote_commit.

(** The body of the loop; [None] tries again. *)
Definition sync_attempt (s : Local) : remote (option V2SyncResult) :=
  let remote_ref := FETCHED_REF_PREFIX +:+ sync_name s in
  remote_before ← remote_archive_commit root (sync_name s);
  match remote_before with
  | None => publish_first s
  | Some remote_commit =>
      _ ← fetch_archive_ref root (sync_name s) remote_ref;
      fetched_commit ← git_stdout root "read fetched synchronization commit" (RevParse remote_ref);
      if negb (bool_decide (fetched_commit = remote_commit)) then mret None
      else if bool_decide (fetched_commit = local_before s) then
        mret (Some (sync_result (sync_name s) (local_before s) (Some remote_commit)
                      (local_before s) (local_verified s) true false false))
      else reconcile s remote_commit
  end.

Fixpoint sync_loop (s : Local) (attempts : nat) : remote V2SyncResult :=
  match attempts with
  | O => store (Err (Invalid "synchronization remote changed repeatedly; retry the sync"))
  | S attempts =>
      result ← sync_attempt s;
      match result with
      | Some result => mret result
      | None => sync_loop s attempts
      end
  end.

(** The call keeps what it started from next to its result, so that statements can speak of
    both. *)
Definition sync_remote_unrecorded (name : string) : remote (Local * V2SyncResult) :=
  _ ← configured_remote_locator root name;
  _ ← ensure_git_clean root;
  verified ← verify_local fuel;
  local ← git_stdout root "read local sync commit" (RevParse "HEAD");
  let s := {| sync_name := name; local_verified := verified; local_before := local |} in
  result ← sync_loop s 4;
  mret (s, result).

Definition sync_remote_observed (name : string) : remote (Local * V2SyncResult) :=
  '(s, result) ← sync_remote_unrecorded name;
  _ ← ignoring (run_git root "record synchronized commit"
                  (UpdateRef (SYNCED_REF_PREFIX +:+ name) (accepted_commit result)));
  mret (s, result).

Definition sync_remote (name : string) : remote V2SyncResult :=
  '(_, result) ← sync_remote_observed name;
  mret result.

(** ** Coordinated appends *)

(** [lease_context] *)
Definition lease_context (lease : V2CoordinationLease) : Value := json_object [
  ("scope_kind", Str (held_scope_kind lease));
  ("scope_id", Str (held_scope_id lease));
  ("token_id", Str (held_token_id lease));
  ("holder_client_id", Str (held_by lease));
  ("base_frontier_hash", Str (held_base_frontier lease));
  ("not_before_utc_ms", Num (PosInt (held_from lease)));
  ("not_after_utc_ms", Num (PosInt (held_until lease)));
  ("lease_commit", Str (held_commit lease));
  ("remote", Str (held_remote lease));
  ("lease_proof", lease_proof lease)].

(** [context_object.insert("coordination", ..)] *)
Definition with_coordination (context : list (string * Value)) (lease : V2CoordinationLease)
    : Value :=
  json_object (("coordination", lease_context lease)
               :: filter (λ m, m.1 ≠ "coordination") context).

(** The lease is given back when the append fails with an error; a panic or an exhausted model
    run ends the program where it is. *)
Definition append_or_release {A} (lease : V2CoordinationLease) (append : remote A) : remote A :=
  prog_bind append (λ r,
    match r with
    | Err (Halted e) => _ ← ignoring (release_archive_lease root fuel lease); store (Err e)
    | _ => Ret r
    end).

(** From the lease on, [append_coordinated_batch] and [append_coordinated_jsonl_batch] are one
    text; [append] is the local append with its context as the argument. *)
Definition append_under_lease {A} (name : string) (context : Value) (append : Value → remote A)
    : remote A :=
  lease ← acquire_archive_lease root fuel name;
  members ← store (ok_or (as_object context)
    (Invalid "coordinated batch context must be an object"));
  appended ← append_or_release lease (append (with_coordination members lease));
  _ ← sync_remote name;
  _ ← release_archive_lease root fuel lease;
  mret appended.

Definition append_coordinated_batch {A} (name : string) (context : Value)
    (append : Value → remote A) : remote A :=
  _ ← sync_remote name;
  append_under_lease name context append.

Definition append_coordinated_jsonl_batch {A} (name : string) (context : Value)
    (append : Value → remote A) : remote A :=
  append_under_lease name context append.

(** ** What the programs do *)

Context {trees : GitTrees}.
Context `{!Blake3Laws, !Ed25519Laws}.

#[local] Abbreviation later := (later grows good) (only parsing).
#[local] Abbreviation wpx := (wpx exec grows good) (only parsing).
#[local] Abbreviation harmless := (harmless good) (only parsing).

(** A checkout of a commit holds its tree. *)
Lemma worktree_spec commit (Q : string * list (string * Entry) → World → Prop) w :
  good w →
  (∀ path directory w', later w w' →
    (is_object_name commit = true → committed w' commit (work_tree directory)) →
    Q (path, directory) w') →
  wpx (create_worktree commit) Q w.
Proof.
  intros Hw HQ. apply bind_spec; [done |]. apply harmless_ulid; [done |]. intros ulid w1 Hw1 _.
  apply bind_spec; [by eapply later_good |].
  apply run_spec; [by intros w' o w'' [Hx _] | by eapply later_good |].
  intros w2 o w3 Hw2 [_ Ho] Hw3 _. apply bind_spec; [by eapply later_good |].
  apply store_spec. intros [] w4 Hok Hw4 _. apply bail_if_Ok, negb_false_iff in Hok.
  apply bind_spec; [by eapply later_good |].
  apply (read_spec good (ReadWorktree _ commit)); [by intros w' d w'' [Hx _] |].
  intros w5 directory w6 Hw5 [_ Hd] Hw6 _. apply ret_spec. intros w7 Hw7.
  apply HQ; [chain |]. intros Hname. destruct (Ho Hok Hname) as [c Hc].
  assert (later w2 w5) as [Hg _] by chain. assert (later w5 w7) as [Hg' _] by chain.
  apply (grows_object w2 w5) in Hc; [|done]. exists c.
  split; [by eapply grows_object | by apply Hd].
Qed.

Lemma harmless_verify path t : harmless (verify_worktree path t).
Proof.
  apply harmless_bind; [apply harmless_store |]. intros []. apply harmless_pure.
Qed.

Lemma harmless_on m t : harmless (on_worktree m t).
Proof.
  unfold on_worktree. destruct (m t) as [[a|e] t']; [apply harmless_ret | apply harmless_store].
Qed.

(** The check looked at the clock and then at the lease; a remote with one client needs none. *)
Definition permitted (local remote_verified : VerifiedV2Archive) (w1 w2 : World) : Prop :=
  size (clients remote_verified) <= 1 ∨
  validate_protected_publication (records local) (origins (accepted_frontier remote_verified))
    (clients remote_verified) (Ok (clock w1))
    (Ok (current w2 (coordination_lease_ref (archive_of local)))) = Ok ().

Lemma protect_spec name local remote_verified (Q : () → World → Prop) w :
  good w →
  (∀ w1 w2 w', later w w1 → later w1 w2 → later w2 w' →
    permitted local remote_verified w1 w2 → Q () w') →
  wpx (protect_publication name local remote_verified) Q w.
Proof.
  intros Hw HQ. unfold protect_publication. case_decide as Hsize.
  - apply ret_spec. intros w' Hw'. apply (HQ w w); [by apply later_refl; [apply _ |].. | done | by left].
  - apply bind_spec; [done |]. apply current_time_spec; [done |]. intros w1 w2 Hw1 Hw2 _.
    apply bind_spec; [by eapply later_good |].
    apply remote_ref_commit_spec; [apply good_wf | apply lease_ref_line | by eapply later_good |].
    intros w3 w4 Hw3 Hw4 _. apply store_spec. intros [] w5 Hok Hw5.
    apply (HQ w1 w3); [done | chain.. | by right].
Qed.

Lemma on_worktree_spec m t (Q : WorkTree → World → Prop) w :
  (∀ a t' w', m t = (Ok a, t') → later w w' → Q t' w') → wpx (on_worktree m t) Q w.
Proof.
  intros HQ. unfold on_worktree. destruct (m t) as [[a|e] t'] eqn:Hm.
  - apply ret_spec. intros w' Hw'. by eapply HQ.
  - by apply store_spec.
Qed.

(** ** The union of two histories *)

Lemma replaced_head hash t t' :
  replace_head hash t = (Ok (), t') →
  ∃ q, follow t' HEAD_PATH = Some q ∧ t' = <[q := FileNode (as_bytes (hash +:+ newline))]> t.
Proof.
  unfold replace_head, mbind, st_bind, st_get, st_modify, st_lift.
  destruct (locate t HEAD_PATH) as [q|] eqn:Hq; [|done].
  destruct (t !! q) as [[]|]; intros [= <-]; exists q;
    (split; [by apply follow_located | done]).
Qed.

Lemma read_replaced_head hash t t' h :
  replace_head hash t = (Ok (), t') → read_head (tree_of_work t') = Ok h → h = hash.
Proof.
  intros (q & Hq & ->)%replaced_head.
  match type of Hq with follow ?t' _ = _ =>
    assert (tree_read (tree_of_work t') HEAD_PATH = Ok (as_bytes (hash +:+ newline))) as Hread end.
  { cbn -[HEAD_PATH]. unfold stat. rewrite Hq. cbn -[HEAD_PATH]. by rewrite lookup_insert_eq. }
  unfold read_head, read_file. change "frontiers/v2/HEAD"%string with HEAD_PATH.
  rewrite Hread. cbn. intros Hrun. inv_ok. boolify.
  rewrite of_as_bytes in *. apply (inj as_bytes), (app_inv_tail (as_bytes newline)).
  rewrite <- !as_bytes_app. congruence.
Qed.

(** The frontier of a merge: it unites the client's own archive [local_verified s] with the one
    the remote's commit holds, and succeeds the frontiers of both. *)
Record unites (s : Local) (right : VerifiedV2Archive) (union : CausalFrontier) (hash : string)
    : Prop := {
  unites_frontier : union_frontier (local_verified s) right = Ok union;
  unites_hash : frontier_hash union = Ok hash;
  unites_local : ∃ adv,
    validate_successor_of union (accepted_frontier (local_verified s)) = Ok adv;
  unites_remote : ∃ adv, validate_successor_of union (accepted_frontier right) = Ok adv;
}.

(** The tree of a merge: the checkout of the client's commit with the files of the remote's
    added, and the accepted head replaced; it verifies, with the frontier of the union. *)
Record union_of (s : Local) (left_tree : WorkTree) (directory : list (string * Entry))
    (union_tree : WorkTree) (hash : string) : Prop := {
  union_files : ∃ merged head,
    merge_immutable_tree directory left_tree = (Ok (), merged) ∧
    follow union_tree HEAD_PATH = Some head ∧ delete head merged ⊆ union_tree;
  union_verifies : ∃ verified, verify_compact fuel (tree_of_work union_tree) = Ok verified ∧
    accepted_frontier_hash verified = hash;
}.

(** What was accepted as a merge is a commit of such a tree, made from the trees of the client's
    commit and of the remote's. *)
Definition united (w : World) (s : Local) (result : V2SyncResult) : Prop :=
  ∃ remote_commit left_tree directory union_tree right union,
    remote_commit_before result = Some remote_commit ∧
    committed w (local_before s) left_tree ∧
    committed w remote_commit (work_tree directory) ∧
    committed w (accepted_commit result) union_tree ∧
    verify_compact fuel (tree_of_work (work_tree directory)) = Ok right ∧
    unites s right union (sync_frontier_hash result) ∧
    union_of s left_tree directory union_tree (sync_frontier_hash result).

Lemma union_unites s tree right_tree right union hash :
  verify_compact fuel tree = Ok (local_verified s) →
  verify_compact fuel right_tree = Ok right →
  union_frontier (local_verified s) right = Ok union → frontier_hash union = Ok hash →
  unites s right union hash.
Proof.
  intros Hl Hr Hu Hh.
  apply verify_compact_side in Hl as (_ & Hls & _).
  apply verify_compact_side in Hr as (_ & Hrs & _).
  destruct (union_frontier_Ok _ _ _ Hls Hrs Hu) as (Hwf & Hel & Her & Hnl & Hnr & _).
  split; [done | done | |]; rewrite successor_Ok; destruct Hls, Hrs; by split_and!.
Qed.

(** ** Outcomes *)

(** A synchronization that succeeded: the commit it accepted was published and has the local
    commit and what the remote held before among its ancestors; a merge accepted the frontier
    that unites both. [local_verified s] is the verified tree of the client's clone. *)
Record synced (w : World) (s : Local) (result : V2SyncResult) : Prop := {
  synced_own : local_commit_before result = local_before s;
  synced_tree : ∃ tree, verify_compact fuel tree = Ok (local_verified s);
  synced_published : accepted_commit result ∈ log w CANONICAL_REF;
  synced_local : ancestor w (local_commit_before result) (accepted_commit result);
  synced_remote : ∀ c, remote_commit_before result = Some c →
    c ∈ log w CANONICAL_REF ∧ ancestor w c (accepted_commit result);
  synced_union : merged result = true → united w s result;
}.

Lemma united_grows w w' s result : grows w w' → united w s result → united w' s result.
Proof.
  intros Hw (rc & l & d & u & right & union & Hrc & Hl & Hd & Hu & Hrest).
  exists rc, l, d, u, right, union. split_and!; [done | by eapply committed_grows.. | apply Hrest |
    apply Hrest | apply Hrest].
Qed.

Lemma synced_grows w w' s result : grows w w' → synced w s result → synced w' s result.
Proof.
  intros Hw [Ho Ht Hp Hl Hr Hu]. split; [done | done | | | |].
  - by eapply grows_log.
  - by eapply grows_ancestor.
  - intros c Hc. destruct (Hr c Hc). split; [by eapply grows_log | by eapply grows_ancestor].
  - intros Hm. by eapply united_grows, Hu.
Qed.

(** What was pushed on top of a remote's history had passed the check of protected batches: the
    archive of the remote's commit was verified, the clock and the lease were read, in this
    order and since [w0], and after that the remote still held that commit, or the pushed one
    already. *)
Definition checked (w0 : World) (s : Local) (result : V2SyncResult) (w : World) : Prop :=
  pushed result = true → ∀ remote_commit, remote_commit_before result = Some remote_commit →
  ∃ w1 w2 w3 content right,
    later w0 w1 ∧ later w1 w2 ∧ later w2 w3 ∧ later w3 w ∧
    committed w1 remote_commit content ∧ verify_compact fuel (tree_of_work content) = Ok right ∧
    permitted (local_verified s) right w1 w2 ∧
    (current w3 CANONICAL_REF = Some remote_commit ∨
     current w3 CANONICAL_REF = Some (accepted_commit result)).

Lemma checked_since w0 w1 w2 w3 s result :
  later w0 w1 → later w2 w3 → checked w1 s result w2 → checked w0 s result w3.
Proof.
  intros Hw1 Hw3 Hc Hp rc Hrc. destruct (Hc Hp rc Hrc) as (v1 & v2 & v3 & content & right & Hrest).
  destruct Hrest as (? & ? & ? & ? & Hrest). exists v1, v2, v3, content, right.
  split; [chain |]. split; [done |]. split; [done |]. split; [chain |]. done.
Qed.

Lemma canonical_not_lease scope : CANONICAL_REF ≠ coordination_lease_ref scope.
Proof. by intros [=]. Qed.

(** Publishing on the canonical ref keeps the shared state good. *)
Lemma good_publish w commit :
  good w → is_Some (objects w !! commit) → fast_forward w commit (current w CANONICAL_REF) →
  good (set_ref CANONICAL_REF commit w).
Proof.
  intros Hw Hc Hff. apply good_push; [done..|]. intros scope Hs.
  by destruct (canonical_not_lease scope).
Qed.

Lemma publish_cas_spec name commit expected (Q : bool → World → Prop) w :
  good w → ancestor w expected commit →
  (∀ b w', later w w' → (b = true → commit ∈ log w' CANONICAL_REF ∧ ∃ w1, later w w1 ∧ later w1 w' ∧
     (current w1 CANONICAL_REF = Some expected ∨ current w1 CANONICAL_REF = Some commit)) →
   Q b w') →
  wpx (push_archive_ref_cas root name commit expected) Q w.
Proof.
  intros Hw Hanc HQ.
  apply (pushes_at_spec good root _ commit CANONICAL_REF (λ _ cur, cur = Some expected));
    [by intros w1 out w2 Hx | done | |].
  - intros w1 Hw1 Hc Hcur. apply good_publish; [by eapply later_good | done |].
    rewrite Hcur. eapply grows_ancestor; [apply Hw1 | done].
  - intros b w' Hw' Hb. apply HQ; [done |]. intros Ht.
    destruct (Hb Ht) as (Hin & w1 & Hw1 & Hw1' & Hcur). naive_solver.
Qed.

(** What is known of a result, and [None] of an attempt that is to be repeated. *)
Definition outcome (w0 : World) (s : Local) (result : V2SyncResult) (w : World) : Prop :=
  synced w s result ∧ checked w0 s result w.
Definition outcome_opt (w0 : World) (s : Local) (result : option V2SyncResult) (w : World)
    : Prop :=
  match result with Some result => outcome w0 s result w | None => True end.

Lemma outcome_since w0 w1 w2 w3 s result :
  later w0 w1 → later w2 w3 → outcome w1 s result w2 → outcome w0 s result w3.
Proof.
  intros Hw1 Hw3 [Hs Hc].
  split; [by eapply synced_grows; [apply Hw3 |] | by eapply checked_since].
Qed.

Lemma outcome_opt_since {w0 w1 s} {p : remote (option V2SyncResult)} :
  later w0 w1 → wpx p (outcome_opt w1 s) w1 → wpx p (outcome_opt w0 s) w1.
Proof.
  intros Hw1 Hp. apply (@wp_strengthen remote_interface World exec grows _ good) in Hp;
    [|by eapply later_good]. revert Hp. apply (@wp_conseq remote_interface).
  intros [[result|] | e] w2 [Hw2 Ho]; try done. cbn in *. apply (outcome_since w0 w1 w2 w2); [done | | done].
  apply later_refl; [apply _ | by eapply later_good].
Qed.

Lemma unpushed w0 s result w : pushed result = false → checked w0 s result w.
Proof. unfold checked. by intros ->. Qed.

(** The attempts of a client whose own archive verified. *)
Section attempts.
Context (s : Local) (tree : Tree) (local_ok : verify_compact fuel tree = Ok (local_verified s)).

Lemma publish_first_spec w : good w → wpx (publish_first s) (outcome_opt w s) w.
Proof.
  intros Hw. apply bind_spec; [done |].
  apply (pushes_spec good root _ (local_before s) CANONICAL_REF
           (λ w, fast_forward w (local_before s)));
    [by intros w1 out w2 Hx | done | |].
  - intros w1 Hw1 Hc Hff. apply good_publish; [by eapply later_good | done..].
  - intros b w1 Hw1 Hlog _. apply ret_spec. intros w2 Hw2. destruct b; [|done].
    split; [|by intros _ c]. split; cbn; [done | by exists tree | | done..].
    eapply grows_log; [apply Hw2 | by apply Hlog].
Qed.

Lemma publish_local_spec content remote_verified remote_commit w :
  good w → remote_commit ∈ log w CANONICAL_REF → ancestor w remote_commit (local_before s) →
  committed w remote_commit content →
  verify_compact fuel (tree_of_work content) = Ok remote_verified →
  wpx (publish_local s remote_verified remote_commit) (outcome_opt w s) w.
Proof.
  intros Hw Hin Hanc Hcontent Hremote. apply bind_spec; [done |].
  apply protect_spec; [done |]. intros w1 w2 w3 Hw1 Hw2 Hw3 Hpermit _.
  assert (later w w3) as [Hg _] by chain. apply bind_spec; [by eapply later_good |].
  apply publish_cas_spec; [by eapply later_good | by eapply grows_ancestor |].
  intros b w4 Hw4 Hpush _. apply ret_spec. intros w5 Hw5. destruct b; [|done].
  destruct (Hpush eq_refl) as (Hlog & w6 & Hw6 & Hw6' & Hcur).
  assert (later w w5) as [Hg5 _] by chain. split.
  - split; cbn; [done | by exists tree | eapply grows_log; [apply Hw5 | done] | done | | done].
    intros c [= <-]. split; [by eapply grows_log | by eapply grows_ancestor].
  - intros _ c [= <-]. exists w1, w2, w6, content, remote_verified.
    split_and!; [done | done | chain | chain | | done..]. eapply committed_grows; [apply Hw1 | done].
Qed.

Lemma follow_remote_spec remote_commit w :
  good w → remote_commit ∈ log w CANONICAL_REF → ancestor w (local_before s) remote_commit →
  wpx (follow_remote s remote_commit) (outcome w s) w.
Proof.
  intros Hw Hin Hanc. apply bind_spec; [done |].
  apply harmless_run_git; [by intros w' o w'' He | done |]. intros [] w1 Hw1 _.
  apply bind_spec; [by eapply later_good |].
  apply harmless_local; [by eapply later_good |]. intros verified w2 Hw2 _.
  apply ret_spec. intros w3 Hw3. assert (later w w3) as [Hg _] by chain.
  split; [|by apply unpushed].
  split; cbn; [done | by exists tree | by eapply grows_log | by eapply grows_ancestor | | done].
  intros c [= <-]. split; [by eapply grows_log | done].
Qed.

(** The merge commit has both sides as parents and the tree of the worktree. *)
Lemma union_commit_spec worktree content local remote_parent hash
    (Q : string → World → Prop) w :
  good w →
  (∀ id w', later w w' → ancestor w' local id → ancestor w' remote_parent id →
     is_object_name local = true → committed w' id content → Q id w') →
  wpx (create_union_commit worktree content local remote_parent hash) Q w.
Proof.
  intros Hw HQ. apply bind_spec; [done |].
  apply harmless_run_git; [by intros w' o w'' He | done |]. intros [] w1 Hw1 _.
  apply bind_spec; [by eapply later_good |].
  apply write_tree_spec; [by eapply later_good |]. intros tree' w2 Hw2 Htree _.
  apply bind_spec; [by eapply later_good |].
  apply commit_spec; [apply good_commits | by eapply later_good |]. intros out w3 Hw3 Hout _.
  apply bind_spec; [by eapply later_good |]. apply store_spec. intros o w4 Ho Hw4 _.
  apply map_err_Ok in Ho.
  apply bind_spec; [by eapply later_good |]. apply store_spec. intros [] w5 Hok Hw5 _.
  apply bail_if_Ok, negb_false_iff in Hok.
  destruct (Hout o Ho Hok) as (id & c & Hc & Ht & Hp & _ & Hid & ->).
  rewrite trim_object_name by done. apply ret_spec. intros w6 Hw6.
  assert (later w3 w6) as [Hg Hgood] by chain. apply (grows_object w3 w6) in Hc; [|done].
  apply HQ; [chain | | | |].
  1, 2: apply rtc_once; exists c; split; [done |]; rewrite Hp; set_solver.
  - apply (wf_parents _ (good_wf _ Hgood) id c); [done |]. rewrite Hp. by left.
  - exists c. by rewrite Ht.
Qed.

(** The files of the merge on the client's checkout. *)
Lemma union_tree_of left_tree directory t1 frontier t2 hash t3 verified :
  merge_immutable_tree directory left_tree = (Ok (), t1) →
  write_frontier_idempotent frontier t1 = (Ok (), t2) →
  replace_head hash t2 = (Ok (), t3) →
  verify_compact fuel (tree_of_work t3) = Ok verified →
  union_of s left_tree directory t3 hash ∧ accepted_frontier_hash verified = hash.
Proof.
  intros Hmerge Hwrite Hhead Hverified.
  assert (accepted_frontier_hash verified = hash) as Hhash.
  { apply verify_compact_side in Hverified as [Hread _]. by eapply read_replaced_head. }
  split; [|done]. apply replaced_head in Hhead as (q & Hq & ->).
  split; [|by eauto]. exists t1, q. split_and!; [done | done |].
  apply write_frontier_adds in Hwrite. apply map_subseteq_spec. intros p n Hp.
  apply lookup_delete_Some in Hp as [Hne Hp]. rewrite lookup_insert_ne by done.
  by eapply lookup_weaken.
Qed.

Lemma publish_union_spec directory remote_verified remote_commit w :
  good w → remote_commit ∈ log w CANONICAL_REF →
  committed w remote_commit (work_tree directory) →
  verify_compact fuel (tree_of_work (work_tree directory)) = Ok remote_verified →
  wpx (publish_union s directory remote_verified remote_commit) (outcome_opt w s) w.
Proof.
  intros Hw Hin Hcontent Hremote. apply bind_spec; [done |].
  apply protect_spec; [done |]. intros v1 v2 w1 Hv1 Hv2 Hw1 Hpermit _.
  apply bind_spec; [by eapply later_good |].
  apply worktree_spec; [by eapply later_good |]. intros path left w2 Hw2 Hleft _.
  apply bind_spec; [by eapply later_good |].
  apply on_worktree_spec. intros [] t1 w3 Hmerge Hw3 _.
  apply bind_spec; [by eapply later_good |]. apply store_spec. intros union w4 Hunion Hw4 _.
  apply bind_spec; [by eapply later_good |].
  apply on_worktree_spec. intros [] t2 w5 Hwrite Hw5 _.
  apply bind_spec; [by eapply later_good |]. apply store_spec. intros hash w6 Hhash Hw6 _.
  apply map_err_Ok in Hhash. apply bind_spec; [by eapply later_good |].
  apply on_worktree_spec. intros [] t3 w7 Hhead Hw7 _.
  apply bind_spec; [by eapply later_good |]. apply bind_spec; [by eapply later_good |].
  apply store_spec. intros [] w8 _ Hw8 _. apply pure_spec.
  intros union_verified w9 Hverified Hw9 _.
  destruct (union_tree_of _ _ _ _ _ _ _ _ Hmerge Hwrite Hhead Hverified) as [Hof Hsame].
  apply bind_spec; [by eapply later_good |].
  apply union_commit_spec; [by eapply later_good |]. intros commit w10 Hw10 Hal Har Hname Hcommit _.
  apply bind_spec; [by eapply later_good |].
  apply publish_cas_spec; [by eapply later_good | done |]. intros b w11 Hw11 Hpush _.
  destruct b; cbn [negb]; [|by apply ret_spec].
  destruct (Hpush eq_refl) as (Hlog & w16 & Hw16 & Hw16' & Hcur).
  apply bind_spec; [by eapply later_good |].
  apply harmless_run_git; [by intros w' o w'' He | by eapply later_good |]. intros [] w12 Hw12 _.
  apply bind_spec; [by eapply later_good |].
  apply harmless_local; [by eapply later_good |]. intros verified w13 Hw13 _.
  apply bind_spec; [by eapply later_good |]. apply store_spec. intros [] w14 Heq Hw14 _.
  apply bail_if_Ok, negb_false_iff, bool_decide_eq_true_1 in Heq.
  apply ret_spec. intros w15 Hw15.
  assert (later w11 w15) as [Hg11 _] by chain. assert (later w10 w15) as [Hg10 _] by chain.
  assert (later w2 w15) as [Hg2 _] by chain. assert (later w w15) as [Hg _] by chain.
  split; [split; cbn; [done | by exists tree | | | |] |].
  - by apply (grows_log w11 w15).
  - by apply (grows_ancestor w10 w15).
  - intros c [= <-]. split; [by apply (grows_log w w15) | by apply (grows_ancestor w10 w15)].
  - intros _. exists remote_commit, (work_tree left), directory, t3, remote_verified, union.
    cbn. rewrite Heq, Hsame.
    split_and!; [done | by eapply committed_grows, Hleft | by apply (committed_grows w w15) |
      by apply (committed_grows w10 w15) | done | by eapply union_unites | done].
  - intros _ c [= <-]. exists v1, v2, w16, (work_tree directory), remote_verified.
    split_and!; [done | done | chain | chain | | done..]. eapply committed_grows; [apply Hv1 | done].
Qed.

Lemma reconcile_spec remote_commit w :
  good w → remote_commit ∈ log w CANONICAL_REF →
  wpx (reconcile s remote_commit) (outcome_opt w s) w.
Proof.
  intros Hw Hin. apply bind_spec; [done |].
  apply worktree_spec; [done |]. intros path directory w1 Hw1 Hcontent _.
  destruct (wf_refs _ (good_wf _ Hw) _ _ Hin) as [c Hc].
  specialize (Hcontent (wf_name _ (good_wf _ Hw) _ _ Hc)).
  apply bind_spec; [by eapply later_good |]. apply bind_spec; [by eapply later_good |].
  apply store_spec. intros [] w2 _ Hw2 _. apply pure_spec.
  intros remote_verified w3 Hremote Hw3 _. apply bind_spec; [by eapply later_good |].
  apply store_spec. intros [] w4 _ Hw4 _. apply bind_spec; [by eapply later_good |].
  apply is_ancestor_spec; [by eapply later_good |]. intros behind w5 Hw5 Hbehind _.
  assert (later w w5) as Hw05 by chain. assert (later w1 w5) as [Hg15 _] by chain.
  destruct behind.
  - apply bind_spec; [by eapply later_good |].
    eapply wp_conseq, follow_remote_spec;
      [|by eapply later_good | eapply grows_log; [apply Hw05 | done] | by apply Hbehind].
    intros [result | e] w6 Hs; [|done]. intros Hw6. apply ret_spec. intros w7 Hw7.
    by apply (outcome_since w w5 w6 w7).
  - apply bind_spec; [by eapply later_good |].
    apply is_ancestor_spec; [by eapply later_good |]. intros ahead w6 Hw6 Hahead _.
    assert (later w w6) as Hw06 by chain. assert (later w1 w6) as [Hg16 _] by chain.
    destruct ahead; apply (outcome_opt_since Hw06).
    + apply (publish_local_spec (work_tree directory)); [by eapply later_good |
        eapply grows_log; [apply Hw06 | done] | by apply Hahead | by eapply committed_grows | done].
    + apply publish_union_spec; [by eapply later_good | eapply grows_log; [apply Hw06 | done] |
        by eapply committed_grows | done].
Qed.

Lemma sync_attempt_spec w : good w → wpx (sync_attempt s) (outcome_opt w s) w.
Proof.
  intros Hw. apply bind_spec; [done |].
  apply remote_ref_commit_spec; [apply good_wf | done | done |]. intros w1 w2 Hw1 Hw2 _.
  assert (later w w2) as Hw02 by chain.
  destruct (current w1 CANONICAL_REF) as [remote_commit|] eqn:Hcur;
    [|by apply (outcome_opt_since Hw02), publish_first_spec; eapply later_good].
  apply current_log in Hcur. apply bind_spec; [by eapply later_good |].
  apply harmless_fetch; [by eapply later_good |]. intros [] w3 Hw3 _.
  apply bind_spec; [by eapply later_good |].
  apply harmless_git; [by intros w' o w'' He | by eapply later_good |]. intros fetched w4 Hw4 _.
  destruct (bool_decide_reflect (fetched = remote_commit)) as [-> | Hne]; cbn [negb];
    [|by apply ret_spec].
  assert (later w w4) as Hw04 by chain.
  assert (later w1 w4) as [Hg _] by chain. apply (grows_log w1 w4) in Hcur; [|done].
  case_bool_decide as Heq.
  - apply ret_spec. intros w5 Hw5. apply (grows_log w4 w5) in Hcur; [|apply Hw5].
    split; [|by apply unpushed].
    split; cbn; [done | by exists tree | by rewrite <- Heq | done | | done].
    intros c [= <-]. by rewrite Heq in *.
  - apply (outcome_opt_since Hw04), reconcile_spec; [by eapply later_good | done].
Qed.

Lemma sync_loop_spec attempts w :
  good w → wpx (sync_loop s attempts) (outcome w s) w.
Proof.
  revert w. induction attempts as [|n IH]; intros w Hw; cbn [sync_loop]; [by apply store_spec |].
  apply bind_spec; [done |]. eapply wp_conseq, sync_attempt_spec; [|done].
  intros [[result|] | e] w1 Hl; [| |done]; intros Hw1.
  - apply ret_spec. intros w2 Hw2. apply (outcome_since w w w1 w2); [|done..].
    by apply later_refl; [apply _ |].
  - pose proof (IH w1 (later_good good _ _ Hw1)) as Hrest. revert Hrest.
    intros Hrest. apply (@wp_strengthen remote_interface World exec grows _ good) in Hrest;
      [|by eapply later_good]. revert Hrest. apply (@wp_conseq remote_interface).
    intros [result | e] w2 [Hw2 Ho]; [|done]. cbn in *. apply (outcome_since w w1 w2 w2); [done | | done].
    apply later_refl; [apply _ | by eapply later_good].
Qed.
End attempts.

Lemma sync_unrecorded_spec name w :
  good w → wpx (sync_remote_unrecorded name) (λ p w', outcome w p.1 p.2 w') w.
Proof.
  intros Hw. apply bind_spec; [done |]. apply harmless_locator; [done |]. intros locator w1 Hw1 _.
  apply bind_spec; [by eapply later_good |].
  apply harmless_clean; [by eapply later_good |]. intros [] w2 Hw2 _.
  apply bind_spec; [by eapply later_good |].
  apply bind_spec; [by eapply later_good |].
  apply (harmless_call good ReadTree); [by intros ? ? ? He | by eapply later_good |].
  intros tree w3 Hw3 _. apply pure_spec. intros verified w4 Hlocal Hw4 _.
  apply bind_spec; [by eapply later_good |].
  apply harmless_git; [by intros w' o w'' He | by eapply later_good |]. intros local w5 Hw5 _.
  assert (later w w5) as Hw05 by chain. apply bind_spec; [by eapply later_good |].
  eapply wp_conseq, (sync_loop_spec _ tree); [|done | by eapply later_good].
  intros [result | e] w6 Ho; [|done]. intros Hw6. apply ret_spec. intros w7 Hw7.
  by apply (outcome_since w w5 w6 w7).
Qed.

Lemma sync_observed_spec name w :
  good w → wpx (sync_remote_observed name) (λ p w', outcome w p.1 p.2 w') w.
Proof.
  intros Hw. apply bind_spec; [done |].
  pose proof (sync_unrecorded_spec name w Hw) as Hrun. revert Hrun.
  apply (@wp_conseq remote_interface). intros [[s result] | e] w1 Ho; [|done]. intros Hw1.
  apply bind_spec; [by eapply later_good |].
  apply ignoring_spec; [by eapply later_good | |].
  - apply harmless_run_git; [by intros w' o w'' He | by eapply later_good | done].
  - intros w2 Hw2 _. apply ret_spec. intros w3 Hw3. cbn in *.
    apply (outcome_since w w w1 w3); [by apply later_refl; [apply _ |] | chain | done].
Qed.

Lemma sync_spec name w : good w → wpx (sync_remote name) (λ _ _, True) w.
Proof.
  intros Hw. apply bind_spec; [done |].
  pose proof (sync_observed_spec name w Hw) as Hrun. revert Hrun.
  apply (@wp_conseq remote_interface). intros [[s result] | e] w1 _; [|done].
  intros Hw1. by apply ret_spec.
Qed.

(** C38: nothing is pushed over the history of a remote that was not checked. Whatever the other
    clients do meanwhile: when a synchronization reports that it pushed on top of a commit of
    the remote, then during the call it verified the archive of that very commit; unless that
    archive has a single client, it then read the clock and after it the lease on the remote,
    and with both the check of the protected batches of its own records passed; and only after
    that the push was accepted, by a remote that still had that commit, or the pushed one
    already. *)
Theorem publication_checked name w :
  good w → wpx (sync_remote_observed name) (λ p w', checked w p.1 p.2 w') w.
Proof.
  intros Hw. pose proof (sync_observed_spec name w Hw) as Hrun. revert Hrun.
  apply (@wp_conseq remote_interface). by intros [p | e] w' Ho; [apply Ho |].
Qed.


Context `{!LineJson SignedCoordinationLease}.

(** A postcondition the rest of the system cannot undo. *)
Definition stable {A} (Q : A → World → Prop) : Prop :=
  ∀ a w w', Q a w → later w w' → Q a w'.

Lemma append_or_release_spec {A} lease (append : remote A) (Q : A → World → Prop) w :
  stable Q → good w → wpx append Q w → wpx (append_or_release lease append) Q w.
Proof.
  intros HQ Hw Happend. apply handle_spec; [done |].
  revert Happend. apply (@wp_conseq remote_interface). intros [a | [e| |]] w' Ha Hw'; cbn in *.
  - intros w'' Hw''. by apply (HQ a w').
  - apply bind_spec; [by eapply later_good |].
    apply ignoring_spec; [by eapply later_good | |].
    + assert (good w') as Hgood by by eapply later_good.
      pose proof (release_spec root fuel lease w' Hgood) as Hr. revert Hr.
      apply (@wp_conseq remote_interface). by intros [] ? ?.
    + intros w'' Hw'' _. by apply store_spec.
  - by intros w'' Hw''.
  - by intros w'' Hw''.
Qed.

Lemma append_under_lease_spec {A} name context (append : Value → remote A)
    (Q : A → World → Prop) w :
  stable Q → good w →
  (∀ lease members w', good w' → granted_in w' lease → context = Obj members →
    wpx (append (with_coordination members lease)) Q w') →
  wpx (append_under_lease name context append) Q w.
Proof.
  intros HQ Hw Happend. apply bind_spec; [done |].
  pose proof (acquire_spec root fuel name DEFAULT_COORDINATION_LEASE_MS w Hw) as Hacquire.
  revert Hacquire. apply (@wp_conseq remote_interface).
  intros [lease | e] w1 Hlease; [|done]. intros Hw1.
  apply bind_spec; [by eapply later_good |]. apply store_spec. intros members w2 Hobj Hw2 _.
  apply ok_or_Ok in Hobj. destruct context as [| | | | |found]; try done. injection Hobj as ->.
  apply bind_spec; [by eapply later_good |].
  assert (wpx (append_or_release lease (append (with_coordination members lease))) Q w2) as Hrun.
  { apply append_or_release_spec; [done | by eapply later_good |].
    apply Happend; [by eapply later_good | eapply granted_grows; [apply Hw2 | done] | done]. }
  revert Hrun. apply (@wp_conseq remote_interface). intros [a | e] w3 Ha; [|done]. intros Hw3.
  apply bind_spec; [by eapply later_good |].
  assert (good w3) as Hgood3 by by eapply later_good.
  pose proof (sync_spec name w3 Hgood3) as Hs. revert Hs. apply (@wp_conseq remote_interface).
  intros [r | e] w4 _; [|done]. intros Hw4. apply bind_spec; [by eapply later_good |].
  assert (good w4) as Hgood by by eapply later_good.
  pose proof (release_spec root fuel lease w4 Hgood) as Hr. revert Hr.
  apply (@wp_conseq remote_interface). intros [[] | e] w5 _; [|done].
  intros Hw5. apply ret_spec. intros w6 Hw6. apply (HQ a w3); [done | chain].
Qed.

Lemma append_coordinated_spec {A} name context (append : Value → remote A)
    (Q : A → World → Prop) w :
  stable Q → good w →
  (∀ lease members w', good w' → granted_in w' lease → context = Obj members →
    wpx (append (with_coordination members lease)) Q w') →
  wpx (append_coordinated_batch name context append) Q w.
Proof.
  intros HQ Hw Happend. apply bind_spec; [done |].
  pose proof (sync_spec name w Hw) as Hs. revert Hs. apply (@wp_conseq remote_interface).
  intros [r | e] w1 _; [|done]. intros Hw1. apply append_under_lease_spec; [done | by eapply later_good | done].
Qed.

(** ** Time between the check and the push *)

Section late.
(** Git and the clock. *)
Context (git : World → ∀ c : RemoteCall, remote_answer c → World → Prop).

(** They answer the clock and the value of a ref. *)
Definition tells_time (w : World) : Prop := git w CurrentTime (Ok (clock w)) w.
Definition shows_ref (w : World) (name reference : string) : Prop :=
  git w (Git (LsRemote name reference))
    (Ok {| exit_code := Some 0%Z; stdout := ls_remote_text w reference |}) w.
(** They accept a compare-and-swap of the canonical ref. *)
Definition accepts_push (w : World) (name commit expected : string) : Prop :=
  git w (Git (PushCas name commit CANONICAL_REF (Some expected)))
    (Ok {| exit_code := Some 0%Z; stdout := "" |}) (set_ref CANONICAL_REF commit w).

Lemma ref_commit_runs name reference w :
  shows_ref w name reference →
  validate_git_remote_name name = Ok () → validate_git_ref reference = Ok () →
  parse_ls_remote (ls_remote_text w reference) reference = Ok (current w reference) →
  runs git drift (remote_ref_commit root name reference) w (Ok (current w reference)) w.
Proof.
  intros Hls Hname Href Hparse. unfold remote_ref_commit, validate_remote_name.
  rewrite Hname, Href.
  apply (@runs_call remote_interface _ _ _ _ (Git (LsRemote name reference)) _ w _ _ _ _ Hls).
  cbn -[parse_ls_remote]. rewrite Hparse. constructor.
Qed.

Lemma protect_runs name local remote_verified w :
  let lease_ref := coordination_lease_ref (archive_of local) in
  tells_time w → shows_ref w name lease_ref → 1 < size (clients remote_verified) →
  validate_git_remote_name name = Ok () → validate_git_ref lease_ref = Ok () →
  parse_ls_remote (ls_remote_text w lease_ref) lease_ref = Ok (current w lease_ref) →
  validate_protected_publication (records local)
    (origins (accepted_frontier remote_verified)) (clients remote_verified)
    (Ok (clock w)) (Ok (current w lease_ref)) = Ok () →
  runs git drift (protect_publication name local remote_verified) w (Ok ()) w.
Proof.
  intros lease_ref Htime Hls Hsize Hname Href Hparse Hcheck.
  unfold protect_publication. rewrite decide_False by lia.
  eapply (@runs_mbind remote_interface).
  { apply (@runs_call remote_interface _ _ _ _ CurrentTime _ w _ _ _ _ Htime). constructor. }
  eapply (@runs_mbind remote_interface); [by apply ref_commit_runs |].
  fold lease_ref. rewrite Hcheck. constructor.
Qed.

Lemma push_runs name commit expected w :
  accepts_push w name commit expected →
  runs git drift (push_archive_ref_cas root name commit expected) w (Ok true)
    (set_ref CANONICAL_REF commit w).
Proof.
  intros Hpush. apply (@runs_call remote_interface _ _ _ _ (Git (PushCas name commit
    CANONICAL_REF (Some expected))) _ w _ _ _ _ Hpush). cbn. constructor.
Qed.

(** A protected publication is checked once and pushed later, and nothing bounds the time in
    between: if the check of a client's protected batches passes at some moment, then at any
    later time at which the remote, whose refs did not move, still accepts the push, the
    publication succeeds, also after the lease that the check found current has expired. *)
Lemma publication_outlives_check s remote_verified remote_commit w t :
  let lease_ref := coordination_lease_ref (archive_of (local_verified s)) in
  let later := {| objects := objects w; reflogs := reflogs w; clock := t |} in
  1 < size (clients remote_verified) → (clock w <= t)%N →
  tells_time w → shows_ref w (sync_name s) lease_ref →
  accepts_push later (sync_name s) (local_before s) remote_commit →
  validate_git_remote_name (sync_name s) = Ok () → validate_git_ref lease_ref = Ok () →
  parse_ls_remote (ls_remote_text w lease_ref) lease_ref = Ok (current w lease_ref) →
  validate_protected_publication (records (local_verified s))
    (origins (accepted_frontier remote_verified)) (clients remote_verified)
    (Ok (clock w)) (Ok (current w lease_ref)) = Ok () →
  ∃ w', runs git drift (publish_local s remote_verified remote_commit) w
      (Ok (Some (sync_result (sync_name s) (local_before s) (Some remote_commit)
                   (local_before s) (local_verified s) true true false))) w' ∧
    clock w' = t ∧ current w' CANONICAL_REF = Some (local_before s) ∧
    current w' lease_ref = current w lease_ref.
Proof.
  intros lease_ref late Hsize Ht Htime Hls Hpush Hname Href Hparse Hcheck.
  exists (set_ref CANONICAL_REF (local_before s) late). split; [|split_and!; [done | |]].
  - eapply (@runs_mbind remote_interface); [by apply protect_runs |].
    apply (@runs_drift remote_interface _ _ _ _ _ w late); [by apply time_passes |].
    eapply (@runs_mbind remote_interface); [by apply push_runs |]. constructor.
  - unfold current. by rewrite log_set_ref.
  - unfold current. by rewrite log_set_ref_ne by apply canonical_not_lease.
Qed.
End late.

(** ** Attempts *)

Definition is_push (c : RemoteCall) : bool :=
  match c with Git (PushNew _ _ _) | Git (PushCas _ _ _ _) => true | _ => false end.

#[local] Abbreviation pushes n p := (calls_within (H := remote_interface) is_push n p).

(** Opens a program up to its pushes, none of which may be left. *)
Ltac no_push :=
  repeat first
    [ progress intros
    | exact I
    | apply (calls_within_after (H := remote_interface))
    | match goal with |- context [match ?x with _ => _ end] => destruct x end
    | progress cbn ].

Lemma ref_commit_pushes name reference : pushes 0 (remote_ref_commit root name reference).
Proof. unfold remote_ref_commit, validate_remote_name. no_push. Qed.

Lemma configured_pushes name : pushes 0 (configured_remote_locator root name).
Proof. unfold configured_remote_locator, validate_remote_name. no_push. Qed.

Lemma verify_local_pushes : pushes 0 (verify_local fuel).
Proof. unfold verify_local. no_push. Qed.

Lemma protect_pushes name local remote_verified :
  pushes 0 (protect_publication name local remote_verified).
Proof.
  unfold protect_publication. case_decide; [done |].
  apply calls_within_after; [no_push |]. intros now.
  apply calls_within_after; [apply ref_commit_pushes |]. intros c. done.
Qed.

Lemma status_pushes (c : GitCommand) :
  pushes 1 (git_command_status root c).
Proof.
  unfold git_command_status, run. apply calls_within_before; [|done].
  apply calls_within_before; [by destruct c | no_push].
Qed.

Lemma lease_commit_pushes parent signed : pushes 0 (create_coordination_commit root parent signed).
Proof. unfold create_coordination_commit. no_push. Qed.

Lemma read_lease_pushes commit verified kind scope :
  pushes 0 (read_signed_lease_commit root commit verified kind scope).
Proof. unfold read_signed_lease_commit, git_stdout_preserve. no_push. Qed.

Lemma acquire_attempt_pushes q : pushes 1 (acquire_attempt root q).
Proof.
  unfold acquire_attempt.
  apply calls_within_after; [apply ref_commit_pushes |]. intros previous.
  apply calls_within_after; [no_push |]. intros now.
  apply calls_within_after.
  { unfold check_previous. destruct previous; [|done].
    apply calls_within_after; [no_push |]. intros _.
    apply calls_within_after; [apply read_lease_pushes | done]. }
  intros _. apply calls_within_after; [done |]. intros expiry.
  apply calls_within_after; [no_push |]. intros token.
  apply calls_within_after; [done |]. intros signed.
  apply calls_within_after; [apply lease_commit_pushes |]. intros commit.
  apply calls_within_before; [apply status_pushes |]. intros []; no_push.
Qed.

Lemma acquire_loop_pushes q n : pushes n (acquire_loop root q n).
Proof.
  induction n as [|n IH]; [done |]. cbn [acquire_loop].
  apply (calls_within_mbind _ _ _ 1 n); [apply acquire_attempt_pushes |]. by intros [lease|].
Qed.

Lemma acquire_pushes name duration :
  pushes 4 (acquire_archive_lease_with_duration root fuel name duration).
Proof.
  unfold acquire_archive_lease_with_duration.
  apply calls_within_after; [apply configured_pushes |]. intros _.
  apply calls_within_after; [done |]. intros _.
  apply calls_within_after; [unfold ensure_git_clean; no_push |]. intros _.
  apply calls_within_after; [apply verify_local_pushes |]. intros verified.
  apply calls_within_after; [unfold active_origin_id, read_local; no_push |]. intros active.
  apply calls_within_after; [done |]. intros client.
  apply calls_within_after; [done |]. intros _.
  apply calls_within_after; [no_push |]. intros commit.
  apply calls_within_after; [apply ref_commit_pushes |]. intros remote_commit.
  apply calls_within_after; [done |]. intros _.
  apply calls_within_after; [unfold load_local_signing_key, read_local; no_push |]. intros key.
  apply acquire_loop_pushes.
Qed.

Lemma release_pushes lease : pushes 1 (release_archive_lease root fuel lease).
Proof.
  unfold release_archive_lease.
  apply calls_within_after; [apply configured_pushes |]. intros _.
  apply calls_within_after; [apply verify_local_pushes |]. intros verified.
  apply calls_within_after; [done |]. intros _.
  apply calls_within_after; [unfold active_origin_id, read_local; no_push |]. intros active.
  apply calls_within_after; [done |]. intros _.
  apply calls_within_after; [apply ref_commit_pushes |]. intros current.
  apply calls_within_after; [done |]. intros _.
  apply calls_within_after; [apply read_lease_pushes |]. intros prior.
  apply calls_within_after; [done |]. intros _.
  apply calls_within_after; [unfold load_local_signing_key, read_local; no_push |]. intros key.
  apply calls_within_after; [no_push |]. intros now.
  apply calls_within_after; [done |]. intros signed.
  apply calls_within_after; [apply lease_commit_pushes |]. intros commit.
  apply calls_within_before; [apply status_pushes | done].
Qed.

Lemma follow_pushes s commit : pushes 0 (follow_remote s commit).
Proof.
  unfold follow_remote. apply calls_within_after; [no_push |]. intros _.
  apply calls_within_after; [apply verify_local_pushes | done].
Qed.

Lemma worktree_pushes commit : pushes 0 (create_worktree commit).
Proof. unfold create_worktree. no_push. Qed.

Lemma on_worktree_pushes m t : pushes 0 (on_worktree m t).
Proof. unfold on_worktree. by destruct (m t) as [[]]. Qed.

Lemma publish_union_pushes s tree remote_verified commit :
  pushes 1 (publish_union s tree remote_verified commit).
Proof.
  unfold publish_union. apply calls_within_after; [apply protect_pushes |]. intros _.
  apply calls_within_after; [apply worktree_pushes |]. intros [path directory].
  apply calls_within_after; [apply on_worktree_pushes |]. intros t1.
  apply calls_within_after; [done |]. intros frontier.
  apply calls_within_after; [apply on_worktree_pushes |]. intros t2.
  apply calls_within_after; [done |]. intros hash.
  apply calls_within_after; [apply on_worktree_pushes |]. intros t3.
  apply calls_within_after; [unfold verify_worktree; no_push |]. intros verified.
  apply calls_within_after; [unfold create_union_commit; no_push |]. intros union.
  apply calls_within_before; [apply status_pushes |]. intros []; [|done]. cbn [negb].
  apply calls_within_after; [no_push |]. intros _.
  apply calls_within_after; [apply verify_local_pushes |]. intros local.
  by apply calls_within_after.
Qed.

Lemma sync_attempt_pushes s : pushes 1 (sync_attempt s).
Proof.
  unfold sync_attempt. apply calls_within_after; [apply ref_commit_pushes |]. intros [commit|].
  2:{ apply calls_within_before; [apply status_pushes | done]. }
  apply calls_within_after; [no_push |]. intros _.
  apply calls_within_after; [no_push |]. intros fetched.
  destruct (negb _); [done |]. destruct (bool_decide _); [done |].
  unfold reconcile. apply calls_within_after; [apply worktree_pushes |]. intros [path directory].
  apply calls_within_after; [unfold verify_worktree; no_push |]. intros verified.
  apply calls_within_after; [done |]. intros _.
  apply calls_within_after; [unfold git_is_ancestor; no_push |]. intros [].
  - apply (calls_within_le _ _ 0); [lia |].
    apply calls_within_after; [apply follow_pushes | done].
  - apply calls_within_after; [unfold git_is_ancestor; no_push |].
    intros []; [|apply publish_union_pushes]. unfold publish_local.
    apply calls_within_after; [apply protect_pushes |]. intros _.
    apply calls_within_before; [apply status_pushes | done].
Qed.

Lemma sync_loop_pushes s n : pushes n (sync_loop s n).
Proof.
  induction n as [|n IH]; [done |]. cbn [sync_loop].
  apply (calls_within_mbind _ _ _ 1 n); [apply sync_attempt_pushes |]. by intros [r|].
Qed.

Lemma sync_pushes name : pushes 4 (sync_remote name).
Proof.
  unfold sync_remote, sync_remote_observed, sync_remote_unrecorded.
  apply calls_within_before; [apply calls_within_before |].
  - apply calls_within_after; [apply configured_pushes |]. intros _.
    apply calls_within_after; [unfold ensure_git_clean; no_push |]. intros _.
    apply calls_within_after; [apply verify_local_pushes |]. intros verified.
    apply calls_within_after; [no_push |]. intros local.
    apply calls_within_before; [apply sync_loop_pushes | done].
  - intros [s r]. no_push.
  - by intros [s r].
Qed.

Lemma append_under_lease_pushes {A} name context (append : Value → remote A) :
  (∀ v, pushes 0 (append v)) → pushes 9 (append_under_lease name context append).
Proof.
  intros Happend. unfold append_under_lease.
  apply (calls_within_mbind _ _ _ 4 5); [apply acquire_pushes |].
  intros held. apply calls_within_after; [done |]. intros members.
  apply calls_within_assoc, (calls_within_bind _ _ _ 0 5); [apply Happend |].
  intros [a | [e | |]]; [| | done | done].
  2:{ apply calls_within_assoc, (calls_within_bind _ _ _ 1 4); [|by intros []].
      apply (calls_within_bind _ _ _ 1 0); [apply release_pushes | done]. }
  apply (calls_within_mbind _ _ _ 4 1); [apply sync_pushes |]. intros _.
  apply calls_within_before; [apply release_pushes | done].
Qed.

(** C37: no client retries without end, whatever the remote and the other clients answer: a
    synchronization and an acquisition of a lease push at most four times, a release once, and
    a coordinated append, with its synchronizations, its lease and the release after a failed
    append, at most thirteen times when the local append does not push. *)
Theorem pushes_bounded {A} name duration lease context (append : Value → remote A) :
  (∀ v, pushes 0 (append v)) →
  pushes 4 (sync_remote name) ∧
  pushes 4 (acquire_archive_lease_with_duration root fuel name duration) ∧
  pushes 1 (release_archive_lease root fuel lease) ∧
  pushes 13 (append_coordinated_batch name context append).
Proof.
  intros Happend. split; [apply sync_pushes |]. split; [apply acquire_pushes |].
  split; [apply release_pushes |]. unfold append_coordinated_batch.
  apply (calls_within_mbind _ _ _ 4 9); [apply sync_pushes |]. intros _.
  by apply append_under_lease_pushes.
Qed.
End sync.
