(* ===== verification/Publication.v ===== *)
(** Publishing an append whose Git commit is missing: [recover_pending_publication] of
    [v2_store/publication.rs].

    An append that is stopped after it replaced [HEAD] has advanced the accepted frontier, but
    its files are in no commit. Before anything else is appended, the store commits exactly
    these files, after it has made sure that nothing else differs from the last commit. The
    program interacts with Git and the file system ([Interaction.v]); its calls are one Git
    process or one look at a file. *)
From Stdlib Require Import ZArith NArith Lia Ascii.
From stdpp Require Import base decidable list gmap strings sorting.
From S2P Require Import Prelude.
From S2P Require Import Text.
From S2P Require Import External.
From S2P Require Import Ids.
From S2P Require Import Frontier.
From S2P Require Import Batch.
From S2P Require Import Record.
From S2P Require Import Genesis.
From S2P Require Import Store.
From S2P Require Import Segment.
From S2P Require Import FrontierGraph.
From S2P Require Import Clients.
From S2P Require Import Coordination.
From S2P Require Import Batches.
From S2P Require Import Archive.
From S2P Require Import Append.
From S2P Require Import Ranges.
From S2P Require Import Visit.
From S2P Require Import WorkTree.
From S2P Require Import LocalFiles.
From S2P Require Import Interaction.
From S2P Require Import Remote.
From S2P Require Import Leases.

(** ** Text of Git's listings *)

(** [split_whitespace], from the characters read so far of the current word. *)
Fixpoint words (fuel : nat) (word b : bytes) : list string :=
  let flush := match word with [] => [] | _ => [of_bytes word] end in
  match fuel, b with
  | S fuel, a :: b' =>
      match strip_whitespace_char b with
      | Some rest => flush ++ words fuel [] rest
      | None => words fuel (word ++ [a]) b'
      end
  | _, _ => flush
  end.
Definition split_whitespace (s : string) : list string :=
  words (String.length s) [] (as_bytes s).

Definition nul : string := String "000" "".
(** [split('\0').filter(|entry| !entry.is_empty())] *)
Definition nul_entries (text : string) : list string :=
  filter (λ entry, entry ≠ "") (split_char "000" text).

Definition tab : string := String "009" "".

Definition refused (message : string) : V2StoreError := PublicationRecoveryRefused message.

(** A file of a commit or of the index: its mode and the name of its blob. *)
Abbreviation Entries := (gmap string (string * string)).

(** The body of the loop of [parse_entries]; [index] tells [git ls-files --stage] from
    [git ls-tree -r]. *)
Definition parse_entry (index : bool) (entries : Entries) (entry : string)
    : result V2StoreError Entries :=
  '(metadata, path) ← ok_or (split_once tab entry) (refused "unrecognized Git entry");
  '(mode, hash) ← (match index, split_whitespace metadata with
                   | true, [mode; hash; "0"] => Ok (mode, hash)
                   | true, _ => Err (refused "unmerged index entry")
                   | false, [mode; "blob"; hash] => Ok (mode, hash)
                   | false, _ => Err (refused "unexpected Git tree entry")
                   end);
  _ ← bail_if (negb (bool_decide (mode = "100644")) || is_some_b (entries !! path))
        (refused "unsafe or duplicate Git entry");
  Ok (<[path := (mode, hash)]> entries).
Definition parse_entries (output : string) (index : bool) : result V2StoreError Entries :=
  fold_result (parse_entry index) ∅ (nul_entries output).

(** ** Calls *)

Inductive LocalGit : Type :=
  | ShowBlob (revision path : string)
  | RevParseHead
  | GitPath (name : string)
  | LsTree (commit : string)
  | LsStage
  | LsFlags
  | LsOthers
  | HashObject (path : string)
  | WriteObject (path : string)
  | LogPath (path : string)
  | UpdateIndex (mode hash path : string)
  | CommitStaged (message : string).

Definition local_git_args (c : LocalGit) : list string :=
  match c with
  | ShowBlob revision path => ["show"; revision +:+ ":" +:+ path]
  | RevParseHead => ["rev-parse"; "HEAD"]
  | GitPath name => ["rev-parse"; "--git-path"; name]
  | LsTree commit => ["ls-tree"; "-r"; "-z"; commit]
  | LsStage => ["ls-files"; "--stage"; "-z"]
  | LsFlags => ["ls-files"; "-v"; "-z"]
  | LsOthers => ["ls-files"; "--others"; "-z"]
  | HashObject path => ["hash-object"; "--no-filters"; "--"; path]
  | WriteObject path => ["hash-object"; "-w"; "--no-filters"; "--"; path]
  | LogPath path =>
      ["log"; "--all"; "--reflog"; "--full-history"; "-1"; "--format=%H"; "--"; path]
  | UpdateIndex mode hash path => ["update-index"; "--add"; "--cacheinfo"; mode; hash; path]
  | CommitStaged message => ["commit"; "--quiet"; "-m"; message]
  end.

(** By [symlink_metadata]. *)
Inductive FileKind : Type :=
  | RegularFile
  | DirectoryFile
  | OtherFile.
#[export] Instance FileKind_eq_dec : EqDecision FileKind.
Proof. solve_decision. Defined.
Record Metadata : Type := {
  file_kind : FileKind;
  links : N;
  executable : bool;
}.
Inductive Status : Type :=
  | Missing
  | Unreadable (error : string)
  | Found (metadata : Metadata).

Inductive PublicationCall : Type :=
  | RunGit (c : LocalGit)
  | Lstat (path : string)
  | ReadCanonical (path : string)
  | ReadCanonicalTree
  | ReadSelector.

Definition publication_answer (c : PublicationCall) : Type :=
  match c with
  | RunGit _ => result string Output
  | Lstat _ => Status
  | ReadCanonical _ => result string bytes
  | ReadCanonicalTree => Tree
  | ReadSelector => result string bytes
  end.

#[export] Instance publication_interface : Interface := {
  Call := PublicationCall;
  answer := publication_answer;
}.

Definition publication (A : Type) : Type := action (H := publication_interface) (Halt V2StoreError) A.
Definition query (c : PublicationCall) : publication (publication_answer c) :=
  ask (H := publication_interface) c.
Definition checked {A} (m : result V2StoreError A) : publication A :=
  pure (H := publication_interface) (map_err Halted m).

(** A loop. *)
Fixpoint each {A B} (f : B → A → publication B) (b : B) (l : list A) : publication B :=
  match l with
  | [] => mret b
  | a :: l => b ← f b a; each f b l
  end.

(** [map_err] on what a program ends in. *)
Definition mapping {A} (f : V2StoreError → V2StoreError) (m : publication A) : publication A :=
  prog_bind m (λ r, Ret match r with
                        | Err (Halted e) => Err (Halted (f e))
                        | r => r
                        end).

(** The parts of a path between slashes, [None] where it is no plain name; [.] and empty parts
    inside a path are skipped. *)
Definition components (path : string) : list (option string) :=
  let parts := split_char "/" path in
  (if starts_with "/" path || bool_decide (head parts = Some ".") then [None] else [])
  ++ ((λ part, if bool_decide (part = "..") then None else Some part)
      <$> filter (λ part, part ≠ "" ∧ part ≠ ".") parts).

Section publication.
Context `{Blake3, UlidCrate, Base64, Ed25519,
  FromJson V2RecordEnvelope, ToJson SegmentManifestBody, ToJson SignedSegmentManifest,
  FromJson SignedSegmentManifest, ToJson GenesisBody, ToJson SignedGenesis,
  FromJson SignedGenesis, ToJson CausalFrontier, FromJson CausalFrontier,
  ToJson CoordinationLeaseBody, FromValue SignedCoordinationLease}.

(** [to_string] of an error; [self.root] as errors show it; the depth of the frontier graph
    [verify_compact] may meet. *)
Variable display : V2StoreError → string.
Variable root : string.
Variable fuel : nat.

(** ** Helpers *)

(** [git_stdout], [git_stdout_preserve], [run_git] and [git_blob] on these commands. The first
    is used on commands that print object names and paths, which are UTF-8 text here. *)
Definition run_process (io_operation operation : string) (c : LocalGit) : publication Output :=
  output ← query (RunGit c);
  output ← checked (map_err (Io io_operation root) output);
  _ ← checked (bail_if (negb (success output)) (Store.Git operation root));
  mret output.
Definition git_text (operation : string) (c : LocalGit) : publication string :=
  output ← run_process "run Git" operation c; mret (trim (stdout output)).
Definition git_listing (operation : string) (c : LocalGit) : publication string :=
  output ← run_process "run Git" operation c;
  _ ← checked (bail_if (negb (is_utf8 (as_bytes (stdout output))))
                 (Invalid "Git coordination output is not UTF-8"));
  mret (stdout output).
Definition git_blob (revision path operation : string) : publication bytes :=
  output ← run_process "read canonical cursor object" operation (ShowBlob revision path);
  mret (as_bytes (stdout output)).

Definition read_canonical (path : string) : publication bytes :=
  content ← query (ReadCanonical path);
  checked (map_err (Io "read canonical file" path) content).

Definition local_origin : publication string :=
  active ← query ReadSelector;
  checked (active ← map_err (Io "read canonical file" ("local/clients/" +:+ ACTIVE_CLIENT_FILE)) active;
           parse_active_client active).

(** The loop of [regular_file], from the path inspected so far. *)
Fixpoint regular_steps (path : string) (parts : list (option string)) : publication () :=
  match parts with
  | [] => mret ()
  | None :: _ => checked (Err (refused "unsafe publication path"))
  | Some part :: parts =>
      let path := if str_is_empty path then part else path +:+ "/" +:+ part in
      status ← query (Lstat path);
      metadata ← checked (match status with
                          | Missing => Err (Io "inspect publication path" path "No such file or directory")
                          | Unreadable error => Err (Io "inspect publication path" path error)
                          | Found metadata => Ok metadata
                          end);
      let wanted := match parts with [] => RegularFile | _ => DirectoryFile end in
      _ ← checked (bail_if (negb (bool_decide (file_kind metadata = wanted)))
                     (refused ("unsafe publication path " +:+ path)));
      _ ← checked (bail_if (bool_decide (file_kind metadata = RegularFile)
                            && (negb (links metadata =? 1)%N || executable metadata))
                     (refused ("linked or executable publication file " +:+ path)));
      regular_steps path parts
  end.
Definition regular_file (relative : string) : publication () :=
  regular_steps "" (components relative).

(** The loop of [refuse_in_progress_git_operation]. *)
Definition operation_states : list string :=
  ["MERGE_HEAD"; "CHERRY_PICK_HEAD"; "REVERT_HEAD"; "REBASE_HEAD"; "rebase-merge";
   "rebase-apply"; "sequencer"].
Definition refuse_operation (name : string) : publication () :=
  location ← git_text "locate Git operation state" (GitPath name);
  status ← query (Lstat location);
  checked (match status with
           | Found _ => Err (refused ("unfinished Git operation (" +:+ name +:+ ")"))
           | Missing => Ok ()
           | Unreadable error => Err (Io "inspect Git operation state" location error)
           end).
Definition refuse_in_progress_git_operation : publication () :=
  each (λ _, refuse_operation) () operation_states.

(** ** Reading the advance *)

(** What the commit that is missing has to contain. *)
Record Advance : Type := {
  adv_parent : string;
  adv_old_hash : string;
  adv_new_hash : string;
  adv_old_tail : option OriginFrontier;
  adv_new_tail : OriginFrontier;
  adv_first_seq : N;
  adv_segment : string;
  adv_manifest : string;
  adv_frontier : string;
}.

Definition utf8_hash (message : string) (b : bytes) : result V2StoreError string :=
  _ ← bail_if (negb (is_utf8 b)) (refused message);
  Ok (trim (of_bytes b)).

#[export] Instance CausalFrontier_eq_dec : EqDecision CausalFrontier.
Proof. solve_decision. Defined.

(** The accepted frontier with the local origin at its new tail. *)
Definition expected_successor (base : CausalFrontier) (origin old_hash : string)
    (new_tail : OriginFrontier) : CausalFrontier := {|
  Frontier.v := Frontier.v base;
  Frontier.archive_id := Frontier.archive_id base;
  Frontier.genesis_hash := Frontier.genesis_hash base;
  origins := merge_sort origin_le
    (filter (λ o, Frontier.origin_id o ≠ origin) (origins base) ++ [new_tail]);
  previous_frontiers := [old_hash];
  item_projection_version := item_projection_version base
|}.

(** The checks on the two frontiers. *)
Definition check_advance (parent old_hash new_hash new_frontier origin : string)
    (base successor : CausalFrontier) : result V2StoreError Advance :=
  let old_tail := find_origin (origins base) origin in
  first_seq ← ok_or (match old_tail with
                     | None => Some 1%N
                     | Some tail => checked_add_u64 (Frontier.seq tail) 1
                     end) (refused "local origin sequence overflow");
  new_tail ← ok_or (find_origin (origins successor) origin)
               (refused "successor has no active local origin");
  _ ← bail_if (negb (bool_decide (successor = expected_successor base origin old_hash new_tail))
               || (Frontier.seq new_tail <? first_seq)%N)
        (refused "successor must advance only the active local origin");
  Ok {| adv_parent := parent; adv_old_hash := old_hash; adv_new_hash := new_hash;
        adv_old_tail := old_tail; adv_new_tail := new_tail; adv_first_seq := first_seq;
        adv_segment := segment_relative_path origin first_seq;
        adv_manifest := manifest_relative_path origin first_seq;
        adv_frontier := new_frontier |}.

Definition read_advance (committed_head : bytes) : publication Advance :=
  _ ← refuse_in_progress_git_operation;
  parent ← git_text "read publication parent" RevParseHead;
  old_hash ← checked (utf8_hash "committed frontier HEAD is not UTF-8" committed_head);
  _ ← regular_file HEAD_PATH;
  content ← read_canonical HEAD_PATH;
  new_hash ← checked (utf8_hash "working frontier HEAD is not UTF-8" content);
  new_frontier ← checked (frontier_path new_hash);
  _ ← regular_file new_frontier;
  content ← read_canonical new_frontier;
  successor ← checked (parse_json (T := CausalFrontier) new_frontier content);
  _ ← checked (bail_if (negb (bool_decide (previous_frontiers successor = [old_hash])))
                 (refused "working frontier is not one direct successor of Git HEAD"));
  old_frontier ← checked (frontier_path old_hash);
  content ← git_blob parent old_frontier "read committed base frontier";
  base ← checked (map_err (λ _, refused "committed base frontier is malformed")
                    (from_json (A := CausalFrontier) content));
  origin ← local_origin;
  checked (check_advance parent old_hash new_hash new_frontier origin base successor).

(** [BTreeSet::from]: the four files, in order. *)
Definition adv_paths (a : Advance) : list string :=
  merge_sort String.le [HEAD_PATH; adv_segment a; adv_manifest a; adv_frontier a].
Definition is_expected (a : Advance) (path : string) : bool :=
  bool_decide (path ∈ [HEAD_PATH; adv_segment a; adv_manifest a; adv_frontier a]).

(** ** Nothing else differs *)

Definition check_flags (text : string) : result V2StoreError () :=
  for_each (λ entry, bail_if (negb (starts_with "H " entry))
    (refused "index has unresolved or hidden entries")) (nul_entries text).

(** The body of the loop that hashes the working files. *)
Definition hash_working (a : Advance) (tree : Entries) (entries : Entries) (path : string)
    : publication Entries :=
  if is_some_b (entries !! path) then mret entries else
  _ ← regular_file path;
  hash ← git_text "hash publication file" (HashObject path);
  let entry := ("100644", hash) in
  _ ← checked (bail_if (negb (is_expected a path) && negb (bool_decide (tree !! path = Some entry)))
                 (refused ("unrelated working change at " +:+ path)));
  mret (<[path := entry]> entries).

Definition check_history (tree : Entries) (path : string) : publication () :=
  if bool_decide (path = HEAD_PATH) then mret () else
  let known := refused ("publication path has existing Git history: " +:+ path) in
  _ ← checked (bail_if (is_some_b (tree !! path)) known);
  history ← git_text "inspect publication history" (LogPath path);
  checked (bail_if (negb (str_is_empty history)) known).

Definition check_index_entry (a : Advance) (tree working : Entries) (entry : string * (string * string))
    : result V2StoreError () :=
  let '(path, entry) := entry in
  bail_if (if is_expected a path then
             negb (bool_decide (Some entry = tree !! path))
             && negb (bool_decide (Some entry = working !! path))
           else negb (bool_decide (Some entry = tree !! path)))
    (refused ("unrelated or ambiguous index entry at " +:+ path)).

(** A [BTreeMap] is visited in the order of its keys. *)
Definition btree_entries (entries : Entries) : list (string * (string * string)) :=
  omap (λ k, pair k <$> entries !! k) (btree_keys entries).

Definition check_others (a : Advance) (text : string) : result V2StoreError () :=
  for_each (λ path, bail_if (negb (is_expected a path))
    (refused ("unrelated untracked file at " +:+ path))) (nul_entries text).

(** From the listings of Git to the files to commit, with the names of their blobs. *)
Definition inspect_repository (a : Advance) : publication Entries :=
  text ← git_listing "inspect committed publication tree" (LsTree (adv_parent a));
  tree ← checked (parse_entries text false);
  text ← git_listing "inspect publication index" LsStage;
  index ← checked (parse_entries text true);
  text ← git_listing "inspect index flags" LsFlags;
  _ ← checked (check_flags text);
  working ← each (hash_working a tree) ∅ (btree_keys tree ++ adv_paths a);
  _ ← each (λ _, check_history tree) () (adv_paths a);
  _ ← checked (for_each (check_index_entry a tree working) (btree_entries index));
  _ ← checked (bail_if (existsb (λ path, negb (is_some_b (index !! path))) (btree_keys tree))
                 (refused "index removes committed paths"));
  text ← git_listing "inspect untracked publication files" LsOthers;
  _ ← checked (check_others a text);
  mret working.

(** ** The last checks and the commit *)

Definition check_manifest_of (a : Advance) (signed : SignedSegmentManifest)
    : result V2StoreError () :=
  let body := manifest_body signed in
  let error := refused "local advance is not exactly one signed segment" in
  _ ← bail_if (negb (first_seq body =? adv_first_seq a)%N
               || negb (last_seq body =? Frontier.seq (adv_new_tail a))%N
               || negb (bool_decide (causal_base_frontier_hash body = adv_old_hash a))
               || negb (bool_decide (previous_segment_manifest_hash body
                                     = segment_manifest_hash <$> adv_old_tail a))) error;
  hash ← manifest_hash signed;
  bail_if (negb (bool_decide (hash = segment_manifest_hash (adv_new_tail a)))) error.

Definition verify_advance (a : Advance) : publication () :=
  tree ← query ReadCanonicalTree;
  verified ← pure (H := publication_interface) (verify_compact fuel tree);
  _ ← checked (bail_if (negb (bool_decide (accepted_frontier_hash verified = adv_new_hash a)))
                 (refused "working frontier changed during verification"));
  content ← read_canonical (adv_manifest a);
  signed ← checked (parse_json (T := SignedSegmentManifest) (adv_manifest a) content);
  checked (check_manifest_of a signed).

(** [working_entries[path].1], which panics without an entry. *)
Definition working_hash (working : Entries) (path : string) : publication string :=
  pure (H := publication_interface) (ok_or (snd <$> working !! path) HaltPanicked).

Definition write_blob (working : Entries) (path : string) : publication () :=
  hash ← git_text "write publication blob" (WriteObject path);
  expected ← working_hash working path;
  checked (bail_if (negb (bool_decide (hash = expected)))
             (refused "publication files changed during recovery")).

Definition stage (working : Entries) (path : string) : publication () :=
  hash ← working_hash working path;
  _ ← git_text "stage verified publication" (UpdateIndex "100644" hash path);
  mret ().

(** [commit_staged_canonical_tree] *)
Definition commit_staged_canonical_tree (operation_kind : string) : publication string :=
  output ← query (RunGit (CommitStaged ("Archive Ledger: " +:+ operation_kind)));
  output ← checked (map_err (Io "run Git canonical commit" root) output);
  _ ← checked (bail_if (negb (success output)) (Store.Git "commit canonical mutation" root));
  git_text "read canonical commit" RevParseHead.

Definition publish (a : Advance) (working : Entries) : publication string :=
  parent ← git_text "recheck publication parent" RevParseHead;
  _ ← checked (bail_if (negb (bool_decide (parent = adv_parent a)))
                 (refused "Git HEAD changed during publication recovery"));
  _ ← refuse_in_progress_git_operation;
  _ ← each (λ _, write_blob working) () (adv_paths a);
  _ ← each (λ _, stage working) () (adv_paths a);
  commit_staged_canonical_tree "recover pending publication".

Definition finish_pending_publication (committed_head : bytes) : publication string :=
  a ← read_advance committed_head;
  working ← inspect_repository a;
  _ ← verify_advance a;
  publish a working.

Definition refusing (e : V2StoreError) : V2StoreError :=
  match e with
  | PublicationRecoveryRefused _ => e
  | _ => refused (display e)
  end.

Definition recover_pending_publication_locked : publication (option string) :=
  committed ← git_blob "HEAD" HEAD_PATH "read committed frontier";
  working ← read_canonical HEAD_PATH;
  if bool_decide (committed = working) then mret None else
  commit ← mapping refusing (finish_pending_publication committed);
  mret (Some commit).
End publication.
