(* ===== verification/Repository.v ===== *)
(** The repository that a publication recovery runs in.

    [Repository] is what Git and the file system hold; [repository_exec] is the documented
    behaviour of the processes and the looks at files that [Publication.v] uses, and leaves open
    what the program does not rely on. The program runs alone: the append lock keeps other
    writers of the store out. [safe] and [reading] say what such a program does, with one rule
    per way of composing programs; the rest reads the listings of Git back. *)
From Stdlib Require Import ZArith NArith Lia Ascii.
From stdpp Require Import base decidable list gmap strings pretty sorting.
From S2P Require Import Prelude.
From S2P Require Import Text.
From S2P Require Import External.
From S2P Require Import Ids.
From S2P Require Import Frontier.
From S2P Require Import Batch.
From S2P Require Import Record.
From S2P Require Import Genesis.
From S2P Require Import Store.
From S2P Require Import Segment.
From S2P Require Import FrontierGraph.
From S2P Require Import Clients.
From S2P Require Import Coordination.
From S2P Require Import Batches.
From S2P Require Import Archive.
From S2P Require Import Append.
From S2P Require Import Ranges.
From S2P Require Import Visit.
From S2P Require Import Streaming.
From S2P Require Import WorkTree.
From S2P Require Import LocalFiles.
From S2P Require Import Interaction.
From S2P Require Import Remote.
From S2P Require Import Leases.
From S2P Require Import Publication.

(** ** The repository *)

Record IndexEntry : Type := {
  ie_path : string;
  ie_mode : string;
  ie_object : string;
  ie_stage : string;
}.
Record LocalCommit : Type := {
  lc_tree : Entries;
  lc_parents : list string;
}.

(** The commit [HEAD] names, the commits, the index, the other heads and the state files of an
    unfinished operation, and the working files. *)
Record Repository : Type := {
  head_id : string;
  local_commits : gmap string LocalCommit;
  index : list IndexEntry;
  merge_heads : list string;
  state_files : list string;
  work : LocalTree;
}.

Definition set_index (idx : list IndexEntry) (w : Repository) : Repository := {|
  head_id := head_id w; local_commits := local_commits w; index := idx;
  merge_heads := merge_heads w; state_files := state_files w; work := work w |}.

Definition index_entry_of (e : IndexEntry) : string * (string * string) :=
  (ie_path e, (ie_mode e, ie_object e)).
Definition insert_entry (m : Entries) (e : string * (string * string)) : Entries :=
  <[e.1 := e.2]> m.
Definition entries_of (l : list (string * (string * string))) : Entries := foldl insert_entry ∅ l.
Definition index_tree (idx : list IndexEntry) : Entries := entries_of (index_entry_of <$> idx).

(** [git update-index --add --cacheinfo] *)
Definition stage_entry (mode object path : string) (idx : list IndexEntry) : list IndexEntry :=
  filter (λ e, ie_path e ≠ path) idx
  ++ [{| ie_path := path; ie_mode := mode; ie_object := object; ie_stage := "0" |}].

(** A word of a listing. *)
Definition token (s : string) : bool :=
  negb (str_is_empty s) && all_bytes is_ascii_alphanumeric s.

(** A path that Git tracks: plain names between single slashes, not of its own directory. *)
Definition tracked_part (part : string) : bool := bool_decide (part ∉ [""; "."; ".."]).
Definition tracked_path (path : string) : bool :=
  forallb tracked_part (split_char "/" path)
  && negb (bool_decide (head (split_char "/" path) = Some ".git"))
  && negb (bool_decide ("000"%char ∈ as_bytes path)).

(** ** What Git prints *)

Definition text_of (entries : list string) : string :=
  foldr (λ entry text, entry +:+ nul +:+ text) "" entries.

Definition kind_of (mode : string) : string := if bool_decide (mode = "160000") then "commit" else "blob".
Definition tree_line (e : string * (string * string)) : string :=
  e.2.1 +:+ " " +:+ kind_of e.2.1 +:+ " " +:+ e.2.2 +:+ tab +:+ e.1.
Definition index_line (e : IndexEntry) : string :=
  ie_mode e +:+ " " +:+ ie_object e +:+ " " +:+ ie_stage e +:+ tab +:+ ie_path e.

Definition tidy_tree (e : string * (string * string)) : bool :=
  token e.2.1 && token e.2.2 && tracked_path e.1.
Definition tidy_index (e : IndexEntry) : bool :=
  token (ie_mode e) && token (ie_object e) && token (ie_stage e) && tracked_path (ie_path e).

Definition is_untracked (w : Repository) (path : string) : Prop :=
  (∃ node, work w !! path = Some node ∧ is_directory node = false) ∧ path ∉ ie_path <$> index w.

Section repository.
(** The name of a blob, and where Git keeps a state file. *)
Context (blob_id : bytes → string) (git_path : string → string).

(** The output of a process that succeeds. *)
Definition prints (w : Repository) (c : LocalGit) (out : string) : Prop :=
  match c with
  | ShowBlob revision path => ∃ commit mode b,
      local_commits w !! (if bool_decide (revision = "HEAD") then head_id w else revision)
        = Some commit ∧ lc_tree commit !! path = Some (mode, blob_id b) ∧ out = of_bytes b
  | RevParseHead => out = head_id w +:+ newline
  | GitPath name => trim out = git_path name
  | LsTree commit => ∃ c l, local_commits w !! commit = Some c ∧ l ≡ₚ map_to_list (lc_tree c) ∧
      forallb tidy_tree l = true ∧ out = text_of (tree_line <$> l)
  | LsStage => forallb tidy_index (index w) = true ∧ out = text_of (index_line <$> index w)
  | LsOthers => ∃ l, (∀ path, path ∈ l ↔ is_untracked w path) ∧
      forallb tracked_path l = true ∧ out = text_of l
  | HashObject path | WriteObject path => ∀ content n,
      work w !! path = Some (LocalFile content n) → out = blob_id content +:+ newline
  | LsFlags | LogPath _ | UpdateIndex _ _ _ | CommitStaged _ => True
  end.

(** [git commit] records the index, on top of [HEAD] and the heads being merged. *)
Definition commits_index (w w' : Repository) : Prop := ∃ id,
  is_object_name id = true ∧ Forall (λ e, ie_stage e = "0") (index w) ∧
  local_commits w !! id = None ∧ head_id w' = id ∧
  local_commits w' = <[id := {| lc_tree := index_tree (index w);
                               lc_parents := head_id w :: merge_heads w |}]> (local_commits w) ∧
  work w' = work w ∧ index w' = index w.

Definition git_step (w : Repository) (c : LocalGit) (out : result string Output) (w' : Repository)
    : Prop :=
  match c with
  | UpdateIndex mode object path =>
      (w' = w ∧ ¬ succeeded out) ∨ w' = set_index (stage_entry mode object path (index w)) w
  | CommitStaged _ => (w' = w ∧ ¬ succeeded out) ∨ commits_index w w'
  | _ => w' = w ∧ ∀ o, out = Ok o → success o = true → prints w c (stdout o)
  end.

(** A path of Git's own directory, or of another. *)
Definition outside (path : string) : Prop :=
  starts_with "/" path = true ∨ head (split_char "/" path) = Some ".git".

Definition inspected (w : Repository) (path : string) (status : Status) : Prop :=
  match status with
  | Missing => work w !! path = None ∧ ∀ name, name ∈ state_files w → path ≠ git_path name
  | Unreadable _ => True
  | Found m =>
      match work w !! path with
      | Some (LocalFile _ n) => file_kind m = RegularFile ∧ links m = n
      | Some LocalDirectory => file_kind m = DirectoryFile
      | Some LocalOther => file_kind m = OtherFile
      | None => outside path
      end
  end.

Definition repository_exec (w : Repository) (c : PublicationCall)
    : publication_answer c → Repository → Prop :=
  match c with
  | RunGit c => git_step w c
  | Lstat path => λ status w', w' = w ∧ inspected w path status
  | ReadCanonical path => λ out w', w' = w ∧
      ∀ b content n, out = Ok b → work w !! path = Some (LocalFile content n) → b = content
  | ReadCanonicalTree => λ tree w', w' = w ∧ tree = local_tree (work w)
  | ReadSelector => λ _ w', w' = w
  end.

(** ** A program that runs alone *)

#[local] Abbreviation runs_alone :=
  (runs (H := publication_interface) repository_exec (λ _ _, False)).

Fixpoint safe {A} (p : prog (H := publication_interface) A) (Q : A → Repository → Prop)
    (w : Repository) : Prop :=
  match p with
  | Ret a => Q a w
  | Do c k => ∀ r w', repository_exec w c r w' → safe (k r) Q w'
  end.

Lemma safe_runs {A} (p : prog A) Q w a w' : safe p Q w → runs_alone p w a w' → Q a w'.
Proof.
  intros Hp Hrun. induction Hrun as [a w | c k w r w1 a w' He _ IH | ? ? ? ? ? []].
  - exact Hp.
  - apply IH. by apply Hp.
Qed.

Lemma safe_mono {A} (p : prog A) (Q Q' : A → Repository → Prop) w :
  (∀ a w', Q a w' → Q' a w') → safe p Q w → safe p Q' w.
Proof. intros HQ. revert w. induction p as [a | c k IH]; cbn; intros w Hp; eauto. Qed.

Lemma safe_bind {A B} (p : prog A) (k : A → prog B) Q w :
  safe p (λ a w', safe (k a) Q w') w → safe (prog_bind p k) Q w.
Proof. revert w. induction p as [a | c k' IH]; cbn; intros w Hp; [done |]. eauto. Qed.

(** A computation of the code: what holds if it fails, and if it goes on. *)
Lemma safe_mbind {A B} (m : publication A) (k : A → publication B) Q w :
  safe m (λ r w', match r with Ok a => safe (k a) Q w' | Err e => Q (Err e) w' end) w →
  safe (m ≫= k) Q w.
Proof.
  intros Hm. apply safe_bind. revert Hm. apply safe_mono. by intros [a | e] w' Ha.
Qed.

(** It changes nothing, and [P] holds of what it returns. *)
Definition reading {A} (m : publication A) (w : Repository) (P : A → Prop) : Prop :=
  safe m (λ r w', w' = w ∧ ∀ a, r = Ok a → P a) w.

Lemma reading_ret {A} (a : A) w (P : A → Prop) : P a → reading (mret a) w P.
Proof. intros HP. split; [done |]. by intros a' [= <-]. Qed.

Lemma reading_bind {A B} (m : publication A) (k : A → publication B) w P Q :
  reading m w P → (∀ a, P a → reading (k a) w Q) → reading (m ≫= k) w Q.
Proof.
  intros Hm Hk. apply safe_mbind. revert Hm. apply safe_mono.
  intros [a | e] w' [-> HP]; [by apply Hk, HP | done].
Qed.

Lemma reading_mono {A} (m : publication A) w (P P' : A → Prop) :
  (∀ a, P a → P' a) → reading m w P → reading m w P'.
Proof. intros HP. apply safe_mono. intros r w' [Hw Hr]. split; [done |]. intros a Ha. eauto. Qed.

Lemma reading_checked {A} (m : result V2StoreError A) w (P : A → Prop) :
  (∀ a, m = Ok a → P a) → reading (checked m) w P.
Proof. intros HP. split; [done |]. intros a Ha%map_err_Ok. by apply HP. Qed.

Lemma reading_pure {A} (m : result (Halt V2StoreError) A) w (P : A → Prop) :
  (∀ a, m = Ok a → P a) → reading (pure (H := publication_interface) m) w P.
Proof. intros HP. by split. Qed.

Lemma reading_query (c : PublicationCall) w (P : publication_answer c → Prop) :
  (∀ r w', repository_exec w c r w' → w' = w ∧ P r) → reading (query c) w P.
Proof.
  intros Hc. cbn. intros r w' He. destruct (Hc r w' He) as [-> HP]. split; [done |].
  by intros a [= <-].
Qed.

(** A loop whose body reads, with an invariant of what was visited. *)
Lemma reading_each {A B} (f : B → A → publication B) (I : list A → B → Prop) w b l :
  I [] b → (∀ pre a b, a ∈ l → I pre b → reading (f b a) w (I (pre ++ [a]))) →
  reading (each f b l) w (I l).
Proof.
  intros Hb Hf. enough (∀ pre rest b, I pre b → (∀ a, a ∈ rest → a ∈ l) →
    reading (each f b rest) w (I (pre ++ rest))) as Hall.
  { by apply (Hall [] l b). }
  intros pre rest. revert pre. induction rest as [|a rest IH]; intros pre b' Hb' Hin; cbn [each].
  - rewrite app_nil_r. by apply reading_ret.
  - eapply reading_bind; [apply Hf; [apply Hin; by left | exact Hb'] |].
    intros b1 Hb1. rewrite cons_middle, app_assoc. apply IH; [done |]. intros x Hx. apply Hin. by right.
Qed.

Lemma reading_each_unit {A} (f : A → publication ()) (P : A → Prop) w l :
  (∀ a, a ∈ l → reading (f a) w (λ _, P a)) →
  reading (each (λ _, f) () l) w (λ _, ∀ a, a ∈ l → P a).
Proof.
  intros Hf. apply (reading_each (λ _, f) (λ pre _, ∀ a, a ∈ pre → P a)); [by intros a ?%elem_of_nil |].
  intros pre a [] Ha Hpre. apply (reading_mono _ _ (λ _, P a)); [|by apply Hf].
  intros _ HP x.
  rewrite elem_of_app, list_elem_of_singleton. intros [Hx | <-]; auto.
Qed.
End repository.

(** ** Reading the listings *)

Lemma nul_entries_text ls :
  Forall (λ s, s ≠ "" ∧ "000"%char ∉ as_bytes s) ls → nul_entries (text_of ls) = ls.
Proof.
  unfold nul_entries. induction 1 as [|s ls [Hs Hn] _ IH]; [done |].
  cbn [text_of foldr]. change (nul +:+ ?t) with (String "000" t).
  rewrite split_char_cons, split_char_one by done. cbn [app].
  rewrite filter_cons_True by done. f_equal. exact IH.
Qed.

Lemma alphanumeric_plain a :
  is_ascii_alphanumeric a = true →
  a ≠ "009"%char ∧ a ≠ "000"%char ∧ ∀ b, strip_whitespace_char (a :: b) = None.
Proof.
  intros Ha. destruct a as [[] [] [] [] [] [] [] []]; vm_compute in Ha; try discriminate Ha;
    (split_and!; [done | done | intros [|? [|]]; done]).
Qed.

Lemma token_true s : token s = true ↔
  s ≠ "" ∧ ∀ a, a ∈ as_bytes s → is_ascii_alphanumeric a = true.
Proof. unfold token. by rewrite andb_true_iff, negb_true_iff, str_is_empty_false, all_bytes_true. Qed.

(** The first word, and what follows its space. *)
Lemma words_token fuel word t b :
  (∀ a, a ∈ t → is_ascii_alphanumeric a = true) → length t <= fuel →
  words fuel word (t ++ b) = words (fuel - length t) (word ++ t) b.
Proof.
  revert fuel word. induction t as [|a t IH]; intros fuel word Ht Hfuel.
  { by rewrite app_nil_r, Nat.sub_0_r. }
  destruct fuel as [|fuel]; [cbn in Hfuel; lia |]. cbn [length app words].
  destruct (alphanumeric_plain a) as (_ & _ & Ha); [apply Ht; by left |].
  rewrite Ha, IH; [| intros; apply Ht; by right | cbn in Hfuel; lia].
  by rewrite <- app_assoc.
Qed.

Lemma words_space fuel word b : word ≠ [] →
  words (S fuel) word (" "%char :: b) = of_bytes word :: words fuel [] b.
Proof. intros Hw. cbn. by destruct word. Qed.

Lemma words_end fuel word : word ≠ [] → words fuel word [] = [of_bytes word].
Proof. intros Hw. destruct fuel, word; done. Qed.

Lemma token_bytes s : token s = true → as_bytes s ≠ [].
Proof. rewrite token_true. intros [Hs _] Hn. apply Hs. by rewrite <- (of_as_bytes s), Hn. Qed.

Lemma split_three a b c :
  token a = true → token b = true → token c = true →
  split_whitespace (a +:+ " " +:+ b +:+ " " +:+ c) = [a; b; c].
Proof.
  intros Ha Hb Hc. unfold split_whitespace. rewrite <- length_as_bytes, !as_bytes_app.
  change (as_bytes " ") with [" "%char]. cbn [app].
  pose proof (proj1 (token_true _) Ha) as [_ Ha']. pose proof (proj1 (token_true _) Hb) as [_ Hb'].
  pose proof (proj1 (token_true _) Hc) as [_ Hc'].
  set (n := length _). assert (n = length (as_bytes a) + S (length (as_bytes b) + S (length (as_bytes c)))) as ->.
  { subst n. rewrite !length_app. cbn. rewrite !length_app. cbn. lia. }
  rewrite words_token by (done || lia). rewrite Nat.add_comm, Nat.add_sub. cbn [app].
  rewrite words_space by by apply token_bytes.
  rewrite words_token by (done || lia). rewrite Nat.add_comm, Nat.add_sub. cbn [app].
  rewrite words_space by by apply token_bytes.
  pose proof (words_token (length (as_bytes c)) [] (as_bytes c) [] Hc' (le_n _)) as Hw.
  rewrite app_nil_r, Nat.sub_diag in Hw. rewrite Hw. cbn [app].
  rewrite words_end by by apply token_bytes. by rewrite !of_as_bytes.
Qed.

Lemma split_once_tab m p : "009"%char ∉ as_bytes m → split_once tab (m +:+ tab +:+ p) = Some (m, p).
Proof.
  induction m as [|a m IH]; [done |]. change (as_bytes (String a m)) with (a :: as_bytes m).
  intros [Ha Hm]%not_elem_of_cons.
  change (String a m +:+ tab +:+ p) with (String a (m +:+ tab +:+ p)). cbn [split_once].
  destruct (strip_prefix tab (String a (m +:+ tab +:+ p))) as [rest|] eqn:Hp.
  { apply strip_prefix_Some in Hp. injection Hp as Heq _. by rewrite Heq in Ha. }
  by rewrite IH.
Qed.

Lemma three_no_tab a b c :
  token a = true → token b = true → token c = true → "009"%char ∉ as_bytes (a +:+ " " +:+ b +:+ " " +:+ c).
Proof.
  rewrite !token_true. intros [_ Ha] [_ Hb] [_ Hc]. rewrite !as_bytes_app, !not_elem_of_app.
  split_and!; try (intros Hin; first [apply Ha in Hin | apply Hb in Hin | apply Hc in Hin]; done).
  all: change (as_bytes " ") with [" "%char]; set_solver.
Qed.

Lemma line_tail a b c p : a +:+ " " +:+ b +:+ " " +:+ c +:+ tab +:+ p
  = (a +:+ " " +:+ b +:+ " " +:+ c) +:+ tab +:+ p.
Proof. by rewrite !append_assoc. Qed.

(** A line of the index that is read. *)
Lemma parse_index_line m e m' :
  tidy_index e = true → parse_entry true m (index_line e) = Ok m' →
  ie_stage e = "0" ∧ ie_mode e = "100644" ∧ m !! ie_path e = None ∧
  m' = insert_entry m (index_entry_of e).
Proof.
  unfold tidy_index. intros [[[Hm Ho]%andb_true_iff Hs]%andb_true_iff _]%andb_true_iff Hrun.
  unfold parse_entry, index_line in Hrun.
  rewrite line_tail, split_once_tab in Hrun by by apply three_no_tab.
  cbn [ok_or mbind result_bind] in Hrun. rewrite split_three in Hrun by done.
  apply bind_Ok in Hrun as ([mode hash] & Hparts & Hrun).
  assert (ie_stage e = "0" ∧ mode = ie_mode e ∧ hash = ie_object e) as (Hstage & -> & ->).
  { destruct (decide (ie_stage e = "0")) as [Heq | Hne].
    - rewrite Heq in Hparts. by injection Hparts as <- <-.
    - exfalso. repeat (case_match; try done); congruence. }
  apply bind_Ok in Hrun as ([] & Hok%bail_if_Ok & [= <-]).
  apply orb_false_iff in Hok as [Hmode%negb_false_iff%bool_decide_eq_true_1 Hnew].
  split_and!; try done. by destruct (m !! ie_path e).
Qed.

Lemma parse_tree_line m e m' :
  tidy_tree e = true → parse_entry false m (tree_line e) = Ok m' →
  e.2.1 = "100644" ∧ m !! e.1 = None ∧ m' = insert_entry m e.
Proof.
  destruct e as [path [mode hash]]. unfold tidy_tree. cbn [fst snd].
  intros [[Hm Ho]%andb_true_iff _]%andb_true_iff Hrun. unfold parse_entry, tree_line in Hrun.
  cbn [fst snd] in Hrun.
  assert (token (kind_of mode) = true) as Hk by (unfold kind_of; by case_bool_decide).
  rewrite line_tail, split_once_tab in Hrun by by apply three_no_tab.
  cbn [ok_or mbind result_bind] in Hrun. rewrite split_three in Hrun by done.
  apply bind_Ok in Hrun as ([mode' hash'] & Hparts & Hrun).
  assert (mode' = mode ∧ hash' = hash) as [-> ->].
  { unfold kind_of in Hparts. destruct (bool_decide (mode = "160000")); [discriminate Hparts |].
    by injection Hparts as <- <-. }
  apply bind_Ok in Hrun as ([] & Hok%bail_if_Ok & [= <-]).
  apply orb_false_iff in Hok as [Hmode%negb_false_iff%bool_decide_eq_true_1 Hnew].
  split_and!; try done. by destruct (m !! path).
Qed.

Lemma parse_index_lines l m m' :
  forallb tidy_index l = true → fold_result (parse_entry true) m (index_line <$> l) = Ok m' →
  Forall (λ e, ie_stage e = "0") l ∧ m' = foldl insert_entry m (index_entry_of <$> l).
Proof.
  revert m. induction l as [|e l IH]; cbn [forallb fmap list_fmap fold_result]; intros m.
  { by intros _ [= <-]. }
  intros [He Hl]%andb_true_iff (m1 & (Hs & _ & _ & ->)%parse_index_line & Hrun)%bind_Ok; [|done].
  apply IH in Hrun as [Hall ->]; [|done]. split; [by constructor | done].
Qed.

Lemma parse_tree_lines l m m' :
  forallb tidy_tree l = true → fold_result (parse_entry false) m (tree_line <$> l) = Ok m' →
  m' = foldl insert_entry m l.
Proof.
  revert m. induction l as [|e l IH]; cbn [forallb fmap list_fmap fold_result]; intros m.
  { by intros _ [= <-]. }
  intros [He Hl]%andb_true_iff (m1 & (_ & _ & ->)%parse_tree_line & Hrun)%bind_Ok; [|done].
  by apply IH in Hrun as ->.
Qed.

Lemma line_words_nul a b c p :
  token a = true → token b = true → token c = true → tracked_path p = true →
  let line := a +:+ " " +:+ b +:+ " " +:+ c +:+ tab +:+ p in line ≠ "" ∧ "000"%char ∉ as_bytes line.
Proof.
  intros Ha Hb Hc Hp line. split.
  { subst line. apply token_true in Ha as [Ha _]. by destruct a. }
  apply andb_true_iff in Hp as [_ Hp%negb_true_iff%bool_decide_eq_false_1].
  rewrite !token_true in *. destruct Ha as [_ Ha], Hb as [_ Hb], Hc as [_ Hc]. subst line.
  rewrite !as_bytes_app, !not_elem_of_app. split_and!; try done;
    try (intros Hin; first [apply Ha in Hin | apply Hb in Hin | apply Hc in Hin]; done).
  all: intros Hin%list_elem_of_singleton; done.
Qed.

Lemma index_lines_clean l : forallb tidy_index l = true →
  Forall (λ s, s ≠ "" ∧ "000"%char ∉ as_bytes s) (index_line <$> l).
Proof.
  rewrite forallb_forall. intros Hl. apply Forall_fmap, Forall_forall. intros e He.
  specialize (Hl e (proj1 (list_elem_of_In _ _) He)).
  apply andb_true_iff in Hl as [[[Hm Ho]%andb_true_iff Hs]%andb_true_iff Hp].
  by apply line_words_nul.
Qed.

Lemma tree_lines_clean l : forallb tidy_tree l = true →
  Forall (λ s, s ≠ "" ∧ "000"%char ∉ as_bytes s) (tree_line <$> l).
Proof.
  rewrite forallb_forall. intros Hl. apply Forall_fmap, Forall_forall. intros [path [mode hash]] He.
  specialize (Hl _ (proj1 (list_elem_of_In _ _) He)).
  apply andb_true_iff in Hl as [[Hm Ho]%andb_true_iff Hp]. apply line_words_nul; try done.
  unfold kind_of. by case_bool_decide.
Qed.

Lemma tracked_clean l : forallb tracked_path l = true →
  Forall (λ s, s ≠ "" ∧ "000"%char ∉ as_bytes s) l.
Proof.
  rewrite forallb_forall. intros Hl. apply Forall_forall. intros p Hp.
  specialize (Hl _ (proj1 (list_elem_of_In _ _) Hp)).
  apply andb_true_iff in Hl as [[Hparts _]%andb_true_iff Hn%negb_true_iff%bool_decide_eq_false_1].
  split; [|done]. by intros ->.
Qed.

Lemma entries_of_list_to_map l : entries_of l = list_to_map (reverse l).
Proof.
  unfold entries_of. induction l as [|x l IH] using rev_ind; [done |].
  rewrite foldl_snoc, reverse_snoc, IH. done.
Qed.

(** What [parse_entries] reads from a tree is the tree. *)
Lemma parse_tree_text l tree entries :
  l ≡ₚ map_to_list tree → forallb tidy_tree l = true →
  parse_entries (text_of (tree_line <$> l)) false = Ok entries → entries = tree.
Proof.
  intros Hl Htidy. unfold parse_entries. rewrite nul_entries_text by by apply tree_lines_clean.
  intros ->%parse_tree_lines; [|done].
  change (entries_of l = tree). rewrite entries_of_list_to_map.
  rewrite <- (list_to_map_to_list tree). apply list_to_map_proper.
  - rewrite reverse_Permutation, Hl. apply NoDup_fst_map_to_list.
  - by rewrite reverse_Permutation.
Qed.

(** ... and from the index, the index, which is then without conflicts. *)
Lemma parse_index_text l entries :
  forallb tidy_index l = true → parse_entries (text_of (index_line <$> l)) true = Ok entries →
  Forall (λ e, ie_stage e = "0") l ∧ entries = index_tree l.
Proof.
  intros Htidy. unfold parse_entries. rewrite nul_entries_text by by apply index_lines_clean.
  by intros [Hs ->]%parse_index_lines.
Qed.

Lemma insert_skip (p : string) (x : string * string) l (m m' : Entries) :
  <[p := x]> m = <[p := x]> m' →
  <[p := x]> (foldl insert_entry m (index_entry_of <$> filter (λ e, ie_path e ≠ p) l))
  = <[p := x]> (foldl insert_entry m' (index_entry_of <$> l)).
Proof.
  revert m m'. induction l as [|e l IH]; intros m m' Hm; [done |].
  destruct (decide (ie_path e = p)) as [He | He].
  - rewrite filter_cons_False by naive_solver. cbn [fmap list_fmap foldl]. apply IH.
    unfold insert_entry. cbn. rewrite He. by rewrite insert_insert_eq.
  - rewrite filter_cons_True by done. cbn [fmap list_fmap foldl]. apply IH.
    unfold insert_entry. cbn. by rewrite !(insert_insert_ne _ p), Hm by congruence.
Qed.

(** Staging replaces the entry of one path. *)
Lemma index_tree_stage mode object path idx :
  index_tree (stage_entry mode object path idx) = <[path := (mode, object)]> (index_tree idx).
Proof.
  unfold index_tree, stage_entry, entries_of. rewrite fmap_app, foldl_app. cbn [fmap list_fmap foldl].
  unfold insert_entry at 1. cbn. by apply insert_skip.
Qed.

Lemma index_tree_elem idx path entry :
  index_tree idx !! path = Some entry → path ∈ ie_path <$> idx.
Proof.
  unfold index_tree. rewrite entries_of_list_to_map. intros Hin%elem_of_list_to_map_2.
  apply elem_of_reverse, list_elem_of_fmap in Hin as (e & [= -> _] & He).
  by apply list_elem_of_fmap_2.
Qed.

Lemma index_tree_of idx path : path ∈ ie_path <$> idx → is_Some (index_tree idx !! path).
Proof.
  intros (e & -> & He)%list_elem_of_fmap. unfold index_tree. rewrite entries_of_list_to_map.
  destruct (list_to_map (reverse (index_entry_of <$> idx)) !! ie_path e) as [x|] eqn:Hx; [by exists x |].
  exfalso. apply not_elem_of_list_to_map_2 in Hx. apply Hx.
  rewrite fmap_reverse, elem_of_reverse, <- list_fmap_compose. by apply list_elem_of_fmap_2.
Qed.

(** ** Paths *)

Definition down (path part : string) : string :=
  if str_is_empty path then part else path +:+ "/" +:+ part.

Lemma down_parts path parts :
  path ≠ "" → foldl down path parts = join_char "/" (path :: parts).
Proof.
  revert path. induction parts as [|part parts IH]; intros path Hp; [done |].
  cbn [foldl]. unfold down at 2. rewrite (proj2 (str_is_empty_false _) Hp).
  rewrite IH by by destruct path.
  change (path +:+ "/" +:+ part) with (join_char "/" [path; part]).
  destruct parts as [|q parts]; [done |].
  change (join_char "/" (join_char "/" [path; part] :: q :: parts))
    with ((path +:+ String "/" part) +:+ String "/" (join_char "/" (q :: parts))).
  by rewrite append_assoc.
Qed.

Lemma down_whole path : head (split_char "/" path) ≠ Some "" →
  foldl down "" (split_char "/" path) = path.
Proof.
  intros Hhead. rewrite <- (join_split_char "/" path) at 2.
  pose proof (split_char_not_nil "/" path) as Hne.
  destruct (split_char "/" path) as [|p ps]; [done |]. cbn [foldl].
  change (down "" p) with p. apply down_parts. by intros ->.
Qed.

Lemma tracked_parts path : tracked_path path = true →
  Forall (λ part, part ∉ [""; "."; ".."]) (split_char "/" path) ∧
  head (split_char "/" path) ≠ Some ".git".
Proof.
  intros [[Hparts Hgit%negb_true_iff%bool_decide_eq_false_1]%andb_true_iff _]%andb_true_iff.
  split; [|done]. apply Forall_forall. intros part Hp.
  rewrite forallb_forall in Hparts. specialize (Hparts part (proj1 (list_elem_of_In _ _) Hp)).
  by apply bool_decide_eq_true_1 in Hparts.
Qed.

Lemma starts_with_slash path : starts_with "/" path = true → head (split_char "/" path) = Some "".
Proof. by intros (t & ->)%starts_with_true. Qed.

Lemma components_tracked path : tracked_path path = true →
  components path = Some <$> split_char "/" path.
Proof.
  intros [Hparts _]%tracked_parts. unfold components.
  assert (starts_with "/" path || bool_decide (head (split_char "/" path) = Some ".") = false) as ->.
  { destruct (split_char "/" path) as [|p ps] eqn:Hs; [by apply split_char_not_nil in Hs |].
    apply Forall_cons in Hparts as [Hp _]. apply orb_false_iff. split.
    - apply not_true_is_false. intros Hst%starts_with_slash. rewrite Hs in Hst. cbn in Hst.
      injection Hst as ->. set_solver.
    - apply bool_decide_eq_false. cbn. intros [= ->]. set_solver. }
  cbn [app]. induction Hparts as [|p ps Hp _ IH]; [done |].
  rewrite filter_cons_True by set_solver. cbn [fmap list_fmap].
  rewrite bool_decide_false by set_solver. f_equal. exact IH.
Qed.

Lemma tracked_inside path : tracked_path path = true → ¬ outside path.
Proof.
  intros [Hparts Hgit]%tracked_parts [Hs%starts_with_slash | ?]; [|done].
  destruct (split_char "/" path) as [|p ps]; [done |]. injection Hs as ->.
  apply Forall_cons in Hparts as [Hp _]. set_solver.
Qed.

(** A name for which no path inside can stand. *)
Definition plain_name (name : string) : Prop :=
  (name ∉ [""; "."; ".."]) ∧ one_name name ∧ ("000"%char ∉ as_bytes name).

Lemma tracked_app top name :
  tracked_path top = true → plain_name name → tracked_path (top +:+ "/" +:+ name) = true.
Proof.
  intros Ht (Hn & Hone & Hnul). unfold tracked_path in *.
  change (top +:+ "/" +:+ name) with (top +:+ String "/" name).
  rewrite split_char_cons, (split_char_one _ name) by done. rewrite forallb_app.
  apply andb_true_iff in Ht as [[Hp Hg]%andb_true_iff Hz]. rewrite Hp. cbn [forallb andb].
  pose proof (split_char_not_nil "/" top). destruct (split_char "/" top) as [|q qs]; [done |].
  cbn [app head] in *. rewrite Hg. unfold tracked_part. rewrite bool_decide_true by done. cbn [andb].
  apply negb_true_iff, bool_decide_eq_false. apply negb_true_iff, bool_decide_eq_false in Hz.
  rewrite as_bytes_app, not_elem_of_app. split; [done |].
  change (as_bytes (String "/" name)) with ("/"%char :: as_bytes name).
  apply not_elem_of_cons. split; [done | done].
Qed.

Lemma plain_between pre middle post :
  (∀ s, pre +:+ s ∉ [""; "."; ".."]) → plain_name pre → plain_name post →
  one_name middle → "000"%char ∉ as_bytes middle → plain_name (pre +:+ middle +:+ post).
Proof.
  intros Hpre (_ & H1 & H2) (_ & H3 & H4) H5 H6. split_and!; [done | |].
  - by repeat apply one_name_app.
  - rewrite !as_bytes_app, !not_elem_of_app. done.
Qed.

Lemma plain_closed name :
  bool_decide (name ∉ [""; "."; ".."]) && forallb (λ c, negb (Ascii.eqb c "/")) (as_bytes name)
    && negb (bool_decide ("000"%char ∈ as_bytes name)) = true → plain_name name.
Proof.
  rewrite !andb_true_iff, bool_decide_eq_true, negb_true_iff, bool_decide_eq_false.
  intros [[Hn Hs] Hz].
  split_and!; [done | by apply one_name_closed | done].
Qed.

Lemma plain_hex pre post hex :
  (∀ s, pre +:+ s ∉ [""; "."; ".."]) → plain_name pre → plain_name post →
  all_bytes is_lower_hex hex = true → plain_name (pre +:+ hex +:+ post).
Proof. intros. apply plain_between; [done.. | by apply hex_one_name | by apply hex_without]. Qed.

Lemma plain_number pre post n :
  (∀ s, pre +:+ s ∉ [""; "."; ".."]) → plain_name pre → plain_name post →
  plain_name (pre +:+ pad12 n +:+ post).
Proof.
  intros. apply plain_between; [done.. | apply pad12_one_name |].
  apply pad12_without. intros x. unfold pretty_N_char. by repeat case_match.
Qed.

Lemma tracked_origin top origin : tracked_path top = true → is_origin_id origin = true →
  tracked_path (top +:+ "/" +:+ origin) = true.
Proof.
  intros Htop (hex & -> & [_ Hhex]%andb_true_iff)%is_origin_id_true. apply tracked_app; [done |].
  split_and!; [set_solver | |].
  - apply one_name_app; [by apply one_name_closed | by apply hex_one_name].
  - rewrite as_bytes_app, not_elem_of_app. split; [set_solver | by apply hex_without].
Qed.

Lemma tracked_segment origin n :
  is_origin_id origin = true → tracked_path (segment_relative_path origin n) = true.
Proof.
  intros Ho. unfold segment_relative_path.
  change (tracked_path ("events/v2/origins" +:+ "/" +:+ origin +:+ "/" +:+ "seg-" +:+ pad12 n +:+ ".jsonl") = true).
  rewrite <- (append_assoc "/" origin), <- (append_assoc _ ("/" +:+ origin)).
  apply tracked_app; [by apply tracked_origin |].
  apply plain_number; [set_solver | by apply plain_closed | by apply plain_closed].
Qed.

Lemma tracked_manifest origin n :
  is_origin_id origin = true → tracked_path (manifest_relative_path origin n) = true.
Proof.
  intros Ho. unfold manifest_relative_path.
  change (tracked_path ("manifests/v2/origins" +:+ "/" +:+ origin +:+ "/" +:+ "seg-" +:+ pad12 n +:+ ".manifest.json") = true).
  rewrite <- (append_assoc "/" origin), <- (append_assoc _ ("/" +:+ origin)).
  apply tracked_app; [by apply tracked_origin |].
  apply plain_number; [set_solver | by apply plain_closed | by apply plain_closed].
Qed.

Lemma tracked_frontier `{Blake3} hash path : frontier_path hash = Ok path → tracked_path path = true.
Proof.
  intros (hex & -> & Hhash & ->)%frontier_path_Ok.
  apply (tracked_app "frontiers/v2" ("frontier-" +:+ hex +:+ ".json")); [done |].
  apply plain_hex; [set_solver | by apply plain_closed | by apply plain_closed |].
  apply is_blake3_identifier_true in Hhash as (hex' & Heq & [_ Hhex]%andb_true_iff).
  by apply (inj (String.append "blake3:")) in Heq as ->.
Qed.
