(* ===== verification/Published.v ===== *)
(** What a publication recovery can do to a repository: the theorem on [Publication.v].

    The lemmas follow the program: what each of its parts has read ([advancing], [inspection]),
    what is known before anything is staged ([ready]), the index while files are staged
    ([staged]) and the commit ([published]). *)
From Stdlib Require Import ZArith NArith Lia Ascii.
From stdpp Require Import base decidable list gmap strings pretty sorting.
From S2P Require Import Prelude.
From S2P Require Import Text.
From S2P Require Import External.
From S2P Require Import Ids.
From S2P Require Import Frontier.
From S2P Require Import Batch.
From S2P Require Import Record.
From S2P Require Import Genesis.
From S2P Require Import Store.
From S2P Require Import Segment.
From S2P Require Import FrontierGraph.
From S2P Require Import Clients.
From S2P Require Import Coordination.
From S2P Require Import Batches.
From S2P Require Import Archive.
From S2P Require Import Append.
From S2P Require Import Ranges.
From S2P Require Import Visit.
From S2P Require Import Streaming.
From S2P Require Import WorkTree.
From S2P Require Import LocalFiles.
From S2P Require Import Interaction.
From S2P Require Import Remote.
From S2P Require Import Leases.
From S2P Require Import Publication.
From S2P Require Import Repository.

(** ** The steps of the program *)

Section recovery.
Context `{Blake3, UlidCrate, Base64, Ed25519,
  FromJson V2RecordEnvelope, ToJson SegmentManifestBody, ToJson SignedSegmentManifest,
  FromJson SignedSegmentManifest, ToJson GenesisBody, ToJson SignedGenesis,
  FromJson SignedGenesis, ToJson CausalFrontier, FromJson CausalFrontier,
  ToJson CoordinationLeaseBody, FromValue SignedCoordinationLease}.
Context `{!Blake3Laws, !Ed25519Laws}.
Context (blob_id : bytes → string) (git_path : string → string).
Context (display : V2StoreError → string) (root : string) (fuel : nat).

(** Blobs are named by Git's object names. *)
Context (blob_named : ∀ b, is_object_name (blob_id b) = true).

#[local] Abbreviation reading := (reading blob_id git_path).
#[local] Abbreviation safe := (safe blob_id git_path).

Lemma reading_checked_bind {A B} (m : result V2StoreError A) (k : A → publication B) w Q :
  (∀ a, m = Ok a → reading (k a) w Q) → reading (checked m ≫= k) w Q.
Proof. intros Hk. apply (reading_bind _ _ _ _ _ (λ a, m = Ok a)); [by apply reading_checked | done]. Qed.

Lemma reading_bail_bind {B} (c : bool) e (k : () → publication B) w Q :
  (c = false → reading (k ()) w Q) → reading (checked (bail_if c e) ≫= k) w Q.
Proof. intros Hk. apply reading_checked_bind. by intros [] Hc%bail_if_Ok; apply Hk. Qed.

(** A process that changes nothing. *)
Definition reads (c : LocalGit) : bool :=
  match c with UpdateIndex _ _ _ | CommitStaged _ => false | _ => true end.

Lemma reading_process io operation c w :
  reads c = true →
  reading (run_process root io operation c) w (λ o, prints blob_id git_path w c (stdout o)).
Proof.
  intros Hc. unfold run_process.
  apply (reading_bind _ _ _ _ _ (λ out, ∀ o, out = Ok o → success o = true →
    prints blob_id git_path w c (stdout o))).
  { apply reading_query. intros r w' He. by destruct c. }
  intros out Hout. apply reading_checked_bind. intros o Ho%map_err_Ok.
  apply reading_bail_bind. intros Hs%negb_false_iff. apply reading_ret. by apply Hout.
Qed.

Lemma reading_text operation c w :
  reads c = true →
  reading (git_text root operation c) w (λ s, ∃ out, prints blob_id git_path w c out ∧ s = trim out).
Proof.
  intros Hc. eapply reading_bind; [by apply reading_process |].
  intros o Ho. apply reading_ret. by exists (stdout o).
Qed.

Lemma reading_listing operation c w :
  reads c = true → reading (git_listing root operation c) w (prints blob_id git_path w c).
Proof.
  intros Hc. eapply reading_bind; [by apply reading_process |]. intros o Ho.
  apply reading_checked_bind. intros _ _. by apply reading_ret.
Qed.

Lemma reading_blob revision path operation w :
  reading (git_blob root revision path operation) w (λ b, ∃ commit mode,
    local_commits w !! (if bool_decide (revision = "HEAD") then head_id w else revision)
      = Some commit ∧ lc_tree commit !! path = Some (mode, blob_id b)).
Proof.
  eapply reading_bind; [by apply reading_process |]. intros o (commit & mode & b & Hc & Hb & Ho).
  apply reading_ret. exists commit, mode. rewrite Ho, as_of_bytes. done.
Qed.

Lemma reading_canonical path w :
  reading (read_canonical path) w
    (λ b, ∀ content n, work w !! path = Some (LocalFile content n) → b = content).
Proof.
  eapply reading_bind.
  - apply (reading_query blob_id git_path (ReadCanonical path) w (λ out : result string bytes,
      ∀ b content n, out = Ok b → work w !! path = Some (LocalFile content n) → b = content)).
    by intros r w' [-> Hr].
  - intros out Hout. apply reading_checked. intros b Hb%map_err_Ok content n Hf. by eapply Hout.
Qed.

Lemma reading_origin w : reading local_origin w (λ origin, is_origin_id origin = true).
Proof.
  eapply reading_bind; [by apply (reading_query blob_id git_path ReadSelector w (λ _, True)); intros r w' -> |].
  intros active _. apply reading_checked. intros origin Ho.
  apply bind_Ok in Ho as (b & _ & Ho). unfold parse_active_client in Ho.
  apply bind_Ok in Ho as ([] & _ & Ho). apply bind_Ok in Ho as (o & _ & Ho).
  apply bind_Ok in Ho as ([] & Hv & Ho). apply bind_Ok in Ho as ([] & _ & [= <-]).
  by apply validate_origin_id_Ok in Hv.
Qed.

(** A file of the working tree, with one name. *)
Definition is_working (w : Repository) (path : string) : Prop :=
  ∃ content, work w !! path = Some (LocalFile content 1).

Lemma reading_regular_steps w parts path :
  parts ≠ [] → ¬ outside (foldl down path parts) →
  reading (regular_steps path (Some <$> parts)) w (λ _, is_working w (foldl down path parts)).
Proof.
  revert path. induction parts as [|part parts IH]; intros path Hne Hin; [done |].
  cbn [fmap list_fmap regular_steps foldl]. fold (down path part).
  apply (reading_bind _ _ _ _ _ (inspected git_path w (down path part))).
  { apply reading_query. by intros r w' [-> Hr]. }
  intros status Hstatus. apply reading_checked_bind. intros m Hm.
  destruct status; [done.. |]. injection Hm as ->. cbn [inspected] in Hstatus.
  apply reading_bail_bind. intros Hk%negb_false_iff%bool_decide_eq_true_1.
  apply reading_bail_bind. intros Hl.
  destruct parts as [|q parts]; [|by apply IH]. cbn [fmap list_fmap foldl] in *.
  apply reading_ret. rewrite bool_decide_true in Hl by done. cbn [andb] in Hl.
  apply orb_false_iff in Hl as [Hl%negb_false_iff%N.eqb_eq _].
  destruct (work w !! down path part) as [[content n| |]|] eqn:Hw; [| congruence | congruence | done].
  destruct Hstatus as [_ Hn]. exists content. by rewrite Hw, <- Hn, Hl.
Qed.

Lemma reading_regular path w :
  tracked_path path = true → reading (regular_file path) w (λ _, is_working w path).
Proof.
  intros Hpath. unfold regular_file. rewrite components_tracked by done.
  assert (foldl down "" (split_char "/" path) = path) as Hwhole.
  { apply down_whole. intros Hhead. apply tracked_parts in Hpath as [Hparts _].
    destruct (split_char "/" path); [done |]. injection Hhead as ->.
    apply Forall_cons in Hparts as [Hp _]. set_solver. }
  pose proof (reading_regular_steps w (split_char "/" path) "") as Hsteps. rewrite Hwhole in Hsteps.
  apply Hsteps; [apply split_char_not_nil | by apply tracked_inside].
Qed.

Lemma reading_in_progress w :
  reading (refuse_in_progress_git_operation root) w
    (λ _, ∀ name, name ∈ operation_states → name ∉ state_files w).
Proof.
  apply reading_each_unit. intros name _. unfold refuse_operation.
  eapply reading_bind; [by apply reading_text |]. intros location (out & Hout & ->).
  cbn [prints] in Hout. rewrite Hout.
  apply (reading_bind _ _ _ _ _ (inspected git_path w (git_path name))).
  { apply reading_query. by intros r w' [-> Hr]. }
  intros status Hstatus. apply reading_checked. intros [] Hok.
  destruct status; [|done..]. destruct Hstatus as [_ Hno]. intros Hin. by apply (Hno name Hin).
Qed.

(** ** What was read *)

Record advancing (w : Repository) (committed : bytes) (a : Advance) : Prop := {
  av_parent : adv_parent a = head_id w;
  av_paths : ∀ path, path ∈ adv_paths a → tracked_path path = true;
  av_frontier : frontier_path (adv_new_hash a) = Ok (adv_frontier a);
  av_successor : ∃ content successor, work w !! adv_frontier a = Some (LocalFile content 1) ∧
    from_json content = Ok successor ∧
    previous_frontiers successor = [trim (of_bytes committed)];
  av_quiet : ∀ name, name ∈ operation_states → name ∉ state_files w;
}.

Lemma adv_paths_elem a path :
  path ∈ adv_paths a ↔ path = HEAD_PATH ∨ path = adv_segment a ∨ path = adv_manifest a ∨
    path = adv_frontier a.
Proof. unfold adv_paths. rewrite merge_sort_Permutation. set_solver. Qed.

Lemma is_expected_true a path : is_expected a path = true ↔ path ∈ adv_paths a.
Proof. unfold is_expected, adv_paths. by rewrite bool_decide_eq_true, merge_sort_Permutation. Qed.

Lemma reading_read_advance w committed :
  is_object_name (head_id w) = true →
  reading (read_advance root committed) w (advancing w committed).
Proof.
  intros Hhead. unfold read_advance.
  eapply reading_bind; [apply reading_in_progress |]. intros [] Hquiet.
  eapply reading_bind; [by apply reading_text |]. intros parent (out & -> & ->). cbn beta.
  rewrite trim_object_name by done.
  apply reading_checked_bind. intros old (_ & _ & [= <-])%bind_Ok.
  eapply reading_bind; [by apply reading_regular |]. intros [] _.
  eapply reading_bind; [apply reading_canonical |]. intros head _.
  apply reading_checked_bind. intros new_hash _.
  apply reading_checked_bind. intros new_frontier Hfrontier.
  pose proof (tracked_frontier _ _ Hfrontier) as Htracked.
  eapply reading_bind; [by apply reading_regular |]. intros [] (content & Hcontent).
  eapply reading_bind; [apply reading_canonical |]. intros b Hb. rewrite (Hb _ _ Hcontent).
  apply reading_checked_bind. intros successor Hsuccessor%parse_json_Ok.
  apply reading_bail_bind. intros Hprevious%negb_false_iff%bool_decide_eq_true_1.
  apply reading_checked_bind. intros old_frontier _.
  eapply reading_bind; [apply reading_blob |]. intros base_bytes _.
  apply reading_checked_bind. intros base _.
  eapply reading_bind; [apply reading_origin |]. intros origin Horigin. cbn beta in Horigin.
  apply reading_checked. intros a Ha. unfold check_advance in Ha.
  apply bind_Ok in Ha as (n & _ & Ha). apply bind_Ok in Ha as (tail & _ & Ha).
  apply bind_Ok in Ha as (_ & _ & [= <-]). split; [done | | done | | done].
  - intros path. rewrite adv_paths_elem. cbn [adv_segment adv_manifest adv_frontier].
    intros [-> | [-> | [-> | ->]]]; auto using tracked_segment, tracked_manifest.
  - by exists content, successor.
Qed.

(** ** What was inspected *)

(** An entry that a working file, with one name, has. *)
Definition working_entry (w : Repository) (path : string) (entry : string * string) : Prop :=
  ∃ content, work w !! path = Some (LocalFile content 1) ∧ entry = ("100644", blob_id content).

Record inspection (w : Repository) (a : Advance) (tree working : Entries) : Prop := {
  in_commit : ∃ commit, local_commits w !! adv_parent a = Some commit ∧ lc_tree commit = tree;
  in_working : ∀ path entry, working !! path = Some entry → working_entry w path entry;
  in_expected : ∀ path, path ∈ adv_paths a → is_Some (working !! path);
  in_kept : ∀ path, path ∉ adv_paths a → working !! path = tree !! path;
  in_new : ∀ path, path ∈ adv_paths a → path ≠ HEAD_PATH → tree !! path = None;
  in_unmerged : Forall (λ e, ie_stage e = "0") (index w);
  in_index : ∀ path, path ∉ adv_paths a → index_tree (index w) !! path = tree !! path;
  in_untracked : ∀ path node, work w !! path = Some node → is_directory node = false →
    path ∈ ie_path <$> index w ∨ path ∈ adv_paths a;
}.

(** Hashing the files that are to be equal to the tree. *)
Definition hashed (w : Repository) (a : Advance) (tree : Entries) (visited : list string)
    (working : Entries) : Prop :=
  (∀ path entry, working !! path = Some entry → path ∈ visited ∧ working_entry w path entry ∧
     (path ∉ adv_paths a → tree !! path = Some entry)) ∧
  (∀ path, path ∈ visited → is_Some (working !! path)).

Lemma reading_hash w a tree visited working path :
  tracked_path path = true → hashed w a tree visited working →
  reading (hash_working root a tree working path) w (hashed w a tree (visited ++ [path])).
Proof.
  intros Htracked [Hwork Hvisited]. unfold hash_working.
  destruct (working !! path) as [old|] eqn:Hold; cbn [is_some_b].
  { apply reading_ret. split.
    - intros p entry Hp. destruct (Hwork p entry Hp) as (Hin & Hrest). split; [set_solver | done].
    - intros p [Hp | ->%list_elem_of_singleton]%elem_of_app; [by apply Hvisited | by exists old]. }
  eapply reading_bind; [by apply reading_regular |]. intros [] (content & Hcontent).
  eapply reading_bind; [by apply reading_text |]. intros hash (out & Hout & ->).
  cbn [prints] in Hout. rewrite (Hout _ _ Hcontent), trim_object_name by apply blob_named.
  apply reading_bail_bind. intros Hsame. apply reading_ret.
  assert (path ∉ adv_paths a → tree !! path = Some ("100644", blob_id content)) as Htree.
  { intros Hp. rewrite <- is_expected_true, not_true_iff_false in Hp. rewrite Hp in Hsame.
    cbn [negb andb] in Hsame. by apply negb_false_iff, bool_decide_eq_true_1 in Hsame. }
  split.
  - intros p entry [[<- <-] | [Hne Hp]]%lookup_insert_Some.
    + split; [set_solver |]. split; [by exists content | done].
    + destruct (Hwork p entry Hp) as (Hin & Hrest). split; [set_solver | done].
  - intros p Hp. destruct (decide (path = p)) as [-> | Hne]; [rewrite lookup_insert_eq; by eexists |].
    rewrite lookup_insert_ne by done. apply Hvisited. set_solver.
Qed.

Lemma elem_of_btree_entries entries path (entry : string * string) :
  entries !! path = Some entry → (path, entry) ∈ btree_entries entries.
Proof.
  intros Hp. unfold btree_entries. apply list_elem_of_omap. exists path. split.
  - apply elem_of_btree_keys. by exists entry.
  - by rewrite Hp.
Qed.

Lemma reading_tree {B} commit (k : Entries → publication B) w Q :
  (∀ c, local_commits w !! commit = Some c →
    (∀ path, is_Some (lc_tree c !! path) → tracked_path path = true) → reading (k (lc_tree c)) w Q) →
  reading (text ← git_listing root "inspect committed publication tree" (LsTree commit);
           tree ← checked (parse_entries text false); k tree) w Q.
Proof.
  intros Hk. eapply reading_bind; [by apply reading_listing |].
  intros text (c & l & Hc & Hl & Htidy & ->).
  apply reading_checked_bind. intros tree Htree.
  apply (parse_tree_text l (lc_tree c)) in Htree as ->; [|done..]. apply (Hk c Hc). intros path [entry Hp%elem_of_map_to_list]. rewrite <- Hl in Hp.
  rewrite forallb_forall in Htidy. specialize (Htidy _ (proj1 (list_elem_of_In _ _) Hp)).
  unfold tidy_tree in Htidy. by apply andb_true_iff in Htidy as [_ ?].
Qed.

Lemma reading_index {B} (k : Entries → publication B) w Q :
  (Forall (λ e, ie_stage e = "0") (index w) → reading (k (index_tree (index w))) w Q) →
  reading (text ← git_listing root "inspect publication index" LsStage;
           entries ← checked (parse_entries text true); k entries) w Q.
Proof.
  intros Hk. eapply reading_bind; [by apply reading_listing |]. intros text [Htidy ->].
  apply reading_checked_bind. by intros entries [Hs ->]%parse_index_text; [apply Hk |].
Qed.

Lemma reading_history w a tree :
  reading (each (λ _, check_history root tree) () (adv_paths a)) w
    (λ _, ∀ path, path ∈ adv_paths a → path ≠ HEAD_PATH → tree !! path = None).
Proof.
  apply reading_each_unit. intros path _. unfold check_history. case_bool_decide as Hp.
  { by apply reading_ret. }
  apply reading_bail_bind. intros Hnone. apply (reading_bind _ _ _ _ _ (λ _, True)).
  { eapply reading_mono; [|by apply reading_text]. done. }
  intros history _. apply reading_checked. intros [] _ _. by destruct (tree !! path).
Qed.

(** The checks on the index. *)
Lemma index_checked a tree working entries path :
  for_each (check_index_entry a tree working) (btree_entries entries) = Ok () →
  existsb (λ path, negb (is_some_b (entries !! path))) (btree_keys tree) = false →
  path ∉ adv_paths a → entries !! path = tree !! path.
Proof.
  rewrite for_each_Ok. intros Hall Hkeys Hp. rewrite <- is_expected_true, not_true_iff_false in Hp.
  destruct (entries !! path) as [entry|] eqn:Hentry.
  - specialize (Hall _ (elem_of_btree_entries _ _ _ Hentry)). unfold check_index_entry in Hall.
    rewrite Hp in Hall. by apply bail_if_Ok, negb_false_iff, bool_decide_eq_true_1 in Hall.
  - destruct (tree !! path) as [x|] eqn:Hx; [|done]. exfalso.
    apply not_true_iff_false in Hkeys. apply Hkeys, existsb_exists. exists path.
    rewrite <- list_elem_of_In, elem_of_btree_keys, Hentry. by split; [exists x |].
Qed.

(** The files that are not in the index. *)
Lemma others_checked w a out :
  prints blob_id git_path w LsOthers out → check_others a out = Ok () →
  ∀ path node, work w !! path = Some node → is_directory node = false →
    path ∈ ie_path <$> index w ∨ path ∈ adv_paths a.
Proof.
  intros (l & Hl & Htracked & ->). unfold check_others.
  rewrite nul_entries_text by by apply tracked_clean. rewrite for_each_Ok. intros Hall path node Hp Hnode.
  destruct (decide (path ∈ ie_path <$> index w)) as [Hin | Hnot]; [by left | right].
  apply is_expected_true. assert (path ∈ l) as Hin by (apply Hl; split; [by exists node | done]).
  by specialize (Hall path Hin) as ?%bail_if_Ok%negb_false_iff.
Qed.

Lemma reading_inspect w a :
  (∀ path, path ∈ adv_paths a → tracked_path path = true) →
  reading (inspect_repository root a) w (λ working, ∃ tree, inspection w a tree working).
Proof.
  intros Hpaths. unfold inspect_repository.
  apply reading_tree. intros c Hc Htracked. apply reading_index. intros Hstages.
  apply (reading_bind _ _ _ _ _ (λ _, True)); [by eapply reading_mono; [|by apply reading_listing] |].
  intros flags _. apply reading_checked_bind. intros _ _.
  eapply reading_bind.
  { apply (reading_each _ _ _ (hashed w a (lc_tree c))); [by split; [|set_solver] |].
    intros pre path working Hin. apply reading_hash.
    apply elem_of_app in Hin as [Hin%elem_of_btree_keys | Hin]; auto. }
  intros working [Hwork Hall]. eapply reading_bind; [apply reading_history |]. intros [] Hnew.
  apply reading_checked_bind. intros [] Hi.
  apply reading_bail_bind. intros Hkeys. eapply reading_bind; [by apply reading_listing |].
  intros out Hout. apply reading_checked_bind. intros [] Ho. apply reading_ret. exists (lc_tree c). split; try done.
  - by exists c.
  - intros path entry Hp. by apply Hwork.
  - intros path Hp. apply Hall. set_solver.
  - intros path Hp. destruct (working !! path) as [entry|] eqn:Hentry.
    + symmetry. by apply Hwork.
    + destruct (lc_tree c !! path) as [x|] eqn:Hx; [|done]. exfalso.
      assert (is_Some (working !! path)) as [y Hy]; [|congruence].
      apply Hall, elem_of_app. left. apply elem_of_btree_keys. by exists x.
  - intros path. by apply (index_checked a _ working).
  - by apply others_checked with out.
Qed.

(** ** What is verified *)

Lemma reading_verify w a :
  reading (verify_advance fuel a) w (λ _, ∃ v, verify_compact fuel (local_tree (work w)) = Ok v ∧
    accepted_frontier_hash v = adv_new_hash a).
Proof.
  unfold verify_advance. apply (reading_bind _ _ _ _ _ (λ tree, tree = local_tree (work w))).
  { by apply (reading_query blob_id git_path ReadCanonicalTree). }
  intros tree ->. eapply reading_bind; [by apply reading_pure; intros v Hv; exact Hv |].
  intros v Hv. cbn beta in Hv. apply reading_bail_bind. intros Hhash%negb_false_iff%bool_decide_eq_true_1.
  eapply reading_bind; [apply reading_canonical |]. intros b _.
  apply reading_checked_bind. intros signed _. apply reading_checked. intros [] _. by exists v.
Qed.

(** The frontier that is verified is the successor that was read. *)
Lemma verified_successor w committed a v :
  advancing w committed a → verify_compact fuel (local_tree (work w)) = Ok v →
  accepted_frontier_hash v = adv_new_hash a →
  previous_frontiers (accepted_frontier v) = [trim (of_bytes committed)].
Proof.
  intros [_ _ Hpath (content & successor & Hfile & Hjson & Hprev) _] Hv Hhash.
  destruct (verify_compact_side fuel _ _ Hv) as (_ & _ & _ & path & b & Hp & Hread & Hb).
  rewrite Hhash, Hpath in Hp. injection Hp as <-.
  apply tree_read_local in Hread as [n Hn]. rewrite Hfile in Hn. injection Hn as <- _.
  rewrite Hjson in Hb. injection Hb as <-. exact Hprev.
Qed.

(** ** What is published *)

(** The files of a working tree, as a commit has them. *)
Definition files_tree (t : LocalTree) : Entries := (λ b, ("100644", blob_id b)) <$> disk_of t.

Record published (w w' : Repository) : Prop := {
  pub_verified : ∃ v committed mode old, verify_compact fuel (local_tree (work w)) = Ok v ∧
    local_commits w !! head_id w = Some old ∧
    lc_tree old !! HEAD_PATH = Some (mode, blob_id committed) ∧
    previous_frontiers (accepted_frontier v) = [trim (of_bytes committed)];
  pub_commit : local_commits w !! head_id w' = None ∧
    local_commits w' = <[head_id w' := {| lc_tree := files_tree (work w);
                                          lc_parents := [head_id w] |}]> (local_commits w);
  pub_only : ∃ old segment manifest frontier, local_commits w !! head_id w = Some old ∧
    (∀ path, path ∈ [segment; manifest; frontier] → path ≠ HEAD_PATH → lc_tree old !! path = None) ∧
    ∀ path, path ∉ [HEAD_PATH; segment; manifest; frontier] →
      files_tree (work w) !! path = lc_tree old !! path;
}.

(** What holds whenever the program ends, and if it ends well. *)
Definition settles (w : Repository) (r : result (Halt V2StoreError) string) (w' : Repository) : Prop :=
  work w' = work w ∧
  (∀ path, index_tree (index w') !! path = index_tree (index w) !! path ∨
     index_tree (index w') !! path = files_tree (work w) !! path) ∧
  ((head_id w' = head_id w ∧ local_commits w' = local_commits w) ∨ published w w') ∧
  (∀ c, r = Ok c → published w w' ∧ head_id w' = c).

Lemma working_files w a tree working :
  inspection w a tree working → working = files_tree (work w).
Proof.
  intros Hi. apply map_eq. intros path. unfold files_tree. rewrite lookup_fmap.
  destruct (working !! path) as [entry|] eqn:Hentry.
  - apply (in_working _ _ _ _ Hi) in Hentry as (content & Hfile & ->).
    by rewrite (proj2 (lookup_disk_of _ _ content)) by by exists 1%N.
  - destruct (disk_of (work w) !! path) as [content|] eqn:Hfile; [exfalso | done].
    apply lookup_disk_of in Hfile as [n Hfile].
    assert (path ∉ adv_paths a) as Hp.
    { intros Hp. apply (in_expected _ _ _ _ Hi) in Hp as [? ?]. congruence. }
    destruct (in_untracked _ _ _ _ Hi path _ Hfile eq_refl) as [[x Hx]%index_tree_of | ?]; [|done].
    rewrite (in_index _ _ _ _ Hi), <- (in_kept _ _ _ _ Hi) in Hx by done. congruence.
Qed.

(** ** The commit *)

Lemma safe_read {A B} (m : publication A) (k : A → publication B) w P Q :
  reading m w P → (∀ e, Q (Err e) w) → (∀ a, P a → safe (k a) Q w) → safe (m ≫= k) Q w.
Proof.
  intros Hm He Hk. apply safe_mbind. revert Hm. apply safe_mono.
  intros [a | e] w' [-> HP]; [by apply Hk, HP | apply He].
Qed.

Lemma safe_checked_bind {A B} (m : result V2StoreError A) (k : A → publication B) w Q :
  (∀ e, Q (Err e) w) → (∀ a, m = Ok a → safe (k a) Q w) → safe (checked m ≫= k) Q w.
Proof. intros He Hk. by apply (safe_read _ _ _ (λ a, m = Ok a)); [apply reading_checked | ..]. Qed.

(** A process that may change the repository. *)
Lemma safe_text operation c w Q :
  (∀ out w', repository_exec blob_id git_path w (RunGit c) out w' → (∀ e, Q (Err e) w') ∧
     ∀ o, out = Ok o → success o = true → Q (Ok (trim (stdout o))) w') →
  safe (git_text root operation c) Q w.
Proof.
  intros Hc. cbn -[repository_exec]. intros out w' Hw. destruct (Hc out w' Hw) as [He Ho].
  destruct out as [o | e]; [|apply He]. cbn. destruct (success o) eqn:Hs; [|apply He].
  by apply Ho.
Qed.

Lemma safe_each {A} (f : A → publication ()) (I : list A → Repository → Prop)
    (E : Repository → Prop) l w :
  (∀ pre a w, a ∈ l → I pre w →
     safe (f a) (λ r w', match r with Ok _ => I (pre ++ [a]) w' | Err _ => E w' end) w) →
  I [] w →
  safe (each (λ _, f) () l) (λ r w', match r with Ok _ => I l w' | Err _ => E w' end) w.
Proof.
  intros Hf Hw. enough (∀ rest pre w, I pre w → (∀ a, a ∈ rest → a ∈ l) →
    safe (each (λ _, f) () rest)
      (λ r w', match r with Ok _ => I (pre ++ rest) w' | Err _ => E w' end) w) as Hall.
  { by apply (Hall l []). }
  induction rest as [|a rest IH]; intros pre w1 Hw1 Hin; cbn [each].
  - by rewrite app_nil_r.
  - apply safe_mbind. eapply safe_mono; [|apply Hf; [apply Hin; by left | exact Hw1]].
    intros [[] | e] w2 Hw2; [|done]. rewrite cons_middle, app_assoc. apply IH; [done |].
    intros x Hx. apply Hin. by right.
Qed.

(** The index while files are staged. *)
Definition staged (w : Repository) (working : Entries) (visited : list string) (w' : Repository) : Prop :=
  ∃ idx, w' = set_index idx w ∧ Forall (λ e, ie_stage e = "0") idx ∧
    (∀ path, index_tree idx !! path = index_tree (index w) !! path ∨
       index_tree idx !! path = working !! path) ∧
    ∀ path, path ∈ visited → index_tree idx !! path = working !! path.

Lemma staged_none w working :
  Forall (λ e, ie_stage e = "0") (index w) → staged w working [] w.
Proof.
  intros Hs. exists (index w). split_and!; [by destruct w | done | by left |]. intros path ?%elem_of_nil. done.
Qed.

Lemma staged_one w working pre path hash mode idx w' :
  staged w working pre w' → working !! path = Some (mode, hash) → idx = index w' →
  staged w working (pre ++ [path]) (set_index (stage_entry mode hash path idx) w').
Proof.
  intros (idx' & -> & Hs & Hi & Hpre) Hp ->. cbn [index set_index].
  exists (stage_entry mode hash path idx'). split_and!; [done | | |].
  - apply Forall_app. split; [|by constructor].
    rewrite Forall_forall in Hs |- *. intros e [_ He]%list_elem_of_filter. by apply Hs.
  - intros q. rewrite index_tree_stage. destruct (decide (path = q)) as [<- | Hne].
    + rewrite lookup_insert_eq. right. by rewrite Hp.
    + rewrite lookup_insert_ne by done. apply Hi.
  - intros q Hq. rewrite index_tree_stage. destruct (decide (path = q)) as [<- | Hne].
    + by rewrite lookup_insert_eq.
    + rewrite lookup_insert_ne by done. apply Hpre. set_solver.
Qed.

Lemma safe_stage w working pre path w1 :
  (∀ p entry, working !! p = Some entry → working_entry w p entry) → staged w working pre w1 →
  safe (stage root working path)
    (λ r w', match r with Ok _ => staged w working (pre ++ [path]) w' | Err _ => ∃ visited, staged w working visited w' end) w1.
Proof.
  intros Hwork Hw1. unfold stage, working_hash.
  apply (safe_read _ _ _ (λ hash, working !! path = Some ("100644", hash))).
  - apply reading_pure. intros hash Hh%ok_or_Ok. destruct (working !! path) as [[mode h]|] eqn:Hp; [|done].
    injection Hh as <-. by destruct (Hwork _ _ Hp) as (c & _ & [= -> ->]).
  - intros e. by exists pre.
  - intros hash Hhash. apply safe_mbind, safe_text. intros out w2 Hstep. split.
    + intros e. destruct Hstep as [[-> _] | ->]; [by exists pre |].
      eexists. by apply staged_one.
    + intros o -> Hok. destruct Hstep as [[_ Hno] | ->]; [by destruct Hno |]. by apply staged_one.
Qed.

(** What was known before the files were staged. *)
Record ready (w : Repository) (a : Advance) (tree working : Entries) : Prop := {
  rd_head : is_object_name (head_id w) = true;
  rd_alone : merge_heads w = [];
  rd_inspected : inspection w a tree working;
  rd_verified : ∃ v committed mode old, verify_compact fuel (local_tree (work w)) = Ok v ∧
    local_commits w !! head_id w = Some old ∧
    lc_tree old !! HEAD_PATH = Some (mode, blob_id committed) ∧
    previous_frontiers (accepted_frontier v) = [trim (of_bytes committed)];
  rd_parent : adv_parent a = head_id w;
}.

Lemma staged_settles w a tree working visited w1 e :
  ready w a tree working → staged w working visited w1 → settles w (Err e) w1.
Proof.
  intros Hr (idx & -> & _ & Hi & _). split_and!; [done | | by left | done].
  intros path. rewrite <- (working_files w a tree working) by apply Hr. apply Hi.
Qed.

Lemma staged_all w a tree working w1 :
  ready w a tree working → staged w working (adv_paths a) w1 →
  index_tree (index w1) = files_tree (work w).
Proof.
  intros Hr (idx & -> & _ & Hi & Hpre). pose proof (rd_inspected _ _ _ _ Hr) as Hin.
  rewrite <- (working_files w a tree working) by done. apply map_eq. intros path.
  destruct (decide (path ∈ adv_paths a)) as [Hp | Hp]; [by apply Hpre |].
  destruct (Hi path) as [Hq | Hq]; [|done]. cbn [index set_index]. rewrite Hq.
  by rewrite (in_index _ _ _ _ Hin), (in_kept _ _ _ _ Hin).
Qed.

Lemma commit_published w a tree working w1 w2 :
  ready w a tree working → staged w working (adv_paths a) w1 → commits_index w1 w2 →
  published w w2 ∧ is_object_name (head_id w2) = true ∧ work w2 = work w ∧ index w2 = index w1.
Proof.
  intros Hr Hst (id & Hid & _ & Hnew & Hhead & Hcommits & Hwork & Hindex).
  pose proof (staged_all w a tree working w1 Hr Hst) as Htree.
  destruct Hst as (idx & -> & _). cbn [local_commits set_index head_id merge_heads work] in *.
  pose proof (rd_inspected _ _ _ _ Hr) as Hin. destruct (in_commit _ _ _ _ Hin) as (old & Hold & Heq).
  rewrite (rd_parent _ _ _ _ Hr) in Hold. subst id. split_and!; [|done..]. split.
  - apply Hr.
  - split; [done |]. by rewrite Hcommits, Htree, (rd_alone _ _ _ _ Hr).
  - exists old, (adv_segment a), (adv_manifest a), (adv_frontier a). split_and!; [done | |].
    + intros path Hp Hhp. rewrite Heq. apply (in_new _ _ _ _ Hin); [|done].
      rewrite adv_paths_elem. set_solver.
    + intros path Hp. rewrite Heq, <- (working_files w a tree working) by done.
      apply (in_kept _ _ _ _ Hin). rewrite adv_paths_elem. set_solver.
Qed.

Lemma safe_commit w a tree working w1 kind :
  ready w a tree working → staged w working (adv_paths a) w1 →
  safe (commit_staged_canonical_tree root kind) (settles w) w1.
Proof.
  intros Hr Hst. unfold commit_staged_canonical_tree.
  set (c := CommitStaged _). apply safe_mbind. cbn -[repository_exec]. intros out w2 Hstep.
  pose proof (λ e, staged_settles w a tree working (adv_paths a) w1 e Hr Hst) as Hfail.
  destruct Hstep as [[-> Hno] | Hcommit].
  - destruct out as [o | e]; [|by apply Hfail]. cbn. destruct (success o) eqn:Hs; [|by apply Hfail].
    exfalso. apply Hno. exact Hs.
  - destruct (commit_published w a tree working w1 w2 Hr Hst Hcommit) as (Hpub & Hname & Hwork & Hindex).
    assert (∀ r, (∀ c, r = Ok c → head_id w2 = c) → settles w r w2) as Hdone.
    { intros r Hc. split_and!; [done | | by right |].
      - intros path. right. by rewrite Hindex, (staged_all w a tree working w1 Hr Hst).
      - intros c' Hc'. split; [done | by apply Hc]. }
    apply (safe_checked_bind (map_err (Io "run Git canonical commit" root) out)).
    { intros e. by apply Hdone. }
    intros o _. apply safe_checked_bind; [intros e; by apply Hdone |]. intros _ _.
    eapply safe_mono; [|by apply (reading_text "read canonical commit" RevParseHead)].
    intros r w3 [-> Hr']. apply Hdone. intros c' Hc'. destruct (Hr' c' Hc') as (text & -> & ->).
    by rewrite trim_object_name.
Qed.

Lemma safe_publish w a tree working :
  ready w a tree working → safe (publish root a working) (settles w) w.
Proof.
  intros Hr. pose proof (rd_inspected _ _ _ _ Hr) as Hin.
  assert (staged w working [] w) as Hnone by (apply staged_none, Hin).
  assert (∀ e, settles w (Err e) w) as Herr by (intros e; by eapply staged_settles).
  unfold publish. apply (safe_read _ _ _ (λ _, True)); [|exact Herr |].
  { eapply reading_mono; [|by apply reading_text]. done. }
  intros parent _. apply safe_checked_bind; [exact Herr |]. intros _ _.
  apply (safe_read _ _ _ (λ _, True)); [|exact Herr |].
  { eapply reading_mono; [|by apply reading_in_progress]. done. }
  intros _ _. apply (safe_read _ _ _ (λ _, True)); [|exact Herr |].
  { eapply reading_mono; [|apply (reading_each_unit _ _ _ (λ _, True))]; [done |]. intros path _.
    unfold write_blob. eapply reading_bind; [by apply reading_text |]. intros hash _.
    apply (reading_bind _ _ _ _ _ (λ _, True)); [by apply reading_pure |]. intros expected _.
    by apply reading_checked. }
  intros _ _. apply safe_mbind. eapply safe_mono; [|apply (safe_each _ (staged w working)
    (λ w', ∃ visited, staged w working visited w')); [|exact Hnone]].
  - intros [[] | e] w1 Hst; [by eapply safe_commit |]. destruct Hst as [visited Hst].
    by eapply staged_settles.
  - intros pre path w1 _ Hst. apply safe_stage; [apply Hin | done].
Qed.

(** ** The whole recovery *)

(** [HEAD] names a commit, and a merge that is not finished has its state file. *)
Record well_kept (w : Repository) : Prop := {
  wk_head : is_object_name (head_id w) = true;
  wk_merge : merge_heads w ≠ [] → "MERGE_HEAD" ∈ state_files w;
}.

Lemma safe_finish w committed :
  well_kept w → (∃ old mode, local_commits w !! head_id w = Some old ∧
    lc_tree old !! HEAD_PATH = Some (mode, blob_id committed)) →
  safe (finish_pending_publication root fuel committed) (settles w) w.
Proof.
  intros [Hhead Hmerge] (old & mode & Hold & Hcommitted). unfold finish_pending_publication.
  assert (∀ e, settles w (Err e) w) as Herr by (intros e; split_and!; [done | by left | by left | done]).
  eapply safe_read; [by apply reading_read_advance | exact Herr |]. intros a Ha.
  eapply safe_read; [apply reading_inspect, Ha | exact Herr |]. intros working [tree Hin].
  eapply safe_read; [apply reading_verify | exact Herr |]. intros [] (v & Hv & Hhash).
  apply (safe_publish w a tree). split; [done | | done | | apply Ha].
  - destruct (decide (merge_heads w = [])) as [Hm | Hm]; [done | exfalso].
    apply (av_quiet _ _ _ Ha "MERGE_HEAD"); [set_solver | by apply Hmerge].
  - exists v, committed, mode, old. split_and!; [done.. |]. by eapply verified_successor.
Qed.

Lemma safe_mapping {A} (f : V2StoreError → V2StoreError) (m : publication A) Q w :
  safe m (λ r w', match r with Ok a => Q (Ok a) w' | Err _ => ∀ e, Q (Err e) w' end) w →
  safe (mapping f m) Q w.
Proof.
  intros Hm. apply safe_bind. revert Hm. apply safe_mono. intros [a | [e | |]] w' Hw'; apply Hw'.
Qed.

(** C8: Publishing an interrupted append is safe, wherever it stops. A run of
    [recover_pending_publication] by itself, whatever Git and the file system answer within
    their documentation, leaves every working file as it is and stages nothing but working
    files. [HEAD] either stays at its commit, or it is at one new commit on top of it alone:
    no merge is concluded. That commit has exactly the working files, byte for byte; apart from
    the canonical [HEAD] it keeps every file of the old commit and adds at most three. The
    working files are a store that passes the full verification, and its accepted frontier is a
    direct successor of the one that was committed. If the run returns a commit, that is the new
    [HEAD]; if it returns that nothing was pending, it did nothing, and the canonical [HEAD] of
    the working tree is the committed one. *)
Theorem publication_recovery_safe w r w' :
  well_kept w →
  runs (H := publication_interface) (repository_exec blob_id git_path) (λ _ _, False)
    (recover_pending_publication_locked display root fuel) w r w' →
  work w' = work w ∧
  (∀ path, index_tree (index w') !! path = index_tree (index w) !! path ∨
     index_tree (index w') !! path = files_tree (work w) !! path) ∧
  ((head_id w' = head_id w ∧ local_commits w' = local_commits w) ∨ published w w') ∧
  (∀ c, r = Ok (Some c) → published w w' ∧ head_id w' = c) ∧
  (r = Ok None → w' = w ∧ ∀ content n, work w !! HEAD_PATH = Some (LocalFile content n) →
     ∃ old mode, local_commits w !! head_id w = Some old ∧
       lc_tree old !! HEAD_PATH = Some (mode, blob_id content)).
Proof.
  intros Hw Hrun. pattern r, w'. match goal with |- ?P _ _ => set (Q := P) end.
  refine (safe_runs _ _ _ _ _ _ _ _ Hrun). clear Hrun r w'.
  assert (∀ e, Q (Err e) w) as Herr by (intros e; split_and!; [done | by left | by left | done | done]).
  unfold recover_pending_publication_locked.
  eapply safe_read; [apply reading_blob | exact Herr |].
  intros committed (old & mode & Hold & Hcommitted).
  eapply safe_read; [apply reading_canonical | exact Herr |]. intros working Hworking.
  destruct (bool_decide_reflect (committed = working)) as [Hsame | Hdiffer].
  - change (Q (Ok None) w). unfold Q. split_and!; [done | by left | by left | done |].
    intros _. split; [done |]. intros content n Hf.
    rewrite <- (Hworking content n Hf), <- Hsame. by exists old, mode.
  - apply safe_mbind, safe_mapping. eapply safe_mono; [|by apply safe_finish; [|exists old, mode]].
    intros r w' (Hwork & Hindex & Hend & Hok). destruct r as [c | e]; cbn.
    + change (Q (Ok (Some c)) w'). unfold Q. split_and!; [done.. | | done].
      intros c' [= <-]. by apply Hok.
    + intros e'. unfold Q. by split_and!.
Qed.
End recovery.
