(* ===== verification/System.v ===== *)
(** The clients of one remote together: any number of them acquire and release leases,
    synchronize and append under a lease, at the same time, started at any moment and
    interleaved call by call. The theorems of this file hold of every state such a system can
    reach. *)
From Stdlib Require Import ZArith NArith Lia Ascii.
From stdpp Require Import base decidable list gmap strings sorting.
From S2P Require Import Prelude.
From S2P Require Import Text.
From S2P Require Import External.
From S2P Require Import Ids.
From S2P Require Import Frontier.
From S2P Require Import Batch.
From S2P Require Import Record.
From S2P Require Import Genesis.
From S2P Require Import GitPolicy.
From S2P Require Import Store.
From S2P Require Import Segment.
From S2P Require Import Clients.
From S2P Require Import Coordination.
From S2P Require Import Archive.
From S2P Require Import Visit.
From S2P Require Import WorkTree.
From S2P Require Import Interaction.
From S2P Require Import Remote.
From S2P Require Import Leases.
From S2P Require Import Sync.

(** What a call of a client returned; of a synchronization also what it started from. *)
Inductive Outcome : Type :=
  | Acquired (r : result (Halt V2StoreError) V2CoordinationLease)
  | Released (lease : V2CoordinationLease) (r : result (Halt V2StoreError) ())
  | Synced (r : result (Halt V2StoreError) (Local * V2SyncResult))
  | Appended (r : result (Halt V2StoreError) Value).

Definition reports {A} (p : remote A) (outcome : result (Halt V2StoreError) A → Outcome)
    : prog Outcome :=
  prog_bind p (λ r, Ret (outcome r)).

(** A local append reads, and commits to its own clone; it moves no ref of the remote. *)
Inductive local_only `{GitTrees} {A} : prog A → Prop :=
  | local_ret a : local_only (Ret a)
  | local_call c k : read_only c → (∀ r, local_only (k r)) → local_only (Do c k)
  | local_commit tree parents message k :
      (∀ r, local_only (k r)) → local_only (Do (GitInput (CommitTree tree parents) message) k).

Section system.
Context `{Blake3, !Blake3Laws, UlidCrate, Base64, Ed25519, !Ed25519Laws, !SecretKeys,
  FromJson V2RecordEnvelope, ToJson SegmentManifestBody, ToJson SignedSegmentManifest,
  FromJson SignedSegmentManifest, ToJson GenesisBody, ToJson SignedGenesis,
  FromJson SignedGenesis, ToJson CausalFrontier, FromJson CausalFrontier,
  ToJson CoordinationLeaseBody, FromValue SignedCoordinationLease,
  ToJson SignedCoordinationLease, FromJson SignedCoordinationLease,
  !LineJson SignedCoordinationLease, ToValue SignedCoordinationLease, FromJson LocalClientKey,
  !PathResolution}.
Context {trees : GitTrees}.

(** The calls of the clients, each with its own paths and remote name. *)
Inductive client_call : prog Outcome → Prop :=
  | calls_acquire root fuel name duration :
      client_call (reports (acquire_archive_lease_with_duration root fuel name duration) Acquired)
  | calls_release root fuel lease :
      client_call (reports (release_archive_lease root fuel lease) (Released lease))
  | calls_sync root temp_dir fuel name :
      client_call (reports (sync_remote_observed root temp_dir fuel name) Synced)
  | calls_append root temp_dir fuel name context (append : Value → remote Value) :
      (∀ c, local_only (append c)) →
      client_call (reports (append_coordinated_batch root temp_dir fuel name context append)
                     Appended)
  | calls_append_jsonl root temp_dir fuel name context (append : Value → remote Value) :
      (∀ c, local_only (append c)) →
      client_call (reports (append_coordinated_jsonl_batch root temp_dir fuel name context append)
                     Appended).

(** Git, the clock and the file system: what they answer and do is a parameter; the code relies
    on the documented behaviour that [exec] states and on nothing else. *)
Context (git : World → ∀ c : RemoteCall, remote_answer c → World → Prop)
  (git_documented : ∀ w c r w', git w c r w' → exec w c r w').

(** A remote before its first lease. *)
Definition unleased (w : World) : Prop :=
  wf w ∧ linear w ∧ ∀ scope, log w (coordination_lease_ref scope) = [].

Definition step : relation (list (prog Outcome) * World) :=
  pool_step (H := remote_interface) git drift client_call.

(** The calls in progress and the shared state of a system that started without leases. *)
Definition reachable (ps : list (prog Outcome)) (w : World) : Prop :=
  ∃ w0, unleased w0 ∧ rtc step ([], w0) (ps, w).

(** What an outcome tells its client is true, from then on. *)
Definition truthful (o : Outcome) (w : World) : Prop :=
  match o with
  | Acquired (Ok lease) => granted_in w lease
  | Released lease (Ok ()) => released_in w lease
  | Synced (Ok (s, result)) => ∃ fuel, synced fuel w s result
  | _ => True
  end.

Lemma local_only_wp {A} (p : prog A) w :
  good w → local_only p → wp exec grows good p (λ _ _, True) w.
Proof.
  intros Hw Hp. revert w Hw.
  induction Hp as [a | c k Hc Hk IH | tree parents message k Hk IH]; intros w Hw; [done | |];
    intros w1 r w2 Hw1 He.
  - apply Hc in He as ->.
    split; [apply later_refl; [apply _ | by eapply later_good] | apply IH; by eapply later_good].
  - assert (later grows good w1 w2) as Hw2.
    { destruct He as [[-> _] | (id & Hid & _)].
      - apply later_refl; [apply _ | by eapply later_good].
      - split; [by eapply commits_grows | by eapply good_commits; [eapply later_good |]]. }
    split; [done | apply IH; by eapply later_good].
Qed.

Lemma reports_wp {A} (p : remote A) (Q : A → World → Prop) outcome w :
  good w → wpx exec grows good p Q w →
  (∀ r w', on_ok Q r w' → ∀ w'', later grows good w' w'' → truthful (outcome r) w'') →
  wp exec grows good (reports p outcome) truthful w.
Proof.
  intros Hw Hp HQ. apply (@wp_bind remote_interface World exec grows _ good); [|done].
  revert Hp. apply (@wp_conseq remote_interface). intros r w' Hr w'' Hw''. by eapply HQ.
Qed.

Lemma released_grows w w' lease : grows w w' → released_in w lease → released_in w' lease.
Proof.
  intros Hw (c & s & Hin & Hs & Hrest). exists c, s.
  split_and!; [by eapply grows_log | by eapply lease_at_grows | apply Hrest..].
Qed.

Lemma append_wp {A} (append : Value → remote A) c w :
  good w → (∀ c, local_only (append c)) →
  wpx exec grows good (append c) (λ _ _, True) w.
Proof.
  intros Hw Ha. pose proof (local_only_wp (append c) w Hw (Ha c)) as Hp. revert Hp.
  apply (@wp_conseq remote_interface). by intros [].
Qed.

Lemma client_call_wp p w : client_call p → good w → wp exec grows good p truthful w.
Proof.
  intros Hp Hw. destruct Hp.
  - apply (reports_wp _ _ _ w Hw (acquire_spec root fuel name duration w Hw)).
    intros [lease | e] w' Hl w'' Hw''; [|done]. exact (granted_grows w' w'' lease (proj1 Hw'') Hl).
  - apply (reports_wp _ _ _ w Hw (release_spec root fuel lease w Hw)).
    intros [[] | e] w' Hl w'' Hw''; [|done]. exact (released_grows w' w'' lease (proj1 Hw'') Hl).
  - apply (reports_wp _ _ _ w Hw (sync_observed_spec root temp_dir fuel name w Hw)).
    intros [[s result] | e] w' Hl w'' Hw''; [|done]. exists fuel. destruct Hl as [Hl _].
    exact (synced_grows fuel w' w'' s result (proj1 Hw'') Hl).
  - eapply (reports_wp _ (λ _ _, True)); [done | | by intros [v | e] w' _ w'' _].
    refine (append_coordinated_spec root temp_dir fuel name context append (λ _ _, True) w _ Hw _); [done |]. intros lease members w' Hw' _ _.
    by apply append_wp.
  - eapply (reports_wp _ (λ _ _, True)); [done | | by intros [v | e] w' _ w'' _].
    refine (append_under_lease_spec root temp_dir fuel name context append (λ _ _, True) w _ Hw _); [done |]. intros lease members w' Hw' _ _.
    by apply append_wp.
Qed.

Lemma reachable_good ps w :
  reachable ps w → good w ∧ ∀ o, Ret o ∈ ps → truthful o w.
Proof.
  intros (w0 & (Hwf & Hlin & Hnone) & Hsteps).
  apply (@pool_sound remote_interface World exec drift grows _ good Outcome client_call truthful
           w0 ps w).
  - apply good_drift.
  - apply client_call_wp.
  - split; [done | done |]. intros scope. by rewrite Hnone.
  - revert Hsteps. apply (rtc_subrel step). intros s s'.
    by apply (@pool_step_mono remote_interface).
Qed.

(** C2: coordination leases exclude each other: however the calls of any number of clients of
    one remote interleave, whatever answers get lost and whenever processes fail, two leases
    that were granted for one archive and are both in force at some time, by the clock the
    clients share, are the same lease, with one holder and one token. *)
Theorem leases_exclusive ps w lease1 lease2 t :
  reachable ps w →
  Ret (Acquired (Ok lease1)) ∈ ps → Ret (Acquired (Ok lease2)) ∈ ps →
  held_scope_id lease1 = held_scope_id lease2 →
  in_force w lease1 t → in_force w lease2 t →
  held_commit lease1 = held_commit lease2 ∧ held_token_id lease1 = held_token_id lease2 ∧
  held_by lease1 = held_by lease2.
Proof.
  intros [Hgood Htrue]%reachable_good Hg1%Htrue Hg2%Htrue Hscope. by apply exclusive.
Qed.

(** C3: synchronization loses no published history: in every reachable state, each commit a ref
    of the remote ever held is the current one or an ancestor of it, and every synchronization
    a client was told succeeded is still contained in the canonical ref, with the client's own
    commit and the one the remote had before. A merge moreover published a commit of the union
    of both: its tree is the tree of the client's commit with the files of the remote's commit
    added, it verifies, and its head is the frontier that unites the client's verified archive
    with the verified archive of the remote's commit, an accepted successor of both. *)
Theorem published_history_kept ps w :
  reachable ps w →
  (∀ r old new, old ∈ log w r → current w r = Some new → ancestor w old new) ∧
  ∀ s result, Ret (Synced (Ok (s, result))) ∈ ps →
    local_commit_before result = local_before s ∧
    (∃ head, current w CANONICAL_REF = Some head ∧
       ancestor w (accepted_commit result) head ∧
       ancestor w (local_commit_before result) head ∧
       ∀ c, remote_commit_before result = Some c → ancestor w c head) ∧
    ∃ fuel, (∃ tree, verify_compact fuel tree = Ok (local_verified s)) ∧
      (merged result = true → united fuel w s result).
Proof.
  intros [Hgood Htrue]%reachable_good.
  assert (∀ r old new, old ∈ log w r → current w r = Some new → ancestor w old new) as Hlog.
  { intros r old new Hold Hnew. by eapply linear_current; [apply Hgood |..]. }
  split; [done |]. intros s result [fuel [Hown Htree Hpub Hlocal Hremote Hunion]]%Htrue.
  split; [done |]. split; [|by exists fuel].
  destruct (current w CANONICAL_REF) as [head|] eqn:Hcur.
  - pose proof (Hlog _ _ _ Hpub Hcur) as Hhead. exists head.
    split_and!; [done | done | by etrans |].
    intros c Hc. destruct (Hremote c Hc) as [_ Hanc]. by etrans.
  - exfalso. unfold current in Hcur. destruct (log w CANONICAL_REF); [|done].
    by apply elem_of_nil in Hpub.
Qed.

(** C31: a release that was reported as done is in the chain of the archive's leases right after
    the lease it gave back: a signed lease in the state of a release, which names that lease as
    the one before it and has its token, with the time of the release, which is past. From that
    time on the lease is no longer in force. *)
Theorem released_not_in_force ps w lease t :
  reachable ps w → Ret (Released lease (Ok ())) ∈ ps →
  ∃ released s newer older,
    log w (coordination_lease_ref (held_scope_id lease))
    = newer ++ released :: held_commit lease :: older ∧
    lease_at w released = Some s ∧ state (lease_body s) = "released" ∧
    previous_lease_commit (lease_body s) = Some (held_commit lease) ∧
    token_id (lease_body s) = held_token_id lease ∧
    (not_after_utc_ms (lease_body s) <= clock w)%N ∧
    ((not_after_utc_ms (lease_body s) <= t)%N → ¬ in_force w lease t).
Proof.
  intros [Hgood Htrue]%reachable_good (c & s & Hin & Hs & Hstate & Hprev & Htoken)%Htrue.
  pose proof (good_leases _ Hgood (held_scope_id lease)) as Hlog.
  destruct (lease_log_position _ _ _ _ _ Hlog Hin Hs Hprev) as (newer & older & Heq).
  destruct (lease_log_entry _ _ _ Hlog Hin) as (s' & Hs' & Hst).
  rewrite Hs in Hs'. injection Hs' as <-. unfold stamp in Hst.
  rewrite decide_False in Hst by (rewrite Hstate; discriminate).
  exists c, s, newer, older. split_and!; try done.
  intros Ht [_ Hforce]. specialize (Hforce c s Hin Hs Hstate Hprev). lia.
Qed.
End system.
