(* ===== verification/SystemExamples.v ===== *)
(** A system of clients run on the archive of [WriterExamples.v]: a machine that answers every
    call without failing, and the runs of a synchronization, an acquisition and a release on a
    remote that starts empty. *)
From Stdlib Require Import ZArith NArith Lia Ascii.
From stdpp Require Import base decidable list gmap strings countable pretty relations.
From S2P Require Import Prelude.
From S2P Require Import Text.
From S2P Require Import External.
From S2P Require Import Ids.
From S2P Require Import Frontier.
From S2P Require Import Record.
From S2P Require Import Genesis.
From S2P Require Import Store.
From S2P Require Import Segment.
From S2P Require Import Clients.
From S2P Require Import Coordination.
From S2P Require Import Archive.
From S2P Require Import Codec.
From S2P Require Import Append.
From S2P Require Import WriterExamples.
From S2P Require Import Visit.
From S2P Require Import WorkTree.
From S2P Require Import Interaction.
From S2P Require Import Remote.
From S2P Require Import Leases.
From S2P Require Import Sync.
From S2P Require Import System.
From S2P Require Import StreamingExamples.

#[local] Existing Instance Genesis.Examples.two_keys.
#[local] Existing Instance Genesis.Examples.two_keys_laws.
#[local] Existing Instance sized_blake3.
#[local] Existing Instance sized_blake3_laws.
#[local] Existing Instance envelope_from_json.
#[local] Existing Instance body_to_json.
#[local] Existing Instance manifest_to_json.
#[local] Existing Instance manifest_from_json.
#[local] Existing Instance frontier_to_json.
#[local] Existing Instance frontier_from_json.
#[local] Existing Instance Archive.Examples.body_json.
#[local] Existing Instance Archive.Examples.genesis_json.
#[local] Existing Instance Archive.Examples.lease_from_value.
#[local] Existing Instance WriterExamples.genesis_from_json.

(** ** Serializers of leases *)

Definition lease_body_value (b : CoordinationLeaseBody) : Value :=
  Arr [num (lease_v b); Str (lease_archive_id b); Str (lease_genesis_hash b);
       Str (scope_kind b); Str (scope_id b); Str (token_id b); Str (holder_client_id b);
       Str (base_frontier_hash b); Str (state b); num (not_before_utc_ms b);
       num (not_after_utc_ms b); opt (previous_lease_commit b)].
Definition lease_value (s : SignedCoordinationLease) : Value :=
  Arr [lease_body_value (lease_body s); Str (lease_signature s)].
Definition value_lease (d : Value) : result string SignedCoordinationLease :=
  match d with
  | Arr [Arr [Num (PosInt v); Str a; Str g; Str k; Str i; Str t; Str h; Str f; Str s;
              Num (PosInt nb); Num (PosInt na); p]; Str sig] =>
      Ok (Build_SignedCoordinationLease
            (Build_CoordinationLeaseBody v a g k i t h f s nb na (get_opt p)) sig)
  | _ => Err "lease"
  end.

#[local] Instance lease_body_json : ToJson CoordinationLeaseBody := {
  to_json b := Ok (value_bytes (lease_body_value b)) }.
#[local] Instance lease_to_json : ToJson SignedCoordinationLease := {
  to_json s := Ok (value_bytes (lease_value s)) }.
#[local] Instance lease_from_json : FromJson SignedCoordinationLease := {
  from_json b := bytes_value b ≫= value_lease }.
#[local] Instance lease_to_value : ToValue SignedCoordinationLease := {
  to_value s := Ok (lease_value s) }.

#[local] Instance lease_line_json : LineJson SignedCoordinationLease.
Proof.
  split. intros s b [= <-]. split.
  - change (bytes_value (value_bytes (lease_value s)) ≫= value_lease = Ok s).
    rewrite bytes_value_bytes. cbn [mbind result_bind].
    by destruct s as [[? ? ? ? ? ? ? ? ? ? ? []] ?].
  - exact (proj1 (value_bytes_line (lease_value s))).
Qed.

#[local] Instance one_secret : SecretKeys := {
  signing_key_from_bytes _ := WriterExamples.key }.
#[local] Instance local_key_json : FromJson LocalClientKey := {
  from_json _ := Ok {| key_v := 1; key_archive_id := "archive_1";
                       key_origin_id := WriterExamples.client;
                       secret_key := of_bytes (replicate 32 "k"%char) |} }.

(** ** A machine *)

#[local] Existing Instance WorkTree.Examples.last_links.
(** The machine's tree objects are empty, and so are its checkouts. *)
#[local] Instance empty_trees : GitTrees := { tree_holds _ content := content = ∅ }.

Definition done (s : string) : result string Output :=
  Ok {| exit_code := Some 0%Z; stdout := s |}.
Definition failed : result string Output :=
  Ok {| exit_code := Some 1%Z; stdout := "" |}.
Definition failed_input : result (Stage * string) Output :=
  Ok {| exit_code := Some 1%Z; stdout := "" |}.

Definition head_commit : string := of_bytes (replicate 40 "a"%char).
Definition tree_name : string := of_bytes (replicate 40 "b"%char).

(** The next free name: the number of objects, in unary. *)
Definition next_name (w : World) : string :=
  let n := size (objects w) in
  of_bytes (replicate n "c"%char ++ replicate (40 - n) "d"%char).

Definition push (w : World) (commit reference : string) (allowed : bool)
    : result string Output * World :=
  match objects w !! commit with
  | Some _ => if allowed then (done "", set_ref reference commit w) else (failed, w)
  | None => (failed, w)
  end.

Definition handle_git (w : World) (c : GitCommand) : result string Output * World :=
  match c with
  | RemoteGetUrl _ => (done "file:///srv/archive", w)
  | RevParse revision =>
      (done (if decide (revision = "HEAD^{tree}") then tree_name else head_commit), w)
  | LsRemote _ reference => (done (ls_remote_text w reference), w)
  | CatCommit id =>
      (match objects w !! id with Some c => done (commit_text c) | None => failed end, w)
  | PushNew _ commit reference =>
      push w commit reference (bool_decide (current w reference = None))
  | PushCas _ commit reference expected =>
      push w commit reference (bool_decide (current w reference = expected))
  | IsAncestor _ _ | WriteTree _ => (failed, w)
  | WorktreeAdd _ commit =>
      (match objects w !! commit with Some _ => done "" | None => failed end, w)
  | _ => (done "", w)
  end.

Definition identity_line : string := "Archive Ledger <archive-ledger@localhost> 5 +0000".

Definition handle_input (w : World) (c : GitCommand) (input : bytes)
    : result (Stage * string) Output * World :=
  match c with
  | CommitTree tree parents =>
      let id := next_name w in
      if one_line tree && is_object_name id
         && forallb (λ p, bool_decide (is_Some (objects w !! p))) parents
         && bool_decide (objects w !! id = None)
      then (Ok {| exit_code := Some 0%Z; stdout := id +:+ newline |},
            add_commit id {| commit_tree := tree; commit_parents := parents;
                             identity := identity_line; commit_message := input |} w)
      else (failed_input, w)
  | _ => (failed_input, w)
  end.

Definition active_path : string := "local/clients/" +:+ ACTIVE_CLIENT_FILE.

Definition handle (w : World) (c : RemoteCall) : remote_answer c * World :=
  match c with
  | Git c => handle_git w c
  | GitInput c input => handle_input w c input
  | ReadWorktree _ _ => ([], w)
  | ReadTree => (later, w)
  | ReadLocal path =>
      (Ok (if decide (path = active_path) then as_bytes (WriterExamples.client +:+ newline)
           else []), w)
  | CurrentTime => (Ok (clock w), w)
  | NewUlid => ("01ARZ3NDEKTSV4RRFFQ69G5FAV", w)
  end.

Lemma push_pushes w commit reference (b : bool) (allowed : option string → Prop) :
  (b = true → allowed (current w reference)) →
  let '(out, w') := push w commit reference b in
  (w' = w ∧ ¬ succeeded out) ∨ pushes w commit reference allowed w'.
Proof.
  intros Hb. unfold push. destruct (objects w !! commit) as [c|] eqn:Hc; [|by left].
  destruct b; [right | by left]. split; [by rewrite Hc |]. right. auto.
Qed.

Lemma handle_exec w c : exec w c (handle w c).1 (handle w c).2.
Proof.
  destruct c as [c | c input | | | | |]; try done.
  - destruct c as [| | | | | id | | remote commit r | remote commit r expected | a d | | | path commit | | content];
      try done; cbn [handle handle_git fst snd].
    + split; [done |]. by intros o [= <-].
    + cbn. split; [done |]. destruct (objects w !! id) as [c|] eqn:Hc.
      * intros o [= <-] _. by exists c.
      * by intros o [= <-].
    + pose proof (push_pushes w commit r (bool_decide (current w r = None)) (fast_forward w commit))
        as Hp. destruct (push w commit r _) as [out w']. apply Hp.
      intros ->%bool_decide_eq_true. done.
    + pose proof (push_pushes w commit r (bool_decide (current w r = expected))
        (λ cur, cur = expected)) as Hp.
      destruct (push w commit r _) as [out w']. apply Hp. by intros ?%bool_decide_eq_true.
    + split; [done |]. by intros o [= <-].
    + split; [done |]. by destruct (objects w !! commit).
    + split; [done |]. by intros o [= <-].
  - destruct c; try done. cbn [handle handle_input].
    destruct (_ && _) eqn:Hok; [|by left]. rewrite !andb_true_iff in Hok.
    destruct Hok as [[[Htree Hname] Hparents] Hfresh]. rewrite forallb_forall in Hparents.
    right. exists (next_name w). split; [|by intros o [= <-]].
    exists {| commit_tree := tree; commit_parents := parents; identity := identity_line;
              commit_message := input |}.
    split; [reflexivity |]. split; [reflexivity |]. split; [reflexivity |].
    split; [done |]. split; [vm_compute; reflexivity |]. split; [done |]. split; [|split; [|done]].
    + intros p Hin. by eapply bool_decide_eq_true, Hparents, list_elem_of_In.
    + left. by apply bool_decide_eq_true_1 in Hfresh.
  - cbn. split; [done |]. by intros t [= ->].
Qed.

(** The machine as Git, the clock and the file system of a system. *)
Definition machine (w : World) (c : RemoteCall) (r : remote_answer c) (w' : World) : Prop :=
  handle w c = (r, w').

Lemma machine_documented w c r w' : machine w c r w' → exec w c r w'.
Proof. intros Hh. pose proof (handle_exec w c) as He. unfold machine in Hh. by rewrite Hh in He. Qed.

Fixpoint drive {A} (n : nat) (p : prog A) (w : World) : prog A * World :=
  match n, p with
  | S n, Do c k => let '(r, w') := handle w c in drive n (k r) w'
  | _, _ => (p, w)
  end.

Lemma drive_runs {A} n (p : prog A) w a w' :
  drive n p w = (Ret a, w') → runs machine drift p w a w'.
Proof.
  revert p w. induction n as [|n IH]; intros [b | c k] w; cbn; intros Hrun;
    try (injection Hrun as -> ->; constructor); try done.
  destruct (handle w c) as [r w1] eqn:He.
  eapply runs_call; [exact He | by apply IH].
Qed.

(** ** The runs *)

(** The commit the client has, and a remote that holds nothing yet. *)
Definition first_world : World := {|
  objects := {[ head_commit := {| commit_tree := tree_name; commit_parents := [];
                                  identity := identity_line; commit_message := [] |} ]};
  reflogs := ∅;
  clock := 5000
|}.

Definition no_outcome : Outcome := Acquired (Err HaltOutOfFuel).
Definition outcome_of (p : prog Outcome) : Outcome :=
  match p with Ret o => o | Do _ _ => no_outcome end.
Definition finished {A} (p : prog A) : bool := match p with Ret _ => true | Do _ _ => false end.

Definition synced_call : prog Outcome :=
  reports (sync_remote_observed "/archive/events" "/tmp" 3 "origin") Synced.
Definition synced_run : prog Outcome * World := drive 40 synced_call first_world.

Definition acquire_call : prog Outcome :=
  reports (acquire_archive_lease_with_duration "/archive/events" 3 "origin" 120000) Acquired.
Definition acquired_run : prog Outcome * World := drive 60 acquire_call synced_run.2.
Definition no_lease : V2CoordinationLease := {|
  held_version := 0; held_remote := ""; held_scope_kind := ""; held_scope_id := "";
  held_token_id := ""; held_by := ""; held_base_frontier := ""; held_from := 0; held_until := 0;
  held_commit := ""; lease_proof := Null |}.
Definition granted_lease (o : Outcome) : option V2CoordinationLease :=
  match o with Acquired (Ok lease) => Some lease | _ => None end.
Definition lease : V2CoordinationLease :=
  default no_lease (granted_lease (outcome_of acquired_run.1)).

Definition released_call : prog Outcome :=
  reports (release_archive_lease "/archive/events" 3 lease) (Released lease).
(** A second passes before the lease is given back. *)
Definition second_later (w : World) : World :=
  {| objects := objects w; reflogs := reflogs w; clock := clock w + 1000 |}.
Definition released_run : prog Outcome * World :=
  drive 40 released_call (second_later acquired_run.2).

Definition no_result : V2SyncResult := {|
  sync_version := 0; sync_remote_name := ""; local_commit_before := "";
  remote_commit_before := None; accepted_commit := ""; sync_frontier_hash := "";
  sync_origins := 0; sync_records := 0; fetched := false; pushed := false; merged := false |}.
Definition no_local : Local := {|
  sync_name := ""; local_verified := bare; local_before := "" |}.
Definition sync_of (o : Outcome) : option (Local * V2SyncResult) :=
  match o with Synced (Ok r) => Some r | _ => None end.
Definition first_sync : Local * V2SyncResult := default (no_local, no_result) (sync_of (outcome_of synced_run.1)).
Definition was_released (o : Outcome) : bool :=
  match o with Released _ (Ok ()) => true | _ => false end.

(** No entry of the lease ref is a release. *)
Definition unreleased (w : World) (scope : string) : bool :=
  forallb (λ c, match lease_at w c with
                | Some s => negb (bool_decide (state (lease_body s) = "released"))
                | None => true
                end) (log w (coordination_lease_ref scope)).

Lemma synced_ok :
  finished synced_run.1 && is_some_b (sync_of (outcome_of synced_run.1)) = true.
Proof. vm_compute. reflexivity. Qed.

Lemma acquired_ok :
  finished acquired_run.1 && is_some_b (granted_lease (outcome_of acquired_run.1)) = true.
Proof. vm_compute. reflexivity. Qed.

Lemma in_force_ok :
  unreleased acquired_run.2 (held_scope_id lease) && (held_from lease <=? 6000)%N
  && (6000 <=? held_until lease)%N = true.
Proof. vm_compute. reflexivity. Qed.

Lemma released_ok :
  finished released_run.1 && was_released (outcome_of released_run.1)
  && (clock released_run.2 =? 6000)%N = true.
Proof. vm_compute. reflexivity. Qed.

Lemma finished_Ret (p : prog Outcome) : finished p = true → p = Ret (outcome_of p).
Proof. by destruct p. Qed.

Lemma granted_is o : is_some_b (granted_lease o) = true →
  o = Acquired (Ok (default no_lease (granted_lease o))).
Proof. by destruct o as [[]| | |]. Qed.

Lemma sync_is o : is_some_b (sync_of o) = true →
  o = Synced (Ok (default (no_local, no_result) (sync_of o))).
Proof. by destruct o as [| |[]|]. Qed.

Lemma first_world_unleased : unleased first_world.
Proof.
  split_and!.
  - split; cbn.
    + intros id c Hc. apply lookup_singleton_Some in Hc as [<- <-]. by vm_compute.
    + intros id c Hc. apply lookup_singleton_Some in Hc as [<- <-]. by vm_compute.
    + intros id c p Hc Hp. apply lookup_singleton_Some in Hc as [<- <-].
      by apply elem_of_nil in Hp.
    + intros r c Hc. by apply elem_of_nil in Hc.
  - intros r l new old l' Hlog. change (log first_world r) with (@nil string) in Hlog.
    by destruct l.
  - done.
Qed.

Definition after_sync : list (prog Outcome) := [Ret (Synced (Ok first_sync))].
Definition after_acquire : list (prog Outcome) := after_sync ++ [Ret (Acquired (Ok lease))].
Definition after_release : list (prog Outcome) := after_acquire ++ [Ret (Released lease (Ok ()))].

Lemma drive_spawned ps p w n o :
  client_call p → finished (drive n p w).1 = true → outcome_of (drive n p w).1 = o →
  rtc (step machine) (ps, w) (ps ++ [Ret o], (drive n p w).2).
Proof.
  intros Hp Hf Ho. destruct (drive n p w) as [[a | c k] w'] eqn:Hrun; [|done]. cbn in *. subst o.
  eapply runs_spawned; [done |]. by eapply drive_runs.
Qed.

Lemma drive_reports {A} (p : remote A) f n w :
  finished (drive n (reports p f) w).1 = true → ∃ r, outcome_of (drive n (reports p f) w).1 = f r.
Proof.
  revert w. induction p as [a | c k IH] in n |- *; intros w; [by destruct n; exists a |].
  destruct n as [|n]; [done |]. cbn. destruct (handle w c) as [r w']. apply IH.
Qed.

Lemma drive_released ps root fuel l p w n :
  p = reports (release_archive_lease root fuel l) (Released l) →
  finished (drive n p w).1 = true → was_released (outcome_of (drive n p w).1) = true →
  rtc (step machine) (ps, w) (ps ++ [Ret (Released l (Ok ()))], (drive n p w).2).
Proof.
  intros -> Hf Hr. destruct (drive_reports _ _ _ _ Hf) as [r Hout]. rewrite Hout in Hr.
  assert (r = Ok ()) as -> by by destruct r as [[]|].
  apply (drive_spawned _ _ _ _ _ (calls_release root fuel l) Hf Hout).
Qed.

Lemma second_later_drift w : drift w (second_later w).
Proof. apply time_passes; [done | done |]. cbn. lia. Qed.

Lemma synced_reachable : rtc (step machine) ([], first_world) (after_sync, synced_run.2).
Proof.
  destruct (andb_prop _ _ synced_ok) as [Hs Hr].
  exact (drive_spawned [] synced_call first_world 40 _
    (calls_sync "/archive/events" "/tmp" 3 "origin") Hs (sync_is _ Hr)).
Qed.

Lemma acquired_reachable : rtc (step machine) ([], first_world) (after_acquire, acquired_run.2).
Proof.
  destruct (andb_prop _ _ acquired_ok) as [Ha Hg].
  refine (transitivity (R := rtc (step machine)) synced_reachable _).
  exact (drive_spawned after_sync acquire_call synced_run.2 60 _
    (calls_acquire "/archive/events" 3 "origin" 120000) Ha (granted_is _ Hg)).
Qed.

Lemma released_reachable : rtc (step machine) ([], first_world) (after_release, released_run.2).
Proof.
  destruct (andb_prop _ _ released_ok) as [[Hf Hr]%andb_prop _].
  refine (transitivity (R := rtc (step machine)) acquired_reachable _).
  refine (rtc_l _ _ (after_acquire, second_later acquired_run.2) _ _ _).
  { apply pool_drift. exact (second_later_drift acquired_run.2). }
  exact (drive_released after_acquire "/archive/events" 3 lease released_call
    (second_later acquired_run.2) 40 eq_refl Hf Hr).
Qed.

(** ** Witnesses *)

Lemma unreleased_sound w scope c s :
  unreleased w scope = true → c ∈ log w (coordination_lease_ref scope) →
  lease_at w c = Some s → state (lease_body s) ≠ "released".
Proof.
  unfold unreleased. rewrite forallb_forall. intros Hall Hc Hs Hstate.
  specialize (Hall c (proj1 (list_elem_of_In _ _) Hc)). rewrite Hs, Hstate in Hall. done.
Qed.

Lemma in_force_intro w l t :
  unreleased w (held_scope_id l) && (held_from l <=? t)%N && (t <=? held_until l)%N = true →
  in_force w l t.
Proof.
  intros [[Hun Hfrom%N.leb_le]%andb_prop Huntil%N.leb_le]%andb_prop. split; [done |].
  intros c s Hc Hs Hstate. by destruct (unreleased_sound w (held_scope_id l) c s Hun Hc Hs).
Qed.

Lemma lease_in_force : in_force acquired_run.2 lease 6000.
Proof. exact (in_force_intro _ _ _ in_force_ok). Qed.

Lemma clock_reached (b c : bool) w :
  b && c && (clock w =? 6000)%N = true → (clock w <= 6000)%N.
Proof. intros [_ ->%N.eqb_eq]%andb_prop. done. Qed.

Lemma in_after_acquire : Ret (Acquired (Ok lease)) ∈ after_acquire.
Proof. right. left. Qed.

Lemma leases_exclusive_witness :
  in_force acquired_run.2 lease 6000 ∧
  held_commit lease = held_commit lease ∧ held_token_id lease = held_token_id lease ∧
  held_by lease = held_by lease.
Proof.
  split; [exact lease_in_force |].
  exact (leases_exclusive machine machine_documented after_acquire acquired_run.2 lease lease 6000
    (ex_intro _ first_world (conj first_world_unleased acquired_reachable))
    in_after_acquire in_after_acquire eq_refl lease_in_force lease_in_force).
Defined.

Lemma synced_pair (p : Local * V2SyncResult) (ps : list (prog Outcome)) :
  Ret (Synced (Ok p)) ∈ ps → Ret (Synced (Ok (p.1, p.2))) ∈ ps.
Proof. by destruct p. Qed.

Lemma in_after_release : Ret (Synced (Ok (first_sync.1, first_sync.2))) ∈ after_release.
Proof. apply synced_pair. left. Qed.

Lemma published_history_kept_witness :
  (∀ r old new, old ∈ log released_run.2 r → current released_run.2 r = Some new →
     ancestor released_run.2 old new) ∧
  ∃ head, current released_run.2 CANONICAL_REF = Some head ∧
    ancestor released_run.2 (accepted_commit first_sync.2) head.
Proof.
  destruct (published_history_kept machine machine_documented after_release released_run.2
    (ex_intro _ first_world (conj first_world_unleased released_reachable))) as [Hlog Hsync].
  split; [exact Hlog |].
  destruct (Hsync first_sync.1 first_sync.2 in_after_release) as (_ & (head & Hcur & Hacc & _) & _).
  exact (ex_intro _ head (conj Hcur Hacc)).
Defined.

Lemma released_not_in_force_witness :
  ∃ released s newer older,
    log released_run.2 (coordination_lease_ref (held_scope_id lease))
    = newer ++ released :: held_commit lease :: older ∧
    lease_at released_run.2 released = Some s ∧ state (lease_body s) = "released" ∧
    ((not_after_utc_ms (lease_body s) <= 6000)%N → ¬ in_force released_run.2 lease 6000).
Proof.
  destruct (released_not_in_force machine machine_documented after_release released_run.2 lease 6000
    (ex_intro _ first_world (conj first_world_unleased released_reachable))
    ltac:(right; right; left)) as (c & s & newer & older & Hlog & Hs & Hstate & _ & _ & _ & Hforce).
  exact (ex_intro _ c (ex_intro _ s (ex_intro _ newer (ex_intro _ older
    (conj Hlog (conj Hs (conj Hstate Hforce))))))).
Defined.

(** A synchronization from the start, whatever others do meanwhile. *)
Lemma first_world_good : good first_world.
Proof.
  destruct first_world_unleased as (Hwf & Hlin & Hnone). split; [done | done |].
  intros scope. by rewrite Hnone.
Qed.

Lemma publication_checked_witness :
  good first_world ∧
  wpx exec grows good (sync_remote_observed "/archive/events" "/tmp" 3 "origin")
    (λ p w', checked 3 first_world p.1 p.2 w') first_world.
Proof.
  split; [exact first_world_good |].
  exact (publication_checked "/archive/events" "/tmp" 3 "origin" first_world first_world_good).
Defined.

(** A lease of the machine's client, signed and committed. *)
Definition request_body : CoordinationLeaseBody :=
  lease_request {| request_remote := "origin"; request_verified := bare;
                   request_client := WriterExamples.client; request_key := WriterExamples.key;
                   request_duration := 120000 |} 5000 125000 "lease_01arz3ndektsv4rrffq69g5fav" None.
Definition signed_request : SignedCoordinationLease :=
  unwrap Coordination.Examples.proof (sign_coordination_lease request_body WriterExamples.key).
Definition request_message : bytes := unwrap [] (lease_message signed_request).
Definition request_commit : Commit := {|
  commit_tree := tree_name; commit_parents := []; identity := identity_line;
  commit_message := request_message |}.
Definition registered : VerifiedV2Client :=
  default Clients.Examples.enrolled (Archive.clients bare !! WriterExamples.client).

Lemma lease_commit_reads_back_witness :
  parse_lease_commit head_commit bare "archive" "archive_1" (commit_text request_commit)
  = Ok signed_request.
Proof.
  apply (lease_commit_reads_back request_body WriterExamples.key signed_request request_message
    request_commit head_commit bare registered).
  - apply unwrap_ok. vm_compute. reflexivity.
  - apply unwrap_ok. vm_compute. reflexivity.
  - reflexivity.
  - reflexivity.
  - split; [vm_compute; reflexivity .. | constructor].
  - reflexivity.
  - reflexivity.
  - vm_compute. reflexivity.
  - vm_compute. reflexivity.
Defined.

(** A protected batch that waits while its lease runs out. *)
Definition protected_local : VerifiedV2Archive := {|
  Archive.genesis := WriterExamples.genesis;
  archive_genesis_hash := archive_genesis_hash bare;
  accepted_frontier := root_frontier; accepted_frontier_hash := root_hash;
  records := [Coordination.Examples.start]; archive_record_count := 1;
  Archive.clients := Coordination.Examples.registry; frontiers := ∅;
  segment_count := 1; frontier_count := 1
|}.
Definition behind : VerifiedV2Archive := {|
  Archive.genesis := WriterExamples.genesis;
  archive_genesis_hash := archive_genesis_hash bare;
  accepted_frontier := root_frontier; accepted_frontier_hash := root_hash;
  records := []; archive_record_count := 0;
  Archive.clients := Coordination.Examples.registry; frontiers := ∅;
  segment_count := 0; frontier_count := 1
|}.
Definition published_commit : string := of_bytes (replicate 40 "e"%char).
Definition checked_world : World := {|
  objects := objects first_world;
  reflogs := <[ CANONICAL_REF := [published_commit] ]>
               {[ coordination_lease_ref "archive_1" := [Coordination.Examples.commit] ]};
  clock := 3000
|}.

(** The lease ends at 121000; the push is accepted at 200000. *)
Lemma publication_outlives_check_witness :
  ∃ w', runs machine drift
    (publish_local "/archive/events"
       {| sync_name := "origin"; local_verified := protected_local; local_before := head_commit |}
       behind published_commit) checked_world
    (Ok (Some (sync_result "origin" head_commit (Some published_commit) head_commit
                 protected_local true true false))) w' ∧
    clock w' = 200000%N ∧ current w' CANONICAL_REF = Some head_commit ∧
    current w' (coordination_lease_ref "archive_1")
    = current checked_world (coordination_lease_ref "archive_1").
Proof.
  apply (publication_outlives_check "/archive/events" machine
    {| sync_name := "origin"; local_verified := protected_local; local_before := head_commit |}
    behind published_commit checked_world 200000);
    first [reflexivity | vm_compute; reflexivity | vm_compute; lia | vm_compute; discriminate].
Defined.

Lemma pushes_bounded_witness :
  calls_within (H := remote_interface) is_push 13
    (append_coordinated_batch "/archive/events" "/tmp" 3 "origin" Null (λ _, mret 7)).
Proof.
  apply (pushes_bounded "/archive/events" "/tmp" 3 "origin" 120000 lease Null (λ _, mret 7)).
  intros v. exact I.
Defined.
