(* ===== verification/RecoveryExamples.v ===== *)
(** An append of [WriterExamples.v] that is stopped after its frontier is written, and the
    recovery from it: the examples of [Interrupted.v]. *)
From Stdlib Require Import ZArith NArith Lia Ascii.
From stdpp Require Import base decidable list gmap strings countable.
From S2P Require Import Prelude.
From S2P Require Import Text.
From S2P Require Import External.
From S2P Require Import Ids.
From S2P Require Import Frontier.
From S2P Require Import Record.
From S2P Require Import Genesis.
From S2P Require Import Store.
From S2P Require Import Segment.
From S2P Require Import FrontierGraph.
From S2P Require Import Clients.
From S2P Require Import Coordination.
From S2P Require Import Batches.
From S2P Require Import Archive.
From S2P Require Import Codec.
From S2P Require Import Append.
From S2P Require Import Packing.
From S2P Require Import Sealing.
From S2P Require Import WriterExamples.
From S2P Require Import Ranges.
From S2P Require Import Visit.
From S2P Require Import Streaming.
From S2P Require Import WorkTree.
From S2P Require Import LocalFiles.
From S2P Require Import Recovery.
From S2P Require Import Interrupted.

#[local] Existing Instance Genesis.Examples.two_keys.
#[local] Existing Instance Genesis.Examples.two_keys_laws.
#[local] Existing Instance sized_blake3.
#[local] Existing Instance sized_blake3_laws.
#[local] Existing Instance envelope_to_json.
#[local] Existing Instance envelope_from_json.
#[local] Existing Instance value_to_json.
#[local] Existing Instance body_to_json.
#[local] Existing Instance manifest_to_json.
#[local] Existing Instance manifest_from_json.
#[local] Existing Instance frontier_to_json.
#[local] Existing Instance frontier_from_json.
#[local] Existing Instance Archive.Examples.body_json.
#[local] Existing Instance Archive.Examples.genesis_json.
#[local] Existing Instance Archive.Examples.lease_json.
#[local] Existing Instance Archive.Examples.lease_from_value.
#[local] Existing Instance WriterExamples.genesis_from_json.
#[local] Existing Instance record_json_laws.
#[local] Existing Instance manifest_json_laws.

#[local] Instance codec_errors : JsonErrors := {
  is_eof e := bool_decide (e = "invalid value") }.

#[local] Instance codec_eof_laws : ManifestEofLaws.
Proof.
  split. intros m b p Hb Hp Hne.
  assert (value_bytes (manifest_value m) = b) as Heq by exact (f_equal (unwrap []) Hb).
  rewrite <- Heq in Hp, Hne. exists "invalid value". split; [|done].
  change (bytes_value p ≫= value_manifest = Err "invalid value").
  by rewrite (bytes_value_cut (manifest_value m) p Hp Hne).
Qed.

(** ** The accepted tree *)

Definition directories : list string := ["events"; "events/v2"; "events/v2/origins";
  "events/v2/origins/" +:+ client; "manifests"; "manifests/v2"; "manifests/v2/origins";
  manifest_directory; "frontiers"; "frontiers/v2"].
Definition base : LocalTree :=
  ((λ c, LocalFile c 1) <$> disk) ∪ list_to_map ((λ d, (d, LocalDirectory)) <$> directories).

Definition seen : VerifiedV2Archive := unwrap bare (verify_compact 3 (local_tree base)).
Definition show (e : V2StoreError) : string := "error".
Definition pretty_json (v : Value) : result string bytes := Ok (value_bytes v).
Definition no_git (path : string) : result V2StoreError string := Ok "".

Lemma base_verifies : verify_compact 3 (local_tree base) = Ok seen.
Proof. apply unwrap_ok. vm_compute. reflexivity. Qed.

Lemma client_is_origin : is_origin_id client = true.
Proof. vm_compute. reflexivity. Qed.

(** ** The append *)

Definition temp1 : string := segment_temp client (ulid 7).
Definition temp2 : string := head_temp (ulid 8).
Definition attempted : option (result V2StoreError (V2AppendResult * list Effect)) :=
  append_effects ulid seen client WriterExamples.key 1700000001000 "scan" 2 (Obj []) defaults new_items 3
    temp1 temp2.
Definition planned : V2AppendResult * list Effect := unwrap (no_result, []) (appended attempted).

Definition before : Files := {| canonical := base; local := ∅ |}.
Definition finished : Files := unwrap before (perform_all planned.2 before).

(** The first four of the six effects. *)
Definition stopped : Files := unwrap before (perform_all (take 4 planned.2) before).

Lemma attempted_ok : is_ok (appended attempted) = true.
Proof. vm_compute. reflexivity. Qed.
Lemma finished_ok : is_ok (perform_all planned.2 before) = true.
Proof. vm_compute. reflexivity. Qed.
Lemma stopped_ok : is_ok (perform_all (take 4 planned.2) before) = true.
Proof. vm_compute. reflexivity. Qed.

Lemma attempted_run :
  append_effects ulid seen client WriterExamples.key 1700000001000 "scan" 2 (Obj []) defaults
    new_items 3 (segment_temp client (ulid 7)) (head_temp (ulid 8))
  = Some (Ok (planned.1, planned.2)).
Proof.
  fold temp1. fold temp2. fold attempted. rewrite <- surjective_pairing. unfold planned.
  exact (appended_ok (no_result, []) attempted attempted_ok).
 Qed.
Lemma finished_run : perform_all planned.2 before = Ok finished.
Proof. unfold finished. exact (unwrap_ok before _ finished_ok). Qed.
Lemma stopped_run : perform_all (take 4 planned.2) before = Ok stopped.
Proof. unfold stopped. exact (unwrap_ok before _ stopped_ok). Qed.

Lemma append_effects_refine_witness :
  append_verified ulid seen client WriterExamples.key 1700000001000 "scan" 2 (Obj []) defaults new_items 3
    (disk_of (canonical before)) = Some (Ok (planned.1, disk_of (canonical finished))).
Proof.
  exact (proj1 (append_effects_refine ulid seen client WriterExamples.key 1700000001000 "scan" 2 (Obj [])
    defaults new_items 3 (ulid 7) (ulid 8) planned.1 planned.2 before finished attempted_run
    finished_run)).
Defined.

(** ** It is interrupted *)

Definition free_checked (path : string) (t : LocalTree) : bool :=
  forallb (λ d, match t !! d with None | Some LocalDirectory => true | _ => false end) (parents path).

Lemma free_checked_ok path t : free_checked path t = true → free_above path t.
Proof.
  unfold free_checked. rewrite forallb_forall. intros Hall d Hd.
  specialize (Hall d (proj1 (list_elem_of_In _ _) Hd)).
  destruct (t !! d) as [[]|]; [done | by right | done | by left].
Qed.

Definition detached_checked : bool :=
  forallb (λ k, match child_name FRONTIERS k with
                | Some name => negb (ends_with ".json" name) || names_accepted (frontiers seen) k
                | None => true
                end) (map_to_list base).*1.

Definition is_directory_at (t : LocalTree) (d : string) : bool :=
  match t !! d with Some LocalDirectory => true | _ => false end.

Lemma base_free :
  negb (is_some_b (base !! segment_relative_path client 4))
  && negb (is_some_b (base !! manifest_relative_path client 4))
  && free_checked (segment_relative_path client 4) base
  && free_checked (manifest_relative_path client 4) base = true.
Proof. vm_compute. reflexivity. Qed.
Lemma base_frontiers :
  is_directory_at base FRONTIERS && is_directory_at base "frontiers" && detached_checked = true.
Proof. vm_compute. reflexivity. Qed.

Definition next_is (first : N) : bool :=
  match find_origin (origins (accepted_frontier seen)) client with
  | None => false
  | Some tail => match checked_add_u64 (Frontier.seq tail) 1 with
                 | Some n => (n =? first)%N
                 | None => false
                 end
  end.
Lemma base_next : next_is 4 = true.
Proof. vm_compute. reflexivity. Qed.

Lemma is_directory_ok t d : is_directory_at t d = true → t !! d = Some LocalDirectory.
Proof. unfold is_directory_at. by destruct (t !! d) as [[]|]. Qed.
Lemma is_none_ok {A} (o : option A) : negb (is_some_b o) = true → o = None.
Proof. by destruct o. Qed.

Lemma base_settled : settled no_git no_git 3 base seen client 4.
Proof.
  pose proof base_free as Hfree. pose proof base_frontiers as Hfrontiers.
  apply andb_true_iff in Hfree as [Hfree Hfm]. apply andb_true_iff in Hfree as [Hfree Hfs].
  apply andb_true_iff in Hfree as [Hns Hnm].
  apply andb_true_iff in Hfrontiers as [Hfrontiers Hdet].
  apply andb_true_iff in Hfrontiers as [Hd1 Hd2].
  split.
  - exact base_verifies.
  - pose proof base_next as Hnext. unfold next_is in Hnext.
    destruct (find_origin _ _) as [o|]; [|done].
    destruct (checked_add_u64 _ _) as [n|]; [|done]. by apply N.eqb_eq in Hnext as ->.
  - exact (conj (is_none_ok _ Hns) (conj (free_checked_ok _ _ Hfs) (conj eq_refl eq_refl))).
  - exact (conj (is_none_ok _ Hnm) (conj (free_checked_ok _ _ Hfm) (conj eq_refl eq_refl))).
  - exact (conj (is_directory_ok _ _ Hd1) (is_directory_ok _ _ Hd2)).
  - intros name node Hone Hjson Hnode. left. unfold detached_checked in Hdet.
    pose proof (proj1 (forallb_forall _ _) Hdet (FRONTIERS +:+ "/" +:+ name)) as Hname.
    cbv beta in Hname. rewrite (proj2 (child_name_Some _ _ _) (conj eq_refl Hone)), Hjson in Hname.
    cbn [negb orb] in Hname. refine (Hname (proj1 (list_elem_of_In _ _) _)).
    exact (list_elem_of_fmap_2 fst _ (FRONTIERS +:+ "/" +:+ name, node)
      (proj2 (elem_of_map_to_list base _ _) Hnode)).
Qed.

(** The append is stopped with all its files in place but [HEAD]. *)
Lemma crashes_prefix n es s s' : perform_all (take n es) s = Ok s' → crashes es s s'.
Proof.
  unfold perform_all. revert es s. induction n as [|n IH]; intros es s.
  { destruct es; intros [= ->]; apply crash_before. }
  destruct es as [|e es]; [intros [= ->]; apply crash_before |]. cbn.
  intros (s1 & Hs1 & Hrun)%bind_Ok. eapply crash_after; [exact Hs1 | by apply IH].
Qed.

Lemma base_clear : clear base client 4 base.
Proof. split; [done |]. intros q. by left. Qed.

Definition planned_path : string := unwrap "" (frontier_path (result_frontier_hash planned.1)).
Lemma planned_fresh :
  is_ok (frontier_path (result_frontier_hash planned.1)) && negb (is_some_b (base !! planned_path))
  = true.
Proof. vm_compute. reflexivity. Qed.

Lemma ulid_one_name n : one_name (ulid n).
Proof.
  unfold ulid. generalize (Ascii.ascii_of_nat n). intros [[] [] [] [] [] [] [] []];
    apply one_name_closed; vm_compute; reflexivity.
Qed.

Lemma items_readable : readable ulid (Obj []) defaults new_items.
Proof. destruct example_appendable as [_ ? ? ? ?]. by split. Qed.

#[local] Abbreviation example_lifetime :=
  (lifetime show pretty_json no_git no_git 3 base seen client 4).
#[local] Abbreviation recover :=
  (recover_unpublished_append show pretty_json no_git no_git 3 client 4
    (accepted_frontier_hash seen)).

Lemma stopped_reached : example_lifetime stopped.
Proof.
  eapply (life_append_stopped _ _ _ _ _ _ _ _ _ before (ulid 5) None before ulid WriterExamples.key
    1700000001000 "scan" 2 (Obj []) defaults new_items 3 (ulid 7) (ulid 8) planned.1 planned.2).
  - apply life_start, base_clear.
  - exact (recover_clear _ _ _ _ _ _ _ _ _ client_is_origin (ulid 5) before base_settled base_clear).
  - apply ulid_one_name.
  - apply ulid_one_name.
  - exact items_readable.
  - exact attempted_run.
  - exists planned_path. pose proof planned_fresh as [Hok Hnone]%andb_true_iff.
    exact (conj (unwrap_ok "" _ Hok) (conj (is_none_ok _ Hnone) (conj eq_refl eq_refl))).
  - apply (crashes_prefix 4). rewrite take_take. exact stopped_run.
Qed.

(** ** History is kept, and the next recovery succeeds *)

Lemma interruptions_keep_history_witness :
  base ⊆ canonical stopped ∧ verify_compact 3 (local_tree (canonical stopped)) = Ok seen.
Proof.
  exact (interruptions_keep_history show pretty_json no_git no_git 3 base seen client 4
    client_is_origin stopped base_settled stopped_reached).
Defined.

(** The client's own directory is empty. *)
Definition rebooted : Files := {| canonical := canonical stopped; local := ∅ |}.

Lemma empty_place n : place (ulid n) ∅.
Proof. split; [apply ulid_one_name | by left | by left | done | done]. Qed.

Lemma pretty_total v : ∃ b, pretty_json v = Ok b.
Proof. by eexists. Qed.

Lemma next_recovery_succeeds_witness :
  ∃ moved s', recover (ulid 9) rebooted = Ok (moved, s') ∧ clear base client 4 (canonical s').
Proof.
  destruct (next_recovery_succeeds show pretty_json no_git no_git 3 base seen client 4
    client_is_origin rebooted (ulid 9) base_settled (life_local _ _ _ _ _ _ _ _ _ _ _ stopped_reached)
    (empty_place 9) pretty_total) as (moved & s' & Hrun & Hclear & _).
  exact (ex_intro _ moved (ex_intro _ s' (conj Hrun Hclear))).
Defined.

(** What the recovery moves, run. *)
Definition recovered : result (Halt V2StoreError) (option string * Files) := recover (ulid 9) rebooted.
Definition outcome : option string * Files := unwrap (None, before) recovered.

Lemma recovered_ok :
  is_ok recovered && negb (is_some_b (canonical outcome.2 !! segment_relative_path client 4))
  && is_some_b (local outcome.2 !! (retained_at (ulid 9) +:+ "/" +:+ "segment.jsonl")) = true.
Proof. vm_compute. reflexivity. Qed.

Lemma recovered_run : recover (ulid 9) rebooted = Ok (outcome.1, outcome.2).
Proof.
  pose proof recovered_ok as [[Hok _]%andb_true_iff _]%andb_true_iff.
  rewrite <- surjective_pairing. exact (unwrap_ok (None, before) recovered Hok).
Qed.

Lemma stopped_segment : is_some_b (canonical rebooted !! segment_relative_path client 4) = true.
Proof. vm_compute. reflexivity. Qed.

Lemma moved_differs : canonical outcome.2 !! segment_relative_path client 4
  ≠ canonical rebooted !! segment_relative_path client 4.
Proof.
  pose proof recovered_ok as [[_ Hno]%andb_true_iff _]%andb_true_iff. apply is_none_ok in Hno.
  intros Heq. pose proof stopped_segment as Hs. rewrite <- Heq, Hno in Hs. discriminate Hs.
Qed.

Lemma recovery_moves_only_unpublished_witness : ∃ v retained name,
  verify_compact 3 (local_tree (canonical rebooted)) = Ok v ∧ outcome.1 = Some retained ∧
  local outcome.2 !! (retained +:+ "/" +:+ name)
  = canonical rebooted !! segment_relative_path client 4.
Proof.
  destruct (recovery_moves_only_unpublished show pretty_json no_git no_git 3 client 4
    client_is_origin (accepted_frontier_hash seen) (ulid 9) rebooted outcome.1 outcome.2
    recovered_run (segment_relative_path client 4)) as [Hsame | Hmoved].
  - exfalso. revert Hsame. apply moved_differs.
  - destruct Hmoved as (v & retained & name & Hv & _ & _ & _ & Hm & Hl).
    exact (ex_intro _ v (ex_intro _ retained (ex_intro _ name (conj Hv (conj Hm Hl))))).
Defined.
