(* ===== verification/PublicationExamples.v ===== *)
(** The append of [RecoveryExamples.v], finished but without its Git commit, is published: the
    example of [Published.v]. *)
From Stdlib Require Import ZArith NArith Lia Ascii.
From stdpp Require Import base decidable list gmap strings.
From S2P Require Import Prelude.
From S2P Require Import Text.
From S2P Require Import External.
From S2P Require Import Ids.
From S2P Require Import Frontier.
From S2P Require Import Record.
From S2P Require Import Genesis.
From S2P Require Import Store.
From S2P Require Import Segment.
From S2P Require Import Clients.
From S2P Require Import Coordination.
From S2P Require Import Archive.
From S2P Require Import Codec.
From S2P Require Import Append.
From S2P Require Import WriterExamples.
From S2P Require Import Ranges.
From S2P Require Import Visit.
From S2P Require Import Streaming.
From S2P Require Import WorkTree.
From S2P Require Import LocalFiles.
From S2P Require Import Interaction.
From S2P Require Import Remote.
From S2P Require Import Publication.
From S2P Require Import Repository.
From S2P Require Import Published.
From S2P Require Import RecoveryExamples.

#[local] Existing Instance Genesis.Examples.two_keys.
#[local] Existing Instance Genesis.Examples.two_keys_laws.
#[local] Existing Instance sized_blake3.
#[local] Existing Instance sized_blake3_laws.
#[local] Existing Instance envelope_to_json.
#[local] Existing Instance envelope_from_json.
#[local] Existing Instance value_to_json.
#[local] Existing Instance body_to_json.
#[local] Existing Instance manifest_to_json.
#[local] Existing Instance manifest_from_json.
#[local] Existing Instance frontier_to_json.
#[local] Existing Instance frontier_from_json.
#[local] Existing Instance Archive.Examples.body_json.
#[local] Existing Instance Archive.Examples.genesis_json.
#[local] Existing Instance Archive.Examples.lease_json.
#[local] Existing Instance Archive.Examples.lease_from_value.
#[local] Existing Instance WriterExamples.genesis_from_json.

(** ** A repository that answers *)

Definition blob_id (b : bytes) : string := blake3_hex b.
Definition git_path (name : string) : string := ".git/" +:+ name.

Lemma blob_named b : is_object_name (blob_id b) = true.
Proof.
  pose proof (blake3_hex_lower_64 b) as Hb. unfold is_lower_hex_64 in Hb. unfold is_object_name, blob_id.
  apply andb_true_iff in Hb as [Hlen Hb]. rewrite Hb, andb_true_r.
  apply Nat.eqb_eq in Hlen. by rewrite Hlen.
Qed.

Definition finished_with (text : string) : result string Output :=
  Ok {| exit_code := Some 0%Z; stdout := text |}.
Definition no_output : result string Output := Ok {| exit_code := Some 1%Z; stdout := "" |}.
Definition print_if (b : bool) (text : string) : result string Output :=
  if b then finished_with text else no_output.

Definition show_blob (w : Repository) (revision path : string) : result string Output :=
  match local_commits w !! (if bool_decide (revision = "HEAD") then head_id w else revision),
        disk_of base !! path with
  | Some commit, Some content =>
      match lc_tree commit !! path with
      | Some (mode, object) => print_if (bool_decide (object = blob_id content)) (of_bytes content)
      | None => no_output
      end
  | _, _ => no_output
  end.

Definition untracked_paths (w : Repository) : list string :=
  filter (λ path, path ∉ ie_path <$> index w)
    ((filter (λ e, is_directory e.2 = false) (map_to_list (work w))).*1).

Definition hash_text (w : Repository) (path : string) : result string Output :=
  match work w !! path with
  | Some (LocalFile content _) => finished_with (blob_id content +:+ newline)
  | _ => no_output
  end.

Definition next_commit (w : Repository) : string :=
  of_bytes (replicate (S (size (local_commits w))) "c"%char
            ++ replicate (39 - size (local_commits w)) "d"%char).
Definition commit_index (w : Repository) : Repository := {|
  head_id := next_commit w;
  local_commits := <[next_commit w := {| lc_tree := index_tree (index w);
                                        lc_parents := head_id w :: merge_heads w |}]> (local_commits w);
  index := index w; merge_heads := []; state_files := state_files w; work := work w |}.
Definition can_commit (w : Repository) : bool :=
  is_object_name (next_commit w) && forallb (λ e, bool_decide (ie_stage e = "0")) (index w)
  && negb (is_some_b (local_commits w !! next_commit w)).

Definition handle_git (w : Repository) (c : LocalGit) : result string Output * Repository :=
  match c with
  | ShowBlob revision path => (show_blob w revision path, w)
  | RevParseHead => (finished_with (head_id w +:+ newline), w)
  | GitPath name => (print_if (bool_decide (trim (git_path name) = git_path name)) (git_path name), w)
  | LsTree commit =>
      (match local_commits w !! commit with
       | Some c => let l := map_to_list (lc_tree c) in
                   print_if (forallb tidy_tree l) (text_of (tree_line <$> l))
       | None => no_output
       end, w)
  | LsStage => (print_if (forallb tidy_index (index w)) (text_of (index_line <$> index w)), w)
  | LsFlags => (finished_with (text_of ((λ e, "H " +:+ ie_path e) <$> index w)), w)
  | LsOthers => let l := untracked_paths w in (print_if (forallb tracked_path l) (text_of l), w)
  | HashObject path | WriteObject path => (hash_text w path, w)
  | LogPath _ => (finished_with "", w)
  | UpdateIndex mode object path =>
      (finished_with "", set_index (stage_entry mode object path (index w)) w)
  | CommitStaged _ => if can_commit w then (finished_with "", commit_index w) else (no_output, w)
  end.

Definition status_of (w : Repository) (path : string) : Status :=
  match work w !! path with
  | Some (LocalFile _ n) => Found {| file_kind := RegularFile; links := n; executable := false |}
  | Some LocalDirectory => Found {| file_kind := DirectoryFile; links := 1; executable := false |}
  | Some LocalOther => Found {| file_kind := OtherFile; links := 1; executable := false |}
  | None => if bool_decide (state_files w = []) then Missing else Unreadable "error"
  end.

Definition handle (w : Repository) (c : PublicationCall) : publication_answer c * Repository :=
  match c with
  | RunGit c => handle_git w c
  | Lstat path => (status_of w path, w)
  | ReadCanonical path =>
      (match work w !! path with Some (LocalFile content _) => Ok content | _ => Err "error" end, w)
  | ReadCanonicalTree => (local_tree (work w), w)
  | ReadSelector => (Ok (as_bytes (client +:+ newline)), w)
  end.

Lemma print_if_Ok b text o : print_if b text = Ok o → success o = true → b = true ∧ stdout o = text.
Proof. destruct b; intros [= <-]; done. Qed.

Lemma untracked_elem w path : path ∈ untracked_paths w ↔ is_untracked w path.
Proof.
  unfold untracked_paths, is_untracked. rewrite list_elem_of_filter, (list_elem_of_fmap fst).
  split.
  - intros [Hi ([p node] & -> & Hin)]. apply list_elem_of_filter in Hin as [Hd Hin].
    apply elem_of_map_to_list in Hin. split; [by exists node | done].
  - intros [(node & Hin & Hd) Hi]. split; [done |]. exists (path, node). split; [done |].
    by rewrite list_elem_of_filter, elem_of_map_to_list.
Qed.

(** It answers as documented. *)
Lemma answers_documented w c : repository_exec blob_id git_path w c (handle w c).1 (handle w c).2.
Proof.
  destruct c as [c | path | path | |]; [| | | done..].
  - destruct c as [revision path | | name | commit | | | | path | path | path | mode object path | kind];
      cbn [repository_exec git_step handle handle_git fst snd]; try (split; [done |]; intros o Ho Hs).
    + unfold show_blob in Ho. cbn [prints].
      destruct (local_commits w !! _) as [c|] eqn:Hc; [|injection Ho as <-; done].
      destruct (disk_of base !! path) as [content|]; [|injection Ho as <-; done].
      destruct (lc_tree c !! path) as [[mode object]|] eqn:Ht; [|injection Ho as <-; done].
      destruct (print_if_Ok _ _ _ Ho Hs) as [->%bool_decide_eq_true_1 ->].
      by exists c, mode, content.
    + by injection Ho as <-.
    + destruct (print_if_Ok _ _ _ Ho Hs) as [Hb%bool_decide_eq_true_1 ->]. exact Hb.
    + cbn [prints]. destruct (local_commits w !! commit) as [c|]; [|injection Ho as <-; done].
      destruct (print_if_Ok _ _ _ Ho Hs) as [Hb ->]. by exists c, (map_to_list (lc_tree c)).
    + by destruct (print_if_Ok _ _ _ Ho Hs) as [Hb ->].
    + done.
    + destruct (print_if_Ok _ _ _ Ho Hs) as [Hb ->]. exists (untracked_paths w).
      split; [|done]. intros path. apply untracked_elem.
    + intros content n Hw. unfold hash_text in Ho. rewrite Hw in Ho. by injection Ho as <-.
    + intros content n Hw. unfold hash_text in Ho. rewrite Hw in Ho. by injection Ho as <-.
    + done.
    + by right.
    + destruct (can_commit w) eqn:Hc; [right | left; by split].
      unfold can_commit in Hc. apply andb_true_iff in Hc as [[Hn Hs]%andb_true_iff Hf].
      exists (next_commit w). split_and!; try done.
      * rewrite forallb_forall in Hs. apply Forall_forall. intros e He.
        specialize (Hs e (proj1 (list_elem_of_In _ _) He)).
        by apply bool_decide_eq_true_1 in Hs.
      * by destruct (local_commits w !! next_commit w).
  - split; [done |]. cbn. unfold status_of, inspected.
    destruct (work w !! path) as [[content n| |]|] eqn:Hw; cbn; rewrite ?Hw; try done.
    case_bool_decide as Hs; [|done]. split; [done |]. rewrite Hs. by intros name ?%elem_of_nil.
  - split; [done |]. cbn. intros b content n Hb Hw. rewrite Hw in Hb. by injection Hb.
Qed.

Fixpoint drive {A} (n : nat) (p : prog (H := publication_interface) A) (w : Repository)
    : prog (H := publication_interface) A * Repository :=
  match n, p with
  | S n, Do c k => let '(r, w') := handle w c in drive n (k r) w'
  | _, _ => (p, w)
  end.

Lemma drive_alone {A} n (p : prog (H := publication_interface) A) w a w' :
  drive n p w = (Ret a, w') →
  runs (H := publication_interface) (repository_exec blob_id git_path) (λ _ _, False) p w a w'.
Proof.
  revert p w. induction n as [|n IH]; intros [b | c k] w; cbn; intros Hrun;
    try (injection Hrun as -> ->; constructor); try done.
  pose proof (answers_documented w c) as He. destruct (handle w c) as [r w1].
  eapply runs_call; [exact He | by apply IH].
Qed.

(** ** The run *)

(** The last commit has the files of before the append. *)
Definition old_tree : Entries := files_tree blob_id base.
Definition old_commit : string := of_bytes (replicate 40 "a"%char).
Definition waiting : Repository := {|
  head_id := old_commit;
  local_commits := {[ old_commit := {| lc_tree := old_tree; lc_parents := [] |} ]};
  index := (λ e, {| ie_path := e.1; ie_mode := e.2.1; ie_object := e.2.2; ie_stage := "0" |})
             <$> map_to_list old_tree;
  merge_heads := [];
  state_files := [];
  work := canonical finished |}.

Definition publication_run : prog (H := publication_interface) (result (Halt V2StoreError) (option string))
    * Repository :=
  drive 2000 (recover_pending_publication_locked show "root" 6) waiting.
Definition published_repository : Repository := publication_run.2.

(** The commit a run returned. *)
Definition commit_of (p : prog (H := publication_interface) (result (Halt V2StoreError) (option string)))
    : option string :=
  match p with Ret (Ok c) => c | _ => None end.
Definition new_commit : string := default "" (commit_of publication_run.1).

Lemma publication_returns : is_some_b (commit_of publication_run.1) = true.
Proof. vm_compute. reflexivity. Qed.

Lemma publication_runs :
  runs (H := publication_interface) (repository_exec blob_id git_path) (λ _ _, False)
    (recover_pending_publication_locked show "root" 6) waiting (Ok (Some new_commit))
    published_repository.
Proof.
  apply (drive_alone 2000). fold publication_run. unfold published_repository, new_commit.
  pose proof publication_returns as Hok. destruct publication_run as [p w']. cbn [fst snd] in *.
  destruct p as [[[c|]|]|]; [done | discriminate Hok..].
Qed.

Lemma waiting_kept : well_kept waiting.
Proof. split; [vm_compute; reflexivity | intros Hno; by destruct Hno]. Qed.

Lemma publication_recovery_safe_witness :
  published blob_id 6 waiting published_repository ∧ head_id published_repository = new_commit.
Proof.
  exact (proj1 (proj2 (proj2 (proj2
    (publication_recovery_safe blob_id git_path show "root" 6 blob_named waiting (Ok (Some new_commit))
       published_repository waiting_kept publication_runs)))) new_commit eq_refl).
Defined.
